(* ===== verification/_CoqProject ===== *)
-Q . S2P
Prelude.v
Conc.v
GoStrings.v
Netip.v
Glob.v
Json.v
Encoding.v
Schema.v
JsonRoundtrip.v
JsonRules.v
Matcher.v
Compile.v
HostIndex.v
Egress.v
Auth.v
RuleSet.v
MaskedKey.v
DefaultRuleset.v
DefaultTable.v
Builtin.v
Storage.v
Engine.v
EngineCorrect.v
EngineSamples.v
Headers.v
HttpError.v
Actions.v
CacheControl.v
Outcall.v
OutcallCorrect.v
OutcallSamples.v
Authority.v
ClientIP.v
Effects.v
Proxy.v
Http1.v
ProxySafety.v
ProxyPolicy.v
ProxySamples.v
Wire.v
Peek.v
Relay.v
Control.v
GoUrl.v
Config.v
X509.v
CertKeys.v
CertChain.v
StorageTree.v
StorageS3.v
StorageStack.v
StorageOpen.v
Otlp.v
Spool.v
Telemetry.v
Services.v
CertCache.v
CertCorrect.v
CertSelf.v
CertCA.v
CertInstance.v
CertSamples.v
CertGo.v
CertConc.v
CertRaces.v
Admin.v
Acceptors.v
Instruments.v
EngineGo.v
EngineConc.v
EngineBounds.v
EngineRaces.v
AccessLog.v
Streams.v
Upstream.v
ConfigLog.v
Startup.v
