(* ===== verification/Prelude.v ===== *)
(** * A verification of mitmania, an intercepting HTTP(S) proxy

    mitmania accepts client connections (explicit CONNECT and absolute-form
    requests, or transparently intercepted ones), looks up the rules of the
    client's source address, authenticates the client if they ask for it, matches
    the connection against them, resolves and pins the destination under an egress
    policy, and then splices the connection, or terminates TLS and runs every
    request and response through the matched rule's actions, some of which ask an
    external broker.  To terminate TLS it clones the server's certificate chain under
    its own CA.  A control API edits the rule documents; a storage backend holds them
    and the certificates.

    Every file translates source files under src/ definition by definition; a
    definition keeps the name of the function it translates wherever two functions
    do not share one.

    ** The parts and their files

    - The ground: [Prelude] (byte strings, the [result] type and its monad,
      lemmas on lists), [Conc] (goroutines over a shared state: programs, pools,
      schedules, and a rely-guarantee logic for them), [GoStrings] (strings, strconv,
      header names), [Netip] (net/netip: addresses, prefixes, their text and its round trip), [Glob]
      (path.Match), [Json], [JsonRoundtrip] (encoding/json values, scanner and
      printer, and their round trip), [Encoding] (hex, base64, digests), [GoUrl]
      (net/url, path/filepath).
    - Rules, internal/rules: [Schema] (schema.go: documents), [JsonRules] (their
      decoders and encoders), [Matcher] and [Compile] (compile.go,
      outcall_action.go), [HostIndex] (host_index.go), [Egress] (egress.go),
      [Auth] (auth.go), [RuleSet] (engine.go: lookups in one rule set),
      [MaskedKey], [DefaultRuleset], [DefaultTable] (defaultruleset.go), [Builtin]
      (the built-in table), [Storage] (internal/storage, internal/fsutil),
      [Engine], [EngineCorrect], [EngineSamples] (store.go, engine.go: the lookup
      of a client's rules through two caches and the store), [EngineGo],
      [EngineConc], [EngineBounds], [EngineRaces] (the same lookups as goroutines that
      share the caches and the store).
    - Actions and pages: [Headers] (net/http headers), [HttpError]
      (internal/httperror), [Actions] (rules/actions_http.go, proxy/actions.go).
    - Brokers, internal/outcall: [CacheControl] (cachecontrol.go), [Outcall],
      [OutcallCorrect], [OutcallSamples] (envelope.go, service.go: the caching,
      coalescing client of the brokers as a machine over calls and replies).
    - The proxy, internal/proxy and internal/session: [Authority] (authority.go),
      [ClientIP] (trustedproxy.go, session.go), [Effects] (what a handler does to
      the world, and a program logic for it), [Proxy] (policy steps: egress.go,
      auth.go, outcall.go, actions.go, retry.go, errclass.go, verdict.go), [Http1]
      (http1.go, http2.go, roundtrip.go, tlsservice.go, transparent.go,
      rawsplice.go: every connection handler), [ProxySafety], [ProxyPolicy],
      [ProxySamples] (their theorems), [Wire] (authority.go, peek.go: the bytes of
      a connection), [Peek] (peek.go: the handshake that is thrown away),
      [Relay] (relay.go, copybuf.go: two directions copied at once),
      [Upstream] (upstream.go, roundtrip.go, retry.go: the upstream connections a client
      connection opens, uses and closes), [AccessLog] (http1.go: the record, the
      measurements and the span of a request, and the audit of the handlers), [Streams]
      (http2.go: the streams of a connection at once).
    - Certificates, internal/cert: [X509] (what crypto/x509, crypto/ecdsa and net
      do for them), [CertKeys] (keys.go and the identities of certificates),
      [CertChain] (clone.go, ca.go: cloning and ordering chains), [CertCache]
      (cache.go, factory.go, selfcert.go, fallback.go), [CertCorrect], [CertSelf],
      [CertCA] (ca.go: the CA at start) with their theorems, [CertInstance] and
      [CertSamples] (a small implementation of the libraries, and runs of it), [CertGo],
      [CertConc], [CertRaces] (concurrent calls for certificates and the mints they
      share).
    - Storage, internal/storage: [Storage] and [StorageTree] (storage.go, posix.go),
      [StorageS3] (s3.go), [StorageStack] (logging.go, telemetry.go), [StorageOpen]
      (open.go).
    - Telemetry, internal/telemetry: [Telemetry] (telemetry.go, metrics.go,
      traces.go, resource.go, propagation.go), [Otlp] (otlpjson.go), [Spool]
      (rotatingfile.go, file_exporter.go), [Instruments] (instruments.go).
    - Small parts of several: [Services] (the HTTP clients of outcall/service.go, the
      links of fsutil.go, the listener of metrics.go).
    - Control and configuration: [Control] (internal/control: the rule documents),
      [Admin] (internal/control: routing, CA, statistics, flushing;
      internal/flowsink), [Config] (internal/config).
    - The process: [Acceptors] (internal/session, dispatcher.go, acceptLoop of
      main.go), [ConfigLog] (main.go: the log of the configuration and the plain log
      format), [Startup] (cmd/mitmania/main.go, ListenAndServe of control.go), which
      composes the configuration, telemetry, the storage, the CA and the listeners.

    ** State and interfaces

    The rule engine's caches, the broker service and the file system are records
    passed through every operation.  [Storage] is a class of four operations, with
    [StorageSpec] stating what the engine relies on (versions identify contents, a
    write is read back); the engine's theorems are proved against the class and the
    POSIX and S3 backends are instances of it.  [TreeStorage] and [TreeSpec] are the
    rest of that interface, prefixes, listings and links, against which the
    certificate cache and the CA are proved.  Goroutines are interleaved: the relay,
    the connections of the dispatcher and the streams of a connection take their steps in
    every order.  A goroutine of [Conc] is a program over atomic operations, a critical
    section of a mutex or a call of a backend; [guar] relies on the other goroutines and
    the world to keep an invariant and guarantees it in turn, and what it concludes may
    speak of the states the goroutine lived through.  [lookup_alone] and [for_alone] show
    that a program run by itself is the function of [Engine] and [CertCache].
    [VersionsRetire] is what the storage interface documents of versions beyond
    [StorageSpec], that an old one does not come back; the POSIX backend is an instance,
    the S3 backend is not.  A connection handler is a program over the
    effects of [Effects]; an environment answers each effect, knowing what happened
    before, and the theorems hold for every environment.  Errors are values: the
    storage result distinguishes a missing key from a failure, Go's [error] is
    [Error], a panic of a handler is [Panic].

    Code from outside the repository is a class with the facts used of it:
    regular expressions ([RegexEngine]), hashes and argon2 ([Digests]), Unicode
    case tables ([UnicodeTable]), HTTP dates ([HttpDates]), IDNA ([Idna],
    [IdnaSpec]), UUIDs ([UUIDSource], [UuidV5]), elliptic curves and HKDF ([Crypto],
    [CryptoSpec]), certificates in DER ([X509.X509], [X509Spec]), PKCS#12 ([TrustStores],
    [Bundles] with their laws), the S3 client ([Minio], [MinioSpec]).  Each has a small
    instance with which the witnesses are evaluated.

    ** What is shown

    - No address is dialled and no request is forwarded before the policy of the
      client cleared it, whatever the client, the resolver, the broker and the
      upstream do ([ProxySafety]); with the built-in egress list no private address
      is ever dialled ([ProxyPolicy]).
    - Every request is handled to the end and leaves one access record, whose outcome
      says whether it was sent and answered ([AccessLog]); a client connection holds one
      upstream connection and leaks none, and no request that is not idempotent is sent
      twice ([Upstream], which refines the round trips of [Http1]).
    - The streams of an HTTP/2 connection, interleaved in any order, dial and forward each
      only what its own policy steps cleared, and each leaves one access record ([Streams]).
    - Lookups: the index of host names is invisible ([RuleSet]); an answer of the
      engine comes from documents that were stored for that client, and without a
      cache TTL from the current ones ([EngineCorrect]); so it is under every interleaving
      of lookups with each other and with writers, as far as versions do not come back
      ([EngineRaces]), within eight calls of the backend and a number of operations linear
      in the table ([EngineBounds]); default tables answer every
      address, by the largest mask, reload to themselves and are compiled
      incrementally without a difference ([DefaultTable]).
    - Brokers: every answer is one the broker gave for that key within its stated
      freshness, every call is answered, capacity is respected ([OutcallCorrect]);
      the envelope discloses only what the rule names, a fetched header set is
      applied as a whole or not at all ([ProxyPolicy]).
    - Bytes: error responses delimit themselves and carry no markup of the client
      ([HttpError]); the bounded header read does not depend on packet boundaries
      and a tunnel continues its stream without loss ([Wire]); a peek at a ClientHello
      takes nothing from it ([Peek]); a relay ends and
      delivers what both sides sent, under every interleaving ([Relay]); a crash during
      a write leaves the old or the new document ([Storage]), and so for a link
      ([Services]).
    - Certificates: what is served is the clone of the chain it was asked for, comes
      with its key and chains to the current CA, whatever the store holds
      ([CertCorrect]), and under every interleaving of calls that share a mint
      ([CertConc]); clones keep names, validity and usages ([CertChain]); a start
      uses a CA that may sign and never mixes the leaves of two CAs, wherever an
      earlier start died ([CertCA]).
    - Storage: the S3 backend keeps the interface's promises ([StorageS3]), the
      wrappers are invisible ([StorageStack]), URLs open what they name ([StorageOpen]).
    - Telemetry: an export holds every span once ([Otlp]), the spool keeps whole lines
      in order ([Spool]), the gauge of connections is exact ([Instruments]).
    - Control and configuration: nothing invalid is written, an accepted document
      takes effect, a default table reads back ([Control]), each request of the control
      API changes what it should and nothing else ([Admin]); parsed configurations
      are well formed ([Config]).
    - The process: sessions carry the true client and destination ([Acceptors]);
      whatever fails, what was bound is closed, and nothing is accepted before the CA
      and the default table are there ([Startup]); neither the cluster key nor the
      credentials of the storage URL are logged ([ConfigLog]).
    - Behaviour that differs from what the code means: stale and dropped egress
      lists ([EngineSamples]), races of a lookup with a PUT or DELETE that leave stale
      rules, lose the PUT or bring the document back, rules served under a version that
      came back, a miscounted gauge of active clients ([EngineRaces]), a flush that a lookup outlives
      ([CertRaces]), a leaked proxy credential and evaded deny rules
      ([ProxySamples]), a forged client identity ([ClientIP]), a changing refusal
      status ([OutcallSamples]), a lock-out by a PUT ([Control]), overflows
      ([CacheControl], [Config]), chains that cannot be read back ([CertCorrect]), a
      wipe that hides its failure ([StorageS3], [CertSamples]), torn spool lines
      ([Spool]), lost errors of instruments ([Instruments]), a misread default
      directory ([StorageOpen]), swapped ports ([Acceptors]), a failure that exits with
      status 0 ([Startup]), failed handshakes counted as refused connections
      ([Upstream]), an opaque URL logged with its credentials ([ConfigLog]).

    ** Bounds and fuel

    The JSON scanner gets the length of its input plus one, which its recursion
    never exceeds; [digits] the width of the number; [parseIPv6] its eight groups;
    [scanHeader], [ReadSlice] and [Discard] the number of bytes still to come, and
    [scanHeader_spec] shows that this is enough.  The fuel of [relayIntercepted] and
    [serveStreams] bounds the requests of one connection; their theorems hold for
    every fuel.  [follow_issuers] gets the number of certificates, [resolve_loop] one
    more than the bundle holds (more cannot be visited without a repetition, which is an
    error), [pem_lines] the length of the text, [follow_links] the forty links the
    kernel follows.  Integers have the width of the code: [int64] for durations and
    sizes, 16 bits for ports, 32 and 128 for addresses.  Pools and schedules have no fuel:
    a goroutine is a finite program, and [lookup_returns] bounds its steps.

    ** Not modelled

    Inside a connection handler minting a certificate is an effect that succeeds or
    fails; what it yields is the subject of the certificate files.  TLS handshakes,
    HTTP/2 framing and the reading and writing of HTTP messages are those of the Go
    library and enter as effects; message bodies are streamed through untouched.
    Inside a handler an access record is its outcome and status ([AccessLog] has the rest of
    it), and deadlines are left out ([Upstream] has those of a round trip); a connection's run
    serves HTTP/2 streams one after the other, and [Streams] interleaves them.  An operation of a
    goroutine is atomic: a write to a backend happens at one moment (what a crash leaves of
    it is in [Storage] and [Services]).  The handshake a peek drives is crypto/tls's; what
    is assumed of it is [documented].  The OpenTelemetry providers and exporters, the S3
    client, the embedded control page (spa.go), slog's own handlers, and the acceptors' stubs
    for other systems are left out: library code, or output on which nothing depends. *)

From Stdlib Require Export Ascii String.
From stdpp Require Export base strings list gmap sorting.
From Stdlib Require Export ZArith Lia.

(** ** Byte strings

    A Go [string] or [[]byte] holding text is a list of bytes.  [str] turns a
    literal into one. *)

Abbreviation bytes := (list ascii).

Definition str (s : string) : bytes := list_ascii_of_string s.

(** The numeric value of a byte, and the byte of a value (taken modulo 256). *)
Definition byte_val (c : ascii) : Z := Z.of_N (N_of_ascii c).

Definition byte_of (z : Z) : ascii := ascii_of_N (Z.to_N (z mod 256)).

#[export] Instance ascii_countable : Countable ascii.
Proof.
  refine (inj_countable' N_of_ascii ascii_of_N _).
  intros c. apply ascii_N_embedding.
Defined.

(** ** Errors

    A Go function that returns [(T, error)] returns a [result T]; the error
    carries the literal prefix of its message. *)

Inductive result (A : Type) : Type :=
  | Ok (a : A)
  | Error (msg : string).
Arguments Ok {A} _.
Arguments Error {A} _.

#[export] Instance result_ret : MRet result := fun A a => Ok a.
#[export] Instance Ok_inj A : Inj (=) (=) (@Ok A).
Proof. by intros x y [= ->]. Qed.

#[export] Instance result_bind : MBind result := fun A B f r =>
  match r with
  | Ok a => f a
  | Error e => Error e
  end.
#[export] Instance result_fmap : FMap result := fun A B f r =>
  match r with
  | Ok a => Ok (f a)
  | Error e => Error e
  end.

Definition is_ok {A} (r : result A) : bool :=
  match r with Ok _ => true | Error _ => false end.

(** [if err != nil { return ..., fmt.Errorf("ctx: %w", err) }]: the caller
    prefixes the message and gives up. *)
Definition wrap {A} (ctx : string) (r : result A) : result A :=
  match r with
  | Ok a => Ok a
  | Error e => Error (ctx ++ ": " ++ e)
  end.

Definition of_option {A} (msg : string) (o : option A) : result A :=
  match o with Some a => Ok a | None => Error msg end.

(** ** Lemmas on results *)

Lemma result_bind_ok {A B} (f : A -> result B) (r : result A) (b : B) :
  (r ≫= f) = Ok b -> exists a, r = Ok a /\ f a = Ok b.
Proof. destruct r; simpl; [eauto | discriminate]. Qed.

Lemma wrap_ok {A} ctx (r : result A) (a : A) : wrap ctx r = Ok a <-> r = Ok a.
Proof. destruct r; simpl; split; congruence. Qed.

Lemma of_option_ok {A} msg (o : option A) (a : A) :
  of_option msg o = Ok a <-> o = Some a.
Proof. destruct o; simpl; split; congruence. Qed.

Lemma result_fmap_ok {A B} (f : A -> B) (r : result A) (b : B) :
  (f <$> r) = Ok b <-> exists a, r = Ok a /\ b = f a.
Proof. destruct r; simpl; split; [|intros (?&?&?)| |intros (?&?&?)]; naive_solver. Qed.

(** [inv_ok] walks back through a successful monadic computation in a
    hypothesis, introducing each intermediate result. *)
Ltac inv_ok :=
  repeat match goal with
  | H : mbind ?f ?r = Ok ?b |- _ =>
      let a := fresh "r" in let Ha := fresh "Hr" in
      apply result_bind_ok in H as (a & Ha & H)
  | H : fmap ?f ?r = Ok ?b |- _ =>
      let a := fresh "r" in let Ha := fresh "Hr" in
      apply result_fmap_ok in H as (a & Ha & H)
  | H : wrap _ _ = Ok _ |- _ => rewrite wrap_ok in H
  | H : of_option _ _ = Ok _ |- _ => rewrite of_option_ok in H
  | H : mret _ = Ok _ |- _ => injection H as H
  | H : Ok _ = Ok _ |- _ => injection H as H
  | H : Error _ = Ok _ |- _ => discriminate H
  | H : Ok _ = Error _ |- _ => discriminate H
  end.

(** [case_if] splits on the innermost boolean condition in sight. *)
Ltac case_if_hyp H :=
  match type of H with
  | context [if ?b then _ else _] =>
      lazymatch b with context [if _ then _ else _] => fail | _ => idtac end;
      let E := fresh "E" in destruct b eqn:E
  end.

(** A fallible loop succeeds exactly when every step does. *)
Lemma mapM_ok {A B} (f : A -> result B) (l : list A) (k : list B) :
  mapM f l = Ok k <-> Forall2 (fun x y => f x = Ok y) l k.
Proof.
  revert k. induction l as [|x l IH]; intros k; simpl.
  - split; [intros [= <-]; constructor|]. by inversion 1.
  - split.
    + intros H. apply result_bind_ok in H as (y & Hy & H). apply result_bind_ok in H as (k' & Hk & H).
      injection H as <-. constructor; [done|]. by apply IH.
    + inversion 1 as [|? y ? k' Hy Hk]; subst. apply IH in Hk. rewrite Hy. simpl. by rewrite Hk.
Qed.

Lemma mapM_Forall {A B} (f : A -> result B) (P : B -> Prop) l k :
  mapM f l = Ok k -> (forall x y, f x = Ok y -> P y) -> Forall P k.
Proof.
  intros H HP. apply mapM_ok in H. induction H; constructor; eauto.
Qed.

(** ** Bytes and their values *)

Lemma byte_val_range c : (0 <= byte_val c < 256)%Z.
Proof.
  unfold byte_val. pose proof (N_ascii_bounded c). lia.
Qed.

Lemma byte_val_inj c d : byte_val c = byte_val d -> c = d.
Proof.
  unfold byte_val. intros H. apply N2Z.inj in H.
  rewrite <- (ascii_N_embedding c), <- (ascii_N_embedding d). by f_equal.
Qed.

Lemma byte_val_of z : (0 <= z < 256)%Z -> byte_val (byte_of z) = z.
Proof.
  intros Hz. unfold byte_val, byte_of. rewrite Z.mod_small by lia.
  rewrite N_ascii_embedding by lia. lia.
Qed.

Lemma byte_of_val c : byte_of (byte_val c) = c.
Proof. apply byte_val_inj, byte_val_of, byte_val_range. Qed.

(** ** Sums of lists *)

Lemma sum_list_app (l k : list nat) : sum_list (l ++ k) = (sum_list l + sum_list k)%nat.
Proof. induction l; simpl; lia. Qed.

Lemma sum_list_perm (l k : list nat) : l ≡ₚ k -> sum_list l = sum_list k.
Proof. induction 1; simpl; lia. Qed.

(** ** Sorted lists *)

Lemma StronglySorted_lookup {A} (R : A -> A -> Prop) l i j x y :
  StronglySorted R l -> (i < j)%nat -> l !! i = Some x -> l !! j = Some y -> R x y.
Proof.
  intros Hs. revert i j. induction Hs as [|a l Hs IH Ha]; intros i j Hij Hx Hy; [done|].
  destruct j as [|j]; [lia|]. simpl in Hy. destruct i as [|i]; simpl in Hx.
  - simplify_eq. rewrite Forall_lookup in Ha. eauto.
  - eapply IH; [|done|done]. lia.
Qed.

(** ** Shared automation *)

Create HintDb mitmania.
#[export] Hint Resolve byte_val_range : mitmania.
