(* ===== verification/Conc.v ===== *)
(** * Goroutines that share a state

    A goroutine is a program over atomic operations: critical sections of a mutex, calls of a
    storage backend, readings of the clock.  A pool runs any number of them, in any order, while
    the rest of the world changes the shared state on its own.  [guar] is a rely-guarantee logic
    for one goroutine: it relies on the others to keep the invariant and to move the state as
    allowed, and guarantees the same of its own operations; what it concludes may speak about
    the states the goroutine has lived through. *)

From S2P Require Import Prelude.

(** ** Programs *)

Inductive goprog (op : Type -> Type) (A : Type) : Type :=
  | Done (a : A)
  | Do {X : Type} (o : op X) (k : X -> goprog op A).
Arguments Done {op A} a.
Arguments Do {op A X} o k.

Fixpoint go_bind {op A B} (f : A -> goprog op B) (p : goprog op A) : goprog op B :=
  match p with
  | Done a => f a
  | Do o k => Do o (fun x => go_bind f (k x))
  end.

#[export] Instance go_mret op : MRet (goprog op) := fun A a => Done a.
#[export] Instance go_mbind op : MBind (goprog op) := fun A B f p => go_bind f p.

Definition do_op {op X} (o : op X) : goprog op X := Do o Done.

(** ** One goroutine alone *)

Section Alone.
Context {op : Type -> Type} {S : Type} (answer : forall X, op X -> S -> X * S).

Fixpoint alone {A} (p : goprog op A) (s : S) : A * S :=
  match p with
  | Done a => (a, s)
  | Do o k => let '(x, s) := answer _ o s in alone (k x) s
  end.

Lemma alone_bind {A B} (p : goprog op A) (f : A -> goprog op B) s :
  alone (p ≫= f) s = let '(a, s) := alone p s in alone (f a) s.
Proof.
  unfold mbind, go_mbind. revert s. induction p as [a|X o k IH]; intros s; cbn; [done|].
  destruct (answer X o s) as [x s']. apply IH.
Qed.

Lemma alone_do {A X} (o : op X) (f : X -> goprog op A) s :
  alone (do_op o ≫= f) s = let '(x, s) := answer _ o s in alone (f x) s.
Proof. cbn. by destruct (answer X o s). Qed.

(** ** What a program costs *)

(** [p] costs at most [n], whatever the answers to its operations are as long as they are [likely]. *)
Variables (cost : forall X, op X -> nat) (likely : forall X, op X -> X -> Prop).

Fixpoint within {A} (n : nat) (p : goprog op A) {struct p} : Prop :=
  match p with
  | Done _ => True
  | @Do _ _ X o k => (cost X o <= n)%nat /\ forall x, likely X o x -> within (n - cost X o) (k x)
  end.

Lemma within_le {A} n m (p : goprog op A) : within n p -> (n <= m)%nat -> within m p.
Proof.
  revert n m. induction p as [a|X o k IH]; intros n m H Hle; [done|]. destruct H as [Hc H]. split; [lia|].
  intros x Hx. eapply IH; [by apply H|]. lia.
Qed.

(** What [p] can return. *)
Fixpoint yields {A} (P : A -> Prop) (p : goprog op A) : Prop :=
  match p with
  | Done a => P a
  | @Do _ _ X o k => forall x, likely X o x -> yields P (k x)
  end.

Lemma yields_top {A} (p : goprog op A) : yields (fun _ => True) p.
Proof. induction p; cbn; auto. Qed.

Lemma within_bind {A B} n m P (p : goprog op A) (f : A -> goprog op B) :
  within n p -> yields P p -> (forall a, P a -> within m (f a)) -> within (n + m) (p ≫= f).
Proof.
  unfold mbind, go_mbind. intros Hp Hy Hf. revert n Hp Hy. induction p as [a|X o k IH]; intros n Hp Hy; cbn.
  - eapply within_le; [by apply Hf|]. lia.
  - destruct Hp as [Hc Hp]. split; [lia|]. intros x Hx. replace (n + m - cost X o)%nat with (n - cost X o + m)%nat by lia. apply IH; auto.
Qed.

Lemma within_then {A B} n m (p : goprog op A) (f : A -> goprog op B) :
  within n p -> (forall a, within m (f a)) -> within (n + m) (p ≫= f).
Proof. intros Hp Hf. eapply within_bind; [done|apply yields_top|auto]. Qed.

Lemma within_do {A X} n (o : op X) (f : X -> goprog op A) :
  (cost X o <= n)%nat -> (forall x, likely X o x -> within (n - cost X o) (f x)) -> within n (do_op o ≫= f).
Proof. done. Qed.

Lemma within_last {X} n (o : op X) : (cost X o <= n)%nat -> within n (do_op o).
Proof. done. Qed.
End Alone.

(** ** Pools *)

Section Pool.
Context {op : Type -> Type} {S : Type}.

(** [sem s o x s']: performed in [s], [o] answers [x] and leaves [s'].  [world] is what happens
    to the state besides the goroutines. *)
Variable sem : forall X, S -> op X -> X -> S -> Prop.
Variable world : S -> S -> Prop.

(** A goroutine: what is left of it, and the states since it was started, the latest first. *)
Record goroutine (A : Type) : Type := { g_seen : list S; g_prog : goprog op A }.
Arguments g_seen {A}.
Arguments g_prog {A}.

Definition spawn {A} (s : S) (p : goprog op A) : goroutine A := {| g_seen := [s]; g_prog := p |}.

(** A goroutine that has returned has seen enough. *)
Definition see {A} (s : S) (g : goroutine A) : goroutine A :=
  match g_prog g with
  | Done _ => g
  | Do _ _ => {| g_seen := s :: g_seen g; g_prog := g_prog g |}
  end.

Inductive pool_step {A} (start : goprog op A -> Prop) : list (goroutine A) * S -> list (goroutine A) * S -> Prop :=
  | pool_spawn gs s p : start p -> pool_step start (gs, s) (gs ++ [spawn s p], s)%list
  | pool_world gs s s' : world s s' -> pool_step start (gs, s) (map (see s') gs, s')
  | pool_go gs s i g X (o : op X) k x s' :
      gs !! i = Some g -> g_prog g = Do o k -> sem X s o x s' ->
      pool_step start (gs, s) (<[i := {| g_seen := s' :: g_seen g; g_prog := k x |}]> (map (see s') gs), s').

(** ** Rely and guarantee *)

Variable inv : S -> Prop.
Variable moves : S -> S -> Prop.
Hypothesis moves_refl : forall s, moves s s.
Hypothesis moves_trans : forall a b c, moves a b -> moves b c -> moves a c.

(** States a goroutine lives through. *)
Fixpoint lived (seen : list S) : Prop :=
  match seen with
  | [] => False
  | s :: rest => inv s /\ (forall s0, s0 ∈ rest -> moves s0 s) /\ (rest <> [] -> lived rest)
  end.

Lemma lived_inv seen s : lived seen -> s ∈ seen -> inv s.
Proof.
  induction seen as [|s0 t IH]; [done|]. intros (Hi & _ & Hl) [->|Hin]%elem_of_cons; [done|].
  apply IH; [|done]. apply Hl. by intros ->; apply not_elem_of_nil in Hin.
Qed.

Lemma lived_moves seen s s0 : lived (s :: seen) -> s0 ∈ s :: seen -> moves s0 s.
Proof. intros (_ & Hm & _) [->|Hin]%elem_of_cons; [apply moves_refl|by apply Hm]. Qed.

Lemma lived_cons seen s s' : lived (s :: seen) -> inv s' -> moves s s' -> lived (s' :: s :: seen).
Proof.
  intros Hl Hi Hm. split; [done|]. split; [|done]. intros s0 Hin. eapply moves_trans; [|exact Hm]. by eapply lived_moves.
Qed.

(** Whenever [p] gets to act it has seen [s :: more ++ seen], the state being [s]. *)
Fixpoint guar {A} (seen : list S) (p : goprog op A) (Q : list S -> A -> Prop) : Prop :=
  match p with
  | Done a => Q seen a
  | @Do _ _ X o k =>
      forall seen' s x s', suffix seen (s :: seen') -> lived (s :: seen') -> sem X s o x s' ->
      inv s' /\ moves s s' /\ guar (s' :: s :: seen') (k x) Q
  end.

Lemma guar_weaken {A} seen (p : goprog op A) (Q R : list S -> A -> Prop) :
  guar seen p Q -> (forall seen' a, suffix seen seen' -> Q seen' a -> R seen' a) -> guar seen p R.
Proof.
  revert seen. induction p as [a|X o k IH]; intros seen Hg HQR; [by apply HQR|]. cbn.
  intros seen' s x s' Hsuf Hl Hs. destruct (Hg _ _ _ _ Hsuf Hl Hs) as (Hi & Hm & Hk). split_and!; [done..|].
  eapply IH; [exact Hk|]. intros seen'' a Hs''. apply HQR. etrans; [exact Hsuf|]. etrans; [|exact Hs'']. by exists [s'].
Qed.

Lemma guar_bind {A B} seen (p : goprog op A) (f : A -> goprog op B) Q R :
  guar seen p Q -> (forall seen' a, suffix seen seen' -> Q seen' a -> guar seen' (f a) R) -> guar seen (p ≫= f) R.
Proof.
  unfold mbind, go_mbind. revert seen. induction p as [a|X o k IH]; intros seen Hg Hf; [by apply Hf|]. cbn.
  intros seen' s x s' Hsuf Hl Hs. destruct (Hg _ _ _ _ Hsuf Hl Hs) as (Hi & Hm & Hk). split_and!; [done..|].
  apply IH; [exact Hk|]. intros seen'' a Hs''. apply Hf. etrans; [exact Hsuf|]. etrans; [|exact Hs'']. by exists [s'].
Qed.

Lemma guar_do {A X} seen (o : op X) (f : X -> goprog op A) R :
  (forall seen' s x s', suffix seen (s :: seen') -> lived (s :: seen') -> sem X s o x s' ->
     inv s' /\ moves s s' /\ guar (s' :: s :: seen') (f x) R) ->
  guar seen (do_op o ≫= f) R.
Proof. done. Qed.

Lemma guar_done {A} seen (a : A) (Q : list S -> A -> Prop) : Q seen a -> guar seen (Done a) Q.
Proof. done. Qed.

(** What has been seen longer ago is still seen. *)
Lemma guar_longer {A} seen seen' (p : goprog op A) Q :
  suffix seen seen' -> guar seen p Q -> match p with Done _ => True | Do _ _ => guar seen' p Q end.
Proof.
  intros Hsuf. destruct p as [a|X o k]; [done|]. cbn. intros Hg seen'' s x s' Hs Hl Hsem. apply Hg; [|done..]. by etrans.
Qed.

(** ** Soundness *)

Section Sound.
Context {A : Type} (start : goprog op A -> Prop) (Q : list S -> A -> Prop).
Hypothesis world_ok : forall s s', inv s -> world s s' -> inv s' /\ moves s s'.
Hypothesis start_ok : forall p s, start p -> inv s -> guar [s] p Q.

Definition g_ok (s : S) (g : goroutine A) : Prop :=
  guar (g_seen g) (g_prog g) Q
  /\ match g_prog g with Done _ => True | Do _ _ => lived (g_seen g) /\ head (g_seen g) = Some s end.

Lemma see_ok s s' g : g_ok s g -> inv s' -> moves s s' -> g_ok s' (see s' g).
Proof.
  intros [Hg Hp] Hi Hm. unfold g_ok, see in *. destruct (g_prog g) as [a|X o k] eqn:E; [by rewrite E|].
  cbn [g_seen g_prog]. destruct Hp as [Hl Hh]. destruct (g_seen g) as [|s0 t]; [done|]. injection Hh as ->. split.
  - exact (guar_longer (s :: t) (s' :: s :: t) (Do o k) Q ltac:(by exists [s']) Hg).
  - split; [by apply lived_cons|done].
Qed.

Lemma pool_sound c c' :
  inv c.2 /\ Forall (g_ok c.2) c.1 -> pool_step start c c' -> inv c'.2 /\ Forall (g_ok c'.2) c'.1.
Proof.
  intros [Hi Hg] Hstep. destruct Hstep as [gs s p Hp|gs s s' Hw|gs s i g X o k x s' Hl Hprog Hsem]; cbn [fst snd] in *.
  - split; [done|]. apply Forall_app. split; [done|]. apply Forall_singleton. split; [by apply start_ok|].
    cbn. destruct p; [done|]. split; [|done]. by split; [|split; [intros ? ?%not_elem_of_nil|]].
  - destruct (world_ok _ _ Hi Hw) as [Hi' Hm]. split; [done|]. apply Forall_map. eapply Forall_impl; [exact Hg|].
    intros g Hok. by eapply see_ok.
  - pose proof (Forall_lookup_1 _ _ _ _ Hg Hl) as [Hgu Hp]. rewrite Hprog in Hgu, Hp. destruct Hp as [Hlv Hh].
    destruct (g_seen g) as [|s0 t] eqn:Es; [done|]. injection Hh as ->.
    destruct (Hgu t s x s' ltac:(done) Hlv Hsem) as (Hi' & Hm & Hk). split; [done|].
    apply Forall_insert.
    + apply Forall_map. eapply Forall_impl; [exact Hg|]. intros g' Hok. by eapply see_ok.
    + split; [exact Hk|]. cbn. destruct (k x); [done|]. split; [by apply lived_cons|done].
Qed.

Lemma pool_invariant s0 c : inv s0 -> rtc (pool_step start) ([], s0) c -> inv c.2 /\ Forall (g_ok c.2) c.1.
Proof.
  intros Hi Hr. revert Hi. pattern c. revert c Hr. apply rtc_ind_r; [by split|]. intros c c' _ Hs IH Hi.
  eapply pool_sound; [by apply IH|exact Hs].
Qed.

(** In a pool that starts empty, whatever a goroutine returns satisfies its post-condition. *)
Lemma pool_returns s0 gs s g a :
  inv s0 -> rtc (pool_step start) ([], s0) (gs, s) -> g ∈ gs -> g_prog g = Done a -> Q (g_seen g) a.
Proof.
  intros Hi Hr Hin Hd. destruct (pool_invariant _ _ Hi Hr) as [_ Hg]. cbn in Hg. rewrite Forall_forall in Hg.
  destruct (Hg g Hin) as [Hgu _]. by rewrite Hd in Hgu.
Qed.
End Sound.
End Pool.

Arguments g_seen {op S A}.
Arguments g_prog {op S A}.

(** ** Schedules *)

(** A run, turn by turn: a goroutine starts, goroutine [i] performs its next operation, or something
    else happens to the state. *)
Inductive turn (op : Type -> Type) (S A : Type) : Type :=
  | Start (p : goprog op A)
  | Turn (i : nat)
  | Meanwhile (f : S -> S).
Arguments Start {op S A} p.
Arguments Turn {op S A} i.
Arguments Meanwhile {op S A} f.

(** No operation has to wait. *)
Definition always {op : Type -> Type} {S : Type} : forall X, op X -> S -> bool := fun _ _ _ => true.

Section Schedule.
Context {op : Type -> Type} {S A : Type} (answer : forall X, op X -> S -> X * S) (enabled : forall X, op X -> S -> bool).

Definition take_turn (t : turn op S A) (c : list (goroutine A) * S) : option (list (goroutine A) * S) :=
  let '(gs, s) := c in
  match t with
  | Start p => Some (gs ++ [spawn s p], s)%list
  | Meanwhile f => Some (map (see (f s)) gs, f s)
  | Turn i =>
      match gs !! i with
      | Some g => match g_prog g with
                  | Done _ => None
                  | Do o k =>
                      if enabled _ o s then
                        let '(x, s') := answer _ o s in
                        Some (<[i := {| g_seen := s' :: g_seen g; g_prog := k x |}]> (map (see s') gs), s')
                      else None
                  end
      | None => None
      end
  end.

Fixpoint schedule (ts : list (turn op S A)) (c : list (goroutine A) * S) : option (list (goroutine A) * S) :=
  match ts with
  | [] => Some c
  | t :: ts => match take_turn t c with Some c => schedule ts c | None => None end
  end.

(** The states a schedule passes through. *)
Fixpoint visited (ts : list (turn op S A)) (c : list (goroutine A) * S) : list S :=
  match ts with
  | [] => []
  | t :: ts => match take_turn t c with Some c => c.2 :: visited ts c | None => [] end
  end.

Variables (sem : forall X, S -> op X -> X -> S -> Prop) (world : S -> S -> Prop) (start : goprog op A -> Prop) (good : S -> Prop).
Hypothesis answer_sem : forall X (o : op X) s, enabled X o s = true -> good (answer X o s).2 -> sem X s o (answer X o s).1 (answer X o s).2.

Definition turn_ok (t : turn op S A) : Prop :=
  match t with
  | Start p => start p
  | Turn _ => True
  | Meanwhile f => forall s, good s -> good (f s) -> world s (f s)
  end.

Lemma schedule_run ts c c' :
  schedule ts c = Some c' -> Forall turn_ok ts -> good c.2 -> Forall good (visited ts c) -> rtc (pool_step sem world start) c c'.
Proof.
  revert c. induction ts as [|t ts IH]; intros c; cbn [schedule visited]; [intros [= ->] _ _ _; apply rtc_refl|].
  destruct (take_turn t c) as [c1|] eqn:E; [|done]. intros Hs [Ht Hts]%Forall_cons Hg [Hg1 Hv]%Forall_cons.
  eapply rtc_l; [|by apply IH]. destruct c as [gs s]. destruct t as [p|i|f]; cbn in E.
  - injection E as <-. by apply pool_spawn.
  - destruct (gs !! i) as [g|] eqn:El; [|done]. destruct (g_prog g) as [a|X o k] eqn:Ep; [done|].
    pose proof (answer_sem X o s) as Hsem. destruct (enabled X o s); [|done]. destruct (answer X o s) as [x s']. injection E as <-. by eapply pool_go; [| |apply Hsem].
  - injection E as <-. apply pool_world. by apply Ht.
Qed.

(** *** Turns *)

Definition one (i j : nat) : nat := if decide (i = j) then 1 else 0.

Fixpoint turns (i : nat) (ts : list (turn op S A)) : nat :=
  match ts with
  | [] => 0
  | Turn j :: ts => one i j + turns i ts
  | _ :: ts => turns i ts
  end.

Variable likely : forall X, op X -> X -> Prop.
Hypothesis answer_likely : forall X (o : op X) s, good s -> likely X o (answer X o s).1.
Abbreviation within_turns := (within (fun _ _ => 1%nat) likely).

(** Every goroutine of the pool has used some turns, and is within what is left of [n]. *)
Definition budget (n : nat) (used : nat -> nat) (gs : list (goroutine (op := op) (S := S) A)) : Prop :=
  (forall i g, gs !! i = Some g -> (used i <= n)%nat /\ within_turns (n - used i) (g_prog g))
  /\ forall i, (length gs <= i)%nat -> used i = 0%nat.

Lemma see_prog s (g : goroutine (op := op) (S := S) A) : g_prog (see s g) = g_prog g.
Proof. unfold see. by destruct (g_prog g) eqn:E. Qed.

Lemma see_lookup s (gs : list (goroutine (op := op) (S := S) A)) i : map (see s) gs !! i = see s <$> gs !! i.
Proof. exact (list_lookup_fmap (see s) gs i). Qed.

Lemma budget_see n used gs s : budget n used gs -> budget n used (map (see s) gs).
Proof.
  intros [Hb Hn]. split; [|intros i; rewrite length_map; apply Hn]. intros i g.
  rewrite see_lookup. intros (g0 & H0 & ->)%fmap_Some. rewrite see_prog. by apply Hb.
Qed.

Lemma budget_start n used gs s p : within_turns n p -> budget n used gs -> budget n used (gs ++ [spawn s p]).
Proof.
  intros Hp [Hb Hn]. split; [|intros i; rewrite length_app; intros ?; apply Hn; lia]. intros i g.
  intros [H|[Hge H]]%lookup_app_Some; [by apply Hb|]. apply list_lookup_singleton_Some in H as [_ <-].
  rewrite (Hn i) by lia. rewrite Nat.sub_0_r. split; [lia|done].
Qed.

Lemma budget_turn n used gs j g X (o : op X) k x seen :
  gs !! j = Some g -> g_prog g = Do o k -> likely X o x -> budget n used gs ->
  budget n (fun i => used i + one i j)%nat (<[j := {| g_seen := seen; g_prog := k x |}]> gs).
Proof.
  intros Hg Hp Hx [Hb Hn]. pose proof (lookup_lt_Some _ _ _ Hg). unfold one. split.
  - intros i g' H'. destruct (decide (i = j)) as [->|Hne].
    + rewrite list_lookup_insert_eq in H' by done. injection H' as <-. destruct (Hb _ _ Hg) as [Hle Hw]. rewrite Hp in Hw.
      destruct Hw as [H1 Hw]. split; [lia|]. cbn [g_prog]. replace (n - (used j + 1))%nat with (n - used j - 1)%nat by lia. by apply Hw.
    + rewrite list_lookup_insert_ne in H' by done. rewrite Nat.add_0_r. by apply Hb.
  - intros i. rewrite length_insert. intros Hi. rewrite (Hn i Hi). by destruct (decide (i = j)) as [->|]; [lia|].
Qed.

(** Each turn takes one operation off its goroutine, whatever the others do. *)
Lemma schedule_turns n ts c c' used :
  schedule ts c = Some c' -> good c.2 -> Forall good (visited ts c) -> (forall p, Start p ∈ ts -> within_turns n p) ->
  budget n used c.1 -> budget n (fun i => used i + turns i ts)%nat c'.1.
Proof.
  revert c used. induction ts as [|t ts IH]; intros c used; cbn [schedule visited turns].
  { intros [= ->] _ _ _ Hb. destruct Hb as [Hb Hn]. split; intros i; rewrite Nat.add_0_r; [apply Hb|apply Hn]. }
  destruct (take_turn t c) as [c1|] eqn:E; [|done]. intros Hs Hgd [Hg1 Hv]%Forall_cons Hst Hb. destruct c as [gs s]. cbn in Hb, Hgd.
  assert (Hst' : forall p, Start p ∈ ts -> within_turns n p) by (intros p Hp; apply Hst, elem_of_cons; by right).
  destruct t as [p|j|f]; cbn in E.
  - injection E as <-. apply (IH (_, _) used Hs); [done..|]. apply budget_start; [|done]. apply Hst, list_elem_of_here.
  - destruct (gs !! j) as [g|] eqn:El; [|done]. destruct (g_prog g) as [a|X o k] eqn:Ep; [done|].
    pose proof (answer_likely X o s Hgd) as Hlk. destruct (enabled X o s); [|done]. destruct (answer X o s) as [x s']. injection E as <-.
    assert (Hb' : budget n (fun i => used i + one i j)%nat (<[j := {| g_seen := s' :: g_seen g; g_prog := k x |}]> (map (see s') gs))).
    { eapply (budget_turn n used (map (see s') gs) j (see s' g)); [rewrite see_lookup; exact (f_equal (fmap (see s')) El)|by rewrite see_prog|done|by apply budget_see]. }
    destruct (IH (_, _) _ Hs Hg1 Hv Hst' Hb') as [Hr Hn].
    split; intros i; [intros g'; specialize (Hr i g')|specialize (Hn i)]; rewrite <- Nat.add_assoc in *; assumption.
  - injection E as <-. apply (IH (_, _) used Hs); [done..|]. by apply budget_see.
Qed.

Lemma budget_empty n : budget n (fun _ => 0%nat) [].
Proof. split; [intros i g H; by rewrite lookup_nil in H|done]. Qed.

(** A pool of programs that cost at most [n]: none gets more than [n] turns, and one that had them all
    has returned. *)
Lemma schedule_returns n ts s0 gs s i g :
  schedule ts ([], s0) = Some (gs, s) -> good s0 -> Forall good (visited ts ([], s0)) -> (forall p, Start p ∈ ts -> within_turns n p) ->
  gs !! i = Some g -> (turns i ts <= n)%nat /\ (turns i ts = n -> exists a, g_prog g = Done a).
Proof.
  intros Hs Hg Hv Hst Hi. destruct (schedule_turns n ts _ _ _ Hs Hg Hv Hst (budget_empty n)) as [Hb _].
  destruct (Hb i g Hi) as [Hle Hw]. cbn in Hle, Hw. split; [done|]. intros E. rewrite E, Nat.sub_diag in Hw.
  destruct (g_prog g) as [a|X o k]; [by exists a|]. destruct Hw as [Hw _]. lia.
Qed.
End Schedule.
