(* ===== verification/GoStrings.v ===== *)
(** * The parts of Go's [strings], [strconv], [unicode/utf8] and
    [net/textproto] that the policy code calls

    Strings are byte lists ([bytes]); every function below follows the
    standard library's algorithm on bytes. *)

From S2P Require Import Prelude.

Open Scope Z_scope.

(** ** [strings] *)

(** [strings.HasPrefix] / [strings.CutPrefix]. *)
Fixpoint CutPrefix (p s : bytes) : option bytes :=
  match p, s with
  | [], _ => Some s
  | c :: p', d :: s' => if Ascii.eqb c d then CutPrefix p' s' else None
  | _ :: _, [] => None
  end.

Definition HasPrefix (p s : bytes) : bool := bool_decide (is_Some (CutPrefix p s)).

Definition TrimPrefix (p s : bytes) : bytes := default s (CutPrefix p s).

(** [strings.CutSuffix]: the text before the suffix. *)
Definition CutSuffix (p s : bytes) : option bytes :=
  match CutPrefix (rev p) (rev s) with
  | Some r => Some (rev r)
  | None => None
  end.

Definition HasSuffix (p s : bytes) : bool := bool_decide (is_Some (CutSuffix p s)).

Definition TrimSuffix (p s : bytes) : bytes := default s (CutSuffix p s).

(** [strings.Cut(s, sep)] for a one-byte separator: the text before and after
    the first occurrence. *)
Fixpoint Cut (sep : ascii) (s : bytes) : option (bytes * bytes) :=
  match s with
  | [] => None
  | c :: t =>
      if Ascii.eqb c sep then Some ([], t)
      else match Cut sep t with
           | Some (a, b) => Some (c :: a, b)
           | None => None
           end
  end.

(** The text around the LAST occurrence of [sep] ([strings.LastIndexByte]
    followed by slicing). *)
Definition CutLast (sep : ascii) (s : bytes) : option (bytes * bytes) :=
  match Cut sep (rev s) with
  | Some (a, b) => Some (rev b, rev a)
  | None => None
  end.

(** [strings.IndexByte], with -1 for "not there". *)
Fixpoint IndexByte (sep : ascii) (s : bytes) : Z :=
  match s with
  | [] => -1
  | c :: t =>
      if Ascii.eqb c sep then 0
      else let i := IndexByte sep t in if i <? 0 then -1 else i + 1
  end.

Definition LastIndexByte (sep : ascii) (s : bytes) : Z :=
  match CutLast sep s with
  | Some (a, _) => Z.of_nat (length a)
  | None => -1
  end.

(** [strings.Split(s, sep)] for a one-byte separator. *)
Fixpoint Split (sep : ascii) (s : bytes) : list bytes :=
  match s with
  | [] => [[]]
  | c :: t =>
      if Ascii.eqb c sep then [] :: Split sep t
      else match Split sep t with
           | [] => [[c]]
           | h :: r => (c :: h) :: r
           end
  end.

(** [strings.Join(parts, sep)]. *)
Fixpoint Join (sep : bytes) (parts : list bytes) : bytes :=
  match parts with
  | [] => []
  | [p] => p
  | p :: ps => (p ++ sep ++ Join sep ps)%list
  end.

Definition is_upper (c : ascii) : bool := (65 <=? byte_val c) && (byte_val c <=? 90).
Definition is_lower (c : ascii) : bool := (97 <=? byte_val c) && (byte_val c <=? 122).
Definition is_digit (c : ascii) : bool := (48 <=? byte_val c) && (byte_val c <=? 57).
Definition is_ascii (c : ascii) : bool := byte_val c <? 128.

(** One ASCII letter lowered or raised. *)
Definition lower_byte (c : ascii) : ascii :=
  if is_upper c then byte_of (byte_val c + 32) else c.
Definition upper_byte (c : ascii) : ascii :=
  if is_lower c then byte_of (byte_val c - 32) else c.

(** [strings.EqualFold(s, t)] for [t] made of ASCII bytes and [s] of the same
    length: every rune of [s] then has to be one byte, and simple folding on
    bytes below 0x80 only relates the two cases of a letter. *)
Fixpoint EqualFold (s t : bytes) : bool :=
  match s, t with
  | [], [] => true
  | c :: s', d :: t' => Ascii.eqb (lower_byte c) (lower_byte d) && EqualFold s' t'
  | _, _ => false
  end.

(** [strings.ToLower]: ASCII letters are lowered in place; a maximal run of
    non-ASCII bytes is mapped by [lower_run] (the Unicode case table of the Go
    release, which is not part of this program). *)
Fixpoint ToLower_aux (lower_run : bytes -> bytes) (run : bytes) (s : bytes) : bytes :=
  let flush := if bool_decide (run = []) then [] else lower_run (rev run) in
  match s with
  | [] => flush
  | c :: t =>
      if is_ascii c then (flush ++ lower_byte c :: ToLower_aux lower_run [] t)%list
      else ToLower_aux lower_run (c :: run) t
  end.

Definition ToLower (lower_run : bytes -> bytes) (s : bytes) : bytes :=
  ToLower_aux lower_run [] s.

(** [unicode.IsSpace], on the one-, two- and three-byte encodings it holds of. *)
Definition is_space (c : ascii) : bool :=
  let v := byte_val c in
  (v =? 9) || (v =? 10) || (v =? 11) || (v =? 12) || (v =? 13) || (v =? 32).

Definition is_space2 (c d : ascii) : bool :=
  (byte_val c =? 0xC2) && ((byte_val d =? 0x85) || (byte_val d =? 0xA0)).

Definition is_space3 (c d e : ascii) : bool :=
  let '(x, y, z) := (byte_val c, byte_val d, byte_val e) in
  ((x =? 0xE1) && (y =? 0x9A) && (z =? 0x80))
  || ((x =? 0xE2) && (y =? 0x80)
      && (((0x80 <=? z) && (z <=? 0x8A)) || (z =? 0xA8) || (z =? 0xA9) || (z =? 0xAF)))
  || ((x =? 0xE2) && (y =? 0x81) && (z =? 0x9F))
  || ((x =? 0xE3) && (y =? 0x80) && (z =? 0x80)).

(** Drops leading spaces; [sp2] and [sp3] recognise the multi-byte ones (in
    reversed byte order when the text is reversed). *)
Fixpoint trim_spaces (sp2 : ascii -> ascii -> bool) (sp3 : ascii -> ascii -> ascii -> bool)
    (s : bytes) : bytes :=
  match s with
  | [] => []
  | c :: t =>
      if is_space c then trim_spaces sp2 sp3 t
      else match t with
           | d :: t' =>
               if sp2 c d then trim_spaces sp2 sp3 t'
               else match t' with
                    | e :: t'' => if sp3 c d e then trim_spaces sp2 sp3 t'' else s
                    | [] => s
                    end
           | [] => s
           end
  end.

(** [strings.TrimSpace]. *)
Definition TrimSpace (s : bytes) : bytes :=
  rev (trim_spaces (fun d c => is_space2 c d) (fun e d c => is_space3 c d e)
         (rev (trim_spaces is_space2 is_space3 s))).

(** Go's [<] on strings: bytewise lexicographic. *)
Fixpoint bytes_ltb (a b : bytes) : bool :=
  match a, b with
  | _, [] => false
  | [], _ :: _ => true
  | c :: a', d :: b' =>
      (byte_val c <? byte_val d) || ((byte_val c =? byte_val d) && bytes_ltb a' b')
  end.

(** ** [strconv] *)

(** The loop of [strconv.ParseUint] in base 10 for a result of at most [maxVal]. *)
Fixpoint ParseUint_loop (maxVal n : Z) (s : bytes) : result Z :=
  match s with
  | [] => Ok n
  | c :: t =>
      if is_digit c then
        let n1 := n * 10 + (byte_val c - 48) in
        if maxVal <? n1 then Error "value out of range"
        else ParseUint_loop maxVal n1 t
      else Error "invalid syntax"
  end.

Definition ParseUint (bitSize : Z) (s : bytes) : result Z :=
  match s with
  | [] => Error "invalid syntax"
  | _ => ParseUint_loop (2 ^ bitSize - 1) 0 s
  end.

(** [strconv.Atoi] on a 64-bit [int]: an optional sign, then digits; the cut
    off is 2^63 - 1, or 2^63 after a minus sign. *)
Definition Atoi (s : bytes) : result Z :=
  match s with
  | [] => Error "invalid syntax"
  | c :: t =>
      if Ascii.eqb c "-" then
        n ← (match t with [] => Error "invalid syntax"
                        | _ => ParseUint_loop (2 ^ 63) 0 t end);
        Ok (- n)
      else
        let digits := if Ascii.eqb c "+" then t else s in
        match digits with
        | [] => Error "invalid syntax"
        | _ => ParseUint_loop (2 ^ 63 - 1) 0 digits
        end
  end.

(** [strconv.Itoa] on a non-negative number, by repeated division; [fuel]
    bounds the number of digits. *)
Fixpoint digits (base : Z) (digit : Z -> ascii) (fuel : nat) (n : Z) (acc : bytes) : bytes :=
  match fuel with
  | O => acc
  | S f =>
      let acc := digit (n mod base) :: acc in
      if n <? base then acc else digits base digit f (n / base) acc
  end.

Definition dec_digit (d : Z) : ascii := byte_of (48 + d).
Definition hex_digit (d : Z) : ascii := byte_of (if d <? 10 then 48 + d else 87 + d).

Definition Itoa (n : Z) : bytes :=
  if n <? 0 then ("-"%char :: digits 10 dec_digit 64 (- n) [])
  else digits 10 dec_digit 64 n [].

(** ** [unicode/utf8] *)

Definition RuneError : Z := 0xFFFD.

Definition cont (lo hi : Z) (c : ascii) : bool := (lo <=? byte_val c) && (byte_val c <=? hi).

(** The length a lead byte announces (1 for an invalid one) and the range of the
    byte after it. *)
Definition utf8_lead (b0 : Z) : Z * Z * Z :=
  if b0 <? 0xC2 then (1, 0, 0)
  else if b0 <? 0xE0 then (2, 0x80, 0xBF)
  else if b0 =? 0xE0 then (3, 0xA0, 0xBF)
  else if b0 =? 0xED then (3, 0x80, 0x9F)
  else if b0 <? 0xF0 then (3, 0x80, 0xBF)
  else if b0 =? 0xF0 then (4, 0x90, 0xBF)
  else if b0 <? 0xF4 then (4, 0x80, 0xBF)
  else if b0 =? 0xF4 then (4, 0x80, 0x8F)
  else (1, 0, 0).

(** [utf8.DecodeRuneInString]: the first rune of [s] and its width in bytes;
    [(RuneError, 1)] for an invalid encoding, [(RuneError, 0)] for [""]. *)
Definition DecodeRune (s : bytes) : Z * nat :=
  match s with
  | [] => (RuneError, 0%nat)
  | c0 :: s1 =>
      let b0 := byte_val c0 in
      if b0 <? 0x80 then (b0, 1%nat)
      else
        let '(size, lo, hi) := utf8_lead b0 in
        match s1 with
        | c1 :: s2 =>
            if (size =? 1) || negb (cont lo hi c1) then (RuneError, 1%nat)
            else
              let b1 := byte_val c1 in
              if size =? 2 then (Z.land b0 0x1F * 64 + Z.land b1 0x3F, 2%nat)
              else match s2 with
                   | c2 :: s3 =>
                       if negb (cont 0x80 0xBF c2) then (RuneError, 1%nat)
                       else
                         let b2 := byte_val c2 in
                         if size =? 3 then
                           (Z.land b0 0x0F * 4096 + Z.land b1 0x3F * 64 + Z.land b2 0x3F, 3%nat)
                         else match s3 with
                              | c3 :: _ =>
                                  if negb (cont 0x80 0xBF c3) then (RuneError, 1%nat)
                                  else (Z.land b0 0x07 * 262144 + Z.land b1 0x3F * 4096
                                        + Z.land b2 0x3F * 64 + Z.land (byte_val c3) 0x3F, 4%nat)
                              | [] => (RuneError, 1%nat)
                              end
                   | [] => (RuneError, 1%nat)
                   end
        | [] => (RuneError, 1%nat)
        end
  end.

(** ** [net/textproto] *)

(** [validHeaderFieldByte]: the token characters of RFC 7230. *)
Definition validHeaderFieldByte (c : ascii) : bool :=
  is_upper c || is_lower c || is_digit c ||
  existsb (Ascii.eqb c) (str "!#$%&'*+-.^_`|~").

Fixpoint canonicalMIMEHeaderKey (upper : bool) (s : bytes) : bytes :=
  match s with
  | [] => []
  | c :: t =>
      let c := if upper then upper_byte c else lower_byte c in
      c :: canonicalMIMEHeaderKey (Ascii.eqb c "-") t
  end.

(** [textproto.CanonicalMIMEHeaderKey]: unchanged when some byte is not a
    token character. *)
Definition CanonicalMIMEHeaderKey (s : bytes) : bytes :=
  if forallb validHeaderFieldByte s then canonicalMIMEHeaderKey true s else s.

(** ** Lemmas: prefixes, suffixes, cutting *)

Lemma CutPrefix_Some p s r : CutPrefix p s = Some r <-> s = (p ++ r)%list.
Proof.
  revert s. induction p as [|c p IH]; intros [|d s]; simpl; try naive_solver.
  destruct (Ascii.eqb_spec c d) as [->|Hne].
  - rewrite IH. naive_solver.
  - split; [discriminate | naive_solver].
Qed.

Lemma HasPrefix_true p s : HasPrefix p s = true <-> exists r, s = (p ++ r)%list.
Proof.
  unfold HasPrefix. rewrite bool_decide_eq_true. unfold is_Some.
  setoid_rewrite CutPrefix_Some. done.
Qed.

Lemma CutSuffix_Some p s r : CutSuffix p s = Some r <-> s = (r ++ p)%list.
Proof.
  unfold CutSuffix.
  destruct (CutPrefix (rev p) (rev s)) as [q|] eqn:E.
  - apply CutPrefix_Some in E. apply (f_equal (@rev ascii)) in E.
    rewrite rev_involutive, rev_app_distr, rev_involutive in E. subst s.
    split; [intros [= ->]; done|]. intros H%app_inv_tail. by subst.
  - split; [discriminate|]. intros ->. rewrite rev_app_distr in E.
    assert (CutPrefix (rev p) (rev p ++ rev r) = Some (rev r)) by by apply CutPrefix_Some.
    congruence.
Qed.

Lemma HasSuffix_true p s : HasSuffix p s = true <-> exists r, s = (r ++ p)%list.
Proof.
  unfold HasSuffix. rewrite bool_decide_eq_true. unfold is_Some.
  setoid_rewrite CutSuffix_Some. done.
Qed.

Lemma Cut_Some sep s a b : Cut sep s = Some (a, b) <-> s = (a ++ sep :: b)%list /\ sep ∉ a.
Proof.
  revert a b. induction s as [|c s IH]; intros a b; simpl.
  { split; [discriminate|]. intros [H _]. by destruct a. }
  destruct (Ascii.eqb_spec c sep) as [->|Hne].
  - split.
    + intros [= <- <-]. split; [done|]. apply not_elem_of_nil.
    + intros [H Hn]. destruct a as [|x a]; simplify_eq/=; [done|].
      exfalso. apply Hn. by left.
  - destruct (Cut sep s) as [[x y]|] eqn:E.
    + split.
      * intros [= <- <-]. destruct (proj1 (IH x y) eq_refl) as [-> ?].
        split; [done|]. rewrite not_elem_of_cons. done.
      * intros [H Hn]. destruct a as [|z a]; simplify_eq/=.
        apply not_elem_of_cons in Hn as [? ?].
        assert (Some (x, y) = Some (a, b)) as [= -> ->] by by apply IH. done.
    + split; [discriminate|]. intros [H Hn]. destruct a as [|z a]; simplify_eq/=.
      apply not_elem_of_cons in Hn as [? ?].
      assert (None = Some (a, b)) by by apply IH. done.
Qed.

Lemma Cut_None sep s : Cut sep s = None <-> sep ∉ s.
Proof.
  induction s as [|c s IH]; simpl; [split; [intros _; apply not_elem_of_nil | done]|].
  rewrite not_elem_of_cons.
  destruct (Ascii.eqb_spec c sep) as [->|Hne]; [naive_solver|].
  destruct (Cut sep s) as [[??]|]; naive_solver.
Qed.

Lemma Cut_app sep a b : sep ∉ a -> Cut sep (a ++ sep :: b) = Some (a, b).
Proof. intros. by apply Cut_Some. Qed.

Lemma CutLast_Some sep s a b :
  CutLast sep s = Some (a, b) <-> s = (a ++ sep :: b)%list /\ sep ∉ b.
Proof.
  unfold CutLast. destruct (Cut sep (rev s)) as [[x y]|] eqn:E.
  - apply Cut_Some in E as [E Hn]. apply (f_equal (@rev ascii)) in E.
    rewrite rev_involutive, rev_app_distr in E. simpl in E. rewrite <- app_assoc in E. simpl in E.
    subst s. split.
    + intros [= <- <-]. split; [done|]. by rewrite list_elem_of_In, <- in_rev, <- list_elem_of_In.
    + intros [H Hb]. 
      assert (Cut sep (rev (rev y ++ sep :: rev x)) = Some (rev b, rev a)) as Hc.
      { rewrite H, rev_app_distr. simpl. rewrite <- app_assoc. apply Cut_app.
        by rewrite list_elem_of_In, <- in_rev, <- list_elem_of_In. }
      rewrite rev_app_distr in Hc. simpl in Hc. rewrite !rev_involutive, <- app_assoc in Hc.
      simpl in Hc. rewrite Cut_app in Hc by done. simplify_eq. by rewrite !rev_involutive.
  - split; [discriminate|]. intros [-> Hb]. apply Cut_None in E. exfalso. apply E.
    rewrite list_elem_of_In, <- in_rev. apply in_elt.
Qed.

Lemma CutLast_None sep s : CutLast sep s = None <-> sep ∉ s.
Proof.
  unfold CutLast. rewrite (list_elem_of_In s), in_rev, <- list_elem_of_In, <- Cut_None.
  by destruct (Cut sep (rev s)) as [[??]|].
Qed.

(** ** Lemmas: splitting and joining *)

Lemma Split_ne sep s : Split sep s <> [].
Proof. destruct s; simpl; [done|]. destruct (Ascii.eqb _ _); [done|]. by destruct (Split sep s). Qed.

Lemma Split_cons_sep sep s : Split sep (sep :: s) = [] :: Split sep s.
Proof. simpl. by rewrite Ascii.eqb_refl. Qed.

Lemma Split_no_sep sep s : sep ∉ s -> Split sep s = [s].
Proof.
  induction s as [|c s IH]; [done|]. intros [? ?]%not_elem_of_cons. simpl.
  destruct (Ascii.eqb_spec c sep); [by subst|]. by rewrite IH.
Qed.

Lemma Split_app_sep sep a b : sep ∉ a -> Split sep (a ++ sep :: b) = a :: Split sep b.
Proof.
  induction a as [|c a IH]; intros Ha; [apply Split_cons_sep|].
  apply not_elem_of_cons in Ha as [? ?]. simpl.
  destruct (Ascii.eqb_spec c sep); [by subst|]. by rewrite IH.
Qed.

Lemma Join_cons sep p ps : ps <> [] -> Join sep (p :: ps) = (p ++ sep ++ Join sep ps)%list.
Proof. by destruct ps. Qed.

Lemma Join_app sep a b :
  a <> [] -> b <> [] -> Join sep (a ++ b) = (Join sep a ++ sep ++ Join sep b)%list.
Proof.
  intros Ha Hb. induction a as [|p a IH]; [done|]. destruct a as [|q a].
  - simpl. by destruct b.
  - cbn [app]. rewrite (Join_cons sep p (q :: a)), Join_cons by done.
    change (q :: (a ++ b))%list with ((q :: a) ++ b)%list. rewrite IH by done. by rewrite <- !app_assoc.
Qed.

Lemma length_Join sep ps :
  ps <> [] -> S (length (Join [sep] ps)) = sum_list (map (fun p => S (length p)) ps).
Proof.
  induction ps as [|p ps IH]; [done|]. intros _. destruct ps as [|q ps]; [simpl; lia|].
  specialize (IH ltac:(done)). rewrite Join_cons, !length_app by done.
  change (length [sep]) with 1%nat.
  change (sum_list (map (fun p => S (length p)) (p :: q :: ps)))
    with (S (length p) + sum_list (map (fun p => S (length p)) (q :: ps)))%nat. lia.
Qed.

Lemma Join_Split sep s : Join [sep] (Split sep s) = s.
Proof.
  induction s as [|c s IH]; [done|]. simpl Split.
  destruct (Ascii.eqb_spec c sep) as [->|Hne].
  - rewrite Join_cons by apply Split_ne. simpl. by rewrite IH.
  - pose proof (Split_ne sep s). destruct (Split sep s) as [|h [|h' r]]; [done|..];
      simpl in *; by rewrite <- IH.
Qed.

Lemma Split_Join sep ps :
  ps <> [] -> Forall (fun p => sep ∉ p) ps -> Split sep (Join [sep] ps) = ps.
Proof.
  induction ps as [|p ps IH]; [done|]. intros _ [Hp Hps]%Forall_cons.
  destruct ps as [|p' ps]; [simpl; by apply Split_no_sep|].
  rewrite Join_cons by done.
  etrans; [apply (Split_app_sep sep p (Join [sep] (p' :: ps)) Hp)|]. by rewrite IH.
Qed.

Lemma Split_parts sep s : Forall (fun p => sep ∉ p) (Split sep s).
Proof.
  induction s as [|c s IH]; simpl; [repeat constructor; apply not_elem_of_nil|].
  destruct (Ascii.eqb_spec c sep) as [->|Hne].
  - constructor; [apply not_elem_of_nil | done].
  - destruct (Split sep s) as [|h r].
    + repeat constructor. apply not_elem_of_cons; split; [done | apply not_elem_of_nil].
    + apply Forall_cons in IH as [? ?]. constructor; [|done]. by apply not_elem_of_cons.
Qed.

#[export] Hint Resolve Split_ne Split_parts : mitmania.

(** ** Lemmas: numbers *)

Lemma dec_digit_val d : 0 <= d < 10 -> byte_val (dec_digit d) = 48 + d.
Proof. intros. unfold dec_digit. apply byte_val_of. lia. Qed.

Lemma dec_digit_is_digit d : 0 <= d < 10 -> is_digit (dec_digit d) = true.
Proof. intros. unfold is_digit. rewrite dec_digit_val by lia. lia. Qed.

Lemma ParseUint_loop_range m n s v : 0 <= n <= m -> ParseUint_loop m n s = Ok v -> 0 <= v <= m.
Proof.
  revert n. induction s as [|c s IH]; intros n Hn H; simpl in H; [by inv_ok; subst|].
  destruct (is_digit c) eqn:Hd; [|done].
  destruct (m <? _) eqn:E; [done|]. apply IH in H; [done|].
  unfold is_digit in Hd. lia.
Qed.

Lemma ParseUint_range b s v : 0 <= b -> ParseUint b s = Ok v -> 0 <= v < 2 ^ b.
Proof.
  intros Hb H. destruct s; [done|]. apply ParseUint_loop_range in H; lia.
Qed.

(** The digits of a number, appended to [acc], parse back to it. *)
Lemma ParseUint_loop_digits m fuel n acc k :
  0 <= n < 10 ^ Z.of_nat fuel -> (0 < fuel)%nat -> 0 <= k ->
  exists w, 0 < w /\
  (k * 10 ^ w + n <= m ->
   ParseUint_loop m k (digits 10 dec_digit fuel n acc) = ParseUint_loop m (k * 10 ^ w + n) acc).
Proof.
  revert n acc. induction fuel as [|f IH]; intros n acc [Hn Hlt] Hf Hk; [lia|].
  simpl. destruct (n <? 10) eqn:E.
  - exists 1. split; [lia|]. intros Hm. simpl.
    pose proof (Z.mod_small n 10).
    rewrite dec_digit_is_digit, dec_digit_val by lia.
    destruct (m <? _) eqn:E2; [lia|]. f_equal. lia.
  - destruct f as [|f']; [simpl in Hlt; lia|].
    assert (n / 10 < 10 ^ Z.of_nat (S f')) as Hlt'.
    { apply Z.div_lt_upper_bound; [lia|].
      rewrite <- Z.pow_succ_r by lia. by rewrite <- Nat2Z.inj_succ. }
    pose proof (Z.div_mod n 10). pose proof (Z.mod_pos_bound n 10).
    destruct (IH (n / 10) (dec_digit (n mod 10) :: acc)) as (w & Hw & Hstep);
      [lia | lia | lia |].
    exists (w + 1). split; [lia|].
    rewrite Z.pow_add_r by lia. change (10 ^ 1) with 10. intros Hm.
    rewrite Hstep by nia. simpl.
    rewrite dec_digit_is_digit, dec_digit_val by lia.
    destruct (m <? _) eqn:E2; [nia|]. f_equal. nia.
Qed.

Lemma digits_S base dig f n acc :
  digits base dig (S f) n acc
  = if n <? base then dig (n mod base) :: acc
    else digits base dig f (n / base) (dig (n mod base) :: acc).
Proof. done. Qed.

#[global] Arguments digits : simpl never.

Lemma digits_ne base dig fuel n acc : (0 < fuel)%nat -> digits base dig fuel n acc <> [].
Proof.
  revert n acc. induction fuel as [|f IH]; intros n acc; [lia|]. rewrite digits_S.
  destruct (n <? base); [done|]. destruct f; [done|]. intros _. apply IH. lia.
Qed.

(** [strconv.ParseUint(strconv.Itoa(n))] is [n]. *)
Lemma ParseUint_Itoa b n : 0 <= b <= 64 -> 0 <= n < 2 ^ b -> ParseUint b (Itoa n) = Ok n.
Proof.
  intros Hb Hn. assert (2 ^ b <= 2 ^ 64) by (apply Z.pow_le_mono_r; lia).
  unfold Itoa. destruct (n <? 0) eqn:E; [lia|].
  destruct (ParseUint_loop_digits (2 ^ b - 1) 64 n [] 0) as (w & Hw & Hstep); [lia..|].
  unfold ParseUint. pose proof (digits_ne 10 dec_digit 64 n [] ltac:(lia)).
  destruct (digits 10 dec_digit 64 n []) eqn:Ed; [done|].
  rewrite Hstep by lia. simpl. f_equal; lia.
Qed.

Lemma digits_all base dig fuel n acc (P : ascii -> bool) :
  0 < base -> (forall d, 0 <= d < base -> P (dig d) = true) -> forallb P acc = true ->
  forallb P (digits base dig fuel n acc) = true.
Proof.
  intros Hb Hd. revert n acc. induction fuel as [|f IH]; intros n acc Hacc; [done|].
  rewrite digits_S. pose proof (Z.mod_pos_bound n base Hb).
  destruct (n <? base); [|apply IH]; simpl; by rewrite Hd, Hacc.
Qed.

Lemma Itoa_digits n : 0 <= n -> forallb is_digit (Itoa n) = true.
Proof.
  intros Hn. unfold Itoa. destruct (Z.ltb_spec n 0); [lia|].
  apply digits_all; [lia|apply dec_digit_is_digit|done].
Qed.

(** [strconv.Atoi(strconv.Itoa(n))] is [n]. *)
Lemma Atoi_Itoa n : 0 <= n < 2 ^ 63 -> Atoi (Itoa n) = Ok n.
Proof.
  intros Hn. pose proof (Itoa_digits n ltac:(lia)) as Hd.
  pose proof (ParseUint_Itoa 63 n ltac:(lia) Hn) as Hp. unfold ParseUint in Hp. unfold Atoi.
  destruct (Itoa n) as [|c t]; [done|]. simpl in Hd. apply andb_true_iff in Hd as [Hc _].
  destruct (Ascii.eqb_spec c "-") as [->|]; [done|].
  destruct (Ascii.eqb_spec c "+") as [->|]; done.
Qed.

(** ** Lemmas: lower-casing *)

Lemma ToLower_aux_cons lower_run run c s :
  is_ascii c = true ->
  ToLower_aux lower_run run (c :: s)
  = (ToLower_aux lower_run run [] ++ lower_byte c :: ToLower lower_run s)%list.
Proof. intros H. simpl. by rewrite H. Qed.

Lemma ToLower_aux_app lower_run run a c s :
  is_ascii c = true ->
  ToLower_aux lower_run run (a ++ c :: s)
  = (ToLower_aux lower_run run a ++ lower_byte c :: ToLower lower_run s)%list.
Proof.
  intros Hc. revert run. induction a as [|d a IH]; intros run.
  - by rewrite app_nil_l, ToLower_aux_cons.
  - simpl. destruct (is_ascii d); [|by apply IH].
    rewrite IH. by rewrite <- app_assoc.
Qed.

(** An ASCII byte is a rune boundary: lower-casing works piecewise around it. *)
Lemma ToLower_app_ascii lower_run a c s :
  is_ascii c = true ->
  ToLower lower_run (a ++ c :: s)
  = (ToLower lower_run a ++ lower_byte c :: ToLower lower_run s)%list.
Proof. apply ToLower_aux_app. Qed.

Lemma ToLower_ascii lower_run s :
  forallb is_ascii s = true -> ToLower lower_run s = map lower_byte s.
Proof.
  unfold ToLower. induction s as [|c s IH]; simpl; [done|].
  intros [Hc Hs]%andb_true_iff. rewrite Hc. by rewrite IH.
Qed.

Lemma EqualFold_length s t : EqualFold s t = true -> length s = length t.
Proof.
  revert t. induction s as [|c s IH]; intros [|d t]; simpl; try done.
  intros [_ H]%andb_true_iff. f_equal. by apply IH.
Qed.

Lemma EqualFold_lower s t : EqualFold s t = true <-> map lower_byte s = map lower_byte t.
Proof.
  revert t. induction s as [|c s IH]; intros [|d t]; simpl; [done..|].
  rewrite andb_true_iff, IH, Ascii.eqb_eq. split.
  - by intros [-> ->].
  - by intros [= -> ->].
Qed.

(** ** Lemmas: the order on strings *)

Lemma bytes_ltb_irrefl a : bytes_ltb a a = false.
Proof. induction a as [|c a IH]; simpl; [done|]. rewrite IH, Z.ltb_irrefl. by destruct (_ =? _). Qed.

Lemma bytes_ltb_trans a b c : bytes_ltb a b = true -> bytes_ltb b c = true -> bytes_ltb a c = true.
Proof.
  revert b c. induction a as [|x a IH]; intros [|y b] [|z c]; simpl; try done.
  rewrite !orb_true_iff, !andb_true_iff, !Z.ltb_lt, !Z.eqb_eq.
  intros [?|[? ?]] [?|[? ?]]; [left; lia|left; lia|left; lia|right]. split; [lia|]. by eapply IH.
Qed.

Lemma bytes_ltb_total a b : a <> b -> bytes_ltb a b = true \/ bytes_ltb b a = true.
Proof.
  revert b. induction a as [|x a IH]; intros [|y b] Hne; simpl; [done|by left|by right|].
  rewrite !orb_true_iff, !andb_true_iff, !Z.ltb_lt, !Z.eqb_eq.
  destruct (Z.lt_total (byte_val x) (byte_val y)) as [?|[Heq|?]]; [tauto| |tauto].
  apply byte_val_inj in Heq as ->.
  destruct (IH b) as [?|?]; [congruence|tauto|tauto].
Qed.

Lemma bytes_ltb_ne a b : bytes_ltb a b = true -> a <> b.
Proof. intros H ->. by rewrite bytes_ltb_irrefl in H. Qed.

Lemma bytes_ltb_asym a b : bytes_ltb a b = true -> bytes_ltb b a = false.
Proof.
  intros H. destruct (bytes_ltb b a) eqn:E; [|done].
  pose proof (bytes_ltb_trans _ _ _ H E) as Haa. by rewrite bytes_ltb_irrefl in Haa.
Qed.

(** [sort.Strings] as insertion sort: the order of equal strings is not
    observable. *)
Fixpoint insert_string (s : bytes) (l : list bytes) : list bytes :=
  match l with
  | [] => [s]
  | x :: t => if bytes_ltb x s then x :: insert_string s t else s :: l
  end.

Definition SortStrings (l : list bytes) : list bytes := foldr insert_string [] l.

Lemma insert_string_perm s l : insert_string s l ≡ₚ s :: l.
Proof.
  induction l as [|x l IH]; simpl; [done|]. destruct (bytes_ltb x s); [|done].
  rewrite IH. by constructor.
Qed.

Lemma SortStrings_perm l : SortStrings l ≡ₚ l.
Proof. induction l as [|x l IH]; simpl; [done|]. by rewrite insert_string_perm, IH. Qed.

Definition bytes_le (a b : bytes) : Prop := bytes_ltb b a = false.

Lemma bytes_le_trans a b c : bytes_le a b -> bytes_le b c -> bytes_le a c.
Proof.
  unfold bytes_le. intros H1 H2. destruct (bytes_ltb c a) eqn:E; [|done].
  destruct (decide (b = c)) as [->|Hne]; [congruence|].
  destruct (bytes_ltb_total b c Hne) as [Hbc|Hcb]; [|congruence].
  pose proof (bytes_ltb_trans _ _ _ Hbc E). congruence.
Qed.

Lemma insert_string_sorted s l : StronglySorted bytes_le l -> StronglySorted bytes_le (insert_string s l).
Proof.
  induction l as [|x l IH]; intros Hs; simpl; [repeat constructor|].
  apply StronglySorted_inv in Hs as [Hs Hx]. destruct (bytes_ltb x s) eqn:E.
  - constructor; [by apply IH|]. rewrite insert_string_perm. constructor; [|done].
    by apply bytes_ltb_asym.
  - constructor; [by constructor|]. constructor; [done|].
    eapply Forall_impl; [exact Hx|]. intros y Hy. by eapply bytes_le_trans.
Qed.

Lemma SortStrings_sorted l : StronglySorted bytes_le (SortStrings l).
Proof. induction l; simpl; [constructor|]. by apply insert_string_sorted. Qed.
