(* ===== verification/Netip.v ===== *)
(** * Go's [net/netip]: addresses, prefixes, their text forms

    An address is its family and its value as a 32- or 128-bit integer, as in
    the standard library; [AsSlice] gives the big-endian bytes.  Parsing and
    printing follow the library's algorithms, so that the address/mask keys of
    the default table can be related to their canonical text. *)

From S2P Require Import Prelude GoStrings.

Open Scope Z_scope.

(** ** Big-endian byte lists *)

(** The low [n] bytes of [v], most significant first. *)
Fixpoint be_bytes (n : nat) (v : Z) : list Z :=
  match n with
  | O => []
  | S n' => (v / 256 ^ Z.of_nat n') mod 256 :: be_bytes n' v
  end.

Definition of_be (l : list Z) : Z := foldl (fun a b => a * 256 + b) 0 l.

Definition bytes_ok (l : list Z) : Prop := Forall (fun b => 0 <= b < 256) l.

(** ** Addresses *)

Inductive Addr : Type :=
  | AddrZero                        (* the invalid zero value *)
  | Addr4 (v : Z)
  | Addr6 (v : Z) (zone : bytes).   (* zone [] is "no zone" *)

#[export] Instance Addr_eq_dec : EqDecision Addr.
Proof. solve_decision. Defined.

#[export] Instance Addr_countable : Countable Addr.
Proof.
  refine (inj_countable'
    (fun a => match a with
              | AddrZero => (0, 0, [])
              | Addr4 v => (1, v, [])
              | Addr6 v z => (2, v, z)
              end)
    (fun t => let '(k, v, z) := t in
              if k =? 0 then AddrZero else if k =? 1 then Addr4 v else Addr6 v z) _).
  by intros [].
Defined.

Definition addr_wf (a : Addr) : Prop :=
  match a with
  | AddrZero => True
  | Addr4 v => 0 <= v < 2 ^ 32
  | Addr6 v _ => 0 <= v < 2 ^ 128
  end.

Definition Is4 (a : Addr) : bool := match a with Addr4 _ => true | _ => false end.
Definition Is6 (a : Addr) : bool := match a with Addr6 _ _ => true | _ => false end.
Definition IsValid (a : Addr) : bool := match a with AddrZero => false | _ => true end.
Definition Zone (a : Addr) : bytes := match a with Addr6 _ z => z | _ => [] end.
Definition BitLen (a : Addr) : Z :=
  match a with AddrZero => 0 | Addr4 _ => 32 | Addr6 _ _ => 128 end.
Definition addr_val (a : Addr) : Z :=
  match a with AddrZero => 0 | Addr4 v => v | Addr6 v _ => v end.

(** [::ffff:0:0/96]. *)
Definition Is4In6 (a : Addr) : bool :=
  match a with Addr6 v _ => v / 2 ^ 32 =? 0xffff | _ => false end.

Definition Unmap (a : Addr) : Addr :=
  if Is4In6 a then Addr4 (addr_val a mod 2 ^ 32) else a.

Definition AsSlice (a : Addr) : list Z :=
  match a with
  | AddrZero => []
  | Addr4 v => be_bytes 4 v
  | Addr6 v _ => be_bytes 16 v
  end.

Definition AddrFromSlice (l : list Z) : option Addr :=
  if (length l =? 4)%nat then Some (Addr4 (of_be l))
  else if (length l =? 16)%nat then Some (Addr6 (of_be l) [])
  else None.

(** ** Parsing *)

(** [parseIPv4Fields]: [fields] are the finished octets, newest first. *)
Fixpoint parseIPv4Fields (s : bytes) (fields : list Z) (val : Z) (digLen : nat)
    : result (list Z) :=
  match s with
  | [] =>
      if (length fields <? 3)%nat then Error "IPv4 address too short"
      else Ok (rev (val :: fields))
  | c :: t =>
      if is_digit c then
        if (digLen =? 1)%nat && (val =? 0) then Error "IPv4 field has octet with leading zero"
        else
          let val := val * 10 + (byte_val c - 48) in
          if 255 <? val then Error "IPv4 field has value >255"
          else parseIPv4Fields t fields val (S digLen)
      else if Ascii.eqb c "." then
        if (digLen =? 0)%nat || bool_decide (t = []) then
          Error "IPv4 field must have at least one digit"
        else if (length fields =? 3)%nat then Error "IPv4 address too long"
        else parseIPv4Fields t (val :: fields) 0 0
      else Error "unexpected character"
  end.

Definition parseIPv4 (s : bytes) : result Addr :=
  fields ← parseIPv4Fields s [] 0 0; Ok (Addr4 (of_be fields)).

Definition hex_val (c : ascii) : option Z :=
  let v := byte_val c in
  if (48 <=? v) && (v <=? 57) then Some (v - 48)
  else if (97 <=? v) && (v <=? 102) then Some (v - 87)
  else if (65 <=? v) && (v <=? 70) then Some (v - 55)
  else None.

(** The leading hex digits of [s]: value, how many, what follows. *)
Fixpoint hex_run (s : bytes) (off : nat) (acc : Z) : result (Z * nat * bytes) :=
  match s with
  | [] => Ok (acc, off, [])
  | c :: t =>
      match hex_val c with
      | None => Ok (acc, off, s)
      | Some d =>
          let acc := acc * 16 + d in
          if (3 <? off)%nat then Error "each group must have 4 or less digits"
          else if 65535 <? acc then Error "IPv6 field has value >=2^16"
          else hex_run t (S off) acc
      end
  end.

(** The group loop of [parseIPv6]; [groups] are the 16-bit fields read so far,
    [ell] the position of the ellipsis, [fuel] the fields still to fill. *)
Fixpoint parseIPv6_loop (fuel : nat) (s : bytes) (groups : list Z) (ell : option nat)
    : result (list Z * option nat * bytes) :=
  match fuel with
  | O => Ok (groups, ell, s)
  | S f =>
      '(acc, off, rest) ← hex_run s 0 0;
      if (off =? 0)%nat then Error "each colon-separated field must have at least one digit"
      else
        match rest with
        | c :: rest1 =>
            if Ascii.eqb c "." then
              if negb (bool_decide (is_Some ell)) && negb (length groups =? 6)%nat then
                Error "embedded IPv4 address must replace the final 2 fields of the address"
              else if (6 <? length groups)%nat then
                Error "too many hex fields to fit an embedded IPv4 at the end of the address"
              else
                fields ← parseIPv4Fields s [] 0 0;
                match fields with
                | [a; b; c; d] => Ok ((groups ++ [a * 256 + b; c * 256 + d])%list, ell, [])
                | _ => Error "IPv4 address too short"
                end
            else if negb (Ascii.eqb c ":") then Error "unexpected character, want colon"
            else
              let groups := (groups ++ [acc])%list in
              match rest1 with
              | [] => Error "colon must be followed by more characters"
              | d :: rest2 =>
                  if Ascii.eqb d ":" then
                    if bool_decide (is_Some ell) then Error "multiple :: in address"
                    else match rest2 with
                         | [] => Ok (groups, Some (length groups), [])
                         | _ => parseIPv6_loop f rest2 groups (Some (length groups))
                         end
                  else parseIPv6_loop f rest1 groups ell
              end
        | [] => Ok ((groups ++ [acc])%list, ell, [])
        end
  end.

Definition groups_val (g : list Z) : Z := foldl (fun a b => a * 65536 + b) 0 g.

(** [parseIPv6] after the zone has been split off. *)
Definition parseIPv6_groups (s : bytes) : result (list Z) :=
  match CutPrefix (str "::") s with
  | Some [] => Ok (replicate 8 0)
  | lead =>
      let '(s, ell) := match lead with
                       | Some s' => (s', Some 0%nat)
                       | None => (s, None)
                       end in
      '(groups, ell, rest) ← parseIPv6_loop 8 s [] ell;
      if negb (bool_decide (rest = [])) then Error "trailing garbage after address"
      else if (length groups <? 8)%nat then
        match ell with
        | None => Error "address string too short"
        | Some e =>
            Ok (take e groups ++ replicate (8 - length groups) 0 ++ drop e groups)%list
        end
      else if bool_decide (is_Some ell) then
        Error "the :: must expand to at least one field of zeros"
      else Ok groups
  end.

Definition parseIPv6 (s : bytes) : result Addr :=
  match Cut "%" s with
  | Some (_, []) => Error "zone must be a non-empty string"
  | Some (a, zone) => g ← parseIPv6_groups a; Ok (Addr6 (groups_val g) zone)
  | None => g ← parseIPv6_groups s; Ok (Addr6 (groups_val g) [])
  end.

(** [netip.ParseAddr]: the first of [.], [:] and [%] decides the family. *)
Fixpoint parseAddr_family (s : bytes) : ascii :=
  match s with
  | [] => "%"
  | c :: t =>
      if Ascii.eqb c "." || Ascii.eqb c ":" || Ascii.eqb c "%" then c
      else parseAddr_family t
  end.

Definition ParseAddr (s : bytes) : result Addr :=
  let f := parseAddr_family s in
  if Ascii.eqb f "." then parseIPv4 s
  else if Ascii.eqb f ":" then parseIPv6 s
  else Error "unable to parse IP".

(** ** Printing *)

Definition string4 (v : Z) : bytes :=
  Join (str ".") (map Itoa (be_bytes 4 v)).

(** The eight 16-bit groups of a 128-bit value. *)
Definition groups_of (v : Z) : list Z :=
  map (fun i => (v / 65536 ^ i) mod 65536) [7; 6; 5; 4; 3; 2; 1; 0].

(** [appendHex]: lower-case, no leading zeros. *)
Definition hex16 (g : Z) : bytes := digits 16 hex_digit 4 g [].

(** How many zero groups the list starts with. *)
Fixpoint zero_run (g : list Z) : nat :=
  match g with
  | x :: t => if x =? 0 then S (zero_run t) else 0
  | [] => 0
  end.

(** The first longest run of at least two zero groups: the loop of [appendTo6]
    over the start positions [i], keeping [(zeroStart, zeroEnd)]. *)
Fixpoint zero_span (g : list Z) (i : nat) (best : option (nat * nat)) : option (nat * nat) :=
  match g with
  | [] => best
  | _ :: t =>
      let l := zero_run g in
      let cur := match best with Some (s, e) => (e - s)%nat | None => 0%nat end in
      let best := if (2 <=? l)%nat && (cur <? l)%nat then Some (i, (i + l)%nat) else best in
      zero_span t (S i) best
  end.

(** The printing loop of [appendTo6] from group [i] on; [g] are the groups from
    [i], [skip] the groups of the span still to pass over. *)
Fixpoint print6 (g : list Z) (i : nat) (span : option (nat * nat)) (skip : nat) (sep : bool) : bytes :=
  match g with
  | [] => []
  | x :: t =>
      match skip with
      | S k => print6 t (S i) span k sep
      | O =>
          if bool_decide (fst <$> span = Some i) then
            let l := match span with Some (s, e) => (e - s)%nat | None => 0%nat end in
            (str "::" ++ print6 t (S i) span (l - 1) false)%list
          else
            ((if sep then str ":" else []) ++ hex16 x ++ print6 t (S i) span 0 true)%list
      end
  end.

Definition string6 (v : Z) : bytes :=
  let g := groups_of v in print6 g 0 (zero_span g 0 None) 0 false.

Definition AddrString (a : Addr) : bytes :=
  match a with
  | AddrZero => str "invalid IP"
  | Addr4 v => string4 v
  | Addr6 v z =>
      ((if Is4In6 a then str "::ffff:" ++ string4 (v mod 2 ^ 32) else string6 v)
       ++ (if bool_decide (z = []) then [] else str "%" ++ z))%list
  end.

(** ** Prefixes *)

Record Prefix : Type := { pfx_addr : Addr; pfx_bits : Z }.

#[export] Instance Prefix_eq_dec : EqDecision Prefix.
Proof. solve_decision. Defined.

Definition PrefixFrom (a : Addr) (bits : Z) : Prefix :=
  {| pfx_addr := match a with Addr6 v _ => Addr6 v [] | _ => a end;
     pfx_bits := if IsValid a && (0 <=? bits) && (bits <=? BitLen a) then bits else -1 |}.

Definition prefix_valid (p : Prefix) : bool := 0 <=? pfx_bits p.

(** [netip.ParsePrefix]. *)
Definition ParsePrefix (s : bytes) : result Prefix :=
  match CutLast "/" s with
  | None => Error "no '/'"
  | Some (a, bitsStr) =>
      ip ← ParseAddr a;
      if negb (bool_decide (Zone ip = [])) then Error "IPv6 zones cannot be present in a prefix"
      else if match bitsStr with
              | c :: _ :: _ => (byte_val c <? 49) || (57 <? byte_val c)
              | _ => false
              end then Error "bad bits after slash"
      else
        bits ← Atoi bitsStr;
        if (bits <? 0) || (BitLen ip <? bits) then Error "prefix length out of range"
        else Ok (PrefixFrom ip bits)
  end.

(** [Prefix.Contains]: same family, no zone, and equal leading bits. *)
Definition Contains (p : Prefix) (ip : Addr) : bool :=
  prefix_valid p
  && bool_decide (Zone ip = [])
  && IsValid ip
  && (BitLen (pfx_addr p) =? BitLen ip)
  && (Z.shiftr (Z.lxor (addr_val ip) (addr_val (pfx_addr p))) (BitLen ip - pfx_bits p) =? 0).

(** ** Lemmas: big-endian bytes *)

Lemma length_be_bytes n v : length (be_bytes n v) = n.
Proof. induction n; simpl; congruence. Qed.

Lemma be_bytes_ok n v : bytes_ok (be_bytes n v).
Proof.
  induction n; simpl; constructor; [|done]. by apply Z.mod_pos_bound.
Qed.

Lemma be_bytes_snoc n v : be_bytes (S n) v = (be_bytes n (v / 256) ++ [v mod 256])%list.
Proof.
  induction n as [|n IH].
  - simpl. by rewrite Z.div_1_r.
  - change (be_bytes (S (S n)) v)
      with ((v / 256 ^ Z.of_nat (S n)) mod 256 :: be_bytes (S n) v).
    rewrite IH. simpl. f_equal. f_equal.
    rewrite Z.div_div by lia. f_equal.
    by rewrite Nat2Z.inj_succ, Z.pow_succ_r by lia.
Qed.

Lemma bytes_ok_cons b l : bytes_ok (b :: l) <-> 0 <= b < 256 /\ bytes_ok l.
Proof. unfold bytes_ok. by rewrite Forall_cons. Qed.

Lemma bytes_ok_snoc l b : bytes_ok (l ++ [b]) <-> bytes_ok l /\ 0 <= b < 256.
Proof. unfold bytes_ok. by rewrite Forall_app, Forall_singleton. Qed.

Lemma of_be_snoc l b : of_be (l ++ [b]) = of_be l * 256 + b.
Proof. unfold of_be. by rewrite foldl_snoc. Qed.

Lemma of_be_be_bytes n v : 0 <= v < 256 ^ Z.of_nat n -> of_be (be_bytes n v) = v.
Proof.
  revert v. induction n as [|n IH]; intros v Hv.
  - simpl in *. unfold of_be. simpl. lia.
  - rewrite be_bytes_snoc, of_be_snoc, IH.
    + pose proof (Z.div_mod v 256). lia.
    + rewrite Nat2Z.inj_succ, Z.pow_succ_r in Hv by lia.
      split; [apply Z.div_pos; lia | apply Z.div_lt_upper_bound; lia].
Qed.

Lemma of_be_range l : bytes_ok l -> 0 <= of_be l < 256 ^ Z.of_nat (length l).
Proof.
  induction l as [|b l IH] using rev_ind; intros Hl.
  - unfold of_be. simpl. lia.
  - apply bytes_ok_snoc in Hl as [Hl Hb].
    rewrite of_be_snoc, length_app. simpl. rewrite Nat.add_1_r, Nat2Z.inj_succ, Z.pow_succ_r by lia.
    specialize (IH Hl). lia.
Qed.

Lemma be_bytes_of_be l : bytes_ok l -> be_bytes (length l) (of_be l) = l.
Proof.
  induction l as [|b l IH] using rev_ind; intros Hl; [done|].
  apply bytes_ok_snoc in Hl as [Hl Hb].
  rewrite length_app. simpl. rewrite Nat.add_1_r, be_bytes_snoc, of_be_snoc.
  rewrite Z.div_add_l by lia. rewrite (Z.div_small b) by lia. rewrite Z.add_0_r, IH by done.
  f_equal. rewrite Z.add_comm, Z.mod_add by lia. f_equal. by apply Z.mod_small.
Qed.

Lemma be_bytes_of_be' n l : bytes_ok l -> length l = n -> be_bytes n (of_be l) = l.
Proof. intros Hl <-. by apply be_bytes_of_be. Qed.

Lemma of_be_inj l l' :
  bytes_ok l -> bytes_ok l' -> length l = length l' -> of_be l = of_be l' -> l = l'.
Proof.
  intros H H' Hlen E. rewrite <- (be_bytes_of_be l), <- (be_bytes_of_be l') by done.
  by rewrite Hlen, E.
Qed.

(** ** Lemmas: IPv4 text *)

Lemma is_digit_val d : 0 <= d < 10 -> is_digit (dec_digit d) = true /\ byte_val (dec_digit d) - 48 = d.
Proof. intros. rewrite dec_digit_is_digit, dec_digit_val by done. split; [done | lia]. Qed.

(** One decimal octet is read back whatever follows it. *)
Lemma parseIPv4Fields_octet a rest fields :
  0 <= a < 256 ->
  exists n, (0 < n)%nat /\
  parseIPv4Fields (Itoa a ++ rest) fields 0 0 = parseIPv4Fields rest fields a n.
Proof.
  intros Ha. unfold Itoa. replace (a <? 0) with false by lia.
  pose proof (Z.div_mod a 10). pose proof (Z.mod_pos_bound a 10).
  pose proof (Z.div_mod (a / 10) 10). pose proof (Z.mod_pos_bound (a / 10) 10).
  do 3 rewrite digits_S. destruct (Z.ltb_spec a 10).
  { exists 1%nat. split; [lia|]. rewrite Z.mod_small by lia. simpl.
    destruct (is_digit_val a) as [-> ->]; [lia|].
    change (0 * 10 + a) with a. by replace (255 <? a) with false by lia. }
  destruct (is_digit_val (a mod 10)) as [Hd0 Hv0]; [lia|].
  destruct (Z.ltb_spec (a / 10) 10).
  { exists 2%nat. split; [lia|]. rewrite (Z.mod_small (a / 10)) by lia. simpl.
    destruct (is_digit_val (a / 10)) as [-> ->]; [lia|]. rewrite Hd0, Hv0.
    change (0 * 10 + a / 10) with (a / 10).
    replace (255 <? a / 10) with false by lia. replace (a / 10 =? 0) with false by lia. simpl.
    replace (a / 10 * 10 + a mod 10) with a by lia. by replace (255 <? a) with false by lia. }
  exists 3%nat. split; [lia|]. replace (a / 10 / 10 <? 10) with true by lia.
  rewrite (Z.mod_small (a / 10 / 10)) by lia. simpl.
  destruct (is_digit_val (a / 10 / 10)) as [-> ->]; [lia|].
  destruct (is_digit_val ((a / 10) mod 10)) as [-> ->]; [lia|]. rewrite Hd0, Hv0.
  change (0 * 10 + a / 10 / 10) with (a / 10 / 10).
  replace (255 <? a / 10 / 10) with false by lia. replace (a / 10 / 10 =? 0) with false by lia. simpl.
  replace (a / 10 / 10 * 10 + (a / 10) mod 10) with (a / 10) by lia.
  replace (255 <? a / 10) with false by lia.
  replace (a / 10 * 10 + a mod 10) with a by lia. by replace (255 <? a) with false by lia.
Qed.

Lemma parseIPv4Fields_dot s fields a n :
  (0 < n)%nat -> s <> [] -> (length fields < 3)%nat ->
  parseIPv4Fields ("."%char :: s) fields a n = parseIPv4Fields s (a :: fields) 0 0.
Proof.
  intros Hn Hs Hf. simpl. destruct n; [lia|]. rewrite bool_decide_false by done.
  destruct (Nat.eqb_spec (length fields) 3); [lia|done].
Qed.

Lemma Itoa_ne a : Itoa a <> [].
Proof. unfold Itoa. destruct (a <? 0); [done|]. apply digits_ne. lia. Qed.

Lemma Itoa_app_ne a l : (Itoa a ++ l)%list <> [].
Proof. pose proof (Itoa_ne a). by destruct (Itoa a). Qed.

Lemma parseIPv4Fields_string4 a b c d :
  bytes_ok [a; b; c; d] ->
  parseIPv4Fields (Join (str ".") (map Itoa [a; b; c; d])) [] 0 0 = Ok [a; b; c; d].
Proof.
  rewrite !bytes_ok_cons. intros (Ha & Hb & Hc & Hd & _). simpl.
  destruct (parseIPv4Fields_octet a ("."%char :: (Itoa b ++ "."%char :: (Itoa c ++ "."%char :: Itoa d))) [])
    as (n & Hn & ->); [done|].
  rewrite parseIPv4Fields_dot by (auto using Itoa_app_ne; simpl; lia).
  destruct (parseIPv4Fields_octet b ("."%char :: (Itoa c ++ "."%char :: Itoa d)) [a])
    as (n2 & Hn2 & ->); [done|].
  rewrite parseIPv4Fields_dot by (auto using Itoa_app_ne; simpl; lia).
  destruct (parseIPv4Fields_octet c ("."%char :: Itoa d) [b; a]) as (n3 & Hn3 & ->); [done|].
  rewrite parseIPv4Fields_dot by (auto using Itoa_ne; simpl; lia).
  rewrite <- (app_nil_r (Itoa d)).
  destruct (parseIPv4Fields_octet d [] [c; b; a]) as (n4 & Hn4 & ->); done.
Qed.

(** ** Lemmas: IPv6 text, printing *)

Definition groups_ok (g : list Z) : Prop := Forall (fun x => 0 <= x < 65536) g.

(** The colon-separated hex form of a list of groups. *)
Definition hexjoin (g : list Z) : bytes := Join (str ":") (map hex16 g).

Lemma groups_ok_cons x g : groups_ok (x :: g) <-> 0 <= x < 65536 /\ groups_ok g.
Proof. unfold groups_ok. by rewrite Forall_cons. Qed.

Lemma groups_ok_app g h : groups_ok (g ++ h) <-> groups_ok g /\ groups_ok h.
Proof. unfold groups_ok. by rewrite Forall_app. Qed.

Lemma hexjoin_cons x g :
  hexjoin (x :: g) = (hex16 x ++ (if bool_decide (g = []) then [] else str ":") ++ hexjoin g)%list.
Proof. destruct g; [|done]. unfold hexjoin. simpl. by rewrite app_nil_r. Qed.

Lemma print6_skip g i span k sep :
  print6 g i span k sep = print6 (drop k g) (i + k) span 0 sep.
Proof.
  revert i k. induction g as [|x g IH]; intros i k; [by rewrite drop_nil|].
  destruct k as [|k]; [simpl; by rewrite Nat.add_0_r|].
  simpl. rewrite IH. f_equal. lia.
Qed.

Lemma print6_plain g i span sep :
  (forall s e, span = Some (s, e) -> (s < i)%nat \/ (i + length g <= s)%nat) ->
  print6 g i span 0 sep
  = ((if sep && negb (bool_decide (g = [])) then str ":" else []) ++ hexjoin g)%list.
Proof.
  revert i sep. induction g as [|x g IH]; intros i sep Hs; [by destruct sep|].
  simpl print6. rewrite bool_decide_false.
  2:{ destruct span as [[s e]|]; simpl; [|done]. intros [= ->].
      specialize (Hs i e eq_refl). simpl in Hs. lia. }
  rewrite IH by (intros s e He; specialize (Hs s e He); simpl in Hs; lia).
  rewrite hexjoin_cons. rewrite (bool_decide_false (x :: g = [])) by done.
  destruct sep, (bool_decide (g = [])); simpl; by rewrite ?app_assoc.
Qed.

Lemma print6_span a z b i sep :
  z <> [] ->
  print6 (a ++ z ++ b) i (Some (i + length a, i + length a + length z))%nat 0 sep
  = ((if sep && negb (bool_decide (a = [])) then str ":" else [])
     ++ hexjoin a ++ str "::" ++ hexjoin b)%list.
Proof.
  intros Hz. revert i sep. induction a as [|x a IH]; intros i sep.
  - rewrite andb_false_r. destruct z as [|y z]; [done|]. simpl.
    rewrite Nat.add_0_r. rewrite bool_decide_true by done.
    rewrite print6_skip. replace (i + S (length z) - i - 1)%nat with (length z) by lia.
    rewrite drop_app_length, print6_plain; [done|].
    intros s e [= <- <-]. lia.
  - cbn [app print6].
    rewrite bool_decide_false by (simpl; intros [=]; lia).
    replace (Some (i + length (x :: a), i + length (x :: a) + length z))%nat
      with (Some (S i + length a, S i + length a + length z))%nat by (simpl; do 2 f_equal; lia).
    rewrite IH, hexjoin_cons. rewrite (bool_decide_false (x :: a = [])) by done.
    destruct sep, (bool_decide (a = [])); simpl; by rewrite <- ?app_assoc.
Qed.

Lemma zero_run_spec g : exists h, g = (replicate (zero_run g) 0 ++ h)%list.
Proof.
  induction g as [|x g [h Hh]]; [by exists []|]. simpl.
  destruct (Z.eqb_spec x 0) as [->|].
  - exists h. simpl. by f_equal.
  - by exists (x :: g).
Qed.

(** The span is a stretch of at least two zero groups. *)
Definition zero_at (g : list Z) (s e : nat) : Prop :=
  exists a b l, (2 <= l)%nat /\ g = (a ++ replicate l 0 ++ b)%list
                /\ length a = s /\ e = (s + l)%nat.

Lemma zero_span_spec pre g best s e :
  (forall s e, best = Some (s, e) -> zero_at (pre ++ g) s e) ->
  zero_span g (length pre) best = Some (s, e) -> zero_at (pre ++ g) s e.
Proof.
  revert pre best. induction g as [|x g IH]; intros pre best Hbest; [exact (Hbest s e)|].
  cbn [zero_span]. intros H.
  replace (S (length pre)) with (length (pre ++ [x])) in H by (rewrite length_app; simpl; lia).
  apply IH in H; [by rewrite <- app_assoc in H|]. clear H.
  intros s' e'. rewrite <- app_assoc. cbn [app].
  destruct (_ && _) eqn:Hc; [|apply Hbest].
  intros [= <- <-]. apply andb_true_iff in Hc as [Hc _].
  destruct (zero_run_spec (x :: g)) as [h Hh].
  exists pre, h, (zero_run (x :: g)). split; [by apply Nat.leb_le in Hc|].
  split; [by rewrite <- Hh|]. done.
Qed.

(** What [string6] prints: all groups, or two joined parts around [::]. *)
Lemma string6_shape v :
  string6 v = hexjoin (groups_of v)
  \/ exists a b l, (2 <= l)%nat /\ groups_of v = (a ++ replicate l 0 ++ b)%list
     /\ string6 v = (hexjoin a ++ str "::" ++ hexjoin b)%list.
Proof.
  unfold string6. destruct (zero_span (groups_of v) 0 None) as [[s e]|] eqn:E.
  - right. destruct (zero_span_spec [] (groups_of v) None s e) as (a & b & l & Hl & Hg & Ha & He);
      [done|done|]. simpl in Hg.
    exists a, b, l. split_and!; [done..|]. rewrite Hg. subst s e.
    replace (length a + l)%nat with (length a + length (replicate l 0%Z))%nat
      by by rewrite length_replicate.
    apply (print6_span a (replicate l 0) b 0 false). destruct l; [lia|done].
  - left. rewrite print6_plain; done.
Qed.

Lemma groups_of_ok v : groups_ok (groups_of v).
Proof. repeat constructor; apply Z.mod_pos_bound; lia. Qed.

Lemma groups_val_of v : 0 <= v < 2 ^ 128 -> groups_val (groups_of v) = v.
Proof.
  intros Hv. unfold groups_val, groups_of. cbn [map foldl].
  assert (forall i j, 0 <= i -> j = Z.succ i ->
    v / 65536 ^ i = 65536 * (v / 65536 ^ j) + (v / 65536 ^ i) mod 65536) as Hs.
  { intros i j Hi ->. rewrite Z.pow_succ_r, (Z.mul_comm 65536 (65536 ^ i)) by lia.
    rewrite <- Z.div_div by lia. apply Z.div_mod. lia. }
  pose proof (Hs 0 1 ltac:(lia) eq_refl). pose proof (Hs 1 2 ltac:(lia) eq_refl).
  pose proof (Hs 2 3 ltac:(lia) eq_refl). pose proof (Hs 3 4 ltac:(lia) eq_refl).
  pose proof (Hs 4 5 ltac:(lia) eq_refl). pose proof (Hs 5 6 ltac:(lia) eq_refl).
  pose proof (Hs 6 7 ltac:(lia) eq_refl). pose proof (Hs 7 8 ltac:(lia) eq_refl).
  assert (v / 65536 ^ 0 = v) by apply Z.div_1_r.
  assert (v / 65536 ^ 8 = 0) by (apply Z.div_small; lia).
  clear Hs. lia.
Qed.

(** ** Lemmas: IPv6 text, parsing *)

Lemma hex_val_digit d : 0 <= d < 16 -> hex_val (hex_digit d) = Some d.
Proof.
  intros Hd. unfold hex_val, hex_digit.
  destruct (Z.ltb_spec d 10); rewrite byte_val_of by lia.
  - replace ((48 <=? 48 + d) && (48 + d <=? 57)) with true by lia. f_equal. lia.
  - replace ((48 <=? 87 + d) && (87 + d <=? 57)) with false by lia.
    replace ((97 <=? 87 + d) && (87 + d <=? 102)) with true by lia. f_equal. lia.
Qed.

Lemma hex_run_digit d t off acc :
  0 <= d < 16 -> (off <= 3)%nat -> acc * 16 + d <= 65535 ->
  hex_run (hex_digit d :: t) off acc = hex_run t (S off) (acc * 16 + d).
Proof.
  intros. simpl. rewrite hex_val_digit by done.
  destruct (Nat.ltb_spec 3 off); [lia|]. by replace (65535 <? acc * 16 + d) with false by lia.
Qed.

(** What may follow a hex field: the end or a byte that is not a hex digit. *)
Definition stops (rest : bytes) : Prop :=
  match rest with c :: _ => hex_val c = None | [] => True end.

Lemma hex_run_stop rest off acc : stops rest -> hex_run rest off acc = Ok (acc, off, rest).
Proof. destruct rest as [|c t]; simpl; [done|]. by intros ->. Qed.

Lemma hex_run_hex16 g rest :
  0 <= g < 65536 -> stops rest ->
  exists n, (0 < n)%nat /\ hex_run (hex16 g ++ rest) 0 0 = Ok (g, n, rest).
Proof.
  intros Hg Hr. unfold hex16.
  pose proof (Z.div_mod g 16). pose proof (Z.mod_pos_bound g 16).
  pose proof (Z.div_mod (g / 16) 16). pose proof (Z.mod_pos_bound (g / 16) 16).
  pose proof (Z.div_mod (g / 16 / 16) 16). pose proof (Z.mod_pos_bound (g / 16 / 16) 16).
  pose proof (Z.div_mod (g / 16 / 16 / 16) 16). pose proof (Z.mod_pos_bound (g / 16 / 16 / 16) 16).
  do 4 rewrite digits_S.
  destruct (Z.ltb_spec g 16); [exists 1%nat|
  destruct (Z.ltb_spec (g / 16) 16); [exists 2%nat|
  destruct (Z.ltb_spec (g / 16 / 16) 16); [exists 3%nat|
  replace (g / 16 / 16 / 16 <? 16) with true by lia; exists 4%nat]]];
  (split; [lia|]); cbn [app];
  rewrite !hex_run_digit by lia; rewrite hex_run_stop by done; repeat f_equal; lia.
Qed.

Lemma hex16_cons g : exists c t, hex16 g = c :: t.
Proof.
  pose proof (digits_ne 16 hex_digit 4 g [] ltac:(lia)) as H. unfold hex16.
  destruct (digits 16 hex_digit 4 g []); [done|eauto].
Qed.

Lemma digits_forall (P : ascii -> Prop) base dig fuel n acc :
  0 < base -> (forall d, 0 <= d < base -> P (dig d)) -> Forall P acc ->
  Forall P (digits base dig fuel n acc).
Proof.
  intros Hb Hd. revert n acc. induction fuel as [|f IH]; intros n acc Hacc; [done|].
  rewrite digits_S. pose proof (Z.mod_pos_bound n base Hb).
  destruct (n <? base); [|apply IH]; constructor; auto.
Qed.

Lemma hex16_chars g : Forall (fun c => is_Some (hex_val c)) (hex16 g).
Proof.
  apply digits_forall; [lia| |constructor]. intros d Hd. rewrite hex_val_digit by done. eauto.
Qed.

(** A joined form starts with a hex digit. *)
Lemma hexjoin_head g : g <> [] -> exists c t, hexjoin g = c :: t /\ is_Some (hex_val c).
Proof.
  destruct g as [|x g]; [done|]. intros _. rewrite hexjoin_cons.
  destruct (hex16_cons x) as (c & t & Hc). pose proof (hex16_chars x) as Hf. rewrite Hc in Hf |- *.
  apply Forall_cons in Hf as [? _]. eexists _, _. split; [simpl; reflexivity | done].
Qed.

Lemma hex_not_colon c : is_Some (hex_val c) -> Ascii.eqb c ":" = false.
Proof. intros [d Hd]. destruct (Ascii.eqb_spec c ":"); [by subst|done]. Qed.

(** One step of the loop over a field that is followed by a colon and more. *)
Lemma parseIPv6_loop_step f g rest groups ell :
  0 <= g < 65536 ->
  (exists c t, rest = c :: t /\ is_Some (hex_val c)) ->
  parseIPv6_loop (S f) (hex16 g ++ ":"%char :: rest) groups ell
  = parseIPv6_loop f rest (groups ++ [g]) ell.
Proof.
  intros Hg (c & t & -> & Hc). cbn [parseIPv6_loop].
  destruct (hex_run_hex16 g (":"%char :: c :: t)) as (n & Hn & ->); [done|done|].
  simpl. destruct n; [lia|]. simpl. by rewrite hex_not_colon.
Qed.

Lemma parseIPv6_loop_join g fuel groups ell :
  g <> [] -> groups_ok g -> (length g <= fuel)%nat ->
  parseIPv6_loop fuel (hexjoin g) groups ell = Ok ((groups ++ g)%list, ell, []).
Proof.
  revert fuel groups. induction g as [|x g IH]; [done|]. intros fuel groups _ Hok Hlen.
  apply groups_ok_cons in Hok as [Hx Hok]. destruct fuel as [|f]; [simpl in Hlen; lia|].
  rewrite hexjoin_cons. destruct g as [|y g].
  - cbn [parseIPv6_loop]. destruct (hex_run_hex16 x []) as (n & Hn & Hrun); [done|done|].
    simpl. change (hexjoin []) with (@nil ascii). rewrite Hrun. simpl. by destruct n; [lia|].
  - rewrite (bool_decide_false (y :: g = [])) by done. 
    change (str ":" ++ hexjoin (y :: g))%list with (":"%char :: hexjoin (y :: g)).
    rewrite parseIPv6_loop_step; [|done|by apply hexjoin_head].
    rewrite IH by (done || simpl in *; lia). by rewrite <- app_assoc.
Qed.

Lemma parseIPv6_loop_ellipsis a s2 fuel groups :
  a <> [] -> groups_ok a -> (length a <= fuel)%nat ->
  parseIPv6_loop fuel (hexjoin a ++ str "::" ++ s2) groups None
  = match s2 with
    | [] => Ok ((groups ++ a)%list, Some (length (groups ++ a)), [])
    | _ => parseIPv6_loop (fuel - length a) s2 (groups ++ a) (Some (length (groups ++ a)))
    end.
Proof.
  revert fuel groups. induction a as [|x a IH]; [done|]. intros fuel groups _ Hok Hlen.
  apply groups_ok_cons in Hok as [Hx Hok]. destruct fuel as [|f]; [simpl in Hlen; lia|].
  rewrite hexjoin_cons. destruct a as [|y a].
  - cbn [parseIPv6_loop]. rewrite <- app_assoc.
    destruct (hex_run_hex16 x (str "::" ++ s2)) as (n & Hn & Hrun); [done|done|].
    change ((if bool_decide (@nil Z = []) then [] else str ":") ++ hexjoin [])%list with (@nil ascii).
    rewrite app_nil_l, Hrun. simpl. destruct n; [lia|]. simpl.
    by rewrite Nat.sub_0_r.
  - rewrite (bool_decide_false (y :: a = [])) by done. 
    destruct (hexjoin_head (y :: a)) as (c & t & Hct & Hc); [done|].
    replace ((hex16 x ++ str ":" ++ hexjoin (y :: a)) ++ str "::" ++ s2)%list
      with (hex16 x ++ ":"%char :: (hexjoin (y :: a) ++ str "::" ++ s2))%list
      by by rewrite <- app_assoc.
    rewrite parseIPv6_loop_step; [|done|rewrite Hct; simpl; eauto].
    rewrite IH by (done || simpl in *; lia).
    rewrite <- app_assoc. simpl. done.
Qed.

Lemma CutPrefix_colons_hex c t : is_Some (hex_val c) -> CutPrefix (str "::") (c :: t) = None.
Proof.
  intros Hc. cbn [CutPrefix str list_ascii_of_string].
  destruct (Ascii.eqb_spec ":" c); [|done]. subst. by destruct Hc.
Qed.

Lemma CutPrefix_colons_join g s :
  g <> [] -> CutPrefix (str "::") (hexjoin g ++ s) = None.
Proof.
  intros Hne. destruct (hexjoin_head g Hne) as (c & t & -> & Hc).
  by apply CutPrefix_colons_hex.
Qed.

Lemma parseIPv6_groups_plain g :
  length g = 8%nat -> groups_ok g -> parseIPv6_groups (hexjoin g) = Ok g.
Proof.
  intros Hlen Hok. assert (g <> []) as Hne by by destruct g.
  unfold parseIPv6_groups. pose proof (CutPrefix_colons_join g [] Hne) as Hcut.
  rewrite app_nil_r in Hcut. rewrite Hcut.
  rewrite parseIPv6_loop_join by (done || lia). simpl. by rewrite Hlen.
Qed.

Lemma parseIPv6_groups_span a l b :
  (2 <= l)%nat -> length (a ++ replicate l 0 ++ b) = 8%nat -> groups_ok a -> groups_ok b ->
  parseIPv6_groups (hexjoin a ++ str "::" ++ hexjoin b) = Ok (a ++ replicate l 0 ++ b)%list.
Proof.
  intros Hl Hlen Ha Hb. rewrite !length_app, length_replicate in Hlen.
  assert (b <> [] -> exists c t, hexjoin b = c :: t /\ is_Some (hex_val c)) as Hbh
    by apply hexjoin_head.
  unfold parseIPv6_groups. destruct a as [|x a].
  - change (hexjoin [] ++ str "::" ++ hexjoin b)%list with (str "::" ++ hexjoin b)%list.
    assert (CutPrefix (str "::") (str "::" ++ hexjoin b) = Some (hexjoin b)) as ->
      by by apply CutPrefix_Some.
    destruct b as [|y b]; [simpl in *; by replace l with 8%nat by lia|].
    destruct Hbh as (c & t & Hct & _); [done|]. rewrite Hct, <- Hct.
    rewrite parseIPv6_loop_join by (done || simpl in *; lia). simpl in *.
    destruct (Nat.ltb_spec (S (length b)) 8); [|lia]. do 2 f_equal. f_equal. lia.
  - rewrite CutPrefix_colons_join by done.
    rewrite parseIPv6_loop_ellipsis by (done || simpl in *; lia).
    destruct b as [|y b].
    + simpl in *. rewrite app_nil_r. destruct (Nat.ltb_spec (S (length a)) 8); [|lia].
      rewrite take_ge, drop_ge by (simpl; lia). rewrite app_nil_r.
      by replace (7 - length a)%nat with l by lia.
    + destruct Hbh as (c' & t' & Hct' & _); [done|]. rewrite Hct', <- Hct'.
      rewrite parseIPv6_loop_join by (done || simpl in *; lia).
      rewrite app_nil_l. cbn [mbind result_bind]. rewrite length_app.
      destruct (Nat.ltb_spec (length (x :: a) + length (y :: b)) 8); [|simpl in *; lia].
      rewrite take_app_length, drop_app_length, bool_decide_true by done. cbn [negb].
      do 2 f_equal. f_equal. f_equal. lia.
Qed.

Lemma length_groups_of v : length (groups_of v) = 8%nat.
Proof. done. Qed.

Lemma parseIPv6_groups_string6 v : parseIPv6_groups (string6 v) = Ok (groups_of v).
Proof.
  pose proof (groups_of_ok v) as Hok. pose proof (length_groups_of v) as Hlen.
  destruct (string6_shape v) as [->|(a & b & l & Hl & Hg & ->)].
  - by apply parseIPv6_groups_plain.
  - rewrite Hg in Hok, Hlen |- *. apply groups_ok_app in Hok as [Ha [_ Hb]%groups_ok_app].
    by apply parseIPv6_groups_span.
Qed.

(** ** The text form of an address parses back to it *)

Definition addr_char (c : ascii) : Prop := is_Some (hex_val c) \/ c = ":"%char \/ c = "."%char.

Lemma hex16_addr_chars g : Forall addr_char (hex16 g).
Proof. eapply Forall_impl; [apply hex16_chars|]. by left. Qed.

Lemma Join_forall (P : ascii -> Prop) sep ps :
  Forall P sep -> Forall (Forall P) ps -> Forall P (Join sep ps).
Proof.
  intros Hs. induction ps as [|p ps IH]; intros Hps; [constructor|].
  apply Forall_cons in Hps as [Hp Hps]. destruct ps; [done|].
  rewrite Join_cons by done. rewrite !Forall_app. auto.
Qed.

Lemma hexjoin_addr_chars g : Forall addr_char (hexjoin g).
Proof.
  apply Join_forall; [repeat constructor; by right; left|].
  apply Forall_map, Forall_true. intros x. apply hex16_addr_chars.
Qed.

Lemma string6_addr_chars v : Forall addr_char (string6 v).
Proof.
  destruct (string6_shape v) as [->|(a & b & l & _ & _ & ->)]; [apply hexjoin_addr_chars|].
  rewrite !Forall_app. split_and!; [apply hexjoin_addr_chars| |apply hexjoin_addr_chars].
  repeat constructor; by right; left.
Qed.

Lemma dec_digit_hex d : 0 <= d < 10 -> is_Some (hex_val (dec_digit d)).
Proof.
  intros. unfold hex_val. rewrite dec_digit_val by done.
  replace ((48 <=? 48 + d) && (48 + d <=? 57)) with true by lia. eauto.
Qed.

Lemma Itoa_hex a : 0 <= a -> Forall (fun c => is_Some (hex_val c)) (Itoa a).
Proof.
  intros. unfold Itoa. replace (a <? 0) with false by lia.
  apply digits_forall; [lia| apply dec_digit_hex | constructor].
Qed.

Lemma string4_addr_chars v : Forall addr_char (string4 v).
Proof.
  apply Join_forall; [repeat constructor; by right; right|].
  apply Forall_map. eapply Forall_impl; [apply be_bytes_ok|].
  intros b Hb. eapply Forall_impl; [apply Itoa_hex; simpl in Hb; lia|]. by left.
Qed.

Lemma addr_chars_no_percent s : Forall addr_char s -> "%"%char ∉ s.
Proof.
  intros H Hin. rewrite Forall_forall in H. apply H in Hin as [[d Hd]|[?|?]]; done.
Qed.

Lemma parseAddr_family_hex x c t :
  Forall (fun c => is_Some (hex_val c)) x -> c = ":"%char \/ c = "."%char ->
  parseAddr_family (x ++ c :: t) = c.
Proof.
  intros Hx Hc. induction Hx as [|d x [v Hd] _ IH]; simpl.
  - by destruct Hc; subst.
  - destruct (Ascii.eqb_spec d "."); [by subst|].
    destruct (Ascii.eqb_spec d ":"); [by subst|].
    by destruct (Ascii.eqb_spec d "%"); [subst|].
Qed.

Lemma parseAddr_family_join g s :
  g <> [] -> (exists t, s = ":"%char :: t) \/ (1 < length g)%nat ->
  parseAddr_family (hexjoin g ++ s) = ":"%char.
Proof.
  destruct g as [|x [|y g]]; [done|..]; intros _ Hs; rewrite hexjoin_cons; simpl.
  - destruct Hs as [[t ->]|Hs]; [|simpl in Hs; lia].
    change (hexjoin []) with (@nil ascii). rewrite app_nil_r.
    apply parseAddr_family_hex; [apply hex16_chars | by left].
  - rewrite <- app_assoc. simpl. apply parseAddr_family_hex; [apply hex16_chars | by left].
Qed.

Lemma string6_family v s : parseAddr_family (string6 v ++ s) = ":"%char.
Proof.
  destruct (string6_shape v) as [->|(a & b & l & _ & _ & ->)].
  - apply parseAddr_family_join; [done|]. right. rewrite length_groups_of. lia.
  - rewrite <- !app_assoc. destruct a as [|x a]; [done|].
    apply parseAddr_family_join; [done|]. left. by eexists.
Qed.

Lemma string4_shape v :
  exists a b c d, be_bytes 4 v = [a; b; c; d] /\ bytes_ok [a; b; c; d]
  /\ string4 v = Join (str ".") (map Itoa [a; b; c; d]).
Proof.
  pose proof (be_bytes_ok 4 v) as H. unfold string4.
  destruct (be_bytes 4 v) as [|a [|b [|c [|d [|]]]]] eqn:E;
    try (apply (f_equal length) in E; rewrite length_be_bytes in E; discriminate).
  eauto 10.
Qed.

Lemma ParseAddr_string4 v : 0 <= v < 2 ^ 32 -> ParseAddr (string4 v) = Ok (Addr4 v).
Proof.
  intros Hv. destruct (string4_shape v) as (a & b & c & d & Hbe & Hok & Hs).
  unfold ParseAddr. rewrite Hs at 1.
  assert (0 <= a) by (apply bytes_ok_cons in Hok; lia).
  cbn [map Join]. change (str "." ++ ?x)%list with ("."%char :: x).
  rewrite parseAddr_family_hex by auto using Itoa_hex.
  simpl. unfold parseIPv4. rewrite Hs, parseIPv4Fields_string4 by done. simpl.
  by rewrite <- Hbe, of_be_be_bytes.
Qed.

Lemma hex_run_octet a rest :
  0 <= a < 256 -> stops rest ->
  exists x n, (0 < n)%nat /\ hex_run (Itoa a ++ rest) 0 0 = Ok (x, n, rest).
Proof.
  intros Ha Hr.
  assert (forall d t off acc, 0 <= d < 10 -> (off <= 3)%nat -> acc * 16 + d <= 65535 ->
    hex_run (dec_digit d :: t) off acc = hex_run t (S off) (acc * 16 + d)) as Hstep.
  { intros d t off acc Hd. replace (dec_digit d) with (hex_digit d).
    - apply hex_run_digit. lia.
    - unfold hex_digit, dec_digit. by replace (d <? 10) with true by lia. }
  pose proof (Z.div_mod a 10). pose proof (Z.mod_pos_bound a 10).
  pose proof (Z.div_mod (a / 10) 10). pose proof (Z.mod_pos_bound (a / 10) 10).
  pose proof (Z.mod_pos_bound (a / 10 / 10) 10).
  unfold Itoa. replace (a <? 0) with false by lia. do 3 rewrite digits_S.
  destruct (Z.ltb_spec a 10); [|destruct (Z.ltb_spec (a / 10) 10);
    [|replace (a / 10 / 10 <? 10) with true by lia]];
  cbn [app]; rewrite !Hstep by lia; rewrite hex_run_stop by done;
  (eexists _, _; split; [|reflexivity]; lia).
Qed.

Lemma parseIPv6_groups_4in6 v :
  exists a b c d, be_bytes 4 v = [a; b; c; d] /\ bytes_ok [a; b; c; d] /\
  parseIPv6_groups (str "::ffff:" ++ string4 v)
  = Ok [0; 0; 0; 0; 0; 65535; a * 256 + b; c * 256 + d].
Proof.
  destruct (string4_shape v) as (a & b & c & d & Hbe & Hok & Hs).
  exists a, b, c, d. split_and!; [done..|].
  assert (0 <= a < 256) by (apply bytes_ok_cons in Hok; lia).
  pose proof (parseIPv4Fields_string4 a b c d Hok) as H4. rewrite <- Hs in H4.
  assert (exists t, string4 v = (Itoa a ++ "."%char :: t)%list) as [t Ht] by (rewrite Hs; by eexists).
  assert (exists x u, string4 v = x :: u /\ is_Some (hex_val x)) as (x & u & Hxu & Hx).
  { rewrite Ht. pose proof (Itoa_ne a). pose proof (Itoa_hex a ltac:(lia)) as Hh.
    destruct (Itoa a); [done|]. apply Forall_cons in Hh as [? _]. simpl. eauto. }
  unfold parseIPv6_groups.
  change (str "::ffff:" ++ string4 v)%list with (str "::" ++ (hex16 65535 ++ ":"%char :: string4 v))%list.
  assert (forall s, CutPrefix (str "::") (str "::" ++ s) = Some s) as -> by (intros; by apply CutPrefix_Some).
  destruct (hex16 65535 ++ ":"%char :: string4 v)%list as [|y0 s0] eqn:Es0; [done|].
  rewrite <- Es0, (parseIPv6_loop_step 7) by (eauto || lia).
  cbn [parseIPv6_loop].
  destruct (hex_run_octet a ("."%char :: t)) as (y & n & Hn & Hrun); [done|done|].
  rewrite <- Ht in Hrun. rewrite Hrun. simpl. destruct n; [lia|]. simpl. by rewrite H4.
Qed.

Lemma groups_val_4in6 v :
  v / 2 ^ 32 = 0xffff -> 0 <= v ->
  forall a b c d, be_bytes 4 (v mod 2 ^ 32) = [a; b; c; d] ->
  groups_val [0; 0; 0; 0; 0; 65535; a * 256 + b; c * 256 + d] = v.
Proof.
  intros Hv Hpos a b c d Hbe.
  pose proof (Z.mod_pos_bound v (2 ^ 32)). pose proof (Z.div_mod v (2 ^ 32)).
  pose proof (of_be_be_bytes 4 (v mod 2 ^ 32) ltac:(simpl; lia)) as Ho.
  rewrite Hbe in Ho. unfold of_be in Ho. simpl in Ho. unfold groups_val. simpl. lia.
Qed.

(** The address part of the text, before any zone. *)
Lemma parseIPv6_groups_text v z :
  0 <= v < 2 ^ 128 ->
  let t := if Is4In6 (Addr6 v z) then (str "::ffff:" ++ string4 (v mod 2 ^ 32))%list else string6 v in
  (exists g, parseIPv6_groups t = Ok g /\ groups_val g = v)
  /\ Forall addr_char t /\ (forall s, parseAddr_family (t ++ s) = ":"%char).
Proof.
  intros Hv t. subst t. destruct (Is4In6 _) eqn:E; simpl in E.
  - destruct (parseIPv6_groups_4in6 (v mod 2 ^ 32)) as (a & b & c & d & Hbe & _ & Hp).
    split; [eexists; split; [exact Hp|]; eapply groups_val_4in6; eauto; lia|].
    split; [|done]. rewrite Forall_app. split; [|apply string4_addr_chars].
    repeat (apply Forall_cons; split; [try (by right; left); left; by eexists|]). constructor.
  - split; [exists (groups_of v); auto using parseIPv6_groups_string6, groups_val_of|].
    auto using string6_addr_chars, string6_family.
Qed.

Lemma ParseAddr_AddrString a : IsValid a = true -> addr_wf a -> ParseAddr (AddrString a) = Ok a.
Proof.
  intros Hvalid Hwf. destruct a as [|v|v z]; [done|by apply ParseAddr_string4|].
  destruct (parseIPv6_groups_text v z Hwf) as ((g & Hg & Hgv) & Hchars & Hfam).
  unfold ParseAddr, AddrString.
  set (t := if Is4In6 (Addr6 v z) then _ else _) in *. clearbody t.
  rewrite Hfam. simpl Ascii.eqb. cbn iota.
  apply addr_chars_no_percent in Hchars. unfold parseIPv6.
  destruct (bool_decide_reflect (z = [])) as [->|Hz].
  - rewrite app_nil_r. apply Cut_None in Hchars as ->. rewrite Hg. simpl. by rewrite Hgv.
  - cbn [str list_ascii_of_string app]. rewrite Cut_app by done.
    destruct z; [done|]. rewrite Hg. simpl. by rewrite Hgv.
Qed.

Lemma AddrString_inj a b :
  IsValid a = true -> IsValid b = true -> addr_wf a -> addr_wf b ->
  AddrString a = AddrString b -> a = b.
Proof.
  intros Ha Hb Hwa Hwb E. apply (f_equal ParseAddr) in E.
  rewrite !ParseAddr_AddrString in E by done. by simplify_eq.
Qed.

(** ** What parses is well formed *)

Lemma parseIPv4Fields_ok s fields val n l :
  bytes_ok fields -> 0 <= val < 256 -> (length fields <= 3)%nat ->
  parseIPv4Fields s fields val n = Ok l -> bytes_ok l /\ length l = 4%nat.
Proof.
  revert fields val n. induction s as [|c s IH]; intros fields val n Hf Hv Hlen H; simpl in H.
  - destruct (Nat.ltb_spec (length fields) 3); [done|]. inv_ok. subst l.
    split; [|rewrite length_app, length_rev; simpl; lia].
    apply bytes_ok_snoc. split; [by apply Forall_rev|done].
  - destruct (is_digit c) eqn:Hd.
    + destruct (_ && _); [done|]. destruct (Z.ltb_spec 255 (val * 10 + (byte_val c - 48))); [done|].
      eapply IH in H; try done. unfold is_digit in Hd. lia.
    + destruct (Ascii.eqb _ _); [|done]. destruct (_ || _); [done|].
      destruct (Nat.eqb_spec (length fields) 3); [done|].
      eapply IH in H; try done; [|simpl; lia]. apply bytes_ok_cons. done.
Qed.

Lemma hex_val_range c d : hex_val c = Some d -> 0 <= d < 16.
Proof. unfold hex_val. intros. repeat case_match; simplify_eq; lia. Qed.

Lemma hex_run_range s off acc x n r :
  0 <= acc < 65536 -> hex_run s off acc = Ok (x, n, r) -> 0 <= x < 65536.
Proof.
  revert off acc. induction s as [|c s IH]; intros off acc Hacc H; simpl in H; [by simplify_eq|].
  destruct (hex_val c) as [d|] eqn:Hd; [|by simplify_eq]. apply hex_val_range in Hd.
  destruct (3 <? off)%nat; [done|]. destruct (Z.ltb_spec 65535 (acc * 16 + d)); [done|].
  eapply IH; [|exact H]. lia.
Qed.

Lemma parseIPv6_loop_ok fuel s groups ell g e r :
  groups_ok groups -> (length groups + fuel = 8)%nat ->
  (forall k, ell = Some k -> (k <= length groups)%nat) ->
  parseIPv6_loop fuel s groups ell = Ok (g, e, r) ->
  groups_ok g /\ (length g <= 8)%nat /\ (forall k, e = Some k -> (k <= length g)%nat).
Proof.
  revert s groups ell. induction fuel as [|f IH]; intros s groups ell Hok Hlen Hell H;
    [simpl in H; simplify_eq; split_and!; [done|lia|done]|].
  cbn [parseIPv6_loop] in H.
  destruct (hex_run s 0 0) as [[[acc off] rest]|] eqn:Hrun; [|done]. simpl in H.
  apply hex_run_range in Hrun; [|lia].
  assert (groups_ok (groups ++ [acc])) as Hok'
    by (apply groups_ok_app; split; [done|]; apply groups_ok_cons; split; [done|constructor]).
  assert (length (groups ++ [acc]) = S (length groups)) as Hlen' by (rewrite length_app; simpl; lia).
  destruct (off =? 0)%nat; [done|].
  destruct rest as [|c rest1].
  { simplify_eq. split_and!; [done|lia|]. intros k Hk. specialize (Hell k Hk). lia. }
  destruct (Ascii.eqb c ".").
  { destruct (_ && _) in H; [done|]. destruct (Nat.ltb_spec 6 (length groups)); [done|].
    destruct (parseIPv4Fields s [] 0 0) as [l|] eqn:H4; [|done]. simpl in H.
    apply parseIPv4Fields_ok in H4 as [Hl _]; [|by constructor|lia|simpl; lia].
    destruct l as [|a [|b [|c' [|d [|]]]]]; simplify_eq.
    rewrite !bytes_ok_cons in Hl. rewrite groups_ok_app, !groups_ok_cons, length_app. simpl.
    split_and!; [done|lia|lia|lia|lia|constructor|lia|].
    intros k Hk. specialize (Hell k Hk). lia. }
  destruct (negb _) in H; [done|]. destruct rest1 as [|d rest2]; [done|].
  destruct (Ascii.eqb d ":").
  - destruct (bool_decide _); [done|]. destruct rest2.
    + simplify_eq. split_and!; [done|lia|]. intros k [= <-]. lia.
    + eapply IH; [| | |exact H]; [done|lia|]. intros k [= <-]. lia.
  - eapply IH; [| | |exact H]; [done|lia|]. intros k Hk. specialize (Hell k Hk). lia.
Qed.

Lemma parseIPv6_groups_ok s g : parseIPv6_groups s = Ok g -> groups_ok g /\ length g = 8%nat.
Proof.
  assert (forall n, groups_ok (replicate n 0)) as Hz.
  { intros n. apply Forall_replicate. lia. }
  assert (forall s' ell, (forall k, ell = Some k -> k = 0%nat) ->
    ('(groups, ell, rest) ← parseIPv6_loop 8 s' [] ell;
      if negb (bool_decide (rest = [])) then Error "trailing garbage after address"
      else if (length groups <? 8)%nat then
        match ell with
        | None => Error "address string too short"
        | Some e => Ok (take e groups ++ replicate (8 - length groups) 0 ++ drop e groups)%list
        end
      else if bool_decide (is_Some ell) then
        Error "the :: must expand to at least one field of zeros"
      else Ok groups) = Ok g -> groups_ok g /\ length g = 8%nat) as Hmain.
  { intros s' ell Hell H.
    destruct (parseIPv6_loop 8 s' [] ell) as [[[groups e] rest]|] eqn:Hl; [|done]. simpl in H.
    apply parseIPv6_loop_ok in Hl as (Hok & Hlen & He);
      [|by constructor|done|intros k Hk; simpl; specialize (Hell k Hk); lia].
    destruct (negb _); [done|]. destruct (Nat.ltb_spec (length groups) 8).
    - destruct e as [e|]; [|done]. simplify_eq. specialize (He e eq_refl).
      rewrite !groups_ok_app, !length_app, length_take, length_drop, length_replicate.
      split_and!; [by apply Forall_take|done|by apply Forall_drop|lia].
    - destruct (bool_decide _); simplify_eq. split; [done|lia]. }
  unfold parseIPv6_groups. destruct (CutPrefix (str "::") s) as [[|c t]|].
  - intros H. inv_ok. subst g. split; [apply (Hz 8%nat)|done].
  - apply Hmain. intros k Hk. by injection Hk.
  - apply Hmain. intros k Hk. discriminate.
Qed.

Lemma groups_val_range g : groups_ok g -> 0 <= groups_val g < 65536 ^ Z.of_nat (length g).
Proof.
  unfold groups_val. induction g as [|b g IH] using rev_ind; intros Hg; [simpl; lia|].
  apply groups_ok_app in Hg as [Hg Hb]. rewrite groups_ok_cons in Hb.
  rewrite foldl_snoc, length_app. simpl length. 
  rewrite Nat.add_1_r, Nat2Z.inj_succ, Z.pow_succ_r by lia. specialize (IH Hg). lia.
Qed.

Lemma ParseAddr_wf s a : ParseAddr s = Ok a -> addr_wf a /\ IsValid a = true.
Proof.
  unfold ParseAddr. destruct (Ascii.eqb _ "."); [|destruct (Ascii.eqb _ ":"); [|done]].
  - unfold parseIPv4. intros H. inv_ok. subst a. split; [|done].
    apply parseIPv4Fields_ok in Hr as [Hok Hlen]; [|by constructor|lia|simpl; lia].
    apply of_be_range in Hok. rewrite Hlen in Hok. exact Hok.
  - assert (forall t z, (g ← parseIPv6_groups t; Ok (Addr6 (groups_val g) z)) = Ok a ->
      addr_wf a /\ IsValid a = true) as Hmain.
    { intros t z H. inv_ok. subst a. split; [|done].
      apply parseIPv6_groups_ok in Hr as [Hok Hlen].
      apply groups_val_range in Hok. rewrite Hlen in Hok. exact Hok. }
    unfold parseIPv6. destruct (Cut "%" s) as [[x [|y z]]|]; [done|..]; apply Hmain.
Qed.

#[export] Hint Resolve be_bytes_ok length_be_bytes groups_of_ok : mitmania.
