(* ===== verification/Glob.v ===== *)
(** * Go's [path.Match]

    Shell-style patterns with [*], [?], character classes and escapes, as the
    standard library implements them (chunks between stars, first fit).  The
    result is [Error] for a malformed pattern.  The lemma used by the host
    index is [Match_literal_suffix]: the plain text a pattern ends with is the
    text a matching name ends with. *)

From S2P Require Import Prelude GoStrings.

Open Scope Z_scope.

Definition ErrBadPattern : string := "syntax error in pattern".

(** [getEsc]: a possibly escaped rune of a character class; something must
    follow it. *)
Definition getEsc (chunk : bytes) : result (Z * bytes) :=
  match chunk with
  | [] => Error ErrBadPattern
  | c :: t =>
      if Ascii.eqb c "-" || Ascii.eqb c "]" then Error ErrBadPattern
      else
        let chunk := if Ascii.eqb c "\" then t else chunk in
        if bool_decide (chunk = []) then Error ErrBadPattern
        else
          let '(r, n) := DecodeRune chunk in
          if (r =? RuneError) && (n =? 1)%nat then Error ErrBadPattern
          else
            let nchunk := drop n chunk in
            if bool_decide (nchunk = []) then Error ErrBadPattern else Ok (r, nchunk)
  end.

(** The ranges of a character class after the optional [^]: whether [r] is in
    one of them, and the pattern after the closing bracket. *)
Fixpoint matchClass (fuel : nat) (chunk : bytes) (r : Z) (found : bool) (nrange : nat)
    : result (bool * bytes) :=
  match fuel with
  | O => Error ErrBadPattern
  | S f =>
      let next :=
        '(lo, chunk) ← getEsc chunk;
        '(hi, chunk) ← (match chunk with
                        | c :: t => if Ascii.eqb c "-" then getEsc t else Ok (lo, chunk)
                        | [] => Ok (lo, chunk)
                        end);
        matchClass f chunk r (found || ((lo <=? r) && (r <=? hi))) (S nrange) in
      match chunk with
      | c :: t => if Ascii.eqb c "]" && (0 <? nrange)%nat then Ok (found, t) else next
      | [] => next
      end
  end.

(** [matchChunk]: [Some rest] when [chunk] (which has no star) matches a prefix
    of [s]; once [failed], the chunk is still read for its syntax. *)
Fixpoint matchChunk (fuel : nat) (chunk s : bytes) (failed : bool) : result (option bytes) :=
  match fuel with
  | O => Error ErrBadPattern
  | S f =>
      match chunk with
      | [] => Ok (if failed then None else Some s)
      | c :: chunk1 =>
          let failed := failed || bool_decide (s = []) in
          let literal (c : ascii) (chunk1 : bytes) :=
            if failed then matchChunk f chunk1 s true
            else match s with
                 | d :: s' => matchChunk f chunk1 s' (negb (Ascii.eqb c d))
                 | [] => matchChunk f chunk1 s true
                 end in
          if Ascii.eqb c "[" then
            let '(r, n) := if failed then (0, 0%nat) else DecodeRune s in
            let s := drop n s in
            let '(negated, chunk2) :=
              match chunk1 with
              | d :: t => if Ascii.eqb d "^" then (true, t) else (false, chunk1)
              | [] => (false, chunk1)
              end in
            '(found, chunk3) ← matchClass (S (length chunk2)) chunk2 r false 0;
            matchChunk f chunk3 s (failed || Bool.eqb found negated)
          else if Ascii.eqb c "?" then
            if failed then matchChunk f chunk1 s true
            else
              let slash := match s with d :: _ => Ascii.eqb d "/" | [] => false end in
              matchChunk f chunk1 (drop (snd (DecodeRune s)) s) slash
          else if Ascii.eqb c "\" then
            match chunk1 with
            | [] => Error ErrBadPattern
            | d :: chunk2 => literal d chunk2
            end
          else literal c chunk1
      end
  end.

Definition matchChunk' (chunk s : bytes) : result (option bytes) :=
  matchChunk (S (length chunk)) chunk s false.

(** [scanChunk]: strips leading stars, then splits before the next star that is
    not inside a class. *)
Fixpoint scanStars (pattern : bytes) : bool * bytes :=
  match pattern with
  | c :: t => if Ascii.eqb c "*" then (true, snd (scanStars t)) else (false, pattern)
  | [] => (false, [])
  end.

Fixpoint scanRest (inrange : bool) (pattern : bytes) : bytes * bytes :=
  match pattern with
  | [] => ([], [])
  | c :: t =>
      if Ascii.eqb c "\" then
        match t with
        | d :: t' => let '(a, b) := scanRest inrange t' in (c :: d :: a, b)
        | [] => ([c], [])
        end
      else if Ascii.eqb c "*" && negb inrange then ([], pattern)
      else
        let inrange := if Ascii.eqb c "[" then true
                       else if Ascii.eqb c "]" then false else inrange in
        let '(a, b) := scanRest inrange t in (c :: a, b)
  end.

(** The search after a star: the chunk is tried at each later offset that is
    not beyond a slash; the last chunk has to reach the end of the name. *)
Fixpoint starLoop (chunk name : bytes) (last : bool) : result (option bytes) :=
  match name with
  | [] => Ok None
  | c :: name' =>
      if Ascii.eqb c "/" then Ok None
      else
        m ← matchChunk' chunk name';
        match m with
        | Some t =>
            if last && negb (bool_decide (t = [])) then starLoop chunk name' last
            else Ok (Some t)
        | None => starLoop chunk name' last
        end
  end.

(** The final syntax check of the rest of the pattern. *)
Fixpoint checkRest (fuel : nat) (pattern : bytes) : result bool :=
  match fuel with
  | O => Ok false
  | S f =>
      if bool_decide (pattern = []) then Ok false
      else
        let '(_, p1) := scanStars pattern in
        let '(chunk, rest) := scanRest false p1 in
        _ ← matchChunk' chunk [];
        checkRest f rest
  end.

Fixpoint Match_loop (fuel : nat) (pattern name : bytes) : result bool :=
  match fuel with
  | O => Error ErrBadPattern
  | S f =>
      if bool_decide (pattern = []) then Ok (bool_decide (name = []))
      else
        let '(star, p1) := scanStars pattern in
        let '(chunk, rest) := scanRest false p1 in
        if star && bool_decide (chunk = []) then Ok (IndexByte "/" name <? 0)
        else
          m ← matchChunk' chunk name;
          match m with
          | Some t =>
              if bool_decide (t = []) || negb (bool_decide (rest = [])) then Match_loop f rest t
              else if star then
                m ← starLoop chunk name (bool_decide (rest = []));
                match m with
                | Some t => Match_loop f rest t
                | None => checkRest (length rest) rest
                end
              else checkRest (length rest) rest
          | None =>
              if star then
                m ← starLoop chunk name (bool_decide (rest = []));
                match m with
                | Some t => Match_loop f rest t
                | None => checkRest (length rest) rest
                end
              else checkRest (length rest) rest
          end
  end.

(** [path.Match(pattern, name)]. *)
Definition Match (pattern name : bytes) : result bool :=
  Match_loop (S (length pattern)) pattern name.

(** ** Literal suffixes *)

(** Bytes with no meaning in a pattern. *)
Definition plain (c : ascii) : bool :=
  negb (existsb (Ascii.eqb c) (str "*?[]\")).

Lemma plain_ne c d : plain c = true -> In d (str "*?[]\") -> Ascii.eqb c d = false.
Proof.
  unfold plain. intros H Hd. apply negb_true_iff in H.
  destruct (Ascii.eqb c d) eqn:E; [|done].
  assert (existsb (Ascii.eqb c) (str "*?[]\") = true) by (apply existsb_exists; eauto). congruence.
Qed.

(** A byte that does not occur in the tail [l] lies before it. *)
Lemma app_split_notin {A} (p l q r : list A) (x : A) :
  (p ++ l = q ++ x :: r)%list -> x ∉ l -> exists p', r = (p' ++ l)%list.
Proof.
  revert q. induction p as [|y p IH]; intros q H Hx.
  - simpl in H. subst l. exfalso. apply Hx. set_solver.
  - destruct q as [|z q]; simplify_eq/=; [by exists p|]. by eapply IH.
Qed.

Lemma plain_notin l d : forallb plain l = true -> In d (str "*?[]\") -> d ∉ l.
Proof.
  intros Hl Hd Hin. rewrite forallb_forall in Hl. apply list_elem_of_In, Hl in Hin.
  pose proof (plain_ne d d Hin Hd) as H. by rewrite Ascii.eqb_refl in H.
Qed.

Lemma getEsc_suffix chunk r n : getEsc chunk = Ok (r, n) -> exists q, chunk = (q ++ n)%list.
Proof.
  unfold getEsc. destruct chunk as [|c t]; [done|]. destruct (_ || _); [done|].
  set (k := if Ascii.eqb c "\" then t else c :: t).
  assert (exists q, c :: t = (q ++ k)%list) as [q Hq].
  { subst k. destruct (Ascii.eqb c "\"); [by exists [c] | by exists []]. }
  rewrite Hq. clearbody k. destruct (bool_decide _); [done|].
  destruct (DecodeRune k) as [r' w]. destruct (_ && _); [done|].
  destruct (bool_decide _); [done|]. intros [= <- <-].
  exists (q ++ take w k)%list. by rewrite <- app_assoc, take_drop.
Qed.

Lemma matchClass_suffix fuel chunk r found n b rest :
  matchClass fuel chunk r found n = Ok (b, rest) ->
  exists q, chunk = (q ++ "]"%char :: rest)%list.
Proof.
  revert chunk found n. induction fuel as [|f IH]; intros chunk found n H; [done|].
  cbn [matchClass] in H.
  set (next := mbind _ (getEsc chunk)) in H.
  assert (next = Ok (b, rest) -> exists q, chunk = (q ++ "]"%char :: rest)%list) as Hnext.
  { subst next. intros Hn. apply result_bind_ok in Hn as ([lo ch] & He & Hn).
    apply result_bind_ok in Hn as ([hi ch'] & Hd & Hn).
    apply IH in Hn as [q Hq]. apply getEsc_suffix in He as [q1 ->].
    assert (exists q2, ch = (q2 ++ ch')%list) as [q2 ->].
    { destruct ch as [|c t]; [simplify_eq; by exists []|].
      destruct (Ascii.eqb c "-"); [|simplify_eq; by exists []].
      apply getEsc_suffix in Hd as [q2 ->]. by exists (c :: q2). }
    rewrite Hq. exists (q1 ++ q2 ++ q)%list. by rewrite <- !app_assoc. }
  destruct chunk as [|c t]; [by apply Hnext|].
  destruct (Ascii.eqb_spec c "]") as [->|]; simpl in H; [|by apply Hnext].
  destruct (0 <? n)%nat; [|by apply Hnext]. simplify_eq. by exists [].
Qed.

Lemma matchChunk_failed fuel chunk s t : matchChunk fuel chunk s true <> Ok (Some t).
Proof.
  revert chunk s. induction fuel as [|f IH]; intros chunk s; [done|].
  cbn [matchChunk]. destruct chunk as [|c chunk1]; [done|]. simpl orb. cbn iota.
  destruct (Ascii.eqb c "[").
  - destruct (match chunk1 with [] => _ | _ => _ end) as [neg chunk2].
    destruct (matchClass _ _ _ _ _) as [[b r]|]; [|done]. simpl. apply IH.
  - destruct (Ascii.eqb c "?"); [apply IH|]. destruct (Ascii.eqb c "\"); [|apply IH].
    destruct chunk1; [done|apply IH].
Qed.

(** On an empty name a non-empty chunk cannot match. *)
Lemma matchChunk_nil fuel c chunk t : matchChunk fuel (c :: chunk) [] false <> Ok (Some t).
Proof.
  destruct fuel as [|f]; [done|]. cbn [matchChunk].
  rewrite bool_decide_true by done. simpl orb. cbn iota.
  destruct (Ascii.eqb c "[").
  - destruct (match chunk with [] => _ | _ => _ end) as [neg chunk2].
    destruct (matchClass _ _ _ _ _) as [[b r]|]; [|done]. simpl. apply matchChunk_failed.
  - destruct (Ascii.eqb c "?"); [apply matchChunk_failed|].
    destruct (Ascii.eqb c "\"); [|apply matchChunk_failed].
    destruct chunk; [done|apply matchChunk_failed].
Qed.

Lemma matchChunk_ok_failed fuel chunk s b t :
  matchChunk fuel chunk s b = Ok (Some t) -> b = false.
Proof. destruct b; [|done]. intros H. by apply matchChunk_failed in H. Qed.

(** What one step of a matching chunk does to chunk and name: the name loses a
    prefix, the chunk loses either one byte equal to the name's, or text that
    ends with one of the bytes [[ ] ? \]. *)
Lemma matchChunk_step fuel c chunk d s t :
  matchChunk (S fuel) (c :: chunk) (d :: s) false = Ok (Some t) ->
  (plain c = true /\ c = d /\ matchChunk fuel chunk s false = Ok (Some t))
  \/ (c = "\"%char /\ exists chunk', chunk = d :: chunk' /\ matchChunk fuel chunk' s false = Ok (Some t))
  \/ (exists x q chunk' w, In x (str "*?[]\") /\ c :: chunk = (q ++ x :: chunk')%list
      /\ matchChunk fuel chunk' (drop w (d :: s)) false = Ok (Some t)).
Proof.
  intros H. cbn [matchChunk] in H.
  rewrite (bool_decide_false (d :: s = [])) in H by done. cbn [orb] in H.
  destruct (Ascii.eqb_spec c "[") as [->|Hb].
  { destruct (DecodeRune (d :: s)) as [r w].
    destruct (match chunk with [] => _ | _ => _ end) as [neg chunk2] eqn:Eneg.
    apply result_bind_ok in H as ([found chunk3] & Hclass & H).
    apply matchClass_suffix in Hclass as [q ->].
    pose proof (matchChunk_ok_failed _ _ _ _ _ H) as Hf. rewrite Hf in H.
    assert (exists q0, chunk = (q0 ++ q ++ "]"%char :: chunk3)%list) as [q0 ->].
    { destruct chunk as [|e chunk]; [by simplify_eq; exists []|].
      destruct (Ascii.eqb e "^"); simplify_eq; [by exists [e]|by exists []]. }
    right; right. exists "]"%char, ("["%char :: q0 ++ q)%list, chunk3, w.
    split; [simpl; tauto|]. split; [simpl; by rewrite <- app_assoc|done]. }
  destruct (Ascii.eqb_spec c "?") as [->|Hq].
  { pose proof (matchChunk_ok_failed _ _ _ _ _ H) as Hf. rewrite Hf in H.
    right; right. exists "?"%char, [], chunk, (snd (DecodeRune (d :: s))).
    split; [simpl; tauto|done]. }
  destruct (Ascii.eqb_spec c "\") as [->|Hbs].
  { destruct chunk as [|e chunk]; [done|].
    pose proof (matchChunk_ok_failed _ _ _ _ _ H) as Hf. rewrite Hf in H.
    apply negb_false_iff, Ascii.eqb_eq in Hf as ->. right; left. eauto. }
  pose proof (matchChunk_ok_failed _ _ _ _ _ H) as Hf. rewrite Hf in H.
  apply negb_false_iff, Ascii.eqb_eq in Hf as ->.
  destruct (plain d) eqn:Hp; [by left|].
  right; right. exists d, [], chunk, 1%nat. split; [|done].
  unfold plain in Hp. apply negb_false_iff, existsb_exists in Hp as (x & Hin & Hx).
  apply Ascii.eqb_eq in Hx as ->. done.
Qed.

(** A matching chunk that ends in plain text consumes that text. *)
Lemma matchChunk_literal fuel p lit s t :
  forallb plain lit = true ->
  matchChunk fuel (p ++ lit) s false = Ok (Some t) ->
  exists h, s = (h ++ lit ++ t)%list /\ (p = [] -> h = []).
Proof.
  intros Hlit. revert p lit Hlit s.
  induction fuel as [|f IH]; intros p lit Hlit s H; [done|].
  destruct (p ++ lit)%list as [|c chunk] eqn:Epl.
  { simpl in H. simplify_eq. apply app_eq_nil in Epl as [-> ->]. by exists []. }
  destruct s as [|d s]; [by apply matchChunk_nil in H|].
  destruct (matchChunk_step _ _ _ _ _ _ H)
    as [(_ & -> & Hm)|[(-> & chunk' & -> & Hm)|(x & q & chunk' & w & Hx & Hq & Hm)]].
  - destruct p as [|y p]; simplify_eq/=.
    + apply andb_true_iff in Hlit as [_ Hlit].
      destruct (IH [] chunk Hlit s Hm) as (h & -> & Hh). exists []. by rewrite Hh.
    + destruct (IH p lit Hlit s Hm) as (h & -> & _). by exists (d :: h).
  - destruct p as [|y p]; simplify_eq/=.
    destruct p as [|y p]; simplify_eq/=.
    + apply andb_true_iff in Hlit as [_ Hlit].
      destruct (IH [] chunk' Hlit s Hm) as (h & -> & Hh). exists []. by rewrite Hh.
    + destruct (IH p lit Hlit s Hm) as (h & -> & _). by exists (d :: h).
  - rewrite Hq in Epl. pose proof (plain_notin lit x Hlit Hx) as Hnotin.
    assert (p <> []) as Hp.
    { intros ->. simpl in Epl. apply Hnotin. rewrite Epl. set_solver. }
    destruct (app_split_notin p lit q chunk' x Epl Hnotin) as [p' ->].
    destruct (IH p' lit Hlit _ Hm) as (h & Hd & _).
    exists (take w (d :: s) ++ h)%list. split; [|done].
    by rewrite <- app_assoc, <- Hd, take_drop.
Qed.

(** ** Chunks and the whole pattern *)

Lemma scanStars_spec p star p1 :
  scanStars p = (star, p1) ->
  exists k, p = (replicate k "*"%char ++ p1)%list /\ (star = false -> k = 0%nat)
            /\ (star = true -> (0 < k)%nat).
Proof.
  revert star p1. induction p as [|c p IH]; intros star p1 H; simpl in H.
  { simplify_eq. by exists 0%nat. }
  destruct (Ascii.eqb_spec c "*") as [->|]; [|simplify_eq; by exists 0%nat].
  destruct (scanStars p) as [st p2]. simpl in H. simplify_eq.
  destruct (IH st p1 eq_refl) as (k & -> & _). exists (S k). simpl. split_and!; [done|done|lia].
Qed.

Lemma scanStars_head p star p1 t : scanStars p = (star, p1) -> p1 <> "*"%char :: t.
Proof.
  revert star p1. induction p as [|c p IH]; intros star p1 H; simpl in H; [by simplify_eq|].
  destruct (Ascii.eqb_spec c "*") as [->|]; [|simplify_eq; congruence].
  destruct (scanStars p) as [st p2]. simpl in H. simplify_eq. by eapply IH.
Qed.

Lemma scanRest_app b p chunk rest : scanRest b p = (chunk, rest) -> p = (chunk ++ rest)%list.
Proof.
  revert b chunk rest. 
  induction p as [p IH] using (induction_ltof1 _ (@length ascii)); unfold ltof in IH.
  intros b chunk rest H. destruct p as [|c t]; simpl in H; [by simplify_eq|].
  destruct (Ascii.eqb c "\").
  - destruct t as [|d t']; [by simplify_eq|].
    destruct (scanRest b t') as [x y] eqn:E. simplify_eq. simpl.
    do 2 f_equal. eapply (IH t'); [simpl; lia|done].
  - destruct (_ && _); [by simplify_eq|].
    destruct (scanRest _ t) as [x y] eqn:E. simplify_eq. simpl.
    f_equal. eapply (IH t); [simpl; lia|done].
Qed.

Lemma scanRest_star b p chunk rest :
  scanRest b p = (chunk, rest) -> rest = [] \/ exists r, rest = "*"%char :: r.
Proof.
  revert b chunk rest. 
  induction p as [p IH] using (induction_ltof1 _ (@length ascii)); unfold ltof in IH.
  intros b chunk rest H. destruct p as [|c t]; simpl in H; [simplify_eq; by left|].
  destruct (Ascii.eqb c "\").
  - destruct t as [|d t']; [simplify_eq; by left|].
    destruct (scanRest b t') as [x y] eqn:E. simplify_eq.
    eapply (IH t'); [simpl; lia|done].
  - destruct (Ascii.eqb_spec c "*") as [->|]; simpl in H.
    + destruct b; simpl in H; [|simplify_eq; eauto].
      destruct (scanRest _ t) as [x y] eqn:E. simplify_eq. eapply (IH t); [simpl; lia|done].
    + destruct (scanRest _ t) as [x y] eqn:E. simplify_eq. eapply (IH t); [simpl; lia|done].
Qed.

Lemma starLoop_spec chunk name last t :
  starLoop chunk name last = Ok (Some t) ->
  exists u v, name = (u ++ v)%list /\ matchChunk' chunk v = Ok (Some t) /\ (last = true -> t = []).
Proof.
  induction name as [|c name IH]; simpl; [done|].
  destruct (Ascii.eqb c "/"); [done|]. intros H.
  apply result_bind_ok in H as (m & Hm & H). destruct m as [t'|].
  - destruct (last && _) eqn:E.
    + destruct (IH H) as (u & v & -> & ? & ?). by exists (c :: u), v.
    + simplify_eq. exists [c], name. split_and!; [done|done|]. intros ->.
      apply negb_false_iff, bool_decide_eq_true in E. done.
  - destruct (IH H) as (u & v & -> & ? & ?). by exists (c :: u), v.
Qed.

Lemma checkRest_false fuel p : checkRest fuel p <> Ok true.
Proof.
  revert p. induction fuel as [|f IH]; intros p; [done|]. simpl.
  destruct (bool_decide _); [done|]. destruct (scanStars p) as [? p1].
  destruct (scanRest false p1) as [chunk rest]. destruct (matchChunk' chunk []); [|done]. apply IH.
Qed.

(** One round of [path.Match] on a matching name: either a trailing star, or a
    chunk matched at some offset (0 unless there was a star) and the rest of the
    pattern matched after it. *)
Lemma Match_loop_step f pattern name :
  pattern <> [] -> Match_loop (S f) pattern name = Ok true ->
  exists k chunk rest, pattern = (replicate k "*"%char ++ chunk ++ rest)%list
    /\ (rest = [] \/ exists r, rest = "*"%char :: r)
    /\ ((0 < k)%nat /\ chunk = [] /\ rest = []
        \/ exists u v t, name = (u ++ v)%list /\ (k = 0%nat -> u = [])
            /\ matchChunk' chunk v = Ok (Some t) /\ Match_loop f rest t = Ok true).
Proof.
  intros Hp H. cbn [Match_loop] in H. rewrite bool_decide_false in H by done.
  destruct (scanStars pattern) as [star p1] eqn:Estar.
  destruct (scanRest false p1) as [chunk rest] eqn:Erest.
  destruct (scanStars_spec _ _ _ Estar) as (k & -> & Hk0 & Hk1).
  rewrite (scanRest_app _ _ _ _ Erest). pose proof (scanRest_star _ _ _ _ Erest) as Hr.
  exists k, chunk, rest. split; [done|]. split; [done|].
  destruct (star && bool_decide (chunk = [])) eqn:Ec.
  { apply andb_true_iff in Ec as [-> Ec%bool_decide_eq_true]. left. split_and!; auto.
    pose proof (scanRest_app _ _ _ _ Erest) as Happ. rewrite Ec in Happ. simpl in Happ. subst p1.
    destruct Hr as [->|[r ->]]; [done|]. by eapply scanStars_head in Estar. }
  right. apply result_bind_ok in H as (m & Hm & H).
  set (search := if star then _ else _) in H.
  assert (search = Ok true -> exists u v t, name = (u ++ v)%list /\ (k = 0%nat -> u = [])
            /\ matchChunk' chunk v = Ok (Some t) /\ Match_loop f rest t = Ok true) as Hsearch.
  { subst search. destruct star; [|by intros ?%checkRest_false].
    intros Hs. apply result_bind_ok in Hs as (m' & Hm' & Hs).
    destruct m' as [t|]; [|by apply checkRest_false in Hs].
    apply starLoop_spec in Hm' as (u & v & -> & Hv & _).
    exists u, v, t. split_and!; [done| |done|done]. intros ->. specialize (Hk1 eq_refl). lia. }
  destruct m as [t|]; [|by apply Hsearch].
  destruct (_ || _); [|by apply Hsearch]. exists [], name, t. auto.
Qed.

Lemma stars_split p lit k x :
  (p ++ lit = replicate k "*"%char ++ x)%list -> "*"%char ∉ lit ->
  exists p', x = (p' ++ lit)%list /\ (p = [] -> k = 0%nat /\ p' = []).
Proof.
  revert p. induction k as [|k IH]; intros p H Hn; simpl in H.
  - exists p. auto.
  - destruct p as [|c p]; simpl in H; [subst lit; exfalso; apply Hn; by left|].
    injection H as -> H. destruct (IH p H Hn) as (p' & -> & _). by exists p'.
Qed.

Lemma Match_loop_nil f name : Match_loop f [] name = Ok true -> name = [].
Proof. destruct f; [done|]. simpl. intros [= H]. by apply bool_decide_eq_true in H. Qed.

Lemma Match_loop_literal f p lit name :
  forallb plain lit = true -> Match_loop f (p ++ lit) name = Ok true ->
  exists h, name = (h ++ lit)%list /\ (p = [] -> h = []).
Proof.
  intros Hlit. revert p name. induction f as [|f IH]; intros p name H; [done|].
  destruct (decide (lit = [])) as [->|Hne].
  { exists name. rewrite app_nil_r in *. split; [done|]. intros ->. by apply Match_loop_nil in H. }
  assert (p ++ lit <> [])%list as Hpl by by destruct p, lit.
  pose proof (plain_notin lit "*" Hlit ltac:(simpl; tauto)) as Hstar.
  destruct (Match_loop_step f _ _ Hpl H) as (k & chunk & rest & Hpat & Hrest & Hcase).
  destruct (stars_split p lit k _ Hpat Hstar) as (p' & Hcr & Hp0).
  destruct Hcase as [(_ & -> & ->)|(u & v & t & -> & Hu & Hv & Ht)].
  { simpl in Hcr. symmetry in Hcr. by apply app_eq_nil in Hcr as [_ ->]. }
  destruct Hrest as [->|[r ->]].
  - rewrite app_nil_r in Hcr. subst chunk. apply Match_loop_nil in Ht as ->.
    apply matchChunk_literal in Hv as (h & -> & Hh); [|done].
    exists (u ++ h)%list. rewrite app_nil_r, <- app_assoc. split; [done|].
    intros Hp. destruct (Hp0 Hp) as [Hk Hp'']. by rewrite Hu, Hh.
  - symmetry in Hcr. pose proof Hcr as Hsplit.
    apply app_split_notin in Hsplit as [p'' ->]; [|done].
    assert (p' <> []) as Hp'ne.
    { intros ->. simpl in Hcr. apply Hstar. rewrite Hcr. set_solver. }
    apply (IH ("*"%char :: p'')) in Ht as (h & -> & _).
    rewrite <- (app_nil_r chunk) in Hv. apply matchChunk_literal in Hv as (h2 & -> & _); [|done].
    exists (u ++ h2 ++ h)%list. rewrite app_nil_l, <- !app_assoc. split; [done|].
    intros Hp. by destruct (Hp0 Hp).
Qed.

(** The plain text a pattern ends with is the text every matching name ends
    with; a pattern that is plain text matches only itself. *)
Lemma Match_literal_suffix p lit name :
  forallb plain lit = true -> Match (p ++ lit) name = Ok true ->
  exists h, name = (h ++ lit)%list /\ (p = [] -> h = []).
Proof. apply Match_loop_literal. Qed.
