(* ===== verification/Json.v ===== *)
(** * JSON values and Go's [encoding/json] encoder

    [any] is what the decoder stores in an interface value; [json_print] is the
    compact encoding of [json.Marshal] (with its HTML escaping). *)

From S2P Require Import Prelude GoStrings.

Open Scope Z_scope.

(** A number is [m * 10^e], the value its shortest decimal form denotes; an
    object keeps its members in source order. *)
Inductive any : Type :=
  | ANull
  | ABool (b : bool)
  | ANum (m e : Z)
  | AStr (s : bytes)
  | AArr (l : list any)
  | AObj (l : list (bytes * any)).

(** Induction that goes through the nested lists. *)
Section any_ind.
Variable P : any -> Prop.
Hypothesis Hnull : P ANull.
Hypothesis Hbool : forall b, P (ABool b).
Hypothesis Hnum : forall m e, P (ANum m e).
Hypothesis Hstr : forall s, P (AStr s).
Hypothesis Harr : forall l, Forall P l -> P (AArr l).
Hypothesis Hobj : forall l, Forall (fun kv => P (snd kv)) l -> P (AObj l).

Fixpoint any_ind' (v : any) : P v :=
  match v with
  | ANull => Hnull
  | ABool b => Hbool b
  | ANum m e => Hnum m e
  | AStr s => Hstr s
  | AArr l =>
      Harr l ((fix go l : Forall P l :=
                match l with
                           | [] => Forall_nil_2 P
                           | x :: t => Forall_cons_2 P x t (any_ind' x) (go t)
                           end) l)
  | AObj l =>
      Hobj l ((fix go l : Forall (fun kv : bytes * any => P (snd kv)) l :=
                match l with
                           | [] => Forall_nil_2 (fun kv : bytes * any => P (snd kv))
                           | x :: t => Forall_cons_2 (fun kv : bytes * any => P (snd kv)) x t
                                         (any_ind' (snd x)) (go t)
                           end) l)
  end.
End any_ind.

(** ** Strings *)

Definition quote : ascii := byte_of 34.
Definition hexd (n : Z) : ascii := hex_digit (n mod 16).

(** [\u00XY]. *)
Definition u_escape (b : Z) : bytes := (str "\u00" ++ [hexd (b / 16); hexd b])%list.

(** One ASCII byte of a string literal. *)
Definition json_byte (c : ascii) : bytes :=
  let b := byte_val c in
  if Ascii.eqb c quote then ["\"%char; quote]
  else if Ascii.eqb c "\" then str "\\"
  else if b =? 8 then str "\b"
  else if b =? 12 then str "\f"
  else if b =? 10 then str "\n"
  else if b =? 13 then str "\r"
  else if b =? 9 then str "\t"
  else if (b <? 32) || Ascii.eqb c "<" || Ascii.eqb c ">" || Ascii.eqb c "&" then u_escape b
  else [c].

(** The body of a string literal: ASCII bytes one at a time, other runes copied
    whole; an invalid byte becomes [\ufffd], U+2028 and U+2029 are escaped. *)
Fixpoint json_string (fuel : nat) (s : bytes) : bytes :=
  match fuel, s with
  | S f, c :: t =>
      if is_ascii c then (json_byte c ++ json_string f t)%list
      else
        let '(r, n) := DecodeRune s in
        let out :=
          if (r =? RuneError) && (n =? 1)%nat then str "\ufffd"
          else if r =? 0x2028 then str "\u2028"
          else if r =? 0x2029 then str "\u2029"
          else take n s in
        (out ++ json_string f (drop n s))%list
  | _, _ => []
  end.

Definition json_quote (s : bytes) : bytes :=
  (quote :: json_string (length s) s ++ [quote])%list.

(** ** Numbers *)

(** The float encoder's choice of plain or exponent notation, for the shortest
    digits [m] and exponent [e]. *)
Definition json_number (m e : Z) : bytes :=
  let sign := if m <? 0 then str "-" else [] in
  let d := Itoa (Z.abs m) in
  let n := Z.of_nat (length d) in
  let p := n + e in
  let body :=
    if m =? 0 then str "0"
    else if (-5 <=? p) && (p <=? 21) then
      if 0 <=? e then d ++ replicate (Z.to_nat e) "0"%char
      else if 0 <? p then take (Z.to_nat p) d ++ str "." ++ drop (Z.to_nat p) d
      else str "0." ++ replicate (Z.to_nat (- p)) "0"%char ++ d
    else
      take 1 d
      ++ (if (1 <? length d)%nat then str "." ++ drop 1 d else [])
      ++ (if 0 <=? p - 1 then str "e+" ++ (if p - 1 <? 10 then str "0" else []) ++ Itoa (p - 1)
          else str "e-" ++ Itoa (1 - p)) in
  (sign ++ body)%list.

(** ** Values *)

Fixpoint json_print (v : any) : bytes :=
  match v with
  | ANull => str "null"
  | ABool true => str "true"
  | ABool false => str "false"
  | ANum m e => json_number m e
  | AStr s => json_quote s
  | AArr l => (str "[" ++ Join (str ",") (map json_print l) ++ str "]")%list
  | AObj l =>
      (str "{" ++ Join (str ",") (map (fun kv => json_quote (fst kv) ++ str ":" ++ json_print (snd kv)) l)
       ++ str "}")%list
  end.

(** ** The decoder

    [encoding/json]'s scanner and unquoting: [scanVal] reads one value and
    returns what follows it.  Numbers keep their decimal value, with trailing
    zeros of the significand moved to the exponent. *)

Definition is_ws (c : ascii) : bool :=
  let v := byte_val c in (v =? 32) || (v =? 9) || (v =? 13) || (v =? 10).

Fixpoint skip_ws (s : bytes) : bytes :=
  match s with
  | c :: t => if is_ws c then skip_ws t else s
  | [] => []
  end.

(** [utf8.EncodeRune]. *)
Definition EncodeRune (r : Z) : bytes :=
  if r <? 0x80 then [byte_of r]
  else if r <? 0x800 then [byte_of (0xC0 + r / 64); byte_of (0x80 + r mod 64)]
  else if r <? 0x10000 then
    [byte_of (0xE0 + r / 4096); byte_of (0x80 + (r / 64) mod 64); byte_of (0x80 + r mod 64)]
  else
    [byte_of (0xF0 + r / 262144); byte_of (0x80 + (r / 4096) mod 64);
     byte_of (0x80 + (r / 64) mod 64); byte_of (0x80 + r mod 64)].

Definition hexv (c : ascii) : option Z :=
  let v := byte_val c in
  if (48 <=? v) && (v <=? 57) then Some (v - 48)
  else if (97 <=? v) && (v <=? 102) then Some (v - 87)
  else if (65 <=? v) && (v <=? 70) then Some (v - 55)
  else None.

(** [getu4]: four hex digits. *)
Definition getu4 (a b c d : ascii) : option Z :=
  match hexv a, hexv b, hexv c, hexv d with
  | Some w, Some x, Some y, Some z => Some (((w * 16 + x) * 16 + y) * 16 + z)
  | _, _, _, _ => None
  end.

(** The byte a one-letter escape stands for. *)
Definition unescape1 (c : ascii) : option ascii :=
  if Ascii.eqb c quote || Ascii.eqb c "\" || Ascii.eqb c "/" then Some c
  else if Ascii.eqb c "b" then Some (byte_of 8)
  else if Ascii.eqb c "f" then Some (byte_of 12)
  else if Ascii.eqb c "n" then Some (byte_of 10)
  else if Ascii.eqb c "r" then Some (byte_of 13)
  else if Ascii.eqb c "t" then Some (byte_of 9)
  else None.

Definition is_high (r : Z) : bool := (0xD800 <=? r) && (r <? 0xDC00).
Definition is_low (r : Z) : bool := (0xDC00 <=? r) && (r <? 0xE000).

(** The [\uXXXX] at the head of [s], if there is one. *)
Definition head_u4 (s : bytes) : option Z :=
  match s with
  | c :: u :: a :: b :: d :: e :: _ =>
      if Ascii.eqb c "\" && Ascii.eqb u "u" then getu4 a b d e else None
  | _ => None
  end.

Definition str_error {A} : result A := Error "invalid character in string literal".

Definition prepend (p : bytes) (r : result (bytes * bytes)) : result (bytes * bytes) :=
  match r with
  | Ok (s, t) => Ok ((p ++ s)%list, t)
  | Error e => Error e
  end.

(** The rest of a string literal after its opening quote: the unquoted text and
    what follows the closing quote.  A lone surrogate and an invalid byte become
    U+FFFD. *)
Fixpoint scanStr (s : bytes) : result (bytes * bytes) :=
  match s with
  | [] => Error "unexpected end of JSON input"
  | c :: t =>
      if Ascii.eqb c quote then Ok ([], t)
      else if Ascii.eqb c "\" then
        match t with
        | [] => Error "unexpected end of JSON input"
        | u :: t1 =>
            if Ascii.eqb u "u" then
              match t1 with
              | a :: b :: d :: e :: t2 =>
                  match getu4 a b d e with
                  | None => str_error
                  | Some r =>
                      if is_high r then
                        match head_u4 t2 with
                        | Some r2 =>
                            if is_low r2 then
                              match t2 with
                              | _ :: _ :: _ :: _ :: _ :: _ :: t3 =>
                                  prepend (EncodeRune (0x10000 + (r - 0xD800) * 1024 + (r2 - 0xDC00)))
                                          (scanStr t3)
                              | _ => str_error
                              end
                            else prepend (EncodeRune RuneError) (scanStr t2)
                        | None => prepend (EncodeRune RuneError) (scanStr t2)
                        end
                      else prepend (EncodeRune (if is_low r then RuneError else r)) (scanStr t2)
                  end
              | _ => str_error
              end
            else match unescape1 u with
                 | Some b => prepend [b] (scanStr t1)
                 | None => str_error
                 end
        end
      else if byte_val c <? 32 then str_error
      else if is_ascii c then prepend [c] (scanStr t)
      else
        match snd (DecodeRune s), t with
        | 2%nat, c1 :: t1 => prepend [c; c1] (scanStr t1)
        | 3%nat, c1 :: c2 :: t2 => prepend [c; c1; c2] (scanStr t2)
        | 4%nat, c1 :: c2 :: c3 :: t3 => prepend [c; c1; c2; c3] (scanStr t3)
        | _, _ => prepend (EncodeRune RuneError) (scanStr t)
        end
  end.

(** *** Numbers *)

Fixpoint span_digits (s : bytes) : bytes * bytes :=
  match s with
  | c :: t => if is_digit c then let '(d, r) := span_digits t in (c :: d, r) else ([], s)
  | [] => ([], [])
  end.

Definition dec_val (d : bytes) : Z := foldl (fun n c => n * 10 + (byte_val c - 48)) 0 d.

Fixpoint norm_num (fuel : nat) (m e : Z) : Z * Z :=
  match fuel with
  | O => (m, e)
  | S f =>
      if m =? 0 then (0, 0)
      else if m mod 10 =? 0 then norm_num f (m / 10) (e + 1) else (m, e)
  end.

Definition num_error {A} : result A := Error "invalid character in numeric literal".

Definition scanNum (s : bytes) : result (any * bytes) :=
  let '(neg, s) := match s with
                   | c :: t => if Ascii.eqb c "-" then (true, t) else (false, s)
                   | [] => (false, s)
                   end in
  let '(ip, s) := span_digits s in
  if match ip with [] => true | c :: _ :: _ => Ascii.eqb c "0" | _ => false end then num_error
  else
    '(fp, s) ← (match s with
                | c :: t => if Ascii.eqb c "." then
                              let '(f, r) := span_digits t in
                              if bool_decide (f = []) then num_error else Ok (f, r)
                            else Ok ([], s)
                | [] => Ok ([], s)
                end);
    '(e, s) ← (match s with
               | c :: t =>
                   if Ascii.eqb c "e" || Ascii.eqb c "E" then
                     let '(eneg, t) := match t with
                                       | d :: t' => if Ascii.eqb d "-" then (true, t')
                                                    else if Ascii.eqb d "+" then (false, t') else (false, t)
                                       | [] => (false, t)
                                       end in
                     let '(x, r) := span_digits t in
                     if bool_decide (x = []) then num_error
                     else Ok (if eneg : bool then - dec_val x else dec_val x, r)
                   else Ok (0, s)
               | [] => Ok (0, s)
               end);
    let m := dec_val (ip ++ fp) in
    let '(m, e) := norm_num (length (ip ++ fp)) m (e - Z.of_nat (length fp)) in
    Ok (ANum (if neg : bool then - m else m) e, s).

(** *** Values *)

Definition val_error {A} : result A := Error "invalid character looking for beginning of value".

(** [scanVal] reads a value, [scanElems] the elements of a non-empty array and
    [scanMembers] the members of a non-empty object up to the closing bracket;
    each call spends one unit of fuel, and a text needs at most one per byte. *)
Fixpoint scanVal (fuel : nat) (s : bytes) {struct fuel} : result (any * bytes) :=
  match fuel with
  | O => val_error
  | S f =>
      match skip_ws s with
      | [] => Error "unexpected end of JSON input"
      | c :: t =>
          if Ascii.eqb c quote then '(x, r) ← scanStr t; Ok (AStr x, r)
          else if Ascii.eqb c "{" then
            match skip_ws t with
            | d :: r => if Ascii.eqb d "}" then Ok (AObj [], r)
                        else '(l, r) ← scanMembers f t; Ok (AObj l, r)
            | [] => Error "unexpected end of JSON input"
            end
          else if Ascii.eqb c "[" then
            match skip_ws t with
            | d :: r => if Ascii.eqb d "]" then Ok (AArr [], r)
                        else '(l, r) ← scanElems f t; Ok (AArr l, r)
            | [] => Error "unexpected end of JSON input"
            end
          else if Ascii.eqb c "t" then
            r ← of_option "invalid character in literal true" (CutPrefix (str "rue") t); Ok (ABool true, r)
          else if Ascii.eqb c "f" then
            r ← of_option "invalid character in literal false" (CutPrefix (str "alse") t); Ok (ABool false, r)
          else if Ascii.eqb c "n" then
            r ← of_option "invalid character in literal null" (CutPrefix (str "ull") t); Ok (ANull, r)
          else if Ascii.eqb c "-" || is_digit c then scanNum (c :: t)
          else val_error
      end
  end
with scanElems (fuel : nat) (s : bytes) {struct fuel} : result (list any * bytes) :=
  match fuel with
  | O => val_error
  | S f =>
      '(v, r) ← scanVal f s;
      match skip_ws r with
      | c :: t =>
          if Ascii.eqb c "," then '(l, r) ← scanElems f t; Ok (v :: l, r)
          else if Ascii.eqb c "]" then Ok ([v], t)
          else Error "invalid character after array element"
      | [] => Error "unexpected end of JSON input"
      end
  end
with scanMembers (fuel : nat) (s : bytes) {struct fuel} : result (list (bytes * any) * bytes) :=
  match fuel with
  | O => val_error
  | S f =>
      match skip_ws s with
      | c :: t =>
          if Ascii.eqb c quote then
            '(k, r) ← scanStr t;
            match skip_ws r with
            | d :: r =>
                if Ascii.eqb d ":" then
                  '(v, r) ← scanVal f r;
                  match skip_ws r with
                  | e :: r =>
                      if Ascii.eqb e "," then '(l, r) ← scanMembers f r; Ok ((k, v) :: l, r)
                      else if Ascii.eqb e "}" then Ok ([(k, v)], r)
                      else Error "invalid character after object key:value pair"
                  | [] => Error "unexpected end of JSON input"
                  end
                else Error "invalid character after object key"
            | [] => Error "unexpected end of JSON input"
            end
          else Error "invalid character looking for beginning of object key string"
      | [] => Error "unexpected end of JSON input"
      end
  end.

(** [Decoder.Decode] on fresh input: the first value and the unread rest. *)
Definition decodeFirst (s : bytes) : result (any * bytes) := scanVal (S (length s)) s.

(** [json.Unmarshal] into an interface: one value and nothing but space after it. *)
Definition Unmarshal_any (s : bytes) : result any :=
  '(v, r) ← decodeFirst s;
  if bool_decide (skip_ws r = []) then Ok v else Error "invalid character after top-level value".
