(* ===== verification/Encoding.v ===== *)
(** * Digests and text encodings

    The hash functions are operations of the class [Digests]; nothing is
    assumed of them except where a theorem says so.  Hexadecimal and base64
    follow Go's [encoding/hex] and [encoding/base64]. *)

From S2P Require Import Prelude GoStrings Json.

Open Scope Z_scope.

(** Go's [crypto/sha256], [crypto/sha1] and x/crypto's [argon2.IDKey]
    (password, salt, time, memory, threads, key length); the latter panics
    ([None]) on some parameters. *)
Class Digests : Type := {
  sha256 : bytes -> bytes;
  sha1 : bytes -> bytes;
  argon2id : bytes -> bytes -> Z -> Z -> Z -> Z -> option bytes }.

(** Digests that return their input, for evaluating the definitions. *)
Definition toy_digests : Digests :=
  {| sha256 := fun b => b; sha1 := fun b => b;
     argon2id := fun pw _ time _ threads _ => if (time <? 1) || (threads <? 1) then None else Some pw |}.

(** ** Hexadecimal *)

(** [hex.EncodeToString]. *)
Definition hex_encode (b : bytes) : bytes :=
  flat_map (fun c => [hex_digit (byte_val c / 16); hex_digit (byte_val c mod 16)]) b.

Definition hex_nibble (c : ascii) : option Z :=
  let v := byte_val c in
  if (48 <=? v) && (v <=? 57) then Some (v - 48)
  else if (97 <=? v) && (v <=? 102) then Some (v - 87)
  else if (65 <=? v) && (v <=? 70) then Some (v - 55)
  else None.

(** [hex.DecodeString]: both cases, an even number of digits. *)
Fixpoint hex_decode (s : bytes) : result bytes :=
  match s with
  | [] => Ok []
  | [_] => Error "encoding/hex: odd length hex string"
  | c :: d :: t =>
      match hex_nibble c, hex_nibble d with
      | Some h, Some l => cons (byte_of (h * 16 + l)) <$> hex_decode t
      | _, _ => Error "encoding/hex: invalid byte"
      end
  end.

(** ** Base64 *)

Definition base64_digit (c : ascii) : option Z :=
  let v := byte_val c in
  if is_upper c then Some (v - 65)
  else if is_lower c then Some (v - 71)
  else if is_digit c then Some (v + 4)
  else if Ascii.eqb c "+" then Some 62
  else if Ascii.eqb c "/" then Some 63
  else None.

(** The quanta of a base64 text whose line breaks are already removed; [padded]
    distinguishes [StdEncoding] from [RawStdEncoding].  Trailing bits of the
    last digit are ignored, as in the default (non-strict) mode. *)
Fixpoint base64_quanta (padded : bool) (s : bytes) : result bytes :=
  match s with
  | [] => Ok []
  | a :: b :: t =>
      match base64_digit a, base64_digit b with
      | Some x, Some y =>
          let b1 := byte_of (x * 4 + y / 16) in
          match t with
          | [] => if padded then Error "illegal base64 data" else Ok [b1]
          | [c] =>
              if padded then Error "illegal base64 data"
              else match base64_digit c with
                   | Some z => Ok [b1; byte_of ((y mod 16) * 16 + z / 4)]
                   | None => Error "illegal base64 data"
                   end
          | c :: d :: t' =>
              match base64_digit c, base64_digit d with
              | Some z, Some w =>
                  (fun r => b1 :: byte_of ((y mod 16) * 16 + z / 4)
                               :: byte_of ((z mod 4) * 64 + w) :: r) <$> base64_quanta padded t'
              | Some z, None =>
                  if padded && Ascii.eqb d "=" && bool_decide (t' = [])
                  then Ok [b1; byte_of ((y mod 16) * 16 + z / 4)]
                  else Error "illegal base64 data"
              | None, _ =>
                  if padded && Ascii.eqb c "=" && Ascii.eqb d "=" && bool_decide (t' = [])
                  then Ok [b1]
                  else Error "illegal base64 data"
              end
          end
      | _, _ => Error "illegal base64 data"
      end
  | [_] => Error "illegal base64 data"
  end.

Definition base64_decode (padded : bool) (s : bytes) : result bytes :=
  base64_quanta padded
    (List.filter (fun c => negb ((byte_val c =? 10) || (byte_val c =? 13))) s).

(** [base64.StdEncoding.EncodeToString]. *)
Definition base64_char (n : Z) : ascii :=
  byte_of (if n <? 26 then n + 65 else if n <? 52 then n + 71 else if n <? 62 then n - 4 else if n =? 62 then 43 else 47).

Fixpoint base64_encode (b : bytes) : bytes :=
  match b with
  | [] => []
  | [x] => let a := byte_val x in
      [base64_char (a / 4); base64_char (a mod 4 * 16); "="%char; "="%char]
  | [x; y] => let a := byte_val x in let b := byte_val y in
      [base64_char (a / 4); base64_char (a mod 4 * 16 + b / 16); base64_char (b mod 16 * 4); "="%char]
  | x :: y :: z :: t => let a := byte_val x in let b := byte_val y in let c := byte_val z in
      base64_char (a / 4) :: base64_char (a mod 4 * 16 + b / 16) :: base64_char (b mod 16 * 4 + c / 64)
      :: base64_char (c mod 64) :: base64_encode t
  end.

(** ** JSON of a map: the encoder sorts the keys *)

Fixpoint insert_member (kv : bytes * any) (l : list (bytes * any)) : list (bytes * any) :=
  match l with
  | [] => [kv]
  | x :: t => if bytes_ltb (fst x) (fst kv) then x :: insert_member kv t else kv :: l
  end.

Definition sort_members (l : list (bytes * any)) : list (bytes * any) :=
  foldr insert_member [] l.

(** Every object inside a decoded value is a Go map. *)
Fixpoint sort_any (v : any) : any :=
  match v with
  | AArr l => AArr (map sort_any l)
  | AObj l => AObj (sort_members (map (fun kv => (fst kv, sort_any (snd kv))) l))
  | _ => v
  end.

(** [json.Marshal] of an interface value. *)
Definition Marshal_any (v : any) : bytes := json_print (sort_any v).

(** ** Base64 reads back *)

Lemma base64_digit_char n : 0 <= n < 64 -> base64_digit (base64_char n) = Some n.
Proof.
  intros Hn. assert (forallb (fun k => bool_decide (base64_digit (base64_char (Z.of_nat k)) = Some (Z.of_nat k))) (seq 0 64) = true) as H
    by (vm_compute; reflexivity).
  rewrite forallb_forall in H. specialize (H (Z.to_nat n) ltac:(apply in_seq; lia)). apply bool_decide_eq_true in H.
  by rewrite Z2Nat.id in H by lia.
Qed.

Lemma base64_char_line n : 0 <= n < 64 -> (byte_val (base64_char n) =? 10) || (byte_val (base64_char n) =? 13) = false.
Proof.
  intros Hn. assert (forallb (fun k => negb ((byte_val (base64_char (Z.of_nat k)) =? 10) || (byte_val (base64_char (Z.of_nat k)) =? 13))) (seq 0 64) = true) as H
    by (vm_compute; reflexivity).
  rewrite forallb_forall in H. specialize (H (Z.to_nat n) ltac:(apply in_seq; lia)). rewrite Z2Nat.id in H by lia.
  by apply negb_true_iff.
Qed.

(** Sextets of bytes, and back. *)
Lemma sextets a b c :
  0 <= a < 256 -> 0 <= b < 256 -> 0 <= c < 256 ->
  0 <= a / 4 < 64 /\ 0 <= a mod 4 * 16 + b / 16 < 64 /\ 0 <= b mod 16 * 4 + c / 64 < 64 /\ 0 <= c mod 64 < 64
  /\ a / 4 * 4 + (a mod 4 * 16 + b / 16) / 16 = a
  /\ (a mod 4 * 16 + b / 16) mod 16 * 16 + (b mod 16 * 4 + c / 64) / 4 = b
  /\ (b mod 16 * 4 + c / 64) mod 4 * 64 + c mod 64 = c.
Proof.
  intros Ha Hb Hc. Z.to_euclidean_division_equations. lia.
Qed.

Lemma byte_list_ind (P : bytes -> Prop) :
  P [] -> (forall x, P [x]) -> (forall x y, P [x; y]) -> (forall x y z t, P t -> P (x :: y :: z :: t)) -> forall b, P b.
Proof.
  intros H0 H1 H2 H3 b. assert (forall n b, (length b <= n)%nat -> P b) as H.
  { induction n as [|n IH]; intros [|x [|y [|z t]]] Hl; cbn in Hl; auto; try lia. apply H3, IH. lia. }
  by apply (H (length b)).
Qed.

Lemma base64_encode_quanta b : base64_quanta true (base64_encode b) = Ok b.
Proof.
  induction b as [|x|x y|x y z t IH] using byte_list_ind; [done|..]; cbn [base64_encode];
    pose proof (byte_val_range x) as Hx.
  - destruct (sextets (byte_val x) 0 0) as (H1 & H2 & _ & _ & E1 & _); [lia..|]. rewrite Z.div_0_l, Z.add_0_r in H2, E1 by lia.
    cbn [base64_quanta]. rewrite !base64_digit_char by lia. cbn. by rewrite E1, byte_of_val.
  - pose proof (byte_val_range y) as Hy. destruct (sextets (byte_val x) (byte_val y) 0) as (H1 & H2 & H3 & _ & E1 & E2 & _); [lia..|].
    rewrite Z.div_0_l, Z.add_0_r in H3, E2 by lia.
    cbn [base64_quanta]. rewrite !base64_digit_char by lia. cbn. by rewrite E1, E2, !byte_of_val.
  - pose proof (byte_val_range y) as Hy. pose proof (byte_val_range z) as Hz.
    destruct (sextets (byte_val x) (byte_val y) (byte_val z)) as (H1 & H2 & H3 & H4 & E1 & E2 & E3); [lia..|].
    cbn [base64_quanta]. rewrite !base64_digit_char by lia. rewrite IH. cbn. by rewrite E1, E2, E3, !byte_of_val.
Qed.

Lemma base64_encode_lines b :
  List.filter (fun c => negb ((byte_val c =? 10) || (byte_val c =? 13))) (base64_encode b) = base64_encode b.
Proof.
  induction b as [|x|x y|x y z t IH] using byte_list_ind; [done|..]; cbn [base64_encode]; cbn [List.filter];
    pose proof (byte_val_range x) as Hx.
  - destruct (sextets (byte_val x) 0 0) as (H1 & H2 & _); [lia..|]. rewrite Z.div_0_l, Z.add_0_r in H2 by lia.
    by rewrite !base64_char_line by lia.
  - pose proof (byte_val_range y) as Hy. destruct (sextets (byte_val x) (byte_val y) 0) as (H1 & H2 & H3 & _); [lia..|].
    rewrite Z.div_0_l, Z.add_0_r in H3 by lia. by rewrite !base64_char_line by lia.
  - pose proof (byte_val_range y) as Hy. pose proof (byte_val_range z) as Hz.
    destruct (sextets (byte_val x) (byte_val y) (byte_val z)) as (H1 & H2 & H3 & H4 & _); [lia..|].
    rewrite !base64_char_line by lia. cbn [negb]. by rewrite IH.
Qed.

(** Decoding an encoded text returns the bytes. *)
Lemma base64_decode_encode b : base64_decode true (base64_encode b) = Ok b.
Proof. unfold base64_decode. by rewrite base64_encode_lines, base64_encode_quanta. Qed.
