(* ===== verification/Schema.v ===== *)
(** * The rule document (internal/rules/schema.go, the [EgressRule] of egress.go)

    The JSON-decoded form of a rule file.  A nil-able pointer or slice whose
    nil-ness the code looks at is an [option]; a Go map is an association list
    in some iteration order (the theorems hold for every order). *)

From S2P Require Import Prelude GoStrings Json.

Open Scope Z_scope.

(** ** Action parameters *)

(** [Params map[string]any]. *)
Abbreviation Params := (list (bytes * any)).

(** Map lookup [p[key]] (the keys of a map are distinct). *)
Fixpoint assoc {V} (key : bytes) (p : list (bytes * V)) : option V :=
  match p with
  | [] => None
  | (k, v) :: t => if bool_decide (k = key) then Some v else assoc key t
  end.

(** The typed accessors of [Params]; [None] is [ok = false]. *)
Definition Params_String (p : Params) (key : bytes) : option bytes :=
  match assoc key p with
  | Some (AStr s) => Some s
  | _ => None
  end.

(** [int(n)] of a float64: truncation towards zero. *)
Definition trunc (m e : Z) : Z :=
  if 0 <=? e then m * 10 ^ e else Z.quot m (10 ^ (- e)).

Definition Params_Int (p : Params) (key : bytes) : option Z :=
  match assoc key p with
  | Some (ANum m e) => Some (trunc m e)
  | _ => None
  end.

Definition Params_IsNull (p : Params) (key : bytes) : bool :=
  match assoc key p with
  | Some ANull => true
  | _ => false
  end.

Definition Params_Bool (p : Params) (key : bytes) : option bool :=
  match assoc key p with
  | Some (ABool b) => Some b
  | _ => None
  end.

Fixpoint strings_of (l : list any) : option (list bytes) :=
  match l with
  | [] => Some []
  | AStr s :: t => cons s <$> strings_of t
  | _ => None
  end.

Definition Params_StringSlice (p : Params) (key : bytes) : option (list bytes) :=
  match assoc key p with
  | Some (AArr l) => strings_of l
  | _ => None
  end.

(** ** The document *)

Record BasicCredential : Type := { bc_User : bytes; bc_Hash : bytes }.
Record BearerCredential : Type := { tc_ID : bytes; tc_Hash : bytes }.
Record AuthBroker : Type := { ab_Socket : bytes; ab_URL : bytes; ab_Path : bytes }.

Record HTTPProxyAuth : Type := {
  hp_Required : bool;
  hp_Realm : bytes;
  hp_Basic : list BasicCredential;
  hp_Bearer : list BearerCredential;
  hp_Broker : option AuthBroker }.

Record AuthConfig : Type := { ac_HTTPProxy : option HTTPProxyAuth }.

(** [Match]; [Header] maps a header name to a pattern. *)
Record RuleMatch : Type := {
  m_Host : bytes;
  m_Port : bytes;
  m_Proto : bytes;
  m_Path : bytes;
  m_Method : bytes;
  m_Header : list (bytes * bytes);
  m_Status : bytes }.

Record Action : Type := { a_Action : bytes; a_Params : Params }.

Record Connection : Type := { c_Accept : option bool }.

Record Rule : Type := {
  r_Match : RuleMatch;
  r_Connection : option Connection;
  r_MITM : option bool;
  r_Request : list Action;
  r_Response : list Action }.

Record EgressRule : Type := {
  er_CIDR : bytes;
  er_Port : bytes;
  er_Proto : bytes;
  er_Action : bytes }.

(** [rf_Egress = None] is an absent "egress" key, [Some []] an empty list; the
    same goes for "http". *)
Record RuleFile : Type := {
  rf_UUID : bytes;
  rf_Auth : option AuthConfig;
  rf_HTTP : option (list Rule);
  rf_Egress : option (list EgressRule) }.

(** [Rule.mitm]: the default is true. *)
Definition rule_mitm (r : Rule) : bool := default true (r_MITM r).

(** [Match.hasMessageFields]. *)
Definition hasMessageFields (m : RuleMatch) : bool :=
  negb (bool_decide (m_Path m = []))
  || negb (bool_decide (m_Method m = []))
  || (0 <? length (m_Header m))%nat.

(** The zero value of [Match], and a match on the host only. *)
Definition match_any : RuleMatch :=
  {| m_Host := []; m_Port := []; m_Proto := []; m_Path := []; m_Method := [];
     m_Header := []; m_Status := [] |}.

Definition match_host (h : bytes) : RuleMatch :=
  {| m_Host := h; m_Port := []; m_Proto := []; m_Path := []; m_Method := [];
     m_Header := []; m_Status := [] |}.

(** Ranging over a nil slice is ranging over an empty one. *)
Definition rf_rules (rf : RuleFile) : list Rule := default [] (rf_HTTP rf).
