(* ===== verification/JsonRoundtrip.v ===== *)
(** * Decoding what the encoder prints

    [scanVal] reads back every value [json_print] writes, up to the two things
    JSON text cannot carry: strings must be valid UTF-8 (as every decoded
    string is) and numbers in normal form. *)

From S2P Require Import Prelude GoStrings Json.

Open Scope Z_scope.

(** ** Strings *)

(** Valid UTF-8, rune by rune. *)
Inductive utf8_valid : bytes -> Prop :=
  | utf8_nil : utf8_valid []
  | utf8_rune s r n :
      s <> [] -> DecodeRune s = (r, n) -> ~ (r = RuneError /\ n = 1%nat) ->
      utf8_valid (drop n s) -> utf8_valid s.

(** Pure ASCII is valid. *)
Lemma utf8_ascii s : Forall (fun c => is_ascii c = true) s -> utf8_valid s.
Proof.
  induction 1 as [|c s Hc _ IH]; [constructor|]. unfold is_ascii in Hc. apply Z.ltb_lt in Hc.
  apply (utf8_rune (c :: s) (byte_val c) 1); [done| | |done].
  - simpl. by destruct (Z.ltb_spec (byte_val c) 0x80); [|lia].
  - intros [Hr _]. unfold RuneError in Hr. lia.
Qed.

Lemma scanStr_byte c X :
  is_ascii c = true -> scanStr (json_byte c ++ X) = prepend [c] (scanStr X).
Proof.
  destruct c as [[] [] [] [] [] [] [] []]; intros H; try discriminate H; reflexivity.
Qed.

Lemma utf8_lead_spec b size lo hi :
  utf8_lead b = (size, lo, hi) ->
  size = 1 \/ (size = 2 /\ 0xC2 <= b < 0xE0)
  \/ (size = 3 /\ 0xE0 <= b < 0xF0 /\ 0x80 <= lo /\ hi <= 0xBF)
  \/ (size = 4 /\ 0xF0 <= b <= 0xF4 /\ 0x80 <= lo /\ hi <= 0xBF /\ (b = 0xF0 -> lo = 0x90)).
Proof. unfold utf8_lead. repeat case_match; intros [= <- <- <-]; lia. Qed.

(** The low bits of a byte of a multi-byte rune. *)
Lemma land_low b k base : 0 <= k -> base mod 2 ^ k = 0 -> base <= b < base + 2 ^ k ->
  Z.land b (2 ^ k - 1) = b - base.
Proof.
  intros Hk Hbase Hb. replace (2 ^ k - 1) with (Z.ones k) by (rewrite Z.ones_equiv; lia).
  rewrite Z.land_ones by done.
  assert (0 < 2 ^ k) by (apply Z.pow_pos_nonneg; lia).
  apply Z.mod_divide in Hbase as [q ->]; [|lia].
  replace b with ((b - q * 2 ^ k) + q * 2 ^ k) at 1 by lia.
  rewrite Z.mod_add by lia. apply Z.mod_small. lia.
Qed.

(** The shape of a successfully decoded rune. *)
Lemma DecodeRune_shape s r n :
  s <> [] -> DecodeRune s = (r, n) -> ~ (r = RuneError /\ n = 1%nat) ->
  match n with
  | 1%nat => exists c t, s = c :: t /\ is_ascii c = true
  | 2%nat => exists c c1 t, s = c :: c1 :: t /\ is_ascii c = false
      /\ (forall X, DecodeRune (c :: c1 :: X) = (r, 2%nat)) /\ r < 0x800
  | 3%nat => exists c c1 c2 t, s = c :: c1 :: c2 :: t /\ is_ascii c = false
      /\ (forall X, DecodeRune (c :: c1 :: c2 :: X) = (r, 3%nat))
      /\ [c; c1; c2] = [byte_of (0xE0 + r / 4096); byte_of (0x80 + (r / 64) mod 64); byte_of (0x80 + r mod 64)]
  | 4%nat => exists c c1 c2 c3 t, s = c :: c1 :: c2 :: c3 :: t /\ is_ascii c = false
      /\ (forall X, DecodeRune (c :: c1 :: c2 :: c3 :: X) = (r, 4%nat)) /\ 0x10000 <= r
  | _ => False
  end.
Proof.
  intros Hs H Hne. destruct s as [|c s1]; [done|]. unfold DecodeRune in H.
  destruct (byte_val c <? 128) eqn:E0; [simplify_eq; exists c, s1; done|].
  destruct (utf8_lead (byte_val c)) as [[size lo] hi] eqn:El.
  pose proof (utf8_lead_spec _ _ _ _ El) as Hlead.
  destruct s1 as [|c1 s2]; [by simplify_eq; destruct Hne|].
  destruct ((size =? 1) || negb (cont lo hi c1)) eqn:E1; [by simplify_eq; destruct Hne|].
  pose proof E1 as E1'. apply orb_false_iff in E1' as [Es1 Hc1]. apply Z.eqb_neq in Es1.
  apply negb_false_iff in Hc1. unfold cont in Hc1.
  destruct (size =? 2) eqn:E2.
  { apply Z.eqb_eq in E2 as Hs2. simplify_eq. exists c, c1, s2. split_and!; [done|done| |].
    - intros X. unfold DecodeRune. by rewrite E0, El, E1.
    - rewrite (land_low _ 5 0xC0) by (done || lia).
      pose proof (Z.land_ones (byte_val c1) 6 ltac:(lia)) as Hl. change (Z.ones 6) with 63 in Hl.
      rewrite Hl. pose proof (Z.mod_pos_bound (byte_val c1) (2 ^ 6)). lia. }
  apply Z.eqb_neq in E2 as Hs2.
  destruct s2 as [|c2 s3]; [by simplify_eq; destruct Hne|].
  destruct (negb (cont 128 191 c2)) eqn:E3; [by simplify_eq; destruct Hne|].
  pose proof E3 as Hc2. apply negb_false_iff in Hc2. unfold cont in Hc2.
  destruct (size =? 3) eqn:E4.
  { apply Z.eqb_eq in E4 as Hs3. simplify_eq. exists c, c1, c2, s3. split_and!; [done|done| |].
    - intros X. unfold DecodeRune. by rewrite E0, El, E1, E2, E3, E4.
    - rewrite (land_low _ 4 0xE0), !(land_low _ 6 0x80) by (done || lia).
      set (x := byte_val c) in *. set (y := byte_val c1) in *. set (z := byte_val c2) in *.
      set (r := (x - 224) * 4096 + (y - 128) * 64 + (z - 128)).
      assert (r / 4096 = x - 224) as -> by (symmetry; apply (Z.div_unique _ _ _ ((y - 128) * 64 + (z - 128))); lia).
      assert (r / 64 = (x - 224) * 64 + (y - 128)) as -> by (symmetry; apply (Z.div_unique _ _ _ (z - 128)); lia).
      rewrite (Z.add_comm _ (y - 128)), Z.mod_add, Z.mod_small by lia.
      assert (r mod 64 = z - 128) as -> by (symmetry; apply (Z.mod_unique _ _ ((x - 224) * 64 + (y - 128))); lia).
      subst x y z.
      replace (224 + (byte_val c - 224)) with (byte_val c) by lia.
      replace (128 + (byte_val c1 - 128)) with (byte_val c1) by lia.
      replace (128 + (byte_val c2 - 128)) with (byte_val c2) by lia.
      by rewrite !byte_of_val. }
  apply Z.eqb_neq in E4 as Hs3.
  destruct s3 as [|c3 s4]; [by simplify_eq; destruct Hne|].
  destruct (negb (cont 128 191 c3)) eqn:E5; [by simplify_eq; destruct Hne|].
  pose proof E5 as Hc3. apply negb_false_iff in Hc3. unfold cont in Hc3.
  simplify_eq. exists c, c1, c2, c3, s4. split_and!; [done|done| |].
  - intros X. unfold DecodeRune. by rewrite E0, El, E1, E2, E3, E4, E5.
  - assert (size = 4) as Hs4 by lia.
    rewrite (land_low _ 3 0xF0), !(land_low _ 6 0x80) by (done || lia). lia.
Qed.

Lemma prepend_ok p s t : prepend p (Ok (s, t)) = Ok ((p ++ s)%list, t).
Proof. done. Qed.

(** A multi-byte rune passes through the scanner unchanged. *)
Lemma scanStr_multi c t n X :
  is_ascii c = false -> snd (DecodeRune (c :: t)) = n ->
  match n, t with
  | 2%nat, c1 :: t1 => t1 = X -> scanStr (c :: t) = prepend [c; c1] (scanStr X)
  | 3%nat, c1 :: c2 :: t2 => t2 = X -> scanStr (c :: t) = prepend [c; c1; c2] (scanStr X)
  | 4%nat, c1 :: c2 :: c3 :: t3 => t3 = X -> scanStr (c :: t) = prepend [c; c1; c2; c3] (scanStr X)
  | _, _ => True
  end.
Proof.
  intros Ha Hn.
  assert (scanStr (c :: t) = match snd (DecodeRune (c :: t)), t with
        | 2%nat, c1 :: t1 => prepend [c; c1] (scanStr t1)
        | 3%nat, c1 :: c2 :: t2 => prepend [c; c1; c2] (scanStr t2)
        | 4%nat, c1 :: c2 :: c3 :: t3 => prepend [c; c1; c2; c3] (scanStr t3)
        | _, _ => prepend (EncodeRune RuneError) (scanStr t)
        end) as Heq.
  { cbn [scanStr]. destruct (Ascii.eqb_spec c quote) as [->|]; [done|].
    destruct (Ascii.eqb_spec c "\") as [->|]; [done|].
    rewrite Ha. unfold is_ascii in Ha. by replace (byte_val c <? 32) with false by lia. }
  rewrite Heq, Hn. destruct n as [|[|[|[|[|n]]]]]; try done;
    destruct t as [|c1 [|c2 [|c3 t]]]; try done; by intros ->.
Qed.

Lemma scanStr_json_string f s rest :
  utf8_valid s -> (length s <= f)%nat ->
  scanStr (json_string f s ++ quote :: rest) = Ok (s, rest).
Proof.
  intros Hs. revert f. induction Hs as [|s r n Hne Hd Hv _ IH]; intros f Hf.
  { by destruct f. }
  pose proof (DecodeRune_shape s r n Hne Hd Hv) as Hshape.
  assert (0 < length s)%nat as Hlen by (destruct s; [done|simpl; lia]).
  destruct f as [|f]; [lia|].
  destruct n as [|[|[|[|[|n]]]]]; [done|..|done].
  - destruct Hshape as (c & t & -> & Hc). cbn [json_string]. rewrite Hc, <- app_assoc.
    rewrite scanStr_byte by done. simpl in IH, Hf. rewrite drop_0 in IH.
    rewrite IH by lia. done.
  - destruct Hshape as (c & c1 & t & -> & Hc & HX & Hr). cbn [json_string]. rewrite Hc, Hd.
    simpl in IH, Hf. rewrite drop_0 in IH. cbn [take drop].
    rewrite andb_false_r. destruct (Z.eqb_spec r 0x2028); [lia|]. destruct (Z.eqb_spec r 0x2029); [lia|].
    cbn [app]. rewrite take_0, drop_0, app_nil_l, (scanStr_multi c (c1 :: (json_string f t ++ quote :: rest)) 2
      (json_string f t ++ quote :: rest)); [by rewrite IH by lia|done|by rewrite HX|done].
  - destruct Hshape as (c & c1 & c2 & t & -> & Hc & HX & Hb). cbn [json_string]. rewrite Hc, Hd.
    simpl in IH, Hf. rewrite drop_0 in IH. cbn [take drop]. rewrite andb_false_r.
    destruct (Z.eqb_spec r 0x2028) as [->|]; [|destruct (Z.eqb_spec r 0x2029) as [->|]].
    + simplify_eq/=. rewrite drop_0, IH by lia. done.
    + simplify_eq/=. rewrite drop_0, IH by lia. done.
    + cbn [app]. rewrite take_0, drop_0, app_nil_l, (scanStr_multi c (c1 :: c2 :: (json_string f t ++ quote :: rest)) 3
        (json_string f t ++ quote :: rest)); [by rewrite IH by lia|done|by rewrite HX|done].
  - destruct Hshape as (c & c1 & c2 & c3 & t & -> & Hc & HX & Hr). cbn [json_string]. rewrite Hc, Hd.
    simpl in IH, Hf. rewrite drop_0 in IH. cbn [take drop]. rewrite andb_false_r.
    destruct (Z.eqb_spec r 0x2028); [lia|]. destruct (Z.eqb_spec r 0x2029); [lia|].
    cbn [app]. rewrite take_0, drop_0, app_nil_l, (scanStr_multi c (c1 :: c2 :: c3 :: (json_string f t ++ quote :: rest)) 4
      (json_string f t ++ quote :: rest)); [by rewrite IH by lia|done|by rewrite HX|done].
Qed.

(** ** Numbers *)

(** What may follow a number. *)
Definition num_stops (rest : bytes) : Prop :=
  match rest with
  | c :: _ => is_digit c = false /\ c <> "."%char /\ c <> "e"%char /\ c <> "E"%char
  | [] => True
  end.

Lemma span_digits_app d rest :
  forallb is_digit d = true -> match rest with c :: _ => is_digit c = false | [] => True end ->
  span_digits (d ++ rest) = (d, rest).
Proof.
  intros Hd Hr. induction d as [|c d IH]; simpl in *.
  - destruct rest; simpl; [done|]. by rewrite Hr.
  - apply andb_true_iff in Hd as [Hc Hd]. by rewrite Hc, IH.
Qed.

(** The text of a number from its parts: integer digits, fraction digits (none
    when empty), and a signed exponent. *)
Definition num_text (neg : bool) (ip fp : bytes) (ex : option (bool * bytes)) : bytes :=
  ((if neg then str "-" else []) ++ ip
   ++ (if bool_decide (fp = []) then [] else "."%char :: fp)
   ++ match ex with
      | Some (eneg, x) => "e"%char :: (if eneg : bool then "-"%char else "+"%char) :: x
      | None => []
      end)%list.

Definition ip_ok (ip : bytes) : Prop :=
  forallb is_digit ip = true
  /\ match ip with [] => False | c :: _ :: _ => c <> "0"%char | _ => True end.

Lemma digit_facts c : is_digit c = true ->
  Ascii.eqb c "-" = false /\ Ascii.eqb c "." = false /\ Ascii.eqb c "e" = false /\ Ascii.eqb c "E" = false.
Proof.
  destruct c as [[] [] [] [] [] [] [] []]; intros H; try discriminate H; done.
Qed.

Lemma scanNum_text neg ip fp ex rest :
  ip_ok ip -> forallb is_digit fp = true ->
  match ex with Some (_, x) => forallb is_digit x = true /\ x <> [] | None => True end ->
  num_stops rest ->
  scanNum (num_text neg ip fp ex ++ rest)
  = let e0 := match ex with Some (eneg, x) => if eneg : bool then - dec_val x else dec_val x | None => 0 end in
    let '(m, e) := norm_num (length (ip ++ fp)) (dec_val (ip ++ fp)) (e0 - Z.of_nat (length fp)) in
    Ok (ANum (if neg : bool then - m else m) e, rest).
Proof.
  intros [Hip Hlead] Hfp Hex Hrest. unfold num_text, scanNum. rewrite <- !app_assoc.
  set (tail := (match ex with Some _ => _ | None => _ end ++ rest)%list).
  set (ftail := ((if bool_decide (fp = []) then [] else "."%char :: fp) ++ tail)%list).
  assert (match tail with c :: _ => is_digit c = false /\ c <> "."%char | [] => True end) as Htail.
  { subst tail. destruct ex as [[eneg x]|]; [done|]. destruct rest; [done|]. simpl in *. tauto. }
  assert (match ftail with c :: _ => is_digit c = false | [] => True end) as Hftail.
  { subst ftail. case_bool_decide; [|done]. simpl. destruct tail; [done|]. tauto. }
  assert ((match ((if neg then str "-" else []) ++ ip ++ ftail)%list with
           | c :: t => if Ascii.eqb c "-" then (true, t) else (false, (c :: t))
           | [] => (false, []) end) = (neg, (ip ++ ftail)%list)) as Hneg.
  { destruct neg; [done|]. destruct ip as [|c ip]; [done|]. simpl in *.
    apply andb_true_iff in Hip as [Hc _]. destruct (digit_facts c Hc) as (-> & _). done. }
  match goal with |- (let '(n, s) := ?x in _) = _ =>
    replace x with (neg, (ip ++ ftail)%list) by (rewrite <- Hneg; by destruct (_ ++ ip ++ ftail)%list) end.
  rewrite span_digits_app by done.
  assert ((match ip with [] => true | c :: _ :: _ => Ascii.eqb c "0" | _ => false end) = false) as ->.
  { destruct ip as [|c [|d ip]]; [done|done|]. by apply Ascii.eqb_neq. }
  match goal with |- mbind _ ?x = _ => assert (x = Ok (fp, tail)) as -> end.
  { subst ftail. case_bool_decide as Hfe.
    - subst fp. simpl. destruct tail as [|c t]; [done|]. destruct Htail as [_ Hdot].
      by destruct (Ascii.eqb_spec c ".").
    - simpl. rewrite span_digits_app by (done || (destruct tail; tauto)).
      by rewrite bool_decide_false. }
  simpl. match goal with |- mbind _ ?scr = _ =>
    assert (scr = Ok (match ex with Some (eneg, ds) => if eneg : bool then - dec_val ds else dec_val ds
                      | None => 0 end, rest)) as -> end.
  { subst tail. destruct ex as [[eneg x]|].
    - destruct Hex as [Hx Hxne]. simpl.
      assert (match rest with c :: _ => is_digit c = false | [] => True end) by (destruct rest; simpl in *; tauto).
      destruct eneg; simpl; rewrite span_digits_app by done; by rewrite bool_decide_false.
    - simpl. destruct rest as [|c t]; [done|]. simpl in Hrest. destruct Hrest as (_ & _ & He & HE).
      destruct (Ascii.eqb_spec c "e"); [done|]. by destruct (Ascii.eqb_spec c "E"). }
  done.
Qed.

(** *** Digits and values *)

Lemma dec_val_foldl k d : foldl (fun n c => n * 10 + (byte_val c - 48)) k d
  = k * 10 ^ Z.of_nat (length d) + dec_val d.
Proof.
  unfold dec_val. revert k. induction d as [|c d IH]; intros k; [simpl; lia|].
  cbn [foldl length]. rewrite IH, (IH (0 * 10 + _)), Nat2Z.inj_succ, Z.pow_succ_r by lia. lia.
Qed.

Lemma dec_val_app a b : dec_val (a ++ b) = dec_val a * 10 ^ Z.of_nat (length b) + dec_val b.
Proof. unfold dec_val at 1. rewrite foldl_app. apply dec_val_foldl. Qed.

Lemma dec_val_zeros k : dec_val (replicate k "0"%char) = 0.
Proof.
  induction k as [|k IH]; [done|]. change (replicate (S k) "0"%char) with (["0"%char] ++ replicate k "0"%char)%list.
  rewrite dec_val_app, IH. done.
Qed.

Lemma ParseUint_loop_val m k s v : ParseUint_loop m k s = Ok v ->
  v = foldl (fun n c => n * 10 + (byte_val c - 48)) k s.
Proof.
  revert k. induction s as [|c s IH]; intros k H; simpl in H; [by inv_ok|].
  destruct (is_digit c); [|done]. destruct (_ <? _); [done|]. by apply IH.
Qed.

Lemma dec_val_Itoa n : 0 <= n < 10 ^ 64 -> dec_val (Itoa n) = n.
Proof.
  intros Hn. unfold Itoa. destruct (Z.ltb_spec n 0); [lia|].
  destruct (ParseUint_loop_digits n 64 n [] 0) as (w & _ & Hstep); [simpl; lia|lia|lia|].
  specialize (Hstep ltac:(lia)). simpl in Hstep. apply ParseUint_loop_val in Hstep.
  unfold dec_val. lia.
Qed.

(** The leading digit of a positive number is not zero. *)
Lemma digits_lead fuel n acc :
  0 < n < 10 ^ Z.of_nat fuel -> exists c t, digits 10 dec_digit fuel n acc = c :: t /\ c <> "0"%char.
Proof.
  revert n acc. induction fuel as [|f IH]; intros n acc Hn; [simpl in Hn; lia|].
  rewrite digits_S. destruct (Z.ltb_spec n 10).
  - eexists _, _. split; [reflexivity|]. rewrite Z.mod_small by lia. intros Hz.
    apply (f_equal byte_val) in Hz. rewrite dec_digit_val in Hz by lia.
    change (byte_val "0") with 48 in Hz. lia.
  - apply IH. rewrite Nat2Z.inj_succ, Z.pow_succ_r in Hn by lia.
    pose proof (Z.div_mod n 10). pose proof (Z.mod_pos_bound n 10). lia.
Qed.

Lemma Itoa_ip_ok n : 0 < n < 10 ^ 64 -> ip_ok (Itoa n).
Proof.
  intros Hn. split; [apply Itoa_digits; lia|]. unfold Itoa. destruct (Z.ltb_spec n 0); [lia|].
  destruct (digits_lead 64 n [] ltac:(simpl; lia)) as (c & t & -> & Hc). by destruct t.
Qed.

Lemma norm_num_shift fuel m k e :
  m mod 10 <> 0 -> (k < fuel)%nat -> norm_num fuel (m * 10 ^ Z.of_nat k) e = (m, e + Z.of_nat k).
Proof.
  intros Hm. revert fuel e. induction k as [|k IH]; intros fuel e Hf.
  - destruct fuel as [|f]; [lia|]. simpl. rewrite Z.mul_1_r, Z.add_0_r.
    destruct (Z.eqb_spec m 0) as [->|]; [done|]. by destruct (Z.eqb_spec (m mod 10) 0).
  - destruct fuel as [|f]; [lia|]. cbn [norm_num].
    rewrite Nat2Z.inj_succ, Z.pow_succ_r by lia.
    assert (m <> 0) by (intros ->; done).
    assert (0 < 10 ^ Z.of_nat k) by (apply Z.pow_pos_nonneg; lia).
    destruct (Z.eqb_spec (m * (10 * 10 ^ Z.of_nat k)) 0); [nia|].
    replace (m * (10 * 10 ^ Z.of_nat k)) with (m * 10 ^ Z.of_nat k * 10) by lia.
    rewrite Z.mod_mul, Z.div_mul by lia. simpl. rewrite IH by lia. f_equal. lia.
Qed.

(** *** Printed numbers *)

(** Zero, or a significand without trailing zeros (float64 needs 17 digits and
    three exponent digits; the bounds are far beyond that). *)
Definition num_ok (m e : Z) : Prop :=
  (m = 0 /\ e = 0)
  \/ (Z.abs m mod 10 <> 0 /\ Z.abs m < 10 ^ 64 /\ -10 ^ 60 < e < 10 ^ 60).

Lemma ip_ok_zeros d k : ip_ok d -> d <> ["0"%char] -> ip_ok (d ++ replicate k "0"%char).
Proof.
  intros [Hd Hl] Hne. split.
  - rewrite forallb_app, Hd. by induction k.
  - destruct d as [|c [|c' d]]; [done| |done]. destruct k; [done|]. simpl.
    intros ->. done.
Qed.

Lemma ip_ok_take d k : ip_ok d -> (0 < k)%nat -> ip_ok (take k d).
Proof.
  intros [Hd Hl] Hk. destruct k as [|k]; [lia|]. split.
  - apply forallb_forall. intros c Hc. rewrite forallb_forall in Hd. apply Hd.
    apply list_elem_of_In in Hc. apply list_elem_of_In. by apply elem_of_take in Hc as (i & Hc & _); eapply list_elem_of_lookup_2.
  - destruct d as [|c [|c' d]]; [done|simpl; by destruct k|]. destruct k; simpl; done.
Qed.

Lemma forallb_drop {A} (P : A -> bool) k l : forallb P l = true -> forallb P (drop k l) = true.
Proof.
  revert k. induction l as [|x l IH]; intros [|k]; simpl; try done.
  intros [_ H]%andb_true_iff. auto.
Qed.

Lemma digits_length base dig fuel n acc :
  (length (digits base dig fuel n acc) <= fuel + length acc)%nat.
Proof.
  revert n acc. induction fuel as [|f IH]; intros n acc; [done|].
  rewrite digits_S. destruct (_ <? _); simpl; [lia|].
  pose proof (IH (n / base) (dig (n mod base) :: acc)) as Hl. simpl in Hl. lia.
Qed.

Lemma drop_nil_dec k (d : bytes) : bool_decide (drop k d = []) = (length d <=? k)%nat.
Proof.
  destruct (Nat.leb_spec (length d) k).
  - rewrite bool_decide_true; [done|]. by apply drop_ge.
  - rewrite bool_decide_false; [done|]. intros E. apply (f_equal length) in E.
    rewrite length_drop in E. simpl in E. lia.
Qed.

(** What [Itoa] gives for the significand of a nonzero number. *)
Lemma num_ok_digits m e : num_ok m e -> m <> 0 -> let d := Itoa (Z.abs m) in
  ip_ok d /\ dec_val d = Z.abs m /\ (0 < length d <= 64)%nat /\ d <> ["0"%char]
  /\ (forall fuel k : nat, (k < fuel)%nat ->
       norm_num fuel (Z.abs m * 10 ^ Z.of_nat k) (e - Z.of_nat k) = (Z.abs m, e)).
Proof.
  intros [[? _]|(Hmod & Habs & He)] Hm d; [done|].
  assert (ip_ok d) as Hd by (apply Itoa_ip_ok; lia).
  assert (dec_val d = Z.abs m) as Hv by (apply dec_val_Itoa; lia).
  split_and!; [done|done| | | |].
  - destruct Hd as [_ Hl]. destruct d; [done|simpl; lia].
  - unfold d, Itoa. destruct (Z.ltb_spec (Z.abs m) 0); [lia|].
    pose proof (digits_length 10 dec_digit 64 (Z.abs m) []). simpl in *. lia.
  - intros E. rewrite E in Hv. change (0 = Z.abs m) in Hv. lia.
  - intros fuel k Hk. rewrite norm_num_shift by done. f_equal. lia.
Qed.

(** The sign and three parts a printed number is read back from, and that
    they denote it. *)
Definition num_parts (m e : Z) (ip fp : bytes) (ex : option (bool * bytes)) : Prop :=
  json_number m e = num_text (m <? 0) ip fp ex
  /\ ip_ok ip /\ forallb is_digit fp = true
  /\ match ex with Some (_, x) => forallb is_digit x = true /\ x <> [] | None => True end
  /\ norm_num (length (ip ++ fp)) (dec_val (ip ++ fp))
       (match ex with Some (eneg, x) => if eneg : bool then - dec_val x else dec_val x | None => 0 end
        - Z.of_nat (length fp)) = (Z.abs m, e).

Lemma json_number_plain m e : num_ok m e -> m <> 0 ->
  let p := Z.of_nat (length (Itoa (Z.abs m))) + e in
  (-5 <=? p) && (p <=? 21) = true -> exists ip fp, num_parts m e ip fp None.
Proof.
  intros Hok Hm p Ep. destruct (num_ok_digits m e Hok Hm) as (Hd & Hv & Hn & Hd0 & Hnorm).
  unfold num_parts, json_number. fold p. rewrite Ep. destruct (Z.eqb_spec m 0); [done|].
  set (d := Itoa (Z.abs m)) in *. destruct (Z.leb_spec 0 e) as [He0|He0].
  - exists (d ++ replicate (Z.to_nat e) "0"%char)%list, []. unfold num_text.
    rewrite !app_nil_r. split_and!; [done|by apply ip_ok_zeros|done|done|].
    rewrite dec_val_app, dec_val_zeros, length_replicate, length_app, length_replicate, Hv, Z.add_0_r.
    rewrite <- (Hnorm (length d + Z.to_nat e)%nat (Z.to_nat e)) by lia. f_equal. simpl. lia.
  - specialize (fun fuel => Hnorm fuel 0%nat). simpl Z.of_nat in Hnorm.
    rewrite Z.mul_1_r, Z.sub_0_r in Hnorm. destruct (Z.ltb_spec 0 p) as [Hp|Hp].
    + exists (take (Z.to_nat p) d), (drop (Z.to_nat p) d). unfold num_text.
      rewrite drop_nil_dec. destruct (Nat.leb_spec (length d) (Z.to_nat p)); [lia|].
      rewrite take_drop, Hv, length_drop.
      split_and!; [by rewrite app_nil_r|apply ip_ok_take; [done|lia]|apply forallb_drop, Hd|done|].
      rewrite <- (Hnorm (length d)) by lia. f_equal. lia.
    + exists (str "0"), (replicate (Z.to_nat (- p)) "0"%char ++ d)%list. unfold num_text.
      rewrite bool_decide_false.
      2:{ intros E. apply (f_equal length) in E. rewrite length_app in E. simpl in E. lia. }
      split_and!; [by rewrite app_nil_r|done| |done|].
      { rewrite forallb_app. destruct Hd as [-> _]. by induction (Z.to_nat (- p)). }
      rewrite dec_val_app, dec_val_app, dec_val_zeros, !length_app, length_replicate, Hv.
      change (dec_val (str "0")) with 0. rewrite !Z.mul_0_l, !Z.add_0_l.
      rewrite <- (Hnorm (length (str "0") + (Z.to_nat (- p) + length d))%nat) by lia. f_equal. lia.
Qed.

Lemma json_number_exp m e : num_ok m e -> m <> 0 ->
  let p := Z.of_nat (length (Itoa (Z.abs m))) + e in
  (-5 <=? p) && (p <=? 21) = false -> exists ip fp ex, num_parts m e ip fp (Some ex).
Proof.
  intros Hok Hm p Ep. destruct (num_ok_digits m e Hok Hm) as (Hd & Hv & Hn & Hd0 & Hnorm).
  destruct Hok as [[? _]|(_ & _ & He)]; [done|].
  unfold num_parts, json_number. fold p. rewrite Ep. destruct (Z.eqb_spec m 0); [done|].
  set (d := Itoa (Z.abs m)) in *.
  exists (take 1 d), (drop 1 d), (p - 1 <? 0, Itoa (Z.abs (p - 1))).
  rewrite take_drop, Hv, length_drop, dec_val_Itoa by lia. split_and!.
  - unfold num_text. rewrite drop_nil_dec. do 3 f_equal.
    + by destruct (Nat.leb_spec (length d) 1), (Nat.ltb_spec 1 (length d)); try lia.
    + destruct (Z.ltb_spec (p - 1) 0), (Z.leb_spec 0 (p - 1)); try lia.
      * by replace (Z.abs (p - 1)) with (1 - p) by lia.
      * destruct (Z.ltb_spec (p - 1) 10); [lia|]. by replace (Z.abs (p - 1)) with (p - 1) by lia.
  - apply ip_ok_take; [done|lia].
  - apply forallb_drop, Hd.
  - apply Itoa_digits. lia.
  - unfold Itoa. destruct (_ <? 0); [done|]. apply digits_ne. lia.
  - rewrite <- (Hnorm (length d) 0%nat) by lia. rewrite Z.mul_1_r. f_equal.
    destruct (Z.ltb_spec (p - 1) 0); lia.
Qed.

Lemma scanNum_json_number m e rest :
  num_ok m e -> num_stops rest -> scanNum (json_number m e ++ rest) = Ok (ANum m e, rest).
Proof.
  intros Hok Hrest. destruct (Z.eq_dec m 0) as [->|Hm].
  - assert (e = 0) as -> by (destruct Hok as [[_ ->]|[H _]]; [done|by destruct H]).
    change (json_number 0 0) with (num_text false (str "0") [] None).
    rewrite scanNum_text by done. done.
  - assert (exists ip fp ex, num_parts m e ip fp ex) as (ip & fp & ex & Ht & Hip & Hfp & Hex & Hv).
    { destruct ((-5 <=? Z.of_nat (length (Itoa (Z.abs m))) + e)
                && (Z.of_nat (length (Itoa (Z.abs m))) + e <=? 21)) eqn:Ep.
      - destruct (json_number_plain m e Hok Hm Ep) as (ip & fp & H). by exists ip, fp, None.
      - destruct (json_number_exp m e Hok Hm Ep) as (ip & fp & ex & H). by exists ip, fp, (Some ex). }
    rewrite Ht, scanNum_text by done. cbv zeta. rewrite Hv.
    destruct (Z.ltb_spec m 0); do 3 f_equal; lia.
Qed.

(** ** Values *)

(** What the printer reproduces exactly: strings in UTF-8 (the encoder replaces
    anything else) and numbers in normal form. *)
Inductive any_ok : any -> Prop :=
  | ok_null : any_ok ANull
  | ok_bool b : any_ok (ABool b)
  | ok_num m e : num_ok m e -> any_ok (ANum m e)
  | ok_str s : utf8_valid s -> any_ok (AStr s)
  | ok_arr l : Forall any_ok l -> any_ok (AArr l)
  | ok_obj l : Forall (fun kv => utf8_valid (fst kv) /\ any_ok (snd kv)) l -> any_ok (AObj l).

(** The fuel reading a value takes. *)
Fixpoint cost (v : any) : nat :=
  match v with
  | AArr l => S (sum_list (map (fun x => S (cost x)) l))
  | AObj l => S (sum_list (map (fun kv => S (cost (snd kv))) l))
  | _ => 1
  end.

Lemma json_number_head m e : num_ok m e ->
  exists c t, json_number m e = c :: t /\ (c = "-"%char \/ is_digit c = true).
Proof.
  intros Hok. destruct (Z.eq_dec m 0) as [->|Hm]; [by eexists _, _; split; [reflexivity|right]|].
  destruct (num_ok_digits m e Hok Hm) as ([Hd Hl] & _ & Hn & _).
  unfold json_number. destruct (Z.eqb_spec m 0); [done|]. destruct (m <? 0); [by eexists _, _; split; [|left]|].
  destruct (Itoa (Z.abs m)) as [|c d] eqn:E; [simpl in Hn; lia|].
  simpl in Hd. apply andb_true_iff in Hd as [Hc _].
  destruct (_ && _); [destruct (0 <=? e); [by eexists _, _; eauto|destruct (Z.ltb_spec 0 (Z.of_nat (length (c :: d)) + e))]|].
  - destruct (Z.to_nat _) eqn:Ez; [lia|]. eexists _, _. split; [reflexivity|eauto].
  - eexists _, _. split; [reflexivity|by right].
  - eexists _, _. split; [reflexivity|eauto].
Qed.

(** The first byte of a printed value. *)
Definition value_head (c : ascii) : bool :=
  negb (is_ws c) && negb (Ascii.eqb c "]").

Lemma json_print_head v : any_ok v -> exists c t, json_print v = c :: t /\ value_head c = true.
Proof.
  destruct 1 as [|[]|m e Hn|s|l|l]; try (by eexists _, _; split; reflexivity).
  destruct (json_number_head m e Hn) as (c & t & Hp & Hc). exists c, t. split; [exact Hp|].
  destruct Hc as [->|Hc]; [done|]. by destruct c as [[] [] [] [] [] [] [] []].
Qed.

Lemma skip_ws_head c t : is_ws c = false -> skip_ws (c :: t) = c :: t.
Proof. intros H. simpl. by rewrite H. Qed.

Lemma Join_cons_app sep (x : bytes) (l : list bytes) :
  Join sep (x :: l) = (x ++ match l with [] => [] | _ => sep ++ Join sep l end)%list.
Proof. destruct l; simpl; [by rewrite app_nil_r|done]. Qed.

(** [scanVal] reads [v] back from its printed form. *)
Definition reads (v : any) : Prop :=
  any_ok v -> forall f rest, (cost v <= f)%nat -> num_stops rest ->
  scanVal f (json_print v ++ rest) = Ok (v, rest).

Lemma scanStr_quote s rest : utf8_valid s ->
  scanStr (json_string (length s) s ++ [quote] ++ rest) = Ok (s, rest).
Proof. intros Hs. by apply scanStr_json_string. Qed.

Lemma scanElems_print x l f rest :
  reads x -> any_ok x -> Forall reads l -> Forall any_ok l ->
  (sum_list (map (fun x => S (cost x)) (x :: l)) <= f)%nat ->
  scanElems f (Join (str ",") (map json_print (x :: l)) ++ "]"%char :: rest) = Ok (x :: l, rest).
Proof.
  revert x f. induction l as [|y l IH]; intros x f Hx Hokx Hl Hokl Hf;
    (destruct f as [|f]; [simpl in Hf; lia|]); rewrite map_cons, Join_cons_app; cbn [map sum_list_with id] in Hf.
  - cbn [scanElems map]. rewrite app_nil_r. by rewrite Hx by (done || lia).
  - inversion_clear Hl. inversion_clear Hokl.
    rewrite <- app_assoc. cbn [scanElems map]. rewrite Hx by (done || lia).
    specialize (IH y f). cbn [map sum_list_with id] in IH. rewrite <- app_assoc.
    set (J := Join _ _) in *. simpl. rewrite IH by (done || lia). done.
Qed.

Lemma scanMembers_print (kv : bytes * any) l f rest :
  let ok := fun kv : bytes * any => utf8_valid (fst kv) /\ any_ok (snd kv) in
  let entry := fun kv : bytes * any => (json_quote (fst kv) ++ str ":" ++ json_print (snd kv))%list in
  reads (snd kv) -> ok kv -> Forall (fun kv => reads (snd kv)) l -> Forall ok l ->
  (sum_list (map (fun kv => S (cost (snd kv))) (kv :: l)) <= f)%nat ->
  scanMembers f (Join (str ",") (map entry (kv :: l)) ++ "}"%char :: rest) = Ok (kv :: l, rest).
Proof.
  intros ok entry. revert kv f. induction l as [|kv' l IH]; intros [k v] f Hx [Hk Hv] Hl Hokl Hf;
    (destruct f as [|f]; [simpl in Hf; lia|]); rewrite map_cons, Join_cons_app; cbn [map sum_list_with id fst snd] in *.
  - rewrite app_nil_r. unfold entry, json_quote. cbn [fst snd]. rewrite <- !app_comm_cons, <- !app_assoc.
    cbn [scanMembers]. change (skip_ws (quote :: ?t)) with (quote :: t). cbv iota.
    rewrite scanStr_quote by done. simpl. by rewrite Hx by (done || lia).
  - unfold entry at 1, json_quote. cbn [fst snd]. rewrite <- !app_comm_cons, <- !app_assoc.
    cbn [scanMembers]. change (skip_ws (quote :: ?t)) with (quote :: t). cbv iota.
    inversion_clear Hl. inversion_clear Hokl. specialize (IH kv' f).
    cbn [map sum_list_with id fst snd] in IH. set (J := Join _ _) in *.
    rewrite scanStr_quote by done. simpl. rewrite Hx by (done || lia). simpl.
    rewrite IH by (done || lia). done.
Qed.

Lemma head_not_ws c : value_head c = true -> is_ws c = false /\ Ascii.eqb c "]" = false.
Proof. unfold value_head. destruct (is_ws c), (Ascii.eqb c "]"); done. Qed.

Lemma scanVal_json_print v : reads v.
Proof.
  induction v as [|b|m e|s|l Hl|l Hl] using any_ind'; intros Hok f rest Hf Hrest;
    (destruct f as [|f]; [simpl in Hf; lia|]); inversion_clear Hok.
  - done.
  - by destruct b.
  - destruct (json_number_head m e) as (c & t & Hc & Hd); [done|].
    pose proof (scanNum_json_number m e rest ltac:(done) Hrest) as Hn.
    cbn [json_print]. rewrite Hc in *. rewrite <- app_comm_cons in *. cbn [scanVal].
    assert (is_ws c = false) by (destruct Hd as [->|Hd]; [done|by destruct c as [[] [] [] [] [] [] [] []]]).
    rewrite skip_ws_head by done. rewrite Hn.
    destruct Hd as [->|Hd]; [done|]. by destruct c as [[] [] [] [] [] [] [] []].
  - cbn [json_print]. unfold json_quote. rewrite <- app_comm_cons, <- app_assoc.
    cbn [scanVal]. change (skip_ws (quote :: ?t)) with (quote :: t). cbv iota.
    by rewrite scanStr_quote.
  - destruct l as [|x l]; [done|]. cbn [json_print cost] in *. inversion_clear Hl.
    inversion_clear H. destruct (json_print_head x) as (c & t & Hc & Hh); [done|].
    apply head_not_ws in Hh as [Hw Hb].
    pose proof (scanElems_print x l f rest ltac:(done) ltac:(done) ltac:(done) ltac:(done) ltac:(lia)) as He.
    rewrite map_cons, Join_cons_app, Hc in *. set (J := match map json_print l with [] => _ | _ => _ end) in *.
    rewrite <- !app_assoc in *. simpl in He. simpl. rewrite Hw, Hb, He. done.
  - destruct l as [|x l]; [done|]. cbn [json_print cost] in *. inversion_clear Hl.
    inversion_clear H.
    pose proof (scanMembers_print x l f rest ltac:(done) ltac:(done) ltac:(done) ltac:(done) ltac:(lia)) as He.
    cbv zeta in He. rewrite map_cons, Join_cons_app in *. set (J := match map _ l with [] => _ | _ => _ end) in *.
    unfold json_quote at 1. unfold json_quote at 1 in He.
    rewrite <- !app_assoc in *. cbn [scanVal str app].
    simpl in He. simpl. rewrite He. done.
Qed.

(** One unit of fuel per printed byte is enough. *)
Lemma sum_cost_Join {A} (pr : A -> bytes) (c : A -> nat) l :
  Forall (fun x => (c x <= length (pr x))%nat) l ->
  (sum_list (map (fun x => S (c x)) l) <= S (length (Join (str ",") (map pr l))))%nat.
Proof.
  induction 1 as [|x l Hx Hl IH]; [simpl; lia|].
  rewrite map_cons, map_cons, Join_cons_app, length_app. destruct l as [|y l].
  - simpl. lia.
  - cbn [map sum_list_with id] in *. set (J := Join _ _) in *. rewrite length_app. simpl. lia.
Qed.

Lemma cost_length v : any_ok v -> (cost v <= length (json_print v))%nat.
Proof.
  induction v as [|b|m e|s|l Hl|l Hl] using any_ind'; intros Hok; inversion_clear Hok.
  - simpl. lia.
  - destruct b; simpl; lia.
  - destruct (json_number_head m e) as (c & t & Hc & _); [done|]. simpl. rewrite Hc. simpl. lia.
  - simpl. lia.
  - assert (Forall (fun x => (cost x <= length (json_print x))%nat) l) as Hc.
    { apply Forall_forall. intros x Hx. rewrite Forall_forall in Hl, H. by apply Hl, H. }
    apply sum_cost_Join in Hc. cbn [cost json_print]. rewrite !length_app.
    change (length (str "[")) with 1%nat. change (length (str "]")) with 1%nat. lia.
  - assert (Forall (fun kv : bytes * any =>
        (cost (snd kv) <= length (json_quote (fst kv) ++ str ":" ++ json_print (snd kv)))%nat) l) as Hc.
    { apply Forall_forall. intros [k x] Hx. rewrite Forall_forall in Hl, H.
      specialize (Hl _ Hx ltac:(by apply H)). simpl in *. rewrite length_app. simpl. lia. }
    apply (sum_cost_Join (fun kv => json_quote (fst kv) ++ str ":" ++ json_print (snd kv))%list
             (fun kv => cost (snd kv))) in Hc.
    cbn [cost json_print]. rewrite !length_app.
    change (length (str "{")) with 1%nat. change (length (str "}")) with 1%nat. lia.
Qed.

Lemma decodeFirst_json_print v rest : any_ok v -> num_stops rest ->
  decodeFirst (json_print v ++ rest) = Ok (v, rest).
Proof.
  intros Hok Hr. apply scanVal_json_print; [done| |done].
  pose proof (cost_length v Hok). rewrite length_app. lia.
Qed.

Lemma Unmarshal_json_print v : any_ok v -> Unmarshal_any (json_print v) = Ok v.
Proof.
  intros Hok. unfold Unmarshal_any. pose proof (decodeFirst_json_print v [] Hok I) as H.
  rewrite app_nil_r in H. by rewrite H.
Qed.
