(* ===== verification/JsonRules.v ===== *)
(** * Rule files as JSON (the struct tags of internal/rules/schema.go)

    How [encoding/json] decodes a value into the structs of [Schema] and encodes
    them back: field names match without regard to case, [null] leaves a value
    field alone and clears a pointer, slice or map, [omitempty] drops a zero
    field, a repeated member decodes over the previous one, and
    [DisallowUnknownFields] rejects a member that names no field.  A type
    mismatch is an error of the whole decode, so its message stands for all. *)

From S2P Require Import Prelude GoStrings Json JsonRoundtrip Encoding Schema.

Open Scope Z_scope.

(** ** Go maps

    A map decoded from an object is kept sorted by key. *)
Fixpoint map_put {V} (k : bytes) (v : V) (m : list (bytes * V)) : list (bytes * V) :=
  match m with
  | [] => [(k, v)]
  | (k', v') :: t =>
      if bytes_ltb k k' then (k, v) :: m
      else if bool_decide (k = k') then (k, v) :: t
      else (k', v') :: map_put k v t
  end.

Definition map_puts {V} (m l : list (bytes * V)) : list (bytes * V) :=
  foldl (fun m kv => map_put (fst kv) (snd kv) m) m l.

(** The value the decoder stores in an interface. *)
Fixpoint go_value (v : any) : any :=
  match v with
  | AArr l => AArr (map go_value l)
  | AObj l => AObj (map_puts [] (map (fun kv => (fst kv, go_value (snd kv))) l))
  | _ => v
  end.

(** ** Decoders *)

(** A decoder writes a JSON value over a current one. *)
Abbreviation decoder A := (A -> any -> result A).

Definition mismatch {A} : result A := Error "json: cannot unmarshal value into Go struct field".

Definition d_string : decoder bytes := fun cur v =>
  match v with ANull => Ok cur | AStr s => Ok s | _ => mismatch end.

Definition d_bool : decoder bool := fun cur v =>
  match v with ANull => Ok cur | ABool b => Ok b | _ => mismatch end.

Definition d_ptr {A} (zero : A) (d : decoder A) : decoder (option A) := fun cur v =>
  match v with ANull => Ok None | _ => Some <$> d (default zero cur) v end.

(** Elements decode over the slice's present elements. *)
Fixpoint d_elems {A} (zero : A) (d : decoder A) (cur : list A) (l : list any) : result (list A) :=
  match l with
  | [] => Ok []
  | v :: t =>
      x ← d (default zero (head cur)) v;
      xs ← d_elems zero d (tail cur) t;
      Ok (x :: xs)
  end.

Definition d_slice {A} (zero : A) (d : decoder A) : decoder (option (list A)) := fun cur v =>
  match v with
  | ANull => Ok None
  | AArr l => Some <$> d_elems zero d (default [] cur) l
  | _ => mismatch
  end.

(** A slice whose nil-ness nothing looks at. *)
Definition d_list {A} (zero : A) (d : decoder A) : decoder (list A) := fun cur v =>
  default [] <$> d_slice zero d (Some cur) v.

(** [map[string]T]: each value decodes into a zero [T]. *)
Definition d_map {A} (zero : A) (d : decoder A) : decoder (list (bytes * A)) := fun cur v =>
  match v with
  | ANull => Ok []
  | AObj l => map_puts cur <$> mapM (fun kv => pair (fst kv) <$> d zero (snd kv)) l
  | _ => mismatch
  end.

Definition d_any : decoder any := fun _ v => Ok (go_value v).

(** *** Structs *)

(** [foldName], on what can equal a lower-case ASCII name: letter case, the
    long s (C5 BF) and the Kelvin sign (E2 84 AA). *)
Fixpoint fold_name (s : bytes) : bytes :=
  match s with
  | [] => []
  | c :: t =>
      let rest := fold_name t in
      match t with
      | d :: t' =>
          if (byte_val c =? 0xC5) && (byte_val d =? 0xBF) then "s"%char :: fold_name t'
          else match t' with
               | e :: t'' =>
                   if (byte_val c =? 0xE2) && (byte_val d =? 0x84) && (byte_val e =? 0xAA)
                   then "k"%char :: fold_name t''
                   else lower_byte c :: rest
               | [] => lower_byte c :: rest
               end
      | [] => lower_byte c :: rest
      end
  end.

Definition names_field (key name : bytes) : bool := bool_decide (fold_name key = name).

(** One field: every member that names it, in order. *)
Definition field {A} (name : bytes) (d : decoder A) (cur : A) (l : list (bytes * any)) : result A :=
  foldl (fun acc kv => cur ← acc; if names_field (fst kv) name then d cur (snd kv) else Ok cur) (Ok cur) l.

Definition d_struct {A} (strict : bool) (names : list bytes)
    (fields : A -> list (bytes * any) -> result A) : decoder A := fun cur v =>
  match v with
  | ANull => Ok cur
  | AObj l =>
      if strict && existsb (fun kv => negb (existsb (names_field (fst kv)) names)) l
      then Error "json: unknown field"
      else fields cur l
  | _ => mismatch
  end.

(** ** The structs of schema.go *)

Section Decode.
Variable strict : bool.

Definition zero_basic : BasicCredential := {| bc_User := []; bc_Hash := [] |}.
Definition decode_basic : decoder BasicCredential :=
  d_struct strict [str "user"; str "hash"] (fun cur l =>
    user ← field (str "user") d_string (bc_User cur) l;
    hash ← field (str "hash") d_string (bc_Hash cur) l;
    Ok {| bc_User := user; bc_Hash := hash |}).

Definition zero_bearer : BearerCredential := {| tc_ID := []; tc_Hash := [] |}.
Definition decode_bearer : decoder BearerCredential :=
  d_struct strict [str "id"; str "hash"] (fun cur l =>
    id ← field (str "id") d_string (tc_ID cur) l;
    hash ← field (str "hash") d_string (tc_Hash cur) l;
    Ok {| tc_ID := id; tc_Hash := hash |}).

Definition zero_broker : AuthBroker := {| ab_Socket := []; ab_URL := []; ab_Path := [] |}.
Definition decode_broker : decoder AuthBroker :=
  d_struct strict [str "socket"; str "url"; str "path"] (fun cur l =>
    socket ← field (str "socket") d_string (ab_Socket cur) l;
    url ← field (str "url") d_string (ab_URL cur) l;
    path ← field (str "path") d_string (ab_Path cur) l;
    Ok {| ab_Socket := socket; ab_URL := url; ab_Path := path |}).

Definition zero_http_proxy : HTTPProxyAuth :=
  {| hp_Required := false; hp_Realm := []; hp_Basic := []; hp_Bearer := []; hp_Broker := None |}.
Definition decode_http_proxy : decoder HTTPProxyAuth :=
  d_struct strict [str "required"; str "realm"; str "basic"; str "bearer"; str "broker"] (fun cur l =>
    required ← field (str "required") d_bool (hp_Required cur) l;
    realm ← field (str "realm") d_string (hp_Realm cur) l;
    basic ← field (str "basic") (d_list zero_basic decode_basic) (hp_Basic cur) l;
    bearer ← field (str "bearer") (d_list zero_bearer decode_bearer) (hp_Bearer cur) l;
    broker ← field (str "broker") (d_ptr zero_broker decode_broker) (hp_Broker cur) l;
    Ok {| hp_Required := required; hp_Realm := realm; hp_Basic := basic; hp_Bearer := bearer;
          hp_Broker := broker |}).

Definition zero_auth : AuthConfig := {| ac_HTTPProxy := None |}.
Definition decode_auth : decoder AuthConfig :=
  d_struct strict [str "http_proxy"] (fun cur l =>
    hp ← field (str "http_proxy") (d_ptr zero_http_proxy decode_http_proxy) (ac_HTTPProxy cur) l;
    Ok {| ac_HTTPProxy := hp |}).

Definition decode_match : decoder RuleMatch :=
  d_struct strict [str "host"; str "port"; str "proto"; str "path"; str "method"; str "header"; str "status"]
   (fun cur l =>
    host ← field (str "host") d_string (m_Host cur) l;
    port ← field (str "port") d_string (m_Port cur) l;
    proto ← field (str "proto") d_string (m_Proto cur) l;
    path ← field (str "path") d_string (m_Path cur) l;
    method ← field (str "method") d_string (m_Method cur) l;
    header ← field (str "header") (d_map [] d_string) (m_Header cur) l;
    status ← field (str "status") d_string (m_Status cur) l;
    Ok {| m_Host := host; m_Port := port; m_Proto := proto; m_Path := path; m_Method := method;
          m_Header := header; m_Status := status |}).

Definition zero_action : Action := {| a_Action := []; a_Params := [] |}.
Definition decode_action : decoder Action :=
  d_struct strict [str "action"; str "params"] (fun cur l =>
    action ← field (str "action") d_string (a_Action cur) l;
    params ← field (str "params") (d_map ANull d_any) (a_Params cur) l;
    Ok {| a_Action := action; a_Params := params |}).

Definition zero_connection : Connection := {| c_Accept := None |}.
Definition decode_connection : decoder Connection :=
  d_struct strict [str "accept"] (fun cur l =>
    accept ← field (str "accept") (d_ptr false d_bool) (c_Accept cur) l;
    Ok {| c_Accept := accept |}).

Definition zero_rule : Rule :=
  {| r_Match := match_any; r_Connection := None; r_MITM := None; r_Request := []; r_Response := [] |}.
Definition decode_rule : decoder Rule :=
  d_struct strict [str "match"; str "connection"; str "mitm"; str "request"; str "response"] (fun cur l =>
    m ← field (str "match") decode_match (r_Match cur) l;
    connection ← field (str "connection") (d_ptr zero_connection decode_connection) (r_Connection cur) l;
    mitm ← field (str "mitm") (d_ptr false d_bool) (r_MITM cur) l;
    request ← field (str "request") (d_list zero_action decode_action) (r_Request cur) l;
    response ← field (str "response") (d_list zero_action decode_action) (r_Response cur) l;
    Ok {| r_Match := m; r_Connection := connection; r_MITM := mitm; r_Request := request;
          r_Response := response |}).

Definition zero_egress : EgressRule := {| er_CIDR := []; er_Port := []; er_Proto := []; er_Action := [] |}.
Definition decode_egress : decoder EgressRule :=
  d_struct strict [str "cidr"; str "port"; str "proto"; str "action"] (fun cur l =>
    cidr ← field (str "cidr") d_string (er_CIDR cur) l;
    port ← field (str "port") d_string (er_Port cur) l;
    proto ← field (str "proto") d_string (er_Proto cur) l;
    action ← field (str "action") d_string (er_Action cur) l;
    Ok {| er_CIDR := cidr; er_Port := port; er_Proto := proto; er_Action := action |}).

Definition zero_file : RuleFile := {| rf_UUID := []; rf_Auth := None; rf_HTTP := None; rf_Egress := None |}.
Definition decode_file : decoder RuleFile :=
  d_struct strict [str "uuid"; str "auth"; str "http"; str "egress"] (fun cur l =>
    uuid ← field (str "uuid") d_string (rf_UUID cur) l;
    auth ← field (str "auth") (d_ptr zero_auth decode_auth) (rf_Auth cur) l;
    http ← field (str "http") (d_slice zero_rule decode_rule) (rf_HTTP cur) l;
    egress ← field (str "egress") (d_slice zero_egress decode_egress) (rf_Egress cur) l;
    Ok {| rf_UUID := uuid; rf_Auth := auth; rf_HTTP := http; rf_Egress := egress |}).
End Decode.

(** [json.Unmarshal(data, &rf)], and the strict [Decoder.Decode(&rf)] of the
    control plane, which leaves whatever follows the first value unread. *)
Definition Unmarshal_RuleFile (data : bytes) : result RuleFile :=
  v ← Unmarshal_any data; decode_file false zero_file v.

Definition DecodeStrict_RuleFile (data : bytes) : result RuleFile :=
  '(v, _) ← decodeFirst data; decode_file true zero_file v.

(** ** Encoders *)

(** A member, dropped when [omitempty] applies. *)
Definition member (name : string) (omit : bool) (v : any) : list (bytes * any) :=
  if omit then [] else [(str name, v)].

Definition is_nil {A} (l : list A) : bool := match l with [] => true | _ => false end.
Definition is_none {A} (o : option A) : bool := match o with None => true | _ => false end.
Definition e_opt {A} (enc : A -> any) (o : option A) : any := match o with Some x => enc x | None => ANull end.
Definition e_list {A} (enc : A -> any) (l : list A) : any := AArr (map enc l).

Definition encode_basic (b : BasicCredential) : any :=
  AObj (member "user" false (AStr (bc_User b)) ++ member "hash" false (AStr (bc_Hash b))).

Definition encode_bearer (b : BearerCredential) : any :=
  AObj (member "id" false (AStr (tc_ID b)) ++ member "hash" false (AStr (tc_Hash b))).

Definition encode_broker (b : AuthBroker) : any :=
  AObj (member "socket" (is_nil (ab_Socket b)) (AStr (ab_Socket b))
        ++ member "url" (is_nil (ab_URL b)) (AStr (ab_URL b))
        ++ member "path" (is_nil (ab_Path b)) (AStr (ab_Path b))).

Definition encode_http_proxy (h : HTTPProxyAuth) : any :=
  AObj (member "required" (negb (hp_Required h)) (ABool (hp_Required h))
        ++ member "realm" (is_nil (hp_Realm h)) (AStr (hp_Realm h))
        ++ member "basic" (is_nil (hp_Basic h)) (e_list encode_basic (hp_Basic h))
        ++ member "bearer" (is_nil (hp_Bearer h)) (e_list encode_bearer (hp_Bearer h))
        ++ member "broker" (is_none (hp_Broker h)) (e_opt encode_broker (hp_Broker h))).

Definition encode_auth (a : AuthConfig) : any :=
  AObj (member "http_proxy" (is_none (ac_HTTPProxy a)) (e_opt encode_http_proxy (ac_HTTPProxy a))).

Definition encode_match (m : RuleMatch) : any :=
  AObj (member "host" (is_nil (m_Host m)) (AStr (m_Host m))
        ++ member "port" (is_nil (m_Port m)) (AStr (m_Port m))
        ++ member "proto" (is_nil (m_Proto m)) (AStr (m_Proto m))
        ++ member "path" (is_nil (m_Path m)) (AStr (m_Path m))
        ++ member "method" (is_nil (m_Method m)) (AStr (m_Method m))
        ++ member "header" (is_nil (m_Header m))
             (sort_any (AObj (map (fun kv => (fst kv, AStr (snd kv))) (m_Header m))))
        ++ member "status" (is_nil (m_Status m)) (AStr (m_Status m))).

Definition encode_action (a : Action) : any :=
  AObj (member "action" false (AStr (a_Action a))
        ++ member "params" (is_nil (a_Params a)) (sort_any (AObj (a_Params a)))).

Definition encode_connection (c : Connection) : any :=
  AObj (member "accept" false (e_opt ABool (c_Accept c))).

Definition encode_rule (r : Rule) : any :=
  AObj (member "match" false (encode_match (r_Match r))
        ++ member "connection" (is_none (r_Connection r)) (e_opt encode_connection (r_Connection r))
        ++ member "mitm" (is_none (r_MITM r)) (e_opt ABool (r_MITM r))
        ++ member "request" (is_nil (r_Request r)) (e_list encode_action (r_Request r))
        ++ member "response" (is_nil (r_Response r)) (e_list encode_action (r_Response r))).

Definition encode_egress (e : EgressRule) : any :=
  AObj (member "cidr" false (AStr (er_CIDR e))
        ++ member "port" (is_nil (er_Port e)) (AStr (er_Port e))
        ++ member "proto" (is_nil (er_Proto e)) (AStr (er_Proto e))
        ++ member "action" false (AStr (er_Action e))).

Definition encode_rules (http : option (list Rule)) : any := e_opt (e_list encode_rule) http.

Definition encode_file (rf : RuleFile) : any :=
  AObj (member "uuid" (is_nil (rf_UUID rf)) (AStr (rf_UUID rf))
        ++ member "auth" (is_none (rf_Auth rf)) (e_opt encode_auth (rf_Auth rf))
        ++ member "http" false (encode_rules (rf_HTTP rf))
        ++ member "egress" (is_nil (default [] (rf_Egress rf)))
             (e_list encode_egress (default [] (rf_Egress rf)))).

(** [json.Marshal] of a rule file and of its [http] list. *)
Definition Marshal_RuleFile (rf : RuleFile) : bytes := json_print (encode_file rf).
Definition Marshal_rules (http : option (list Rule)) : bytes := json_print (encode_rules http).

(** ** Decoding what was encoded *)

(** *** Sorted maps *)

Definition key_lt {V} (a b : bytes * V) : Prop := bytes_ltb (fst a) (fst b) = true.

(** Every object inside is a map in its canonical order. *)
Inductive any_sorted : any -> Prop :=
  | sorted_null : any_sorted ANull
  | sorted_bool b : any_sorted (ABool b)
  | sorted_num m e : any_sorted (ANum m e)
  | sorted_str s : any_sorted (AStr s)
  | sorted_arr l : Forall any_sorted l -> any_sorted (AArr l)
  | sorted_obj l : StronglySorted key_lt l -> Forall (fun kv => any_sorted (snd kv)) l -> any_sorted (AObj l).

Lemma map_put_last {V} k (v : V) m :
  Forall (fun kv => bytes_ltb (fst kv) k = true) m -> map_put k v m = (m ++ [(k, v)])%list.
Proof.
  induction 1 as [|[k' v'] m Hk _ IH]; [done|]. simpl in *.
  rewrite (bytes_ltb_asym _ _ Hk). rewrite bool_decide_false; [by rewrite IH|].
  intros ->. by rewrite bytes_ltb_irrefl in Hk.
Qed.

Lemma map_puts_sorted {V} (l : list (bytes * V)) : StronglySorted key_lt l -> map_puts [] l = l.
Proof.
  enough (forall m, StronglySorted key_lt (m ++ l) -> map_puts m l = (m ++ l)%list) as H by apply (H []).
  induction l as [|[k v] l IH]; intros m Hs; [by rewrite app_nil_r|].
  cbn [map_puts foldl fst snd]. rewrite map_put_last.
  - fold (map_puts (m ++ [(k, v)]) l). rewrite IH; by rewrite <- app_assoc.
  - apply Forall_forall. intros kv Hin.
    apply StronglySorted_app_1_elem_of with (x1 := kv) (x2 := (k, v)) in Hs; [done|done|by left].
Qed.

Lemma sort_members_sorted l : StronglySorted key_lt l -> sort_members l = l.
Proof.
  induction 1 as [|kv l Hs IH Hall]; [done|]. cbn [sort_members foldr].
  fold (sort_members l). rewrite IH. destruct Hall as [|kv' l' Hlt]; [done|]. simpl.
  by rewrite (bytes_ltb_asym _ _ Hlt).
Qed.

Lemma map_id_Forall {A} (f : A -> A) l : Forall (fun x => f x = x) l -> map f l = l.
Proof. induction 1 as [|x l Hx _ IH]; simpl; by f_equal. Qed.

(** Sorting and storing leave a canonical value alone. *)
Lemma sorted_fixed v : any_sorted v -> sort_any v = v /\ go_value v = v.
Proof.
  induction v as [|b|m e|s|l Hl|l Hl] using any_ind'; intros Hs; inversion_clear Hs; try done.
  - assert (Forall (fun x => sort_any x = x) l /\ Forall (fun x => go_value x = x) l) as [H1 H2].
    { rewrite <- Forall_and. apply Forall_forall. intros x Hx.
      rewrite Forall_forall in Hl, H. by apply Hl, H. }
    simpl. by rewrite !map_id_Forall.
  - assert (Forall (fun kv : bytes * any => (fst kv, sort_any (snd kv)) = kv) l
            /\ Forall (fun kv : bytes * any => (fst kv, go_value (snd kv)) = kv) l) as [H1 H2].
    { rewrite <- Forall_and. apply Forall_forall. intros [k x] Hx.
      rewrite Forall_forall in Hl, H0. simpl.
      destruct (Hl _ Hx (H0 _ Hx)) as [E1 E2]. simpl in *. by rewrite E1, E2. }
    simpl. rewrite !map_id_Forall by done. by rewrite sort_members_sorted, map_puts_sorted.
Qed.

Lemma bind_intro {A B} (a : A) (f : A -> result B) r b : r = Ok a -> f a = Ok b -> mbind f r = Ok b.
Proof. by intros ->. Qed.

(** *** Members and fields *)

Lemma field_skip {A} name (d : decoder A) cur n omit v l :
  names_field (str n) name = false -> field name d cur (member n omit v ++ l) = field name d cur l.
Proof. intros H. destruct omit; [done|]. unfold field. simpl. by rewrite H. Qed.

Lemma field_hit {A} name (d : decoder A) cur n v l :
  names_field (str n) name = true ->
  field name d cur (member n false v ++ l) = (x ← d cur v; field name d x l).
Proof.
  intros H. unfold field. simpl. rewrite H. destruct (d cur v); simpl; [done|].
  induction l as [|kv l IH]; [done|]. exact IH.
Qed.

Lemma field_member {A} name (d : decoder A) cur n omit v l x :
  names_field (str n) name = true -> (if omit : bool then x = cur else d cur v = Ok x) ->
  field name d cur (member n omit v ++ l) = field name d x l.
Proof. intros H Hx. destruct omit; [by subst|]. by rewrite field_hit, Hx. Qed.

Lemma field_skip1 {A} name (d : decoder A) cur n omit v :
  names_field (str n) name = false -> field name d cur (member n omit v) = Ok cur.
Proof. intros H. rewrite <- (app_nil_r (member _ _ _)). by rewrite field_skip. Qed.

Lemma field_member1 {A} name (d : decoder A) cur n omit v x :
  names_field (str n) name = true -> (if omit : bool then x = cur else d cur v = Ok x) ->
  field name d cur (member n omit v) = Ok x.
Proof. intros H Hx. rewrite <- (app_nil_r (member _ _ _)). by rewrite (field_member _ _ _ _ _ _ _ x). Qed.

(** No member written by an encoder is unknown. *)
Lemma known_members names l :
  Forall (fun kv : bytes * any => existsb (names_field (fst kv)) names = true) l ->
  existsb (fun kv : bytes * any => negb (existsb (names_field (fst kv)) names)) l = false.
Proof. induction 1 as [|kv l Hk _ IH]; [done|]. simpl. by rewrite Hk, IH. Qed.

Lemma member_known names n omit v :
  existsb (names_field (str n)) names = true ->
  Forall (fun kv : bytes * any => existsb (names_field (fst kv)) names = true) (member n omit v).
Proof. intros H. destruct omit; [constructor|]. by apply Forall_singleton. Qed.

(** Decoding a struct from its encoded members, field by field. *)
Lemma struct_recovers {A} strict names (fields : A -> list (bytes * any) -> result A) zero l x :
  Forall (fun kv : bytes * any => existsb (names_field (fst kv)) names = true) l ->
  fields zero l = Ok x -> d_struct strict names fields zero (AObj l) = Ok x.
Proof. intros Hk Hf. unfold d_struct. by rewrite known_members, andb_false_r by done. Qed.

Ltac known := repeat (apply Forall_app; split); apply member_known; reflexivity.
Ltac skip := repeat (rewrite field_skip by reflexivity).
(** The goal [field name d zero members = Ok x]: the other members are skipped,
    the field's own leaves [x]. *)
Ltac one_field :=
  skip;
  first [ erewrite field_member; [skip; first [apply field_skip1; reflexivity|reflexivity]|reflexivity|]
        | apply field_member1; [reflexivity|] ].
Ltac get x := apply (bind_intro x); [one_field|].

(** What a decoder must do on an encoded field. *)
Definition recovers {A} (zero : A) (d : decoder A) (enc : A -> any) (x : A) : Prop :=
  d zero (enc x) = Ok x.

Lemma list_recovers {A} (zero : A) d enc l :
  Forall (recovers zero d enc) l -> d_elems zero d [] (map enc l) = Ok l.
Proof. induction 1 as [|x l Hx _ IH]; [done|]. simpl. unfold recovers in Hx. by rewrite Hx, IH. Qed.

Lemma string_member s : if is_nil s then s = [] else d_string [] (AStr s) = Ok s.
Proof. by destruct s. Qed.

Lemma list_member {A} (zero : A) d enc l :
  Forall (recovers zero d enc) l ->
  if is_nil l then l = [] else d_list zero d [] (e_list enc l) = Ok l.
Proof.
  intros H%list_recovers. unfold d_list, d_slice, e_list. simpl. rewrite H.
  by destruct l.
Qed.

(** An encoded pointee is never [null]. *)
Lemma ptr_member {A} (zero : A) d enc (o : option A) :
  (forall x, o = Some x -> recovers zero d enc x /\ enc x <> ANull) ->
  if is_none o then o = None else d_ptr zero d None (e_opt enc o) = Ok o.
Proof.
  intros H. destruct o as [x|]; [|done]. destruct (H x eq_refl) as [Hr Hn]. simpl.
  unfold recovers in Hr. unfold d_ptr. destruct (enc x) eqn:E; try done; simpl; by rewrite Hr.
Qed.

Section Recover.
Context (strict : bool).

Lemma basic_recovers b : recovers zero_basic (decode_basic strict) encode_basic b.
Proof. apply struct_recovers; [known|]. get (bc_User b); [done|]. get (bc_Hash b); [done|]. by destruct b. Qed.

Lemma bearer_recovers b : recovers zero_bearer (decode_bearer strict) encode_bearer b.
Proof. apply struct_recovers; [known|]. get (tc_ID b); [done|]. get (tc_Hash b); [done|]. by destruct b. Qed.

Lemma broker_recovers b : recovers zero_broker (decode_broker strict) encode_broker b.
Proof.
  apply struct_recovers; [known|].
  get (ab_Socket b); [apply string_member|]. get (ab_URL b); [apply string_member|].
  get (ab_Path b); [apply string_member|]. by destruct b.
Qed.

Lemma http_proxy_recovers h : recovers zero_http_proxy (decode_http_proxy strict) encode_http_proxy h.
Proof.
  apply struct_recovers; [known|].
  get (hp_Required h); [by destruct (hp_Required h)|]. get (hp_Realm h); [apply string_member|].
  get (hp_Basic h); [apply list_member, Forall_true, basic_recovers|].
  get (hp_Bearer h); [apply list_member, Forall_true, bearer_recovers|].
  get (hp_Broker h); [apply ptr_member; intros; split; [apply broker_recovers|done]|]. by destruct h.
Qed.

Lemma auth_recovers a : recovers zero_auth (decode_auth strict) encode_auth a.
Proof.
  apply struct_recovers; [known|].
  get (ac_HTTPProxy a); [apply ptr_member; intros; split; [apply http_proxy_recovers|done]|]. by destruct a.
Qed.

Lemma egress_recovers e : recovers zero_egress (decode_egress strict) encode_egress e.
Proof.
  apply struct_recovers; [known|]. get (er_CIDR e); [done|]. get (er_Port e); [apply string_member|].
  get (er_Proto e); [apply string_member|]. get (er_Action e); [done|]. by destruct e.
Qed.

Lemma connection_recovers c : recovers zero_connection (decode_connection strict) encode_connection c.
Proof. apply struct_recovers; [known|]. get (c_Accept c); [by destruct c as [[]]|]. by destruct c. Qed.

(** Rules, whose maps are in canonical order. *)
Definition action_sorted (a : Action) : Prop := any_sorted (AObj (a_Params a)).

Definition rule_sorted (r : Rule) : Prop :=
  StronglySorted key_lt (m_Header (r_Match r))
  /\ Forall action_sorted (r_Request r) /\ Forall action_sorted (r_Response r).

Definition rules_sorted (http : option (list Rule)) : Prop := Forall rule_sorted (default [] http).

Lemma map_recovers {A} (zero : A) d (enc : A -> any) (m : list (bytes * A)) :
  Forall (fun kv => d zero (enc (snd kv)) = Ok (snd kv)) m -> StronglySorted key_lt m ->
  d_map zero d [] (AObj (map (fun kv => (fst kv, enc (snd kv))) m)) = Ok m.
Proof.
  intros Hd Hs. unfold d_map.
  replace (mapM _ _) with (Ok m : result _); [simpl; by rewrite map_puts_sorted|].
  symmetry. clear Hs. induction Hd as [|[k x] m Hx _ IH]; [done|]. simpl in *. by rewrite Hx, IH.
Qed.

Lemma key_lt_fmap {A B} (f : A -> B) (m : list (bytes * A)) :
  StronglySorted key_lt m -> StronglySorted key_lt (map (fun kv => (fst kv, f (snd kv))) m).
Proof.
  induction 1 as [|x m Hs IH Hall]; constructor; [done|].
  apply Forall_map. by eapply Forall_impl; [apply Hall|].
Qed.

Lemma match_recovers m : StronglySorted key_lt (m_Header m) ->
  recovers match_any (decode_match strict) encode_match m.
Proof.
  intros Hs. apply struct_recovers; [known|].
  get (m_Host m); [apply string_member|]. get (m_Port m); [apply string_member|].
  get (m_Proto m); [apply string_member|]. get (m_Path m); [apply string_member|].
  get (m_Method m); [apply string_member|].
  get (m_Header m); [|get (m_Status m); [apply string_member|by destruct m]].
  destruct (is_nil (m_Header m)) eqn:En; [by destruct (m_Header m)|].
  destruct (sorted_fixed (AObj (map (fun kv => (fst kv, AStr (snd kv))) (m_Header m)))) as [-> _].
  - constructor; [by apply key_lt_fmap|]. apply Forall_map, Forall_true. constructor.
  - apply map_recovers; [|done]. by apply Forall_true.
Qed.

Lemma action_recovers a : action_sorted a -> recovers zero_action (decode_action strict) encode_action a.
Proof.
  intros Hs. apply struct_recovers; [known|]. get (a_Action a); [done|].
  get (a_Params a); [|by destruct a].
  destruct (is_nil (a_Params a)) eqn:En; [by destruct (a_Params a)|].
  destruct (sorted_fixed _ Hs) as [-> _]. inversion_clear Hs as [| | | | |? Hk Hv].
  assert (a_Params a = map (fun kv => (fst kv, id (snd kv))) (a_Params a)) as E.
  { symmetry. apply map_id_Forall, Forall_true. by intros []. }
  rewrite E at 1. apply map_recovers; [|done]. eapply Forall_impl; [apply Hv|].
  intros kv Hkv. change (Ok (go_value (snd kv)) = Ok (snd kv)). by destruct (sorted_fixed _ Hkv) as [_ ->].
Qed.

Lemma rule_recovers r : rule_sorted r -> recovers zero_rule (decode_rule strict) encode_rule r.
Proof.
  intros (Hh & Hreq & Hresp). apply struct_recovers; [known|].
  get (r_Match r); [by apply match_recovers|].
  get (r_Connection r); [apply ptr_member; intros; split; [apply connection_recovers|done]|].
  get (r_MITM r); [apply ptr_member; intros; by split|].
  get (r_Request r); [apply list_member; eapply Forall_impl; [apply Hreq|apply action_recovers]|].
  get (r_Response r); [apply list_member; eapply Forall_impl; [apply Hresp|apply action_recovers]|].
  by destruct r.
Qed.

Lemma rules_recovers http : rules_sorted http ->
  d_slice zero_rule (decode_rule strict) None (encode_rules http) = Ok http.
Proof.
  intros Hs. destruct http as [l|]; [|done]. simpl. rewrite list_recovers; [done|].
  eapply Forall_impl; [apply Hs|apply rule_recovers].
Qed.

(** What survives encoding: an empty egress list reads back as an absent one. *)
Definition stored (rf : RuleFile) : RuleFile :=
  {| rf_UUID := rf_UUID rf; rf_Auth := rf_Auth rf; rf_HTTP := rf_HTTP rf;
     rf_Egress := match rf_Egress rf with Some [] => None | e => e end |}.

Lemma file_recovers rf : rules_sorted (rf_HTTP rf) ->
  decode_file strict zero_file (encode_file rf) = Ok (stored rf).
Proof.
  intros Hs. apply struct_recovers; [known|].
  get (rf_UUID rf); [apply string_member|].
  get (rf_Auth rf); [apply ptr_member; intros; split; [apply auth_recovers|done]|].
  get (rf_HTTP rf); [by apply rules_recovers|].
  get (rf_Egress (stored rf)); [|done]. unfold stored. simpl.
  destruct (rf_Egress rf) as [[|e l]|]; try done. simpl default. cbn [is_nil]. unfold e_list, d_slice.
  simpl default. rewrite list_recovers; [done|]. apply Forall_true, egress_recovers.
Qed.
End Recover.

(** ** Decoded maps are in canonical order *)

Lemma map_put_sorted {V} k (v : V) m :
  StronglySorted key_lt m -> StronglySorted key_lt (map_put k v m).
Proof.
  induction 1 as [|[k' v'] m Hs IH Hall]; simpl; [by repeat constructor|].
  destruct (bytes_ltb k k') eqn:Hlt.
  - constructor; [by constructor|]. constructor; [done|]. eapply Forall_impl; [apply Hall|].
    intros kv. by apply bytes_ltb_trans.
  - case_bool_decide as Hk; [subst k'|]; constructor; try done.
    apply Forall_forall. intros kv Hin.
    enough (kv = (k, v) \/ kv ∈ m) as [->|Hm]; [|by rewrite Forall_forall in Hall; apply Hall|].
    { destruct (bytes_ltb_total k k' Hk) as [?|?]; [congruence|done]. }
    clear -Hin. induction m as [|[k1 v1] m IH]; simpl in Hin; [set_solver|].
    destruct (bytes_ltb k k1); [set_solver|]. case_bool_decide; set_solver.
Qed.

Lemma map_put_Forall {V} (P : V -> Prop) k v (m : list (bytes * V)) :
  P v -> Forall (fun kv => P (snd kv)) m -> Forall (fun kv => P (snd kv)) (map_put k v m).
Proof.
  intros Hv. induction 1 as [|[k' v'] m Hx Hm IH]; simpl; [by repeat constructor|].
  destruct (bytes_ltb k k'); [by repeat constructor|]. case_bool_decide; by constructor.
Qed.

Definition map_ok {V} (P : V -> Prop) (m : list (bytes * V)) : Prop :=
  StronglySorted key_lt m /\ Forall (fun kv => P (snd kv)) m.

Lemma map_puts_ok {V} (P : V -> Prop) l (m : list (bytes * V)) :
  Forall (fun kv => P (snd kv)) l -> map_ok P m -> map_ok P (map_puts m l).
Proof.
  intros Hl. revert m. induction Hl as [|[k v] l Hv _ IH]; intros m Hm; [done|].
  apply (IH (map_put k v m)). destruct Hm. split; [by apply map_put_sorted|by apply map_put_Forall].
Qed.

Lemma go_value_sorted v : any_sorted (go_value v).
Proof.
  induction v as [|b|m e|s|l Hl|l Hl] using any_ind'; try constructor.
  - by apply Forall_map.
  - apply (map_puts_ok any_sorted); [by apply Forall_map|]. split; constructor.
  - apply (map_puts_ok any_sorted); [by apply Forall_map|]. split; constructor.
Qed.

(** Decoders preserve a property of the value they write over. *)
Definition preserves {A} (P : A -> Prop) (d : decoder A) : Prop :=
  forall cur v x, P cur -> d cur v = Ok x -> P x.

Lemma field_preserves {A} (P : A -> Prop) name d cur l x :
  preserves P d -> P cur -> field name d cur l = Ok x -> P x.
Proof.
  intros Hd. unfold field. revert cur. induction l as [|kv l IH]; intros cur Hc Hf; simpl in Hf.
  - by inv_ok; subst.
  - destruct (names_field _ _); [|by eauto]. destruct (d cur (snd kv)) eqn:E; [by eauto|].
    exfalso. clear -Hf. induction l; simpl in *; eauto; done.
Qed.

Lemma elems_preserves {A} (P : A -> Prop) zero d cur l x :
  preserves P d -> P zero -> Forall P cur -> d_elems zero d cur l = Ok x -> Forall P x.
Proof.
  intros Hd Hz. revert cur x. induction l as [|v l IH]; intros cur x Hc Hx; simpl in Hx.
  - by inv_ok; subst.
  - apply result_bind_ok in Hx as (y & Hy & Hx). apply result_bind_ok in Hx as (ys & Hys & Hx).
    inv_ok; subst. constructor; [|eapply IH; [|done]; by destruct Hc].
    eapply Hd; [|done]. by destruct Hc.
Qed.

Lemma list_preserves {A} (P : A -> Prop) zero d :
  preserves P d -> P zero -> preserves (Forall P) (d_list zero d).
Proof.
  intros Hd Hz cur v x Hc Hx. unfold d_list, d_slice in Hx. destruct v; try done; simpl in Hx.
  - inv_ok; subst. constructor.
  - destruct (d_elems _ _ _ _) eqn:E; [|done]. simpl in Hx. inv_ok; subst. by eapply elems_preserves.
Qed.

Lemma map_preserves {A} (P : A -> Prop) zero d :
  (forall v x, d zero v = Ok x -> P x) -> preserves (map_ok P) (d_map zero d).
Proof.
  intros Hd cur v x Hc Hx. unfold d_map in Hx. destruct v as [| | | | |l]; try done.
  - inv_ok; subst. split; constructor.
  - destruct (mapM _ l) as [l'|] eqn:E; [|done]. simpl in Hx. inv_ok; subst x.
    apply map_puts_ok; [|done]. apply mapM_ok in E. clear -E Hd.
    induction E as [|a b l l' Hab _ IH]; constructor; [|done].
    cbv beta in Hab. destruct (d zero (snd a)) eqn:Ed; [|done]. simpl in Hab. inv_ok; subst. by eapply Hd.
Qed.

Lemma struct_preserves {A} (P : A -> Prop) strict names fields :
  (forall cur l x, P cur -> fields cur l = Ok x -> P x) -> preserves P (d_struct strict names fields).
Proof.
  intros Hf cur v x Hc Hx. unfold d_struct in Hx. destruct v; try done; [by inv_ok; subst|].
  destruct (_ && _); [done|]. by eapply Hf.
Qed.

Section Sorted.
Context (strict : bool).

Lemma decode_match_sorted :
  preserves (fun m => StronglySorted key_lt (m_Header m)) (decode_match strict).
Proof.
  apply struct_preserves. intros cur l x Hc Hx. inv_ok. subst x. simpl.
  eapply (field_preserves (map_ok (fun _ => True))); [| |eassumption].
  - by apply map_preserves.
  - split; [done|]. by apply Forall_true.
Qed.

Lemma decode_action_sorted : preserves action_sorted (decode_action strict).
Proof.
  apply struct_preserves. intros cur l x Hc Hx. inv_ok. subst x. unfold action_sorted in *. simpl.
  inversion_clear Hc.
  match goal with Hp : field (str "params") _ _ _ = Ok ?p |- _ =>
    assert (map_ok any_sorted p) as [? ?]; [|by constructor] end.
  eapply (field_preserves (map_ok any_sorted)); [| |eassumption]; [|done].
  apply map_preserves. intros v y Hy. unfold d_any in Hy. inv_ok; subst. apply go_value_sorted.
Qed.

Lemma decode_rule_sorted : preserves rule_sorted (decode_rule strict).
Proof.
  apply struct_preserves. intros cur l x (Hh & Hq & Hs) Hx. inv_ok. subst x.
  assert (preserves (Forall action_sorted) (d_list zero_action (decode_action strict))) as Hd.
  { apply list_preserves; [apply decode_action_sorted|]. repeat constructor. }
  split_and!; simpl.
  - by eapply (field_preserves _ _ _ _ _ _ decode_match_sorted); [|eassumption].
  - by eapply (field_preserves _ _ _ _ _ _ Hd); [|eassumption].
  - by eapply (field_preserves _ _ _ _ _ _ Hd); [|eassumption].
Qed.

Lemma decode_file_preserves :
  preserves (fun rf => rules_sorted (rf_HTTP rf)) (decode_file strict).
Proof.
  apply struct_preserves. intros cur l x Hc Hx. inv_ok. subst x. simpl.
  eapply (field_preserves rules_sorted); [|exact Hc|eassumption].
  clear. intros cur v x Hc Hx. unfold d_slice in Hx. destruct v; try done; [inv_ok; subst; constructor|].
  destruct (d_elems _ _ _ _) eqn:E; [|done]. simpl in Hx. inv_ok; subst.
  eapply (elems_preserves rule_sorted); [apply decode_rule_sorted| |exact Hc|exact E].
  repeat constructor.
Qed.

Lemma decode_file_sorted v rf :
  decode_file strict zero_file v = Ok rf -> rules_sorted (rf_HTTP rf).
Proof. apply decode_file_preserves. constructor. Qed.
End Sorted.

(** ** The texts *)

Lemma Unmarshal_Marshal_RuleFile rf :
  rules_sorted (rf_HTTP rf) -> any_ok (encode_file rf) ->
  Unmarshal_RuleFile (Marshal_RuleFile rf) = Ok (stored rf).
Proof.
  intros Hs Hok. unfold Unmarshal_RuleFile, Marshal_RuleFile.
  rewrite Unmarshal_json_print by done. by apply file_recovers.
Qed.

Lemma Marshal_rules_inj h1 h2 :
  rules_sorted h1 -> rules_sorted h2 -> any_ok (encode_rules h1) -> any_ok (encode_rules h2) ->
  Marshal_rules h1 = Marshal_rules h2 -> h1 = h2.
Proof.
  intros Hs1 Hs2 Ho1 Ho2 Heq. unfold Marshal_rules in Heq.
  pose proof (Unmarshal_json_print _ Ho1) as H1. rewrite Heq, Unmarshal_json_print in H1 by done.
  apply (inj Ok) in H1. pose proof (rules_recovers true _ Hs1) as E1.
  rewrite <- H1, rules_recovers in E1 by done. by apply (inj Ok) in E1.
Qed.

(** A decoded file, written and read again, is itself up to an empty egress list. *)
Lemma reload_RuleFile data rf :
  Unmarshal_RuleFile data = Ok rf -> any_ok (encode_file rf) ->
  Unmarshal_RuleFile (Marshal_RuleFile rf) = Ok (stored rf).
Proof.
  intros Hd Hok. apply Unmarshal_Marshal_RuleFile; [|done].
  unfold Unmarshal_RuleFile in Hd. apply result_bind_ok in Hd as (v & _ & Hd). by eapply decode_file_sorted.
Qed.
