(* ===== verification/Matcher.v ===== *)
(** * Field matchers (internal/rules/compile.go 33-85, the literal-suffix helpers
    of internal/rules/host_index.go)

    The regular-expression engine is the only part that is not modelled: a
    compiled expression is a value of the abstract type [regex] of the class
    [RegexEngine]; no property of the engine is assumed anywhere. *)

From S2P Require Import Prelude GoStrings Glob Schema.

Open Scope Z_scope.

(** Go's [regexp]: [Compile] may refuse a pattern, [MatchString] decides. *)
Class RegexEngine : Type := {
  regex : Type;
  regex_compile : bytes -> option regex;
  regex_match : regex -> bytes -> bool }.

(** An engine that refuses every pattern, for evaluating the definitions. *)
Definition no_regex : RegexEngine :=
  {| regex := Empty_set; regex_compile := fun _ => None;
     regex_match := fun e _ => match e with end |}.

(** ** Literal DNS labels *)

Definition dns_byte (c : ascii) : bool := is_lower c || is_digit c || Ascii.eqb c "-".

(** [isLiteralDNSLabel]. *)
Definition isLiteralDNSLabel (label : bytes) : bool :=
  match head label, last label with
  | Some a, Some b =>
      negb (Ascii.eqb a "-") && negb (Ascii.eqb b "-") && forallb dns_byte label
  | _, _ => false
  end.

(** ** Imported suffix expressions *)

(** The unescaping loop of [parseImportedSuffixRegex] over one atom: [\.] is a
    dot, lower-case letters, digits and hyphens stand for themselves. *)
Fixpoint unescapeAtom (atom : bytes) : option bytes :=
  match atom with
  | [] => Some []
  | c :: t =>
      match t with
      | d :: t' =>
          if Ascii.eqb c "\" && Ascii.eqb d "." then cons "."%char <$> unescapeAtom t'
          else if dns_byte c then cons c <$> unescapeAtom t
          else None
      | [] => if dns_byte c then Some [c] else None
      end
  end.

Definition atomHost (atom : bytes) : option bytes :=
  match unescapeAtom atom with
  | Some value =>
      let labels := Split "." value in
      if (2 <=? length labels)%nat && forallb isLiteralDNSLabel labels then Some value else None
  | None => None
  end.

Definition imported_prefix : bytes := str "(?i)(?:^|\.)(?:".
Definition imported_suffix : bytes := str ")$".

(** [parseImportedSuffixRegex]. *)
Definition parseImportedSuffixRegex (pattern : bytes) : option (list bytes) :=
  if negb (HasPrefix imported_prefix pattern) || negb (HasSuffix imported_suffix pattern) then None
  else
    let body := TrimSuffix imported_suffix (TrimPrefix imported_prefix pattern) in
    if bool_decide (body = []) then None
    else mapM atomHost (Split "|" body).

(** ** Matchers *)

Section Matcher.
Context `{RE : RegexEngine}.

(** The four kinds of [matcher]: the zero pattern, a suffix list, a regular
    expression, a glob. *)
Inductive matcher : Type :=
  | MAlways
  | MSuffixes (suffixes : list bytes)
  | MRegex (re : regex)
  | MGlob (glob : bytes).

Definition compileMatcher (pattern : bytes) : result matcher :=
  match pattern with
  | [] => Ok MAlways
  | _ =>
      match CutPrefix (str "re:") pattern with
      | Some rest =>
          match parseImportedSuffixRegex rest with
          | Some suffixes => Ok (MSuffixes suffixes)
          | None =>
              match regex_compile rest with
              | Some re => Ok (MRegex re)
              | None => Error "invalid regex"
              end
          end
      | None => Ok (MGlob pattern)
      end
  end.

(** One suffix: the whole string, or the text after a dot, up to case. *)
Definition suffixMatch (s suffix : bytes) : bool :=
  ((length s =? length suffix)%nat && EqualFold s suffix)
  || (let start := (length s - length suffix)%nat in
      (length suffix <? length s)%nat
      && match s !! (start - 1)%nat with
         | Some c => Ascii.eqb c "."
         | None => false
         end
      && EqualFold (drop start s) suffix).

(** [matcher.match]: a malformed glob never matches. *)
Definition matcher_match (m : matcher) (s : bytes) : bool :=
  match m with
  | MAlways => true
  | MSuffixes suffixes => existsb (suffixMatch s) suffixes
  | MRegex re => regex_match re s
  | MGlob glob => match Match glob s with Ok b => b | Error _ => false end
  end.

(** [literalGlobSuffix]: the literal DNS labels a glob ends with; [[]] when
    there are none or the matcher is not a glob. *)
Fixpoint literal_tail (rlabels : list bytes) : list bytes :=
  match rlabels with
  | l :: t => if isLiteralDNSLabel l then l :: literal_tail t else []
  | [] => []
  end.

Definition literalGlobSuffix (m : matcher) : bytes :=
  match m with
  | MGlob glob =>
      if bool_decide (glob = []) then []
      else Join (str ".") (rev (literal_tail (rev (Split "." glob))))
  | _ => []
  end.

(** [importedSuffixRegex]. *)
Definition importedSuffixRegex (m : matcher) : option (list bytes) :=
  match m with MSuffixes suffixes => Some suffixes | _ => None end.

End Matcher.

(** ** Lemmas on labels *)

Lemma dns_byte_plain c : dns_byte c = true -> plain c = true.
Proof.
  unfold dns_byte, is_lower, is_digit. rewrite !orb_true_iff, !andb_true_iff, Ascii.eqb_eq.
  intros H. unfold plain. apply negb_true_iff. simpl.
  repeat rewrite orb_false_iff. 
  assert (forall d, byte_val d < 45 \/ 57 < byte_val d < 97 -> Ascii.eqb c d = false) as Hd.
  { intros d Hd. destruct (Ascii.eqb_spec c d) as [->|]; [|done].
    destruct H as [[?|?]| ->]; [lia|lia|]. vm_compute in Hd. destruct Hd as [?|[? ?]]; discriminate. }
  rewrite !Hd by (vm_compute; auto; try (right; split; reflexivity)). done.
Qed.

Lemma dns_byte_lower c : dns_byte c = true -> lower_byte c = c /\ is_ascii c = true.
Proof.
  unfold dns_byte, is_lower, is_digit, lower_byte, is_upper, is_ascii.
  rewrite !orb_true_iff, !andb_true_iff, Ascii.eqb_eq. intros [[?|?]| ->]; [..|done];
    (replace ((65 <=? byte_val c) && (byte_val c <=? 90)) with false by lia); split; lia || done.
Qed.

(** A literal label: non-empty, made of [dns_byte]s. *)
Lemma isLiteralDNSLabel_spec l :
  isLiteralDNSLabel l = true -> l <> [] /\ forallb dns_byte l = true.
Proof.
  unfold isLiteralDNSLabel. destruct (head l) eqn:Hh, (last l); try done.
  intros [_ Hl]%andb_true_iff. split; [by destruct l|done].
Qed.

Lemma dns_no_dot l : forallb dns_byte l = true -> "."%char ∉ l.
Proof.
  intros Hl Hin. rewrite forallb_forall in Hl. apply list_elem_of_In, Hl in Hin. done.
Qed.

(** A sequence of literal labels. *)
Definition literal_labels (ls : list bytes) : Prop :=
  ls <> [] /\ Forall (fun l => isLiteralDNSLabel l = true) ls.

Lemma literal_labels_no_dot ls : literal_labels ls -> Forall (fun l => "."%char ∉ l) ls.
Proof.
  intros [_ H]. eapply Forall_impl; [exact H|]. intros l Hl.
  apply dns_no_dot. by apply isLiteralDNSLabel_spec.
Qed.

Definition host_byte (c : ascii) : bool := dns_byte c || Ascii.eqb c ".".

Lemma forallb_Join (P : ascii -> bool) sep ls :
  forallb P sep = true -> Forall (fun l => forallb P l = true) ls -> forallb P (Join sep ls) = true.
Proof.
  intros Hs Hls. induction ls as [|l ls IH]; [done|]. apply Forall_cons in Hls as [Hl Hls].
  destruct ls; [done|]. rewrite Join_cons, !forallb_app, Hl, Hs by done. by apply IH.
Qed.

Lemma literal_labels_host ls : literal_labels ls -> forallb host_byte (Join (str ".") ls) = true.
Proof.
  intros [_ H]. apply forallb_Join; [done|]. eapply Forall_impl; [exact H|]. intros l Hl.
  apply isLiteralDNSLabel_spec in Hl as [_ Hl]. apply forallb_forall. intros c Hc.
  rewrite forallb_forall in Hl. unfold host_byte. by rewrite Hl.
Qed.

Lemma host_byte_plain c : host_byte c = true -> plain c = true.
Proof.
  unfold host_byte. rewrite orb_true_iff, Ascii.eqb_eq. intros [?| ->]; [by apply dns_byte_plain|done].
Qed.

Lemma host_byte_lower c : host_byte c = true -> lower_byte c = c /\ is_ascii c = true.
Proof.
  unfold host_byte. rewrite orb_true_iff, Ascii.eqb_eq. intros [?| ->]; [by apply dns_byte_lower|done].
Qed.

Lemma forallb_impl {A} (P Q : A -> bool) l :
  (forall x, P x = true -> Q x = true) -> forallb P l = true -> forallb Q l = true.
Proof. intros HPQ. rewrite !forallb_forall. auto. Qed.

Lemma host_bytes_lower s : forallb host_byte s = true -> map lower_byte s = s.
Proof.
  induction s as [|c s IH]; simpl; [done|]. intros [Hc Hs]%andb_true_iff.
  rewrite IH by done. by destruct (host_byte_lower c Hc) as [-> _].
Qed.

(** The last byte of a joined literal sequence is not a dot. *)
Lemma literal_labels_last ls : literal_labels ls ->
  exists t c, Join (str ".") ls = (t ++ [c])%list /\ dns_byte c = true.
Proof.
  intros [Hne H]. induction ls as [|l ls IH]; [done|].
  apply Forall_cons in H as [Hl H]. destruct ls as [|l' ls].
  - apply isLiteralDNSLabel_spec in Hl as [Hlne Hl].
    destruct (exists_last Hlne) as (t & c & ->). exists t, c. split; [done|].
    rewrite forallb_app in Hl. apply andb_true_iff in Hl as [_ Hl]. simpl in Hl.
    by rewrite andb_true_r in Hl.
  - rewrite Join_cons by done. destruct IH as (t & c & -> & Hc); [done|done|].
    exists (l ++ str "." ++ t)%list, c. by rewrite <- !app_assoc.
Qed.

Lemma literal_tail_spec rl :
  exists rest, rl = (literal_tail rl ++ rest)%list
  /\ Forall (fun l => isLiteralDNSLabel l = true) (literal_tail rl).
Proof.
  induction rl as [|l rl (rest & IH & HF)]; simpl; [by exists []|].
  destruct (isLiteralDNSLabel l) eqn:E.
  - exists rest. split; [simpl; by f_equal|]. by constructor.
  - by exists (l :: rl).
Qed.

(** ** What a matching host ends with *)

Section MatcherLemmas.
Context `{RE : RegexEngine}.

(** A suffix list as the parser produces it. *)
Definition matcher_wf (m : matcher) : Prop :=
  match m with
  | MSuffixes ss => Forall (fun s => exists ls, literal_labels ls /\ s = Join (str ".") ls) ss
  | _ => True
  end.

Lemma atomHost_literal atom s :
  atomHost atom = Some s -> exists ls, literal_labels ls /\ s = Join (str ".") ls.
Proof.
  unfold atomHost. destruct (unescapeAtom atom) as [v|]; [|done].
  destruct (_ && _) eqn:E; [|done]. intros [= <-].
  apply andb_true_iff in E as [_ E]. exists (Split "." v). split; [|symmetry; apply (Join_Split "." v)].
  split; [apply Split_ne|]. apply Forall_forall. intros l Hl.
  rewrite forallb_forall in E. by apply E, list_elem_of_In.
Qed.

Lemma compileMatcher_wf p m : compileMatcher p = Ok m -> matcher_wf m.
Proof.
  unfold compileMatcher. destruct p as [|c p]; [by intros [= <-]|].
  destruct (CutPrefix _ _) as [rest|]; [|by intros [= <-]].
  destruct (parseImportedSuffixRegex rest) as [ss|] eqn:E; [|by case_match; intros [= <-]].
  intros [= <-]. simpl. unfold parseImportedSuffixRegex in E.
  destruct (_ || _); [done|]. destruct (bool_decide _); [done|].
  apply mapM_Some_1, Forall2_flip in E. apply Forall_forall. intros s Hs.
  apply list_elem_of_lookup in Hs as [i Hs]. eapply Forall2_lookup_l in E as (a & _ & Ha); [|done].
  by eapply atomHost_literal.
Qed.

(** [ends_with s h]: [h] is [s], or a dot and [s] after something. *)
Definition ends_with (s h : bytes) : Prop := h = s \/ exists x, h = (x ++ "."%char :: s)%list.

Lemma TrimSuffix_no_dot t c : c <> "."%char -> TrimSuffix (str ".") (t ++ [c]) = (t ++ [c])%list.
Proof.
  intros Hc. unfold TrimSuffix. destruct (CutSuffix _ _) as [r|] eqn:E; [|done].
  apply CutSuffix_Some in E. apply app_inj_tail in E as [_ E]. congruence.
Qed.

(** Normalising a host that ends in text folding to literal labels keeps that
    text, in lower case. *)
Lemma normalised_ends_with lower_run ls tail host :
  literal_labels ls -> map lower_byte tail = Join (str ".") ls ->
  ends_with tail host ->
  ends_with (Join (str ".") ls) (ToLower lower_run (TrimSuffix (str ".") host)).
Proof.
  intros Hls Htail Hhost.
  assert (forallb is_ascii tail = true) as Hascii.
  { apply forallb_forall. intros c Hc. destruct (is_ascii c) eqn:E; [done|].
    assert (lower_byte c = c) as Hlc.
    { unfold lower_byte, is_upper. unfold is_ascii in E.
      by replace ((65 <=? byte_val c) && (byte_val c <=? 90)) with false by lia. }
    assert (In c (Join (str ".") ls)) as Hin by (rewrite <- Htail, <- Hlc; by apply in_map).
    pose proof (literal_labels_host _ Hls) as Hh. rewrite forallb_forall in Hh.
    apply Hh, host_byte_lower in Hin as [_ ?]. congruence. }
  destruct (literal_labels_last ls Hls) as (t & c & Hlast & Hc).
  assert (exists t' c', tail = (t' ++ [c'])%list /\ c' <> "."%char) as (t' & c' & -> & Hc').
  { destruct tail as [|y tail0] using rev_ind; [by destruct t; rewrite Hlast in Htail|].
    exists tail0, y. split; [done|]. rewrite map_app, Hlast in Htail.
    apply app_inj_tail in Htail as [_ Hy]. intros ->. subst c. done. }
  assert (TrimSuffix (str ".") host = host) as ->.
  { destruct Hhost as [->|[x ->]]; [by apply TrimSuffix_no_dot|].
    change (x ++ "."%char :: t' ++ [c'])%list with (x ++ ("."%char :: t') ++ [c'])%list.
    rewrite app_assoc. by apply TrimSuffix_no_dot. }
  destruct Hhost as [->|[x ->]].
  - left. by rewrite ToLower_ascii.
  - right. exists (ToLower lower_run x). rewrite ToLower_app_ascii by done.
    rewrite (ToLower_ascii _ (t' ++ [c'])) by done. by rewrite Htail.
Qed.

(** A host a glob matches ends with the glob's literal labels. *)
Lemma glob_ends_with lower_run glob ls host :
  literalGlobSuffix (MGlob glob) = Join (str ".") ls -> literal_labels ls ->
  Match glob host = Ok true ->
  ends_with (Join (str ".") ls) (ToLower lower_run (TrimSuffix (str ".") host)).
Proof.
  intros Hsuf Hls Hm.
  pose proof (literal_labels_host ls Hls) as Hhost.
  assert (forallb plain (Join (str ".") ls) = true) as Hplain
    by (eapply forallb_impl; [apply host_byte_plain|done]).
  apply (normalised_ends_with lower_run ls (Join (str ".") ls)); [done|by apply host_bytes_lower|].
  unfold literalGlobSuffix in Hsuf. destruct (bool_decide _) eqn:Eg.
  { apply bool_decide_eq_true in Eg as ->. rewrite <- Hsuf.
    unfold Match in Hm. apply Match_loop_nil in Hm as ->. by left. }
  destruct (literal_tail_spec (rev (Split "." glob))) as (rest & Hrest & _).
  set (tl := literal_tail (rev (Split "." glob))) in *.
  assert (Split "." glob = rev rest ++ rev tl)%list as Hsplit.
  { by rewrite <- rev_app_distr, <- Hrest, rev_involutive. }
  pose proof (Join_Split "." glob) as HJ. rewrite Hsplit in HJ.
  destruct (decide (rev rest = [])) as [Hr|Hr].
  - rewrite Hr in HJ. simpl in HJ. change ["."%char] with (str ".") in HJ.
    rewrite Hsuf in HJ. subst glob. left.
    destruct (Match_literal_suffix [] _ _ Hplain Hm) as (h & -> & Hh). by rewrite Hh.
  - right. assert (rev tl <> []) as Htl.
    { intros E. rewrite E in Hsuf. cbn [Join] in Hsuf.
      destruct (literal_labels_last ls Hls) as (t & c & Hl & _). rewrite <- Hsuf in Hl. by destruct t. }
    rewrite (Join_app ["."%char] (rev rest) (rev tl) Hr Htl) in HJ.
    change ["."%char] with (str ".") in HJ. rewrite Hsuf in HJ. subst glob.
    destruct (Match_literal_suffix (Join (str ".") (rev rest)) (str "." ++ Join (str ".") ls) host)
      as (h & -> & _); [by rewrite forallb_app, Hplain|done|]. by exists h.
Qed.

(** Likewise for a suffix of the suffix list. *)
Lemma suffix_ends_with lower_run s ls host :
  literal_labels ls -> s = Join (str ".") ls -> suffixMatch host s = true ->
  ends_with s (ToLower lower_run (TrimSuffix (str ".") host)).
Proof.
  intros Hls -> Hm. set (s := Join (str ".") ls) in *.
  assert (map lower_byte s = s) as Hlow by by apply host_bytes_lower, literal_labels_host.
  unfold suffixMatch in Hm. apply orb_true_iff in Hm as [Hm|Hm].
  - apply andb_true_iff in Hm as [_ Hm]. apply EqualFold_lower in Hm. rewrite Hlow in Hm.
    apply (normalised_ends_with lower_run ls host); [done|done|by left].
  - rewrite !andb_true_iff in Hm. destruct Hm as [[Hlen Hdot] Hm].
    apply EqualFold_lower in Hm. rewrite Hlow in Hm.
    apply (normalised_ends_with lower_run ls _ host Hls Hm). right.
    apply Nat.ltb_lt in Hlen. set (k := (length host - length s)%nat) in *.
    destruct (host !! (k - 1)%nat) as [c|] eqn:Ec; [|done]. apply Ascii.eqb_eq in Hdot as ->.
    exists (take (k - 1) host). apply take_drop_middle in Ec.
    replace (S (k - 1)) with k in Ec by lia. done.
Qed.

(** The suffixes under which the index files a matcher. *)
Definition indexed_suffixes (m : matcher) : option (list bytes) :=
  match importedSuffixRegex m with
  | Some ss => Some ss
  | None => if bool_decide (literalGlobSuffix m = []) then None else Some [literalGlobSuffix m]
  end.

Lemma literalGlobSuffix_labels m :
  literalGlobSuffix m <> [] ->
  exists glob ls, m = MGlob glob /\ literal_labels ls /\ literalGlobSuffix m = Join (str ".") ls.
Proof.
  destruct m as [| | |glob]; simpl; try done. destruct (bool_decide _); [done|].
  intros Hne. destruct (literal_tail_spec (rev (Split "." glob))) as (rest & _ & HF).
  eexists glob, _. split; [done|]. split; [|done]. split.
  - intros E. by rewrite E in Hne.
  - by apply Forall_rev.
Qed.

(** Every filed suffix is a sequence of literal labels. *)
Lemma indexed_suffixes_literal m ss s :
  matcher_wf m -> indexed_suffixes m = Some ss -> In s ss ->
  exists ls, literal_labels ls /\ s = Join (str ".") ls.
Proof.
  unfold indexed_suffixes. intros Hwf Hss Hin. destruct m as [|ss'| |glob]; simpl in Hss; try done.
  - simplify_eq. simpl in Hwf. rewrite Forall_forall in Hwf. by apply Hwf, list_elem_of_In.
  - destruct (bool_decide _) eqn:E in Hss; [done|]. apply bool_decide_eq_false in E. simplify_eq.
    destruct (literalGlobSuffix_labels (MGlob glob) E) as (? & ls & _ & Hls & Heq).
    destruct Hin as [<-|[]]. exists ls. done.
Qed.

(** A matcher filed under suffixes only matches hosts whose normal form ends
    with one of them. *)
Lemma indexed_match lower_run m ss host :
  matcher_wf m -> indexed_suffixes m = Some ss -> matcher_match m host = true ->
  exists s, In s ss /\ ends_with s (ToLower lower_run (TrimSuffix (str ".") host)).
Proof.
  unfold indexed_suffixes. intros Hwf Hss Hm. destruct m as [|ss'| |glob]; simpl in Hss; try done.
  - simplify_eq. simpl in Hm. apply existsb_exists in Hm as (s & Hin & Hm).
    exists s. split; [done|]. simpl in Hwf. rewrite Forall_forall in Hwf.
    destruct (Hwf s) as (ls & Hls & Hs); [by apply list_elem_of_In|].
    by eapply suffix_ends_with.
  - destruct (bool_decide _) eqn:E in Hss; [done|]. apply bool_decide_eq_false in E. simplify_eq.
    destruct (literalGlobSuffix_labels (MGlob glob) E) as (? & ls & _ & Hls & Heq).
    eexists. split; [by left|]. 
    simpl in Hm. destruct (Match glob host) as [[]|] eqn:Em; try done.
    exact (glob_ends_with lower_run glob ls host Heq Hls Em).
Qed.

End MatcherLemmas.
