(* ===== verification/Compile.v ===== *)
(** * Rule compilation (internal/rules/compile.go, outcall_action.go)

    Load-time validation of one rule file's http[] list: [Compile] and what it
    calls, with the refusals in the order the code makes them. *)

From S2P Require Import Prelude GoStrings Json Encoding Glob Schema Matcher.

Open Scope Z_scope.

(** ** Outcall actions *)

Definition OutcallDenylist : list bytes :=
  [str "Host"; str "Content-Length"; str "Transfer-Encoding"; str "Connection";
   str "Upgrade"; str "Te"].

Record CompiledOutcall : Type := {
  co_Socket : bytes;
  co_Path : bytes;
  co_URL : bytes;
  co_Send : list bytes;
  co_FailOpen : bool;
  co_CacheKey : bytes }.

(** [sortedParams]: the key/value pairs, by key. *)
Definition sortedParams (params : Params) : list any :=
  map (fun kv => AArr [AStr (fst kv); snd kv]) (sort_members params).

(** [outcallCacheKey]: the target and 8 digest bytes of the parameters. *)
Definition outcallCacheKey `{Digests} (socket path url : bytes) (params : Params) : bytes :=
  let target := if bool_decide (socket = []) then url else (socket ++ path)%list in
  let data := Marshal_any (AArr (sortedParams params)) in
  (target ++ str "#" ++ hex_encode (take 8 (sha256 data)))%list.

Definition has_param (p : Params) (key : bytes) : bool := bool_decide (is_Some (assoc key p)).

(** [compileOutcallAction]. *)
Definition compileOutcallAction `{Digests} (a : Action) : result CompiledOutcall :=
  let p := a_Params a in
  let socket := Params_String p (str "socket") in
  let url := Params_String p (str "url") in
  if Bool.eqb (bool_decide (is_Some socket)) (bool_decide (is_Some url)) then
    Error "exactly one of socket or url is required"
  else
    path ← (match socket with
            | Some _ =>
                match Params_String p (str "path") with
                | Some [] | None => Ok (str "/")
                | Some path => Ok path
                end
            | None =>
                if has_param p (str "path") then Error "path only applies to a socket target"
                else Ok []
            end);
    send ← (match Params_StringSlice p (str "send") with
            | Some send => Ok (map CanonicalMIMEHeaderKey send)
            | None =>
                if has_param p (str "send") then Error "send must be an array of header names"
                else Ok []
            end);
    failOpen ← (match Params_Bool p (str "failOpen") with
                | Some fo => Ok fo
                | None =>
                    if has_param p (str "failOpen") then Error "failOpen must be a bool"
                    else Ok false
                end);
    let socket := default [] socket in
    let url := default [] url in
    Ok {| co_Socket := socket; co_Path := path; co_URL := url; co_Send := send;
          co_FailOpen := failOpen; co_CacheKey := outcallCacheKey socket path url p |}.

(** ** Rules *)

Definition validRequestActions : list bytes :=
  [str "header.add"; str "header.set"; str "raise"; str "block";
   str "webhook"; str "header.fetch"].

Definition validResponseActions : list bytes :=
  [str "header.add"; str "header.set"; str "body.replace"; str "status.set"].

Record CompiledAction : Type := {
  ca_Name : bytes;
  ca_Params : Params;
  ca_Outcall : option CompiledOutcall }.

(** Map update [m[key] = v]. *)
Fixpoint assoc_set {V} (key : bytes) (v : V) (m : list (bytes * V)) : list (bytes * V) :=
  match m with
  | [] => [(key, v)]
  | (k, w) :: t => if bool_decide (k = key) then (key, v) :: t else (k, w) :: assoc_set key v t
  end.

(** The two outcall actions. *)
Definition is_outcall (name : bytes) : bool :=
  bool_decide (name = str "webhook") || bool_decide (name = str "header.fetch").

Section Compile.
Context `{RE : RegexEngine} `{DG : Digests}.

Record CompiledRule : Type := {
  connHost : matcher;
  connPort : matcher;
  connProto : matcher;
  msgPath : matcher;
  msgMethod : matcher;
  msgHeader : list (bytes * matcher);
  cr_mitm : bool;
  cr_deny : bool;
  cr_hasMsg : bool;
  cr_request : list CompiledAction;
  cr_response : list CompiledAction }.

Definition compileAction (valid : list bytes) (a : Action) : result CompiledAction :=
  if bool_decide (a_Action a ∈ valid) then
    outcall ← (if is_outcall (a_Action a) then Some <$> compileOutcallAction a else Ok None);
    Ok {| ca_Name := a_Action a; ca_Params := a_Params a; ca_Outcall := outcall |}
  else Error "unknown or phase-inapplicable action".

(** [compileActions]. *)
Definition compileActions (actions : list Action) (valid : list bytes) (phase : string)
    : result (list CompiledAction) :=
  wrap phase (mapM (compileAction valid) actions).

(** The loop over [match.header]: the keys are canonicalised, a later entry
    that canonicalises to the same name replaces the earlier one. *)
Fixpoint compileHeaders (hs : list (bytes * bytes)) (acc : list (bytes * matcher))
    : result (list (bytes * matcher)) :=
  match hs with
  | [] => Ok acc
  | (name, pattern) :: t =>
      m ← wrap "match.header" (compileMatcher pattern);
      compileHeaders t (assoc_set (CanonicalMIMEHeaderKey name) m acc)
  end.

(** The checks a [connection] block adds: the deny verdict, or a refusal. *)
Definition compileConnection (r : Rule) (hasMsg : bool) : result bool :=
  match r_Connection r with
  | None => Ok false
  | Some c =>
      match c_Accept c with
      | None => Error "connection.accept is required when connection is present"
      | Some true => Ok false
      | Some false =>
          if bool_decide (is_Some (r_MITM r)) then
            Error "a rule with connection.accept:false cannot also set mitm"
          else if hasMsg then
            Error "a rule with connection.accept:false cannot carry message-phase match fields"
          else if (0 <? length (r_Request r))%nat || (0 <? length (r_Response r))%nat then
            Error "a rule with connection.accept:false cannot carry request/response actions"
          else Ok true
      end
  end.

(** [compileRule]. *)
Definition compileRule (r : Rule) : result CompiledRule :=
  let m := r_Match r in
  host ← wrap "match.host" (compileMatcher (m_Host m));
  port ← wrap "match.port" (compileMatcher (m_Port m));
  proto ← wrap "match.proto" (compileMatcher (m_Proto m));
  path ← wrap "match.path" (compileMatcher (m_Path m));
  method ← wrap "match.method" (compileMatcher (m_Method m));
  header ← compileHeaders (m_Header m) [];
  let hasMsg := hasMessageFields m in
  if negb (rule_mitm r) && hasMsg then
    Error "mitm:false rule cannot carry message-phase match fields (path/method/header)"
  else
    deny ← compileConnection r hasMsg;
    request ← compileActions (r_Request r) validRequestActions "request";
    response ← compileActions (r_Response r) validResponseActions "response";
    Ok {| connHost := host; connPort := port; connProto := proto;
          msgPath := path; msgMethod := method; msgHeader := header;
          cr_mitm := negb deny && rule_mitm r;
          cr_deny := deny; cr_hasMsg := hasMsg;
          cr_request := request; cr_response := response |}.

(** [Compile]. *)
Definition Compile (rf : RuleFile) : result (list CompiledRule) :=
  mapM (fun r => wrap "rule" (compileRule r)) (rf_rules rf).

(** ** What compilation guarantees *)

(** The documented invariants of a compiled rule: a rule that denies the
    connection never intercepts and carries neither message fields nor actions;
    a rule that does not intercept has no message fields; request and response
    actions are those of their phase, and exactly the two outcall actions carry
    a compiled outcall; a rule without message fields matches any message. *)
Record rule_ok (r : CompiledRule) : Prop := {
  ok_deny : cr_deny r = true ->
    cr_mitm r = false /\ cr_hasMsg r = false /\ cr_request r = [] /\ cr_response r = [];
  ok_splice : cr_mitm r = false -> cr_hasMsg r = false;
  ok_request : Forall (fun a => ca_Name a ∈ validRequestActions
                 /\ (is_Some (ca_Outcall a) <-> is_outcall (ca_Name a) = true)) (cr_request r);
  ok_response : Forall (fun a => ca_Name a ∈ validResponseActions /\ ca_Outcall a = None)
                  (cr_response r);
  ok_nomsg : cr_hasMsg r = false -> msgPath r = MAlways /\ msgMethod r = MAlways /\ msgHeader r = [];
  ok_host : matcher_wf (connHost r) }.

Lemma compileAction_ok valid a ca :
  compileAction valid a = Ok ca ->
  ca_Name ca ∈ valid /\ (is_Some (ca_Outcall ca) <-> is_outcall (ca_Name ca) = true).
Proof.
  unfold compileAction. case_bool_decide as Hv; [|done]. intros H. inv_ok. subst ca. simpl.
  split; [done|]. destruct (is_outcall (a_Action a)); inv_ok; subst; [|naive_solver].
  split; eauto.
Qed.

Lemma compileActions_ok l valid phase k :
  compileActions l valid phase = Ok k ->
  Forall (fun a => ca_Name a ∈ valid
            /\ (is_Some (ca_Outcall a) <-> is_outcall (ca_Name a) = true)) k.
Proof. unfold compileActions. intros H. inv_ok. eapply mapM_Forall; [done|]. apply compileAction_ok. Qed.

Lemma validResponse_not_outcall n : n ∈ validResponseActions -> is_outcall n = false.
Proof.
  unfold validResponseActions. rewrite !elem_of_cons, elem_of_nil.
  intros H. by destruct_or?; subst.
Qed.

Lemma compileConnection_deny r hasMsg :
  compileConnection r hasMsg = Ok true ->
  hasMsg = false /\ r_Request r = [] /\ r_Response r = [].
Proof.
  unfold compileConnection. destruct (r_Connection r) as [c|]; [|done].
  destruct (c_Accept c) as [[]|]; [done| |done]. case_bool_decide; [done|].
  destruct hasMsg; [done|]. destruct (r_Request r), (r_Response r); simpl; done.
Qed.

Lemma compileMatcher_nil p m : compileMatcher p = Ok m -> p = [] -> m = MAlways.
Proof. intros H ->. by injection H. Qed.

Lemma hasMessageFields_false m :
  hasMessageFields m = false -> m_Path m = [] /\ m_Method m = [] /\ m_Header m = [].
Proof.
  unfold hasMessageFields. rewrite !orb_false_iff, !negb_false_iff, !bool_decide_eq_true.
  intros [[? ?] Hh]. split_and!; [done|done|]. by destruct (m_Header m).
Qed.

Lemma compileRule_ok r cr : compileRule r = Ok cr -> rule_ok cr.
Proof.
  unfold compileRule. intros H. inv_ok. destruct (_ && _) eqn:Em in H; [done|]. inv_ok. subst cr.
  match goal with H : compileConnection _ _ = Ok ?d |- _ => rename d into deny; rename H into Hc end.
  match goal with H : compileActions _ validRequestActions _ = Ok _ |- _ => rename H into Hreq end.
  match goal with H : compileActions _ validResponseActions _ = Ok _ |- _ => rename H into Hresp end.
  constructor; simpl.
  - intros ->. apply compileConnection_deny in Hc as (? & Hq & Hs).
    rewrite Hq in Hreq. rewrite Hs in Hresp. injection Hreq as <-. injection Hresp as <-. done.
  - rewrite andb_false_iff, negb_false_iff. intros [->|Hm].
    + by apply compileConnection_deny in Hc as (? & _).
    + by rewrite Hm in Em.
  - by apply compileActions_ok in Hreq.
  - apply compileActions_ok in Hresp. eapply Forall_impl; [exact Hresp|].
    intros a [Ha Ho]. split; [done|]. apply validResponse_not_outcall in Ha. simpl in Ho.
    destruct (ca_Outcall a); [|done]. rewrite Ha in Ho. naive_solver.
  - intros (Hp & Hm & Hh)%hasMessageFields_false.
    match goal with H : compileHeaders _ _ = Ok _ |- _ => rewrite Hh in H; injection H as <- end.
    split_and!; [by eapply compileMatcher_nil|by eapply compileMatcher_nil|done].
  - by eapply compileMatcher_wf.
Qed.

Lemma Compile_ok rf rules : Compile rf = Ok rules -> Forall rule_ok rules.
Proof.
  intros H. eapply mapM_Forall; [done|]. intros r cr Hr. cbv beta in Hr. inv_ok.
  by eapply compileRule_ok.
Qed.

End Compile.
