(* ===== verification/HostIndex.v ===== *)
(** * The host candidate index (internal/rules/host_index.go)

    The reversed-label tree built at compile time, its flattening into four
    slices, the binary search over a node's edges and the candidate walk.  The
    index only narrows which rules are tried; [candidates_complete] states that
    it never loses one whose host pattern matches. *)

From S2P Require Import Prelude GoStrings Glob Json Encoding Schema Matcher Compile.

Open Scope Z_scope.

(** The Unicode case table behind [strings.ToLower] on non-ASCII bytes. *)
Class UnicodeTable : Type := { lower_run : bytes -> bytes }.

(** A table that leaves non-ASCII text alone, for evaluating the definitions. *)
Definition ascii_table : UnicodeTable := {| lower_run := fun s => s |}.

(** ** The labels of a host, right to left

    The loop [for end := len(host); end > 0] shared by insertion and lookup:
    each round takes [host[start:end]] after the last dot of [host[:end]]. *)
Fixpoint walkLabels (fuel : nat) (host : bytes) : list bytes :=
  match fuel with
  | O => []
  | S f =>
      if bool_decide (host = []) then []
      else match CutLast "." host with
           | None => [host]
           | Some (pre, label) => label :: walkLabels f pre
           end
  end.

Definition hostLabels (host : bytes) : list bytes := walkLabels (length host) host.

(** ** The tree used while compiling *)

Inductive mnode : Type := MNode (children : list (bytes * mnode)) (rules : list nat).

Definition children (n : mnode) : list (bytes * mnode) := match n with MNode c _ => c end.
Definition rules (n : mnode) : list nat := match n with MNode _ r => r end.

Definition empty_node : mnode := MNode [] [].

(** [insertHostSuffix] along the labels of the suffix. *)
Fixpoint insertLabels (labels : list bytes) (ruleID : nat) (node : mnode) : mnode :=
  match labels with
  | [] =>
      if bool_decide (last (rules node) = Some ruleID) then node
      else MNode (children node) (rules node ++ [ruleID])
  | label :: t =>
      let child := default empty_node (assoc label (children node)) in
      MNode (assoc_set label (insertLabels t ruleID child) (children node)) (rules node)
  end.

Definition insertHostSuffix (root : mnode) (host : bytes) (ruleID : nat) : mnode :=
  insertLabels (hostLabels host) ruleID root.

(** ** The compact form *)

Record hostIndexNode : Type := {
  edgeStart : Z;
  edgeCount : Z;
  ruleStart : Z;
  ruleCount : Z }.

Record hostIndexEdge : Type := { e_label : bytes; e_child : Z }.

Record hostCandidateIndex : Type := {
  nodes : list hostIndexNode;
  edges : list hostIndexEdge;
  ruleIDs : list nat;
  fallback : list nat }.

(** A [uint32] conversion. *)
Definition u32 (n : Z) : Z := n mod 2 ^ 32.

(** The breadth-first numbering: [builders] grows while position [pos] runs
    over it; [kids] records each visited node's sorted labels with the numbers
    given to the children. *)
Fixpoint bfs (fuel pos : nat) (builders : list mnode) (kids : list (list (bytes * nat)))
    : list mnode * list (list (bytes * nat)) :=
  match fuel with
  | O => (builders, kids)
  | S f =>
      match builders !! pos with
      | None => (builders, kids)
      | Some node =>
          let labels := SortStrings (map fst (children node)) in
          let ids := zip labels (seq (length builders) (length labels)) in
          let added := map (fun l => default empty_node (assoc l (children node))) labels in
          bfs f (S pos) (builders ++ added) (kids ++ [ids])
      end
  end.

Fixpoint node_size (n : mnode) : nat :=
  match n with
  | MNode c _ => S ((fix go l := match l with
                                 | [] => 0%nat
                                 | x :: t => (node_size (snd x) + go t)%nat
                                 end) c)
  end.

(** The filling loop of [compactHostIndex]. *)
Fixpoint fillIndex (builders : list mnode) (kids : list (list (bytes * nat)))
    (idx : hostCandidateIndex) : hostCandidateIndex :=
  match builders, kids with
  | b :: bs, k :: ks =>
      let es := u32 (Z.of_nat (length (edges idx))) in
      let edges' := (edges idx ++ map (fun '(l, c) => {| e_label := l; e_child := u32 (Z.of_nat c) |}) k)%list in
      let rs := u32 (Z.of_nat (length (ruleIDs idx))) in
      let ruleIDs' := (ruleIDs idx ++ rules b)%list in
      let node := {| edgeStart := es;
                     edgeCount := u32 (u32 (Z.of_nat (length edges')) - es);
                     ruleStart := rs;
                     ruleCount := u32 (u32 (Z.of_nat (length ruleIDs')) - rs) |} in
      fillIndex bs ks {| nodes := (nodes idx ++ [node])%list; edges := edges';
                         ruleIDs := ruleIDs'; fallback := fallback idx |}
  | _, _ => idx
  end.

(** [compactHostIndex]; one round of [bfs] per node is enough. *)
Definition compactHostIndex (root : mnode) (fb : list nat) : hostCandidateIndex :=
  let '(builders, kids) := bfs (node_size root) 0 [root] [] in
  fillIndex builders kids {| nodes := []; edges := []; ruleIDs := []; fallback := fb |}.

(** The binary search of [findChild] over [edges[lo, hi)]. *)
Fixpoint searchEdges (fuel : nat) (es : list hostIndexEdge) (label : bytes) (lo hi : Z) : Z :=
  match fuel with
  | O => lo
  | S f =>
      if lo <? hi then
        let mid := (lo + hi) / 2 in
        match es !! Z.to_nat mid with
        | Some edge =>
            if bytes_ltb (e_label edge) label then searchEdges f es label (mid + 1) hi
            else searchEdges f es label lo mid
        | None => lo
        end
      else lo
  end.

Definition findChild (i : hostCandidateIndex) (nodeID : Z) (label : bytes) : option Z :=
  match nodes i !! Z.to_nat nodeID with
  | None => None
  | Some node =>
      let lo0 := edgeStart node in
      let hi0 := lo0 + edgeCount node in
      let lo := searchEdges (Z.to_nat (edgeCount node)) (edges i) label lo0 hi0 in
      if lo =? u32 (edgeStart node + edgeCount node) then None
      else match edges i !! Z.to_nat lo with
           | Some e => if bool_decide (e_label e = label) then Some (e_child e) else None
           | None => None
           end
  end.

(** The walk of [appendCandidates]: the rules of every node on the path. *)
Fixpoint walkIndex (i : hostCandidateIndex) (nodeID : Z) (labels : list bytes) : list nat :=
  match labels with
  | [] => []
  | label :: t =>
      match findChild i nodeID label with
      | None => []
      | Some childID =>
          match nodes i !! Z.to_nat childID with
          | None => []
          | Some node =>
              (take (Z.to_nat (ruleCount node)) (drop (Z.to_nat (ruleStart node)) (ruleIDs i))
               ++ walkIndex i childID t)%list
          end
      end
  end.

(** The in-place removal of adjacent duplicates. *)
Fixpoint dedup (l : list nat) : list nat :=
  match l with
  | x :: ((y :: _) as t) => if (x =? y)%nat then dedup t else x :: dedup t
  | _ => l
  end.

Section HostIndex.
Context `{RE : RegexEngine} `{DG : Digests} `{UT : UnicodeTable}.

(** [buildHostCandidateIndex]: the tree and the fallback list. *)
Fixpoint buildTree (rs : list CompiledRule) (ruleID : nat) (root : mnode) (fb : list nat)
    : mnode * list nat :=
  match rs with
  | [] => (root, fb)
  | r :: t =>
      let m := connHost r in
      match importedSuffixRegex m with
      | Some suffixes =>
          buildTree t (S ruleID)
            (foldl (fun n s => insertHostSuffix n s ruleID) root suffixes) fb
      | None =>
          let suffix := literalGlobSuffix m in
          if bool_decide (suffix = []) then buildTree t (S ruleID) root (fb ++ [ruleID])
          else buildTree t (S ruleID) (insertHostSuffix root suffix ruleID) fb
      end
  end.

Definition buildHostCandidateIndex (rs : list CompiledRule) : hostCandidateIndex :=
  let '(root, fb) := buildTree rs 0 empty_node [] in compactHostIndex root fb.

(** [appendCandidates] on an empty result slice. *)
Definition appendCandidates (i : hostCandidateIndex) (host : bytes) : list nat :=
  let host := ToLower lower_run (TrimSuffix (str ".") host) in
  match nodes i with
  | [] => fallback i
  | _ => dedup (merge_sort le (fallback i ++ walkIndex i 0 (hostLabels host)))
  end.

End HostIndex.

(** ** The labels of a host *)

Lemma walkLabels_fuel f host : (length host <= f)%nat -> walkLabels f host = hostLabels host.
Proof.
  unfold hostLabels. remember (length host) as n eqn:Hn.
  assert (forall n f host, (length host <= n)%nat -> (length host <= f)%nat ->
            walkLabels f host = walkLabels n host) as Hgen.
  { clear. induction n as [|n IH]; intros f host H1 H2.
    - destruct host; [|simpl in H1; lia]. by destruct f.
    - destruct f as [|f]; [by destruct host; [|simpl in H2; lia]|].
      simpl. destruct (bool_decide _); [done|].
      destruct (CutLast "." host) as [[pre label]|] eqn:E; [|done].
      apply CutLast_Some in E as [-> _]. rewrite length_app in H1, H2. simpl in H1, H2.
      f_equal. apply IH; lia. }
  intros H. apply Hgen; lia.
Qed.

Lemma hostLabels_snoc pre label :
  "."%char ∉ label -> hostLabels (pre ++ "."%char :: label) = label :: hostLabels pre.
Proof.
  intros Hl. unfold hostLabels at 1.
  destruct (length (pre ++ "."%char :: label)) as [|n] eqn:En.
  { rewrite length_app in En. simpl in En. lia. }
  simpl. rewrite bool_decide_false by by destruct pre.
  assert (CutLast "." (pre ++ "."%char :: label) = Some (pre, label)) as -> by by apply CutLast_Some.
  f_equal. apply walkLabels_fuel. rewrite length_app in En. simpl in En. lia.
Qed.

Lemma hostLabels_single label : label <> [] -> "."%char ∉ label -> hostLabels label = [label].
Proof.
  intros Hne Hl. unfold hostLabels. destruct label as [|c l]; [done|].
  cbn [length walkLabels]. rewrite bool_decide_false by done.
  by apply CutLast_None in Hl as ->.
Qed.

Lemma hostLabels_join_after h ls :
  ls <> [] -> Forall (fun l => "."%char ∉ l) ls ->
  hostLabels (h ++ "."%char :: Join (str ".") ls) = (rev ls ++ hostLabels h)%list.
Proof.
  induction ls as [|l ls IH] using rev_ind; [done|]. intros _ [Hls Hl]%Forall_app.
  rewrite Forall_singleton in Hl. rewrite rev_app_distr. simpl rev. 
  destruct ls as [|l0 ls]; [simpl; by apply hostLabels_snoc|].
  rewrite Join_app by done. simpl Join at 2.
  replace (h ++ "."%char :: Join (str ".") (l0 :: ls) ++ str "." ++ l)%list
    with ((h ++ "."%char :: Join (str ".") (l0 :: ls)) ++ "."%char :: l)%list
    by by rewrite <- app_assoc.
  rewrite hostLabels_snoc by done. rewrite IH by done. done.
Qed.

Lemma hostLabels_join ls : literal_labels ls -> hostLabels (Join (str ".") ls) = rev ls.
Proof.
  intros Hls. pose proof (literal_labels_no_dot ls Hls) as Hnd. destruct Hls as [Hne Hls].
  destruct ls as [|l ls]; [done|].
  apply Forall_cons in Hls as [Hl _]. apply isLiteralDNSLabel_spec in Hl as [Hlne _].
  apply Forall_cons in Hnd as [Hld Hnd].
  destruct ls as [|l' ls]; [by apply hostLabels_single|].
  rewrite Join_cons by done. change (str "." ++ ?x)%list with ("."%char :: x).
  rewrite hostLabels_join_after by done. rewrite hostLabels_single by done. done.
Qed.

(** The walk over a host that ends with a filed suffix starts with the path
    the suffix was filed under. *)
Lemma hostLabels_ends_with ls host :
  literal_labels ls -> ends_with (Join (str ".") ls) host ->
  exists w, hostLabels host = (hostLabels (Join (str ".") ls) ++ w)%list.
Proof.
  intros Hls [->|[x ->]]; [exists []; by rewrite app_nil_r|].
  exists (hostLabels x). rewrite (hostLabels_join ls Hls).
  apply hostLabels_join_after; [apply Hls|by apply literal_labels_no_dot].
Qed.

(** ** The tree *)

(** The rules on the path [labels] below [n]. *)
Fixpoint collect (n : mnode) (labels : list bytes) : list nat :=
  match labels with
  | [] => []
  | l :: t =>
      match assoc l (children n) with
      | None => []
      | Some c => (rules c ++ collect c t)%list
      end
  end.

Lemma assoc_set_eq {V} k (v : V) m : assoc k (assoc_set k v m) = Some v.
Proof.
  induction m as [|[k' w] m IH]; simpl; [by rewrite bool_decide_true|].
  destruct (bool_decide_reflect (k' = k)); simpl; [by rewrite bool_decide_true|].
  by rewrite bool_decide_false.
Qed.

Lemma assoc_set_ne {V} k k' (v : V) m : k <> k' -> assoc k' (assoc_set k v m) = assoc k' m.
Proof.
  intros Hne. induction m as [|[k2 w] m IH]; simpl; [by rewrite bool_decide_false|].
  destruct (bool_decide_reflect (k2 = k)) as [->|]; simpl.
  - by rewrite !bool_decide_false.
  - by rewrite IH.
Qed.

Lemma insertLabels_rules labels id n :
  rules (insertLabels labels id n)
  = match labels with
    | [] => if bool_decide (last (rules n) = Some id) then rules n else rules n ++ [id]
    | _ => rules n
    end%list.
Proof. destruct labels; simpl; [|done]. by case_match. Qed.

Lemma insertLabels_rules_elem labels id n x :
  x ∈ rules (insertLabels labels id n) <-> x ∈ rules n \/ (labels = [] /\ x = id).
Proof.
  rewrite insertLabels_rules. destruct labels; [|naive_solver].
  case_bool_decide as Hl; [|set_solver].
  split; [by left|]. intros [?|[_ ->]]; [done|].
  apply last_Some in Hl as [l' ->]. set_solver.
Qed.

(** After an insertion the path [w] collects what it did before, and [id] when
    the inserted path is an initial part of [w]. *)
Lemma collect_insert labels id n w x :
  x ∈ collect (insertLabels labels id n) w
  <-> x ∈ collect n w \/ (labels <> [] /\ (exists u, w = labels ++ u)%list /\ x = id).
Proof.
  revert n w. induction labels as [|l labels IH]; intros n w.
  - destruct w as [|l' w]; simpl; [set_solver|].
    destruct (bool_decide _); simpl; naive_solver.
  - destruct w as [|l' w].
    { simpl. split; [set_solver|]. intros [?|(_ & (u & Hu) & _)]; done. }
    cbn [insertLabels collect children].
    destruct (decide (l = l')) as [->|Hne].
    2:{ rewrite assoc_set_ne by done. split; [by left|].
        intros [?|(_ & (u & Hu) & _)]; [done|]. simplify_eq/=. }
    rewrite assoc_set_eq, elem_of_app, insertLabels_rules_elem, IH.
    assert ((exists u, l' :: w = (l' :: labels) ++ u) <-> (exists u, w = labels ++ u))%list as ->.
    { split; intros [u Hu]; exists u; simplify_eq/=; done. }
    assert (x ∈ match assoc l' (children n) with
                | Some c => rules c ++ collect c w | None => [] end
            <-> x ∈ rules (default empty_node (assoc l' (children n)))
                \/ x ∈ collect (default empty_node (assoc l' (children n))) w) as ->.
    { destruct (assoc l' (children n)) as [c|]; simpl; [by rewrite elem_of_app|].
      destruct w; simpl; set_solver. }
    destruct labels as [|l2 labels]; [|naive_solver].
    assert (exists u, w = [] ++ u)%list by by exists w. naive_solver.
Qed.

(** ** Well-formed trees: a node's child labels are distinct *)

Inductive tree_wf : mnode -> Prop :=
  | tree_wf_node c r :
      NoDup (map fst c) -> Forall (fun kv => tree_wf (snd kv)) c -> tree_wf (MNode c r).

Lemma tree_wf_inv n :
  tree_wf n <-> NoDup (map fst (children n)) /\ Forall (fun kv => tree_wf (snd kv)) (children n).
Proof. destruct n as [c r]. split; [by inversion 1|]. intros [? ?]. by constructor. Qed.

Lemma assoc_Some_elem {V} k (v : V) m : assoc k m = Some v -> (k, v) ∈ m.
Proof.
  induction m as [|[k' w] m IH]; simpl; [done|]. case_bool_decide; [|set_solver].
  intros [= ->]. subst. by left.
Qed.

Lemma assoc_None_notin {V} k (m : list (bytes * V)) : assoc k m = None <-> k ∉ map fst m.
Proof.
  induction m as [|[k' w] m IH]; simpl; [split; [intros _; apply not_elem_of_nil|done]|].
  rewrite not_elem_of_cons. case_bool_decide; naive_solver.
Qed.

Lemma assoc_set_keys_elem {V} k (v : V) m x : x ∈ map fst (assoc_set k v m) <-> x = k \/ x ∈ map fst m.
Proof.
  induction m as [|[k' w] m IH]; simpl; [set_solver|].
  case_bool_decide; simpl; set_solver.
Qed.

Lemma assoc_set_NoDup {V} k (v : V) m : NoDup (map fst m) -> NoDup (map fst (assoc_set k v m)).
Proof.
  induction m as [|[k' w] m IH]; simpl.
  { intros _. apply NoDup_singleton. }
  intros [Hn Hd]%NoDup_cons. case_bool_decide; simpl; constructor; subst; try done; [|by apply IH].
  rewrite assoc_set_keys_elem. naive_solver.
Qed.

Lemma assoc_set_Forall {V} (P : V -> Prop) k (v : V) m :
  P v -> Forall (fun kv => P (snd kv)) m -> Forall (fun kv => P (snd kv)) (assoc_set k v m).
Proof.
  intros Hv. induction m as [|[k' w] m IH]; simpl; intros Hm; [by repeat constructor|].
  apply Forall_cons in Hm as [? ?]. case_bool_decide; constructor; auto.
Qed.

Lemma insertLabels_wf labels id n : tree_wf n -> tree_wf (insertLabels labels id n).
Proof.
  revert n. induction labels as [|l labels IH]; intros n Hn; simpl.
  - case_bool_decide; [done|]. apply tree_wf_inv in Hn. by apply tree_wf_inv.
  - pose proof (proj1 (tree_wf_inv n) Hn) as [Hd Hc]. apply tree_wf_inv. simpl.
    split; [by apply assoc_set_NoDup|]. apply assoc_set_Forall; [|done]. apply IH.
    destruct (assoc l (children n)) as [c|] eqn:E; simpl; [|by repeat constructor].
    apply assoc_Some_elem in E. rewrite Forall_forall in Hc. by apply (Hc _ E).
Qed.

Lemma node_size_eq n : node_size n = S (sum_list (map (fun kv => node_size (snd kv)) (children n))).
Proof.
  destruct n as [c r]. simpl. f_equal. induction c as [|x c IH]; simpl; [done|]. by rewrite <- IH.
Qed.

Lemma assoc_map_snd {V} (d : V) (m : list (bytes * V)) :
  NoDup (map fst m) -> map (fun l => default d (assoc l m)) (map fst m) = map snd m.
Proof.
  intros Hd. rewrite map_map. apply map_ext_in. intros [k v] Hin%list_elem_of_In. simpl.
  induction m as [|[k' w] m IH]; [set_solver|]. simpl in *. apply NoDup_cons in Hd as [Hn Hd].
  case_bool_decide as Hk.
  - subst. apply elem_of_cons in Hin as [[= ->]|Hin]; [done|]. exfalso. apply Hn.
    apply list_elem_of_In in Hin. by apply list_elem_of_In, (in_map fst _ _ Hin).
  - apply elem_of_cons in Hin as [[= -> ->]|Hin]; [done|]. by apply IH.
Qed.

Lemma added_size n :
  tree_wf n ->
  sum_list (map node_size
    (map (fun l => default empty_node (assoc l (children n))) (SortStrings (map fst (children n)))))
  = (node_size n - 1)%nat.
Proof.
  intros [Hd _]%tree_wf_inv. rewrite node_size_eq. simpl. rewrite Nat.sub_0_r.
  transitivity (sum_list (map node_size (map snd (children n)))); [|by rewrite map_map].
  apply sum_list_perm. rewrite <- (assoc_map_snd empty_node) by done.
  apply Permutation_map, Permutation_map, SortStrings_perm.
Qed.

(** ** The breadth-first numbering *)

(** [k] lists the node's labels in order, each with the number of its child. *)
Definition kids_ok (B : list mnode) (n : mnode) (k : list (bytes * nat)) : Prop :=
  map fst k = SortStrings (map fst (children n))
  /\ forall l c, (l, c) ∈ k -> exists child, assoc l (children n) = Some child /\ B !! c = Some child.

Definition bfs_inv (pos : nat) (B : list mnode) (K : list (list (bytes * nat))) : Prop :=
  length K = pos /\ (pos <= length B)%nat /\ Forall tree_wf B
  /\ forall p n k, B !! p = Some n -> K !! p = Some k -> kids_ok B n k.

Lemma kids_ok_app B B' n k : kids_ok B n k -> kids_ok (B ++ B') n k.
Proof.
  intros [Hf Hk]. split; [done|]. intros l c Hin. destruct (Hk l c Hin) as (ch & ? & ?).
  exists ch. split; [done|]. by apply lookup_app_l_Some.
Qed.

Lemma bfs_step pos B K node :
  bfs_inv pos B K -> B !! pos = Some node ->
  let labels := SortStrings (map fst (children node)) in
  bfs_inv (S pos)
    (B ++ map (fun l => default empty_node (assoc l (children node))) labels)
    (K ++ [zip labels (seq (length B) (length labels))]).
Proof.
  intros (Hlen & Hpos & Hwf & Hk) Hnode labels.
  assert (tree_wf node) as Hn by (rewrite Forall_lookup in Hwf; eauto).
  pose proof (proj1 (tree_wf_inv node) Hn) as [_ Hch].
  assert (forall l, l ∈ labels -> exists ch, assoc l (children node) = Some ch) as Hassoc.
  { intros l Hl. subst labels. rewrite SortStrings_perm in Hl.
    destruct (assoc l (children node)) as [ch|] eqn:E; [eauto|].
    by apply assoc_None_notin in E. }
  split_and!.
  - rewrite length_app. simpl. lia.
  - rewrite length_app. apply lookup_lt_Some in Hnode. lia.
  - apply Forall_app. split; [done|]. apply Forall_map, Forall_forall. intros l Hl.
    destruct (Hassoc l Hl) as [ch Hc]. rewrite Hc. simpl. apply assoc_Some_elem in Hc.
    rewrite Forall_forall in Hch. by apply (Hch _ Hc).
  - intros p n k Hp Hkp. apply lookup_app_Some in Hkp as [Hkp|[Hge Hkp]].
    + apply kids_ok_app. apply (Hk p); [|done]. apply lookup_lt_Some in Hkp.
      by rewrite lookup_app_l in Hp by lia.
    + apply list_lookup_singleton_Some in Hkp as [Hp0 <-].
      assert (p = pos) as -> by lia. apply lookup_lt_Some in Hnode as Hlt.
      rewrite lookup_app_l in Hp by lia. simplify_eq. split.
      * rewrite fst_zip; [done|]. by rewrite length_seq.
      * intros l c Hin. apply list_elem_of_lookup in Hin as [i Hi].
        apply lookup_zip_Some in Hi as [Hli Hci]. apply lookup_seq in Hci as [-> Hi].
        destruct (Hassoc l) as [ch Hc]; [by eapply list_elem_of_lookup_2|].
        exists ch. split; [done|]. rewrite lookup_app_r by lia.
        rewrite list_lookup_fmap. replace (length B + i - length B)%nat with i by lia.
        rewrite Hli. simpl. by rewrite Hc.
Qed.

(** With one round per node of the tree, every builder is visited. *)
Lemma bfs_complete fuel pos B K :
  bfs_inv pos B K -> (sum_list (map node_size (drop pos B)) <= fuel)%nat ->
  exists B' K', bfs fuel pos B K = (B ++ B', K')%list
                /\ bfs_inv (length (B ++ B')) (B ++ B') K'.
Proof.
  revert pos B K. induction fuel as [|f IH]; intros pos B K Hinv Hsize.
  - exists [], K. rewrite app_nil_r. split; [done|].
    pose proof Hinv as (_ & Hpos & _). 
    assert (drop pos B = []) as Hd.
    { destruct (drop pos B) as [|n l]; [done|]. simpl in Hsize. rewrite node_size_eq in Hsize. lia. }
    assert (pos = length B) as <-; [|done].
    apply (f_equal length) in Hd. rewrite length_drop in Hd. simpl in Hd. lia.
  - simpl. destruct (B !! pos) as [node|] eqn:Hnode.
    + pose proof (bfs_step pos B K node Hinv Hnode) as Hinv'. simpl in Hinv'.
      set (added := map _ (SortStrings _)) in *.
      destruct (IH _ _ _ Hinv') as (B' & K' & -> & Hfin).
      { pose proof Hinv as (_ & _ & Hwf & _). rewrite Forall_lookup in Hwf.
        pose proof (added_size node (Hwf _ _ Hnode)) as Hadd. fold added in Hadd.
        apply lookup_lt_Some in Hnode as Hlt.
        rewrite (drop_S _ _ _ Hnode) in Hsize. simpl in Hsize.
        rewrite drop_app_le by lia. rewrite map_app, sum_list_app, Hadd.
        pose proof (node_size_eq node). lia. }
      exists (added ++ B')%list, K'. by rewrite app_assoc.
    + exists [], K. rewrite app_nil_r. split; [done|].
      pose proof Hinv as (_ & Hpos & _). apply lookup_ge_None in Hnode.
      by replace (length B) with pos by lia.
Qed.

(** ** The flat slices *)

Definition mk_edge (lc : bytes * nat) : hostIndexEdge :=
  {| e_label := fst lc; e_child := u32 (Z.of_nat (snd lc)) |}.

(** The slices stay below 2^32 entries, so no offset wraps. *)
Definition index_fits (i : hostCandidateIndex) : Prop :=
  Z.of_nat (length (nodes i)) <= 2 ^ 32
  /\ Z.of_nat (length (edges i)) < 2 ^ 32
  /\ Z.of_nat (length (ruleIDs i)) < 2 ^ 32.

(** The node's two windows into the shared slices. *)
Definition node_ok (i : hostCandidateIndex) (nd : hostIndexNode) (b : mnode) (k : list (bytes * nat)) : Prop :=
  (exists pre post, edges i = (pre ++ map mk_edge k ++ post)%list
     /\ edgeStart nd = Z.of_nat (length pre) /\ edgeCount nd = Z.of_nat (length k))
  /\ (exists pre post, ruleIDs i = (pre ++ rules b ++ post)%list
     /\ ruleStart nd = Z.of_nat (length pre) /\ ruleCount nd = Z.of_nat (length (rules b))).

Lemma u32_small n : 0 <= n < 2 ^ 32 -> u32 n = n.
Proof. apply Z.mod_small. Qed.

Lemma fillIndex_extends bs ks i :
  exists E R, edges (fillIndex bs ks i) = (edges i ++ E)%list
    /\ ruleIDs (fillIndex bs ks i) = (ruleIDs i ++ R)%list
    /\ fallback (fillIndex bs ks i) = fallback i.
Proof.
  revert ks i. induction bs as [|b bs IH]; intros [|k ks] i; simpl;
    try (exists [], []; by rewrite !app_nil_r).
  edestruct IH as (E & R & -> & -> & ->). simpl. eexists _, _. rewrite <- !app_assoc. eauto.
Qed.

Lemma fillIndex_nodes bs ks i :
  length bs = length ks ->
  index_fits (fillIndex bs ks i) ->
  (exists N, nodes (fillIndex bs ks i) = (nodes i ++ N)%list
     /\ length N = length bs
     /\ forall p nd b k, N !! p = Some nd -> bs !! p = Some b -> ks !! p = Some k ->
        node_ok (fillIndex bs ks i) nd b k).
Proof.
  revert ks i. induction bs as [|b bs IH]; intros [|k ks] i Hlen Hfits; simplify_eq/=.
  { exists []. rewrite app_nil_r. split_and!; [done|done|]. intros p nd b k Hp. by rewrite lookup_nil in Hp. }
  match goal with |- context [fillIndex bs ks ?j] => set (i' := j) in * end.
  destruct (IH ks i' Hlen Hfits) as (N & HN & HlenN & Hok).
  eexists (_ :: N). rewrite HN. split; [simpl; by rewrite <- app_assoc|].
  split; [simpl; by rewrite HlenN|].
  intros [|p] nd b' k' Hp Hb Hk; simpl in *; [|by eapply Hok].
  simplify_eq. destruct (fillIndex_extends bs ks i') as (E & R & HE & HR & _).
  destruct Hfits as (_ & Hfe & Hfr). rewrite HE, length_app in Hfe. rewrite HR, length_app in Hfr.
  subst i'. simpl in HE, HR, Hfe, Hfr. rewrite length_app, length_map in Hfe. rewrite length_app in Hfr.
  split; simpl.
  - exists (edges i), E. rewrite HE, <- app_assoc. split.
    { f_equal. f_equal. apply map_ext. by intros []. }
    rewrite !length_app, length_map, (u32_small (Z.of_nat (length (edges i)))),
      (u32_small (Z.of_nat (length (edges i) + _))) by lia.
    rewrite u32_small by lia. split; lia.
  - exists (ruleIDs i), R. rewrite HR, <- app_assoc. split; [done|].
    rewrite !length_app, (u32_small (Z.of_nat (length (ruleIDs i)))),
      (u32_small (Z.of_nat (length (ruleIDs i) + _))) by lia.
    rewrite u32_small by lia. split; lia.
Qed.

(** ** The binary search *)

(** Labels in strictly increasing order. *)
Definition labels_sorted (k : list (bytes * nat)) : Prop :=
  forall i j x y, (i < j)%nat -> k !! i = Some x -> k !! j = Some y ->
    bytes_ltb (fst x) (fst y) = true.

(** Every label before [r] is below [label], none from [r] on is. *)
Definition splits (k : list (bytes * nat)) (label : bytes) (r : nat) : Prop :=
  (forall j x, (j < r)%nat -> k !! j = Some x -> bytes_ltb (fst x) label = true)
  /\ (forall j x, (r <= j)%nat -> k !! j = Some x -> bytes_ltb (fst x) label = false).

Lemma searchEdges_spec fuel es pre k post label a b :
  es = (pre ++ map mk_edge k ++ post)%list -> labels_sorted k ->
  (a <= b <= length k)%nat -> (b - a <= fuel)%nat ->
  (forall j x, (j < a)%nat -> k !! j = Some x -> bytes_ltb (fst x) label = true) ->
  (forall j x, (b <= j)%nat -> k !! j = Some x -> bytes_ltb (fst x) label = false) ->
  exists r, searchEdges fuel es label (Z.of_nat (length pre + a)) (Z.of_nat (length pre + b))
            = Z.of_nat (length pre + r) /\ (r <= length k)%nat /\ splits k label r.
Proof.
  intros Hes Hs. revert a b. induction fuel as [|f IH]; intros a b Hab Hf Ha Hb.
  { exists a. split; [done|]. split; [lia|]. split; [done|]. intros j x Hj. apply Hb. lia. }
  simpl. destruct (Z.ltb_spec (Z.of_nat (length pre + a)) (Z.of_nat (length pre + b))) as [Hlt|Hge].
  2:{ exists a. split; [done|]. split; [lia|]. split; [done|]. intros j x Hj. apply Hb. lia. }
  pose proof (Z.div_mod (Z.of_nat (length pre + a) + Z.of_nat (length pre + b)) 2).
  pose proof (Z.mod_pos_bound (Z.of_nat (length pre + a) + Z.of_nat (length pre + b)) 2).
  set (mid := (Z.of_nat (length pre + a) + Z.of_nat (length pre + b)) / 2) in *.
  assert (exists m, mid = Z.of_nat (length pre + m) /\ (a <= m < b)%nat) as (m & Hm & Hmb).
  { exists (Z.to_nat mid - length pre)%nat. split; lia. }
  rewrite Hm, Nat2Z.id. subst es. rewrite lookup_app_r by lia.
  replace (length pre + m - length pre)%nat with m by lia.
  rewrite lookup_app_l by (rewrite length_map; lia). rewrite list_lookup_fmap.
  destruct (k !! m) as [x|] eqn:Ex; [|apply lookup_ge_None in Ex; lia]. simpl.
  destruct (bytes_ltb (fst x) label) eqn:E.
  - replace (Z.of_nat (length pre + m) + 1) with (Z.of_nat (length pre + S m)) by lia.
    apply IH; [lia|lia| |done]. intros j y Hj Hy.
    destruct (decide (j = m)) as [->|]; [by simplify_eq|].
    eapply bytes_ltb_trans; [|exact E]. eapply Hs; [|done|done]. lia.
  - apply IH; [lia|lia|done|]. intros j y Hj Hy.
    destruct (decide (j = m)) as [->|]; [by simplify_eq|].
    destruct (bytes_ltb (fst y) label) eqn:Ey; [|done].
    assert (bytes_ltb (fst x) (fst y) = true) as Hxy by (eapply (Hs m j); [lia|done|done]).
    pose proof (bytes_ltb_trans _ _ _ Hxy Ey). congruence.
Qed.

Lemma assoc_lookup_unique (k : list (bytes * nat)) label r x :
  labels_sorted k -> k !! r = Some x -> fst x = label -> assoc label k = Some (snd x).
Proof.
  intros Hs Hr <-. destruct x as [l v]. simpl. destruct (assoc l k) as [c|] eqn:E.
  - apply assoc_Some_elem, list_elem_of_lookup in E as [j Hj].
    destruct (Nat.lt_total j r) as [Hlt|[->|Hlt]]; [|congruence|].
    + pose proof (Hs _ _ _ _ Hlt Hj Hr) as Hb. simpl in Hb. by rewrite bytes_ltb_irrefl in Hb.
    + pose proof (Hs _ _ _ _ Hlt Hr Hj) as Hb. simpl in Hb. by rewrite bytes_ltb_irrefl in Hb.
  - apply assoc_None_notin in E. exfalso. apply E.
    apply list_elem_of_lookup_2, list_elem_of_In, (in_map fst), list_elem_of_In in Hr. done.
Qed.

Lemma findChild_spec i nodeID nd b k label :
  nodes i !! Z.to_nat nodeID = Some nd -> node_ok i nd b k -> labels_sorted k -> index_fits i ->
  findChild i nodeID label = (fun c => u32 (Z.of_nat c)) <$> assoc label k.
Proof.
  intros Hnd [(pre & post & He & Hstart & Hcount) _] Hs (_ & Hfe & _).
  unfold findChild. rewrite Hnd, Hstart, Hcount, Nat2Z.id.
  destruct (searchEdges_spec (length k) (edges i) pre k post label 0 (length k))
    as (r & Hr & Hrk & Hlt & Hge); [done|done|lia|lia|lia| |].
  { intros j x Hj Hx. apply lookup_lt_Some in Hx. lia. }
  rewrite Nat.add_0_r, Nat2Z.inj_add in Hr. rewrite Hr.
  assert (length (edges i) = length pre + (length k + length post))%nat as Hlen.
  { rewrite He, !length_app, length_map. done. }
  rewrite u32_small by lia.
  assert (forall c, assoc label k = Some c -> k !! r = Some (label, c)) as Hfound.
  { intros c Hc. apply assoc_Some_elem, list_elem_of_lookup in Hc as [j Hj].
    destruct (Nat.lt_total j r) as [Hjr|[->|Hjr]]; [|done|].
    - pose proof (Hlt _ _ Hjr Hj) as Hb. simpl in Hb. by rewrite bytes_ltb_irrefl in Hb.
    - destruct (k !! r) as [y|] eqn:Ey; [|apply lookup_ge_None in Ey; apply lookup_lt_Some in Hj; lia].
      pose proof (Hs _ _ _ _ Hjr Ey Hj) as Hb. simpl in Hb.
      by rewrite (Hge r y (le_n r) Ey) in Hb. }
  destruct (Z.eqb_spec (Z.of_nat (length pre + r)) (Z.of_nat (length pre) + Z.of_nat (length k))) as [Heq|Hne].
  - destruct (assoc label k) as [c|]; [|done]. specialize (Hfound c eq_refl).
    apply lookup_lt_Some in Hfound. lia.
  - rewrite Nat2Z.id, He. rewrite lookup_app_r by lia.
    replace (length pre + r - length pre)%nat with r by lia.
    rewrite lookup_app_l by (rewrite length_map; lia). rewrite list_lookup_fmap.
    destruct (k !! r) as [x|] eqn:Ex; [|apply lookup_ge_None in Ex; lia]. simpl.
    case_bool_decide as Hx.
    + by rewrite (assoc_lookup_unique k label r x).
    + destruct (assoc label k) as [c|]; [|done]. specialize (Hfound c eq_refl). simplify_eq.
Qed.

(** ** Walking the flat index is walking the tree *)

Lemma kids_sorted B n k : tree_wf n -> kids_ok B n k -> labels_sorted k.
Proof.
  intros [Hd _]%tree_wf_inv [Hk _] i j x y Hij Hx Hy.
  assert (NoDup (map fst k)) as Hnd by (rewrite Hk, SortStrings_perm; done).
  assert (StronglySorted bytes_le (map fst k)) as Hs by (rewrite Hk; apply SortStrings_sorted).
  assert (map fst k !! i = Some (fst x)) as Hx' by by rewrite list_lookup_fmap, Hx.
  assert (map fst k !! j = Some (fst y)) as Hy' by by rewrite list_lookup_fmap, Hy.
  destruct (decide (fst x = fst y)) as [E|Hne].
  { rewrite E in Hx'. pose proof (NoDup_lookup _ _ _ _ Hnd Hx' Hy'). lia. }
  destruct (bytes_ltb_total _ _ Hne) as [?|Hlt]; [done|].
  pose proof (StronglySorted_lookup _ _ _ _ _ _ Hs Hij Hx' Hy') as Hle.
  unfold bytes_le in Hle. congruence.
Qed.

Lemma kids_assoc B n k label :
  tree_wf n -> kids_ok B n k ->
  match assoc label k with
  | Some c => exists child, assoc label (children n) = Some child /\ B !! c = Some child
  | None => assoc label (children n) = None
  end.
Proof.
  intros Hwf [Hk Hin]. destruct (assoc label k) as [c|] eqn:E.
  - by apply assoc_Some_elem, Hin in E.
  - apply assoc_None_notin in E. rewrite Hk, SortStrings_perm in E. by apply assoc_None_notin.
Qed.

Lemma walk_collect i B K p n labels :
  bfs_inv (length B) B K -> length (nodes i) = length B -> index_fits i ->
  (forall p nd b k, nodes i !! p = Some nd -> B !! p = Some b -> K !! p = Some k -> node_ok i nd b k) ->
  B !! p = Some n ->
  walkIndex i (Z.of_nat p) labels = collect n labels.
Proof.
  intros (HlenK & _ & Hwf & Hkids) Hnodes Hfits Hok. revert p n.
  induction labels as [|l labels IH]; intros p n Hp; [done|]. simpl.
  assert (tree_wf n) as Hn by (rewrite Forall_lookup in Hwf; eauto).
  apply lookup_lt_Some in Hp as Hlt.
  destruct (lookup_lt_is_Some_2 (nodes i) p) as [nd Hnd]; [lia|].
  destruct (lookup_lt_is_Some_2 K p) as [k Hk]; [lia|].
  pose proof (Hkids _ _ _ Hp Hk) as Hko.
  rewrite (findChild_spec i (Z.of_nat p) nd n k l); [|by rewrite Nat2Z.id|by eapply Hok|
    by eapply kids_sorted|done].
  pose proof (kids_assoc B n k l Hn Hko) as Hassoc.
  destruct (assoc l k) as [c|]; simpl; [|by rewrite Hassoc].
  destruct Hassoc as (child & -> & Hc). apply lookup_lt_Some in Hc as Hclt.
  destruct Hfits as (Hfn & _). rewrite u32_small, Nat2Z.id by lia.
  destruct (lookup_lt_is_Some_2 (nodes i) c) as [ndc Hndc]; [lia|]. rewrite Hndc.
  destruct (lookup_lt_is_Some_2 K c) as [kc Hkc]; [lia|].
  destruct (Hok _ _ _ _ Hndc Hc Hkc) as [_ (pre & post & -> & -> & ->)].
  rewrite !Nat2Z.id, drop_app_length, take_app_length. f_equal. by apply IH.
Qed.

(** The compact index answers a walk exactly as the tree it was built from. *)
Lemma compact_walk root fb labels :
  tree_wf root -> index_fits (compactHostIndex root fb) ->
  walkIndex (compactHostIndex root fb) 0 labels = collect root labels
  /\ nodes (compactHostIndex root fb) <> [] /\ fallback (compactHostIndex root fb) = fb.
Proof.
  intros Hwf Hfits. unfold compactHostIndex in *.
  destruct (bfs_complete (node_size root) 0 [root] []) as (B' & K' & Hbfs & Hinv).
  { split_and!; [done|simpl; lia|by repeat constructor|]. intros p n k _ Hk. by rewrite lookup_nil in Hk. }
  { simpl. lia. }
  rewrite Hbfs in *. pose proof Hinv as (HlenK & _).
  set (i0 := {| nodes := []; edges := []; ruleIDs := []; fallback := fb |}) in *.
  destruct (fillIndex_nodes ([root] ++ B') K' i0) as (N & HN & HlenN & Hok); [done|done|].
  simpl nodes in HN at 2. rewrite app_nil_l in HN.
  split_and!.
  - apply (walk_collect _ ([root] ++ B') K' 0 root); [done|by rewrite HN|done| |done].
    intros p nd b k Hnd. rewrite HN in Hnd. by apply Hok.
  - rewrite HN. intros ->. done.
  - by destruct (fillIndex_extends ([root] ++ B') K' i0) as (_ & _ & _ & _ & ->).
Qed.

(** ** How large the index can get

    Every node of the tree appears once in the flat index; a rule file adds at
    most one node per byte of its host patterns. *)

(** The sum of [w] over the nodes of a tree. *)
Fixpoint tree_total (w : mnode -> nat) (n : mnode) : nat :=
  match n with
  | MNode c _ => (w n + (fix go l := match l with
                                     | [] => 0%nat
                                     | x :: t => (tree_total w (snd x) + go t)%nat
                                     end) c)%nat
  end.

Lemma tree_total_eq w n :
  tree_total w n = (w n + sum_list (map (fun kv => tree_total w (snd kv)) (children n)))%nat.
Proof.
  destruct n as [c r]. cbn [tree_total children]. f_equal.
  induction c as [|x c IH]; simpl; [done|]. by rewrite <- IH.
Qed.

Lemma added_total w n :
  tree_wf n ->
  (w n + sum_list (map (tree_total w)
    (map (fun l => default empty_node (assoc l (children n))) (SortStrings (map fst (children n))))))%nat
  = tree_total w n.
Proof.
  intros [Hd _]%tree_wf_inv. rewrite tree_total_eq. f_equal.
  transitivity (sum_list (map (tree_total w) (map snd (children n)))); [|by rewrite map_map].
  apply sum_list_perm. rewrite <- (assoc_map_snd empty_node) by done.
  apply Permutation_map, Permutation_map, SortStrings_perm.
Qed.

(** Each visited node counts itself, each pending one its whole subtree; the
    children numbered so far are the nodes other than the root. *)
Lemma bfs_total w fuel pos B K B' K' :
  bfs_inv pos B K -> bfs fuel pos B K = (B', K') -> bfs_inv (length B') B' K' ->
  (sum_list (map w B') = sum_list (map w (take pos B)) + sum_list (map (tree_total w) (drop pos B)))%nat
  /\ (length B' - sum_list (map length K') = length B - sum_list (map length K))%nat
  /\ (sum_list (map length K) <= length B -> sum_list (map length K') <= length B')%nat.
Proof.
  revert pos B K. induction fuel as [|f IH]; intros pos B K Hinv Hb Hfin.
  - simpl in Hb. simplify_eq. destruct Hinv as (HK & _). destruct Hfin as (HK' & _).
    rewrite take_ge, drop_ge by lia. simpl. split_and!; [lia|done|done].
  - simpl in Hb. destruct (B !! pos) as [node|] eqn:Hnode.
    + pose proof (bfs_step pos B K node Hinv Hnode) as Hinv'. simpl in Hinv'.
      pose proof Hinv as (_ & _ & Hwf & _). rewrite Forall_lookup in Hwf.
      pose proof (added_total w node (Hwf _ _ Hnode)) as Hadd.
      set (labels := SortStrings (map fst (children node))) in *.
      destruct (IH _ _ _ Hinv' Hb Hfin) as (Hsum & Hlen & Hle).
      apply lookup_lt_Some in Hnode as Hlt.
      rewrite take_app_le, drop_app_le in Hsum by lia.
      rewrite (take_S_r _ _ _ Hnode), !map_app, !sum_list_app in Hsum. simpl in Hsum.
      rewrite (drop_S _ _ _ Hnode). simpl.
      rewrite map_app, sum_list_app, !length_app, length_map in Hlen, Hle. simpl in Hlen, Hle.
      rewrite length_zip_with, length_seq, Nat.min_id in Hlen, Hle. lia.
    + simplify_eq. pose proof Hinv as (HK & _). destruct Hfin as (HK' & _).
      rewrite take_ge, drop_ge by lia. simpl. split_and!; [lia|done|done].
Qed.

Lemma fillIndex_length bs ks i :
  length bs = length ks ->
  (length (nodes (fillIndex bs ks i)) = length (nodes i) + length bs
  /\ length (edges (fillIndex bs ks i)) = length (edges i) + sum_list (map length ks)
  /\ length (ruleIDs (fillIndex bs ks i)) = length (ruleIDs i) + sum_list (map (fun b => length (rules b)) bs))%nat.
Proof.
  revert ks i. induction bs as [|b bs IH]; intros [|k ks] i Hlen; simplify_eq/=; [lia|].
  match goal with |- context [fillIndex bs ks ?j] => destruct (IH ks j Hlen) as (-> & -> & ->) end.
  simpl. rewrite !length_app, length_map. simpl. lia.
Qed.

(** The rules recorded in a tree. *)
Definition rule_total (n : mnode) : nat := tree_total (fun n => length (rules n)) n.
Definition size_total (n : mnode) : nat := tree_total (fun _ => 1%nat) n.

Lemma compact_fits root fb :
  tree_wf root -> Z.of_nat (size_total root) <= 2 ^ 32 -> Z.of_nat (rule_total root) < 2 ^ 32 ->
  index_fits (compactHostIndex root fb).
Proof.
  intros Hwf Hs Hr. unfold compactHostIndex.
  assert (bfs_inv 0 [root] []) as Hinv.
  { split_and!; [done|simpl; lia|by repeat constructor|]. intros p n k _ Hk. by rewrite lookup_nil in Hk. }
  destruct (bfs_complete (node_size root) 0 [root] [] Hinv) as (B' & K' & Hbfs & Hfin); [simpl; lia|].
  rewrite Hbfs. pose proof Hfin as (HK & _).
  destruct (bfs_total (fun _ => 1%nat) _ _ _ _ _ _ Hinv Hbfs Hfin) as (Hn & He & Hle).
  destruct (bfs_total (fun n => length (rules n)) _ _ _ _ _ _ Hinv Hbfs Hfin) as (Hrs & _).
  rewrite (sum_list_fmap_const _ 1) in Hn.
  destruct (fillIndex_length ([root] ++ B') K' {| nodes := []; edges := []; ruleIDs := []; fallback := fb |})
    as (H1 & H2 & H3); [done|].
  unfold index_fits. rewrite H1, H2, H3. unfold size_total, rule_total in *. 
  simpl in *. lia.
Qed.

(** ** Removing duplicates from a sorted list *)

Lemma elem_of_dedup l x : x ∈ dedup l <-> x ∈ l.
Proof.
  induction l as [|y l IH]; [done|]. destruct l as [|z l]; [done|].
  change (dedup (y :: z :: l)) with (if (y =? z)%nat then dedup (z :: l) else y :: dedup (z :: l)).
  destruct (Nat.eqb_spec y z) as [->|]; rewrite ?elem_of_cons, IH, !elem_of_cons; naive_solver.
Qed.

Lemma dedup_sorted l : StronglySorted le l -> StronglySorted lt (dedup l).
Proof.
  induction 1 as [|y l Hs IH Hy]; [constructor|]. destruct l as [|z l]; [repeat constructor|].
  change (dedup (y :: z :: l)) with (if (y =? z)%nat then dedup (z :: l) else y :: dedup (z :: l)).
  destruct (Nat.eqb_spec y z); [done|]. constructor; [done|].
  apply Forall_forall. intros x Hx. rewrite elem_of_dedup in Hx.
  apply Forall_cons in Hy as [Hyz _]. apply StronglySorted_inv in Hs as [_ Hz].
  apply elem_of_cons in Hx as [->|Hx]; [lia|]. rewrite Forall_forall in Hz.
  specialize (Hz x Hx). lia.
Qed.

Section Candidates.
Context `{RE : RegexEngine} `{DG : Digests} `{UT : UnicodeTable}.

(** Rule [r] is filed under a suffix whose path starts the walk [w]. *)
Definition filed (r : CompiledRule) (w : list bytes) : Prop :=
  exists ss s, indexed_suffixes (connHost r) = Some ss /\ In s ss
    /\ hostLabels s <> [] /\ exists u, w = (hostLabels s ++ u)%list.

Lemma collect_insert_all ss id n w x :
  x ∈ collect (foldl (fun n s => insertHostSuffix n s id) n ss) w
  <-> x ∈ collect n w
      \/ (x = id /\ exists s, In s ss /\ hostLabels s <> [] /\ exists u, w = (hostLabels s ++ u)%list).
Proof.
  revert n. induction ss as [|s ss IH]; intros n; simpl; [naive_solver|].
  rewrite IH. unfold insertHostSuffix. rewrite collect_insert. naive_solver.
Qed.

Lemma insert_all_wf ss id n : tree_wf n -> tree_wf (foldl (fun n s => insertHostSuffix n s id) n ss).
Proof. revert n. induction ss; intros n Hn; simpl; [done|]. by apply IHss, insertLabels_wf. Qed.

(** What [buildTree] puts where. *)
Lemma buildTree_spec rs start root fb root' fb' :
  buildTree rs start root fb = (root', fb') -> tree_wf root ->
  tree_wf root'
  /\ (forall w x, x ∈ collect root' w <-> x ∈ collect root w
        \/ exists j r, rs !! j = Some r /\ x = (start + j)%nat /\ filed r w)
  /\ (forall x, x ∈ fb' <-> x ∈ fb
        \/ exists j r, rs !! j = Some r /\ x = (start + j)%nat /\ indexed_suffixes (connHost r) = None).
Proof.
  revert start root fb. induction rs as [|r rs IH]; intros start root fb Hb Hwf; simpl in Hb.
  { simplify_eq. split_and!; [done|..]; intros; split; try (by left);
      intros [?|(j & r & Hj & _)]; try done; by rewrite lookup_nil in Hj. }
  assert (forall (P : CompiledRule -> Prop) x,
    (exists j r', (r :: rs) !! j = Some r' /\ x = (start + j)%nat /\ P r')
    <-> (x = start /\ P r) \/ exists j r', rs !! j = Some r' /\ x = (S start + j)%nat /\ P r') as Hcons.
  { intros P x. split.
    - intros ([|j] & r' & Hj & -> & HP); simpl in Hj; [simplify_eq; left; split; [lia|done]|].
      right. exists j, r'. split_and!; [done|lia|done].
    - intros [[-> HP]|(j & r' & Hj & -> & HP)]; [exists 0%nat, r|exists (S j), r'];
        (split_and!; [done|lia|done]). }
  setoid_rewrite (Hcons (fun r => filed r _)). setoid_rewrite Hcons. clear Hcons.
  destruct (importedSuffixRegex (connHost r)) as [ss|] eqn:Ei.
  - destruct (IH _ _ _ Hb (insert_all_wf _ _ _ Hwf)) as (Hwf' & Hc & Hf).
    assert (indexed_suffixes (connHost r) = Some ss) as Hi by (unfold indexed_suffixes; by rewrite Ei).
    split_and!; [done| |].
    + intros w x. rewrite Hc, collect_insert_all. unfold filed. rewrite Hi. naive_solver.
    + intros x. rewrite Hf, Hi. naive_solver.
  - case_bool_decide as Hs.
    + assert (indexed_suffixes (connHost r) = None) as Hi
        by (unfold indexed_suffixes; rewrite Ei; by rewrite bool_decide_true).
      destruct (IH _ _ _ Hb Hwf) as (Hwf' & Hc & Hf). split_and!; [done| |].
      * intros w x. rewrite Hc. unfold filed. rewrite Hi. naive_solver.
      * intros x. rewrite Hf, elem_of_app, list_elem_of_singleton, Hi. naive_solver.
    + set (s := literalGlobSuffix (connHost r)) in *.
      assert (indexed_suffixes (connHost r) = Some [s]) as Hi
        by (unfold indexed_suffixes; rewrite Ei; by rewrite bool_decide_false).
      destruct (IH _ _ _ Hb (insertLabels_wf _ _ _ Hwf)) as (Hwf' & Hc & Hf). split_and!; [done| |].
      * intros w x. rewrite Hc. unfold insertHostSuffix. rewrite collect_insert.
        unfold filed. rewrite Hi. simpl. naive_solver.
      * intros x. rewrite Hf, Hi. naive_solver.
Qed.

(** The candidates for a host: strictly increasing rule numbers, exactly the
    unindexed rules and those filed on the host's path. *)
Lemma candidates_spec rs host :
  index_fits (buildHostCandidateIndex rs) ->
  StronglySorted lt (appendCandidates (buildHostCandidateIndex rs) host)
  /\ forall x, x ∈ appendCandidates (buildHostCandidateIndex rs) host
     <-> exists r, rs !! x = Some r
         /\ (indexed_suffixes (connHost r) = None
             \/ filed r (hostLabels (ToLower lower_run (TrimSuffix (str ".") host)))).
Proof.
  unfold buildHostCandidateIndex. destruct (buildTree rs 0 empty_node []) as [root fb] eqn:Eb.
  intros Hfits.
  assert (tree_wf empty_node) as Hwf0 by by repeat constructor.
  destruct (buildTree_spec _ _ _ _ _ _ Eb Hwf0) as (Hwf & Hc & Hf).
  unfold appendCandidates. set (w := hostLabels _).
  destruct (compact_walk root fb w Hwf Hfits) as (-> & Hne & ->).
  destruct (nodes (compactHostIndex root fb)); [done|].
  split.
  { apply dedup_sorted, StronglySorted_merge_sort; apply _. }
  intros x. rewrite elem_of_dedup, merge_sort_Permutation, elem_of_app, Hf, Hc.
  assert (x ∉ collect empty_node w) as Hempty by (destruct w; set_solver).
  simpl. setoid_rewrite elem_of_nil. naive_solver.
Qed.

(** No rule whose host pattern matches is left out. *)
Lemma candidates_complete rs host x r :
  index_fits (buildHostCandidateIndex rs) -> matcher_wf (connHost r) ->
  rs !! x = Some r -> matcher_match (connHost r) host = true ->
  x ∈ appendCandidates (buildHostCandidateIndex rs) host.
Proof.
  intros Hfits Hwf Hx Hm. apply candidates_spec; [done|]. exists r. split; [done|].
  destruct (indexed_suffixes (connHost r)) as [ss|] eqn:Ei; [|by left]. right.
  destruct (indexed_match lower_run _ _ _ Hwf Ei Hm) as (s & Hin & Hend).
  destruct (indexed_suffixes_literal _ _ _ Hwf Ei Hin) as (ls & Hls & ->).
  destruct (hostLabels_ends_with ls _ Hls Hend) as [u Hu].
  exists ss, (Join (str ".") ls). split_and!; [done|done| |by exists u].
  rewrite (hostLabels_join ls Hls). destruct Hls as [Hne _]. destruct ls as [|l ls]; [done|].
  simpl. by destruct (rev ls).
Qed.

End Candidates.

Lemma assoc_set_sum {V} (f : V -> nat) k v m :
  (sum_list (map (fun kv => f (snd kv)) (assoc_set k v m)) + default 0 (f <$> assoc k m)
   = sum_list (map (fun kv => f (snd kv)) m) + f v)%nat.
Proof.
  induction m as [|[k' w] m IH]; simpl; [lia|]. case_bool_decide; simpl; lia.
Qed.

(** An insertion adds at most one node per label. *)
Lemma insertLabels_size labels id n :
  (size_total (insertLabels labels id n) <= size_total n + length labels)%nat.
Proof.
  unfold size_total. revert n. induction labels as [|l labels IH]; intros n.
  - simpl. case_bool_decide; [lia|]. rewrite !tree_total_eq. simpl. lia.
  - cbn [insertLabels]. rewrite tree_total_eq. cbn [children].
    rewrite (tree_total_eq _ n).
    pose proof (assoc_set_sum (tree_total (fun _ => 1%nat)) l
      (insertLabels labels id (default empty_node (assoc l (children n)))) (children n)) as Hsum.
    specialize (IH (default empty_node (assoc l (children n)))).
    destruct (assoc l (children n)); simpl in *; lia.
Qed.

(** An insertion records the rule at most once. *)
Lemma insertLabels_rule_total labels id n :
  (rule_total (insertLabels labels id n) <= rule_total n + 1)%nat.
Proof.
  unfold rule_total. revert n. induction labels as [|l labels IH]; intros n.
  - simpl. case_bool_decide; [lia|]. rewrite !tree_total_eq. simpl. rewrite length_app. simpl. lia.
  - cbn [insertLabels]. rewrite tree_total_eq. cbn [children rules].
    rewrite (tree_total_eq _ n).
    pose proof (assoc_set_sum (tree_total (fun n => length (rules n))) l
      (insertLabels labels id (default empty_node (assoc l (children n)))) (children n)) as Hsum.
    specialize (IH (default empty_node (assoc l (children n)))).
    destruct (assoc l (children n)); simpl in *; lia.
Qed.

Lemma hostLabels_length host : (length (hostLabels host) <= length host)%nat.
Proof.
  unfold hostLabels. generalize (le_n (length host)). generalize (length host) at 2 3 as f.
  intros f. revert host. induction f as [|f IH]; intros host Hf; simpl; [lia|].
  case_bool_decide as Hh; [simpl; lia|].
  destruct (CutLast "." host) as [[pre label]|] eqn:E.
  - apply CutLast_Some in E as [-> _]. rewrite length_app in *. simpl in *.
    specialize (IH pre ltac:(lia)). lia.
  - simpl. destruct host; [done|simpl; lia].
Qed.

Section IndexSize.
Context `{RE : RegexEngine} `{DG : Digests} `{UT : UnicodeTable}.

(** The bytes a rule may be filed under: its suffixes, each counted with one
    separator. *)
Definition filed_bytes (m : matcher) : nat :=
  match indexed_suffixes m with
  | Some ss => sum_list (map (fun s => S (length s)) ss)
  | None => 0%nat
  end.

Lemma insert_all_size ss id n :
  (size_total (foldl (fun n s => insertHostSuffix n s id) n ss)
     <= size_total n + sum_list (map (fun s => S (length s)) ss)
   /\ rule_total (foldl (fun n s => insertHostSuffix n s id) n ss)
     <= rule_total n + sum_list (map (fun s => S (length s)) ss))%nat.
Proof.
  revert n. induction ss as [|s ss IH]; intros n; simpl; [lia|].
  destruct (IH (insertHostSuffix n s id)) as [H1 H2].
  pose proof (insertLabels_size (hostLabels s) id n).
  pose proof (insertLabels_rule_total (hostLabels s) id n).
  pose proof (hostLabels_length s). unfold insertHostSuffix in *. lia.
Qed.

Lemma buildTree_size rs start root fb root' fb' :
  buildTree rs start root fb = (root', fb') ->
  (size_total root' <= size_total root + sum_list (map (fun r => filed_bytes (connHost r)) rs)
   /\ rule_total root' <= rule_total root + sum_list (map (fun r => filed_bytes (connHost r)) rs))%nat.
Proof.
  revert start root fb. induction rs as [|r rs IH]; intros start root fb Hb; simpl in Hb.
  { simplify_eq. simpl. lia. }
  cbn [map sum_list]. destruct (importedSuffixRegex (connHost r)) as [ss|] eqn:Ei.
  - apply IH in Hb. destruct (insert_all_size ss start root).
    assert (filed_bytes (connHost r) = sum_list (map (fun s => S (length s)) ss)) as ->
      by (unfold filed_bytes, indexed_suffixes; by rewrite Ei). simpl. lia.
  - case_bool_decide as Hs.
    + apply IH in Hb. simpl. lia.
    + apply IH in Hb. destruct (insert_all_size [literalGlobSuffix (connHost r)] start root) as [H1 H2].
      simpl in H1, H2.
      assert (filed_bytes (connHost r) = (S (length (literalGlobSuffix (connHost r))) + 0)%nat) as ->
        by (unfold filed_bytes, indexed_suffixes; rewrite Ei; by rewrite bool_decide_false). simpl. lia.
Qed.

Lemma build_fits rs :
  Z.of_nat (sum_list (map (fun r => filed_bytes (connHost r)) rs)) < 2 ^ 32 ->
  index_fits (buildHostCandidateIndex rs).
Proof.
  intros Hsum. unfold buildHostCandidateIndex.
  destruct (buildTree rs 0 empty_node []) as [root fb] eqn:Eb.
  assert (tree_wf empty_node) as Hwf0 by by repeat constructor.
  destruct (buildTree_size _ _ _ _ _ _ Eb) as [H1 H2].
  change (size_total empty_node) with 1%nat in H1. change (rule_total empty_node) with 0%nat in H2.
  apply compact_fits; [|lia|lia].
  by destruct (buildTree_spec _ _ _ _ _ _ Eb Hwf0) as (Hwf & _).
Qed.

Lemma unescapeAtom_length a s : unescapeAtom a = Some s -> (length s <= length a)%nat.
Proof.
  revert s. induction a as [a IH] using (induction_ltof1 _ (@length ascii)); unfold ltof in IH.
  intros s Hs. destruct a as [|c t]; [simpl in Hs; by simplify_eq|]. simpl in Hs.
  destruct t as [|d t].
  { destruct (dns_byte c); simplify_eq. simpl. lia. }
  destruct (_ && _).
  - apply fmap_Some in Hs as (s' & Hs & ->). apply IH in Hs; simpl in *; lia.
  - destruct (dns_byte c); [|done]. apply fmap_Some in Hs as (s' & Hs & ->).
    apply (IH (d :: t)) in Hs; simpl in *; lia.
Qed.

Lemma atoms_length atoms ss :
  mapM atomHost atoms = Some ss ->
  (sum_list (map (fun s => S (length s)) ss) <= sum_list (map (fun a => S (length a)) atoms))%nat.
Proof.
  intros Hm. apply mapM_Some_1 in Hm. induction Hm as [|a s atoms ss Ha _ IH]; simpl; [lia|].
  unfold atomHost in Ha. destruct (unescapeAtom a) as [v|] eqn:Eu; [|done].
  apply unescapeAtom_length in Eu. destruct (_ && _); simplify_eq. lia.
Qed.

Lemma TrimPrefix_length p s : (length (TrimPrefix p s) <= length s)%nat.
Proof.
  unfold TrimPrefix. destruct (CutPrefix p s) as [r|] eqn:E; [|done].
  apply CutPrefix_Some in E as ->. rewrite length_app. simpl. lia.
Qed.

Lemma TrimSuffix_length p s : (length (TrimSuffix p s) <= length s)%nat.
Proof.
  unfold TrimSuffix. destruct (CutSuffix p s) as [r|] eqn:E; [|done].
  apply CutSuffix_Some in E as ->. rewrite length_app. simpl. lia.
Qed.

Lemma literalGlobSuffix_length glob : (length (literalGlobSuffix (MGlob glob)) <= length glob)%nat.
Proof.
  cbn [literalGlobSuffix]. case_bool_decide; [simpl; lia|].
  destruct (literal_tail_spec (rev (Split "." glob))) as (rest & Hrest & _).
  set (tl := literal_tail (rev (Split "." glob))) in *.
  assert (Split "." glob = rev rest ++ rev tl)%list as Hsplit.
  { by rewrite <- rev_app_distr, <- Hrest, rev_involutive. }
  pose proof (length_Join "." (Split "." glob) (Split_ne _ _)) as Hlen.
  rewrite (Join_Split "." glob) in Hlen. rewrite Hsplit, map_app, sum_list_app in Hlen.
  destruct (decide (rev tl = [])) as [->|Hne]; [simpl; lia|].
  pose proof (length_Join "." (rev tl) Hne) as Hlen'. change (str ".") with ["."%char]. lia.
Qed.

(** A matcher is filed under at most the bytes of its pattern. *)
Lemma filed_bytes_bound p m : compileMatcher p = Ok m -> (filed_bytes m <= S (length p))%nat.
Proof.
  unfold compileMatcher. destruct p as [|c p]; [intros [= <-]; unfold filed_bytes; simpl; lia|].
  set (pat := c :: p). destruct (CutPrefix (str "re:") pat) as [rest|] eqn:Ec.
  - apply CutPrefix_Some in Ec. rewrite Ec, length_app.
    destruct (parseImportedSuffixRegex rest) as [ss|] eqn:Ep.
    2:{ destruct (regex_compile rest); intros [= <-]. unfold filed_bytes. simpl. lia. }
    intros [= <-]. unfold filed_bytes, indexed_suffixes. cbn [importedSuffixRegex].
    unfold parseImportedSuffixRegex in Ep. destruct (_ || _); [done|].
    set (body := TrimSuffix _ _) in Ep. case_bool_decide; [done|].
    apply atoms_length in Ep. rewrite <- (length_Join "|" (Split "|" body)), Join_Split in Ep
      by apply Split_ne.
    pose proof (TrimSuffix_length imported_suffix (TrimPrefix imported_prefix rest)).
    pose proof (TrimPrefix_length imported_prefix rest). fold body in H0. simpl. lia.
  - intros [= <-]. pose proof (literalGlobSuffix_length pat) as Hlen.
    unfold filed_bytes, indexed_suffixes. cbn [importedSuffixRegex].
    case_bool_decide; [lia|]. cbn [map sum_list]. unfold id. lia.
Qed.

(** The bytes of a rule file's host patterns, each counted with one separator. *)
Definition host_bytes (rf : RuleFile) : nat :=
  sum_list (map (fun r => S (length (m_Host (r_Match r)))) (rf_rules rf)).

Lemma Compile_fits rf rules :
  Compile rf = Ok rules -> Z.of_nat (host_bytes rf) < 2 ^ 32 ->
  index_fits (buildHostCandidateIndex rules).
Proof.
  intros Hc Hsize. apply build_fits. unfold host_bytes in Hsize.
  apply mapM_ok in Hc. revert Hsize.
  cut (sum_list (map (fun r => filed_bytes (connHost r)) rules)
       <= sum_list (map (fun r => S (length (m_Host (r_Match r)))) (rf_rules rf)))%nat; [lia|].
  induction Hc as [|r cr rs crs Hr _ IH]; simpl; [lia|].
  cbv beta in Hr. apply wrap_ok in Hr. unfold compileRule in Hr.
  apply result_bind_ok in Hr as (m & Hm & Hr). apply wrap_ok, filed_bytes_bound in Hm.
  inv_ok. destruct (_ && _) in Hr; [done|]. inv_ok. subst cr. simpl. lia.
Qed.

End IndexSize.
