(* ===== verification/Egress.v ===== *)
(** * Egress rules (internal/rules/egress.go)

    Compilation and matching of the egress[] list: a prefix, a port range, a
    protocol pattern and a verdict per entry. *)

From S2P Require Import Prelude GoStrings Netip Json Schema Matcher.

Open Scope Z_scope.

(** [portRange]: everything, or an inclusive interval of 16-bit ports. *)
Inductive portRange : Type :=
  | PortAlways
  | PortRange (lo hi : Z).

(** [parsePort]. *)
Definition parsePort (s : bytes) : result Z :=
  wrap "invalid port" (ParseUint 16 (TrimSpace s)).

(** [compilePortRange]. *)
Definition compilePortRange (s : bytes) : result portRange :=
  if bool_decide (s = []) || bool_decide (s = str "*") then Ok PortAlways
  else match Cut "-" s with
       | Some (lo, hi) =>
           loN ← parsePort lo;
           hiN ← parsePort hi;
           if hiN <? loN then Error "invalid range: low > high" else Ok (PortRange loN hiN)
       | None => n ← parsePort s; Ok (PortRange n n)
       end.

Definition portRange_match (p : portRange) (port : Z) : bool :=
  match p with
  | PortAlways => true
  | PortRange lo hi => (lo <=? port) && (port <=? hi)
  end.

Section Egress.
Context `{RE : RegexEngine}.

Record CompiledEgress : Type := {
  ce_prefix : Prefix;
  ce_port : portRange;
  ce_proto : matcher;
  ce_allow : bool }.

(** [compileEgressRule]. *)
Definition compileEgressRule (r : EgressRule) : result CompiledEgress :=
  prefix ← wrap "cidr" (ParsePrefix (er_CIDR r));
  port ← wrap "port" (compilePortRange (er_Port r));
  proto ← wrap "proto" (compileMatcher (er_Proto r));
  allow ← (if bool_decide (er_Action r = str "allow") then Ok true
           else if bool_decide (er_Action r = str "deny") then Ok false
           else Error "action: must be allow or deny");
  Ok {| ce_prefix := prefix; ce_port := port; ce_proto := proto; ce_allow := allow |}.

(** [CompileEgress]. *)
Definition CompileEgress (rs : list EgressRule) : result (list CompiledEgress) :=
  mapM (fun r => wrap "egress" (compileEgressRule r)) rs.

(** One entry against a destination. *)
Definition egress_match (e : CompiledEgress) (addr : Addr) (port : Z) (proto : bytes) : bool :=
  Contains (ce_prefix e) addr && portRange_match (ce_port e) port && matcher_match (ce_proto e) proto.

(** [RuleSet.LookupEgress] (engine.go): first match; [(allow, matched)], and
    falling off the end is a denial. *)
Fixpoint LookupEgress (es : list CompiledEgress) (addr : Addr) (port : Z) (proto : bytes) : bool * bool :=
  match es with
  | [] => (false, false)
  | e :: t => if egress_match e addr port proto then (ce_allow e, true) else LookupEgress t addr port proto
  end.

End Egress.
