(* ===== verification/Auth.v ===== *)
(** * Proxy authentication (internal/rules/auth.go)

    Validation of the auth.http_proxy block and the check of a presented
    Proxy-Authorization value against the local credentials. *)

From S2P Require Import Prelude GoStrings Json Encoding Schema.

Open Scope Z_scope.

Definition defaultRealm : bytes := str "mitmania".

(** ** [fmt.Sscanf] with %d verbs *)

(** [SkipSpace]: spaces are passed over, a newline is an error. *)
Fixpoint scan_skip (s : bytes) : result bytes :=
  match s with
  | [] => Ok []
  | c :: t =>
      if byte_val c =? 10 then Error "unexpected newline"
      else if is_space c then scan_skip t
      else match t with
           | d :: t' =>
               if is_space2 c d then scan_skip t'
               else match t' with
                    | e :: t'' => if is_space3 c d e then scan_skip t'' else Ok s
                    | [] => Ok s
                    end
           | [] => Ok s
           end
  end.

Fixpoint scan_digits (s : bytes) : bytes * bytes :=
  match s with
  | c :: t => if is_digit c then let '(d, r) := scan_digits t in (c :: d, r) else ([], s)
  | [] => ([], [])
  end.

(** An unsigned %d of the given width: value and remaining input. *)
Definition scan_uint (bitSize : Z) (s : bytes) : result (Z * bytes) :=
  s ← scan_skip s;
  let '(d, r) := scan_digits s in
  n ← ParseUint 64 d;
  if n <? 2 ^ bitSize then Ok (n, r) else Error "unsigned integer overflow on token".

(** A signed %d into an [int]. *)
Definition scan_int (s : bytes) : result (Z * bytes) :=
  s ← scan_skip s;
  let '(neg, s) := match s with
                   | c :: t => if Ascii.eqb c "-" then (true, t)
                               else if Ascii.eqb c "+" then (false, t) else (false, s)
                   | [] => (false, s)
                   end in
  let '(d, r) := scan_digits s in
  n ← ParseUint 64 d;
  if (neg && (n <=? 2 ^ 63)) || (n <? 2 ^ 63) then Ok (if neg : bool then - n else n, r)
  else Error "integer overflow on token".

Definition scan_lit (lit s : bytes) : result bytes :=
  of_option "input does not match format" (CutPrefix lit s).

(** ** Credential hashes *)

Record argon2idParams : Type := {
  ap_memory : Z;
  ap_time : Z;
  ap_threads : Z;
  ap_salt : bytes;
  ap_sum : bytes }.

(** [parseArgon2idHash]. *)
Definition parseArgon2idHash (hash : bytes) : result argon2idParams :=
  match Split "$" hash with
  | [p0; p1; p2; p3; p4; p5] =>
      if negb (bool_decide (p0 = [])) || negb (bool_decide (p1 = str "argon2id")) then
        Error "not a canonical $argon2id$... hash"
      else
        _ ← wrap "parse argon2id version" (s ← scan_lit (str "v=") p2; scan_int s);
        '(m, t, p) ← wrap "parse argon2id params"
          (s ← scan_lit (str "m=") p3;
           '(m, s) ← scan_uint 32 s;
           s ← scan_lit (str ",t=") s;
           '(t, s) ← scan_uint 32 s;
           s ← scan_lit (str ",p=") s;
           '(p, _) ← scan_uint 8 s;
           Ok (m, t, p));
        salt ← wrap "decode argon2id salt" (base64_decode false p4);
        sum ← wrap "decode argon2id hash" (base64_decode false p5);
        Ok {| ap_memory := m; ap_time := t; ap_threads := p; ap_salt := salt; ap_sum := sum |}
  | _ => Error "not a canonical $argon2id$... hash"
  end.

(** [parseSHA256Hash]. *)
Definition parseSHA256Hash (hash : bytes) : result bytes :=
  hexPart ← of_option "bearer hash must be sha256:<hex>" (CutPrefix (str "sha256:") hash);
  sum ← wrap "decode sha256 hash" (hex_decode hexPart);
  if (length sum =? 32)%nat then Ok sum else Error "sha256 hash must be 32 bytes".

(** ** Compilation *)

Record CompiledAuth : Type := {
  cau_Required : bool;
  cau_Realm : bytes;
  cau_Basic : list BasicCredential;
  cau_Bearer : list BearerCredential;
  cau_Broker : option AuthBroker }.

(** The broker block: one target, and the path defaulted in place. *)
Definition compileBroker (b : AuthBroker) : result AuthBroker :=
  let hasSocket := negb (bool_decide (ab_Socket b = [])) in
  let hasURL := negb (bool_decide (ab_URL b = [])) in
  if Bool.eqb hasSocket hasURL then
    Error "auth.http_proxy.broker: exactly one of socket or url is required"
  else if hasSocket && bool_decide (ab_Path b = []) then
    Ok {| ab_Socket := ab_Socket b; ab_URL := ab_URL b; ab_Path := str "/" |}
  else if hasURL && negb (bool_decide (ab_Path b = [])) then
    Error "auth.http_proxy.broker: path only applies to a socket target"
  else Ok b.

Fixpoint checkBasic (cs : list BasicCredential) (seen : list bytes) : result unit :=
  match cs with
  | [] => Ok tt
  | c :: t =>
      if bool_decide (bc_User c = []) then Error "auth.http_proxy.basic: empty user"
      else if bool_decide (bc_User c ∈ seen) then Error "auth.http_proxy.basic: duplicate user"
      else _ ← wrap "auth.http_proxy.basic" (parseArgon2idHash (bc_Hash c));
           checkBasic t (bc_User c :: seen)
  end.

Fixpoint checkBearer (cs : list BearerCredential) (seen : list bytes) : result unit :=
  match cs with
  | [] => Ok tt
  | c :: t =>
      if bool_decide (tc_ID c = []) then Error "auth.http_proxy.bearer: empty id"
      else if bool_decide (tc_ID c ∈ seen) then Error "auth.http_proxy.bearer: duplicate id"
      else _ ← wrap "auth.http_proxy.bearer" (parseSHA256Hash (tc_Hash c));
           checkBearer t (tc_ID c :: seen)
  end.

(** [CompileAuth]: [Ok None] when there is no auth.http_proxy block. *)
Definition CompileAuth (a : option AuthConfig) : result (option CompiledAuth) :=
  match a ≫= ac_HTTPProxy with
  | None => Ok None
  | Some hp =>
      broker ← (match hp_Broker hp with
                | None => Ok None
                | Some b => Some <$> compileBroker b
                end);
      if hp_Required hp && bool_decide (hp_Basic hp = []) && bool_decide (hp_Bearer hp = [])
         && bool_decide (broker = None) then
        Error "auth.http_proxy: required is true but no scheme (basic/bearer/broker) is configured"
      else
        _ ← checkBasic (hp_Basic hp) [];
        _ ← checkBearer (hp_Bearer hp) [];
        Ok (Some {| cau_Required := hp_Required hp;
                    cau_Realm := if bool_decide (hp_Realm hp = []) then defaultRealm else hp_Realm hp;
                    cau_Basic := hp_Basic hp; cau_Bearer := hp_Bearer hp; cau_Broker := broker |})
  end.

(** [ChallengeSchemes]. *)
Definition ChallengeSchemes (ca : CompiledAuth) : list bytes :=
  ((if (0 <? length (cau_Basic ca))%nat || bool_decide (is_Some (cau_Broker ca)) then [str "Basic"] else [])
   ++ (if (0 <? length (cau_Bearer ca))%nat || bool_decide (is_Some (cau_Broker ca)) then [str "Bearer"] else []))%list.

(** ** Authentication

    The result is [None] when the key derivation panics, else the principal
    ([None] inside: refused). *)
Section Authenticate.
Context `{DG : Digests}.

(** [verifyArgon2id]: [None] is a panic, [Some false] also stands for an error. *)
Definition verifyArgon2id (hash password : bytes) : option bool :=
  match parseArgon2idHash hash with
  | Error _ => Some false
  | Ok p =>
      match argon2id password (ap_salt p) (ap_time p) (ap_memory p) (ap_threads p)
              (Z.of_nat (length (ap_sum p)) mod 2 ^ 32) with
      | None => None
      | Some got => Some (bool_decide (got = ap_sum p))
      end
  end.

(** [verifyBearerToken]. *)
Definition verifyBearerToken (hash token : bytes) : bool :=
  match parseSHA256Hash hash with
  | Error _ => false
  | Ok want => bool_decide (sha256 token = want)
  end.

Fixpoint basicLoop (cs : list BasicCredential) (user pass : bytes) : option (option bytes) :=
  match cs with
  | [] => Some None
  | c :: t =>
      if bool_decide (bc_User c = user) then
        match verifyArgon2id (bc_Hash c) pass with
        | None => None
        | Some true => Some (Some (bc_User c))
        | Some false => basicLoop t user pass
        end
      else basicLoop t user pass
  end.

(** [authenticateBasic]. *)
Definition authenticateBasic (ca : CompiledAuth) (b64 : bytes) : option (option bytes) :=
  match base64_decode true b64 with
  | Error _ => Some None
  | Ok raw =>
      match Cut ":" raw with
      | None => Some None
      | Some (user, pass) => basicLoop (cau_Basic ca) user pass
      end
  end.

(** [authenticateBearer]. *)
Fixpoint bearerLoop (cs : list BearerCredential) (token : bytes) : option bytes :=
  match cs with
  | [] => None
  | c :: t => if verifyBearerToken (tc_Hash c) token then Some (tc_ID c) else bearerLoop t token
  end.

(** [Authenticate]: the scheme name is compared exactly. *)
Definition Authenticate (ca : CompiledAuth) (proxyAuthorization : bytes) : option (option bytes) :=
  match Cut " " proxyAuthorization with
  | None => Some None
  | Some (scheme, value) =>
      if bool_decide (scheme = str "Basic") then authenticateBasic ca value
      else if bool_decide (scheme = str "Bearer") then Some (bearerLoop (cau_Bearer ca) value)
      else Some None
  end.

End Authenticate.
