(* ===== verification/RuleSet.v ===== *)
(** * Rule sets and their lookups (internal/rules/engine.go 21-170)

    One client's compiled policy and the three first-match passes over it.  The
    two host-based passes run over the candidates of the host index; the scan
    over the whole list is the reference they are proved equal to. *)

From S2P Require Import Prelude GoStrings Netip Glob Json Encoding Schema.
From S2P Require Import Matcher Compile HostIndex Egress Auth.

Open Scope Z_scope.

Record ConnInput : Type := { in_Host : bytes; in_Port : bytes; in_Proto : bytes }.

(** [http.Header]: canonical name to values. *)
Abbreviation Header := (list (bytes * list bytes)).

(** [Header.Get]: the first value of the canonicalised name, or [""]. *)
Definition Header_Get (h : Header) (name : bytes) : bytes :=
  match assoc (CanonicalMIMEHeaderKey name) h with
  | Some (v :: _) => v
  | _ => []
  end.

Record MsgInput : Type := {
  in_Conn : ConnInput;
  in_Path : bytes;
  in_Method : bytes;
  in_Header : Header }.

Section RuleSet.
Context `{RE : RegexEngine} `{DG : Digests} `{UT : UnicodeTable}.

Record RuleSet : Type := {
  rs_rules : list CompiledRule;
  rs_hostIndex : option hostCandidateIndex;
  rs_egress : list CompiledEgress;
  rs_uuid : bytes;
  rs_auth : option CompiledAuth }.

(** [&RuleSet{}]: no rule, no egress, nothing matches. *)
Definition emptyRuleSet : RuleSet :=
  {| rs_rules := []; rs_hostIndex := None; rs_egress := []; rs_uuid := []; rs_auth := None |}.

Definition newRuleSetWithHostIndex (rules : list CompiledRule) (idx : hostCandidateIndex)
    (egress : list CompiledEgress) (uuid : bytes) (auth : option CompiledAuth) : RuleSet :=
  {| rs_rules := rules; rs_hostIndex := Some idx; rs_egress := egress; rs_uuid := uuid;
     rs_auth := auth |}.

Definition newRuleSet (rules : list CompiledRule) (egress : list CompiledEgress)
    (uuid : bytes) (auth : option CompiledAuth) : RuleSet :=
  newRuleSetWithHostIndex rules (buildHostCandidateIndex rules) egress uuid auth.

(** ** Predicates of one rule *)

Definition connMatch (r : CompiledRule) (i : ConnInput) : bool :=
  matcher_match (connHost r) (in_Host i) && matcher_match (connPort r) (in_Port i)
  && matcher_match (connProto r) (in_Proto i).

(** [matchHeaders]. *)
Definition matchHeaders (want : list (bytes * matcher)) (got : Header) : bool :=
  forallb (fun '(name, m) => matcher_match m (Header_Get got name)) want.

(** The message-phase predicate: a rule that denies connections is skipped. *)
Definition msgMatch (r : CompiledRule) (i : MsgInput) : bool :=
  negb (cr_deny r) && connMatch r (in_Conn i)
  && matcher_match (msgPath r) (in_Path i) && matcher_match (msgMethod r) (in_Method i)
  && matchHeaders (msgHeader r) (in_Header i).

(** ** First-match scans *)

(** [for _, r := range rs.rules]. *)
Fixpoint scanRules (pred : CompiledRule -> bool) (rs : list CompiledRule) : option CompiledRule :=
  match rs with
  | [] => None
  | r :: t => if pred r then Some r else scanRules pred t
  end.

(** [for _, ruleID := range candidates]; a number outside the list would be an
    index panic and ends the scan. *)
Fixpoint scanCandidates (pred : CompiledRule -> bool) (rs : list CompiledRule) (ids : list nat)
    : option CompiledRule :=
  match ids with
  | [] => None
  | id :: t =>
      match rs !! id with
      | None => None
      | Some r => if pred r then Some r else scanCandidates pred rs t
      end
  end.

Definition firstMatch (s : RuleSet) (host : bytes) (pred : CompiledRule -> bool) : option CompiledRule :=
  match rs_hostIndex s with
  | None => scanRules pred (rs_rules s)
  | Some idx => scanCandidates pred (rs_rules s) (appendCandidates idx host)
  end.

(** [LookupConn]: [(mitm, deny, matched)]. *)
Definition LookupConn (s : RuleSet) (i : ConnInput) : bool * bool * bool :=
  match firstMatch s (in_Host i) (fun r => connMatch r i) with
  | Some r => (cr_mitm r, cr_deny r, true)
  | None => (false, false, false)
  end.

(** [LookupRequest]. *)
Definition LookupRequest (s : RuleSet) (i : MsgInput) : option CompiledRule :=
  firstMatch s (in_Host (in_Conn i)) (fun r => msgMatch r i).

(** [RuleSet.LookupEgress]. *)
Definition RuleSet_LookupEgress (s : RuleSet) (addr : Addr) (port : Z) (proto : bytes) : bool * bool :=
  LookupEgress (rs_egress s) addr port proto.

(** ** The index is invisible *)

(** A rule set as the loader builds it: an index, when there is one, was built
    from the rules, whose suffix lists come from the pattern parser. *)
Definition ruleset_wf (s : RuleSet) : Prop :=
  Forall (fun r => matcher_wf (connHost r)) (rs_rules s)
  /\ match rs_hostIndex s with
     | None => True
     | Some idx => idx = buildHostCandidateIndex (rs_rules s) /\ index_fits idx
     end.

(** Scanning increasing candidates that include every match is scanning all. *)
Lemma scanCandidates_scan pred rs ids k :
  StronglySorted lt ids -> Forall (fun x => (k <= x < length rs)%nat) ids ->
  (forall x r, (k <= x)%nat -> rs !! x = Some r -> pred r = true -> x ∈ ids) ->
  scanCandidates pred rs ids = scanRules pred (drop k rs).
Proof.
  remember (length rs - k)%nat as n eqn:Hn. revert k ids Hn.
  induction n as [|n IH]; intros k ids Hn Hs Hr Hc.
  { rewrite drop_ge by lia. destruct ids as [|x ids]; [done|].
    apply Forall_cons in Hr as [? _]. lia. }
  destruct (lookup_lt_is_Some_2 rs k) as [r Hk]; [lia|].
  rewrite (drop_S _ _ _ Hk). cbn [scanRules].
  destruct (decide (head ids = Some k)) as [Hh|Hh].
  - destruct ids as [|x ids]; [done|]. injection Hh as ->. simpl. rewrite Hk.
    destruct (pred r) eqn:E; [done|].
    apply StronglySorted_inv in Hs as [Hs Hx]. apply Forall_cons in Hr as [_ Hr].
    apply IH; [lia|done| |].
    + rewrite Forall_forall in Hx, Hr |- *. intros y Hy. specialize (Hx y Hy). specialize (Hr y Hy). lia.
    + intros x r' Hx' Hr' Hp. destruct (decide (x = k)) as [->|]; [congruence|].
      specialize (Hc x r' ltac:(lia) Hr' Hp). set_solver.
  - assert (k ∉ ids) as Hnotin.
    { destruct ids as [|x ids]; [set_solver|]. simpl in Hh.
      apply StronglySorted_inv in Hs as [_ Hx]. apply Forall_cons in Hr as [Hxk _].
      intros [->|Hin]%elem_of_cons; [done|]. rewrite Forall_forall in Hx. specialize (Hx k Hin). lia. }
    destruct (pred r) eqn:E; [by specialize (Hc k r ltac:(lia) Hk E)|].
    apply IH; [lia|done| |].
    + rewrite Forall_forall in Hr |- *. intros y Hy. specialize (Hr y Hy).
      destruct (decide (y = k)); [by subst|lia].
    + intros x r' Hx' Hr' Hp. apply (Hc x r'); [lia|done|done].
Qed.

(** A predicate that implies the host match sees no difference between the
    indexed scan and the scan of the whole list. *)
Lemma firstMatch_linear s host pred :
  ruleset_wf s ->
  (forall r, pred r = true -> matcher_match (connHost r) host = true) ->
  firstMatch s host pred = scanRules pred (rs_rules s).
Proof.
  intros [Hwf Hidx] Hpred. unfold firstMatch. destruct (rs_hostIndex s) as [idx|]; [|done].
  destruct Hidx as [-> Hfits].
  destruct (candidates_spec (rs_rules s) host Hfits) as [Hsorted Hspec].
  rewrite <- (drop_0 (rs_rules s)) at 3. apply scanCandidates_scan; [done| |].
  - apply Forall_forall. intros x Hx. apply Hspec in Hx as (r & Hr & _).
    apply lookup_lt_Some in Hr. lia.
  - intros x r _ Hr Hp. eapply candidates_complete; [done| |done|by apply Hpred].
    rewrite Forall_lookup in Hwf. eauto.
Qed.

Lemma connMatch_host r i : connMatch r i = true -> matcher_match (connHost r) (in_Host i) = true.
Proof. unfold connMatch. rewrite !andb_true_iff. tauto. Qed.

Lemma msgMatch_host r i :
  msgMatch r i = true -> matcher_match (connHost r) (in_Host (in_Conn i)) = true.
Proof. unfold msgMatch. rewrite !andb_true_iff. intros. apply connMatch_host. tauto. Qed.

(** The two host-based lookups over the plain list, as the code has them when
    there is no index. *)
Definition withoutIndex (s : RuleSet) : RuleSet :=
  {| rs_rules := rs_rules s; rs_hostIndex := None; rs_egress := rs_egress s;
     rs_uuid := rs_uuid s; rs_auth := rs_auth s |}.

Lemma newRuleSet_wf rf rules egress uuid auth :
  Compile rf = Ok rules -> Z.of_nat (host_bytes rf) < 2 ^ 32 ->
  ruleset_wf (newRuleSet rules egress uuid auth).
Proof.
  intros Hc Hsize. split; simpl; [|by eauto using Compile_fits].
  eapply Forall_impl; [by apply Compile_ok in Hc|]. intros r Hr. apply Hr.
Qed.

(** C1: the host index never changes a verdict.  For every rule file that
    compiles (its host patterns together below 4 GiB, so that no 32-bit offset
    of the index wraps), the connection-phase and the message-phase lookups
    over the indexed candidates return exactly what the linear first-match scan
    of the same rules returns, whatever the host, port, protocol and message. *)
Theorem host_index_transparent rf rules egress uuid auth :
  Compile rf = Ok rules -> Z.of_nat (host_bytes rf) < 2 ^ 32 ->
  let s := newRuleSet rules egress uuid auth in
  (forall i, LookupConn s i = LookupConn (withoutIndex s) i)
  /\ (forall i, LookupRequest s i = LookupRequest (withoutIndex s) i).
Proof.
  intros Hc Hsize s. pose proof (newRuleSet_wf rf rules egress uuid auth Hc Hsize) as Hwf.
  fold s in Hwf. assert (ruleset_wf (withoutIndex s)) as Hwf' by by destruct Hwf.
  split; intros i; unfold LookupConn, LookupRequest;
    rewrite !firstMatch_linear; eauto using connMatch_host, msgMatch_host.
Qed.

End RuleSet.

(** ** A policy to evaluate *)

Definition deny_host (h : bytes) : Rule :=
  {| r_Match := match_host h; r_Connection := Some {| c_Accept := Some false |};
     r_MITM := None; r_Request := []; r_Response := [] |}.

Definition intercept_host (h : bytes) : Rule :=
  {| r_Match := match_host h; r_Connection := None; r_MITM := None;
     r_Request := []; r_Response := [] |}.

(** An imported suffix list, a glob with a literal tail, and a catch-all. *)
Definition sample_policy : RuleFile :=
  {| rf_UUID := []; rf_Auth := None;
     rf_HTTP := Some [deny_host (str "re:(?i)(?:^|\.)(?:ads\.example|tracker\.example)$");
                 intercept_host (str "*.example.com"); deny_host []];
     rf_Egress := None |}.

Section Sample.
#[local] Existing Instance no_regex.
#[local] Existing Instance toy_digests.
#[local] Existing Instance ascii_table.

Lemma host_index_transparent_witness :
  exists rules, Compile sample_policy = Ok rules /\ length rules = 3%nat
  /\ let s := newRuleSet rules [] [] None in
     (forall i, LookupConn s i = LookupConn (withoutIndex s) i)
     /\ (forall i, LookupRequest s i = LookupRequest (withoutIndex s) i).
Proof.
  eexists. split; [vm_compute; reflexivity|]. split; [reflexivity|].
  apply (host_index_transparent sample_policy _ [] [] None); vm_compute; reflexivity.
Defined.

End Sample.
