(* ===== verification/MaskedKey.v ===== *)
(** * Keys of the default table and its coverage check
    (internal/rules/defaultruleset.go 16-150, 528-591)

    Address/mask keys, their canonical text, containment, and the check that
    the plain prefixes of a table leave no gap. *)

From S2P Require Import Prelude GoStrings Netip.

Open Scope Z_scope.

Record maskedKey : Type := { mk_is4 : bool; mk_addr : list Z; mk_mask : list Z }.

#[export] Instance maskedKey_eq_dec : EqDecision maskedKey.
Proof. solve_decision. Defined.

(** [isDecimal]. *)
Definition isDecimal (s : bytes) : bool :=
  negb (bool_decide (s = [])) && forallb is_digit s.

(** [prefixMask]: the loop sets bit [7 - i%8] of byte [i/8]. *)
Definition setBit (m : list Z) (i : nat) : list Z :=
  alter (fun b => Z.lor b (Z.shiftl 1 (Z.of_nat (7 - i mod 8)))) (i / 8)%nat m.

Definition prefixMask (n width : nat) : list Z :=
  foldl setBit (replicate width 0) (seq 0 n).

(** The leading one bits of a byte: the [for bit := 7; ...] loop. *)
Fixpoint leadingOnes (bits : nat) (b : Z) : nat :=
  match bits with
  | O => 0%nat
  | S k => if Z.testbit b (Z.of_nat k) then S (leadingOnes k b) else 0%nat
  end.

(** [contiguousPrefixLen]: 0xff bytes, one byte of the form 1..10..0, zeros. *)
Fixpoint contiguousPrefixLen (mask : list Z) : option nat :=
  match mask with
  | [] => Some 0%nat
  | b :: t =>
      if b =? 255 then (fun n => (8 + n)%nat) <$> contiguousPrefixLen t
      else
        let lead := leadingOnes 8 b in
        let want := Z.shiftl 255 (Z.of_nat (8 - lead)) mod 256 in
        if negb (b =? want) then None
        else if forallb (Z.eqb 0) t then Some lead else None
  end.

(** [parseMaskedKey]. *)
Definition parseMaskedKey (s : bytes) : result maskedKey :=
  '(addrPart, maskPart) ← of_option "missing /" (Cut "/" s);
  addr ← wrap "invalid address" (ParseAddr addrPart);
  let width := if Is4 addr then 4%nat else 16%nat in
  mask ← (if isDecimal maskPart then
            match Atoi maskPart with
            | Ok n => if (n <? 0) || (Z.of_nat (width * 8) <? n) then Error "invalid prefix length"
                      else Ok (prefixMask (Z.to_nat n) width)
            | Error _ => Error "invalid prefix length"
            end
          else
            maskAddr ← wrap "invalid mask" (ParseAddr maskPart);
            if negb (Bool.eqb (Is4 maskAddr) (Is4 addr)) then
              Error "mask family does not match address"
            else Ok (AsSlice maskAddr));
  Ok {| mk_is4 := Is4 addr; mk_addr := zip_with Z.land (AsSlice addr) mask; mk_mask := mask |}.

(** [maskedKey.canonical]. *)
Definition slice_string (l : list Z) : bytes :=
  AddrString (default AddrZero (AddrFromSlice l)).

Definition canonical (k : maskedKey) : bytes :=
  match contiguousPrefixLen (mk_mask k) with
  | Some n => (slice_string (mk_addr k) ++ str "/" ++ Itoa (Z.of_nat n))%list
  | None => (slice_string (mk_addr k) ++ str "/" ++ slice_string (mk_mask k))%list
  end.

(** [maskedKey.contains]. *)
Fixpoint contains_bytes (ab mask addr : list Z) : bool :=
  match ab, mask, addr with
  | [], _, _ => true
  | b :: ab', m :: mask', a :: addr' => (Z.land b m =? a) && contains_bytes ab' mask' addr'
  | _, _, _ => false
  end.

Definition contains (k : maskedKey) (ab : list Z) : bool :=
  contains_bytes ab (mk_mask k) (mk_addr k).

(** ** Coverage *)

(** [prefixRange]: the inclusive interval of a prefix. *)
Definition prefixRange (p : Prefix) : Z * Z :=
  let start := of_be (AsSlice (pfx_addr p)) in
  (start, start + Z.shiftl 1 (BitLen (pfx_addr p) - pfx_bits p) - 1).

(** What [checkCoverage] reports. *)
Inductive coverage : Type :=
  | Covered
  | NoEntries
  | Gap (lo hi : Z).

(** The scan over the sorted spans, then the check of the upper end. *)
Fixpoint scanSpans (spans : list (Z * Z)) (covered maxAddr : Z) : coverage :=
  match spans with
  | [] => if covered <? maxAddr then Gap (covered + 1) maxAddr else Covered
  | (s, e) :: t =>
      if covered + 1 <? s then Gap (covered + 1) (s - 1)
      else scanSpans t (Z.max covered e) maxAddr
  end.

(** Sorting by start; the order of equal starts does not matter to the scan. *)
Fixpoint insert_span (x : Z * Z) (l : list (Z * Z)) : list (Z * Z) :=
  match l with
  | [] => [x]
  | y :: t => if fst y <? fst x then y :: insert_span x t else x :: l
  end.

Definition sort_spans (l : list (Z * Z)) : list (Z * Z) := foldr insert_span [] l.

Definition checkCoverage (prefixes : list Prefix) (bits : Z) : coverage :=
  match prefixes with
  | [] => NoEntries
  | _ => scanSpans (sort_spans (map prefixRange prefixes)) (-1) (Z.shiftl 1 bits - 1)
  end.

(** [formatAddr]: an address number as text, for the gap message. *)
Definition formatAddr (n bits : Z) : bytes :=
  slice_string (be_bytes (Z.to_nat (bits / 8)) n).

(** ** Prefix masks in closed form *)

Fixpoint pmask (n w : nat) : list Z :=
  match w with
  | O => []
  | S w' =>
      if (8 <=? n)%nat then 255 :: pmask (n - 8) w'
      else 256 - 2 ^ Z.of_nat (8 - n) :: replicate w' 0
  end.

Lemma pmask_0 w : pmask 0 w = replicate w 0.
Proof. by destruct w. Qed.

Lemma length_pmask n w : length (pmask n w) = w.
Proof.
  revert n. induction w as [|w IH]; intros n; [done|]. simpl.
  destruct (8 <=? n)%nat eqn:E; simpl in E; rewrite ?E; simpl; by rewrite ?IH, ?length_replicate.
Qed.

(** A property of the eight bit positions, or of the bytes, by enumeration. *)
Lemma below_ind (P : nat -> Prop) k n : Forall P (seq 0 k) -> (n < k)%nat -> P n.
Proof. rewrite Forall_forall. intros H Hn. apply H, elem_of_seq. lia. Qed.

Lemma byte_ind (P : Z -> Prop) b :
  Forall (fun n => P (Z.of_nat n)) (seq 0 256) -> 0 <= b < 256 -> P b.
Proof.
  intros H Hb. rewrite <- (Z2Nat.id b) by lia. apply (below_ind (fun n => P (Z.of_nat n)) 256); [done|lia].
Qed.

Lemma setBit_head b l n : (n < 8)%nat ->
  setBit (b :: l) n = Z.lor b (Z.shiftl 1 (Z.of_nat (7 - n))) :: l.
Proof. intros Hn. unfold setBit. rewrite Nat.div_small, Nat.mod_small by lia. done. Qed.

Lemma setBit_tail b l n : (8 <= n)%nat -> setBit (b :: l) n = b :: setBit l (n - 8).
Proof.
  intros Hn. unfold setBit.
  assert (exists m, n = (m + 1 * 8)%nat) as [m ->] by (exists (n - 8)%nat; lia).
  replace (m + 1 * 8 - 8)%nat with m by lia.
  rewrite Nat.div_add, Nat.Div0.mod_add by lia. by rewrite Nat.add_1_r.
Qed.

Lemma pmask_S n w : (n < 8 * w)%nat -> pmask (S n) w = setBit (pmask n w) n.
Proof.
  revert n. induction w as [|w IH]; intros n Hn; [lia|]. cbn [pmask].
  destruct (Nat.leb_spec 8 n) as [H8|H8].
  - destruct (Nat.leb_spec 8 (S n)); [|lia]. rewrite setBit_tail by done. f_equal.
    replace (S n - 8)%nat with (S (n - 8)) by lia. apply IH. lia.
  - rewrite setBit_head by done. destruct (Nat.leb_spec 8 (S n)) as [H8'|H8'].
    + assert (n = 7%nat) as -> by lia. rewrite pmask_0. done.
    + f_equal. revert H8. apply (below_ind (fun n => 256 - 2 ^ Z.of_nat (8 - S n)
        = Z.lor (256 - 2 ^ Z.of_nat (8 - n)) (Z.shiftl 1 (Z.of_nat (7 - n)))) 8).
      repeat constructor.
Qed.

Lemma prefixMask_pmask n w : (n <= 8 * w)%nat -> prefixMask n w = pmask n w.
Proof.
  unfold prefixMask. induction n as [|n IH]; intros Hn.
  - by rewrite pmask_0.
  - rewrite seq_S, foldl_snoc, IH by lia. rewrite <- pmask_S by lia. done.
Qed.

Lemma forallb_zeros w : forallb (Z.eqb 0) (replicate w 0) = true.
Proof. by induction w. Qed.

Lemma zeros_replicate l : forallb (Z.eqb 0) l = true -> l = replicate (length l) 0.
Proof.
  induction l as [|b l IH]; [done|]. cbn [forallb]. intros [Hb Hl]%andb_true_iff.
  apply Z.eqb_eq in Hb as <-. simpl. by rewrite <- IH.
Qed.

Lemma contiguous_pmask n w : (n <= 8 * w)%nat -> contiguousPrefixLen (pmask n w) = Some n.
Proof.
  revert n. induction w as [|w IH]; intros n Hn; [by replace n with 0%nat by lia|]. cbn [pmask].
  destruct (Nat.leb_spec 8 n) as [H8|H8].
  - simpl. rewrite IH by lia. simpl. f_equal. lia.
  - cbn [contiguousPrefixLen]. rewrite forallb_zeros.
    do 8 (destruct n as [|n]; [reflexivity|]). lia.
Qed.

(** The byte that ends the run of ones, over all bytes. *)
Lemma last_byte_shape b :
  0 <= b < 256 -> b <> 255 -> b = Z.shiftl 255 (Z.of_nat (8 - leadingOnes 8 b)) mod 256 ->
  (leadingOnes 8 b < 8)%nat /\ b = 256 - 2 ^ Z.of_nat (8 - leadingOnes 8 b).
Proof.
  set (check := fun b => (b =? 255)
    || negb (b =? Z.shiftl 255 (Z.of_nat (8 - leadingOnes 8 b)) mod 256)
    || ((leadingOnes 8 b <? 8)%nat && (b =? 256 - 2 ^ Z.of_nat (8 - leadingOnes 8 b)))).
  intros Hb Hne Hw. assert (check b = true) as Hc.
  { apply (byte_ind (fun b => check b = true)); [|done].
    apply Forall_forall. intros m Hm.
    assert (forallb (fun m => check (Z.of_nat m)) (seq 0 256) = true) as H by (vm_compute; reflexivity).
    rewrite forallb_forall in H. by apply H, list_elem_of_In. }
  unfold check in Hc. rewrite !orb_true_iff, negb_true_iff, andb_true_iff in Hc.
  rewrite Z.eqb_eq, Z.eqb_neq, Nat.ltb_lt, Z.eqb_eq in Hc. tauto.
Qed.

Lemma contiguous_inv mask n :
  bytes_ok mask -> contiguousPrefixLen mask = Some n ->
  mask = pmask n (length mask) /\ (n <= 8 * length mask)%nat.
Proof.
  revert n. induction mask as [|b t IH]; intros n Hok H; [by simplify_eq/=|].
  apply bytes_ok_cons in Hok as [Hb Hok]. cbn [contiguousPrefixLen] in H. cbn [pmask length].
  destruct (Z.eqb_spec b 255) as [->|Hne].
  - apply fmap_Some in H as (k & Hk & ->). destruct (IH k Hok Hk) as [Ht Hle].
    destruct (Nat.leb_spec 8 (8 + k)); [|lia].
    replace (8 + k - 8)%nat with k by lia. rewrite <- Ht. split; [done|lia].
  - destruct (negb _) eqn:Ew in H; [done|]. apply negb_false_iff, Z.eqb_eq in Ew.
    destruct (forallb (Z.eqb 0) t) eqn:Ez; [|done]. apply (inj Some) in H as <-.
    destruct (last_byte_shape b Hb Hne Ew) as [Hlt Hbv].
    destruct (Nat.leb_spec 8 (leadingOnes 8 b)); [lia|].
    rewrite <- Hbv, <- (zeros_replicate t Ez). split; [done|lia].
Qed.

(** ** Byte lists as integers *)

Lemma of_be_cons b l : of_be (b :: l) = b * 256 ^ Z.of_nat (length l) + of_be l.
Proof.
  induction l as [|c l IH] using rev_ind; [unfold of_be; simpl; lia|].
  change (b :: l ++ [c])%list with ((b :: l) ++ [c])%list.
  rewrite !of_be_snoc, IH, length_app. simpl length.
  rewrite Nat.add_1_r, Nat2Z.inj_succ, Z.pow_succ_r by lia. lia.
Qed.

Lemma pow_256 k : 0 <= k -> 256 ^ k = 2 ^ (8 * k).
Proof. intros. by rewrite Z.pow_mul_r by lia. Qed.

Lemma of_be_zeros w : of_be (replicate w 0) = 0.
Proof. induction w as [|w IH]; [done|]. simpl replicate. rewrite of_be_cons, IH. lia. Qed.

Lemma of_be_pmask n w :
  (n <= 8 * w)%nat -> of_be (pmask n w) = 2 ^ (8 * Z.of_nat w) - 2 ^ (8 * Z.of_nat w - Z.of_nat n).
Proof.
  revert n. induction w as [|w IH]; intros n Hn.
  { replace n with 0%nat by lia. done. }
  cbn [pmask]. destruct (Nat.leb_spec 8 n).
  - rewrite of_be_cons, length_pmask, IH, pow_256 by lia.
    replace (8 * Z.of_nat (S w)) with (8 * Z.of_nat w + 8) by lia.
    rewrite Z.pow_add_r by lia.
    replace (8 * Z.of_nat w + 8 - Z.of_nat n) with (8 * Z.of_nat w - Z.of_nat (n - 8)) by lia.
    change (2 ^ 8) with 256. lia.
  - rewrite of_be_cons, length_replicate, of_be_zeros, pow_256 by lia.
    replace (8 * Z.of_nat (S w)) with (8 + 8 * Z.of_nat w) by lia.
    replace (8 + 8 * Z.of_nat w - Z.of_nat n) with (Z.of_nat (8 - n) + 8 * Z.of_nat w) by lia.
    rewrite !Z.pow_add_r by lia. change (2 ^ 8) with 256. lia.
Qed.

(** A number split at bit [j]. *)
Lemma testbit_split b x j n :
  0 <= j -> 0 <= x < 2 ^ j -> 0 <= n ->
  Z.testbit (b * 2 ^ j + x) n = if n <? j then Z.testbit x n else Z.testbit b (n - j).
Proof.
  intros Hj Hx Hn. destruct (Z.ltb_spec n j).
  - rewrite <- (Z.mod_pow2_bits_low (b * 2 ^ j + x) j n) by lia.
    rewrite Z.add_comm, Z.mod_add, Z.mod_small by lia. done.
  - replace n with ((n - j) + j) at 1 by lia.
    rewrite <- Z.shiftr_spec by lia. rewrite Z.shiftr_div_pow2 by lia.
    rewrite Z.div_add_l, Z.div_small by lia. by rewrite Z.add_0_r.
Qed.

Lemma land_split b x c y j :
  0 <= j -> 0 <= x < 2 ^ j -> 0 <= y < 2 ^ j ->
  Z.land (b * 2 ^ j + x) (c * 2 ^ j + y) = Z.land b c * 2 ^ j + Z.land x y.
Proof.
  intros Hj Hx Hy.
  assert (0 <= Z.land x y < 2 ^ j) as Hxy.
  { split; [apply Z.land_nonneg; lia|].
    assert (Z.land x y <= x); [|lia].
    apply Z.ldiff_le; [lia|]. apply Z.bits_inj'. intros n Hn.
    rewrite Z.ldiff_spec, Z.land_spec, Z.bits_0. destruct (Z.testbit x n); [|done]. by rewrite andb_false_r. }
  apply Z.bits_inj'. intros n Hn. rewrite Z.land_spec, !testbit_split by done.
  destruct (n <? j); by rewrite Z.land_spec.
Qed.

Lemma of_be_land a m :
  bytes_ok a -> bytes_ok m -> length a = length m ->
  of_be (zip_with Z.land a m) = Z.land (of_be a) (of_be m).
Proof.
  revert m. induction a as [|b a IH]; intros [|c m] Ha Hm Hlen; simplify_eq/=; [done|].
  apply bytes_ok_cons in Ha as [Hb Ha]. apply bytes_ok_cons in Hm as [Hc Hm].
  rewrite !of_be_cons, length_zip_with, Hlen, Nat.min_id, IH by done.
  pose proof (of_be_range a Ha) as Hra. pose proof (of_be_range m Hm) as Hrm.
  rewrite Hlen, pow_256 in Hra by lia. rewrite !pow_256 in * by lia.
  by rewrite land_split by lia.
Qed.

(** ** Well-formed keys *)

Definition key_width (is4 : bool) : nat := if is4 then 4%nat else 16%nat.

(** A key as [parseMaskedKey] builds it: both parts of the family's width, no
    address bit outside the mask. *)
Definition key_wf (k : maskedKey) : Prop :=
  length (mk_addr k) = key_width (mk_is4 k) /\ length (mk_mask k) = key_width (mk_is4 k)
  /\ bytes_ok (mk_addr k) /\ bytes_ok (mk_mask k)
  /\ zip_with Z.land (mk_addr k) (mk_mask k) = mk_addr k.

Lemma pmask_ok n w : bytes_ok (pmask n w).
Proof.
  revert n. induction w as [|w IH]; intros n; cbn [pmask]; [constructor|].
  destruct (Nat.leb_spec 8 n) as [|H8]; apply bytes_ok_cons; split; [lia|apply IH| |].
  - do 8 (destruct n as [|n]; [vm_compute; intuition discriminate|]). lia.
  - apply Forall_replicate. lia.
Qed.

Lemma land_bytes_ok a m : bytes_ok a -> bytes_ok m -> bytes_ok (zip_with Z.land a m).
Proof.
  revert m. induction a as [|b a IH]; intros [|c m] Ha Hm; simpl; try constructor.
  - apply bytes_ok_cons in Ha as [Hb _]. apply bytes_ok_cons in Hm as [Hc _].
    pose proof (land_split 0 b 0 c 8 ltac:(lia) ltac:(simpl; lia) ltac:(simpl; lia)).
    split; [apply Z.land_nonneg; lia|].
    assert (Z.land b c <= b); [|lia]. apply Z.ldiff_le; [lia|]. apply Z.bits_inj'. intros n Hn.
    rewrite Z.ldiff_spec, Z.land_spec, Z.bits_0. destruct (Z.testbit b n); [|done]. by rewrite andb_false_r.
  - apply bytes_ok_cons in Ha as [_ Ha]. apply bytes_ok_cons in Hm as [_ Hm]. by apply IH.
Qed.

Lemma land_idem a m : zip_with Z.land (zip_with Z.land a m) m = zip_with Z.land a m.
Proof.
  revert m. induction a as [|b a IH]; intros [|c m]; simpl; try done.
  by rewrite <- Z.land_assoc, Z.land_diag, IH.
Qed.

Lemma AsSlice_ok a : bytes_ok (AsSlice a).
Proof. destruct a; [apply Forall_nil_2|apply (be_bytes_ok 4)|apply (be_bytes_ok 16)]. Qed.

Lemma AsSlice_length a : IsValid a = true -> length (AsSlice a) = key_width (Is4 a).
Proof. by destruct a. Qed.

Lemma parseMaskedKey_wf s k : parseMaskedKey s = Ok k -> key_wf k.
Proof.
  unfold parseMaskedKey. intros H. inv_ok. destruct r as [addrPart maskPart]. inv_ok.
  match goal with H : ParseAddr addrPart = Ok ?a |- _ => rename a into addr; apply ParseAddr_wf in H as [_ Hv] end.
  set (w := if Is4 addr then 4%nat else 16%nat) in *. change w with (key_width (Is4 addr)) in *. clear w.
  match goal with H : _ = Ok ?m, H2 : _ = k |- _ => rename m into mask; rename H into Hmask; subst k end.
  assert (bytes_ok mask /\ length mask = key_width (Is4 addr)) as [Hok Hlen].
  { destruct (isDecimal maskPart).
    - destruct (Atoi maskPart) as [n|]; [|done].
      destruct (_ || _) eqn:E in Hmask; [done|]. injection Hmask as <-.
      rewrite orb_false_iff, !Z.ltb_ge in E.
      rewrite prefixMask_pmask by lia. split; [apply pmask_ok|apply length_pmask].
    - apply result_bind_ok in Hmask as (ma & Hma & Hmask). rewrite wrap_ok in Hma.
      apply ParseAddr_wf in Hma as [_ Hmv].
      destruct (negb _) eqn:E in Hmask; [done|]. injection Hmask as <-.
      apply negb_false_iff, Bool.eqb_prop in E. rewrite <- E.
      split; [apply AsSlice_ok|by apply AsSlice_length]. }
  unfold key_wf; simpl. pose proof (AsSlice_length addr Hv) as Hal.
  rewrite length_zip_with, Hal, Hlen, Nat.min_id.
  split_and!; [done|done| |done|apply land_idem]. apply land_bytes_ok; [apply AsSlice_ok|done].
Qed.

(** ** Containment as arithmetic *)

Lemma contains_bytes_zip ab mask addr :
  length ab = length mask -> length ab = length addr ->
  contains_bytes ab mask addr = bool_decide (zip_with Z.land ab mask = addr).
Proof.
  revert mask addr. induction ab as [|b ab IH]; intros [|m mask] [|a addr] H1 H2; simplify_eq/=.
  { done. }
  rewrite IH by done. destruct (Z.eqb_spec (Z.land b m) a) as [->|Hne]; simpl.
  - apply bool_decide_ext. naive_solver.
  - rewrite bool_decide_false; [done|]. naive_solver.
Qed.

Lemma contains_value k ab :
  key_wf k -> bytes_ok ab -> length ab = key_width (mk_is4 k) ->
  contains k ab = (Z.land (of_be ab) (of_be (mk_mask k)) =? of_be (mk_addr k)).
Proof.
  intros (Hla & Hlm & Hoa & Hom & _) Hab Hlab. unfold contains.
  rewrite contains_bytes_zip by congruence.
  rewrite <- of_be_land by (done || congruence).
  destruct (Z.eqb_spec (of_be (zip_with Z.land ab (mk_mask k))) (of_be (mk_addr k))) as [E|Hne].
  - apply bool_decide_eq_true. apply of_be_inj in E; [done|by apply land_bytes_ok|done|].
    rewrite length_zip_with. lia.
  - apply bool_decide_eq_false. congruence.
Qed.

(** Masking with a prefix mask rounds down to a multiple of the block size. *)
Lemma land_prefix v W n :
  0 <= n <= W -> 0 <= v < 2 ^ W ->
  Z.land v (2 ^ W - 2 ^ (W - n)) = v / 2 ^ (W - n) * 2 ^ (W - n).
Proof.
  intros Hn Hv. set (j := W - n).
  assert (2 ^ W = 2 ^ n * 2 ^ j) as HW by (rewrite <- Z.pow_add_r by lia; f_equal; lia).
  assert (0 < 2 ^ j) by (apply Z.pow_pos_nonneg; lia).
  pose proof (Z.div_mod v (2 ^ j) ltac:(lia)) as Hdm. pose proof (Z.mod_pos_bound v (2 ^ j) ltac:(lia)).
  rewrite Hdm at 1. replace (2 ^ W - 2 ^ j) with ((2 ^ n - 1) * 2 ^ j + 0) by lia.
  rewrite (Z.mul_comm (2 ^ j)). rewrite land_split by lia. rewrite Z.land_0_r, Z.add_0_r. f_equal.
  replace (2 ^ n - 1) with (Z.ones n) by (rewrite Z.ones_equiv; lia).
  rewrite Z.land_ones by lia. apply Z.mod_small.
  split; [apply Z.div_pos; lia|]. apply Z.div_lt_upper_bound; lia.
Qed.

(** The prefix of a key with a plain mask. *)
Definition key_prefix (k : maskedKey) (n : nat) : Prefix :=
  PrefixFrom (default AddrZero (AddrFromSlice (mk_addr k))) (Z.of_nat n).

Definition family_bits (is4 : bool) : Z := 8 * Z.of_nat (key_width is4).

Lemma key_prefix_spec k n :
  key_wf k -> contiguousPrefixLen (mk_mask k) = Some n ->
  let W := family_bits (mk_is4 k) in
  of_be (mk_mask k) = 2 ^ W - 2 ^ (W - Z.of_nat n) /\ Z.of_nat n <= W
  /\ BitLen (pfx_addr (key_prefix k n)) = W /\ pfx_bits (key_prefix k n) = Z.of_nat n
  /\ addr_wf (pfx_addr (key_prefix k n))
  /\ prefixRange (key_prefix k n) = (of_be (mk_addr k), of_be (mk_addr k) + 2 ^ (W - Z.of_nat n) - 1).
Proof.
  intros (Hla & Hlm & Hoa & Hom & _) Hn W.
  destruct (contiguous_inv _ _ Hom Hn) as [Hmask Hle]. rewrite Hlm in Hmask, Hle.
  pose proof (of_be_range _ Hoa) as Hr. rewrite Hla, pow_256 in Hr by lia.
  split; [by rewrite Hmask, of_be_pmask by lia|]. split; [subst W; unfold family_bits; lia|].
  assert (Z.of_nat n <= W) as HnW by (subst W; unfold family_bits; lia). clear Hmask Hlm Hom Hn.
  unfold key_prefix, prefixRange, PrefixFrom, AddrFromSlice. rewrite Hla. subst W. unfold family_bits in *.
  destruct (mk_is4 k); cbn [key_width Nat.eqb default from_option id pfx_addr pfx_bits IsValid BitLen AsSlice andb] in *;
    rewrite be_bytes_of_be', Z.shiftl_1_l by done;
    (destruct (Z.leb_spec 0 (Z.of_nat n)); [|lia]); cbn [andb].
  - destruct (Z.leb_spec (Z.of_nat n) 32); [|lia]. by split_and!.
  - destruct (Z.leb_spec (Z.of_nat n) 128); [|lia]. by split_and!.
Qed.

(** No address bit of the key is below its block. *)
Lemma key_addr_aligned k n :
  key_wf k -> contiguousPrefixLen (mk_mask k) = Some n ->
  let S := 2 ^ (family_bits (mk_is4 k) - Z.of_nat n) in
  of_be (mk_addr k) / S * S = of_be (mk_addr k) /\ 0 <= of_be (mk_addr k) < 2 ^ family_bits (mk_is4 k).
Proof.
  intros Hwf Hn S. destruct (key_prefix_spec k n Hwf Hn) as (Hmask & Hle & _).
  destruct Hwf as (Hla & Hlm & Hoa & Hom & Hcl).
  pose proof (of_be_range _ Hoa) as Hr. rewrite Hla, pow_256 in Hr by lia.
  split; [|done]. apply (f_equal of_be) in Hcl. rewrite of_be_land, Hmask in Hcl by (done || congruence).
  rewrite land_prefix in Hcl by (unfold family_bits in *; lia). done.
Qed.

(** A key whose mask is a plain prefix contains exactly the addresses of the
    interval [prefixRange] gives it. *)
Lemma prefix_key_interval k n ab :
  key_wf k -> contiguousPrefixLen (mk_mask k) = Some n ->
  bytes_ok ab -> length ab = key_width (mk_is4 k) ->
  contains k ab = true
  <-> fst (prefixRange (key_prefix k n)) <= of_be ab <= snd (prefixRange (key_prefix k n)).
Proof.
  intros Hwf Hn Hab Hlab. rewrite contains_value by done.
  destruct (key_prefix_spec k n Hwf Hn) as (Hmask & Hle & _ & _ & _ & ->).
  destruct (key_addr_aligned k n Hwf Hn) as [Hcl Har].
  pose proof (of_be_range _ Hab) as Hvr. rewrite Hlab, pow_256 in Hvr by lia.
  fold (family_bits (mk_is4 k)) in Hvr. set (W := family_bits (mk_is4 k)) in *.
  rewrite Z.eqb_eq, Hmask, land_prefix by lia. cbn [fst snd].
  assert (0 < 2 ^ (W - Z.of_nat n)) by (apply Z.pow_pos_nonneg; lia).
  pose proof (Z.div_mod (of_be ab) (2 ^ (W - Z.of_nat n)) ltac:(lia)).
  pose proof (Z.mod_pos_bound (of_be ab) (2 ^ (W - Z.of_nat n)) ltac:(lia)).
  set (S := 2 ^ (W - Z.of_nat n)) in *. rewrite <- Hcl.
  set (q := of_be ab / S) in *. set (a := of_be (mk_addr k) / S) in *.
  split; [intros E; lia|]. intros [Hlo Hhi].
  assert (q = a) as ->; [|done]. nia.
Qed.

(** ** The coverage scan *)

Definition in_span (v : Z) (sp : Z * Z) : Prop := fst sp <= v <= snd sp.

Lemma insert_span_perm x l : insert_span x l ≡ₚ x :: l.
Proof.
  induction l as [|y l IH]; simpl; [done|]. destruct (fst y <? fst x); [|done].
  rewrite IH. by constructor.
Qed.

Lemma sort_spans_perm l : sort_spans l ≡ₚ l.
Proof. induction l as [|x l IH]; simpl; [done|]. by rewrite insert_span_perm, IH. Qed.

Lemma insert_span_sorted x l :
  StronglySorted (fun a b => fst a <= fst b) l -> StronglySorted (fun a b => fst a <= fst b) (insert_span x l).
Proof.
  induction l as [|y l IH]; intros Hs; simpl; [repeat constructor|].
  apply StronglySorted_inv in Hs as [Hs Hy]. destruct (Z.ltb_spec (fst y) (fst x)).
  - constructor; [by apply IH|]. rewrite insert_span_perm. constructor; [lia|done].
  - constructor; [by constructor|]. constructor; [done|].
    eapply Forall_impl; [exact Hy|]. simpl. lia.
Qed.

Lemma sort_spans_sorted l : StronglySorted (fun a b => fst a <= fst b) (sort_spans l).
Proof. induction l; simpl; [constructor|]. by apply insert_span_sorted. Qed.

(** What the scan reports, for spans sorted by start: full coverage from
    [covered + 1] on, or the first gap. *)
Lemma scanSpans_spec spans covered maxAddr :
  StronglySorted (fun a b => fst a <= fst b) spans -> covered <= maxAddr ->
  Forall (fun sp => fst sp <= snd sp <= maxAddr) spans ->
  match scanSpans spans covered maxAddr with
  | Covered => forall v, covered < v <= maxAddr -> exists sp, sp ∈ spans /\ in_span v sp
  | Gap lo hi => covered < lo <= hi /\ hi <= maxAddr
      /\ (forall v, lo <= v <= hi -> forall sp, sp ∈ spans -> ~ in_span v sp)
      /\ (forall v, covered < v < lo -> exists sp, sp ∈ spans /\ in_span v sp)
  | NoEntries => False
  end.
Proof.
  revert covered. induction spans as [|[s e] spans IH]; intros covered Hs Hc He; simpl.
  - destruct (Z.ltb_spec covered maxAddr); [|lia].
    split_and!; [lia|lia|lia|set_solver|lia].
  - apply StronglySorted_inv in Hs as [Hs Hse]. apply Forall_cons in He as [He1 He]. simpl in He1.
    destruct (Z.ltb_spec (covered + 1) s).
    + split_and!; [lia|lia|lia| |lia].
      intros v Hv sp [->|Hin]%elem_of_cons; unfold in_span; simpl; [lia|].
      rewrite Forall_forall in Hse. specialize (Hse sp Hin). simpl in Hse. lia.
    + specialize (IH (Z.max covered e) Hs ltac:(lia) He).
      destruct (scanSpans spans (Z.max covered e) maxAddr) as [| |lo hi]; [|done|].
      * intros v Hv. destruct (Z.le_gt_cases v e).
        { exists (s, e). split; [by left|]. unfold in_span; simpl. lia. }
        destruct (IH v) as (sp & Hin & Hsp); [lia|]. exists sp. split; [by right|done].
      * destruct IH as (Hlo & Hhi & Hgap & Hbelow). split_and!; [lia|lia|lia| |].
        -- intros v Hv sp [->|Hin]%elem_of_cons; [unfold in_span; simpl; lia|by eapply Hgap].
        -- intros v Hv. destruct (Z.le_gt_cases v e).
           { exists (s, e). split; [by left|]. unfold in_span; simpl. lia. }
           destruct (Hbelow v) as (sp & Hin & Hsp); [lia|]. exists sp. split; [by right|done].
Qed.

(** The prefixes of one family and the numbers of its addresses. *)
Definition prefix_ok (bits : Z) (p : Prefix) : Prop :=
  BitLen (pfx_addr p) = bits /\ addr_wf (pfx_addr p) /\ 0 <= pfx_bits p <= bits
  /\ snd (prefixRange p) < 2 ^ bits.

Lemma checkCoverage_spec prefixes bits :
  0 <= bits -> Forall (prefix_ok bits) prefixes ->
  match checkCoverage prefixes bits with
  | Covered => forall v, 0 <= v < 2 ^ bits -> exists p, p ∈ prefixes /\ in_span v (prefixRange p)
  | NoEntries => prefixes = []
  | Gap lo hi => 0 <= lo <= hi /\ hi < 2 ^ bits
      /\ (forall v p, lo <= v <= hi -> p ∈ prefixes -> ~ in_span v (prefixRange p))
      /\ (forall v, 0 <= v < lo -> exists p, p ∈ prefixes /\ in_span v (prefixRange p))
  end.
Proof.
  intros Hb Hok. destruct prefixes as [|p0 ps]; [done|]. unfold checkCoverage.
  set (prefixes := p0 :: ps) in *. rewrite Z.shiftl_1_l.
  assert (forall sp, sp ∈ sort_spans (map prefixRange prefixes)
    <-> exists p, p ∈ prefixes /\ sp = prefixRange p) as Hin.
  { intros sp. rewrite sort_spans_perm. rewrite list_elem_of_fmap. naive_solver. }
  assert (0 < 2 ^ bits) by (apply Z.pow_pos_nonneg; lia).
  assert (Forall (fun sp => fst sp <= snd sp <= 2 ^ bits - 1) (sort_spans (map prefixRange prefixes))) as Hsp.
  { apply Forall_forall. intros sp (p & Hp & ->)%Hin. rewrite Forall_forall in Hok.
    destruct (Hok p Hp) as (Hbl & _ & Hr & Hlt). split; [|lia]. unfold prefixRange. simpl.
    rewrite Z.shiftl_1_l. assert (0 < 2 ^ (BitLen (pfx_addr p) - pfx_bits p)); [|lia].
    apply Z.pow_pos_nonneg; lia. }
  pose proof (scanSpans_spec _ (-1) (2 ^ bits - 1) (sort_spans_sorted _) ltac:(lia) Hsp) as Hscan.
  destruct (scanSpans _ _ _) as [| |lo hi]; [|done|].
  - intros v Hv. destruct (Hscan v) as (sp & (p & Hp & ->)%Hin & Hsv); [lia|]. eauto.
  - destruct Hscan as (Hlo & Hhi & Hgap & Hbelow). split_and!; [lia|lia|lia| |].
    + intros v p Hv Hp. apply (Hgap v Hv). apply Hin. eauto.
    + intros v Hv. destruct (Hbelow v) as (sp & (p & Hp & ->)%Hin & Hsv); [lia|]. eauto.
Qed.

(** The prefixes of well-formed keys are what the check expects. *)
Lemma key_prefix_ok k n :
  key_wf k -> contiguousPrefixLen (mk_mask k) = Some n -> prefix_ok (family_bits (mk_is4 k)) (key_prefix k n).
Proof.
  intros Hwf Hn. destruct (key_prefix_spec k n Hwf Hn) as (_ & Hle & Hb & Hbits & Hok & Hr).
  destruct (key_addr_aligned k n Hwf Hn) as [Hcl Har]. unfold prefix_ok. rewrite Hb, Hbits, Hr.
  split_and!; [done|done|lia|done|]. cbn [snd]. set (W := family_bits (mk_is4 k)) in *.
  assert (2 ^ W = 2 ^ Z.of_nat n * 2 ^ (W - Z.of_nat n)) as HW
    by (rewrite <- Z.pow_add_r by lia; f_equal; lia).
  assert (0 < 2 ^ (W - Z.of_nat n)) by (apply Z.pow_pos_nonneg; lia).
  rewrite HW in *. set (S := 2 ^ (W - Z.of_nat n)) in *. rewrite <- Hcl in *.
  set (a := of_be (mk_addr k) / S) in *.
  assert (a < 2 ^ Z.of_nat n) by (apply (Z.mul_lt_mono_pos_r S); lia). nia.
Qed.

(** ** The canonical text *)

Lemma isDecimal_not_addr s : isDecimal s = true -> ParseAddr s = Error "unable to parse IP".
Proof.
  unfold isDecimal. intros [_ H]%andb_true_iff. unfold ParseAddr.
  assert (parseAddr_family s = "%"%char) as ->; [|done].
  induction s as [|c s IH]; [done|]. simpl in H. apply andb_true_iff in H as [Hc H]. simpl.
  destruct (Ascii.eqb_spec c "."); [by subst|]. destruct (Ascii.eqb_spec c ":"); [by subst|].
  destruct (Ascii.eqb_spec c "%"); [by subst|]. by apply IH.
Qed.

(** A slice of the family's width as an address and back. *)
Lemma slice_addr is4 l :
  length l = key_width is4 -> bytes_ok l ->
  exists a, AddrFromSlice l = Some a /\ AsSlice a = l /\ Is4 a = is4 /\ IsValid a = true
            /\ addr_wf a /\ Zone a = [].
Proof.
  intros Hlen Hok. pose proof (of_be_range l Hok) as Hr. rewrite Hlen, pow_256 in Hr by lia.
  unfold AddrFromSlice. rewrite Hlen. destruct is4; simpl key_width in *; simpl.
  - exists (Addr4 (of_be l)). split_and!; try done. by apply (be_bytes_of_be' 4).
  - exists (Addr6 (of_be l) []). split_and!; try done. by apply (be_bytes_of_be' 16).
Qed.

Lemma AddrString_chars a :
  IsValid a = true -> addr_wf a -> Zone a = [] -> Forall addr_char (AddrString a).
Proof.
  intros Hv Hwf Hz. destruct a as [|v|v z]; [done|apply string4_addr_chars|].
  simpl in Hz. subst z. unfold AddrString. rewrite app_nil_r.
  by destruct (parseIPv6_groups_text v [] Hwf) as (_ & Hc & _).
Qed.

Lemma slice_string_spec is4 l :
  length l = key_width is4 -> bytes_ok l ->
  exists a, ParseAddr (slice_string l) = Ok a /\ AsSlice a = l /\ Is4 a = is4
            /\ ("/"%char ∉ slice_string l) /\ isDecimal (slice_string l) = false.
Proof.
  intros Hlen Hok. destruct (slice_addr is4 l Hlen Hok) as (a & Ha & Hs & H4 & Hv & Hwf & Hz).
  exists a. unfold slice_string. rewrite Ha. simpl.
  pose proof (ParseAddr_AddrString a Hv Hwf) as Hp.
  split_and!; [done|done|done| |].
  - pose proof (AddrString_chars a Hv Hwf Hz) as Hc. intros Hin. rewrite Forall_forall in Hc.
    apply Hc in Hin as [[d Hd]|[?|?]]; done.
  - destruct (isDecimal (AddrString a)) eqn:E; [|done]. apply isDecimal_not_addr in E. congruence.
Qed.

Lemma slice_string_ascii is4 l :
  length l = key_width is4 -> bytes_ok l -> Forall (fun c => is_ascii c = true) (slice_string l).
Proof.
  intros Hlen Hok. destruct (slice_addr is4 l Hlen Hok) as (a & Ha & _ & _ & Hv & Hwf & Hz).
  unfold slice_string. rewrite Ha. simpl. eapply Forall_impl; [by apply AddrString_chars|].
  intros c [[d Hd]|[->| ->]]; [|done..]. by destruct c as [[] [] [] [] [] [] [] []].
Qed.

Lemma canonical_ascii k : key_wf k -> Forall (fun c => is_ascii c = true) (canonical k).
Proof.
  intros (Hla & Hlm & Hoa & Hom & _). unfold canonical.
  destruct (contiguousPrefixLen _); rewrite !Forall_app; split_and!;
    try (by eapply slice_string_ascii); try (by repeat constructor).
  apply Forall_forall. intros c Hc. pose proof (Itoa_digits (Z.of_nat n) ltac:(lia)) as Hd.
  rewrite forallb_forall in Hd. apply list_elem_of_In, Hd in Hc. by destruct c as [[] [] [] [] [] [] [] []].
Qed.

(** Parsing the canonical text of a key gives the key back. *)
Lemma canonical_parse k : key_wf k -> parseMaskedKey (canonical k) = Ok k.
Proof.
  intros (Hla & Hlm & Hoa & Hom & Hcl).
  destruct (slice_string_spec _ _ Hla Hoa) as (a & Hpa & Hsa & H4a & Hna & _).
  unfold parseMaskedKey, canonical. destruct k as [is4 addr mask]. simpl in *.
  destruct (contiguousPrefixLen mask) as [n|] eqn:Ec;
    cbn [str list_ascii_of_string app]; rewrite Cut_app by done; simpl; rewrite Hpa; simpl; rewrite H4a.
  - destruct (contiguous_inv _ _ Hom Ec) as [Hmask Hle]. rewrite Hlm in Hmask, Hle.
    assert (isDecimal (Itoa (Z.of_nat n)) = true) as ->.
    { unfold isDecimal. rewrite Itoa_digits by lia. rewrite bool_decide_false by apply Itoa_ne. done. }
    assert (key_width is4 <= 16)%nat by (destruct is4; simpl; lia).
    rewrite Atoi_Itoa by lia. 
    change (if is4 then 4%nat else 16%nat) with (key_width is4).
    destruct (Z.ltb_spec (Z.of_nat n) 0); [lia|].
    destruct (Z.ltb_spec (Z.of_nat (key_width is4 * 8)) (Z.of_nat n)); [lia|].
    simpl. rewrite Nat2Z.id, prefixMask_pmask, <- Hmask, Hsa, Hcl by lia. done.
  - destruct (slice_string_spec _ _ Hlm Hom) as (ma & Hpm & Hsm & H4m & _ & ->).
    rewrite Hpm. simpl. rewrite H4m, Bool.eqb_reflx. simpl. by rewrite Hsa, Hsm, Hcl.
Qed.

Lemma canonical_inj k k' : key_wf k -> key_wf k' -> canonical k = canonical k' -> k = k'.
Proof.
  intros Hk Hk' E. apply (f_equal parseMaskedKey) in E.
  rewrite !canonical_parse in E by done. by simplify_eq.
Qed.

#[export] Hint Resolve pmask_ok AsSlice_ok parseMaskedKey_wf : mitmania.
