(* ===== verification/DefaultRuleset.v ===== *)
(** * The default table (internal/rules/defaultruleset.go)

    Parsing rules/default, compiling its entries with reuse of unchanged
    buckets and of repeated http policies, the ranking of overlapping entries
    and the built-in table. *)

From S2P Require Import Prelude GoStrings Netip Json JsonRoundtrip Encoding Schema JsonRules Matcher.
From S2P Require Import Compile HostIndex Egress Auth RuleSet MaskedKey.

Open Scope Z_scope.

(** ** Parsing *)

(** [decodeOrderedEntries]: the members of the first value, in source order; a
    raw message is kept as the value it scans to. *)
Definition decodeOrderedEntries (data : bytes) : result (list (bytes * any)) :=
  '(v, _) ← decodeFirst data;
  match v with
  | AObj l => Ok l
  | _ => Error "expected a JSON object"
  end.

Record parsedEntry : Type := { pe_key : maskedKey; pe_rule : RuleFile }.

(** The loop of [parseDefaultRuleset]: [index] maps a canonical key to the
    position of its entry. *)
Fixpoint parseEntries (raw : list (bytes * any)) (entries : list parsedEntry)
    (index : list (bytes * nat)) : result (list parsedEntry) :=
  match raw with
  | [] => Ok entries
  | (k, v) :: t =>
      key ← wrap "rules/default" (parseMaskedKey k);
      rf ← wrap "rules/default" (decode_file true zero_file v);
      let pe := {| pe_key := key; pe_rule := rf |} in
      let canon := canonical key in
      match assoc canon index with
      | Some i => parseEntries t (<[i := pe]> entries) index
      | None => parseEntries t (entries ++ [pe])%list ((canon, length entries) :: index)
      end
  end.

Definition parseDefaultRuleset (data : bytes) : result (list parsedEntry) :=
  raw ← wrap "rules/default" (decodeOrderedEntries data);
  parseEntries raw [] [].

(** [marshalCanonical]: a map from canonical keys, which [json.Marshal] sorts. *)
Definition marshalCanonical (entries : list parsedEntry) : bytes :=
  json_print (AObj (map_puts [] (map (fun pe => (canonical (pe_key pe), encode_file (pe_rule pe))) entries))).

(** ** Compilation *)

(** What [CompileAuth] leaves in the [AuthConfig] it was given: the path of a
    socket broker is defaulted in place. *)
Definition default_broker_path (b : AuthBroker) : AuthBroker :=
  if negb (bool_decide (ab_Socket b = [])) && bool_decide (ab_Path b = []) then
    {| ab_Socket := ab_Socket b; ab_URL := ab_URL b; ab_Path := str "/" |}
  else b.

Definition default_auth_path (a : AuthConfig) : AuthConfig :=
  {| ac_HTTPProxy := (fun hp =>
       {| hp_Required := hp_Required hp; hp_Realm := hp_Realm hp; hp_Basic := hp_Basic hp;
          hp_Bearer := hp_Bearer hp; hp_Broker := default_broker_path <$> hp_Broker hp |})
       <$> ac_HTTPProxy a |}.

Definition after_compile (pe : parsedEntry) : parsedEntry :=
  let rf := pe_rule pe in
  {| pe_key := pe_key pe;
     pe_rule := {| rf_UUID := rf_UUID rf; rf_Auth := default_auth_path <$> rf_Auth rf;
                   rf_HTTP := rf_HTTP rf; rf_Egress := rf_Egress rf |} |}.

Section Default.
Context `{RE : RegexEngine} `{DG : Digests} `{UT : UnicodeTable}.

Record compiledBucket : Type := {
  cb_key : maskedKey;
  cb_label : bytes;
  cb_rules : RuleSet;
  cb_contentHash : bytes }.

Record DefaultRuleset : Type := { d_v4 : list compiledBucket; d_v6 : list compiledBucket }.

(** [bucketByLabel] of a possibly nil table, as a lookup; a later bucket of the
    same label would replace an earlier one. *)
Definition bucketByLabel (d : option DefaultRuleset) (label : bytes) : option compiledBucket :=
  match d with
  | None => None
  | Some d => last (filter (fun b => cb_label b = label) (d_v4 d ++ d_v6 d)%list)
  end.

(** [cachedHTTPPolicy], keyed by the marshalled http[] list. *)
Definition httpPolicies : Type := list (bytes * (list CompiledRule * hostCandidateIndex)).

Definition compilePolicy (policies : httpPolicies) (rf : RuleFile)
  : result ((list CompiledRule * hostCandidateIndex) * httpPolicies) :=
  let httpJSON := Marshal_rules (rf_HTTP rf) in
  match assoc httpJSON policies with
  | Some policy => Ok (policy, policies)
  | None =>
      compiled ← wrap "rules/default: invalid rules" (Compile rf);
      let policy := (compiled, buildHostCandidateIndex compiled) in
      Ok (policy, (httpJSON, policy) :: policies)
  end.

(** The egress list of an entry; an absent key is an empty list here. *)
Definition compileOptEgress (e : option (list EgressRule)) : result (list CompiledEgress) :=
  match e with
  | Some l => wrap "rules/default: invalid egress rules" (CompileEgress l)
  | None => Ok []
  end.

(** One turn of the loop of [compileParsedEntries]. *)
Definition compileBucket (prev : option DefaultRuleset) (policies : httpPolicies) (pe : parsedEntry)
  : result (compiledBucket * httpPolicies) :=
  let label := canonical (pe_key pe) in
  let hash := sha256 (Marshal_RuleFile (pe_rule pe)) in
  let reused := match bucketByLabel prev label with
                | Some b => if bool_decide (cb_contentHash b = hash) then Some b else None
                | None => None
                end in
  match reused with
  | Some b => Ok ({| cb_key := pe_key pe; cb_label := label; cb_rules := cb_rules b;
                     cb_contentHash := hash |}, policies)
  | None =>
      auth ← wrap "rules/default: invalid auth config" (CompileAuth (rf_Auth (pe_rule pe)));
      '((rules, idx), policies) ← compilePolicy policies (pe_rule pe);
      egress ← compileOptEgress (rf_Egress (pe_rule pe));
      Ok ({| cb_key := pe_key pe; cb_label := label;
             cb_rules := newRuleSetWithHostIndex rules idx egress (rf_UUID (pe_rule pe)) auth;
             cb_contentHash := hash |}, policies)
  end.

Fixpoint compileBuckets (prev : option DefaultRuleset) (policies : httpPolicies)
    (entries : list parsedEntry) : result (list compiledBucket) :=
  match entries with
  | [] => Ok []
  | pe :: t =>
      '(b, policies) ← compileBucket prev policies pe;
      bs ← compileBuckets prev policies t;
      Ok (b :: bs)
  end.

(** The plain prefixes among some keys. *)
Definition key_prefixes (keys : list maskedKey) : list Prefix :=
  omap (fun k => key_prefix k <$> contiguousPrefixLen (mk_mask k)) keys.

(** [sortByMaskDescending]: a stable sort, which is one of the orders
    [sort.Slice] may produce. *)
Definition mask_value (b : compiledBucket) : Z := of_be (mk_mask (cb_key b)).

Fixpoint insert_bucket (x : compiledBucket) (l : list compiledBucket) : list compiledBucket :=
  match l with
  | [] => [x]
  | y :: t => if mask_value x <? mask_value y then y :: insert_bucket x t else x :: l
  end.

Definition sortByMaskDescending (l : list compiledBucket) : list compiledBucket :=
  foldr insert_bucket [] l.

Definition require_coverage (family : string) (prefixes : list Prefix) (bits : Z) : result unit :=
  match checkCoverage prefixes bits with
  | Covered => Ok tt
  | _ => Error family
  end.

(** [compileParsedEntries]; the loop keeps the families apart in entry order. *)
Definition compileParsedEntries (entries : list parsedEntry) (prev : option DefaultRuleset)
  : result DefaultRuleset :=
  buckets ← compileBuckets prev [] entries;
  let v4 := filter (fun b => mk_is4 (cb_key b) = true) buckets in
  let v6 := filter (fun b => mk_is4 (cb_key b) = false) buckets in
  _ ← require_coverage "rules/default: v4" (key_prefixes (map cb_key v4)) 32;
  _ ← require_coverage "rules/default: v6" (key_prefixes (map cb_key v6)) 128;
  Ok {| d_v4 := sortByMaskDescending v4; d_v6 := sortByMaskDescending v6 |}.

(** [CompileDefaultRuleset]: the table and the text to persist, which shows the
    paths [CompileAuth] filled in. *)
Definition CompileDefaultRuleset (data : bytes) : result (DefaultRuleset * bytes) :=
  entries ← parseDefaultRuleset data;
  d ← compileParsedEntries entries None;
  Ok (d, marshalCanonical (map after_compile entries)).

(** [DefaultRuleset.Lookup]. *)
Definition scanBuckets (buckets : list compiledBucket) (ab : list Z) : option RuleSet :=
  cb_rules <$> head (filter (fun b => contains (cb_key b) ab = true) buckets).

Definition DefaultLookup (d : DefaultRuleset) (addr : Addr) : option RuleSet :=
  scanBuckets (if Is4 addr then d_v4 d else d_v6 d) (AsSlice addr).

(** [Buckets]. *)
Definition Buckets (d : DefaultRuleset) : list (bytes * RuleSet) :=
  map (fun b => (cb_label b, cb_rules b)) (d_v4 d ++ d_v6 d).

End Default.

(** ** The built-in table *)

Definition egress_entry (cidr action : string) : EgressRule :=
  {| er_CIDR := str cidr; er_Port := []; er_Proto := []; er_Action := str action |}.

Definition denyFirstEgress : list EgressRule :=
  [egress_entry "127.0.0.0/8" "deny"; egress_entry "::1/128" "deny";
   egress_entry "10.0.0.0/8" "deny"; egress_entry "172.16.0.0/12" "deny";
   egress_entry "192.168.0.0/16" "deny"; egress_entry "fc00::/7" "deny";
   egress_entry "169.254.0.0/16" "deny"; egress_entry "fe80::/10" "deny";
   egress_entry "0.0.0.0/0" "allow"; egress_entry "::/0" "allow"].

(** [mustMarshalBuiltinDefault]. *)
Definition builtin_file : RuleFile :=
  {| rf_UUID := []; rf_Auth := None; rf_HTTP := Some []; rf_Egress := Some denyFirstEgress |}.

Definition BuiltinDefaultRuleset : bytes :=
  json_print (AObj [(str "0.0.0.0/0", encode_file builtin_file); (str "::/0", encode_file builtin_file)]).

(** ** Ranking *)

Section Ranking.
Context `{RE : RegexEngine} `{DG : Digests} `{UT : UnicodeTable}.

(** The buckets of one family, as the parser leaves them. *)
Definition family_wf (is4 : bool) (l : list compiledBucket) : Prop :=
  Forall (fun b => key_wf (cb_key b) /\ mk_is4 (cb_key b) = is4) l /\ NoDup (map cb_key l).

Definition mask_desc (a b : compiledBucket) : Prop := mask_value b <= mask_value a.

Lemma insert_bucket_perm x l : insert_bucket x l ≡ₚ x :: l.
Proof.
  induction l as [|y l IH]; simpl; [done|]. destruct (_ <? _); [|done]. rewrite IH. constructor.
Qed.

Lemma sortByMaskDescending_perm l : sortByMaskDescending l ≡ₚ l.
Proof. induction l as [|x l IH]; simpl; [done|]. by rewrite insert_bucket_perm, IH. Qed.

Lemma insert_bucket_sorted x l :
  StronglySorted mask_desc l -> StronglySorted mask_desc (insert_bucket x l).
Proof.
  induction 1 as [|y l Hs IH Hall]; simpl; [by repeat constructor|].
  destruct (Z.ltb_spec (mask_value x) (mask_value y)).
  - constructor; [done|]. rewrite insert_bucket_perm. constructor; [unfold mask_desc; lia|done].
  - constructor; [by constructor|]. constructor; [unfold mask_desc; lia|].
    eapply Forall_impl; [apply Hall|]. unfold mask_desc. lia.
Qed.

Lemma sortByMaskDescending_sorted l : StronglySorted mask_desc (sortByMaskDescending l).
Proof. induction l; simpl; [constructor|]. by apply insert_bucket_sorted. Qed.

(** The first match of a sorted list outranks every other match. *)
Definition ranks_first (l : list compiledBucket) (ab : list Z) (b : compiledBucket) : Prop :=
  b ∈ l /\ contains (cb_key b) ab = true
  /\ forall b', b' ∈ l -> contains (cb_key b') ab = true -> mask_value b' <= mask_value b.

Lemma sorted_first l ab :
  StronglySorted mask_desc l ->
  match head (filter (fun b => contains (cb_key b) ab = true) l) with
  | Some b => ranks_first l ab b
  | None => forall b, b ∈ l -> contains (cb_key b) ab = false
  end.
Proof.
  induction 1 as [|x l Hs IH Hall]; [by intros b ?%not_elem_of_nil|].
  rewrite filter_cons. destruct (decide (contains (cb_key x) ab = true)) as [Hx|Hx]; simpl.
  - split_and!; [by left|done|]. intros b' [->|Hb']%elem_of_cons _; [lia|].
    rewrite Forall_forall in Hall. by apply Hall.
  - apply not_true_iff_false in Hx. destruct (head _) as [b|].
    + destruct IH as (Hin & Hc & Hmax). split_and!; [by right|done|].
      intros b' [->|Hb']%elem_of_cons Hc'; [congruence|auto].
    + intros b [->|Hb]%elem_of_cons; auto.
Qed.

(** Two keys of a family with equal masks that contain one address are equal. *)
Lemma same_mask_same_key is4 k k' ab :
  key_wf k -> key_wf k' -> mk_is4 k = is4 -> mk_is4 k' = is4 ->
  length ab = key_width is4 -> of_be (mk_mask k) = of_be (mk_mask k') ->
  contains k ab = true -> contains k' ab = true -> k = k'.
Proof.
  intros (Hla & Hlm & Hoa & Hom & _) (Hla' & Hlm' & Hoa' & Hom' & _) H4 H4' Hlab Hm Hc Hc'.
  unfold contains in Hc, Hc'.
  rewrite contains_bytes_zip in Hc, Hc' by congruence.
  apply bool_decide_eq_true in Hc, Hc'. apply of_be_inj in Hm; [|done|done|congruence].
  destruct k, k'; simpl in *. congruence.
Qed.

Lemma family_key_inj is4 l b b' : family_wf is4 l -> b ∈ l -> b' ∈ l -> cb_key b = cb_key b' -> b = b'.
Proof.
  intros [_ Hnd] Hb Hb' E. apply list_elem_of_lookup in Hb as [i Hi], Hb' as [j Hj].
  assert (i = j) as ->; [|congruence].
  eapply NoDup_lookup; [exact Hnd| |]; rewrite list_lookup_fmap.
  - by rewrite Hi.
  - rewrite Hj. simpl. by rewrite E.
Qed.

Lemma ranks_first_unique is4 l ab b b' :
  family_wf is4 l -> length ab = key_width is4 ->
  ranks_first l ab b -> ranks_first l ab b' -> b = b'.
Proof.
  intros Hwf Hlen (Hb & Hc & Hmax) (Hb' & Hc' & Hmax').
  pose proof (Hmax _ Hb' Hc'). pose proof (Hmax' _ Hb Hc).
  eapply family_key_inj; [done..|]. destruct Hwf as [Hall _]. rewrite Forall_forall in Hall.
  destruct (Hall _ Hb), (Hall _ Hb'). eapply same_mask_same_key; try done. unfold mask_value in *. lia.
Qed.

(** The answer does not depend on how entries of equal mask are ordered. *)
Lemma scanBuckets_perm is4 l l' ab :
  family_wf is4 l -> length ab = key_width is4 -> l ≡ₚ l' ->
  StronglySorted mask_desc l -> StronglySorted mask_desc l' -> scanBuckets l ab = scanBuckets l' ab.
Proof.
  intros Hwf Hlen Hp Hs Hs'. unfold scanBuckets.
  pose proof (sorted_first l ab Hs) as H. pose proof (sorted_first l' ab Hs') as H'.
  destruct (head (filter _ l)) as [b|], (head (filter _ l')) as [b'|]; [..|done].
  - rewrite (ranks_first_unique is4 l ab b b' Hwf Hlen H); [done|].
    unfold ranks_first in *. by setoid_rewrite Hp.
  - destruct H as (Hb & Hc & _). rewrite Hp in Hb. rewrite H' in Hc by done. done.
  - destruct H' as (Hb & Hc & _). rewrite <- Hp in Hb. rewrite H in Hc by done. done.
Qed.
End Ranking.

(** ** Duplicate keys *)

(** One member on its own. *)
Definition parseEntry (kv : bytes * any) : result parsedEntry :=
  key ← wrap "rules/default" (parseMaskedKey (fst kv));
  rf ← wrap "rules/default" (decode_file true zero_file (snd kv));
  Ok {| pe_key := key; pe_rule := rf |}.

(** The members with [pe]'s key. *)
Definition same_key (k : maskedKey) (l : list parsedEntry) : list parsedEntry :=
  filter (fun q => pe_key q = k) l.

(** [entries] holds the last of the [seen] entries of each key, once. *)
Record kept_last (seen entries : list parsedEntry) : Prop := {
  kl_wf : Forall (fun pe => key_wf (pe_key pe)) entries;
  kl_nodup : NoDup (map pe_key entries);
  kl_last : forall pe, pe ∈ entries <-> last (same_key (pe_key pe) seen) = Some pe }.

Definition index_ok (entries : list parsedEntry) (index : list (bytes * nat)) : Prop :=
  forall c i, assoc c index = Some i <-> exists pe, entries !! i = Some pe /\ canonical (pe_key pe) = c.

Lemma same_key_snoc k l pe :
  last (same_key k (l ++ [pe])) = if decide (pe_key pe = k) then Some pe else last (same_key k l).
Proof.
  unfold same_key. rewrite filter_app. cbn [filter list_filter]. destruct (decide (pe_key pe = k)).
  - by rewrite last_snoc.
  - by rewrite app_nil_r.
Qed.

Lemma kept_key_unique seen entries pe pe' :
  kept_last seen entries -> pe ∈ entries -> pe' ∈ entries -> pe_key pe = pe_key pe' -> pe = pe'.
Proof.
  intros [_ _ Hlast] H H' E. apply Hlast in H, H'. rewrite E in H. congruence.
Qed.

(** Replacing the entry of a key replaces just that entry. *)
Lemma elem_of_replace entries i old pe q :
  NoDup (map pe_key entries) -> entries !! i = Some old -> pe_key old = pe_key pe ->
  q ∈ <[i := pe]> entries <-> q = pe \/ (q ∈ entries /\ pe_key q <> pe_key pe).
Proof.
  intros Hnd Hi Hold. pose proof (lookup_lt_Some _ _ _ Hi) as Hlt. split.
  - intros [j Hj]%list_elem_of_lookup. destruct (decide (i = j)) as [->|Hij].
    { rewrite list_lookup_insert_eq in Hj by done. left. congruence. }
    rewrite list_lookup_insert_ne in Hj by done. right. split; [by eapply list_elem_of_lookup_2|].
    intros Ek. apply Hij. eapply NoDup_lookup; [exact Hnd| |]; rewrite list_lookup_fmap.
    + rewrite Hi. reflexivity.
    + rewrite Hj. simpl. congruence.
  - intros [->|[[j Hj]%list_elem_of_lookup Hne]].
    + eapply list_elem_of_lookup_2. by apply list_lookup_insert_eq.
    + destruct (decide (i = j)) as [->|Hij]; [congruence|].
      eapply list_elem_of_lookup_2. by rewrite list_lookup_insert_ne.
Qed.

Lemma kept_replace seen entries i old pe :
  kept_last seen entries -> entries !! i = Some old -> pe_key old = pe_key pe ->
  kept_last (seen ++ [pe]) (<[i := pe]> entries).
Proof.
  intros [Hwf Hnd Hlast] Hi Hold. split.
  - apply Forall_insert; [done|]. rewrite <- Hold. rewrite Forall_forall in Hwf.
    by eapply Hwf, list_elem_of_lookup_2.
  - change (NoDup (pe_key <$> <[i:=pe]> entries)). rewrite list_fmap_insert, list_insert_id; [done|].
    by rewrite list_lookup_fmap, Hi, <- Hold.
  - intros q. rewrite elem_of_replace, same_key_snoc by done.
    destruct (decide (pe_key pe = pe_key q)) as [Ek|Ek].
    + split; [|intros [= ->]; by left]. intros [->|[_ ?]]; congruence.
    + rewrite <- Hlast. split; [|intros ?; right; by split]. intros [->|[? _]]; done.
Qed.

Lemma kept_append seen entries pe :
  kept_last seen entries -> key_wf (pe_key pe) -> pe_key pe ∉ map pe_key entries ->
  kept_last (seen ++ [pe]) (entries ++ [pe]).
Proof.
  intros [Hwf Hnd Hlast] Hpe Hnew. split.
  - by apply Forall_app_2; [|apply Forall_singleton].
  - rewrite map_app. apply NoDup_app. split_and!; [done| |apply NoDup_singleton].
    intros k Hk ->%list_elem_of_singleton. done.
  - intros q. rewrite same_key_snoc, elem_of_app, list_elem_of_singleton.
    destruct (decide (pe_key pe = pe_key q)) as [Ek|Ek].
    + split; [|intros [= ->]; by right]. intros [Hq| ->]; [|done]. exfalso. apply Hnew.
      rewrite Ek. by apply list_elem_of_fmap_2.
    + rewrite <- Hlast. split; [|by left]. intros [?| ->]; done.
Qed.

Lemma index_replace entries index i old pe :
  index_ok entries index -> entries !! i = Some old -> pe_key old = pe_key pe ->
  index_ok (<[i := pe]> entries) index.
Proof.
  intros Hidx Hi Hold c j. rewrite (Hidx c j). destruct (decide (i = j)) as [->|Hij].
  - rewrite list_lookup_insert_eq by (by eapply lookup_lt_Some). split.
    + intros (q & Hq & <-). exists pe. split; [done|]. congruence.
    + intros (q & [= <-] & <-). exists old. by rewrite Hold.
  - by rewrite list_lookup_insert_ne.
Qed.

Lemma index_append entries index pe :
  index_ok entries index -> assoc (canonical (pe_key pe)) index = None ->
  index_ok (entries ++ [pe]) ((canonical (pe_key pe), length entries) :: index).
Proof.
  intros Hidx Hnone c i. simpl. case_bool_decide as Hc; [subst c|].
  - split.
    + intros [= <-]. exists pe. by rewrite lookup_app_r, Nat.sub_diag by lia.
    + intros (q & Hq & Hc). destruct (decide (i < length entries)%nat) as [Hlt|Hge].
      * rewrite lookup_app_l in Hq by done. exfalso.
        assert (assoc (canonical (pe_key pe)) index = Some i) by (apply Hidx; eauto). congruence.
      * apply lookup_lt_Some in Hq. rewrite length_app in Hq. simpl in Hq. f_equal. lia.
  - rewrite (Hidx c i). split.
    + intros (q & Hq & Hqc). exists q. split; [|done]. rewrite lookup_app_l; [done|].
      by eapply lookup_lt_Some.
    + intros (q & Hq & Hqc). exists q. split; [|done].
      apply lookup_app_Some in Hq as [?|[_ Hq]]; [done|].
      destruct (i - length entries)%nat; [|done]. simpl in Hq. congruence.
Qed.

Lemma parseEntries_kept raw seen entries index es :
  kept_last seen entries -> index_ok entries index -> parseEntries raw entries index = Ok es ->
  exists all, mapM parseEntry raw = Ok all /\ kept_last (seen ++ all) es.
Proof.
  revert seen entries index.
  induction raw as [|[k v] raw IH]; intros seen entries index Hk Hidx Hp; simpl in Hp.
  - inv_ok. subst. exists []. by rewrite app_nil_r.
  - destruct (wrap _ (parseMaskedKey k)) as [key|] eqn:Ek; [|done]. simpl in Hp.
    destruct (wrap _ (decode_file true zero_file v)) as [rf|] eqn:Ev; [|done]. simpl in Hp.
    set (pe := {| pe_key := key; pe_rule := rf |}) in *.
    assert (parseEntry (k, v) = Ok pe) as Hpe by (unfold parseEntry; simpl; by rewrite Ek, Ev).
    enough (exists all, mapM parseEntry raw = Ok all /\ kept_last ((seen ++ [pe]) ++ all) es) as (all & Hall & Hkl).
    { exists (pe :: all). rewrite <- app_assoc in Hkl. cbn [mapM]. by rewrite Hpe, Hall. }
    destruct (assoc (canonical key) index) as [i|] eqn:Ei.
    + apply Hidx in Ei as (old & Hi & Hc). assert (pe_key old = pe_key pe) as Hold.
      { destruct Hk as [Hwf _ _]. rewrite Forall_forall in Hwf. apply wrap_ok in Ek.
        apply canonical_inj; [by eapply Hwf, list_elem_of_lookup_2|eauto with mitmania|done]. }
      eapply IH; [| |exact Hp]; [by eapply kept_replace|by eapply index_replace].
    + eapply IH; [| |exact Hp]; [|by apply index_append].
      apply kept_append; [done|apply wrap_ok in Ek; eauto with mitmania|].
      intros (q & Hq & Hin)%list_elem_of_fmap. apply list_elem_of_lookup in Hin as [i Hi].
      assert (assoc (canonical key) index = Some i); [|congruence]. apply Hidx. exists q. split; [done|].
      change key with (pe_key pe). by rewrite Hq.
Qed.

(** The members of rules/default, every one parsed. *)
Definition all_entries (data : bytes) : result (list parsedEntry) :=
  raw ← decodeOrderedEntries data; mapM parseEntry raw.

Lemma parseDefaultRuleset_kept data es :
  parseDefaultRuleset data = Ok es -> exists all, all_entries data = Ok all /\ kept_last all es.
Proof.
  intros Hp. unfold parseDefaultRuleset in Hp. apply result_bind_ok in Hp as (raw & Hraw & Hp).
  apply wrap_ok in Hraw. unfold all_entries. rewrite Hraw. simpl.
  eapply (parseEntries_kept raw [] [] []); [| |exact Hp].
  - split; [constructor|constructor|]. intros pe. split; [by intros ?%not_elem_of_nil|done].
  - intros c i. split; [done|]. by intros (pe & Hpe & _).
Qed.

(** ** Reuse is invisible *)

Section Reuse.
Context `{RE : RegexEngine} `{DG : Digests} `{UT : UnicodeTable}.

(** Compiling one file on its own. *)
Definition file_rules (rf : RuleFile) : result RuleSet :=
  auth ← wrap "rules/default: invalid auth config" (CompileAuth (rf_Auth rf));
  compiled ← wrap "rules/default: invalid rules" (Compile rf);
  egress ← compileOptEgress (rf_Egress rf);
  Ok (newRuleSet compiled egress (rf_UUID rf) auth).

Definition freshBucket (pe : parsedEntry) : result compiledBucket :=
  rs ← file_rules (pe_rule pe);
  Ok {| cb_key := pe_key pe; cb_label := canonical (pe_key pe); cb_rules := rs;
        cb_contentHash := sha256 (Marshal_RuleFile (pe_rule pe)) |}.

(** The table from compiled buckets. *)
Definition assemble (buckets : list compiledBucket) : result DefaultRuleset :=
  let v4 := filter (fun b => mk_is4 (cb_key b) = true) buckets in
  let v6 := filter (fun b => mk_is4 (cb_key b) = false) buckets in
  _ ← require_coverage "rules/default: v4" (key_prefixes (map cb_key v4)) 32;
  _ ← require_coverage "rules/default: v6" (key_prefixes (map cb_key v6)) 128;
  Ok {| d_v4 := sortByMaskDescending v4; d_v6 := sortByMaskDescending v6 |}.

(** The reference: every entry compiled from scratch. *)
Definition compileFresh (entries : list parsedEntry) : result DefaultRuleset :=
  buckets ← mapM freshBucket entries; assemble buckets.

(** A file whose encoding can be read back. *)
Definition clean (rf : RuleFile) : Prop := rules_sorted (rf_HTTP rf) /\ any_ok (encode_file rf).

Lemma clean_rules rf : clean rf -> any_ok (encode_rules (rf_HTTP rf)).
Proof.
  intros [_ Hok]. inversion_clear Hok as [| | | | |? H]. rewrite !Forall_app, Forall_cons in H.
  by destruct H as (_ & _ & [_ H] & _).
Qed.

(** Files that encode alike compile alike: they differ at most in an empty
    versus an absent egress list, and a table entry inherits from nobody. *)
Lemma same_text_same_rules rf rf' :
  clean rf -> clean rf' -> Marshal_RuleFile rf = Marshal_RuleFile rf' -> file_rules rf = file_rules rf'.
Proof.
  intros [Hs Hok] [Hs' Hok'] E. apply (f_equal Unmarshal_RuleFile) in E.
  rewrite !Unmarshal_Marshal_RuleFile in E by done. apply (inj Ok) in E.
  unfold stored in E. injection E as Eu Ea Eh Ee. unfold file_rules.
  assert (Compile rf = Compile rf') as -> by (unfold Compile, rf_rules; by rewrite Eh).
  assert (compileOptEgress (rf_Egress rf) = compileOptEgress (rf_Egress rf')) as ->; [|by rewrite Eu, Ea].
  destruct (rf_Egress rf) as [[|]|], (rf_Egress rf') as [[|]|]; simplify_eq; done.
Qed.

(** Every remembered policy is what its text compiles to. *)
Definition policies_ok (policies : httpPolicies) : Prop :=
  Forall (fun p => exists rf, clean rf /\ fst p = Marshal_rules (rf_HTTP rf)
            /\ Compile rf = Ok (fst (snd p)) /\ snd (snd p) = buildHostCandidateIndex (fst (snd p))) policies.

Lemma assoc_elem {V} k (l : list (bytes * V)) v : assoc k l = Some v -> (k, v) ∈ l.
Proof.
  induction l as [|[k' v'] l IH]; simpl; [done|]. case_bool_decide; [intros [= ->]; subst; by left|].
  right. auto.
Qed.

Lemma compilePolicy_fresh policies rf :
  policies_ok policies -> clean rf ->
  match wrap "rules/default: invalid rules" (Compile rf), compilePolicy policies rf with
  | Ok rules, Ok (policy, policies') =>
      policy = (rules, buildHostCandidateIndex rules) /\ policies_ok policies'
  | Error e, Error e' => e = e'
  | _, _ => False
  end.
Proof.
  intros Hp Hc. unfold compilePolicy. destruct (assoc _ policies) as [[rules idx]|] eqn:E.
  - apply assoc_elem in E. pose proof Hp as Hp'. unfold policies_ok in Hp'. rewrite Forall_forall in Hp'.
    destruct (Hp' _ E) as (rf' & Hc' & Hj & Hr & Hi). simpl in *. apply Marshal_rules_inj in Hj;
      [|by apply Hc|by apply Hc'|by apply clean_rules|by apply clean_rules].
    assert (Compile rf = Ok rules) as ->; [|by subst].
    rewrite <- Hr. unfold Compile, rf_rules. by rewrite Hj.
  - destruct (Compile rf) as [rules|] eqn:Er; simpl; [|done]. split; [done|].
    constructor; [|done]. by exists rf.
Qed.

(** A table a hot reload may start from: each bucket was compiled from a clean
    file with the hash it carries, and no file of the new table collides with
    one of those under SHA-256. *)
Definition prev_ok (entries : list parsedEntry) (prev : option DefaultRuleset) : Prop :=
  forall d b, prev = Some d -> b ∈ (d_v4 d ++ d_v6 d)%list ->
  exists rf, clean rf /\ file_rules rf = Ok (cb_rules b)
    /\ cb_contentHash b = sha256 (Marshal_RuleFile rf)
    /\ forall pe, pe ∈ entries ->
         sha256 (Marshal_RuleFile rf) = sha256 (Marshal_RuleFile (pe_rule pe)) ->
         Marshal_RuleFile rf = Marshal_RuleFile (pe_rule pe).

Lemma bucketByLabel_elem d label b :
  bucketByLabel d label = Some b -> exists d', d = Some d' /\ b ∈ (d_v4 d' ++ d_v6 d')%list.
Proof.
  destruct d as [d|]; [|done]. simpl. intros Hl. exists d. split; [done|].
  apply last_Some_elem_of in Hl. by apply list_elem_of_filter in Hl as [_ ?].
Qed.

Lemma compileBucket_fresh entries prev policies pe :
  prev_ok entries prev -> policies_ok policies -> pe ∈ entries -> clean (pe_rule pe) ->
  match freshBucket pe, compileBucket prev policies pe with
  | Ok b, Ok (b', policies') => b = b' /\ policies_ok policies'
  | Error e, Error e' => e = e'
  | _, _ => False
  end.
Proof.
  intros Hprev Hpol Hin Hc. unfold compileBucket.
  destruct (match bucketByLabel prev _ with Some b => _ | None => _ end) as [b|] eqn:E.
  - destruct (bucketByLabel prev _) as [b'|] eqn:Eb; [|done]. case_bool_decide as Hh; [|done].
    simplify_eq. apply bucketByLabel_elem in Eb as (d & -> & Hb).
    destruct (Hprev d b eq_refl Hb) as (rf & Hcl & Hr & Hhash & Hcol).
    assert (Marshal_RuleFile rf = Marshal_RuleFile (pe_rule pe)) as Ht by (apply Hcol; congruence).
    apply same_text_same_rules in Ht; [|done|done]. unfold freshBucket. rewrite <- Ht, Hr. done.
  - clear E. unfold freshBucket, file_rules.
    destruct (wrap _ (CompileAuth _)) as [auth|]; simpl; [|done].
    pose proof (compilePolicy_fresh policies (pe_rule pe) Hpol Hc) as Hpo.
    destruct (wrap _ (Compile _)) as [rules|], (compilePolicy _ _) as [[policy pol']|]; simpl; try done.
    destruct Hpo as [-> Hpol']. destruct (compileOptEgress _) as [eg|]; simpl; [|done]. by split.
Qed.

Lemma compileBuckets_fresh entries prev policies rest :
  prev_ok entries prev -> policies_ok policies -> rest ⊆ entries ->
  Forall (fun pe => clean (pe_rule pe)) rest ->
  compileBuckets prev policies rest = mapM freshBucket rest.
Proof.
  intros Hprev. revert policies. induction rest as [|pe rest IH]; intros policies Hpol Hsub Hc; [done|].
  inversion_clear Hc as [|? ? Hpe Hrest]. cbn [compileBuckets mapM].
  pose proof (compileBucket_fresh entries prev policies pe Hprev Hpol ltac:(set_solver) Hpe) as Hb.
  destruct (freshBucket pe) as [b|], (compileBucket prev policies pe) as [[b' pol']|]; simpl; try done.
  - destruct Hb as [-> Hpol']. rewrite IH by (done || set_solver). done.
  - by subst.
Qed.

Lemma compileParsedEntries_fresh entries prev :
  prev_ok entries prev -> Forall (fun pe => clean (pe_rule pe)) entries ->
  compileParsedEntries entries prev = compileFresh entries.
Proof.
  intros Hprev Hc. unfold compileParsedEntries, compileFresh.
  rewrite (compileBuckets_fresh entries) by (done || constructor). done.
Qed.
End Reuse.

(** ** Lookups in a compiled table *)

Section Lookup.
Context `{RE : RegexEngine} `{DG : Digests} `{UT : UnicodeTable}.

Lemma compileBucket_key prev policies pe b policies' :
  compileBucket prev policies pe = Ok (b, policies') -> cb_key b = pe_key pe.
Proof.
  unfold compileBucket. destruct (match bucketByLabel _ _ with Some _ => _ | None => _ end).
  - intros [= <- _]. done.
  - intros H. apply result_bind_ok in H as (auth & _ & H). apply result_bind_ok in H as ([[rules idx] pol] & _ & H).
    apply result_bind_ok in H as (eg & _ & H). by simplify_eq.
Qed.

Lemma compileBuckets_keys prev policies entries bs :
  compileBuckets prev policies entries = Ok bs -> map cb_key bs = map pe_key entries.
Proof.
  revert policies bs. induction entries as [|pe entries IH]; intros policies bs H; simpl in H.
  - by simplify_eq.
  - apply result_bind_ok in H as ([b pol] & Hb & H). apply result_bind_ok in H as (bs' & Hbs & H).
    simplify_eq. simpl. f_equal; [by eapply compileBucket_key|by eapply IH].
Qed.

Lemma filter_map_keys (is4 : bool) (bs : list compiledBucket) :
  map cb_key (filter (fun b => mk_is4 (cb_key b) = is4) bs) = filter (fun k => mk_is4 k = is4) (map cb_key bs).
Proof.
  induction bs as [|b bs IH]; [done|]. simpl. rewrite !filter_cons. simpl.
  destruct (decide (mk_is4 (cb_key b) = is4)); simpl; by rewrite IH.
Qed.

Lemma assemble_family (is4 : bool) bs :
  Forall key_wf (map cb_key bs) -> NoDup (map cb_key bs) ->
  family_wf is4 (filter (fun b => mk_is4 (cb_key b) = is4) bs).
Proof.
  intros Hwf Hnd. split.
  - apply Forall_forall. intros b [H4 Hb]%list_elem_of_filter. split; [|done].
    rewrite Forall_forall in Hwf. by apply Hwf, list_elem_of_fmap_2.
  - rewrite filter_map_keys. by apply NoDup_filter.
Qed.

Lemma key_prefixes_elem keys p :
  p ∈ key_prefixes keys -> exists k n, k ∈ keys /\ contiguousPrefixLen (mk_mask k) = Some n /\ p = key_prefix k n.
Proof.
  unfold key_prefixes. rewrite list_elem_of_omap. intros (k & Hk & Hp).
  destruct (contiguousPrefixLen (mk_mask k)) as [n|] eqn:E; [|done]. simplify_eq/=. eauto.
Qed.

(** A family that passes the coverage check contains every address. *)
Lemma covered_contains is4 l fam ab :
  family_wf is4 l -> require_coverage fam (key_prefixes (map cb_key l)) (family_bits is4) = Ok tt ->
  bytes_ok ab -> length ab = key_width is4 -> exists b, b ∈ l /\ contains (cb_key b) ab = true.
Proof.
  intros [Hall _] Hcov Hab Hlen. unfold require_coverage in Hcov.
  assert (forall k, k ∈ map cb_key l -> key_wf k /\ mk_is4 k = is4) as Hkeys.
  { intros k (b & -> & Hb)%list_elem_of_fmap. rewrite Forall_forall in Hall. by apply Hall. }
  pose proof (checkCoverage_spec (key_prefixes (map cb_key l)) (family_bits is4)
    ltac:(unfold family_bits; lia)) as Hspec.
  destruct (checkCoverage _ _) eqn:Ec; [|done..].
  destruct (Hspec ltac:(apply Forall_forall; intros p (k & n & Hk & Hn & ->)%key_prefixes_elem;
    destruct (Hkeys k Hk) as [Hwf <-]; by apply key_prefix_ok) (of_be ab)) as (p & Hp & Hin).
  { apply of_be_range in Hab. rewrite Hlen, pow_256 in Hab by lia. done. }
  apply key_prefixes_elem in Hp as (k & n & Hk & Hn & ->). destruct (Hkeys k Hk) as [Hwf H4].
  apply list_elem_of_fmap in Hk as (b & -> & Hb). exists b. split; [done|].
  apply (prefix_key_interval _ n); [done|done|done|congruence|exact Hin].
Qed.

Lemma AsSlice_valid addr : IsValid addr = true ->
  bytes_ok (AsSlice addr) /\ length (AsSlice addr) = key_width (Is4 addr).
Proof. intros H. split; [apply AsSlice_ok|by apply AsSlice_length]. Qed.

Lemma assemble_lookup bs d addr :
  Forall key_wf (map cb_key bs) -> NoDup (map cb_key bs) -> assemble bs = Ok d -> IsValid addr = true ->
  exists b, ranks_first (filter (fun b => mk_is4 (cb_key b) = Is4 addr) bs) (AsSlice addr) b
    /\ DefaultLookup d addr = Some (cb_rules b).
Proof.
  intros Hwf Hnd Ha Hv. destruct (AsSlice_valid addr Hv) as [Hok Hlen].
  unfold assemble in Ha. apply result_bind_ok in Ha as ([] & H4 & Ha). apply result_bind_ok in Ha as ([] & H6 & Ha).
  simplify_eq. set (l := filter (fun b => mk_is4 (cb_key b) = Is4 addr) bs).
  assert (exists b, b ∈ l /\ contains (cb_key b) (AsSlice addr) = true) as (b0 & Hb0 & Hc0).
  { destruct (Is4 addr) eqn:E; eapply covered_contains; try done; try by apply assemble_family.
    - exact H4.
    - exact H6. }
  assert ((if Is4 addr then sortByMaskDescending (filter (fun b => mk_is4 (cb_key b) = true) bs)
           else sortByMaskDescending (filter (fun b => mk_is4 (cb_key b) = false) bs))
          = sortByMaskDescending l) as Hl by (subst l; by destruct (Is4 addr)).
  unfold DefaultLookup, scanBuckets. simpl. rewrite Hl.
  pose proof (sorted_first (sortByMaskDescending l) (AsSlice addr) (sortByMaskDescending_sorted l)) as Hf.
  destruct (head _) as [b|].
  - exists b. split; [|done]. unfold ranks_first in *. by setoid_rewrite sortByMaskDescending_perm in Hf.
  - rewrite Hf in Hc0; [done|]. by rewrite sortByMaskDescending_perm.
Qed.
End Lookup.
