(* ===== verification/DefaultTable.v ===== *)
(** * What the default table promises

    Totality and ranking of lookups, duplicate keys, the transparency of hot
    reloads, and the persisted text. *)

From S2P Require Import Prelude GoStrings Netip Json JsonRoundtrip Encoding Schema JsonRules Matcher.
From S2P Require Import Compile HostIndex Egress Auth RuleSet MaskedKey DefaultRuleset.

Open Scope Z_scope.

Section Theorems.
Context `{RE : RegexEngine} `{DG : Digests} `{UT : UnicodeTable}.

Lemma CompileDefaultRuleset_inv data d text :
  CompileDefaultRuleset data = Ok (d, text) ->
  exists entries all, parseDefaultRuleset data = Ok entries /\ all_entries data = Ok all
    /\ kept_last all entries /\ compileParsedEntries entries None = Ok d
    /\ text = marshalCanonical (map after_compile entries).
Proof.
  intros H. unfold CompileDefaultRuleset in H. apply result_bind_ok in H as (entries & Hp & H).
  apply result_bind_ok in H as (d' & Hd & H). simplify_eq.
  destruct (parseDefaultRuleset_kept data entries Hp) as (all & Hall & Hk). by exists entries, all.
Qed.

(** Distinct well-formed keys. *)
Definition keys_ok (entries : list parsedEntry) : Prop :=
  Forall key_wf (map pe_key entries) /\ NoDup (map pe_key entries).

Lemma kept_keys seen entries : kept_last seen entries -> keys_ok entries.
Proof. intros [Hwf Hnd _]. split; [by apply Forall_map|done]. Qed.

Lemma keys_ok_unique entries pe pe' :
  keys_ok entries -> pe ∈ entries -> pe' ∈ entries -> pe_key pe = pe_key pe' -> pe = pe'.
Proof.
  intros [_ Hnd] H H' E. apply list_elem_of_lookup in H as [i Hi], H' as [j Hj].
  assert (i = j) as ->; [|congruence]. eapply NoDup_lookup; [exact Hnd| |]; rewrite list_lookup_fmap.
  - by rewrite Hi.
  - rewrite Hj. simpl. by rewrite E.
Qed.

Lemma compileParsedEntries_lookup entries prev d addr :
  keys_ok entries -> compileParsedEntries entries prev = Ok d -> IsValid addr = true ->
  is_Some (DefaultLookup d addr).
Proof.
  intros Hk Hd Hv. unfold compileParsedEntries in Hd. apply result_bind_ok in Hd as (bs & Hbs & Hd).
  pose proof (compileBuckets_keys _ _ _ _ Hbs) as Hkeys.
  destruct Hk as [Hwf Hnd]. rewrite <- Hkeys in Hwf, Hnd.
  destruct (assemble_lookup bs d addr Hwf Hnd Hd Hv) as (b & _ & ->). by eexists.
Qed.

(** C23: Once rules/default has passed validation, [Lookup] finds a bucket for
    every IPv4 and every IPv6 address. *)
Theorem default_lookup_total data d text addr :
  CompileDefaultRuleset data = Ok (d, text) -> IsValid addr = true ->
  exists rs, DefaultLookup d addr = Some rs.
Proof.
  intros (entries & all & _ & _ & Hk & Hd & _)%CompileDefaultRuleset_inv Hv.
  eapply compileParsedEntries_lookup; [by eapply kept_keys|done|done].
Qed.

(** An entry that applies to an address. *)
Definition applies (entries : list parsedEntry) (addr : Addr) (pe : parsedEntry) : Prop :=
  pe ∈ entries /\ mk_is4 (pe_key pe) = Is4 addr /\ contains (pe_key pe) (AsSlice addr) = true.

Lemma mapM_fresh_elem entries bs b :
  mapM freshBucket entries = Ok bs -> b ∈ bs -> exists pe, pe ∈ entries /\ freshBucket pe = Ok b.
Proof.
  intros Hm%mapM_ok Hb. apply list_elem_of_lookup in Hb as [i Hi].
  destruct (Forall2_lookup_r _ _ _ _ _ Hm Hi) as (pe & Hpe & Hf).
  exists pe. split; [by eapply list_elem_of_lookup_2|done].
Qed.

Lemma mapM_fresh_elem' entries bs pe :
  mapM freshBucket entries = Ok bs -> pe ∈ entries -> exists b, b ∈ bs /\ freshBucket pe = Ok b.
Proof.
  intros Hm%mapM_ok Hpe. apply list_elem_of_lookup in Hpe as [i Hi].
  destruct (Forall2_lookup_l _ _ _ _ _ Hm Hi) as (b & Hb & Hf).
  exists b. split; [by eapply list_elem_of_lookup_2|done].
Qed.

Lemma freshBucket_inv pe b : freshBucket pe = Ok b ->
  cb_key b = pe_key pe /\ file_rules (pe_rule pe) = Ok (cb_rules b)
  /\ cb_contentHash b = sha256 (Marshal_RuleFile (pe_rule pe)).
Proof. unfold freshBucket. destruct (file_rules _); simpl; [|done]. intros [= <-]. done. Qed.

Lemma mapM_fresh_keys entries bs : mapM freshBucket entries = Ok bs -> map cb_key bs = map pe_key entries.
Proof.
  intros Hm%mapM_ok. induction Hm as [|pe b entries bs Hb _ IH]; [done|]. simpl.
  apply freshBucket_inv in Hb as (-> & _). by rewrite IH.
Qed.

(** Which entry a table compiled from scratch answers with. *)
Lemma compileFresh_lookup entries d addr :
  keys_ok entries -> compileFresh entries = Ok d -> IsValid addr = true ->
  exists pe rs, applies entries addr pe /\ file_rules (pe_rule pe) = Ok rs
    /\ DefaultLookup d addr = Some rs
    /\ (forall pe', applies entries addr pe' -> pe' = pe
          \/ of_be (mk_mask (pe_key pe')) < of_be (mk_mask (pe_key pe))).
Proof.
  intros Hk Hd Hv. unfold compileFresh in Hd. apply result_bind_ok in Hd as (bs & Hbs & Hd).
  pose proof (mapM_fresh_keys _ _ Hbs) as Hkeys. pose proof Hk as [Hwf Hnd].
  rewrite <- Hkeys in Hwf, Hnd. destruct (assemble_lookup bs d addr Hwf Hnd Hd Hv) as (b & (Hb & Hc & Hmax) & Hl).
  apply list_elem_of_filter in Hb as [H4 Hb]. destruct (mapM_fresh_elem _ _ _ Hbs Hb) as (pe & Hpe & Hf).
  apply freshBucket_inv in Hf as (Hkey & Hr & _). exists pe, (cb_rules b). rewrite Hkey in H4, Hc.
  split_and!; [done|done|done|]. intros pe' (Hpe' & H4' & Hc').
  destruct (mapM_fresh_elem' _ _ _ Hbs Hpe') as (b' & Hb' & Hf').
  apply freshBucket_inv in Hf' as (Hkey' & _ & _).
  assert (mask_value b' <= mask_value b) as Hle.
  { apply Hmax; [apply list_elem_of_filter; split; [congruence|done]|congruence]. }
  unfold mask_value in Hle. rewrite Hkey, Hkey' in Hle.
  destruct (Z.eq_dec (of_be (mk_mask (pe_key pe'))) (of_be (mk_mask (pe_key pe)))) as [E|]; [left|right; lia].
  apply (keys_ok_unique _ _ _ Hk Hpe' Hpe).
  destruct Hk as [Hkwf _]. rewrite Forall_forall in Hkwf.
  eapply (same_mask_same_key (Is4 addr)); [by apply Hkwf, list_elem_of_fmap_2|by apply Hkwf, list_elem_of_fmap_2|done|done| |done|done|done].
  by apply AsSlice_valid.
Qed.

(** Decoded maps are in order, so only the strings and numbers of a parsed
    table need to be printable. *)
Lemma parsed_clean data entries :
  parseDefaultRuleset data = Ok entries -> Forall (fun pe => any_ok (encode_file (pe_rule pe))) entries ->
  Forall (fun pe => clean (pe_rule pe)) entries.
Proof.
  intros (all & Hall & Hk)%parseDefaultRuleset_kept Hok. apply Forall_forall. intros pe Hin.
  rewrite Forall_forall in Hok. split; [|auto]. apply Hk, last_Some_elem_of, list_elem_of_filter in Hin as [_ Hin].
  unfold all_entries in Hall. apply result_bind_ok in Hall as (raw & _ & Hm). apply mapM_ok in Hm.
  apply list_elem_of_lookup in Hin as [i Hi]. destruct (Forall2_lookup_r _ _ _ _ _ Hm Hi) as (kv & _ & Hkv).
  unfold parseEntry in Hkv. apply result_bind_ok in Hkv as (key & _ & Hkv).
  apply result_bind_ok in Hkv as (rf & Hrf & Hkv). apply (inj Ok) in Hkv as <-.
  apply wrap_ok in Hrf. by eapply decode_file_sorted.
Qed.

(** A table compiled from scratch may serve as the previous one of a reload. *)
Lemma compileFresh_prev_ok entries0 entries d :
  Forall (fun pe => clean (pe_rule pe)) entries0 -> compileFresh entries0 = Ok d ->
  (forall pe0 pe, pe0 ∈ entries0 -> pe ∈ entries ->
     sha256 (Marshal_RuleFile (pe_rule pe0)) = sha256 (Marshal_RuleFile (pe_rule pe)) ->
     Marshal_RuleFile (pe_rule pe0) = Marshal_RuleFile (pe_rule pe)) ->
  prev_ok entries (Some d).
Proof.
  intros Hcl Hd Hcol d' b Ed Hb. apply (inj Some) in Ed as <-.
  unfold compileFresh in Hd. apply result_bind_ok in Hd as (bs & Hbs & Hd).
  unfold assemble in Hd. apply result_bind_ok in Hd as (_ & _ & Hd). apply result_bind_ok in Hd as (_ & _ & Hd).
  apply (inj Ok) in Hd as <-. simpl in Hb. rewrite !sortByMaskDescending_perm, elem_of_app, !list_elem_of_filter in Hb.
  assert (b ∈ bs) as Hin by tauto. destruct (mapM_fresh_elem _ _ _ Hbs Hin) as (pe & Hpe & Hf).
  apply freshBucket_inv in Hf as (_ & Hr & Hh). rewrite Forall_forall in Hcl.
  exists (pe_rule pe). split_and!; [by apply Hcl|done|done|]. intros pe' Hpe'. by apply Hcol.
Qed.

(** C22: Every client is answered by the applicable entry whose mask is the
    largest number, which is the longest prefix where masks are prefixes; no
    other applicable entry has that mask, and the answer is that entry's file
    compiled on its own. *)
Theorem default_lookup_ranked data d text entries addr :
  CompileDefaultRuleset data = Ok (d, text) -> parseDefaultRuleset data = Ok entries ->
  Forall (fun pe => any_ok (encode_file (pe_rule pe))) entries -> IsValid addr = true ->
  exists pe rs, applies entries addr pe /\ file_rules (pe_rule pe) = Ok rs
    /\ DefaultLookup d addr = Some rs
    /\ (forall pe', applies entries addr pe' -> pe' <> pe ->
          of_be (mk_mask (pe_key pe')) < of_be (mk_mask (pe_key pe)))
    /\ (forall pe' n n', applies entries addr pe' -> contiguousPrefixLen (mk_mask (pe_key pe)) = Some n ->
          contiguousPrefixLen (mk_mask (pe_key pe')) = Some n' -> (n' <= n)%nat).
Proof.
  intros Hc Hp Hcl Hv. apply (parsed_clean _ _ Hp) in Hcl.
  apply CompileDefaultRuleset_inv in Hc as (es & all & Hp' & _ & Hk & Hd & _).
  rewrite Hp in Hp'. apply (inj Ok) in Hp' as <-.
  rewrite compileParsedEntries_fresh in Hd by done.
  destruct (compileFresh_lookup entries d addr (kept_keys _ _ Hk) Hd Hv) as (pe & rs & Ha & Hr & Hl & Hmax).
  exists pe, rs. split_and!; [done..| |].
  - intros pe' Ha' Hne. by destruct (Hmax pe' Ha').
  - intros pe' n n' Ha' Hn Hn'. destruct Hk as [Hwf _ _]. rewrite Forall_forall in Hwf.
    destruct Ha as (Hin & H4 & _). pose proof Ha' as (Hin' & H4' & _).
    destruct (key_prefix_spec _ _ (Hwf _ Hin) Hn) as (Hm & Hle & _).
    destruct (key_prefix_spec _ _ (Hwf _ Hin') Hn') as (Hm' & Hle' & _).
    destruct (Hmax pe' Ha') as [->|Hlt]; [simplify_eq; lia|].
    rewrite Hm, Hm', H4, H4' in Hlt. rewrite H4 in Hle. rewrite H4' in Hle'.
    set (W := family_bits (Is4 addr)) in *.
    destruct (decide (n' <= n)%nat); [done|]. exfalso.
    assert (2 ^ (W - Z.of_nat n') < 2 ^ (W - Z.of_nat n)) by (apply Z.pow_lt_mono_r; lia). lia.
Qed.

(** C24: A hot reload that reuses the buckets of the previous table and shares
    equal http policies gives exactly the table a compilation from scratch
    gives, errors included. *)
Theorem hot_reload_transparent entries prev :
  prev_ok entries prev -> Forall (fun pe => clean (pe_rule pe)) entries ->
  compileParsedEntries entries prev = (bs ← mapM freshBucket entries; assemble bs).
Proof. apply compileParsedEntries_fresh. Qed.

(** ** The persisted text *)

Lemma map_put_perm {V} k (v : V) m :
  k ∉ map fst m -> map_put k v m ≡ₚ (k, v) :: m.
Proof.
  induction m as [|[k' v'] m IH]; intros Hk; simpl; [done|].
  destruct (bytes_ltb k k'); [done|]. rewrite bool_decide_false by (intros ->; apply Hk; by left).
  rewrite IH by (intros ?; apply Hk; by right). constructor.
Qed.

Lemma map_puts_perm {V} (l m : list (bytes * V)) :
  NoDup (map fst (m ++ l)) -> map_puts m l ≡ₚ (m ++ l)%list.
Proof.
  revert m. induction l as [|[k v] l IH]; intros m Hnd; [by rewrite app_nil_r|].
  assert (map_put k v m ≡ₚ m ++ [(k, v)]) as Hp.
  { rewrite map_put_perm; [by rewrite Permutation_cons_append|]. rewrite map_app in Hnd.
    apply NoDup_app in Hnd as (_ & Hd & _). intros Hk. apply (Hd k Hk). by left. }
  change (map_puts m ((k, v) :: l)) with (map_puts (map_put k v m) l). rewrite IH.
  - by rewrite Hp, <- app_assoc.
  - rewrite Hp, <- app_assoc. done.
Qed.

Lemma parseEntries_distinct raw all entries index :
  mapM parseEntry raw = Ok all -> NoDup (map (fun pe => canonical (pe_key pe)) all) ->
  (forall pe, pe ∈ all -> assoc (canonical (pe_key pe)) index = None) ->
  parseEntries raw entries index = Ok (entries ++ all)%list.
Proof.
  revert all entries index. induction raw as [|[k v] raw IH]; intros all entries index Hm Hnd Hidx.
  - change (Ok [] = Ok all) in Hm. apply (inj Ok) in Hm as <-. by rewrite app_nil_r.
  - cbn [mapM] in Hm. apply result_bind_ok in Hm as (pe & Hpe & Hm).
    apply result_bind_ok in Hm as (all' & Hall & Hm).
    apply (inj Ok) in Hm as <-. inversion_clear Hnd as [|? ? Hnew Hnd'].
    unfold parseEntry in Hpe. cbn [fst snd] in Hpe. cbn [parseEntries].
    destruct (wrap _ (parseMaskedKey k)); [|done]. simpl in *.
    destruct (wrap _ (decode_file _ _ _)); [|done]. simpl in *. simplify_eq. simpl in *.
    pose proof (Hidx _ (list_elem_of_here _ _)) as Hn. simpl in Hn. rewrite Hn.
    rewrite (IH all') by (done || (intros pe Hin; simpl; rewrite bool_decide_false;
      [by apply Hidx; right|intros E; apply Hnew; rewrite E; by apply (list_elem_of_fmap_2 (fun pe => canonical (pe_key pe)))])).
    by rewrite <- app_assoc.
Qed.

(** The entry a written one is read back as. *)
Definition restore (pe : parsedEntry) : parsedEntry :=
  {| pe_key := pe_key pe; pe_rule := stored (pe_rule pe) |}.

Definition reload (pe : parsedEntry) : parsedEntry := restore (after_compile pe).

Lemma default_broker_path_idem b : default_broker_path (default_broker_path b) = default_broker_path b.
Proof.
  unfold default_broker_path at 2 3.
  destruct (negb (bool_decide (ab_Socket b = [])) && bool_decide (ab_Path b = [])) eqn:E.
  - unfold default_broker_path. simpl. by rewrite andb_false_r.
  - unfold default_broker_path. by rewrite E.
Qed.

Lemma default_auth_path_idem (a : option AuthConfig) :
  default_auth_path <$> (default_auth_path <$> a) = default_auth_path <$> a.
Proof.
  destruct a as [[[hp|]]|]; simpl; try done. unfold default_auth_path. simpl. do 3 f_equal.
  destruct (hp_Broker hp); simpl; by rewrite ?default_broker_path_idem.
Qed.

Lemma compileBroker_default b : compileBroker (default_broker_path b) = compileBroker b.
Proof.
  unfold default_broker_path. destruct (negb (bool_decide (ab_Socket b = []))) eqn:Es; simpl; [|done].
  destruct (bool_decide (ab_Path b = [])) eqn:Hp; [|done]. unfold compileBroker. simpl. rewrite Es, Hp. simpl.
  by destruct (bool_decide (ab_URL b = [])).
Qed.

Lemma CompileAuth_default (a : option AuthConfig) : CompileAuth (default_auth_path <$> a) = CompileAuth a.
Proof.
  destruct a as [[[hp|]]|]; simpl; try done. unfold CompileAuth. simpl.
  destruct (hp_Broker hp) as [b|]; simpl; by rewrite ?compileBroker_default.
Qed.

Lemma encode_stored rf : encode_file (stored rf) = encode_file rf.
Proof. unfold encode_file, stored. simpl. by destruct (rf_Egress rf) as [[|]|]. Qed.

Lemma restore_rules pe : file_rules (pe_rule (restore pe)) = file_rules (pe_rule pe).
Proof.
  unfold file_rules, restore, stored, Compile, rf_rules. simpl. by destruct (rf_Egress (pe_rule pe)) as [[|]|].
Qed.

Lemma reload_rules pe : file_rules (pe_rule (reload pe)) = file_rules (pe_rule pe).
Proof.
  unfold file_rules, reload, restore, stored, after_compile, Compile, rf_rules. simpl. rewrite CompileAuth_default.
  by destruct (rf_Egress (pe_rule pe)) as [[|]|].
Qed.

Lemma reload_text pe :
  encode_file (pe_rule (after_compile (reload pe))) = encode_file (pe_rule (after_compile pe)).
Proof.
  unfold reload, restore, after_compile, stored, encode_file. simpl. rewrite default_auth_path_idem.
  by destruct (rf_Egress (pe_rule pe)) as [[|]|].
Qed.

(** Filling in the path keeps a file clean. *)
Lemma any_ok_obj l : any_ok (AObj l) <-> Forall (fun kv => utf8_valid (fst kv) /\ any_ok (snd kv)) l.
Proof. split; [by inversion 1|by constructor]. Qed.

Lemma any_ok_member name o v l :
  any_ok (AObj (member name o v ++ l)) <-> any_ok (AObj (member name o v)) /\ any_ok (AObj l).
Proof. by rewrite !any_ok_obj, Forall_app. Qed.

Lemma any_ok_member1 name v : any_ok (AObj (member name false v)) <-> utf8_valid (str name) /\ any_ok v.
Proof. rewrite any_ok_obj. exact (Forall_singleton (fun kv : bytes * any => utf8_valid (fst kv) /\ any_ok (snd kv)) (str name, v)). Qed.

Lemma clean_broker b : any_ok (encode_broker b) -> any_ok (encode_broker (default_broker_path b)).
Proof.
  unfold default_broker_path. destruct (_ && _); [|done]. unfold encode_broker. cbn [ab_Socket ab_URL ab_Path].
  rewrite !any_ok_member. intros (? & ? & _). split_and!; [done|done|]. apply any_ok_member1.
  split; [|constructor]; apply utf8_ascii; by repeat constructor.
Qed.

Lemma clean_auth a : any_ok (encode_auth a) -> any_ok (encode_auth (default_auth_path a)).
Proof.
  destruct a as [[hp|]]; [|done]. unfold encode_auth. cbn [default_auth_path ac_HTTPProxy fmap option_fmap option_map is_none e_opt].
  rewrite !any_ok_member1. intros [? Hhp]. split; [done|]. revert Hhp. unfold encode_http_proxy.
  cbn [hp_Required hp_Realm hp_Basic hp_Bearer hp_Broker].
  rewrite !any_ok_member. intros (? & ? & ? & ? & Hb). split_and!; [done..|].
  destruct (hp_Broker hp) as [b|]; [|done]. cbn [fmap option_fmap option_map is_none e_opt] in *.
  rewrite any_ok_member1 in *. destruct Hb. split; [done|]. by apply clean_broker.
Qed.

Lemma clean_after pe : clean (pe_rule pe) -> clean (pe_rule (after_compile pe)).
Proof.
  intros [Hs Hok]. split; [done|]. revert Hok. unfold encode_file.
  cbn [after_compile pe_rule rf_UUID rf_Auth rf_HTTP rf_Egress]. rewrite !any_ok_member.
  intros (? & Ha & ? & ?). split_and!; try done.
  destruct (rf_Auth (pe_rule pe)) as [a|]; [|done]. cbn [fmap option_fmap option_map is_none e_opt] in *.
  rewrite any_ok_member1 in *. destruct Ha. split; [done|]. by apply clean_auth.
Qed.

Lemma clean_restore pe : clean (pe_rule pe) -> clean (pe_rule (restore pe)).
Proof. intros [Hs Hok]. split; [done|]. simpl. by rewrite encode_stored. Qed.

Lemma canonical_nodup entries :
  Forall key_wf (map pe_key entries) -> NoDup (map pe_key entries) ->
  NoDup (map (fun pe => canonical (pe_key pe)) entries).
Proof.
  induction entries as [|pe entries IH]; intros Hwf Hnd; simpl in *; [constructor|].
  inversion_clear Hwf as [|? ? Hpe Hwf']. inversion_clear Hnd as [|? ? Hnew Hnd'].
  constructor; [|auto]. intros (q & Hq & Hin)%list_elem_of_fmap. apply Hnew.
  apply canonical_inj in Hq; [|done|].
  - rewrite Hq. by apply list_elem_of_fmap_2.
  - rewrite Forall_forall in Hwf'. by apply Hwf', list_elem_of_fmap_2.
Qed.

Lemma parse_member pe : key_wf (pe_key pe) -> clean (pe_rule pe) ->
  parseEntry (canonical (pe_key pe), encode_file (pe_rule pe)) = Ok (restore pe).
Proof.
  intros Hw [Hs _]. unfold parseEntry. cbn [fst snd]. rewrite canonical_parse by done.
  cbn [wrap mbind result_bind]. by rewrite file_recovers.
Qed.

(** The member of an entry in the written object. *)
Definition entry_member (pe : parsedEntry) : bytes * any := (canonical (pe_key pe), encode_file (pe_rule pe)).

Lemma mapM_parse_members entries :
  (forall pe, pe ∈ entries -> key_wf (pe_key pe) /\ clean (pe_rule pe)) ->
  mapM parseEntry (map entry_member entries) = Ok (map restore entries).
Proof.
  induction entries as [|pe l IH]; intros Hall; [done|]. cbn [map mapM].
  destruct (Hall pe) as [Hw Hc]; [by left|].
  pose proof (parse_member pe Hw Hc : parseEntry (entry_member pe) = _) as Hpm. rewrite Hpm.
  cbn [mbind result_bind]. rewrite IH by (intros q Hq; apply Hall; by right). done.
Qed.

(** Reading back a text [marshalCanonical] wrote. *)
Lemma parse_written entries :
  Forall key_wf (map pe_key entries) -> NoDup (map pe_key entries) ->
  Forall (fun pe => clean (pe_rule pe)) entries ->
  exists entries', entries ≡ₚ entries'
    /\ parseDefaultRuleset (marshalCanonical entries) = Ok (map restore entries')
    /\ StronglySorted key_lt (map entry_member entries')
    /\ marshalCanonical entries = json_print (AObj (map entry_member entries')).
Proof.
  intros Hwf Hnd Hcl.
  assert (map_puts [] (map entry_member entries) ≡ₚ map entry_member entries) as Hperm.
  { apply (map_puts_perm _ []). simpl. rewrite map_map. by apply canonical_nodup. }
  destruct (Permutation_map_inv _ _ Hperm) as (entries' & HM & Hp). exists entries'. split; [done|].
  unfold marshalCanonical. fold entry_member. change (map (fun pe => _) entries) with (map entry_member entries).
  rewrite HM.
  assert (forall pe, pe ∈ entries' -> key_wf (pe_key pe) /\ clean (pe_rule pe)) as Hall.
  { intros pe Hin. rewrite <- Hp in Hin. rewrite Forall_forall in Hcl. split; [|auto].
    rewrite Forall_forall in Hwf. by apply Hwf, list_elem_of_fmap_2. }
  split_and!; [| |done].
  - unfold parseDefaultRuleset, decodeOrderedEntries.
    pose proof (decodeFirst_json_print (AObj (map entry_member entries')) []) as Hdec. rewrite app_nil_r in Hdec.
    rewrite Hdec; [simpl|apply any_ok_obj|done].
    + rewrite (parseEntries_distinct _ (map restore entries')); [done|by apply mapM_parse_members| |done].
      rewrite map_map. simpl. rewrite <- (map_map pe_key canonical), <- Hp, map_map. by apply canonical_nodup.
    + apply Forall_map, Forall_forall. intros pe Hin. destruct (Hall pe Hin) as [Hw Hc].
      split; [by apply utf8_ascii, canonical_ascii|apply Hc].
  - rewrite <- HM. apply (map_puts_ok (fun _ => True)); [by apply Forall_true|]. split; constructor.
Qed.

(** The text of a PUT, read back. *)
Lemma parse_marshalled entries :
  Forall key_wf (map pe_key entries) -> NoDup (map pe_key entries) ->
  Forall (fun pe => clean (pe_rule pe)) entries ->
  exists entries', entries ≡ₚ entries'
    /\ parseDefaultRuleset (marshalCanonical (map after_compile entries)) = Ok (map reload entries')
    /\ marshalCanonical (map after_compile (map reload entries')) = marshalCanonical (map after_compile entries).
Proof.
  intros Hwf Hnd Hcl.
  destruct (parse_written (map after_compile entries)) as (es & Hp & Hparse & Hs & Htext).
  { by rewrite map_map. }
  { by rewrite map_map. }
  { apply Forall_map. eapply Forall_impl; [apply Hcl|apply clean_after]. }
  apply Permutation_sym, Permutation_map_inv in Hp as (entries' & -> & Hp). exists entries'.
  rewrite map_map in Hparse, Hs, Htext. split_and!; [done|done|]. rewrite Htext. unfold marshalCanonical.
  rewrite <- (map_puts_sorted _ Hs), !map_map. do 3 f_equal. apply map_ext. intros pe.
  unfold entry_member. f_equal. apply reload_text.
Qed.

(** Coverage does not depend on the order of the entries. *)
Lemma coverage_perm bits ps ps' :
  0 < bits -> ps ≡ₚ ps' -> Forall (prefix_ok bits) ps ->
  checkCoverage ps bits = Covered -> checkCoverage ps' bits = Covered.
Proof.
  intros Hb Hp Hok Hc. pose proof (checkCoverage_spec ps bits ltac:(lia) Hok) as H1. rewrite Hc in H1.
  rewrite Hp in Hok. pose proof (checkCoverage_spec ps' bits ltac:(lia) Hok) as H2.
  assert (1 < 2 ^ bits) by (apply Z.pow_gt_1; lia).
  destruct (checkCoverage ps' bits) as [| |lo hi]; [done| |].
  - subst ps'. destruct (H1 0 ltac:(lia)) as (p & Hin & _). rewrite Hp in Hin.
    by apply not_elem_of_nil in Hin.
  - destruct H2 as (Hlo & Hhi & Hgap & _). destruct (H1 lo ltac:(lia)) as (p & Hin & Hs).
    exfalso. rewrite Hp in Hin. by apply (Hgap lo p ltac:(lia) Hin).
Qed.

Lemma keys_prefix_ok is4 keys :
  Forall key_wf keys -> Forall (prefix_ok (family_bits is4)) (key_prefixes (filter (fun k => mk_is4 k = is4) keys)).
Proof.
  intros Hwf. apply Forall_forall. intros p (k & n & Hk & Hn & ->)%key_prefixes_elem.
  apply list_elem_of_filter in Hk as [<- Hk]. rewrite Forall_forall in Hwf. by apply key_prefix_ok; auto.
Qed.

Lemma require_coverage_perm fam is4 keys keys' :
  Forall key_wf keys -> keys ≡ₚ keys' ->
  require_coverage fam (key_prefixes (filter (fun k => mk_is4 k = is4) keys)) (family_bits is4) = Ok tt ->
  require_coverage fam (key_prefixes (filter (fun k => mk_is4 k = is4) keys')) (family_bits is4) = Ok tt.
Proof.
  intros Hwf Hp H. unfold require_coverage in *.
  destruct (checkCoverage _ _) eqn:E in H; [|done..].
  eapply coverage_perm in E; [by rewrite E|by destruct is4| |by apply keys_prefix_ok].
  unfold key_prefixes. by rewrite Hp.
Qed.

Lemma assemble_perm bs bs' d :
  Forall key_wf (map cb_key bs) -> map cb_key bs ≡ₚ map cb_key bs' -> assemble bs = Ok d ->
  exists d', assemble bs' = Ok d'.
Proof.
  intros Hwf Hp Ha. unfold assemble in Ha. rewrite !filter_map_keys in Ha.
  apply result_bind_ok in Ha as ([] & H4 & Ha). apply result_bind_ok in Ha as ([] & H6 & _).
  apply (require_coverage_perm _ true _ _ Hwf Hp) in H4. apply (require_coverage_perm _ false _ _ Hwf Hp) in H6.
  unfold assemble. rewrite !filter_map_keys.
  change 32 with (family_bits true). change 128 with (family_bits false).
  rewrite H4. simpl. rewrite H6. simpl. by eexists.
Qed.

(** Entries changed by a function that keeps keys and compiled rules. *)
Section Same.
Variable f : parsedEntry -> parsedEntry.
Hypothesis f_key : forall pe, pe_key (f pe) = pe_key pe.
Hypothesis f_rules : forall pe, file_rules (pe_rule (f pe)) = file_rules (pe_rule pe).

Lemma compileFresh_same entries entries' d :
  Forall key_wf (map pe_key entries) -> entries ≡ₚ entries' -> compileFresh entries = Ok d ->
  exists d', compileFresh (map f entries') = Ok d'.
Proof.
  intros Hwf Hp Hd. unfold compileFresh in *. apply result_bind_ok in Hd as (bs & Hbs & Ha).
  assert (exists bs', mapM freshBucket (map f entries') = Ok bs') as [bs' Hbs'].
  { assert (forall pe, pe ∈ entries' -> exists b, freshBucket (f pe) = Ok b) as Hall.
    { intros pe Hin. rewrite <- Hp in Hin. destruct (mapM_fresh_elem' _ _ _ Hbs Hin) as (b & _ & Hb).
      apply freshBucket_inv in Hb as (_ & Hr & _). unfold freshBucket. rewrite f_rules, Hr. by eexists. }
    clear -Hall. induction entries' as [|pe l IH]; [by exists []|].
    destruct (Hall pe) as [b Hb]; [by left|]. destruct IH as [bs IH]; [intros q Hq; apply Hall; by right|].
    exists (b :: bs). cbn [map mapM]. by rewrite Hb, IH. }
  rewrite Hbs'. simpl. eapply (assemble_perm bs); [| |exact Ha].
  - by rewrite (mapM_fresh_keys _ _ Hbs).
  - rewrite (mapM_fresh_keys _ _ Hbs), (mapM_fresh_keys _ _ Hbs'), map_map.
    rewrite (map_ext (fun x => pe_key (f x)) pe_key f_key). by apply Permutation_map.
Qed.

Lemma same_lookup entries entries' d d' addr :
  keys_ok entries -> entries ≡ₚ entries' ->
  compileFresh entries = Ok d -> compileFresh (map f entries') = Ok d' -> IsValid addr = true ->
  DefaultLookup d' addr = DefaultLookup d addr.
Proof.
  intros Hk Hp Hd Hd' Hv.
  assert (keys_ok (map f entries')) as Hk'.
  { unfold keys_ok. rewrite map_map, (map_ext (fun x => pe_key (f x)) pe_key f_key).
    split; by rewrite <- Hp; apply Hk. }
  destruct (compileFresh_lookup _ _ _ Hk Hd Hv) as (pe & rs & (Hin & H4 & Hc) & Hr & -> & Hmax).
  destruct (compileFresh_lookup _ _ _ Hk' Hd' Hv) as (q' & rs' & (Hin' & H4' & Hc') & Hr' & -> & Hmax').
  apply list_elem_of_fmap in Hin' as (q & -> & Hq). rewrite f_rules in Hr'. rewrite <- Hp in Hq.
  rewrite f_key in H4', Hc'.
  destruct (Hmax q) as [->|Hlt]; [done|congruence|].
  destruct (Hmax' (f pe)) as [E|Hlt'].
  - unfold applies. rewrite f_key. split_and!; [|done|done]. apply list_elem_of_fmap_2. by rewrite <- Hp.
  - apply (f_equal (fun x => of_be (mk_mask (pe_key x)))) in E. rewrite !f_key in E. lia.
  - rewrite !f_key in Hlt'. lia.
Qed.

End Same.

Lemma canonical_text_reloads data d text entries :
  CompileDefaultRuleset data = Ok (d, text) -> parseDefaultRuleset data = Ok entries ->
  Forall (fun pe => any_ok (encode_file (pe_rule pe))) entries ->
  exists d', CompileDefaultRuleset text = Ok (d', text)
    /\ forall addr, IsValid addr = true -> DefaultLookup d' addr = DefaultLookup d addr.
Proof.
  intros Hc Hp Hcl. apply (parsed_clean _ _ Hp) in Hcl.
  apply CompileDefaultRuleset_inv in Hc as (es & all & Hp' & _ & Hk & Hd & ->).
  rewrite Hp in Hp'. apply (inj Ok) in Hp' as <-. rewrite compileParsedEntries_fresh in Hd by done.
  destruct (kept_keys _ _ Hk) as [Hwf Hnd].
  destruct (parse_marshalled _ Hwf Hnd Hcl) as (entries' & Hperm & Hparse & Htext).
  destruct (compileFresh_same reload (fun _ => eq_refl) reload_rules _ _ _ Hwf Hperm Hd) as [d' Hd']. exists d'.
  assert (Forall (fun pe => clean (pe_rule pe)) (map reload entries')) as Hcl'.
  { apply Forall_map. rewrite <- Hperm. eapply Forall_impl; [apply Hcl|]; intros pe Hc; by apply clean_restore, clean_after. }
  split.
  - unfold CompileDefaultRuleset. rewrite Hparse. cbn [mbind result_bind].
    rewrite compileParsedEntries_fresh, Hd' by done. cbn [mbind result_bind]. by rewrite Htext.
  - intros addr Hv.
    exact (same_lookup reload (fun _ => eq_refl) reload_rules _ _ _ _ addr (kept_keys _ _ Hk) Hperm Hd Hd' Hv).
Qed.

(** C25: The canonical text a PUT persists validates again, is its own canonical
    text, and gives every client the same rules as the submitted table. *)
Theorem persisted_table_reloads data d text entries :
  CompileDefaultRuleset data = Ok (d, text) -> parseDefaultRuleset data = Ok entries ->
  Forall (fun pe => any_ok (encode_file (pe_rule pe))) entries ->
  exists d', CompileDefaultRuleset text = Ok (d', text)
    /\ forall addr, IsValid addr = true -> DefaultLookup d' addr = DefaultLookup d addr.
Proof. apply canonical_text_reloads. Qed.

(** Of the members whose keys normalise to the same address and mask the
    last one is kept, and only that one. *)
Theorem last_duplicate_wins data entries :
  parseDefaultRuleset data = Ok entries ->
  exists all, all_entries data = Ok all /\ NoDup (map (fun pe => canonical (pe_key pe)) entries)
    /\ forall pe, pe ∈ entries <-> last (filter (fun q => pe_key q = pe_key pe) all) = Some pe.
Proof.
  intros (all & Hall & Hk)%parseDefaultRuleset_kept. exists all.
  destruct (kept_keys _ _ Hk). split_and!; [done|by apply canonical_nodup|apply Hk].
Qed.

End Theorems.
