(* ===== verification/Builtin.v ===== *)
(** * The built-in default table (defaultruleset.go 443-486)

    What a fresh deployment enforces: no http rule, and an egress list that
    keeps clients out of loopback, private and link-local networks. *)

From S2P Require Import Prelude GoStrings Netip Json JsonRoundtrip Encoding Schema JsonRules Matcher.
From S2P Require Import Compile HostIndex Egress Auth RuleSet MaskedKey DefaultRuleset DefaultTable.

Open Scope Z_scope.

(** ** Clean values, decided *)

Fixpoint any_okb (v : any) : bool :=
  match v with
  | ANull | ABool _ => true
  | ANum m e => ((m =? 0) && (e =? 0))
                || (negb (Z.abs m mod 10 =? 0) && (Z.abs m <? 10 ^ 64) && (-10 ^ 60 <? e) && (e <? 10 ^ 60))
  | AStr s => forallb is_ascii s
  | AArr l => forallb any_okb l
  | AObj l => forallb (fun kv => forallb is_ascii (fst kv) && any_okb (snd kv)) l
  end.

Lemma ascii_valid s : forallb is_ascii s = true -> utf8_valid s.
Proof. intros H. apply utf8_ascii, Forall_forall. intros c Hc. rewrite forallb_forall in H. apply H. by apply list_elem_of_In. Qed.

Lemma any_okb_ok v : any_okb v = true -> any_ok v.
Proof.
  induction v as [|b|m e|s|l Hl|l Hl] using any_ind'; simpl; intros H; constructor.
  - apply orb_true_iff in H as [H|H]; [left|right]; rewrite !andb_true_iff in H.
    + destruct H as [?%Z.eqb_eq ?%Z.eqb_eq]. done.
    + destruct H as [[[?%negb_true_iff ?%Z.ltb_lt] ?%Z.ltb_lt] ?%Z.ltb_lt].
      split_and!; [by apply Z.eqb_neq|done|done|done].
  - by apply ascii_valid.
  - apply Forall_forall. intros x Hx. rewrite Forall_forall in Hl. apply (Hl x Hx).
    rewrite forallb_forall in H. apply H. by apply list_elem_of_In.
  - apply Forall_forall. intros x Hx. rewrite Forall_forall in Hl. rewrite forallb_forall in H.
    specialize (H x ltac:(by apply list_elem_of_In)). apply andb_true_iff in H as [Hk Hv].
    split; [by apply ascii_valid|by apply Hl].
Qed.

(** ** Prefixes as quotients *)

Lemma shiftr_lxor_0 a b k : 0 <= k -> (Z.shiftr (Z.lxor a b) k =? 0) = (a / 2 ^ k =? b / 2 ^ k).
Proof.
  intros Hk. rewrite Z.shiftr_lxor, !Z.shiftr_div_pow2 by done.
  destruct (Z.eqb_spec (a / 2 ^ k) (b / 2 ^ k)) as [->|Hne].
  - by rewrite Z.lxor_nilpotent.
  - apply Z.eqb_neq. by intros E%Z.lxor_eq.
Qed.

Section Builtin.
Context `{RE : RegexEngine} `{DG : Digests} `{UT : UnicodeTable}.

(** The networks the list denies. *)
Definition private4 (v : Z) : bool :=
  (v / 2 ^ 24 =? 127) || (v / 2 ^ 24 =? 10) || (v / 2 ^ 20 =? 172 * 16 + 1)
  || (v / 2 ^ 16 =? 192 * 256 + 168) || (v / 2 ^ 16 =? 169 * 256 + 254).

Definition private6 (v : Z) : bool :=
  (v =? 1) || (v / 2 ^ 121 =? 0xfc / 2) || (v / 2 ^ 118 =? 0xfe80 / 64).

Definition net4 (v bits : Z) (allow : bool) : CompiledEgress :=
  {| ce_prefix := {| pfx_addr := Addr4 v; pfx_bits := bits |}; ce_port := PortAlways;
     ce_proto := MAlways; ce_allow := allow |}.
Definition net6 (v bits : Z) (allow : bool) : CompiledEgress :=
  {| ce_prefix := {| pfx_addr := Addr6 v []; pfx_bits := bits |}; ce_port := PortAlways;
     ce_proto := MAlways; ce_allow := allow |}.

Lemma egress_net4 v bits allow v' port proto : 0 <= bits <= 32 ->
  egress_match (net4 v bits allow) (Addr4 v') port proto = (v' / 2 ^ (32 - bits) =? v / 2 ^ (32 - bits)).
Proof.
  intros Hb. unfold egress_match, net4, Contains, prefix_valid. cbn -[Z.shiftr Z.lxor Z.div Z.pow Z.leb Z.sub].
  destruct (Z.leb_spec 0 bits); [|lia]. cbn -[Z.shiftr Z.lxor Z.div Z.pow Z.leb Z.sub].
  by rewrite !andb_true_r, shiftr_lxor_0 by lia.
Qed.

Lemma egress_net6 v bits allow v' z port proto : 0 <= bits <= 128 ->
  egress_match (net6 v bits allow) (Addr6 v' z) port proto
  = bool_decide (z = []) && (v' / 2 ^ (128 - bits) =? v / 2 ^ (128 - bits)).
Proof.
  intros Hb. unfold egress_match, net6, Contains, prefix_valid. cbn -[Z.shiftr Z.lxor Z.div Z.pow Z.leb Z.sub].
  destruct (Z.leb_spec 0 bits); [|lia]. cbn -[Z.shiftr Z.lxor Z.div Z.pow Z.leb Z.sub].
  rewrite !andb_true_r, shiftr_lxor_0 by lia. done.
Qed.

Lemma egress_mixed46 v bits allow v' z port proto :
  egress_match (net4 v bits allow) (Addr6 v' z) port proto = false.
Proof. unfold egress_match, Contains. simpl. by rewrite !andb_false_r. Qed.

Lemma egress_mixed64 v bits allow v' port proto :
  egress_match (net6 v bits allow) (Addr4 v') port proto = false.
Proof. unfold egress_match, Contains. simpl. by rewrite !andb_false_r. Qed.

Definition denyFirst_compiled : list CompiledEgress :=
  [net4 (127 * 2 ^ 24) 8 false; net6 1 128 false; net4 (10 * 2 ^ 24) 8 false;
   net4 ((172 * 256 + 16) * 2 ^ 16) 12 false; net4 ((192 * 256 + 168) * 2 ^ 16) 16 false;
   net6 (0xfc00 * 2 ^ 112) 7 false; net4 ((169 * 256 + 254) * 2 ^ 16) 16 false;
   net6 (0xfe80 * 2 ^ 112) 10 false; net4 0 0 true; net6 0 0 true].

Lemma compile_denyFirst : CompileEgress denyFirstEgress = Ok denyFirst_compiled.
Proof. vm_compute. reflexivity. Qed.

Lemma denyFirst_lookup4 v port proto : 0 <= v < 2 ^ 32 ->
  LookupEgress denyFirst_compiled (Addr4 v) port proto = (negb (private4 v), true).
Proof.
  intros Hv. unfold denyFirst_compiled. cbn [LookupEgress].
  rewrite !egress_mixed64, !egress_net4 by lia. cbn [ce_allow net4]. unfold private4.
  change (127 * 2 ^ 24 / 2 ^ (32 - 8)) with 127. change (10 * 2 ^ 24 / 2 ^ (32 - 8)) with 10.
  change ((172 * 256 + 16) * 2 ^ 16 / 2 ^ (32 - 12)) with (172 * 16 + 1).
  change ((192 * 256 + 168) * 2 ^ 16 / 2 ^ (32 - 16)) with (192 * 256 + 168).
  change ((169 * 256 + 254) * 2 ^ 16 / 2 ^ (32 - 16)) with (169 * 256 + 254).
  change (32 - 8) with 24. change (32 - 12) with 20. change (32 - 16) with 16. change (32 - 0) with 32.
  rewrite (Z.div_small v (2 ^ 32)), (Z.div_small 0) by lia.
  destruct (v / 2 ^ 24 =? 127); [done|]. destruct (v / 2 ^ 24 =? 10); [done|].
  destruct (v / 2 ^ 20 =? _); [done|]. destruct (v / 2 ^ 16 =? 192 * 256 + 168); [done|].
  by destruct (v / 2 ^ 16 =? _).
Qed.

Lemma denyFirst_lookup6 v z port proto : 0 <= v < 2 ^ 128 ->
  LookupEgress denyFirst_compiled (Addr6 v z) port proto
  = if bool_decide (z = []) then (negb (private6 v), true) else (false, false).
Proof.
  intros Hv. unfold denyFirst_compiled. cbn [LookupEgress].
  rewrite !egress_mixed46, !egress_net6 by lia. cbn [ce_allow net6]. unfold private6.
  change (0xfc00 * 2 ^ 112 / 2 ^ (128 - 7)) with (0xfc / 2).
  change (0xfe80 * 2 ^ 112 / 2 ^ (128 - 10)) with (0xfe80 / 64).
  change (128 - 7) with 121. change (128 - 10) with 118. change (128 - 128) with 0. change (128 - 0) with 128.
  rewrite Z.pow_0_r, !Z.div_1_r, (Z.div_small v (2 ^ 128)), (Z.div_small 0) by lia.
  case_bool_decide; [|done]. cbn [andb].
  destruct (v =? 1); [done|]. destruct (v / 2 ^ 121 =? _); [done|]. by destruct (v / 2 ^ 118 =? _).
Qed.

Lemma parse_builtin : parseDefaultRuleset BuiltinDefaultRuleset
  = Ok [{| pe_key := {| mk_is4 := true; mk_addr := replicate 4 0; mk_mask := replicate 4 0 |}; pe_rule := builtin_file |};
        {| pe_key := {| mk_is4 := false; mk_addr := replicate 16 0; mk_mask := replicate 16 0 |}; pe_rule := builtin_file |}].
Proof. vm_compute. reflexivity. Qed.

Lemma builtin_clean : clean builtin_file.
Proof. split; [constructor|]. apply any_okb_ok. vm_compute. reflexivity. Qed.

Lemma builtin_rules :
  file_rules builtin_file = Ok (newRuleSet [] denyFirst_compiled [] None).
Proof. vm_compute. reflexivity. Qed.

Lemma builtin_lookup d text client :
  CompileDefaultRuleset BuiltinDefaultRuleset = Ok (d, text) -> IsValid client = true ->
  DefaultLookup d client = Some (newRuleSet [] denyFirst_compiled [] None).
Proof.
  intros Hc Hv. apply CompileDefaultRuleset_inv in Hc as (es & all & Hp & _ & Hk & Hd & _).
  rewrite parse_builtin in Hp. apply (inj Ok) in Hp as <-.
  rewrite compileParsedEntries_fresh in Hd; [|done|by repeat (constructor; [apply builtin_clean|])].
  destruct (compileFresh_lookup _ _ _ (kept_keys _ _ Hk) Hd Hv) as (pe & rs & (Hin & _ & _) & Hr & -> & _).
  assert (pe_rule pe = builtin_file) as Hrf.
  { apply elem_of_cons in Hin as [->|[->|?%not_elem_of_nil]%elem_of_cons]; done. }
  rewrite Hrf, builtin_rules in Hr. congruence.
Qed.

(** C26: The built-in table validates, matches no connection, and lets clients
    reach exactly the addresses outside loopback, RFC 1918, unique-local and
    link-local space; a zoned address is never reached.  The unspecified
    addresses 0.0.0.0 and :: are among those allowed. *)
Theorem builtin_default_policy :
  exists d text, CompileDefaultRuleset BuiltinDefaultRuleset = Ok (d, text)
  /\ forall client, IsValid client = true ->
     exists rs, DefaultLookup d client = Some rs
     /\ (forall i, LookupConn rs i = (false, false, false))
     /\ (forall v port proto, 0 <= v < 2 ^ 32 ->
          RuleSet_LookupEgress rs (Addr4 v) port proto = (negb (private4 v), true))
     /\ (forall v zone port proto, 0 <= v < 2 ^ 128 ->
          RuleSet_LookupEgress rs (Addr6 v zone) port proto
          = if bool_decide (zone = []) then (negb (private6 v), true) else (false, false)).
Proof.
  assert (is_ok (CompileDefaultRuleset BuiltinDefaultRuleset) = true) as Hok by (vm_compute; reflexivity).
  destruct (CompileDefaultRuleset BuiltinDefaultRuleset) as [[d text]|] eqn:E; [|done].
  exists d, text. split; [done|]. intros client Hv. eexists. split; [by eapply builtin_lookup|]. split_and!.
  - intros i. unfold LookupConn, firstMatch. simpl. by destruct (appendCandidates _ _).
  - intros v port proto Hr. by apply denyFirst_lookup4.
  - intros v zone port proto Hr. by apply denyFirst_lookup6.
Qed.
End Builtin.

(** ** A table with a sparse mask and a repeated key *)

Section SampleTable.
#[local] Existing Instance no_regex.
#[local] Existing Instance toy_digests.
#[local] Existing Instance ascii_table.

(** A JSON text written with single quotes. *)
Definition json (s : string) : bytes :=
  map (fun c => if Ascii.eqb c "'" then quote else c) (str s).

Definition sample_table : bytes := json "{'0.0.0.0/0':{'uuid':'all','http':[]},'10.0.0.0/255.0.0.0':{'uuid':'old','http':[]},'::/0':{'uuid':'six','http':[]},'10.0.0.7/255.0.0.255':{'uuid':'sparse','http':[],'auth':{'http_proxy':{'broker':{'socket':'/run/b'}}}},'10.0.0.0/8':{'uuid':'ten','http':[{'match':{'host':'a.example'},'request':[{'action':'header.add','params':{'X':'1'}}]}],'egress':[]}}".

Definition the {A} (d : A) (r : result A) : A := match r with Ok a => a | Error _ => d end.

Definition sample_entries : list parsedEntry := Eval vm_compute in the [] (parseDefaultRuleset sample_table).
Definition sample_compiled : DefaultRuleset * bytes :=
  Eval vm_compute in the ({| d_v4 := []; d_v6 := [] |}, []) (CompileDefaultRuleset sample_table).

(** The same table with the uuid of one entry edited. *)
Definition edited_table : bytes := json "{'0.0.0.0/0':{'uuid':'every','http':[]},'::/0':{'uuid':'six','http':[]},'10.0.0.0/8':{'uuid':'ten','http':[{'match':{'host':'a.example'},'request':[{'action':'header.add','params':{'X':'1'}}]}]}}".
Definition edited_entries : list parsedEntry := Eval vm_compute in the [] (parseDefaultRuleset edited_table).

Lemma sample_printable : Forall (fun pe => any_ok (encode_file (pe_rule pe))) sample_entries.
Proof. repeat (constructor; [apply any_okb_ok; vm_compute; reflexivity|]). constructor. Qed.

Lemma edited_printable : Forall (fun pe => any_ok (encode_file (pe_rule pe))) edited_entries.
Proof. repeat (constructor; [apply any_okb_ok; vm_compute; reflexivity|]). constructor. Qed.

(** 10.1.2.7 *)
Definition sample_client : Addr := Addr4 (((10 * 256 + 1) * 256 + 2) * 256 + 7).

Lemma default_lookup_total_witness :
  exists rs, DefaultLookup (fst sample_compiled) sample_client = Some rs.
Proof.
  apply (default_lookup_total sample_table _ (snd sample_compiled)); [vm_compute; reflexivity|reflexivity].
Defined.

Lemma default_lookup_ranked_witness :
  exists pe rs, applies sample_entries sample_client pe /\ file_rules (pe_rule pe) = Ok rs
    /\ DefaultLookup (fst sample_compiled) sample_client = Some rs /\ rs_uuid rs = str "sparse".
Proof.
  destruct (default_lookup_ranked sample_table (fst sample_compiled) (snd sample_compiled) sample_entries sample_client)
    as (pe & rs & Ha & Hr & Hl & _); [vm_compute; reflexivity|vm_compute; reflexivity|exact sample_printable|reflexivity|].
  exists pe, rs. split; [exact Ha|]. split; [exact Hr|]. split; [exact Hl|].
  vm_compute in Hl. injection Hl as <-. reflexivity.
Defined.

Lemma hot_reload_transparent_witness :
  compileParsedEntries edited_entries (Some (fst sample_compiled))
  = (bs ← mapM freshBucket edited_entries; assemble bs).
Proof.
  assert (parseDefaultRuleset sample_table = Ok sample_entries) as H1 by (vm_compute; reflexivity).
  assert (parseDefaultRuleset edited_table = Ok edited_entries) as H2 by (vm_compute; reflexivity).
  apply (hot_reload_transparent edited_entries (Some (fst sample_compiled))).
  - apply (compileFresh_prev_ok sample_entries); [exact (parsed_clean _ _ H1 sample_printable)|vm_compute; reflexivity|].
    intros pe0 pe _ _ H. exact H.
  - exact (parsed_clean _ _ H2 edited_printable).
Defined.

Lemma persisted_table_reloads_witness :
  exists d', CompileDefaultRuleset (snd sample_compiled) = Ok (d', snd sample_compiled)
    /\ DefaultLookup d' sample_client = DefaultLookup (fst sample_compiled) sample_client.
Proof.
  destruct (persisted_table_reloads sample_table (fst sample_compiled) (snd sample_compiled) sample_entries)
    as (d' & Hd & Hl); [vm_compute; reflexivity|vm_compute; reflexivity|exact sample_printable|].
  exists d'. split; [exact Hd|]. apply Hl. reflexivity.
Defined.

Lemma last_duplicate_wins_witness :
  exists all, all_entries sample_table = Ok all /\ length all = 5%nat /\ length sample_entries = 4%nat
    /\ NoDup (map (fun pe => canonical (pe_key pe)) sample_entries).
Proof.
  destruct (last_duplicate_wins sample_table sample_entries) as (all & Hall & Hnd & _); [vm_compute; reflexivity|].
  exists all. split; [exact Hall|]. split; [vm_compute in Hall; injection Hall as <-; reflexivity|].
  split; [reflexivity|exact Hnd].
Defined.

End SampleTable.
