(* ===== verification/Storage.v ===== *)
(** * The state backend (internal/storage/storage.go, posix.go, internal/fsutil)

    [Storage] is what the rule store needs of a backend and [StorageSpec] what
    the interface documents; the POSIX backend implements it over a model of the
    file system, whose atomic replacement is proved crash-safe. *)

From S2P Require Import Prelude GoStrings Json JsonRoundtrip.

Open Scope Z_scope.

(** A backend call: a value, [ErrNotExist], or another error. *)
Inductive sres (A : Type) : Type :=
  | SOk (a : A)
  | SNotExist
  | SFail (msg : string).
Arguments SOk {A} _.
Arguments SNotExist {A}.
Arguments SFail {A} _.

(** [Version]: an opaque change token. *)
Abbreviation Version := bytes.

(** The calls the rule store makes; [W] is the state of the world behind them. *)
Class Storage (W : Type) : Type := {
  Get : W -> bytes -> sres (bytes * Version);
  Stat : W -> bytes -> sres Version;
  Put : W -> bytes -> bytes -> sres unit * W;
  Delete : W -> bytes -> sres unit * W }.

(** What the interface promises.  [evolves] is the world moving on, whoever
    acts; [knows w k v d] says that version [v] of [k] was seen and stands for
    content [d]: two reads return equal versions only if nothing changed.
    [sound] is whatever the backend keeps true of its own state. *)
Class StorageSpec (W : Type) `{ST : Storage W} : Type := {
  evolves : W -> W -> Prop;
  knows : W -> bytes -> Version -> bytes -> Prop;
  sound : W -> Prop;
  sound_evolves w w' : evolves w w' -> sound w -> sound w';
  evolves_refl w : evolves w w;
  evolves_trans w1 w2 w3 : evolves w1 w2 -> evolves w2 w3 -> evolves w1 w3;
  knows_get w k d v : sound w -> Get w k = SOk (d, v) -> knows w k v d;
  knows_agree w k d d' v : knows w k v d -> Get w k = SOk (d', v) -> d' = d;
  knows_evolves w w' k v d : sound w -> evolves w w' -> knows w k v d -> knows w' k v d;
  put_evolves w k d r w' : Put w k d = (r, w') -> evolves w w';
  delete_evolves w k r w' : Delete w k = (r, w') -> evolves w w';
  stat_get w k : match Get w k with
                 | SOk (_, v) => Stat w k = SOk v
                 | SNotExist => Stat w k = SNotExist
                 | SFail _ => exists m, Stat w k = SFail m
                 end;
  get_put w k d w' : Put w k d = (SOk tt, w') -> exists v, Get w' k = SOk (d, v);
  get_put_ne w k k' d r w' : Put w k d = (r, w') -> k' <> k -> Get w' k' = Get w k';
  get_delete w k w' : Delete w k = (SOk tt, w') -> Get w' k = SNotExist }.

(** ** Files *)

(** A regular file: its bytes and modification time. *)
Record file : Type := { f_data : bytes; f_mtime : Z }.

(** The file system under the storage root, by path; [fs_now] is the time the
    last change was stamped with, and [fs_up] whether its calls succeed. *)
Record fs : Type := { fs_files : gmap bytes file; fs_now : Z; fs_up : bool }.

(** The decimal digits of a non-negative number of any size. *)
Definition fmt_d (n : Z) : bytes := digits 10 dec_digit (S (Z.to_nat (Z.log2 n))) n [].

(** [versionOf]: mtime in nanoseconds, a dash, the size. *)
Definition versionOf (f : file) : Version :=
  (fmt_d (f_mtime f) ++ str "-" ++ fmt_d (Z.of_nat (length (f_data f))))%list.

(** *** Writing a file atomically *)

(** The system calls of [WriteFileAtomic], in order; a write may reach the disk
    in pieces. *)
Inductive fs_step : Type :=
  | CreateExcl (path : bytes)
  | Write (path data : bytes)
  | Rename (from to : bytes)
  | Remove (path : bytes).

Definition tick (m : gmap bytes file) (w : fs) : fs :=
  {| fs_files := m; fs_now := fs_now w + 1; fs_up := fs_up w |}.

Definition run_step (w : fs) (s : fs_step) : fs :=
  match s with
  | CreateExcl p => tick (<[p := {| f_data := []; f_mtime := fs_now w + 1 |}]> (fs_files w)) w
  | Write p d =>
      match fs_files w !! p with
      | Some f => tick (<[p := {| f_data := (f_data f ++ d)%list; f_mtime := fs_now w + 1 |}]> (fs_files w)) w
      | None => w
      end
  | Rename a b =>
      match fs_files w !! a with
      | Some f => tick (<[b := f]> (delete a (fs_files w))) w
      | None => w
      end
  | Remove p => tick (delete p (fs_files w)) w
  end.

(** [WriteFileAtomic(path, data)] with temporary name [tmp], the data written
    in the given chunks. *)
Definition WriteFileAtomic (path tmp : bytes) (chunks : list bytes) : list fs_step :=
  ([CreateExcl tmp] ++ map (Write tmp) chunks ++ [Rename tmp path])%list.

Definition run (w : fs) (steps : list fs_step) : fs := foldl run_step w steps.

Lemma run_app w l1 l2 : run w (l1 ++ l2) = run (run w l1) l2.
Proof. apply foldl_app. Qed.

(** Writing chunks to a file that exists appends them, and touches nothing else. *)
Lemma run_writes tmp chunks w f :
  fs_files w !! tmp = Some f ->
  (exists f', fs_files (run w (map (Write tmp) chunks)) !! tmp = Some f'
     /\ f_data f' = (f_data f ++ concat chunks)%list)
  /\ forall p, p <> tmp -> fs_files (run w (map (Write tmp) chunks)) !! p = fs_files w !! p.
Proof.
  revert w f. induction chunks as [|c chunks IH]; intros w f Hf.
  - simpl. split; [|done]. exists f. by rewrite app_nil_r.
  - cbn [map run foldl]. fold (run (run_step w (Write tmp c)) (map (Write tmp) chunks)).
    assert (fs_files (run_step w (Write tmp c))
            = <[tmp := {| f_data := (f_data f ++ c)%list; f_mtime := fs_now w + 1 |}]> (fs_files w)) as Hfiles.
    { simpl. by rewrite Hf. }
    destruct (IH (run_step w (Write tmp c)) {| f_data := (f_data f ++ c)%list; f_mtime := fs_now w + 1 |})
      as [(f' & Hf' & Hd) Hother]; [by rewrite Hfiles, lookup_insert_eq|].
    split.
    + exists f'. split; [done|]. simpl in Hd. by rewrite Hd, <- app_assoc.
    + intros p Hp. by rewrite Hother, Hfiles, lookup_insert_ne by done.
Qed.

(** What is on disk if the machine stops after [n] of the calls. *)
Lemma write_prefix w path tmp chunks n :
  tmp <> path -> (n < length (WriteFileAtomic path tmp chunks))%nat ->
  forall p, p <> tmp -> fs_files (run w (take n (WriteFileAtomic path tmp chunks))) !! p = fs_files w !! p.
Proof.
  intros Hne Hn p Hp. unfold WriteFileAtomic in *. rewrite !length_app, length_map in Hn. simpl in Hn.
  destruct n as [|n]; [done|]. cbn [app take run foldl].
  fold (run (run_step w (CreateExcl tmp)) (take n (map (Write tmp) chunks ++ [Rename tmp path]))).
  rewrite take_app_le by (rewrite length_map; lia). rewrite <- fmap_take.
  set (w1 := run_step w (CreateExcl tmp)).
  destruct (run_writes tmp (take n chunks) w1 {| f_data := []; f_mtime := fs_now w + 1 |}) as [_ Ho];
    [apply lookup_insert_eq|].
  change (fmap (Write tmp) (take n chunks)) with (map (Write tmp) (take n chunks)).
  rewrite Ho by done. subst w1. simpl. by rewrite lookup_insert_ne.
Qed.

Lemma write_full w path tmp chunks :
  tmp <> path ->
  let w' := run w (WriteFileAtomic path tmp chunks) in
  (exists f, fs_files w' !! path = Some f /\ f_data f = concat chunks)
  /\ fs_files w' !! tmp = None
  /\ forall p, p <> tmp -> p <> path -> fs_files w' !! p = fs_files w !! p.
Proof.
  intros Hne w'. subst w'. unfold WriteFileAtomic. rewrite app_assoc, run_app.
  set (w1 := run_step w (CreateExcl tmp)).
  change (run w ([CreateExcl tmp] ++ map (Write tmp) chunks)) with (run w1 (map (Write tmp) chunks)).
  destruct (run_writes tmp chunks w1 {| f_data := []; f_mtime := fs_now w + 1 |}) as [(f & Hf & Hd) Ho];
    [apply lookup_insert_eq|].
  set (w2 := run w1 _) in *. change (run w2 [Rename tmp path]) with (run_step w2 (Rename tmp path)).
  cbn [run_step]. rewrite Hf. cbn [tick fs_files]. split_and!.
  - exists f. by rewrite lookup_insert_eq.
  - by rewrite lookup_insert_ne, lookup_delete_eq by done.
  - intros p Hp Hpath. rewrite lookup_insert_ne, lookup_delete_ne, Ho by done.
    by apply lookup_insert_ne.
Qed.



(** ** The POSIX backend *)

Definition tmp_name (key : bytes) : bytes := (str ".tmp-" ++ key)%list.

Definition io_error {A} : sres A := SFail "storage: posix: input/output error".

Definition posix_Get (w : fs) (key : bytes) : sres (bytes * Version) :=
  if fs_up w then
    match fs_files w !! key with
    | Some f => SOk (f_data f, versionOf f)
    | None => SNotExist
    end
  else io_error.

Definition posix_Stat (w : fs) (key : bytes) : sres Version :=
  if fs_up w then
    match fs_files w !! key with
    | Some f => SOk (versionOf f)
    | None => SNotExist
    end
  else io_error.

(** [Put]: an exclusive create of a name that exists fails. *)
Definition posix_Put (w : fs) (key data : bytes) : sres unit * fs :=
  if fs_up w then
    match fs_files w !! tmp_name key with
    | Some _ => (io_error, w)
    | None => (SOk tt, run w (WriteFileAtomic key (tmp_name key) [data]))
    end
  else (io_error, w).

Definition posix_Delete (w : fs) (key : bytes) : sres unit * fs :=
  if fs_up w then (SOk tt, run w [Remove key]) else (io_error, w).

#[export] Instance posix : Storage fs :=
  {| Get := posix_Get; Stat := posix_Stat; Put := posix_Put; Delete := posix_Delete |}.

(** Anyone may write or delete keys, and the disk may fail and recover. *)
Inductive posix_event : fs -> fs -> Prop :=
  | EvPut w k d : fs_files w !! tmp_name k = None -> posix_event w (run w (WriteFileAtomic k (tmp_name k) [d]))
  | EvDelete w k : posix_event w (run w [Remove k])
  | EvHealth w b : posix_event w {| fs_files := fs_files w; fs_now := fs_now w; fs_up := b |}.

(** No file is stamped with a time to come. *)
Definition fs_wf (w : fs) : Prop :=
  0 <= fs_now w /\ forall k f, fs_files w !! k = Some f -> 0 <= f_mtime f <= fs_now w.

Definition fs_knows (w : fs) (k : bytes) (v : Version) (d : bytes) : Prop :=
  (exists f, v = versionOf f /\ 0 <= f_mtime f <= fs_now w)
  /\ forall f, fs_files w !! k = Some f -> versionOf f = v -> f_data f = d.

Lemma tmp_name_ne k : tmp_name k <> k.
Proof. intros E. apply (f_equal length) in E. unfold tmp_name in E. rewrite length_app in E. simpl in E. lia. Qed.

(** The file a [Put] leaves, with its time stamp. *)
Lemma posix_put_files w k d :
  let w' := run w (WriteFileAtomic k (tmp_name k) [d]) in
  fs_files w' = <[k := {| f_data := d; f_mtime := fs_now w + 2 |}]> (delete (tmp_name k) (fs_files w))
  /\ fs_now w' = fs_now w + 3 /\ fs_up w' = fs_up w.
Proof.
  intros w'. subst w'. unfold WriteFileAtomic. cbn [app map run foldl].
  cbn [run_step fs_files tick fs_now fs_up]. rewrite lookup_insert_eq. cbn [run_step fs_files tick fs_now fs_up f_data app].
  rewrite lookup_insert_eq. cbn [tick fs_files fs_now fs_up]. split_and!; [|lia|done].
  rewrite insert_insert_eq, delete_insert_eq. f_equal. f_equal. lia.
Qed.

Lemma dec_val_fmt_d n : 0 <= n -> dec_val (fmt_d n) = n.
Proof.
  intros Hn. unfold fmt_d.
  assert (n < 10 ^ Z.of_nat (S (Z.to_nat (Z.log2 n)))) as Hlt.
  { rewrite Nat2Z.inj_succ, Z2Nat.id by apply Z.log2_nonneg.
    destruct (Z.eq_dec n 0) as [->|]; [done|]. destruct (Z.log2_spec n ltac:(lia)) as [_ Hl].
    eapply Z.lt_le_trans; [exact Hl|]. apply Z.pow_le_mono_l. lia. }
  destruct (ParseUint_loop_digits n (S (Z.to_nat (Z.log2 n))) n [] 0) as (w & _ & Hstep); [lia..|].
  specialize (Hstep ltac:(lia)). simpl in Hstep. apply ParseUint_loop_val in Hstep.
  unfold dec_val. lia.
Qed.

Lemma fmt_d_no_dash n : 0 <= n -> "-"%char ∉ fmt_d n.
Proof.
  intros Hn Hin. assert (forallb is_digit (fmt_d n) = true) as Hd.
  { apply digits_all; [lia|apply dec_digit_is_digit|done]. }
  rewrite forallb_forall in Hd. apply list_elem_of_In, Hd in Hin. done.
Qed.

Lemma versionOf_mtime f f' :
  0 <= f_mtime f -> 0 <= f_mtime f' -> versionOf f = versionOf f' -> f_mtime f = f_mtime f'.
Proof.
  intros Hf Hf' E. apply (f_equal (Cut "-")) in E. unfold versionOf in E. simpl in E.
  rewrite !Cut_app in E by (by apply fmt_d_no_dash). apply (inj Some) in E. injection E as E _.
  rewrite <- (dec_val_fmt_d (f_mtime f)), <- (dec_val_fmt_d (f_mtime f')) by done. by rewrite E.
Qed.

Lemma event_now w w' : posix_event w w' -> fs_now w <= fs_now w'.
Proof.
  destruct 1; [|cbn; lia..]. destruct (posix_put_files w k d) as (_ & -> & _). lia.
Qed.

Lemma event_wf w w' : posix_event w w' -> fs_wf w -> fs_wf w'.
Proof.
  intros He [H0 Hwf]. split; [apply event_now in He; lia|]. destruct He as [w k d Ht|w k|w b].
  - destruct (posix_put_files w k d) as (Hf & Hn & _). intros k' f. rewrite Hf, Hn.
    intros [[-> <-]|[_ [_ Hl]%lookup_delete_Some]]%lookup_insert_Some; [simpl; lia|]. apply Hwf in Hl. lia.
  - intros k' f. cbn. intros [_ Hl]%lookup_delete_Some. apply Hwf in Hl. lia.
  - exact Hwf.
Qed.

Lemma event_knows w w' k v d : fs_wf w -> posix_event w w' -> fs_knows w k v d -> fs_knows w' k v d.
Proof.
  intros [H0 Hwf] He [(f0 & -> & Hr) Hk]. pose proof (event_now _ _ He). split; [exists f0; split; [done|lia]|].
  destruct He as [w k' d' Ht|w k'|w b]; [| |exact Hk].
  - destruct (posix_put_files w k' d') as (Hf & _ & _). intros f. rewrite Hf.
    intros [[-> <-]|[_ [_ Hl]%lookup_delete_Some]]%lookup_insert_Some Hv; [|by apply Hk].
    apply versionOf_mtime in Hv; simpl in *; lia.
  - intros f. cbn. intros [_ Hl]%lookup_delete_Some. by apply Hk.
Qed.

Lemma events_wf w w' : rtc posix_event w w' -> fs_wf w -> fs_wf w'.
Proof. induction 1; eauto using event_wf. Qed.

Lemma events_knows w w' k v d :
  fs_wf w -> rtc posix_event w w' -> fs_knows w k v d -> fs_knows w' k v d.
Proof. intros Hwf He. induction He; eauto using event_wf, event_knows. Qed.

(** The POSIX backend keeps the interface's promises. *)
#[export] Program Instance posix_spec : StorageSpec fs := {|
  evolves := rtc posix_event; knows := fs_knows; sound := fs_wf |}.
Next Obligation. intros. by apply events_wf in H. Qed.
Next Obligation. intros w. apply rtc_refl. Qed.
Next Obligation. intros. by etrans. Qed.
Next Obligation.
  intros w k d v [_ Hwf]. simpl. unfold posix_Get. destruct (fs_up w); [|done].
  destruct (fs_files w !! k) as [f|] eqn:E; [|done]. intros [= <- <-]. split; [exists f; eauto|].
  intros f' Hf' _. congruence.
Qed.
Next Obligation.
  intros w k d d' v [_ Hk]. simpl. unfold posix_Get. destruct (fs_up w); [|done].
  destruct (fs_files w !! k) as [f|] eqn:E; [|done]. intros [= <- Hv]. by apply Hk.
Qed.
Next Obligation. intros. by eapply events_knows. Qed.
Next Obligation.
  intros w k d r w'. simpl. unfold posix_Put. destruct (fs_up w); [|by intros [= _ <-]; apply rtc_refl].
  destruct (fs_files w !! tmp_name k) eqn:E; intros [= _ <-]; [apply rtc_refl|]. by apply rtc_once, EvPut.
Qed.
Next Obligation.
  intros w k r w'. simpl. unfold posix_Delete. destruct (fs_up w); intros [= _ <-]; [|apply rtc_refl].
  apply rtc_once, EvDelete.
Qed.
Next Obligation.
  intros w k. simpl. unfold posix_Stat, posix_Get. destruct (fs_up w); [|by eexists]. by destruct (fs_files w !! k).
Qed.
Next Obligation.
  intros w k d w'. simpl. unfold posix_Put, posix_Get. destruct (fs_up w) eqn:Eu; [|done].
  destruct (fs_files w !! tmp_name k) eqn:E; [done|]. intros Hp.
  assert (w' = run w (WriteFileAtomic k (tmp_name k) [d])) as -> by congruence.
  destruct (posix_put_files w k d) as (-> & _ & ->). rewrite Eu, lookup_insert_eq. by eexists.
Qed.
Next Obligation.
  intros w k k' d r w' Hp Hne. revert Hp. simpl. unfold posix_Put, posix_Get.
  destruct (fs_up w) eqn:Eu; [|intros [= _ <-]; by rewrite Eu].
  destruct (fs_files w !! tmp_name k) eqn:E; [intros [= _ <-]; by rewrite Eu|]. intros Hp.
  assert (w' = run w (WriteFileAtomic k (tmp_name k) [d])) as -> by congruence.
  destruct (posix_put_files w k d) as (-> & _ & ->). rewrite Eu, lookup_insert_ne by done.
  destruct (decide (k' = tmp_name k)) as [->|]; [by rewrite lookup_delete_eq, E|by rewrite lookup_delete_ne].
Qed.
Next Obligation.
  intros w k w'. simpl. unfold posix_Delete, posix_Get. destruct (fs_up w) eqn:E; [|done].
  intros [= <-]. cbn. by rewrite E, lookup_delete_eq.
Qed.
