(* ===== verification/Engine.v ===== *)
(** * The rule store and the rule engine (internal/rules/store.go, engine.go)

    A lookup passes the engine's caches and the storage world through every
    call the code makes, failures included.  Logging, metrics and tracing are
    left out; [time.Now] is an argument and [uuid.NewString] a numbered source. *)

From S2P Require Import Prelude GoStrings Netip Json JsonRoundtrip Encoding Schema JsonRules Matcher.
From S2P Require Import Compile HostIndex Egress Auth RuleSet MaskedKey DefaultRuleset DefaultTable Storage.

Open Scope Z_scope.

#[export] Instance Addr_eq_dec : EqDecision Addr.
Proof. solve_decision. Defined.

#[export] Instance Addr_countable : Countable Addr.
Proof.
  refine (inj_countable'
    (fun a => match a with AddrZero => inl tt | Addr4 v => inr (inl v) | Addr6 v z => inr (inr (v, z)) end)
    (fun x => match x with inl _ => AddrZero | inr (inl v) => Addr4 v | inr (inr (v, z)) => Addr6 v z end) _).
  by intros [].
Defined.

(** Fresh identifiers: [uuid.NewString] returns hexadecimal digits and dashes. *)
Class UUIDSource : Type := {
  newUUID : nat -> bytes;
  newUUID_ne n : newUUID n <> [];
  newUUID_ascii n : Forall (fun c => is_ascii c = true) (newUUID n) }.

(** ** The store *)

Definition ipPrefix : bytes := str "rules/ip/".
Definition defaultKey : bytes := str "rules/default".

Section Store.
Context `{DG : Digests} {W : Type} `{ST : Storage W}.

(** [keyFor]. *)
Definition keyFor (client : Addr) : bytes :=
  (ipPrefix ++ hex_encode (sha1 (AddrString client)) ++ str ".json")%list.

(** [RuleStore.Load]: a missing file is an empty one. *)
Definition Load (w : W) (client : Addr) : result RuleFile :=
  match Get w (keyFor client) with
  | SNotExist => Ok zero_file
  | SFail e => Error e
  | SOk (data, _) => wrap "rules: parse" (Unmarshal_RuleFile data)
  end.

(** [loadRaw]: no bytes for a missing key. *)
Definition loadRaw (w : W) (key : bytes) : result bytes :=
  match Get w key with
  | SNotExist => Ok []
  | SFail e => Error e
  | SOk (data, _) => Ok data
  end.

(** [stat]: the version and whether the key exists. *)
Definition stat (w : W) (key : bytes) : result (Version * bool) :=
  match Stat w key with
  | SNotExist => Ok ([], false)
  | SFail e => Error e
  | SOk v => Ok (v, true)
  end.

(** [Save], [SaveDefault] and [Delete]. *)
Definition Save (w : W) (client : Addr) (data : bytes) : sres unit * W := Put w (keyFor client) data.
Definition SaveDefault (w : W) (data : bytes) : sres unit * W := Put w defaultKey data.
Definition DeleteRules (w : W) (client : Addr) : sres unit * W := Delete w (keyFor client).

(** [EnsureDefault]: seeds the built-in table when there is none. *)
Definition EnsureDefault (w : W) : result unit * W :=
  match stat w defaultKey with
  | Error e => (Error e, w)
  | Ok (_, true) => (Ok tt, w)
  | Ok (_, false) =>
      match SaveDefault w BuiltinDefaultRuleset with
      | (SOk _, w') => (Ok tt, w')
      | (SNotExist, w') => (Error "storage: key does not exist", w')
      | (SFail e, w') => (Error e, w')
      end
  end.
End Store.

(** ** The engine *)

Section Engine.
Context `{RE : RegexEngine} `{DG : Digests} `{UT : UnicodeTable} `{US : UUIDSource}.
Context {W : Type} `{ST : Storage W}.

Record cachedRuleSet : Type := {
  cr_checkedAt : Z;
  cr_version : Version;
  cr_exists : bool;
  cr_ruleSet : option RuleSet;
  cr_contentHash : bytes }.

Record cachedDefault : Type := {
  cd_checkedAt : Z;
  cd_version : Version;
  cd_exists : bool;
  cd_ruleset : option DefaultRuleset }.

Record RuleEngine : Type := {
  e_cacheTTL : Z;
  e_cache : gmap Addr cachedRuleSet;
  e_defaultCache : option cachedDefault;
  e_uuids : nat }.

(** [NewRuleEngine] with [WithCacheTTL]. *)
Definition NewRuleEngine (ttl : Z) : RuleEngine :=
  {| e_cacheTTL := ttl; e_cache := ∅; e_defaultCache := None; e_uuids := 0 |}.

Definition set_cache (e : RuleEngine) (client : Addr) (c : cachedRuleSet) : RuleEngine :=
  {| e_cacheTTL := e_cacheTTL e; e_cache := <[client := c]> (e_cache e);
     e_defaultCache := e_defaultCache e; e_uuids := e_uuids e |}.
Definition set_default (e : RuleEngine) (c : cachedDefault) : RuleEngine :=
  {| e_cacheTTL := e_cacheTTL e; e_cache := e_cache e; e_defaultCache := Some c; e_uuids := e_uuids e |}.
Definition set_uuids (e : RuleEngine) (n : nat) : RuleEngine :=
  {| e_cacheTTL := e_cacheTTL e; e_cache := e_cache e; e_defaultCache := e_defaultCache e; e_uuids := n |}.

(** Results of calls that change the engine and the world. *)
Definition call (A : Type) : Type := (result A * RuleEngine * W)%type.

(** [fresh]. *)
Definition fresh (e : RuleEngine) (now checkedAt : Z) : bool :=
  (0 <? e_cacheTTL e) && (now - checkedAt <? e_cacheTTL e).

Definition with_uuid (rf : RuleFile) (uuid : bytes) : RuleFile :=
  {| rf_UUID := uuid; rf_Auth := rf_Auth rf; rf_HTTP := rf_HTTP rf; rf_Egress := rf_Egress rf |}.

(** The minting loop over the entries of the default table. *)
Fixpoint mintEntries (n : nat) (entries : list parsedEntry) : list parsedEntry * nat :=
  match entries with
  | [] => ([], n)
  | pe :: t =>
      if bool_decide (rf_UUID (pe_rule pe) = []) then
        let '(t', n') := mintEntries (S n) t in
        ({| pe_key := pe_key pe; pe_rule := with_uuid (pe_rule pe) (newUUID n) |} :: t', n')
      else let '(t', n') := mintEntries n t in (pe :: t', n')
  end.

(** Persisting a minted document and restating its key; the version and
    existence are kept when the write or the stat fails. *)
Definition persist (w : W) (key data : bytes) (version : Version) (exists_ : bool) : Version * bool * W :=
  match Put w key data with
  | (SOk _, w') =>
      match stat w' key with
      | Ok (v, ex) => (v, ex, w')
      | Error _ => (version, exists_, w')
      end
  | (_, w') => (version, exists_, w')
  end.

(** The part of [lookupDefaultTable] that reads and compiles the blob. *)
Definition reloadDefault (e : RuleEngine) (w : W) (now : Z) (version : Version) (exists_ : bool)
  : call (option DefaultRuleset) :=
  match loadRaw w defaultKey with
  | Error m => (Error m, e, w)
  | Ok raw =>
      match parseDefaultRuleset raw with
      | Error m => (Error m, e, w)
      | Ok entries =>
          let '(entries', n) := mintEntries (e_uuids e) entries in
          let minted := negb (n =? e_uuids e)%nat in
          let '(version, exists_, w) :=
            if minted then persist w defaultKey (marshalCanonical entries') version exists_
            else (version, exists_, w) in
          let prev := e_defaultCache e ≫= cd_ruleset in
          let e := set_uuids e n in
          match compileParsedEntries entries' prev with
          | Error m => (Error m, e, w)
          | Ok compiled =>
              (Ok (Some compiled),
               set_default e {| cd_checkedAt := now; cd_version := version; cd_exists := exists_;
                                cd_ruleset := Some compiled |}, w)
          end
      end
  end.

(** [cached != nil && cached.version == version && cached.exists == exists]. *)
Definition default_hit (cached : option cachedDefault) (version : Version) (exists_ : bool) : option cachedDefault :=
  match cached with
  | Some c => if bool_decide (cd_version c = version) && Bool.eqb (cd_exists c) exists_ then Some c else None
  | None => None
  end.

(** [lookupDefaultTable] once the cached table is not fresh. *)
Definition confirmDefault (e : RuleEngine) (w : W) (now : Z) : call (option DefaultRuleset) :=
  match stat w defaultKey with
  | Error m =>
      match e_defaultCache e with
      | Some c => if 0 <? e_cacheTTL e then (Ok (cd_ruleset c), e, w) else (Error m, e, w)
      | None => (Error m, e, w)
      end
  | Ok (version, exists_) =>
      match default_hit (e_defaultCache e) version exists_ with
      | Some c =>
          (Ok (cd_ruleset c),
           set_default e {| cd_checkedAt := now; cd_version := version; cd_exists := exists_;
                            cd_ruleset := cd_ruleset c |}, w)
      | None =>
          if negb exists_ then
            (Ok None, set_default e {| cd_checkedAt := now; cd_version := version; cd_exists := false;
                                       cd_ruleset := None |}, w)
          else reloadDefault e w now version exists_
      end
  end.

(** [lookupDefaultTable]. *)
Definition lookupDefaultTable (e : RuleEngine) (w : W) (now : Z) : call (option DefaultRuleset) :=
  match e_defaultCache e with
  | Some c => if fresh e now (cd_checkedAt c) then (Ok (cd_ruleset c), e, w) else confirmDefault e w now
  | None => confirmDefault e w now
  end.

(** The bucket of the default table that covers a client, if any. *)
Definition defaultFor (def : option DefaultRuleset) (client : Addr) : option RuleSet :=
  def ≫= fun d => DefaultLookup d client.

(** [resolveClientCache]: the override's rules, or the default table's. *)
Definition resolveClientCache (e : RuleEngine) (w : W) (now : Z) (client : Addr) (c : cachedRuleSet)
  : call RuleSet :=
  if cr_exists c then (Ok (default emptyRuleSet (cr_ruleSet c)), e, w)
  else
    match lookupDefaultTable e w now with
    | (Error m, e, w) => (Error m, e, w)
    | (Ok def, e, w) => (Ok (default emptyRuleSet (defaultFor def client)), e, w)
    end.

(** [resolveEgress]: the file's own list when the key is present, else the
    list of the client's default bucket. *)
Definition resolveEgress (e : RuleEngine) (w : W) (now : Z) (client : Addr) (rf : RuleFile)
  : call (list CompiledEgress) :=
  match rf_Egress rf with
  | Some l => (CompileEgress l, e, w)
  | None =>
      match lookupDefaultTable e w now with
      | (Error m, e, w) => (Error m, e, w)
      | (Ok def, e, w) => (Ok (default [] (rs_egress <$> defaultFor def client)), e, w)
      end
  end.

(** The minting step of [lookupIP]: a file without an identity gets one, which
    is written back as far as the store allows. *)
Definition mintFile (e : RuleEngine) (w : W) (client : Addr) (rf : RuleFile) (version : Version)
  : RuleFile * Version * RuleEngine * W :=
  if bool_decide (rf_UUID rf = []) then
    let rf := with_uuid rf (newUUID (e_uuids e)) in
    let '(version, _, w) := persist w (keyFor client) (Marshal_RuleFile rf) version true in
    (rf, version, set_uuids e (S (e_uuids e)), w)
  else (rf, version, e, w).

(** [lookupIP]: load, mint an identity, reuse or compile, remember. *)
Definition lookupIP (e : RuleEngine) (w : W) (now : Z) (client : Addr) (version : Version)
    (prevCache : option cachedRuleSet) : call RuleSet :=
  match Load w client with
  | Error m => (Error m, e, w)
  | Ok rf =>
      let '(rf, version, e, w) := mintFile e w client rf version in
      let hash := sha256 (Marshal_RuleFile rf) in
      let entry rs := {| cr_checkedAt := now; cr_version := version; cr_exists := true;
                         cr_ruleSet := Some rs; cr_contentHash := hash |} in
      let reused := match prevCache with
                    | Some c => if cr_exists c && bool_decide (hash = cr_contentHash c) then cr_ruleSet c else None
                    | None => None
                    end in
      match reused with
      | Some rs => (Ok rs, set_cache e client (entry rs), w)
      | None =>
          match CompileAuth (rf_Auth rf) with
          | Error m => (Error m, e, w)
          | Ok auth =>
              match Compile rf with
              | Error m => (Error m, e, w)
              | Ok compiled =>
                  match resolveEgress e w now client rf with
                  | (Error m, e, w) => (Error m, e, w)
                  | (Ok egress, e, w) =>
                      let rs := newRuleSet compiled egress (rf_UUID rf) auth in
                      (Ok rs, set_cache e client (entry rs), w)
                  end
              end
          end
      end
  end.

(** [hasCache && cached.version == version && cached.exists == exists]. *)
Definition client_hit (cached : option cachedRuleSet) (version : Version) (exists_ : bool) : option cachedRuleSet :=
  match cached with
  | Some c => if bool_decide (cr_version c = version) && Bool.eqb (cr_exists c) exists_ then Some c else None
  | None => None
  end.

(** [touchClientCache]. *)
Definition touched (c : cachedRuleSet) (now : Z) : cachedRuleSet :=
  {| cr_checkedAt := now; cr_version := cr_version c; cr_exists := cr_exists c;
     cr_ruleSet := cr_ruleSet c; cr_contentHash := cr_contentHash c |}.

(** The entry of a client without an override. *)
Definition absent (version : Version) (now : Z) : cachedRuleSet :=
  {| cr_checkedAt := now; cr_version := version; cr_exists := false; cr_ruleSet := None; cr_contentHash := [] |}.

(** [Lookup] once the cached entry is not fresh. *)
Definition confirmClient (e : RuleEngine) (w : W) (now : Z) (client : Addr) : call RuleSet :=
  let cached := e_cache e !! client in
  match stat w (keyFor client) with
  | Error m =>
      match cached with
      | Some c => if 0 <? e_cacheTTL e then resolveClientCache e w now client c else (Error m, e, w)
      | None => (Error m, e, w)
      end
  | Ok (version, exists_) =>
      match client_hit cached version exists_ with
      | Some c => resolveClientCache (set_cache e client (touched c now)) w now client c
      | None =>
          if negb exists_ then
            resolveClientCache (set_cache e client (absent version now)) w now client (absent version now)
          else lookupIP e w now client version cached
      end
  end.

(** [Lookup]. *)
Definition Lookup (e : RuleEngine) (w : W) (now : Z) (client : Addr) : call RuleSet :=
  match e_cache e !! client with
  | Some c => if fresh e now (cr_checkedAt c) then resolveClientCache e w now client c
              else confirmClient e w now client
  | None => confirmClient e w now client
  end.

End Engine.
