(* ===== verification/EngineCorrect.v ===== *)
(** * What the rule engine promises

    Whatever is cached came from the store, a lookup without a cache TTL follows
    the stored documents, and storage failures close access. *)

From S2P Require Import Prelude GoStrings Netip Json JsonRoundtrip Encoding Schema JsonRules Matcher.
From S2P Require Import Compile HostIndex Egress Auth RuleSet MaskedKey DefaultRuleset DefaultTable Storage Engine.

Open Scope Z_scope.

Section EngineCorrect.
Context `{RE : RegexEngine} `{DG : Digests} `{UT : UnicodeTable} `{US : UUIDSource}.
Context {W : Type} `{SS : StorageSpec W}.

(** SHA-256 does not collide on rule documents. *)
Definition no_collisions : Prop := forall rf rf',
  sha256 (Marshal_RuleFile rf) = sha256 (Marshal_RuleFile rf') -> Marshal_RuleFile rf = Marshal_RuleFile rf'.

(** ** Documents *)

(** A document with an identity: its own, or a minted one. *)
Definition minted_file (rf rf' : RuleFile) : Prop :=
  (rf_UUID rf <> [] /\ rf' = rf) \/ (rf_UUID rf = [] /\ exists n, rf' = with_uuid rf (newUUID n)).

Definition minted_entry (pe pe' : parsedEntry) : Prop :=
  pe_key pe' = pe_key pe /\ minted_file (pe_rule pe) (pe_rule pe').

Lemma with_uuid_clean rf n : clean rf -> clean (with_uuid rf (newUUID n)).
Proof.
  intros [Hs Hok]. split; [done|]. revert Hok. unfold encode_file.
  cbn [with_uuid rf_UUID rf_Auth rf_HTTP rf_Egress]. rewrite !any_ok_member.
  intros (_ & Ha & Hh & He). split_and!; [|done..]. unfold is_nil.
  destruct (newUUID n) as [|c u] eqn:E; [by destruct (newUUID_ne n)|]. rewrite <- E. rewrite any_ok_member1.
  split; [apply utf8_ascii; by repeat constructor|constructor; apply utf8_ascii, newUUID_ascii].
Qed.

Lemma minted_clean rf rf' : minted_file rf rf' -> clean rf -> clean rf'.
Proof. intros [[_ ->]|[_ [n ->]]] Hc; [done|]. by apply with_uuid_clean. Qed.

Lemma minted_uuid rf rf' : minted_file rf rf' -> rf_UUID rf' <> [].
Proof. intros [[? ->]|[_ [n ->]]]; [done|]. apply newUUID_ne. Qed.

Lemma mintEntries_minted n entries entries' n' :
  mintEntries n entries = (entries', n') ->
  Forall2 minted_entry entries entries' /\ (n <= n')%nat /\ (n' = n -> entries' = entries).
Proof.
  revert n entries' n'. induction entries as [|pe l IH]; intros n entries' n' H; simpl in H.
  - simplify_eq. split_and!; [constructor|lia|done].
  - case_bool_decide as Hu.
    + destruct (mintEntries (S n) l) as [l' m] eqn:E. simplify_eq.
      destruct (IH _ _ _ E) as (HF & Hle & _). split_and!; [|lia|lia].
      constructor; [|done]. split; [done|]. right. split; [done|]. by exists n.
    + destruct (mintEntries n l) as [l' m] eqn:E. simplify_eq.
      destruct (IH _ _ _ E) as (HF & Hle & Heq). split_and!; [|lia|intros; f_equal; auto].
      constructor; [|done]. split; [done|]. by left.
Qed.

Lemma minted_keys entries entries' :
  Forall2 minted_entry entries entries' -> map pe_key entries' = map pe_key entries.
Proof. induction 1 as [|pe pe' l l' [Hk _] _ IH]; [done|]. simpl. by rewrite Hk, IH. Qed.

Lemma minted_entries_clean entries entries' :
  Forall2 minted_entry entries entries' -> Forall (fun pe => clean (pe_rule pe)) entries ->
  Forall (fun pe => clean (pe_rule pe)) entries'.
Proof.
  induction 1 as [|pe pe' l l' [_ Hm] _ IH]; intros Hc; [constructor|].
  inversion_clear Hc. constructor; [by eapply minted_clean|auto].
Qed.

(** Documents whose strings and numbers survive printing. *)
Definition file_printable (data : bytes) : Prop :=
  forall rf, Unmarshal_RuleFile data = Ok rf -> any_ok (encode_file rf).
Definition table_printable (data : bytes) : Prop :=
  forall entries, parseDefaultRuleset data = Ok entries ->
  Forall (fun pe => any_ok (encode_file (pe_rule pe))) entries.

Definition default_printable (w : W) : Prop :=
  forall data v, Get w defaultKey = SOk (data, v) -> table_printable data.

Definition world_printable (w : W) : Prop :=
  (forall client data v, Get w (keyFor client) = SOk (data, v) -> file_printable data)
  /\ default_printable w.

Lemma Unmarshal_clean data rf : file_printable data -> Unmarshal_RuleFile data = Ok rf -> clean rf.
Proof.
  intros Hp Hu. split; [|by apply Hp]. unfold Unmarshal_RuleFile in Hu.
  apply result_bind_ok in Hu as (v & _ & Hd). by eapply decode_file_sorted.
Qed.

(** The table a stored blob stands for, up to the identities minted on load and
    the order of its buckets. *)
Definition table_ok (data : bytes) (d : DefaultRuleset) : Prop :=
  exists entries entries' d0, parseDefaultRuleset data = Ok entries
    /\ Forall2 minted_entry entries entries' /\ compileFresh entries' = Ok d0
    /\ forall client, IsValid client = true -> DefaultLookup d client = DefaultLookup d0 client.

(** What the blob said at some time. *)
Definition past_table (w : W) (d : DefaultRuleset) : Prop :=
  exists v data, knows w defaultKey v data /\ table_ok data d.

(** An inherited egress list: empty, or a past default bucket's. *)
Definition inherited (w : W) (client : Addr) (egress : list CompiledEgress) : Prop :=
  egress = [] \/ exists d rs, past_table w d /\ DefaultLookup d client = Some rs /\ egress = rs_egress rs.

(** The egress of an override: its own list, or an inherited one. *)
Definition egress_ok (w : W) (client : Addr) (rf : RuleFile) (egress : list CompiledEgress) : Prop :=
  match rf_Egress rf with
  | Some (x :: l) => CompileEgress (x :: l) = Ok egress
  | _ => inherited w client egress
  end.

(** The rules an override file stands for. *)
Definition override_rules (w : W) (client : Addr) (rf : RuleFile) (rs : RuleSet) : Prop :=
  exists auth compiled egress, CompileAuth (rf_Auth rf) = Ok auth /\ Compile rf = Ok compiled
    /\ rs = newRuleSet compiled egress (rf_UUID rf) auth /\ egress_ok w client rf egress.

Definition override_ok (w : W) (client : Addr) (data : bytes) (rs : RuleSet) (hash : bytes) : Prop :=
  exists rf rf', Unmarshal_RuleFile data = Ok rf /\ minted_file rf rf' /\ clean rf'
    /\ hash = sha256 (Marshal_RuleFile rf') /\ override_rules w client rf' rs.

(** ** The caches *)

Definition buckets_ok (d : DefaultRuleset) : Prop :=
  forall b, b ∈ (d_v4 d ++ d_v6 d)%list ->
  exists rf, clean rf /\ file_rules rf = Ok (cb_rules b) /\ cb_contentHash b = sha256 (Marshal_RuleFile rf).

Definition entry_ok (w : W) (client : Addr) (c : cachedRuleSet) : Prop :=
  cr_exists c = true ->
  exists data rs, cr_ruleSet c = Some rs /\ knows w (keyFor client) (cr_version c) data
    /\ override_ok w client data rs (cr_contentHash c).

Definition default_ok (w : W) (c : cachedDefault) : Prop :=
  match cd_ruleset c with
  | Some d => (exists data, knows w defaultKey (cd_version c) data /\ table_ok data d) /\ buckets_ok d
      /\ cd_exists c = true
  | None => cd_exists c = false
  end.

Definition engine_ok (e : RuleEngine) (w : W) : Prop :=
  map_Forall (entry_ok w) (e_cache e) /\ (forall c, e_defaultCache e = Some c -> default_ok w c).

Lemma past_table_evolves w w' d : sound w -> evolves w w' -> past_table w d -> past_table w' d.
Proof. intros Hs He (v & data & Hk & Ht). exists v, data. split; [by eapply knows_evolves|done]. Qed.

Lemma egress_ok_evolves w w' client rf egress :
  sound w -> evolves w w' -> egress_ok w client rf egress -> egress_ok w' client rf egress.
Proof.
  intros Hs He. assert (inherited w client egress -> inherited w' client egress) as Hi.
  { intros [->|(d & rs & Hp & Hl)]; [by left|]. right. exists d, rs. split; [by eapply past_table_evolves|done]. }
  unfold egress_ok. by destruct (rf_Egress rf) as [[|]|]; auto.
Qed.

Lemma override_ok_evolves w w' client data rs hash :
  sound w -> evolves w w' -> override_ok w client data rs hash -> override_ok w' client data rs hash.
Proof.
  intros Hs He (rf & rf' & Hu & Hm & Hc & Hh & auth & comp & eg & Ha & Hco & Hr & Heg).
  exists rf, rf'. split_and!; try done. exists auth, comp, eg. split_and!; try done. by eapply egress_ok_evolves.
Qed.

Lemma entry_ok_evolves w w' client c : sound w -> evolves w w' -> entry_ok w client c -> entry_ok w' client c.
Proof.
  intros Hs He Hc Hx. destruct (Hc Hx) as (data & rs & Hr & Hk & Ho). exists data, rs.
  split_and!; [done|by eapply knows_evolves|by eapply override_ok_evolves].
Qed.

Lemma default_ok_evolves w w' c : sound w -> evolves w w' -> default_ok w c -> default_ok w' c.
Proof.
  intros Hs He. unfold default_ok. destruct (cd_ruleset c); [|done].
  intros [(data & Hk & Ht) Hb]. split; [|done]. exists data. split; [|done]. by eapply knows_evolves.
Qed.

Lemma engine_ok_evolves e w w' : sound w -> evolves w w' -> engine_ok e w -> engine_ok e w'.
Proof.
  intros Hs He [Hc Hd]. split.
  - intros client c Hl. eapply entry_ok_evolves; [done..|by apply Hc].
  - intros c Hl. eapply default_ok_evolves; [done..|by apply Hd].
Qed.

(** ** Storage calls *)

Lemma stat_spec w key :
  match Get w key with
  | SOk (_, v) => stat w key = Ok (v, true)
  | SNotExist => stat w key = Ok ([], false)
  | SFail _ => exists m, stat w key = Error m
  end.
Proof. unfold stat. pose proof (stat_get w key) as H. destruct (Get w key) as [[]| |]; [by rewrite H..|]. destruct H as [m ->]. by exists m. Qed.

Lemma stat_true w key v : stat w key = Ok (v, true) -> exists data, Get w key = SOk (data, v).
Proof. pose proof (stat_spec w key) as H. destruct (Get w key) as [[d v']| |]; [| |destruct H as [m H]]; rewrite H; intros E; simplify_eq. by exists d. Qed.

Lemma stat_false w key v : stat w key = Ok (v, false) -> Get w key = SNotExist.
Proof. pose proof (stat_spec w key) as H. destruct (Get w key) as [[d v']| |]; [| |destruct H as [m H]]; rewrite H; intros E; by simplify_eq. Qed.

Lemma persist_spec w key data version ex v' ex' w' :
  persist w key data version ex = (v', ex', w') ->
  evolves w w' /\ (forall k, k <> key -> Get w' k = Get w k)
  /\ ((v' = version /\ ex' = ex) \/ (Get w' key = SOk (data, v') /\ ex' = true)).
Proof.
  unfold persist. destruct (Put w key data) as [r w1] eqn:Ep. pose proof (put_evolves _ _ _ _ _ Ep) as He.
  assert (forall k, k <> key -> Get w1 k = Get w k) as Hne by (intros; by eapply get_put_ne).
  destruct r as [[]| |]; intros H; [|simplify_eq; split_and!; try done; by left..].
  destruct (get_put _ _ _ _ Ep) as [v Hv]. pose proof (stat_spec w1 key) as Hs. rewrite Hv in Hs.
  rewrite Hs in H. simplify_eq. split_and!; [done|done|by right].
Qed.

Lemma keyFor_ne client : keyFor client <> defaultKey.
Proof. unfold keyFor, ipPrefix, defaultKey. simpl. discriminate. Qed.

(** ** The default table *)

Lemma buckets_prev_ok entries prev :
  no_collisions -> (forall d, prev = Some d -> buckets_ok d) -> prev_ok entries prev.
Proof.
  intros Hnc Hb d b -> Hin. destruct (Hb d eq_refl b Hin) as (rf & Hc & Hr & Hh).
  exists rf. split_and!; [done..|]. intros pe _. apply Hnc.
Qed.

Lemma fresh_buckets_ok entries d :
  Forall (fun pe => clean (pe_rule pe)) entries -> compileFresh entries = Ok d -> buckets_ok d.
Proof.
  intros Hcl Hd b Hb.
  destruct (compileFresh_prev_ok entries [] d Hcl Hd) with (d := d) (b := b) as (rf & Hc & Hr & Hh & _); [|done|done|eauto].
  intros pe0 pe _ H. by apply not_elem_of_nil in H.
Qed.

(** A table written back with its minted identities still stands for itself. *)
Lemma table_ok_written entries d :
  keys_ok entries -> Forall (fun pe => clean (pe_rule pe)) entries ->
  Forall (fun pe => rf_UUID (pe_rule pe) <> []) entries -> compileFresh entries = Ok d ->
  table_ok (marshalCanonical entries) d.
Proof.
  intros Hk Hcl Hu Hd. pose proof Hk as [Hwf Hnd].
  destruct (parse_written entries Hwf Hnd Hcl) as (es & Hp & Hparse & _).
  destruct (compileFresh_same restore (fun _ => eq_refl) restore_rules _ _ _ Hwf Hp Hd) as [d0 Hd0].
  exists (map restore es), (map restore es), d0. split_and!; [done| |done|].
  - rewrite Hp in Hu. clear -Hu. induction Hu as [|pe l Hpe _ IH]; constructor; [|done].
    split; [done|]. by left.
  - intros client Hv. symmetry.
    exact (same_lookup restore (fun _ => eq_refl) restore_rules _ _ _ _ client Hk Hp Hd Hd0 Hv).
Qed.

(** What a call leaves behind. *)
Record leaves (e : RuleEngine) (w : W) (e' : RuleEngine) (w' : W) : Prop := {
  lv_ok : engine_ok e' w';
  lv_evolves : evolves w w';
  lv_ttl : e_cacheTTL e' = e_cacheTTL e }.

Lemma leaves_same e w : engine_ok e w -> leaves e w e w.
Proof. intros H. split; try done. apply evolves_refl. Qed.

Lemma set_default_ok e w c : engine_ok e w -> default_ok w c -> engine_ok (set_default e c) w.
Proof. intros [Hc _] Hd. split; [done|]. by intros c' [= <-]. Qed.

Lemma reloadDefault_ok e w now version r e' w' data :
  no_collisions -> sound w -> engine_ok e w -> table_printable data ->
  Get w defaultKey = SOk (data, version) -> reloadDefault e w now version true = (r, e', w') ->
  leaves e w e' w' /\ forall o, r = Ok o -> exists d, o = Some d /\ table_ok data d.
Proof.
  intros Hnc Hs He Hp Hg Hr. unfold reloadDefault in Hr.
  assert (loadRaw w defaultKey = Ok data) as Hraw by (unfold loadRaw; by rewrite Hg). rewrite Hraw in Hr.
  destruct (parseDefaultRuleset data) as [entries|] eqn:Eparse; [|simplify_eq; split; [by apply leaves_same|done]].
  destruct (mintEntries (e_uuids e) entries) as [entries' n] eqn:Em.
  destruct (mintEntries_minted _ _ _ _ Em) as (Hm & _ & Heq).
  pose proof (parsed_clean _ _ Eparse (Hp _ Eparse)) as Hcl0. pose proof (minted_entries_clean _ _ Hm Hcl0) as Hcl.
  destruct (parseDefaultRuleset_kept _ _ Eparse) as (all & _ & Hkept). pose proof (kept_keys _ _ Hkept) as Hk0.
  assert (keys_ok entries') as Hk by (unfold keys_ok; by rewrite (minted_keys _ _ Hm)).
  assert (prev_ok entries' (e_defaultCache e ≫= cd_ruleset)) as Hprev.
  { apply buckets_prev_ok; [done|]. intros d Hd. destruct (e_defaultCache e) as [c|] eqn:Ec; [|done].
    simpl in Hd. destruct He as [_ He]. specialize (He c Ec). unfold default_ok in He. rewrite Hd in He. apply He. }
  rewrite compileParsedEntries_fresh in Hr by done.
  set (pr := if negb (n =? e_uuids e)%nat then _ else _) in Hr.
  assert (exists v1 ex1 w1, pr = (v1, ex1, w1) /\ evolves w w1 /\ (forall k, k <> defaultKey -> Get w1 k = Get w k)
          /\ ((v1 = version /\ ex1 = true) \/ (Get w1 defaultKey = SOk (marshalCanonical entries', v1) /\ ex1 = true)))
    as (v1 & ex1 & w1 & Hpr & Hev & Hoth & Hver).
  { subst pr. destruct (negb _).
    - destruct (persist _ _ _ _ _) as [[v1 ex1] w1] eqn:Epe. exists v1, ex1, w1. split; [done|].
      by apply persist_spec in Epe.
    - exists version, true, w. split_and!; [done|apply evolves_refl|done|by left]. }
  rewrite Hpr in Hr. cbv zeta beta iota in Hr.
  assert (engine_ok (set_uuids e n) w1) as He1 by (by apply (engine_ok_evolves _ w)).
  destruct (compileFresh entries') as [d|] eqn:Ed; simplify_eq; [|split; [by split|done]].
  assert (table_ok data d) as Ht by (by exists entries, entries', d).
  split; [|intros o [= <-]; by exists d]. split; try done.
  apply set_default_ok; [done|]. unfold default_ok. simpl.
  split; [|split; [by eapply fresh_buckets_ok|by destruct Hver as [[_ ->]|[_ ->]]]].
  destruct Hver as [[-> _]|[Hget _]].
  - exists data. split; [|done]. eapply knows_evolves; [done|done|]. by apply knows_get.
  - exists (marshalCanonical entries'). split; [apply knows_get; [by eapply sound_evolves|done]|].
    apply table_ok_written; [done|done| |done]. clear -Hm.
    induction Hm as [|pe pe' l l' [_ Hm] _ IH]; constructor; [by eapply minted_uuid|done].
Qed.

(** What the stored blob says now. *)
Definition current_table (w : W) (o : option DefaultRuleset) : Prop :=
  match Get w defaultKey with
  | SOk (data, _) => exists d, o = Some d /\ table_ok data d
  | SNotExist => o = None
  | SFail _ => False
  end.

Lemma current_past w o d : sound w -> current_table w o -> o = Some d -> past_table w d.
Proof.
  intros Hs Hc ->. unfold current_table in Hc. destruct (Get w defaultKey) as [[data v]| |] eqn:E; [|done..].
  destruct Hc as (d' & [= <-] & Ht). exists v, data. split; [by apply knows_get|done].
Qed.

Lemma cached_past e w c d :
  engine_ok e w -> e_defaultCache e = Some c -> cd_ruleset c = Some d -> past_table w d.
Proof.
  intros [_ Hd] Hc Hr. specialize (Hd c Hc). unfold default_ok in Hd. rewrite Hr in Hd.
  destruct Hd as [(data & Hk & Ht) _]. by exists (cd_version c), data.
Qed.

(** A version hit gives what the blob says now. *)
Lemma hit_current e w c :
  engine_ok e w -> e_defaultCache e = Some c -> stat w defaultKey = Ok (cd_version c, cd_exists c) ->
  current_table w (cd_ruleset c).
Proof.
  intros [_ Hd] Hc Hst. specialize (Hd c Hc). unfold default_ok in Hd. unfold current_table.
  pose proof (stat_spec w defaultKey) as Hs. rewrite Hst in Hs.
  destruct (Get w defaultKey) as [[data v]| |] eqn:Eg; simplify_eq.
  - destruct (cd_ruleset c) as [d|]; [|congruence]. destruct Hd as [(data' & Hk & Ht) _].
    exists d. split; [done|]. by rewrite (knows_agree _ _ _ _ _ Hk Eg).
  - destruct (cd_ruleset c) as [d|]; [|done]. destruct Hd as (_ & _ & ?). congruence.
  - by destruct Hs.
Qed.

(** An answer about the default table: once stored, and stored now without a TTL. *)
Definition table_answer (e : RuleEngine) (w : W) (r : result (option DefaultRuleset)) : Prop :=
  forall o, r = Ok o ->
    (forall d, o = Some d -> past_table w d) /\ (e_cacheTTL e <= 0 -> current_table w o).

Lemma table_answer_current e w o : sound w -> current_table w o -> table_answer e w (Ok o).
Proof. intros Hs Hc o' [= <-]. split; [intros; by eapply current_past|done]. Qed.

Lemma confirmDefault_ok e w now r e' w' :
  no_collisions -> sound w -> engine_ok e w -> default_printable w ->
  confirmDefault e w now = (r, e', w') -> leaves e w e' w' /\ table_answer e w r.
Proof.
  intros Hnc Hs He Hp Hl. unfold confirmDefault in Hl.
  destruct (stat w defaultKey) as [[v ex]|m] eqn:Est.
  - destruct (default_hit _ v ex) as [c|] eqn:Eh.
    + unfold default_hit in Eh. destruct (e_defaultCache e) as [c'|] eqn:Ec; [|done].
      destruct (bool_decide _ && _) eqn:Eb; [|done]. simplify_eq.
      apply andb_true_iff in Eb as [<-%bool_decide_eq_true <-%Bool.eqb_prop].
      split; [|by apply table_answer_current; [|eapply hit_current]].
      split; try done; [|apply evolves_refl]. apply set_default_ok; [done|]. destruct He as [_ He]. exact (He c Ec).
    + destruct ex; simpl in Hl.
      * destruct (stat_true _ _ _ Est) as [data Hg].
        destruct (reloadDefault_ok _ _ _ _ _ _ _ data Hnc Hs He (Hp _ _ Hg) Hg Hl) as [Hlv Ht].
        split; [done|]. intros o Ho. destruct (Ht o Ho) as (d & -> & Htab).
        apply (table_answer_current e w (Some d)); [done| |done]. unfold current_table. rewrite Hg. eauto.
      * simplify_eq. split; [split; try done; [by apply set_default_ok|apply evolves_refl]|].
        apply table_answer_current; [done|]. unfold current_table. by rewrite (stat_false _ _ _ Est).
  - destruct (e_defaultCache e) as [c|] eqn:Ec; [|simplify_eq; split; [by apply leaves_same|done]].
    destruct (Z.ltb_spec 0 (e_cacheTTL e)); simplify_eq; (split; [by apply leaves_same|]); [|done].
    intros o [= <-]. split; [intros; by eapply cached_past|lia].
Qed.

Lemma lookupDefaultTable_ok e w now r e' w' :
  no_collisions -> sound w -> engine_ok e w -> default_printable w ->
  lookupDefaultTable e w now = (r, e', w') -> leaves e w e' w' /\ table_answer e w r.
Proof.
  intros Hnc Hs He Hp Hl. unfold lookupDefaultTable in Hl.
  destruct (e_defaultCache e) as [c|] eqn:Ec; [|by eapply confirmDefault_ok].
  unfold fresh in Hl. destruct (Z.ltb_spec 0 (e_cacheTTL e)); cbn [andb] in Hl; [|by eapply confirmDefault_ok].
  destruct (_ <? _) in Hl; [|by eapply confirmDefault_ok]. simplify_eq.
  split; [by apply leaves_same|]. intros o [= <-]. split; [intros; by eapply cached_past|lia].
Qed.

(** ** Overrides *)

(** Files that encode alike stand for the same rules. *)
Lemma override_same_text w client rf rf0 rs :
  clean rf -> clean rf0 -> Marshal_RuleFile rf0 = Marshal_RuleFile rf ->
  override_rules w client rf0 rs -> override_rules w client rf rs.
Proof.
  intros [Hs Hok] [Hs0 Hok0] E (auth & comp & eg & Ha & Hc & Hr & Heg).
  apply (f_equal Unmarshal_RuleFile) in E. rewrite !Unmarshal_Marshal_RuleFile in E by done.
  apply (inj Ok) in E. unfold stored in E. injection E as Eu Ea Eh Ee. exists auth, comp, eg. split_and!.
  - by rewrite <- Ea.
  - rewrite <- Hc. unfold Compile, rf_rules. by rewrite Eh.
  - by rewrite Hr, Eu.
  - revert Heg. unfold egress_ok. by destruct (rf_Egress rf0) as [[|]|], (rf_Egress rf) as [[|]|]; simplify_eq.
Qed.

(** What is stored for a client under [version] stands for [rf]. *)
Definition stands_for (w : W) (client : Addr) (version : Version) (rf : RuleFile) : Prop :=
  exists data rf1 rf1', knows w (keyFor client) version data /\ Unmarshal_RuleFile data = Ok rf1
    /\ minted_file rf1 rf1' /\ clean rf1' /\ Marshal_RuleFile rf1' = Marshal_RuleFile rf.

Lemma stands_for_entry w client version rf rs hash now :
  clean rf -> stands_for w client version rf -> override_rules w client rf rs ->
  hash = sha256 (Marshal_RuleFile rf) ->
  entry_ok w client {| cr_checkedAt := now; cr_version := version; cr_exists := true;
                       cr_ruleSet := Some rs; cr_contentHash := hash |}.
Proof.
  intros Hc (data & rf1 & rf1' & Hk & Hu & Hm & Hc1 & Ht) Ho -> _. exists data, rs. split_and!; [done|done|].
  exists rf1, rf1'. simpl. rewrite Ht. split_and!; try done. eapply (override_same_text _ _ _ rf); [done|done|by symmetry|done].
Qed.

Lemma minted_stored rf : clean rf -> rf_UUID rf <> [] ->
  Unmarshal_RuleFile (Marshal_RuleFile rf) = Ok (stored rf) /\ minted_file (stored rf) (stored rf)
  /\ clean (stored rf) /\ Marshal_RuleFile (stored rf) = Marshal_RuleFile rf.
Proof.
  intros [Hs Hok] Hu. unfold Marshal_RuleFile. rewrite encode_stored. split_and!.
  - by apply Unmarshal_Marshal_RuleFile.
  - by left.
  - split; [done|]. by rewrite encode_stored.
  - done.
Qed.

Lemma mintFile_ok e w client data rf version rf' version' e1 w1 :
  sound w -> engine_ok e w -> Get w (keyFor client) = SOk (data, version) ->
  Unmarshal_RuleFile data = Ok rf -> clean rf -> mintFile e w client rf version = (rf', version', e1, w1) ->
  leaves e w e1 w1 /\ minted_file rf rf' /\ clean rf' /\ Get w1 defaultKey = Get w defaultKey
  /\ stands_for w1 client version' rf' /\ e_cache e1 = e_cache e.
Proof.
  intros Hs He Hg Hu Hc Hm. unfold mintFile in Hm. case_bool_decide as Huu.
  - destruct (persist _ _ _ _ _) as [[v1 ex1] w1'] eqn:Ep. simplify_eq. set (rf' := with_uuid _ _) in *.
    assert (minted_file rf rf') as Hmint by (right; split; [done|by eexists]).
    assert (clean rf') as Hc' by (by eapply minted_clean).
    apply persist_spec in Ep as (Hev & Hoth & Hver).
    split_and!; [|done|done|apply Hoth, not_eq_sym, keyFor_ne| |done].
    { split; [|done|done]. apply (engine_ok_evolves _ w); [done|done|]. by destruct He. }
    destruct Hver as [[-> _]|[Hget _]].
    + exists data, rf, rf'. split_and!; try done. eapply knows_evolves; [done|done|]. by apply knows_get.
    + destruct (minted_stored rf' Hc' (minted_uuid _ _ Hmint)) as (H1 & H2 & H3 & H4).
      exists (Marshal_RuleFile rf'), (stored rf'), (stored rf'). split_and!; try done.
      apply knows_get; [by eapply sound_evolves|done].
  - simplify_eq. split_and!; try done; [by apply leaves_same|by left|].
    exists data, rf', rf'. split_and!; try done; [by apply knows_get|by left].
Qed.

(** A cached override with the hash of [rf] may be used for it. *)
Lemma reused_override e w client c rf rs :
  no_collisions -> engine_ok e w -> e_cache e !! client = Some c -> cr_exists c = true ->
  cr_ruleSet c = Some rs -> sha256 (Marshal_RuleFile rf) = cr_contentHash c -> clean rf ->
  override_rules w client rf rs.
Proof.
  intros Hnc [Hc _] Hl Hx Hr Hh Hcl. destruct (Hc _ _ Hl Hx) as (data & rs' & Hr' & _ & Ho). simplify_eq.
  destruct Ho as (rf0 & rf0' & _ & _ & Hcl0 & Hh0 & Hor). rewrite Hh0 in Hh. apply Hnc in Hh.
  by eapply (override_same_text _ _ _ rf0').
Qed.

Lemma set_cache_ok e w client c : engine_ok e w -> entry_ok w client c -> engine_ok (set_cache e client c) w.
Proof. intros [Hc Hd] He. split; [|done]. by apply map_Forall_insert_2. Qed.

Lemma leaves_trans e w e1 w1 e2 w2 : leaves e w e1 w1 -> leaves e1 w1 e2 w2 -> leaves e w e2 w2.
Proof. intros [_ H1 H2] [H3 H4 H5]. split; [done|by eapply evolves_trans|congruence]. Qed.

Lemma resolveEgress_ok e w now client rf r e' w' :
  no_collisions -> sound w -> engine_ok e w -> default_printable w ->
  resolveEgress e w now client rf = (r, e', w') ->
  leaves e w e' w' /\ forall egress, r = Ok egress -> egress_ok w' client rf egress.
Proof.
  intros Hnc Hs He Hp Hr. unfold resolveEgress in Hr. unfold egress_ok.
  destruct (rf_Egress rf) as [l|].
  - simplify_eq. split; [by apply leaves_same|]. intros egress Heg.
    destruct l; [|done]. left. by injection Heg as <-.
  - destruct (lookupDefaultTable e w now) as [[rd e1] w1] eqn:Ed.
    destruct (lookupDefaultTable_ok _ _ _ _ _ _ Hnc Hs He Hp Ed) as [Hlv Ha].
    destruct rd as [def|m]; simplify_eq; (split; [done|]); [|done]. intros egress [= <-].
    destruct (Ha def eq_refl) as [Hpast _]. destruct (defaultFor def client) as [rs|] eqn:Ef; [|by left].
    right. unfold defaultFor in Ef. destruct def as [d|]; [|done]. exists d, rs. split_and!; [|done|done].
    eapply past_table_evolves; [done|apply Hlv|by apply Hpast].
Qed.

Lemma lookupIP_ok e w now client version r e' w' data :
  no_collisions -> sound w -> engine_ok e w -> world_printable w ->
  Get w (keyFor client) = SOk (data, version) ->
  lookupIP e w now client version (e_cache e !! client) = (r, e', w') ->
  leaves e w e' w' /\ forall rs, r = Ok rs ->
    exists rf rf', Unmarshal_RuleFile data = Ok rf /\ minted_file rf rf' /\ override_rules w' client rf' rs.
Proof.
  intros Hnc Hs He [Hpf Hpd] Hg Hl. unfold lookupIP, Load in Hl. rewrite Hg in Hl.
  destruct (Unmarshal_RuleFile data) as [rf|] eqn:Eu; simpl in Hl; [|simplify_eq; split; [by apply leaves_same|done]].
  pose proof (Unmarshal_clean _ _ (Hpf _ _ _ Hg) Eu) as Hcl.
  destruct (mintFile e w client rf version) as [[[rf' v'] e1] w1] eqn:Em.
  destruct (mintFile_ok _ _ _ _ _ _ _ _ _ _ Hs He Hg Eu Hcl Em) as (Hlv & Hm & Hcl' & Hdef & Hst & Hcache).
  assert (sound w1) as Hs1 by (eapply sound_evolves; [apply Hlv|done]). pose proof (lv_ok _ _ _ _ Hlv) as He1.
  assert (forall w2 rs, sound w1 -> evolves w1 w2 -> override_rules w2 client rf' rs ->
    entry_ok w2 client {| cr_checkedAt := now; cr_version := v'; cr_exists := true; cr_ruleSet := Some rs;
                          cr_contentHash := sha256 (Marshal_RuleFile rf') |}) as Hentry.
  { intros w2 rs _ Hev Ho. eapply stands_for_entry; [done| |done|done].
    destruct Hst as (d1 & rf1 & rf1' & Hk & H1). exists d1, rf1, rf1'. split; [by eapply knows_evolves|done]. }
  destruct (match e_cache e !! client with Some c => _ | None => _ end) as [rs|] eqn:Ereuse.
  - simplify_eq. destruct (e_cache e !! client) as [c|] eqn:Ec; [|done].
    destruct (cr_exists c) eqn:Ex; [|done]. simpl in Ereuse. case_bool_decide as Hh; [|done].
    assert (override_rules w' client rf' rs) as Ho by (eapply (reused_override e1); try done; by rewrite Hcache).
    split; [|intros rs' [= <-]; eauto]. eapply leaves_trans; [exact Hlv|].
    split; [|apply evolves_refl|done]. apply set_cache_ok; [done|]. apply Hentry; [done|apply evolves_refl|done].
  - destruct (CompileAuth (rf_Auth rf')) as [auth|] eqn:Ea; [|by simplify_eq].
    destruct (Compile rf') as [comp|] eqn:Eco; [|by simplify_eq].
    destruct (resolveEgress e1 w1 now client rf') as [[rg e2] w2] eqn:Eg.
    destruct (resolveEgress_ok _ _ _ _ _ _ _ _ Hnc Hs1 He1 ltac:(intros d v Hd; rewrite Hdef in Hd; by eapply Hpd) Eg)
      as [Hlv2 Heg].
    destruct rg as [egress|]; simplify_eq; [|split; [by eapply leaves_trans|done]].
    assert (override_rules w' client rf' (newRuleSet comp egress (rf_UUID rf') auth)) as Ho.
    { exists auth, comp, egress. split_and!; try done. by apply Heg. }
    split; [|intros rs' [= <-]; eauto]. eapply leaves_trans; [exact Hlv|]. eapply leaves_trans; [exact Hlv2|].
    split; [|apply evolves_refl|done]. apply set_cache_ok; [apply Hlv2|]. apply Hentry; [done|apply Hlv2|done].
Qed.

(** ** Lookups *)

(** What the stored documents say of a client now ([w'] is the world the
    lookup ends in, where an inherited egress list was last seen). *)
Definition current_rules (w w' : W) (client : Addr) (rs : RuleSet) : Prop :=
  match Get w (keyFor client) with
  | SOk (data, _) =>
      exists rf rf', Unmarshal_RuleFile data = Ok rf /\ minted_file rf rf' /\ override_rules w' client rf' rs
  | SNotExist => exists def, current_table w def /\ rs = default emptyRuleSet (defaultFor def client)
  | SFail _ => False
  end.

(** What they said at some time: the client's own override, the bucket of the
    default table for it, or nothing at all. *)
Definition past_rules (w : W) (client : Addr) (rs : RuleSet) : Prop :=
  (exists v data rf rf', knows w (keyFor client) v data /\ Unmarshal_RuleFile data = Ok rf
     /\ minted_file rf rf' /\ override_rules w client rf' rs)
  \/ (exists d, past_table w d /\ DefaultLookup d client = Some rs)
  \/ rs = emptyRuleSet.

(** The answer of a lookup that started in [w] and ended in [w']. *)
Definition rules_answer (e : RuleEngine) (w w' : W) (client : Addr) (r : result RuleSet) : Prop :=
  forall rs, r = Ok rs -> past_rules w' client rs /\ (e_cacheTTL e <= 0 -> current_rules w w' client rs).

Lemma resolveClientCache_ok e w now client c r e' w' :
  no_collisions -> sound w -> engine_ok e w -> default_printable w -> entry_ok w client c ->
  (e_cacheTTL e <= 0 -> stat w (keyFor client) = Ok (cr_version c, cr_exists c)) ->
  resolveClientCache e w now client c = (r, e', w') ->
  leaves e w e' w' /\ rules_answer e w w' client r.
Proof.
  intros Hnc Hs He Hp Hc Hcur Hr. unfold resolveClientCache in Hr. destruct (cr_exists c) eqn:Ex.
  - simplify_eq. split; [by apply leaves_same|]. intros rs [= <-].
    destruct (Hc Ex) as (data & rs' & Hrs & Hk & rf & rf' & Hu & Hm & _ & _ & Ho). rewrite Hrs. simpl. split.
    + left. by exists (cr_version c), data, rf, rf'.
    + intros Httl. specialize (Hcur Httl). destruct (stat_true _ _ _ Hcur) as [data' Hg].
      unfold current_rules. rewrite Hg. rewrite (knows_agree _ _ _ _ _ Hk Hg). by exists rf, rf'.
  - destruct (lookupDefaultTable e w now) as [[rd e1] w1] eqn:Ed.
    destruct (lookupDefaultTable_ok _ _ _ _ _ _ Hnc Hs He Hp Ed) as [Hlv Ha].
    destruct rd as [def|]; simplify_eq; (split; [done|]); [|done]. intros rs [= <-].
    destruct (Ha def eq_refl) as [Hpast Hnow]. split.
    + destruct (defaultFor def client) as [rs|] eqn:Ef; [|by right; right]. right. left.
      destruct def as [d|]; [|done]. exists d. split; [|done].
      eapply past_table_evolves; [done|apply Hlv|by apply Hpast].
    + intros Httl. unfold current_rules. rewrite (stat_false _ _ _ (Hcur Httl)). exists def. auto.
Qed.

Lemma leaves_ttl_answer e e1 w w' client r :
  e_cacheTTL e1 = e_cacheTTL e -> rules_answer e1 w w' client r -> rules_answer e w w' client r.
Proof. intros E H rs Hr. destruct (H rs Hr) as [? Hc]. rewrite E in Hc. done. Qed.

Lemma confirmClient_ok e w now client r e' w' :
  no_collisions -> sound w -> engine_ok e w -> world_printable w ->
  confirmClient e w now client = (r, e', w') -> leaves e w e' w' /\ rules_answer e w w' client r.
Proof.
  intros Hnc Hs He Hp Hl. pose proof Hp as [_ Hpd]. unfold confirmClient in Hl.
  assert (forall c r e' w', entry_ok w client c -> stat w (keyFor client) = Ok (cr_version c, cr_exists c) ->
    forall c', entry_ok w client c' ->
    resolveClientCache (set_cache e client c') w now client c = (r, e', w') ->
    leaves e w e' w' /\ rules_answer e w w' client r) as Hresolve.
  { intros c r1 e1 w1 Hc Hst c' Hc' Hr. apply resolveClientCache_ok in Hr as [Hlv Ha]; try done.
    - split; [|by eapply leaves_ttl_answer; [|exact Ha]]. by destruct Hlv; split.
    - by apply set_cache_ok. }
  destruct (stat w (keyFor client)) as [[v ex]|m] eqn:Est.
  - destruct (client_hit _ v ex) as [c|] eqn:Eh.
    + unfold client_hit in Eh. destruct (e_cache e !! client) as [c'|] eqn:Ec; [|done].
      destruct (bool_decide _ && _) eqn:Eb; [|done]. simplify_eq.
      apply andb_true_iff in Eb as [<-%bool_decide_eq_true <-%Bool.eqb_prop].
      assert (entry_ok w client c) as Hc by (destruct He as [He _]; by apply He).
      by apply (Hresolve c _ _ _ Hc eq_refl (touched c now)).
    + destruct ex; simpl in Hl.
      * destruct (stat_true _ _ _ Est) as [data Hg].
        destruct (lookupIP_ok _ _ _ _ _ _ _ _ data Hnc Hs He Hp Hg Hl) as [Hlv Ha]. split; [done|].
        intros rs Hr. destruct (Ha rs Hr) as (rf & rf' & Hu & Hm & Ho). split.
        -- left. exists v, data, rf, rf'. split; [|done].
           eapply knows_evolves; [done|apply Hlv|by apply knows_get].
        -- intros _. unfold current_rules. rewrite Hg. eauto.
      * assert (v = []) as -> by (unfold stat in Est; destruct (Stat _ _); by simplify_eq).
        by apply (Hresolve (absent [] now) _ _ _ ltac:(done) eq_refl (absent [] now)).
  - destruct (e_cache e !! client) as [c|] eqn:Ec; [|simplify_eq; split; [by apply leaves_same|done]].
    destruct (Z.ltb_spec 0 (e_cacheTTL e)); [|simplify_eq; split; [by apply leaves_same|done]].
    eapply resolveClientCache_ok in Hl; try done; [destruct He as [He _]; by apply He|lia].
Qed.

Lemma Lookup_ok e w now client r e' w' :
  no_collisions -> sound w -> engine_ok e w -> world_printable w ->
  Lookup e w now client = (r, e', w') -> leaves e w e' w' /\ rules_answer e w w' client r.
Proof.
  intros Hnc Hs He Hp Hl. unfold Lookup in Hl.
  destruct (e_cache e !! client) as [c|] eqn:Ec; [|by eapply confirmClient_ok].
  unfold fresh in Hl. destruct (Z.ltb_spec 0 (e_cacheTTL e)); cbn [andb] in Hl; [|by eapply confirmClient_ok].
  destruct (_ <? _) in Hl; [|by eapply confirmClient_ok]. pose proof Hp as [_ Hpd].
  eapply resolveClientCache_ok in Hl; try done; [destruct He as [He _]; by apply He|lia].
Qed.

(** ** Runs of the system *)

(** The engine starts empty, the store changes under it, lookups happen; every
    document along the way is printable. *)
Inductive reachable (ttl : Z) : RuleEngine -> W -> Prop :=
  | reach_start w : sound w -> world_printable w -> reachable ttl (NewRuleEngine ttl) w
  | reach_store e w w' : reachable ttl e w -> evolves w w' -> world_printable w' -> reachable ttl e w'
  | reach_lookup e w now client r e' w' :
      reachable ttl e w -> Lookup e w now client = (r, e', w') -> world_printable w' -> reachable ttl e' w'.

Lemma reachable_ok ttl e w :
  no_collisions -> reachable ttl e w ->
  sound w /\ engine_ok e w /\ world_printable w /\ e_cacheTTL e = ttl.
Proof.
  intros Hnc Hr. induction Hr as [w Hs Hp|e w w' _ (Hs & He & Hp & Ht) Hev Hp'|e w now client r e' w' _ (Hs & He & Hp & Ht) Hl Hp'].
  - by split_and!.
  - split_and!; try done; [by eapply sound_evolves|by eapply engine_ok_evolves].
  - destruct (Lookup_ok _ _ _ _ _ _ _ Hnc Hs He Hp Hl) as [[Hok Hev Httl] _].
    split_and!; [by eapply sound_evolves|done|done|congruence].
Qed.

(** Whatever the store does and whichever of its calls fail, with any cache
    TTL, a lookup only ever returns rules compiled from a document that was
    stored under this client's own key, the bucket a stored default table
    assigns to the client, or the empty rule set. *)
Theorem lookup_provenance ttl e w now client rs e' w' :
  no_collisions -> reachable ttl e w -> Lookup e w now client = (Ok rs, e', w') -> past_rules w' client rs.
Proof.
  intros Hnc Hr Hl. destruct (reachable_ok _ _ _ Hnc Hr) as (Hs & He & Hp & _).
  destruct (Lookup_ok _ _ _ _ _ _ _ Hnc Hs He Hp Hl) as [_ Ha]. by apply Ha.
Qed.

End EngineCorrect.
