(* ===== verification/EngineSamples.v ===== *)
(** * Runs of the rule engine on a file system

    Concrete lookups that show the engine's theorems applied, and three runs in
    which an override's egress list is not the one its document asks for. *)

From S2P Require Import Prelude GoStrings Netip Json JsonRoundtrip Encoding Schema JsonRules Matcher.
From S2P Require Import Compile HostIndex Egress Auth RuleSet MaskedKey DefaultRuleset DefaultTable Builtin.
From S2P Require Import Storage Engine EngineCorrect.

Open Scope Z_scope.

Lemma counter_ascii n : Forall (fun c => is_ascii c = true) (str "id-" ++ Itoa (Z.of_nat n)).
Proof.
  apply Forall_app_2; [by repeat constructor|]. apply Forall_forall. intros c Hc.
  pose proof (Itoa_digits (Z.of_nat n) ltac:(lia)) as Hd. rewrite forallb_forall in Hd.
  apply list_elem_of_In, Hd in Hc. by destruct c as [[] [] [] [] [] [] [] []].
Qed.

Lemma counter_ne n : (str "id-" ++ Itoa (Z.of_nat n))%list <> [].
Proof. discriminate. Qed.

Definition counter_uuids : UUIDSource :=
  {| newUUID := fun n => (str "id-" ++ Itoa (Z.of_nat n))%list;
     newUUID_ne := counter_ne;
     newUUID_ascii := counter_ascii |}.

Section Runs.
#[local] Existing Instance no_regex.
#[local] Existing Instance toy_digests.
#[local] Existing Instance ascii_table.
#[local] Existing Instance counter_uuids.

(** A store with the given default table and override of 10.1.2.7. *)
Definition two_files (k1 k2 default_table : bytes) (override : option bytes) : gmap bytes file :=
  let base : gmap bytes file := {[k1 := {| f_data := default_table; f_mtime := 1 |}]} in
  match override with
  | Some d => <[k2 := {| f_data := d; f_mtime := 2 |}]> base
  | None => base
  end.

Definition disk (default_table : bytes) (override : option bytes) : fs :=
  {| fs_files := two_files defaultKey (keyFor sample_client) default_table override; fs_now := 2; fs_up := true |}.

(** The verdict for a connection to 192.0.2.1 port 443. *)
Definition verdict (r : result RuleSet) : option bool :=
  match r with
  | Ok rs => Some (fst (RuleSet_LookupEgress rs (Addr4 (((192 * 256) * 256 + 2) * 256 + 1)) 443 (str "http")))
  | Error _ => None
  end.

Definition lookup1 (e : RuleEngine) (w : fs) (now : Z) : result RuleSet * RuleEngine * fs :=
  Lookup e w now sample_client.

Definition open_default : bytes := json "{'0.0.0.0/0':{'uuid':'a','http':[],'egress':[{'cidr':'0.0.0.0/0','action':'allow'}]},'::/0':{'uuid':'b','http':[]}}".
Definition closed_default : bytes := json "{'0.0.0.0/0':{'uuid':'a','http':[],'egress':[{'cidr':'0.0.0.0/0','action':'deny'}]},'::/0':{'uuid':'b','http':[]}}".


(** An override that omits "egress" keeps the default bucket's list of the
    time it was compiled: after the default table is replaced by one that
    denies everything, the running engine still allows what the old table
    allowed, while an engine started on the same store denies it. *)
Theorem inherited_egress_goes_stale :
  let file := json "{'uuid':'u','http':[]}" in
  let '(r1, e1, w1) := lookup1 (NewRuleEngine 0) (disk open_default (Some file)) 10 in
  let '(put, w2) := SaveDefault w1 closed_default in
  let '(r2, _, w3) := lookup1 e1 w2 20 in
  let '(r3, _, _) := lookup1 (NewRuleEngine 0) w3 20 in
  put = SOk tt /\ verdict r1 = Some true /\ verdict r2 = Some true /\ verdict r3 = Some false.
Proof. vm_compute. repeat split. Qed.

(** An override with an empty "egress" list and no identity denies every
    destination on its first lookup, but minting the identity writes the file
    back without the list, so a restarted engine lets the client inherit the
    default table's egress. *)
Theorem minting_drops_empty_egress :
  let file := json "{'http':[],'egress':[]}" in
  let '(r1, _, w1) := lookup1 (NewRuleEngine 0) (disk open_default (Some file)) 10 in
  let '(r2, _, _) := lookup1 (NewRuleEngine 0) w1 20 in
  verdict r1 = Some false /\ verdict r2 = Some true
  /\ Load w1 sample_client = Ok {| rf_UUID := str "id-0"; rf_Auth := None; rf_HTTP := Some []; rf_Egress := None |}.
Proof. vm_compute. repeat split. Qed.

(** Editing an override from no "egress" key to an empty list is not seen:
    both encode alike, so the content hash is unchanged and the compiled rules
    of the old document are used again. *)
Theorem empty_egress_edit_ignored :
  let before := json "{'uuid':'u','http':[]}" in
  let after := json "{'uuid':'u','http':[],'egress':[]}" in
  let '(_, e1, w1) := lookup1 (NewRuleEngine 0) (disk open_default (Some before)) 10 in
  let '(put, w2) := Save w1 sample_client after in
  let '(r2, _, w3) := lookup1 e1 w2 20 in
  let '(r3, _, _) := lookup1 (NewRuleEngine 0) w3 20 in
  put = SOk tt /\ verdict r2 = Some true /\ verdict r3 = Some false.
Proof. vm_compute. repeat split. Qed.


(** ** The theorems at work *)

Lemma toy_no_collisions : no_collisions.
Proof. by intros rf rf'. Qed.

Lemma two_files_lookup k1 k2 t o k f : two_files k1 k2 t o !! k = Some f ->
  (k = k1 /\ f_data f = t /\ f_mtime f = 1) \/ (k = k2 /\ o = Some (f_data f) /\ f_mtime f = 2).
Proof.
  unfold two_files. destruct o as [d|]; [intros [[<- <-]|[_ H]]%lookup_insert_Some; [by right|]; revert H|];
    intros [<- <-]%lookup_singleton_Some; by left.
Qed.

Lemma disk_wf t o : fs_wf (disk t o).
Proof.
  split; [done|]. intros k f [(_ & _ & ->)|(_ & _ & ->)]%two_files_lookup; cbn [disk fs_now]; lia.
Qed.

Lemma disk_Get t o k data v : posix_Get (disk t o) k = SOk (data, v) ->
  (k = defaultKey /\ data = t) \/ (k = keyFor sample_client /\ o = Some data).
Proof.
  unfold posix_Get. cbn [disk fs_up fs_files]. destruct (two_files _ _ _ _ !! k) as [f|] eqn:E; [|done].
  intros [= <- _]. apply two_files_lookup in E as [(? & ? & _)|(? & ? & _)]; [by left|by right].
Qed.

Lemma disk_printable t o entries :
  parseDefaultRuleset t = Ok entries -> forallb (fun pe => any_okb (encode_file (pe_rule pe))) entries = true ->
  (forall d, o = Some d -> exists rf, Unmarshal_RuleFile d = Ok rf /\ any_okb (encode_file rf) = true) ->
  world_printable (disk t o).
Proof.
  intros Ht He Ho. split.
  - intros client data v [[H _]|[_ Hd]]%disk_Get rf Hrf; [by apply keyFor_ne in H|].
    destruct (Ho data Hd) as (rf' & Hrf' & Hok). rewrite Hrf in Hrf'. apply (inj Ok) in Hrf' as <-.
    by apply any_okb_ok.
  - intros data v [[_ ->]|[H _]]%disk_Get es Hes; [|symmetry in H; by apply keyFor_ne in H].
    rewrite Ht in Hes. apply (inj Ok) in Hes as <-. apply Forall_forall. intros pe Hpe. apply any_okb_ok.
    rewrite forallb_forall in He. apply He. by apply list_elem_of_In.
Qed.

(** The table of [sample_table] and an override that allows one network. *)
Definition sample_override : bytes := json "{'http':[],'egress':[{'cidr':'192.0.2.0/24','action':'allow'}]}".
Definition sample_disk : fs := disk sample_table (Some sample_override).

Lemma sample_disk_printable : world_printable sample_disk.
Proof.
  apply (disk_printable sample_table (Some sample_override) sample_entries); [vm_compute; reflexivity..|].
  intros d Hd. apply (inj Some) in Hd as <-. exists (the zero_file (Unmarshal_RuleFile sample_override)).
  split; vm_compute; reflexivity.
Qed.

Definition sample_lookup : result RuleSet * RuleEngine * fs :=
  Lookup (NewRuleEngine 0) sample_disk 10 sample_client.
Definition sample_rules : RuleSet := the emptyRuleSet (fst (fst sample_lookup)).

Lemma sample_lookup_eq : sample_lookup = (Ok sample_rules, snd (fst sample_lookup), snd sample_lookup).
Proof.
  assert (is_ok (fst (fst sample_lookup)) = true) as H by (vm_compute; reflexivity). unfold sample_rules.
  by destruct sample_lookup as [[[r|m] e] w].
Qed.

Lemma lookup_provenance_witness :
  verdict (Ok sample_rules) = Some true /\ past_rules (snd sample_lookup) sample_client sample_rules.
Proof.
  split; [vm_compute; reflexivity|].
  apply (lookup_provenance 0 (NewRuleEngine 0) sample_disk 10 sample_client sample_rules (snd (fst sample_lookup)) (snd sample_lookup)).
  - exact toy_no_collisions.
  - apply reach_start; [apply disk_wf|exact sample_disk_printable].
  - exact sample_lookup_eq.
Defined.


End Runs.
