(* ===== verification/Headers.v ===== *)
(** * HTTP headers ([net/http]'s [Header], [fmt.Sprint] of a JSON value)

    A header is a Go map from canonical names to values.  Two association lists
    that answer every lookup alike are the same map: [header_equiv] is that
    equivalence, and the operations of this file are [Proper] for it. *)

From S2P Require Import Prelude GoStrings Json Encoding Schema Matcher Compile RuleSet.

Open Scope Z_scope.

(** ** Operations *)

Definition Header_Values (h : Header) (name : bytes) : list bytes :=
  default [] (assoc (CanonicalMIMEHeaderKey name) h).

(** [h[key] = vs], with no canonicalisation. *)
Definition header_put (h : Header) (key : bytes) (vs : list bytes) : Header := assoc_set key vs h.

Definition header_remove (h : Header) (key : bytes) : Header :=
  filter (fun kv => kv.1 <> key) h.

Definition Header_Add (h : Header) (name value : bytes) : Header :=
  header_put h (CanonicalMIMEHeaderKey name) (Header_Values h name ++ [value])%list.

Definition Header_Set (h : Header) (name value : bytes) : Header :=
  header_put h (CanonicalMIMEHeaderKey name) [value].

Definition Header_Del (h : Header) (name : bytes) : Header :=
  header_remove h (CanonicalMIMEHeaderKey name).

(** ** [fmt.Sprint] *)

(** [%v] of a float64: [strconv]'s shortest [%g], which turns to exponent
    notation below 1e-4 and from 1e6 on. *)
Definition fmt_float (m e : Z) : bytes :=
  let sign := if m <? 0 then str "-" else [] in
  let d := Itoa (Z.abs m) in
  let p := Z.of_nat (length d) + e in
  let body :=
    if m =? 0 then str "0"
    else if (-3 <=? p) && (p <=? 6) then
      if 0 <=? e then d ++ replicate (Z.to_nat e) "0"%char
      else if 0 <? p then take (Z.to_nat p) d ++ str "." ++ drop (Z.to_nat p) d
      else str "0." ++ replicate (Z.to_nat (- p)) "0"%char ++ d
    else
      take 1 d
      ++ (if (1 <? length d)%nat then str "." ++ drop 1 d else [])
      ++ (if 0 <=? p - 1 then str "e+" else str "e-")
      ++ (if Z.abs (p - 1) <? 10 then str "0" else []) ++ Itoa (Z.abs (p - 1)) in
  (sign ++ body)%list.

(** [%v] of a decoded JSON value inside a slice or a map; a map prints its
    members by key. *)
Fixpoint fmt_value (v : any) : bytes :=
  match v with
  | ANull => str "<nil>"
  | ABool true => str "true"
  | ABool false => str "false"
  | ANum m e => fmt_float m e
  | AStr s => s
  | AArr l => (str "[" ++ Join (str " ") (map fmt_value l) ++ str "]")%list
  | AObj l =>
      (str "map[" ++ Join (str " ") (map (fun kv => kv.1 ++ str ":" ++ kv.2)
         (map (fun k => (k, default [] (assoc k (map (fun kv => (kv.1, fmt_value kv.2)) l))))
              (SortStrings (map fst l)))) ++ str "]")%list
  end.

(** [toString] of actions_http.go. *)
Definition toString (v : any) : bytes :=
  match v with
  | AStr s => s
  | ANull => []
  | _ => fmt_value v
  end.

(** ** Headers as maps *)

Definition header_equiv (h k : Header) : Prop := forall name, assoc name h = assoc name k.

#[export] Instance header_equivalence : Equivalence header_equiv.
Proof. split; [by intros h n|by intros h k E n; rewrite E|by intros h k l E F n; rewrite E, F]. Qed.

Lemma assoc_assoc_set {V} (key k : bytes) (v : V) m :
  assoc k (assoc_set key v m) = if bool_decide (key = k) then Some v else assoc k m.
Proof.
  induction m as [|[k' w] t IH]; simpl; [done|].
  repeat (case_bool_decide; simpl; try done); subst; try done.
Qed.

Lemma assoc_filter_ne {V} (key k : bytes) (m : list (bytes * V)) :
  assoc k (filter (fun kv => kv.1 <> key) m) = if bool_decide (key = k) then None else assoc k m.
Proof.
  induction m as [|[k' w] t IH]; [by case_bool_decide|].
  rewrite filter_cons. destruct (decide _) as [E|E]; simpl in *; rewrite ?IH;
    repeat (case_bool_decide; simpl; try done); subst; done.
Qed.

Lemma header_put_lookup h key vs k :
  assoc k (header_put h key vs) = if bool_decide (key = k) then Some vs else assoc k h.
Proof. apply assoc_assoc_set. Qed.

Lemma header_remove_lookup h key k :
  assoc k (header_remove h key) = if bool_decide (key = k) then None else assoc k h.
Proof. apply assoc_filter_ne. Qed.

Create Rewrite HintDb headers.
#[export] Hint Rewrite header_put_lookup header_remove_lookup : headers.

(** Both sides' lookups computed and compared. *)
Ltac header_solver :=
  intros; intros ?; autorewrite with headers; repeat (case_bool_decide; subst; try done); try congruence.

#[export] Instance header_put_proper : Proper (header_equiv ==> eq ==> eq ==> header_equiv) header_put.
Proof. intros h k E ? n -> ? vs ->. intros x. by rewrite !header_put_lookup, (E x). Qed.

#[export] Instance header_remove_proper : Proper (header_equiv ==> eq ==> header_equiv) header_remove.
Proof. intros h k E ? n ->. intros x. by rewrite !header_remove_lookup, (E x). Qed.

#[export] Instance Header_Values_proper : Proper (header_equiv ==> eq ==> eq) Header_Values.
Proof. intros h k E ? n ->. unfold Header_Values. by rewrite (E _). Qed.

#[export] Instance Header_Get_proper : Proper (header_equiv ==> eq ==> eq) Header_Get.
Proof. intros h k E ? n ->. unfold Header_Get. by rewrite (E _). Qed.

#[export] Instance Header_Add_proper : Proper (header_equiv ==> eq ==> eq ==> header_equiv) Header_Add.
Proof. intros h k E ? n -> ? v ->. unfold Header_Add. rewrite E. reflexivity. Qed.

#[export] Instance Header_Set_proper : Proper (header_equiv ==> eq ==> eq ==> header_equiv) Header_Set.
Proof. intros h k E ? n -> ? v ->. unfold Header_Set. rewrite E. reflexivity. Qed.

#[export] Instance Header_Del_proper : Proper (header_equiv ==> eq ==> header_equiv) Header_Del.
Proof. intros h k E ? n ->. unfold Header_Del. rewrite E. reflexivity. Qed.

(** ** Canonical names *)

Lemma validHeaderFieldByte_case c :
  validHeaderFieldByte (upper_byte c) = validHeaderFieldByte c
  /\ validHeaderFieldByte (lower_byte c) = validHeaderFieldByte c.
Proof. destruct c as [[] [] [] [] [] [] [] []]; split; vm_compute; reflexivity. Qed.

Lemma canonical_valid up s :
  forallb validHeaderFieldByte (canonicalMIMEHeaderKey up s) = forallb validHeaderFieldByte s.
Proof.
  revert up. induction s as [|c t IH]; intros up; [done|].
  cbn [canonicalMIMEHeaderKey forallb]. rewrite IH. f_equal.
  destruct up; apply validHeaderFieldByte_case.
Qed.

Lemma case_byte_idem c : upper_byte (upper_byte c) = upper_byte c /\ lower_byte (lower_byte c) = lower_byte c.
Proof. destruct c as [[] [] [] [] [] [] [] []]; split; vm_compute; reflexivity. Qed.

Lemma canonical_idem up s :
  canonicalMIMEHeaderKey up (canonicalMIMEHeaderKey up s) = canonicalMIMEHeaderKey up s.
Proof.
  revert up. induction s as [|c t IH]; intros up; [done|]. cbn [canonicalMIMEHeaderKey].
  destruct (case_byte_idem c) as [Hu Hl].
  destruct up; rewrite ?Hu, ?Hl; by rewrite IH.
Qed.

Lemma CanonicalMIMEHeaderKey_idem s :
  CanonicalMIMEHeaderKey (CanonicalMIMEHeaderKey s) = CanonicalMIMEHeaderKey s.
Proof.
  unfold CanonicalMIMEHeaderKey. destruct (forallb validHeaderFieldByte s) eqn:E.
  - by rewrite canonical_valid, E, canonical_idem.
  - by rewrite E.
Qed.
