(* ===== verification/HttpError.v ===== *)
(** * Synthetic error responses (internal/httperror/httperror.go)

    The specifications of the error pages, the page itself with the escaping
    [html/template] gives each of its holes, and the serialised response.  The
    only thing the page takes from outside is the time stamp. *)

From S2P Require Import Prelude GoStrings Json Encoding Schema Matcher Compile RuleSet Headers.

Open Scope Z_scope.

(** ** Specifications *)

Record Spec : Type := {
  sp_Status : Z;
  sp_ErrCode : bytes;
  sp_Message : bytes;
  sp_Headers : Header }.

Definition fixed_spec (status : Z) (code message : string) : Spec :=
  {| sp_Status := status; sp_ErrCode := str code; sp_Message := str message; sp_Headers := [] |}.

Definition NoMatch := fixed_spec 511 "ERR_ACCESS_DENIED" "No rule matched this request.".
Definition InvalidRequest := fixed_spec 400 "ERR_INVALID_REQ" "Invalid or malformed request.".
Definition HeadersTooLarge := fixed_spec 431 "ERR_TOO_BIG" "Request headers too large.".
Definition RequestTimeout := fixed_spec 408 "ERR_REQUEST_TIMEOUT" "Timed out waiting for the request.".
Definition UpstreamUnreachable :=
  fixed_spec 523 "ERR_DNS_FAIL" "The remote server's address could not be resolved.".
Definition UpstreamDown := fixed_spec 521 "ERR_CONNECT_FAIL" "The remote server refused the connection.".
Definition ConnectTimeout :=
  fixed_spec 522 "ERR_CONNECT_FAIL" "Connection to the remote server timed out.".
Definition ReadTimeout := fixed_spec 524 "ERR_READ_TIMEOUT" "The remote server stopped responding.".
Definition TLSHandshakeFail :=
  fixed_spec 525 "ERR_SECURE_CONNECT_FAIL"
    "Unable to negotiate a secure connection to the remote server.".
Definition BadGateway :=
  fixed_spec 502 "ERR_INVALID_RESP" "The remote server returned an invalid response.".
Definition ZeroSizeObject :=
  fixed_spec 502 "ERR_ZERO_SIZE_OBJECT"
    "The remote server closed the connection without sending a response.".
Definition InternalError := fixed_spec 500 "ERR_GATEWAY_FAILURE" "Internal proxy error.".
Definition ForwardingDenied :=
  fixed_spec 403 "ERR_FORWARDING_DENIED" "Forwarding to this address is not permitted.".
Definition RuleDenied := fixed_spec 403 "ERR_RULE_DENIED" "This connection is denied by policy.".
Definition MisdirectedRequest :=
  fixed_spec 421 "ERR_MISDIRECTED_REQUEST"
    "This connection cannot serve requests for the requested host.".
Definition OutcallFail := fixed_spec 502 "ERR_OUTCALL_FAIL" "The policy service could not be reached.".

Definition dquote : bytes := [byte_of 34].

(** [strings.ReplaceAll] of the double quote by nothing. *)
Definition strip_quotes (s : bytes) : bytes := filter (fun c => c <> byte_of 34) s.

Definition ProxyAuthRequired (realm : bytes) (schemes : list bytes) : Spec :=
  let realm := strip_quotes realm in
  {| sp_Status := 407; sp_ErrCode := str "ERR_CACHE_ACCESS_DENIED";
     sp_Message := str "Proxy authentication required.";
     sp_Headers := foldl (fun h scheme =>
       Header_Add h (str "Proxy-Authenticate")
         (scheme ++ str " realm=" ++ dquote ++ realm ++ dquote)%list) [] schemes |}.

Definition OutcallDenied (status : Z) (message : bytes) : Spec :=
  {| sp_Status := if status =? 0 then 403 else status; sp_ErrCode := str "ERR_OUTCALL_DENIED";
     sp_Message := if bool_decide (message = []) then str "Denied by policy." else message;
     sp_Headers := [] |}.

(** [httperror.Raise]. *)
Definition RaiseSpec (status : Z) (message : bytes) : Spec :=
  {| sp_Status := if status =? 0 then 403 else status; sp_ErrCode := str "ERR_ACCESS_DENIED";
     sp_Message := message; sp_Headers := [] |}.

(** ** Reason phrases *)

(** [http.StatusText]. *)
Definition StatusText_table : list (Z * string) :=
  [(100, "Continue"); (101, "Switching Protocols"); (102, "Processing"); (103, "Early Hints");
   (200, "OK"); (201, "Created"); (202, "Accepted"); (203, "Non-Authoritative Information");
   (204, "No Content"); (205, "Reset Content"); (206, "Partial Content"); (207, "Multi-Status");
   (208, "Already Reported"); (226, "IM Used");
   (300, "Multiple Choices"); (301, "Moved Permanently"); (302, "Found"); (303, "See Other");
   (304, "Not Modified"); (305, "Use Proxy"); (307, "Temporary Redirect"); (308, "Permanent Redirect");
   (400, "Bad Request"); (401, "Unauthorized"); (402, "Payment Required"); (403, "Forbidden");
   (404, "Not Found"); (405, "Method Not Allowed"); (406, "Not Acceptable");
   (407, "Proxy Authentication Required"); (408, "Request Timeout"); (409, "Conflict"); (410, "Gone");
   (411, "Length Required"); (412, "Precondition Failed"); (413, "Request Entity Too Large");
   (414, "Request URI Too Long"); (415, "Unsupported Media Type");
   (416, "Requested Range Not Satisfiable"); (417, "Expectation Failed"); (418, "I'm a teapot");
   (421, "Misdirected Request"); (422, "Unprocessable Entity"); (423, "Locked");
   (424, "Failed Dependency"); (425, "Too Early"); (426, "Upgrade Required");
   (428, "Precondition Required"); (429, "Too Many Requests"); (431, "Request Header Fields Too Large");
   (451, "Unavailable For Legal Reasons");
   (500, "Internal Server Error"); (501, "Not Implemented"); (502, "Bad Gateway");
   (503, "Service Unavailable"); (504, "Gateway Timeout"); (505, "HTTP Version Not Supported");
   (506, "Variant Also Negotiates"); (507, "Insufficient Storage"); (508, "Loop Detected");
   (510, "Not Extended"); (511, "Network Authentication Required")].

Definition cloudflareStatusText : list (Z * string) :=
  [(521, "Web Server Is Down"); (522, "Connection Timed Out"); (523, "Origin Is Unreachable");
   (524, "A Timeout Occurred"); (525, "SSL Handshake Failed"); (526, "Invalid SSL Certificate")].

Fixpoint code_text (code : Z) (t : list (Z * string)) : bytes :=
  match t with
  | [] => []
  | (c, s) :: t => if code =? c then str s else code_text code t
  end.

Definition StatusText (code : Z) : bytes := code_text code StatusText_table.

Definition statusText (code : Z) : bytes :=
  match StatusText code with
  | [] => code_text code cloudflareStatusText
  | t => t
  end.

(** ** The page *)

(** [html/template]'s replacement table: what a text, title or attribute hole
    does to a byte. *)
Definition html_byte (c : ascii) : bytes :=
  let b := byte_val c in
  if b =? 0 then map byte_of [0xEF; 0xBF; 0xBD]
  else if b =? 34 then str "&#34;"
  else if b =? 38 then str "&amp;"
  else if b =? 39 then str "&#39;"
  else if b =? 43 then str "&#43;"
  else if b =? 60 then str "&lt;"
  else if b =? 62 then str "&gt;"
  else [c].

Definition html_escape (s : bytes) : bytes := concat (map html_byte s).

(** [isSafeURL]: a scheme, when there is one, is http, https or mailto. *)
Definition isSafeURL (s : bytes) : bool :=
  match Cut ":" s with
  | Some (protocol, _) =>
      if bool_decide ("/"%char ∈ protocol) then true
      else existsb (EqualFold protocol) [str "http"; str "https"; str "mailto"]
  | None => true
  end.

Definition urlfilter (s : bytes) : bytes := if isSafeURL s then s else str "#ZgotmplZ".

(** The bytes a normalised URL keeps. *)
Definition url_plain (c : ascii) : bool :=
  is_lower c || is_upper c || is_digit c || existsb (Ascii.eqb c) (str "!#$&*+,/:;=?@[]-._~").

Definition percent (c : ascii) : bytes :=
  ["%"%char; hex_digit (byte_val c / 16); hex_digit (byte_val c mod 16)].

(** [processURLOnto] with [norm]: a valid escape is kept. *)
Fixpoint urlnormalize (s : bytes) : bytes :=
  match s with
  | [] => []
  | c :: t =>
      if url_plain c then c :: urlnormalize t
      else if Ascii.eqb c "%" then
        match t with
        | x :: y :: _ =>
            (if bool_decide (is_Some (hex_nibble x)) && bool_decide (is_Some (hex_nibble y)) then [c]
             else percent c) ++ urlnormalize t
        | _ => percent c ++ urlnormalize t
        end
      else percent c ++ urlnormalize t
  end%list.

Definition url_attr (s : bytes) : bytes := html_escape (urlnormalize (urlfilter s)).

Definition nl : bytes := [byte_of 10].
Definition Generator : bytes := str "squid".

(** [Render], at a given time stamp. *)
Definition Render (timestamp reqURL : bytes) (spec : Spec) : bytes :=
  (str "<!DOCTYPE html>" ++ nl ++ str "<html>" ++ nl
   ++ str "<head><meta charset=" ++ dquote ++ str "utf-8" ++ dquote ++ str "><title>ERROR: "
   ++ html_escape (sp_Message spec) ++ str "</title></head>" ++ nl
   ++ str "<body>" ++ nl ++ str "<h1>ERROR</h1>" ++ nl
   ++ str "<p>While trying to retrieve the URL: <a href=" ++ dquote ++ url_attr reqURL ++ dquote
   ++ str ">" ++ html_escape reqURL ++ str "</a></p>" ++ nl
   ++ str "<p>" ++ html_escape (sp_Message spec) ++ str "</p>" ++ nl
   ++ str "<p>" ++ html_escape (sp_ErrCode spec) ++ str "</p>" ++ nl
   ++ str "<hr>" ++ nl
   ++ str "<p><small>Generated by " ++ html_escape Generator ++ str " at " ++ html_escape timestamp
   ++ str "</small></p>" ++ nl ++ str "</body>" ++ nl ++ str "</html>" ++ nl)%list.

Definition crlf : bytes := [byte_of 13; byte_of 10].

Definition header_lines (h : Header) : bytes :=
  concat (map (fun kv => concat (map (fun v => kv.1 ++ str ": " ++ v ++ crlf) kv.2)) h)%list.

(** The status line and the header block of [WriteResponse]. *)
Definition response_head (spec : Spec) (body : bytes) : bytes :=
  (str "HTTP/1.1 " ++ Itoa (sp_Status spec) ++ str " " ++ statusText (sp_Status spec) ++ crlf
   ++ str "Content-Type: text/html; charset=utf-8" ++ crlf
   ++ str "Content-Length: " ++ Itoa (Z.of_nat (length body)) ++ crlf
   ++ header_lines (sp_Headers spec)
   ++ str "Connection: close" ++ crlf ++ crlf)%list.

(** [WriteResponse]: what is written. *)
Definition WriteResponse (timestamp reqURL : bytes) (spec : Spec) : bytes :=
  let body := Render timestamp reqURL spec in (response_head spec body ++ body)%list.

(** ** Reading a response back

    What a client does with the bytes: header lines up to the blank one, then
    as many body bytes as [Content-Length] says. *)

Definition lf : ascii := byte_of 10.
Definition cr : bytes := [byte_of 13].

Fixpoint read_lines (fuel : nat) (s : bytes) : option (list bytes * bytes) :=
  match fuel with
  | O => None
  | S fuel =>
      '(l, rest) ← Cut lf s;
      match TrimSuffix cr l with
      | [] => Some ([], rest)
      | l => '(ls, rest) ← read_lines fuel rest; Some (l :: ls, rest)
      end
  end.

Fixpoint content_length (lines : list bytes) : option Z :=
  match lines with
  | [] => None
  | l :: t =>
      match CutPrefix (str "Content-Length: ") l with
      | Some v => match Atoi v with Ok n => Some n | Error _ => None end
      | None => content_length t
      end
  end.

(** The status field of a status line. *)
Definition status_of (line : bytes) : option Z :=
  rest ← CutPrefix (str "HTTP/1.1 ") line;
  '(code, _) ← Cut " " rest;
  match Atoi code with Ok n => Some n | Error _ => None end.

Definition read_response (s : bytes) : option (Z * bytes * bytes) :=
  '(lines, rest) ← read_lines (S (length s)) s;
  status ← status_of (default [] (head lines));
  n ← content_length lines;
  Some (status, take (Z.to_nat n) rest, drop (Z.to_nat n) rest).

(** ** Escaping *)

(** The bytes that open or close a tag or an attribute value. *)
Definition markup_byte (c : ascii) : Prop := c ∈ [byte_of 60; byte_of 62; byte_of 34].
#[export] Instance markup_byte_dec c : Decision (markup_byte c) := _.

Definition markup (s : bytes) : bytes := filter markup_byte s.

Lemma markup_app a b : markup (a ++ b) = (markup a ++ markup b)%list.
Proof. apply filter_app. Qed.

Lemma markup_html_byte c : markup (html_byte c) = [].
Proof. destruct c as [[] [] [] [] [] [] [] []]; vm_compute; reflexivity. Qed.

Lemma markup_escaped s : markup (html_escape s) = [].
Proof.
  unfold html_escape. induction s as [|c t IH]; [done|].
  cbn [map concat]. by rewrite markup_app, markup_html_byte, IH.
Qed.

(** ** Lines *)

Definition line_ok (l : bytes) : Prop := (lf ∉ l) /\ l <> [].

Definition unlines (ls : list bytes) : bytes := concat (map (fun l => (l ++ crlf)%list) ls).

Lemma CutSuffix_app p s : CutSuffix p (s ++ p) = Some s.
Proof. by apply CutSuffix_Some. Qed.

Lemma read_lines_unlines ls rest fuel :
  Forall line_ok ls -> (length ls < fuel)%nat ->
  read_lines fuel (unlines ls ++ crlf ++ rest) = Some (ls, rest).
Proof.
  revert fuel. induction ls as [|l t IH]; intros [|fuel] Hok Hf; try (simpl in Hf; lia); [done|].
  apply Forall_cons in Hok as [[Hl Hne] Ht]. cbn [read_lines].
  replace (unlines (l :: t) ++ crlf ++ rest)%list
    with ((l ++ cr) ++ lf :: (unlines t ++ crlf ++ rest))%list
    by (unfold unlines; cbn [map concat]; rewrite <- !app_assoc; done).
  rewrite Cut_app; cycle 1.
  { rewrite elem_of_app. intros [|Hc]; [done|]. apply list_elem_of_singleton in Hc. discriminate. }
  cbn. unfold TrimSuffix. rewrite CutSuffix_app. cbn [default].
  destruct l as [|c l]; [done|]. rewrite IH; [done|done|simpl in Hf; lia].
Qed.

(** The header lines a specification adds carry no line feed. *)
Definition headers_ok (h : Header) : Prop :=
  Forall (fun kv => Forall (fun v => (lf ∉ kv.1) /\ (lf ∉ v)) kv.2) h.

Definition extra_lines (h : Header) : list bytes :=
  concat (map (fun kv => map (fun v => (kv.1 ++ str ": " ++ v)%list) (kv.2)) h).

Definition head_lines (spec : Spec) (body : bytes) : list bytes :=
  ([str "HTTP/1.1 " ++ Itoa (sp_Status spec) ++ str " " ++ statusText (sp_Status spec);
    str "Content-Type: text/html; charset=utf-8";
    str "Content-Length: " ++ Itoa (Z.of_nat (length body))]
   ++ extra_lines (sp_Headers spec) ++ [str "Connection: close"])%list.

Lemma unlines_app a b : unlines (a ++ b) = (unlines a ++ unlines b)%list.
Proof. unfold unlines. by rewrite map_app, concat_app. Qed.

Lemma unlines_extra h : unlines (extra_lines h) = header_lines h.
Proof.
  unfold extra_lines, header_lines. induction h as [|[k vs] t IH]; [done|].
  cbn [map concat]. rewrite unlines_app, IH. f_equal. unfold unlines. rewrite map_map.
  f_equal. apply map_ext. intros v. by rewrite <- !app_assoc.
Qed.

Lemma response_head_lines spec body : response_head spec body = (unlines (head_lines spec body) ++ crlf)%list.
Proof.
  unfold response_head, head_lines. rewrite !unlines_app, unlines_extra.
  unfold unlines. cbn [map concat]. rewrite !app_nil_r, <- !app_assoc. reflexivity.
Qed.

Lemma code_text_no_lf code t :
  forallb (fun cs => negb (bool_decide (lf ∈ str cs.2))) t = true -> lf ∉ code_text code t.
Proof.
  induction t as [|[c s] t IH]; cbn [forallb code_text]; [by intros _ ?%not_elem_of_nil|].
  intros [H Ht]%andb_prop. destruct (code =? c); [|by apply IH].
  cbn in H. apply negb_true_iff, bool_decide_eq_false in H. exact H.
Qed.

Lemma statusText_no_lf code : lf ∉ statusText code.
Proof.
  unfold statusText. pose proof (code_text_no_lf code StatusText_table ltac:(vm_compute; reflexivity)) as H.
  unfold StatusText. destruct (code_text code StatusText_table); [|done].
  apply code_text_no_lf. vm_compute. reflexivity.
Qed.

Lemma digits_no c s : forallb is_digit s = true -> is_digit c = false -> c ∉ s.
Proof.
  intros Hs Hc Hin. rewrite forallb_forall in Hs.
  rewrite (Hs c) in Hc; [done|by apply list_elem_of_In].
Qed.

Lemma no_lf (s : bytes) : bool_decide (lf ∈ s) = false -> lf ∈ s -> False.
Proof. by intros ?%bool_decide_eq_false. Qed.

Lemma head_lines_ok spec body :
  0 <= sp_Status spec -> headers_ok (sp_Headers spec) -> Forall line_ok (head_lines spec body).
Proof.
  intros Hs Hh. unfold head_lines. rewrite !Forall_app. split_and!.
  - assert (Hd : forall n, 0 <= n -> lf ∉ Itoa n)
      by (intros n Hn; apply digits_no; [by apply Itoa_digits|reflexivity]).
    repeat apply Forall_cons_2; [..|done]; (split; [|done]); rewrite ?elem_of_app.
    + intros [H|[H|[H|H]]];
        [by apply no_lf in H|by apply Hd in H|by apply no_lf in H|by apply statusText_no_lf in H].
    + intros H. by apply no_lf in H.
    + intros [H|H]; [by apply no_lf in H|apply Hd in H; [done|lia]].
  - unfold extra_lines. apply Forall_concat, Forall_map. eapply Forall_impl; [exact Hh|].
    intros [k vs] Hvs. apply Forall_map. eapply Forall_impl; [exact Hvs|]. intros v [Hk Hv]. cbn [fst snd] in *.
    split; [|by destruct k]. rewrite !elem_of_app. intros [|[H|]]; [done|by apply no_lf in H|done].
  - apply Forall_singleton. split; [|done]. intros H. by apply no_lf in H.
Qed.

Lemma length_unlines ls : (length ls <= length (unlines ls))%nat.
Proof.
  unfold unlines. induction ls as [|l t IH]; cbn [map concat length]; [lia|].
  rewrite !length_app. simpl. lia.
Qed.

Lemma head_status spec body :
  0 <= sp_Status spec < 2 ^ 63 ->
  status_of (default [] (head (head_lines spec body))) = Some (sp_Status spec).
Proof.
  intros Hs. unfold status_of, head_lines. cbn [app]. change (default [] (head (?a :: ?t))) with a.
  rewrite (proj2 (CutPrefix_Some (str "HTTP/1.1 ") _ _) eq_refl). cbn [mbind option_bind].
  change (str " " ++ ?x)%list with (" "%char :: x).
  rewrite (Cut_app " "); [|apply digits_no; [apply Itoa_digits; lia|reflexivity]].
  cbn [mbind option_bind]. by rewrite Atoi_Itoa by lia.
Qed.

Lemma head_length spec body :
  Z.of_nat (length body) < 2 ^ 63 ->
  content_length (head_lines spec body) = Some (Z.of_nat (length body)).
Proof.
  intros Hlen. unfold head_lines. cbn [app].
  change (content_length (?a :: ?b :: ?t)) with (content_length t).
  cbn [content_length]. rewrite (proj2 (CutPrefix_Some (str "Content-Length: ") _ _) eq_refl).
  by rewrite Atoi_Itoa by lia.
Qed.

(** Every error response is self-delimiting: whatever the message, the URL
    and the time stamp (attacker-chosen or not), a client that reads header
    lines up to the blank one and then [Content-Length] bytes gets exactly the
    status and the page, and nothing is left over. *)
Theorem response_self_delimiting timestamp reqURL spec :
  0 <= sp_Status spec < 2 ^ 63 ->
  headers_ok (sp_Headers spec) ->
  Z.of_nat (length (Render timestamp reqURL spec)) < 2 ^ 63 ->
  read_response (WriteResponse timestamp reqURL spec)
  = Some (sp_Status spec, Render timestamp reqURL spec, []).
Proof.
  intros Hs Hh Hlen. unfold WriteResponse. set (body := Render _ _ _) in *.
  unfold read_response. rewrite response_head_lines, <- app_assoc.
  rewrite read_lines_unlines;
    [|apply head_lines_ok; [lia|done]|pose proof (length_unlines (head_lines spec body)); rewrite length_app; lia].
  cbn [mbind option_bind].
  rewrite head_status, head_length by lia. cbn [mbind option_bind].
  rewrite Nat2Z.id, take_ge, drop_ge by lia. done.
Qed.

(** No message, URL, error code or time stamp can inject markup into an
    error page: the sequence of angle brackets and double quotes in the page is
    that of the empty page. *)
Theorem page_markup_constant timestamp reqURL spec :
  markup (Render timestamp reqURL spec) = markup (Render [] [] ({| sp_Status := 0; sp_ErrCode := []; sp_Message := []; sp_Headers := [] |})).
Proof.
  unfold Render, url_attr. cbn [ sp_Message sp_ErrCode].
  rewrite !markup_app, !markup_escaped. reflexivity.
Qed.

Lemma response_self_delimiting_witness :
  read_response (WriteResponse (str "now") (str "http://a/<b>") (ProxyAuthRequired (str "corp") [str "Basic"]))
  = Some (407, Render (str "now") (str "http://a/<b>") (ProxyAuthRequired (str "corp") [str "Basic"]), []).
Proof.
  apply (response_self_delimiting (str "now") (str "http://a/<b>")
           (ProxyAuthRequired (str "corp") [str "Basic"])).
  - vm_compute. split; congruence.
  - repeat constructor; cbn [fst snd]; intros H; by apply no_lf in H.
  - vm_compute. reflexivity.
Defined.
