(* ===== verification/Actions.v ===== *)
(** * The request and response actions (internal/rules/actions_http.go)

    An interceptor holds the message it mutates; each action returns the new
    interceptor and a verdict.  [for name, v := range p] visits the parameters
    in the order of the list, which stands for any iteration order: the last
    theorem shows when the order does not matter. *)

From S2P Require Import Prelude GoStrings Json Encoding Schema Matcher Compile RuleSet Headers HttpError.

Open Scope Z_scope.

Record Verdict : Type := { ShortCircuit : bool; v_Resp : option Spec }.

(** [Verdict{}]. *)
Definition pass : Verdict := {| ShortCircuit := false; v_Resp := None |}.
Definition respond (spec : Spec) : Verdict := {| ShortCircuit := true; v_Resp := Some spec |}.

(** ** Request actions, on the header of [Req] *)

Definition add_header (h : Header) (kv : bytes * any) : Header :=
  Header_Add h (CanonicalMIMEHeaderKey kv.1) (toString kv.2).

Definition set_header (h : Header) (kv : bytes * any) : Header :=
  let key := CanonicalMIMEHeaderKey kv.1 in
  match kv.2 with
  | ANull => Header_Del h key
  | v => Header_Set h key (toString v)
  end.

Definition HeaderAdd (h : Header) (p : Params) : Header * Verdict := (foldl add_header h p, pass).
Definition HeaderSet (h : Header) (p : Params) : Header * Verdict := (foldl set_header h p, pass).

Definition Raise (h : Header) (p : Params) : Header * Verdict :=
  let status := default 0 (Params_Int p (str "http")) in
  let body := default [] (Params_String p (str "body")) in
  (h, respond (RaiseSpec status body)).

Definition Block (h : Header) (p : Params) : Header * Verdict :=
  (h, {| ShortCircuit := true; v_Resp := None |}).

(** ** Response actions *)

Record ResponseInterceptor : Type := {
  ri_Header : Header;
  ri_BodyOverride : option bytes;
  ri_StatusOverride : Z }.

Definition with_header (r : ResponseInterceptor) (h : Header) : ResponseInterceptor :=
  {| ri_Header := h; ri_BodyOverride := ri_BodyOverride r; ri_StatusOverride := ri_StatusOverride r |}.

Definition ResponseHeaderAdd (r : ResponseInterceptor) (p : Params) : ResponseInterceptor :=
  with_header r (foldl add_header (ri_Header r) p).

Definition ResponseHeaderSet (r : ResponseInterceptor) (p : Params) : ResponseInterceptor :=
  with_header r (foldl set_header (ri_Header r) p).

Definition BodyReplace (r : ResponseInterceptor) (p : Params) : ResponseInterceptor :=
  {| ri_Header := ri_Header r; ri_BodyOverride := Some (default [] (Params_String p (str "body")));
     ri_StatusOverride := ri_StatusOverride r |}.

Definition StatusSet (r : ResponseInterceptor) (p : Params) : ResponseInterceptor :=
  match Params_Int p (str "status") with
  | Some status =>
      if status =? 0 then r
      else {| ri_Header := ri_Header r; ri_BodyOverride := ri_BodyOverride r; ri_StatusOverride := status |}
  | None => r
  end.

(** [applyResponseActions] (proxy/actions.go): no response action
    short-circuits, so the verdict is always the empty one. *)
Definition applyResponseAction (r : ResponseInterceptor) (a : CompiledAction) : ResponseInterceptor :=
  let p := ca_Params a in
  if bool_decide (ca_Name a = str "header.add") then ResponseHeaderAdd r p
  else if bool_decide (ca_Name a = str "header.set") then ResponseHeaderSet r p
  else if bool_decide (ca_Name a = str "body.replace") then BodyReplace r p
  else if bool_decide (ca_Name a = str "status.set") then StatusSet r p
  else r.

Definition applyResponseActions (r : ResponseInterceptor) (actions : list CompiledAction)
    : ResponseInterceptor * Verdict :=
  (foldl applyResponseAction r actions, pass).

(** ** What header.set leaves behind *)

Lemma set_header_lookup h kv name :
  assoc name (set_header h kv)
  = if bool_decide (CanonicalMIMEHeaderKey kv.1 = name) then
      match kv.2 with ANull => None | v => Some [toString v] end
    else assoc name h.
Proof.
  unfold set_header, Header_Del, Header_Set.
  destruct kv.2; rewrite CanonicalMIMEHeaderKey_idem; autorewrite with headers; done.
Qed.

Lemma add_header_lookup h kv name :
  assoc name (add_header h kv)
  = if bool_decide (CanonicalMIMEHeaderKey kv.1 = name) then
      Some (default [] (assoc name h) ++ [toString kv.2])%list
    else assoc name h.
Proof.
  unfold add_header, Header_Add, Header_Values.
  rewrite !CanonicalMIMEHeaderKey_idem. autorewrite with headers.
  case_bool_decide; [by subst|done].
Qed.

#[export] Hint Rewrite set_header_lookup add_header_lookup : headers.

#[export] Instance set_header_proper : Proper (header_equiv ==> eq ==> header_equiv) set_header.
Proof. intros h k E ? kv -> n. by rewrite !set_header_lookup, (E n). Qed.

#[export] Instance add_header_proper : Proper (header_equiv ==> eq ==> header_equiv) add_header.
Proof. intros h k E ? kv -> n. by rewrite !add_header_lookup, (E n). Qed.

(** The names of the parameters as header names. *)
Definition header_names (p : Params) : list bytes := map (fun kv => CanonicalMIMEHeaderKey kv.1) p.

Lemma foldl_other (f : Header -> bytes * any -> Header) h (p : Params) name :
  (forall h kv n, CanonicalMIMEHeaderKey kv.1 <> n -> assoc n (f h kv) = assoc n h) ->
  name ∉ header_names p -> assoc name (foldl f h p) = assoc name h.
Proof.
  intros Hf. revert h. induction p as [|kv t IH]; intros h Hn; [done|].
  cbn [header_names map] in Hn. apply not_elem_of_cons in Hn as [Hne Ht].
  cbn [foldl]. by rewrite IH, Hf.
Qed.

Lemma set_other h p name : name ∉ header_names p -> assoc name (foldl set_header h p) = assoc name h.
Proof. apply foldl_other. intros ? ? ? ?. rewrite set_header_lookup. by case_bool_decide. Qed.

Lemma add_other h p name : name ∉ header_names p -> assoc name (foldl add_header h p) = assoc name h.
Proof. apply foldl_other. intros ? ? ? ?. rewrite add_header_lookup. by case_bool_decide. Qed.

(** A parameter's effect, seen at its own name, when no other parameter has it. *)
Lemma foldl_at (f : Header -> bytes * any -> Header) h (p : Params) kv :
  (forall h kv n, CanonicalMIMEHeaderKey kv.1 <> n -> assoc n (f h kv) = assoc n h) ->
  (forall h k kv n, assoc n h = assoc n k -> assoc n (f h kv) = assoc n (f k kv)) ->
  NoDup (header_names p) -> kv ∈ p ->
  assoc (CanonicalMIMEHeaderKey kv.1) (foldl f h p) = assoc (CanonicalMIMEHeaderKey kv.1) (f h kv).
Proof.
  intros Hf Hext. revert h. induction p as [|kv' t IH]; intros h Hnd Hin; [by apply not_elem_of_nil in Hin|].
  cbn [header_names map] in Hnd. apply NoDup_cons in Hnd as [Hnew Hnd].
  cbn [foldl]. apply elem_of_cons in Hin as [->|Hin].
  - rewrite foldl_other by done. done.
  - rewrite IH by done. apply Hext. apply Hf. intros E. apply Hnew. rewrite E.
    apply list_elem_of_In. unfold header_names. apply in_map_iff. exists kv. split; [done|by apply list_elem_of_In].
Qed.

Lemma names_perm (p q : Params) : p ≡ₚ q -> header_names p ≡ₚ header_names q.
Proof. intros H. unfold header_names. by rewrite H. Qed.

(** Applying parameters of distinct names commutes. *)
Lemma foldl_order (f : Header -> bytes * any -> Header) h p q :
  (forall h kv n, CanonicalMIMEHeaderKey kv.1 <> n -> assoc n (f h kv) = assoc n h) ->
  (forall h k kv n, assoc n h = assoc n k -> assoc n (f h kv) = assoc n (f k kv)) ->
  NoDup (header_names p) -> p ≡ₚ q -> header_equiv (foldl f h p) (foldl f h q).
Proof.
  intros Hf Hext Hnd Hpq n.
  assert (Hq : NoDup (header_names q)) by (by rewrite <- (names_perm _ _ Hpq)).
  destruct (decide (n ∈ header_names p)) as [Hin|Hout].
  - unfold header_names in Hin. apply list_elem_of_fmap in Hin as (kv & -> & Hin).
    rewrite !(foldl_at f _ _ kv); try done. by rewrite <- Hpq.
  - rewrite !foldl_other; try done. by rewrite <- (names_perm _ _ Hpq).
Qed.

Lemma set_ext h k kv n : assoc n h = assoc n k -> assoc n (set_header h kv) = assoc n (set_header k kv).
Proof. intros E. by rewrite !set_header_lookup, E. Qed.

Lemma add_ext h k kv n : assoc n h = assoc n k -> assoc n (add_header h kv) = assoc n (add_header k kv).
Proof. intros E. by rewrite !add_header_lookup, E. Qed.

Lemma set_miss h kv n : CanonicalMIMEHeaderKey kv.1 <> n -> assoc n (set_header h kv) = assoc n h.
Proof. intros. rewrite set_header_lookup. by case_bool_decide. Qed.

Lemma add_miss h kv n : CanonicalMIMEHeaderKey kv.1 <> n -> assoc n (add_header h kv) = assoc n h.
Proof. intros. rewrite add_header_lookup. by case_bool_decide. Qed.

(** Header.set and header.add on the request.  When no two parameters name
    the same header, header.set makes each named header the single given value
    (or deletes it on null), header.add appends the value, no other header
    changes, neither ends the pipeline, and the result does not depend on the
    order in which Go's map iteration visits the parameters. *)
Theorem header_actions_effect h p q :
  NoDup (header_names p) -> p ≡ₚ q ->
  (HeaderSet h p).2 = pass /\ (HeaderAdd h p).2 = pass
  /\ header_equiv (HeaderSet h p).1 (HeaderSet h q).1
  /\ header_equiv (HeaderAdd h p).1 (HeaderAdd h q).1
  /\ (forall name, name ∉ header_names p ->
        assoc name (HeaderSet h p).1 = assoc name h /\ assoc name (HeaderAdd h p).1 = assoc name h)
  /\ (forall k v, (k, v) ∈ p ->
        Header_Values (HeaderSet h p).1 k = match v with ANull => [] | _ => [toString v] end
        /\ Header_Values (HeaderAdd h p).1 k = (Header_Values h k ++ [toString v])%list).
Proof.
  intros Hnd Hpq. cbn [HeaderSet HeaderAdd fst snd]. split_and!; [done..| | | |].
  - apply foldl_order; auto using set_miss, set_ext.
  - apply foldl_order; auto using add_miss, add_ext.
  - intros name Hn. split; apply foldl_other; auto using set_miss, add_miss.
  - intros k v Hin. unfold Header_Values. cbn [fst].
    pose proof (foldl_at set_header h p (k, v) set_miss set_ext Hnd Hin) as Hs.
    pose proof (foldl_at add_header h p (k, v) add_miss add_ext Hnd Hin) as Ha. cbn [fst] in Hs, Ha.
    rewrite Hs, Ha, set_header_lookup, add_header_lookup. cbn [fst snd].
    case_bool_decide; [|done]. by destruct v.
Qed.

Lemma header_actions_effect_witness :
  NoDup (header_names [(str "X-A", AStr (str "1")); (str "x-b", ANull)]) /\
  header_equiv (HeaderSet [] [(str "X-A", AStr (str "1")); (str "x-b", ANull)]).1
               (HeaderSet [] [(str "x-b", ANull); (str "X-A", AStr (str "1"))]).1.
Proof.
  split; [refine (bool_decide_eq_true_1 (NoDup _) _); vm_compute; reflexivity|].
  apply (header_actions_effect [] [(str "X-A", AStr (str "1")); (str "x-b", ANull)]
           [(str "x-b", ANull); (str "X-A", AStr (str "1"))]).
  - refine (bool_decide_eq_true_1 (NoDup _) _); vm_compute; reflexivity.
  - constructor.
Defined.

(** ** The response pipeline *)

(** A compiled response action never short-circuits, so the whole list runs. *)
Lemma applyResponseActions_app r a b :
  (applyResponseActions r (a ++ b)).1
  = (applyResponseActions (applyResponseActions r a).1 b).1.
Proof. cbn [applyResponseActions fst]. apply foldl_app. Qed.
