(* ===== verification/CacheControl.v ===== *)
(** * Freshness of broker replies (internal/outcall/cachecontrol.go)

    Times are nanoseconds, durations are [int64] nanoseconds with Go's
    wrap-around.  [http.ParseTime] is an interface: the code only relies on it
    being a function of the header text. *)

From S2P Require Import Prelude GoStrings Json Encoding Schema Matcher Compile HostIndex RuleSet Headers.

Open Scope Z_scope.

Class HttpDates : Type := { ParseTime : bytes -> option Z }.

(** The instance that reads a decimal number of nanoseconds. *)
Definition decimal_dates : HttpDates :=
  {| ParseTime := fun s => match Atoi s with Ok n => Some n | Error _ => None end |}.

(** ** Durations *)

Definition int64 (z : Z) : Z := (z + 2 ^ 63) mod 2 ^ 64 - 2 ^ 63.

Definition Second : Z := 1000000000.

(** [time.Duration(n) * time.Second]. *)
Definition seconds (n : Z) : Z := int64 (n * Second).

(** [t.Sub(u)], which saturates. *)
Definition time_sub (t u : Z) : Z := Z.max (- 2 ^ 63) (Z.min (2 ^ 63 - 1) (t - u)).

(** ** Directives *)

Record cacheControl : Type := {
  cc_noStore : bool;
  cc_mustRevalidate : bool;
  cc_hasMaxAge : bool;
  cc_maxAge : Z;
  cc_staleWhileRevalidate : Z;
  cc_staleIfError : Z }.

Definition zero_cc : cacheControl :=
  {| cc_noStore := false; cc_mustRevalidate := false; cc_hasMaxAge := false; cc_maxAge := 0;
     cc_staleWhileRevalidate := 0; cc_staleIfError := 0 |}.

(** [strings.Trim(s, cutset)] for the double quote. *)
Fixpoint trim_left_quotes (s : bytes) : bytes :=
  match s with
  | c :: t => if Ascii.eqb c (byte_of 34) then trim_left_quotes t else s
  | [] => []
  end.

Definition trim_quotes (s : bytes) : bytes := rev (trim_left_quotes (rev (trim_left_quotes s))).

Record freshness : Type := {
  fr_cacheable : bool;
  fr_freshFor : Z;
  fr_mustRevalidate : bool;
  fr_staleWhileRevalidate : Z;
  fr_staleIfError : Z }.

Section CacheControl.
Context `{UT : UnicodeTable} `{HD : HttpDates}.

(** One directive: its name in lower case and its argument. *)
Definition split_directive (dir : bytes) : bytes * bytes :=
  let '(name, arg) := default (dir, []) (Cut "=" dir) in
  (ToLower lower_run (TrimSpace name), trim_quotes (TrimSpace arg)).

(** The body of the loop of [parseCacheControl]. *)
Definition directive (cc : cacheControl) (dir : bytes) : cacheControl :=
  let dir := TrimSpace dir in
  if bool_decide (dir = []) then cc
  else
    let '(name, arg) := split_directive dir in
    if bool_decide (name = str "no-store") then
      {| cc_noStore := true; cc_mustRevalidate := cc_mustRevalidate cc; cc_hasMaxAge := cc_hasMaxAge cc;
         cc_maxAge := cc_maxAge cc; cc_staleWhileRevalidate := cc_staleWhileRevalidate cc;
         cc_staleIfError := cc_staleIfError cc |}
    else if bool_decide (name = str "must-revalidate") then
      {| cc_noStore := cc_noStore cc; cc_mustRevalidate := true; cc_hasMaxAge := cc_hasMaxAge cc;
         cc_maxAge := cc_maxAge cc; cc_staleWhileRevalidate := cc_staleWhileRevalidate cc;
         cc_staleIfError := cc_staleIfError cc |}
    else
      match Atoi arg with
      | Error _ => cc
      | Ok n =>
          if bool_decide (name = str "max-age") then
            {| cc_noStore := cc_noStore cc; cc_mustRevalidate := cc_mustRevalidate cc; cc_hasMaxAge := true;
               cc_maxAge := seconds n; cc_staleWhileRevalidate := cc_staleWhileRevalidate cc;
               cc_staleIfError := cc_staleIfError cc |}
          else if bool_decide (name = str "stale-while-revalidate") then
            {| cc_noStore := cc_noStore cc; cc_mustRevalidate := cc_mustRevalidate cc;
               cc_hasMaxAge := cc_hasMaxAge cc; cc_maxAge := cc_maxAge cc;
               cc_staleWhileRevalidate := seconds n; cc_staleIfError := cc_staleIfError cc |}
          else if bool_decide (name = str "stale-if-error") then
            {| cc_noStore := cc_noStore cc; cc_mustRevalidate := cc_mustRevalidate cc;
               cc_hasMaxAge := cc_hasMaxAge cc; cc_maxAge := cc_maxAge cc;
               cc_staleWhileRevalidate := cc_staleWhileRevalidate cc; cc_staleIfError := seconds n |}
          else cc
      end.

Definition parseCacheControl (value : bytes) : cacheControl := foldl directive zero_cc (Split "," value).

Definition parseFreshness (header : Header) (now : Z) : freshness :=
  let cc := parseCacheControl (Header_Get header (str "Cache-Control")) in
  if cc_noStore cc then
    {| fr_cacheable := false; fr_freshFor := 0; fr_mustRevalidate := false;
       fr_staleWhileRevalidate := 0; fr_staleIfError := 0 |}
  else
    let '(cacheable, freshFor) :=
      if cc_hasMaxAge cc then (true, cc_maxAge cc)
      else if bool_decide (Header_Get header (str "Expires") <> []) then
        match ParseTime (Header_Get header (str "Expires")) with
        | Some t => (true, if 0 <? time_sub t now then time_sub t now else 0)
        | None => (false, 0)
        end
      else (false, 0) in
    {| fr_cacheable := cacheable; fr_freshFor := freshFor; fr_mustRevalidate := cc_mustRevalidate cc;
       fr_staleWhileRevalidate := cc_staleWhileRevalidate cc; fr_staleIfError := cc_staleIfError cc |}.

(** ** What the directives mean *)

(** The directives that apply: non-blank ones, split. *)
Definition directives (value : bytes) : list (bytes * bytes) :=
  map split_directive (filter (fun d => d <> []) (map TrimSpace (Split "," value))).

(** The number of seconds the last well-formed directive of a name gives. *)
Fixpoint last_seconds (name : bytes) (ds : list (bytes * bytes)) : option Z :=
  match ds with
  | [] => None
  | (n, arg) :: t =>
      match last_seconds name t with
      | Some s => Some s
      | None => if bool_decide (n = name) then
                  match Atoi arg with Ok k => Some (seconds k) | Error _ => None end
                else None
      end
  end.

Definition mentions (name : bytes) (ds : list (bytes * bytes)) : bool :=
  existsb (fun d => bool_decide (d.1 = name)) ds.

(** A text's directives, from its comma-separated pieces. *)
Definition pieces (l : list bytes) : list (bytes * bytes) :=
  map split_directive (filter (fun d => d <> []) (map TrimSpace l)).

Lemma pieces_cons d l :
  pieces (d :: l) = if bool_decide (TrimSpace d = []) then pieces l
                    else split_directive (TrimSpace d) :: pieces l.
Proof. unfold pieces. cbn [map]. rewrite filter_cons. by case_decide; case_bool_decide. Qed.

(** The accumulated directives, field by field. *)
Lemma directives_fold l cc :
  let ds := pieces l in
  let r := foldl directive cc l in
  cc_noStore r = cc_noStore cc || mentions (str "no-store") ds
  /\ cc_mustRevalidate r = cc_mustRevalidate cc || mentions (str "must-revalidate") ds
  /\ cc_hasMaxAge r = cc_hasMaxAge cc || bool_decide (is_Some (last_seconds (str "max-age") ds))
  /\ cc_maxAge r = default (cc_maxAge cc) (last_seconds (str "max-age") ds)
  /\ cc_staleWhileRevalidate r
     = default (cc_staleWhileRevalidate cc) (last_seconds (str "stale-while-revalidate") ds)
  /\ cc_staleIfError r = default (cc_staleIfError cc) (last_seconds (str "stale-if-error") ds).
Proof.
  revert cc. induction l as [|d l IH]; intros cc; cbv zeta.
  { cbn. by rewrite !orb_false_r. }
  rewrite pieces_cons. cbn [foldl]. specialize (IH (directive cc d)). cbv zeta in IH.
  destruct IH as (-> & -> & -> & -> & -> & ->).
  unfold directive. destruct (bool_decide (TrimSpace d = [])); [by split_and!|].
  destruct (split_directive (TrimSpace d)) as [name arg]. cbn [mentions existsb last_seconds fst].
  repeat (case_bool_decide; subst; try discriminate);
    destruct (Atoi arg) as [n|e];
    repeat match goal with |- context [last_seconds ?x ?y] => destruct (last_seconds x y) eqn:? end;
    cbn; rewrite ?orb_true_r, ?orb_false_r; split_and!; try done;
    match goal with H : ~ is_Some (Some _) |- _ => by destruct H end.
Qed.

(** ** Claims *)

Lemma parseCacheControl_spec value :
  let ds := directives value in
  parseCacheControl value =
  {| cc_noStore := mentions (str "no-store") ds;
     cc_mustRevalidate := mentions (str "must-revalidate") ds;
     cc_hasMaxAge := bool_decide (is_Some (last_seconds (str "max-age") ds));
     cc_maxAge := default 0 (last_seconds (str "max-age") ds);
     cc_staleWhileRevalidate := default 0 (last_seconds (str "stale-while-revalidate") ds);
     cc_staleIfError := default 0 (last_seconds (str "stale-if-error") ds) |}.
Proof.
  cbv zeta. destruct (directives_fold (Split "," value) zero_cc) as (E1 & E2 & E3 & E4 & E5 & E6).
  unfold parseCacheControl. destruct (foldl directive zero_cc (Split "," value)). cbn in *. by subst.
Qed.

(** The cache never guesses.  A broker reply is cacheable exactly when it
    does not say no-store and either gives a well-formed max-age or, having
    none, an Expires date that parses; its lifetime is then that max-age, or the
    time left until Expires and never negative for it; must-revalidate and the
    two stale windows are what the last well-formed directive of that name says,
    whatever the letter case, the spacing and the order of the directives. *)
Theorem freshness_spec header now :
  let ds := directives (Header_Get header (str "Cache-Control")) in
  let expires := Header_Get header (str "Expires") in
  let fr := parseFreshness header now in
  (fr_cacheable fr = true <->
     mentions (str "no-store") ds = false
     /\ (is_Some (last_seconds (str "max-age") ds) \/ (expires <> [] /\ is_Some (ParseTime expires))))
  /\ (fr_cacheable fr = true ->
        fr_freshFor fr = match last_seconds (str "max-age") ds with
                         | Some d => d
                         | None => Z.max 0 (time_sub (default 0 (ParseTime expires)) now)
                         end
        /\ fr_mustRevalidate fr = mentions (str "must-revalidate") ds
        /\ fr_staleWhileRevalidate fr = default 0 (last_seconds (str "stale-while-revalidate") ds)
        /\ fr_staleIfError fr = default 0 (last_seconds (str "stale-if-error") ds)).
Proof.
  cbv zeta. unfold parseFreshness. rewrite parseCacheControl_spec. cbv zeta.
  set (ds := directives _). set (ex := Header_Get header (str "Expires")).
  cbn [cc_noStore cc_hasMaxAge cc_maxAge cc_mustRevalidate cc_staleWhileRevalidate cc_staleIfError].
  destruct (mentions (str "no-store") ds); [by split; [split; [|intros []]|]|].
  destruct (last_seconds (str "max-age") ds) as [d|] eqn:Hd.
  { rewrite bool_decide_eq_true_2 by eauto. cbn. split; [split; eauto|done]. }
  rewrite bool_decide_eq_false_2 by (intros [? ?]; done). cbn iota.
  destruct (bool_decide (ex <> [])) eqn:He; cycle 1.
  { apply bool_decide_eq_false in He. cbn.
    split; [split; [done|intros [_ [[]|[]]]; done]|done]. }
  apply bool_decide_eq_true in He.
  destruct (ParseTime ex) as [t|] eqn:Ht; cbn; cycle 1.
  { split; [split; [done|intros [_ [[]|[_ []]]]; done]|done]. }
  split; [split; [intros _; split; [done|right; eauto]|done]|].
  intros _. split; [|done]. destruct (0 <? time_sub t now) eqn:E; lia.
Qed.

End CacheControl.

(** A lifetime in seconds is represented exactly up to 9223372036 seconds
    (about 292 years); one second more wraps to a negative duration, so a larger
    max-age makes a reply stale on arrival instead of long-lived. *)
Theorem seconds_overflow :
  (forall n, - 9223372036 <= n <= 9223372036 -> seconds n = n * Second)
  /\ seconds 9223372037 < 0.
Proof.
  split; [|reflexivity]. intros n Hn. unfold seconds, int64, Second. rewrite Z.mod_small; lia.
Qed.
