(* ===== verification/Outcall.v ===== *)
(** * Broker calls (internal/outcall: envelope.go and service.go)

    The request and reply envelopes with their JSON forms, the cache entry with
    its three windows, and the service as a machine: a [Do] answers from the
    cache, joins or starts the one flight of its cache key, or is refused for
    capacity; a flight ends with the broker's reply, which updates the cache and
    answers every caller waiting on it.  Metrics, spans, debug logging and the
    per-target [http.Client] have no effect on the answers. *)

From stdpp Require Import gmap.
From S2P Require Import Prelude GoStrings Json Encoding Schema JsonRoundtrip JsonRules Matcher Compile.
From S2P Require Import HostIndex RuleSet Headers CacheControl.

Open Scope Z_scope.

(** ** The envelope *)

Inductive Action : Type := ActionWebhook | ActionHeaderFetch | ActionAuth.

Definition action_name (a : Action) : bytes :=
  match a with
  | ActionWebhook => str "webhook"
  | ActionHeaderFetch => str "header.fetch"
  | ActionAuth => str "auth"
  end.

Definition Version : Z := 1.

Record Credential : Type := { cr_Scheme : bytes; cr_Value : bytes }.

Record HTTPRequest : Type := { hr_Method : bytes; hr_URL : bytes; hr_Headers : Header }.

Record Request : Type := {
  rq_Version : Z;
  rq_Action : Action;
  rq_UUID : bytes;
  rq_Client : bytes;
  rq_Proto : bytes;
  rq_Dst : bytes;
  rq_HTTP : option HTTPRequest;
  rq_Credential : option Credential }.

Record HeaderValue : Type := { hv_Delete : bool; hv_Values : list bytes }.

Record HTTPResponse : Type := { hp_Headers : list (bytes * HeaderValue) }.

Record Response : Type := {
  rs_HTTP : option HTTPResponse;
  rs_Message : bytes;
  rs_HTTPStatus : Z;
  rs_Principal : bytes }.

Definition zero_response : Response :=
  {| rs_HTTP := None; rs_Message := []; rs_HTTPStatus := 0; rs_Principal := [] |}.

(** *** Encoding a request *)

Definition encode_http_request (h : HTTPRequest) : any :=
  AObj (member "method" false (AStr (hr_Method h))
        ++ member "url" false (AStr (hr_URL h))
        ++ member "headers" (is_nil (hr_Headers h))
             (sort_any (AObj (map (fun kv => (kv.1, e_list AStr kv.2)) (hr_Headers h)))))%list.

Definition encode_credential (c : Credential) : any :=
  AObj (member "scheme" false (AStr (cr_Scheme c)) ++ member "value" false (AStr (cr_Value c)))%list.

Definition encode_request (r : Request) : any :=
  AObj (member "version" false (ANum (rq_Version r) 0)
        ++ member "action" false (AStr (action_name (rq_Action r)))
        ++ member "uuid" (is_nil (rq_UUID r)) (AStr (rq_UUID r))
        ++ member "client" false (AStr (rq_Client r))
        ++ member "proto" false (AStr (rq_Proto r))
        ++ member "dst" false (AStr (rq_Dst r))
        ++ member "http" (is_none (rq_HTTP r)) (e_opt encode_http_request (rq_HTTP r))
        ++ member "credential" (is_none (rq_Credential r)) (e_opt encode_credential (rq_Credential r)))%list.

Definition Marshal_Request (r : Request) : bytes := json_print (encode_request r).

(** *** Decoding a reply *)

(** [HeaderValue.UnmarshalJSON]. *)
Definition decode_header_value : decoder HeaderValue := fun cur v =>
  match v with
  | ANull => Ok {| hv_Delete := true; hv_Values := [] |}
  | _ => vs ← d_list [] d_string (hv_Values cur) v; Ok {| hv_Delete := false; hv_Values := vs |}
  end.

Definition zero_header_value : HeaderValue := {| hv_Delete := false; hv_Values := [] |}.

Definition decode_http_response : decoder HTTPResponse :=
  d_struct false [str "headers"] (fun cur l =>
    hs ← field (str "headers") (d_map zero_header_value decode_header_value) (hp_Headers cur) l;
    Ok {| hp_Headers := hs |}).

(** The members of a JSON object with the text of each value: an [int] field
    reads the literal, so that [200.0] and [2e2] are not integers. *)
Fixpoint raw_members (fuel : nat) (s : bytes) : list (bytes * bytes) :=
  match fuel with
  | O => []
  | S fuel =>
      match skip_ws s with
      | c :: t =>
          if Ascii.eqb c quote then
            match scanStr t with
            | Ok (k, r) =>
                match skip_ws r with
                | d :: r =>
                    if Ascii.eqb d ":" then
                      match scanVal (S (length r)) r with
                      | Ok (_, r') =>
                          let raw := take (length r - length r') r in
                          (k, skip_ws raw) ::
                          match skip_ws r' with
                          | e :: r'' => if Ascii.eqb e "," then raw_members fuel r'' else []
                          | [] => []
                          end
                      | Error _ => []
                      end
                    else []
                | [] => []
                end
            | Error _ => []
            end
          else []
      | [] => []
      end
  end.

Definition object_members (s : bytes) : list (bytes * bytes) :=
  match skip_ws s with
  | c :: t => if Ascii.eqb c "{" then raw_members (length s) t else []
  | [] => []
  end.

(** A value read into an [int] field. *)
Definition read_int (cur : Z) (raw : bytes) : result Z :=
  if bool_decide (raw = str "null") then Ok cur
  else match raw with
       | c :: _ => if Ascii.eqb c "-" || is_digit c then wrap "json" (Atoi raw) else mismatch
       | [] => mismatch
       end.

Definition int_field (name : bytes) (l : list (bytes * bytes)) : result Z :=
  foldl (fun acc kv => cur ← acc; if names_field kv.1 name then read_int cur kv.2 else Ok cur) (Ok 0) l.

(** [json.Unmarshal(data, &envResp)]. *)
Definition Unmarshal_Response (data : bytes) : result Response :=
  v ← Unmarshal_any data;
  status ← int_field (str "http_status") (object_members data);
  d_struct false [str "http"; str "message"; str "http_status"; str "principal"] (fun cur l =>
    http ← field (str "http") (d_ptr {| hp_Headers := [] |} decode_http_response) (rs_HTTP cur) l;
    msg ← field (str "message") d_string (rs_Message cur) l;
    principal ← field (str "principal") d_string (rs_Principal cur) l;
    Ok {| rs_HTTP := http; rs_Message := msg; rs_HTTPStatus := status; rs_Principal := principal |})
    zero_response v.

(** ** Targets *)

Record Target : Type := { tg_Socket : bytes; tg_Path : bytes; tg_URL : bytes }.

(** [Target.key]. *)
Definition target_key (t : Target) : bytes :=
  if bool_decide (tg_Socket t <> []) then (str "unix:" ++ tg_Socket t)%list
  else (str "url:" ++ tg_URL t)%list.

(** [Target.requestURL]: the URL and the [Host] header. *)
Definition target_requestURL (t : Target) : bytes * bytes :=
  if bool_decide (tg_Socket t <> []) then
    ((str "http://mitmania.local" ++ tg_Path t)%list, str "mitmania.local")
  else (tg_URL t, []).

(** ** Answers and cache entries *)

(** What [Do] returns: a response, a [DeniedError], or another error. *)
Inductive answer : Type :=
  | Allowed (r : Response)
  | Denied (message : bytes) (status : Z)
  | Failed (msg : string).

Record cacheEntry : Type := {
  ce_resp : Response;
  ce_denied : bool;
  ce_status : Z;
  ce_etag : bytes;
  ce_freshUntil : Z;
  ce_staleWhileRevalidateUntil : Z;
  ce_staleIfErrorUntil : Z;
  ce_mustRevalidate : bool }.

Definition entry_fresh (e : cacheEntry) (now : Z) : bool := now <? ce_freshUntil e.
Definition withinSWR (e : cacheEntry) (now : Z) : bool := now <? ce_staleWhileRevalidateUntil e.
Definition withinSIE (e : cacheEntry) (now : Z) : bool := now <? ce_staleIfErrorUntil e.

Definition entry_result (e : cacheEntry) : answer :=
  if ce_denied e then Denied (rs_Message (ce_resp e)) (ce_status e) else Allowed (ce_resp e).

(** ** Replies *)

Definition maxResponseBytes : nat := 64 * 1024.

(** What [client.Do] returns: an error, or a response whose body may fail to
    read. *)
Inductive net_reply : Type :=
  | NetError
  | NetReply (status : Z) (header : Header) (body : option bytes).

Section Service.
Context `{UT : UnicodeTable} `{HD : HttpDates}.

(** The envelope of a response body, read through the size limit. *)
Definition read_envelope (header : Header) (body : option bytes) : result Response :=
  match body with
  | None => Error "outcall: read response"
  | Some b =>
      let data := take (S maxResponseBytes) b in
      if (maxResponseBytes <? length data)%nat then Error "outcall: response body exceeds 65536 bytes"
      else if bool_decide (data = []) then Ok zero_response
      else
        let ct := Header_Get header (str "Content-Type") in
        if bool_decide (ct <> []) && negb (HasPrefix (str "application/json") ct) then
          Error "outcall: unexpected response content-type"
        else wrap "outcall: unparseable response body" (Unmarshal_Response data)
  end.

Definition is_2xx (status : Z) : bool := (200 <=? status) && (status <? 300).

(** The entry a reply's headers make of a response received at [now]. *)
Definition entry_of (resp : Response) (denied : bool) (status : Z) (etag : bytes) (fr : freshness) (now : Z)
    : cacheEntry :=
  {| ce_resp := resp; ce_denied := denied; ce_status := status; ce_etag := etag;
     ce_freshUntil := now + fr_freshFor fr;
     ce_staleWhileRevalidateUntil := now + int64 (fr_freshFor fr + fr_staleWhileRevalidate fr);
     ce_staleIfErrorUntil := now + int64 (fr_freshFor fr + fr_staleIfError fr);
     ce_mustRevalidate := fr_mustRevalidate fr |}.

(** [store]. *)
Definition store (cache : gmap bytes cacheEntry) (cacheKey : bytes) (resp : Response) (denied : bool)
    (status : Z) (header : Header) (now : Z) : gmap bytes cacheEntry :=
  let fr := parseFreshness header now in
  if fr_cacheable fr then
    <[cacheKey := entry_of resp denied status (Header_Get header (str "ETag")) fr now]> cache
  else delete cacheKey cache.

(** [refresh]. *)
Definition refresh (cache : gmap bytes cacheEntry) (cacheKey : bytes) (prior : cacheEntry)
    (header : Header) (now : Z) : gmap bytes cacheEntry :=
  let fr := parseFreshness header now in
  if fr_cacheable fr then
    let et := Header_Get header (str "ETag") in
    let etag := if bool_decide (et <> []) then et else ce_etag prior in
    <[cacheKey := entry_of (ce_resp prior) (ce_denied prior) (ce_status prior) etag fr now]> cache
  else delete cacheKey cache.

(** [doHTTP] from the moment the capacity is acquired: the reply's verdict and
    the cache it leaves. *)
Definition doHTTP (cache : gmap bytes cacheEntry) (cacheKey : bytes) (prior : option cacheEntry)
    (reply : net_reply) (now : Z) : answer * gmap bytes cacheEntry :=
  match reply with
  | NetError => (Failed "outcall: call failed", cache)
  | NetReply status header body =>
      match (if status =? 304 then prior else None) with
      | Some p => (entry_result p, refresh cache cacheKey p header now)
      | None =>
          match read_envelope header body with
          | Error e => (Failed e, cache)
          | Ok env =>
              let denied := negb (is_2xx status) in
              (if denied then Denied (rs_Message env) (rs_HTTPStatus env) else Allowed env,
               store cache cacheKey env denied status header now)
          end
      end
  end.

(** The header of the request [doHTTP] sends. *)
Definition request_header (prior : option cacheEntry) : Header :=
  let h := Header_Set [] (str "Content-Type") (str "application/json") in
  match prior with
  | Some p => if bool_decide (ce_etag p <> []) then Header_Set h (str "If-None-Match") (ce_etag p) else h
  | None => h
  end.

(** ** The machine *)

(** A caller blocked in [call]: what it read before. *)
Record waiter : Type := { w_key : bytes; w_now : Z; w_entry : option cacheEntry }.

(** [sv_flights] holds the prior entry of each key with a call in progress;
    every flight holds one token of the semaphore. *)
Record Service : Type := {
  sv_max : nat;
  sv_cache : gmap bytes cacheEntry;
  sv_flights : gmap bytes (option cacheEntry);
  sv_waiters : list waiter }.

Definition NewService (maxInflight : nat) : Service :=
  {| sv_max := maxInflight; sv_cache := ∅; sv_flights := ∅; sv_waiters := [] |}.

(** An answer to a [Do] of a key entered at a time. *)
Record answered : Type := { an_key : bytes; an_now : Z; an_answer : answer }.

(** The end of [Do]: a failure, but not a refusal, falls back on a stale entry. *)
Definition finishDo (now : Z) (entry : option cacheEntry) (a : answer) : answer :=
  match a, entry with
  | Failed _, Some e => if withinSIE e now then entry_result e else a
  | _, _ => a
  end.

(** [call]'s way into the singleflight group: [true] when a flight of the key
    exists afterwards. *)
Definition startFlight (s : Service) (key : bytes) (prior : option cacheEntry) : Service * bool :=
  if bool_decide (is_Some (sv_flights s !! key)) then (s, true)
  else if (size (sv_flights s) <? sv_max s)%nat then
    ({| sv_max := sv_max s; sv_cache := sv_cache s; sv_flights := <[key := prior]> (sv_flights s);
        sv_waiters := sv_waiters s |}, true)
  else (s, false).

Definition addWaiter (s : Service) (w : waiter) : Service :=
  {| sv_max := sv_max s; sv_cache := sv_cache s; sv_flights := sv_flights s;
     sv_waiters := w :: sv_waiters s |}.

Definition ErrOverCapacity : answer := Failed "outcall: over --outcall-max-inflight capacity".

(** A [Do] entered at [now], up to the point where it answers or blocks. *)
Definition Do (s : Service) (key : bytes) (now : Z) : Service * list answered :=
  let entry := sv_cache s !! key in
  let say a := [{| an_key := key; an_now := now; an_answer := a |}] in
  match (match entry with
         | Some e =>
             if entry_fresh e now then Some (s, say (entry_result e))
             else if negb (ce_mustRevalidate e) && withinSWR e now then
               Some ((startFlight s key (Some e)).1, say (entry_result e))
             else None
         | None => None
         end) with
  | Some r => r
  | None =>
      let '(s', joined) := startFlight s key entry in
      if joined then (addWaiter s' {| w_key := key; w_now := now; w_entry := entry |}, [])
      else (s', say (finishDo now entry ErrOverCapacity))
  end.

(** The end of a key's flight: everyone waiting on it is answered. *)
Definition endFlight (s : Service) (key : bytes) (now : Z) (reply : net_reply) : Service * list answered :=
  match sv_flights s !! key with
  | None => (s, [])
  | Some prior =>
      let '(a, cache) := doHTTP (sv_cache s) key prior reply now in
      ({| sv_max := sv_max s; sv_cache := cache; sv_flights := delete key (sv_flights s);
          sv_waiters := filter (fun w => w_key w <> key) (sv_waiters s) |},
       map (fun w => {| an_key := key; an_now := w_now w; an_answer := finishDo (w_now w) (w_entry w) a |})
           (filter (fun w => w_key w = key) (sv_waiters s)))
  end.

Inductive input : Type :=
  | InDo (key : bytes) (now : Z)
  | InReply (key : bytes) (now : Z) (reply : net_reply).

Definition serve (s : Service) (i : input) : Service * list answered :=
  match i with
  | InDo key now => Do s key now
  | InReply key now reply => endFlight s key now reply
  end.

(** The service after a history of inputs, the latest first. *)
Fixpoint after (maxInflight : nat) (h : list input) : Service :=
  match h with
  | [] => NewService maxInflight
  | i :: h => (serve (after maxInflight h) i).1
  end.

(** What the latest input of a history answers. *)
Definition answers (maxInflight : nat) (h : list input) : list answered :=
  match h with
  | [] => []
  | i :: h => (serve (after maxInflight h) i).2
  end.

End Service.
