(* ===== verification/OutcallCorrect.v ===== *)
(** * What the broker cache guarantees

    An invariant of the service machine of [Outcall], by induction on the
    history of its inputs: everything cached or handed out was said by the broker
    under the same cache key, and the windows in which it is served are the ones
    the broker's headers gave. *)

From stdpp Require Import gmap.
From S2P Require Import Prelude GoStrings Json Encoding Schema JsonRoundtrip JsonRules Matcher Compile.
From S2P Require Import HostIndex RuleSet Headers CacheControl Outcall.

Open Scope Z_scope.

Section Correct.
Context `{UT : UnicodeTable} `{HD : HttpDates}.

(** [e] holds the verdict of a reply of the history, for as long as a (possibly
    later) reply under the same key allows. *)
Inductive justified (h : list input) (k : bytes) (e : cacheEntry) : Prop :=
  | justified_intro t status header body t' status' header' body' :
      InReply k t (NetReply status header body) ∈ h ->
      read_envelope header body = Ok (ce_resp e) ->
      ce_denied e = negb (is_2xx status) ->
      ce_status e = status ->
      InReply k t' (NetReply status' header' body') ∈ h ->
      fr_cacheable (parseFreshness header' t') = true ->
      e = entry_of (ce_resp e) (ce_denied e) (ce_status e) (ce_etag e) (parseFreshness header' t') t' ->
      justified h k e.

(** A verdict some reply under the key really carried. *)
Inductive broker_said (h : list input) (k : bytes) : answer -> Prop :=
  | said_allowed r t status header body :
      InReply k t (NetReply status header body) ∈ h ->
      read_envelope header body = Ok r -> is_2xx status = true ->
      broker_said h k (Allowed r)
  | said_denied r shown t status header body :
      InReply k t (NetReply status header body) ∈ h ->
      read_envelope header body = Ok r -> is_2xx status = false ->
      shown = rs_HTTPStatus r \/ shown = status ->
      broker_said h k (Denied (rs_Message r) shown).

Definition prior_ok (h : list input) (k : bytes) (p : option cacheEntry) : Prop :=
  forall e, p = Some e -> justified h k e.

Record service_ok (h : list input) (s : Service) : Prop := {
  ok_cache : map_Forall (justified h) (sv_cache s);
  ok_flights : map_Forall (prior_ok h) (sv_flights s);
  ok_waiters : Forall (fun w => is_Some (sv_flights s !! w_key w) /\ prior_ok h (w_key w) (w_entry w))
                 (sv_waiters s);
  ok_size : (size (sv_flights s) <= sv_max s)%nat }.

(** ** Growing histories *)

Lemma justified_cons i h k e : justified h k e -> justified (i :: h) k e.
Proof.
  intros [t st hd bd t' st' hd' bd'].
  apply (justified_intro _ _ _ t st hd bd t' st' hd' bd'); try done; by right.
Qed.

Lemma prior_ok_cons i h k p : prior_ok h k p -> prior_ok (i :: h) k p.
Proof. intros H e He. apply justified_cons. eauto. Qed.

Lemma broker_said_cons i h k a : broker_said h k a -> broker_said (i :: h) k a.
Proof. intros []; econstructor; eauto using list_elem_of_further. Qed.

Lemma service_ok_cons i h s : service_ok h s -> service_ok (i :: h) s.
Proof.
  intros [Hc Hf Hw Hs]. split; [..|done].
  - intros k e He. apply justified_cons, (Hc k e He).
  - intros k p Hp. apply prior_ok_cons, (Hf k p Hp).
  - eapply Forall_impl; [exact Hw|]. intros w [? ?]. split; [done|by apply prior_ok_cons].
Qed.

Lemma said_of_entry h k e : justified h k e -> broker_said h k (entry_result e).
Proof.
  intros [t status header body t' status' header' body' Hin Henv Hden Hst _ _ _].
  unfold entry_result. rewrite Hden. destruct (is_2xx status) eqn:E; cbn; econstructor; eauto.
Qed.

(** ** A reply *)

Lemma doHTTP_ok h cache k prior now reply a cache' :
  map_Forall (justified h) cache -> prior_ok h k prior ->
  doHTTP cache k prior reply now = (a, cache') ->
  map_Forall (justified (InReply k now reply :: h)) cache'
  /\ ((exists msg, a = Failed msg) \/ broker_said (InReply k now reply :: h) k a).
Proof.
  intros Hc Hp Hd. set (h' := InReply k now reply :: h).
  assert (Hc' : map_Forall (justified h') cache) by (intros k' e He; apply justified_cons, (Hc k' e He)).
  assert (Hdel : map_Forall (justified h') (delete k cache)).
  { intros k' e He. apply lookup_delete_Some in He as [_ He]. apply (Hc' k' e He). }
  unfold doHTTP in Hd. destruct reply as [|status header body]; [simplify_eq; split; [done|by left; eexists]|].
  destruct (if status =? 304 then prior else None) as [p|] eqn:Hpr.
  - assert (Hjp : justified h k p) by (destruct (status =? 304); [apply Hp; done|done]).
    simplify_eq. split; [|by right; apply broker_said_cons, said_of_entry].
    unfold refresh. destruct (fr_cacheable _) eqn:Hfr; [|done].
    apply map_Forall_insert_2; [|done]. destruct Hjp as [t st hd bd ? ? ? ? Hin Henv Hden Hst _ _ _].
    by apply (justified_intro _ _ _ t st hd bd now status header body); try done; [right|left].
  - destruct (read_envelope header body) as [env|err] eqn:Henv;
      [|simplify_eq; split; [done|by left; eexists]].
    simplify_eq. split.
    + unfold store. destruct (fr_cacheable _) eqn:Hfr; [|done]. apply map_Forall_insert_2; [|done].
      by apply (justified_intro _ _ _ now status header body now status header body); try done; left.
    + right. destruct (is_2xx status) eqn:E; cbn; econstructor; eauto using list_elem_of_here.
Qed.

(** ** The invariant *)

Lemma startFlight_ok h s k p :
  service_ok h s -> prior_ok h k p ->
  let r := startFlight s k p in
  service_ok h r.1 /\ sv_waiters r.1 = sv_waiters s /\ sv_cache r.1 = sv_cache s
  /\ (r.2 = true -> is_Some (sv_flights r.1 !! k)).
Proof.
  intros Hok Hp. cbv zeta. unfold startFlight. case_bool_decide as Hk; [done|].
  destruct (size (sv_flights s) <? sv_max s)%nat eqn:E; [|done]. apply Nat.ltb_lt in E.
  cbn. split_and!; [|done..|by rewrite lookup_insert_eq; eauto]. destruct Hok as [Hc Hf Hw Hs]. split; cbn; [done|..].
  - by apply map_Forall_insert_2.
  - eapply Forall_impl; [exact Hw|]. intros w [Hi ?]. split; [|done].
    destruct (decide (w_key w = k)) as [->|Hne]; [by rewrite lookup_insert_eq; eauto|by rewrite lookup_insert_ne].
  - rewrite map_size_insert_None; [lia|by apply eq_None_not_Some].
Qed.

Lemma Do_ok h s k now : service_ok h s -> service_ok h (Do s k now).1.
Proof.
  intros Hok. assert (Hp : prior_ok h k (sv_cache s !! k)) by (intros e He; apply (ok_cache _ _ Hok k e He)).
  unfold Do. set (entry := sv_cache s !! k) in *.
  destruct (match entry with Some e => _ | None => _ end) as [r|] eqn:Hr.
  - destruct entry as [e|]; [|done]. repeat case_match; simplify_eq; [done|]. cbn.
    by apply startFlight_ok.
  - destruct (startFlight_ok h s k entry Hok Hp) as (Hok' & _ & _ & Hin).
    destruct (startFlight s k entry) as [s' []]; [|done]. cbn in *.
    destruct Hok' as [Hc Hf Hw Hs]. split; cbn; [done..| |done].
    apply Forall_cons. split; [|done]. split; [by apply Hin|done].
Qed.

Lemma endFlight_ok h s k now reply :
  service_ok h s -> service_ok (InReply k now reply :: h) (endFlight s k now reply).1.
Proof.
  intros Hok. unfold endFlight. destruct (sv_flights s !! k) as [prior|] eqn:Hf; [|by apply service_ok_cons].
  destruct (doHTTP (sv_cache s) k prior reply now) as [a cache'] eqn:Hd.
  destruct (doHTTP_ok _ _ _ _ _ _ _ _ (ok_cache _ _ Hok) (ok_flights _ _ Hok k prior Hf) Hd) as [Hc _].
  apply (service_ok_cons (InReply k now reply)) in Hok as [_ Hfl Hw Hs]. split; cbn; [done|..].
  - intros k' p Hk'. apply lookup_delete_Some in Hk' as [_ Hk']. apply (Hfl k' p Hk').
  - apply Forall_forall. intros w Hin. apply list_elem_of_filter in Hin as [Hne Hin].
    rewrite Forall_forall in Hw. destruct (Hw w Hin) as [Hi He].
    split; [|done]. rewrite lookup_delete_ne; done.
  - rewrite map_size_delete_Some by eauto. lia.
Qed.

Lemma after_ok max h : service_ok h (after max h).
Proof.
  induction h as [|i h IH]; [split; cbn; [apply map_Forall_empty..|by apply Forall_nil|rewrite map_size_empty; lia]|].
  destruct i as [k now|k now reply]; cbn [after serve].
  - apply service_ok_cons, Do_ok, IH.
  - apply endFlight_ok, IH.
Qed.

(** ** Answers *)

(** [e] may be served at [now] without a fresh verdict: it is fresh, or stale
    within its revalidation window and not marked must-revalidate, or within its
    stale-if-error window. *)
Definition servable (e : cacheEntry) (now : Z) : Prop :=
  entry_fresh e now = true
  \/ (ce_mustRevalidate e = false /\ withinSWR e now = true)
  \/ withinSIE e now = true.

(** Where an answer to a [Do] of key [k] entered at [now] comes from. *)
Inductive sourced (h : list input) (k : bytes) (now : Z) (a : answer) : Prop :=
  | from_failure msg : a = Failed msg -> sourced h k now a
  | from_reply t reply h' : h = InReply k t reply :: h' -> broker_said h k a -> sourced h k now a
  | from_cache e : justified h k e -> a = entry_result e -> servable e now -> sourced h k now a.

Lemma finishDo_sourced h k now entry a :
  prior_ok h k entry -> sourced h k now a -> sourced h k now (finishDo now entry a).
Proof.
  intros Hp Hs. unfold finishDo. destruct a as [| |msg]; try done. destruct entry as [e|]; [|done].
  destruct (withinSIE e now) eqn:E; [|done]. eapply from_cache; [by apply Hp|done|by right; right].
Qed.

Lemma Do_sourced h s k now x :
  service_ok h s -> x ∈ (Do s k now).2 ->
  an_key x = k /\ an_now x = now /\ sourced (InDo k now :: h) k now (an_answer x).
Proof.
  intros Hok%(service_ok_cons (InDo k now)). set (h' := InDo k now :: h) in *.
  assert (Hp : prior_ok h' k (sv_cache s !! k)) by (intros e He; apply (ok_cache _ _ Hok k e He)).
  unfold Do. set (entry := sv_cache s !! k) in *.
  destruct (match entry with Some e => _ | None => _ end) as [r|] eqn:Hr; intros Hx.
  - destruct entry as [e|]; [|done]. assert (Hj : justified h' k e) by (by apply Hp).
    destruct (entry_fresh e now) eqn:E1; [|destruct (negb _ && _) eqn:E2; [|done]];
      apply (inj Some) in Hr as <-; apply list_elem_of_singleton in Hx as ->; (split_and!; [done..|]);
      eapply from_cache; try done; [by left|right; left].
    apply andb_prop in E2 as [E2 ?]. split; [by apply negb_true_iff|done].
  - destruct (startFlight s k entry) as [s' []]; [by apply not_elem_of_nil in Hx|].
    apply list_elem_of_singleton in Hx as ->. split_and!; [done..|].
    apply finishDo_sourced; [done|by eapply from_failure].
Qed.

Lemma endFlight_sourced h s k now reply x :
  service_ok h s -> x ∈ (endFlight s k now reply).2 ->
  an_key x = k /\ sourced (InReply k now reply :: h) k (an_now x) (an_answer x).
Proof.
  intros Hok. unfold endFlight. destruct (sv_flights s !! k) as [prior|] eqn:Hf;
    [|by intros ?%not_elem_of_nil].
  destruct (doHTTP (sv_cache s) k prior reply now) as [a cache'] eqn:Hd. cbn [snd]. intros Hx.
  apply list_elem_of_fmap in Hx as (w & -> & Hw). apply list_elem_of_filter in Hw as [Hk Hw].
  destruct (doHTTP_ok _ _ _ _ _ _ _ _ (ok_cache _ _ Hok) (ok_flights _ _ Hok k prior Hf) Hd) as [_ Ha].
  split; [done|]. cbn [an_now an_answer]. pose proof (ok_waiters _ _ Hok) as Hall. rewrite Forall_forall in Hall.
  destruct (Hall w Hw) as [_ He]. rewrite Hk in He. apply finishDo_sourced; [by apply prior_ok_cons|].
  destruct Ha as [[msg ->]|Ha]; [by eapply from_failure|by eapply from_reply].
Qed.


(** ** Every call is answered once *)

Definition waiting (k : bytes) (s : Service) : nat := length (filter (fun w => w_key w = k) (sv_waiters s)).

Definition count_answers (k : bytes) (l : list answered) : nat := length (filter (fun x => an_key x = k) l).

(** The calls of a key in a history, and the answers they have got. *)
Fixpoint calls (k : bytes) (h : list input) : nat :=
  match h with
  | [] => 0
  | InDo k' _ :: h => (if bool_decide (k' = k) then 1 else 0) + calls k h
  | InReply _ _ _ :: h => calls k h
  end.

Fixpoint total_answers (max : nat) (k : bytes) (h : list input) : nat :=
  match h with
  | [] => 0
  | _ :: h' => count_answers k (answers max h) + total_answers max k h'
  end.

Lemma startFlight_waiters s k p : sv_waiters (startFlight s k p).1 = sv_waiters s.
Proof. unfold startFlight. by repeat case_match. Qed.

Lemma filter_none {A} (P : A -> Prop) `{!forall x, Decision (P x)} (l : list A) :
  (forall x, x ∈ l -> ~ P x) -> filter P l = [].
Proof.
  induction l as [|x l IH]; intros Hn; [done|]. rewrite filter_cons, decide_False by (apply Hn; left).
  apply IH. intros y Hy. apply Hn. by right.
Qed.

(** A [Do] answers or waits, and touches no other key's callers. *)
Lemma Do_once s k now k' :
  (count_answers k' (Do s k now).2 + waiting k' (Do s k now).1
   = (if bool_decide (k = k') then 1 else 0) + waiting k' s)%nat.
Proof.
  assert (Hone : forall a, count_answers k' [{| an_key := k; an_now := now; an_answer := a |}]
                           = if bool_decide (k = k') then 1%nat else 0%nat).
  { intros a. unfold count_answers. rewrite filter_cons. cbn. by case_decide; case_bool_decide. }
  unfold Do. destruct (match sv_cache s !! k with Some e => _ | None => _ end) as [r|] eqn:Hr.
  - destruct (sv_cache s !! k) as [e|]; [|done].
    destruct (entry_fresh e now); [|destruct (negb _ && _); [|done]]; apply (inj Some) in Hr as <-;
      cbn [fst snd]; rewrite Hone; unfold waiting; by rewrite ?startFlight_waiters.
  - pose proof (startFlight_waiters s k (sv_cache s !! k)) as Hw.
    destruct (startFlight s k _) as [s' []]; cbn [fst snd] in *.
    + unfold waiting, addWaiter. cbn [sv_waiters w_key]. rewrite filter_cons, Hw. cbn [w_key].
      by case_decide; case_bool_decide.
    + rewrite Hone. unfold waiting. by rewrite Hw.
Qed.

Lemma count_answers_same k k' l :
  Forall (fun x => an_key x = k) l -> count_answers k' l = if bool_decide (k = k') then length l else 0%nat.
Proof.
  induction 1 as [|x l Hx Hl IH]; [by case_bool_decide|].
  unfold count_answers in *. rewrite filter_cons. case_bool_decide as E; case_decide as D; cbn; try congruence.
Qed.

(** The end of a flight answers each caller of the key and leaves the others. *)
Lemma endFlight_once s k now reply k' :
  (count_answers k' (endFlight s k now reply).2 + waiting k' (endFlight s k now reply).1 = waiting k' s)%nat.
Proof.
  unfold endFlight. destruct (sv_flights s !! k) as [prior|]; [|done].
  destruct (doHTTP (sv_cache s) k prior reply now) as [a cache']. cbn [fst snd].
  rewrite (count_answers_same k); [|apply Forall_map, Forall_forall; done].
  rewrite length_map. unfold waiting. cbn [sv_waiters].
  case_bool_decide as E; [subst k'|].
  - replace (filter (fun w => w_key w = k) (filter (fun w => w_key w <> k) (sv_waiters s))) with (@nil waiter);
      [cbn; lia|].
    symmetry. apply filter_none. intros w [Hne _]%list_elem_of_filter. done.
  - rewrite list_filter_filter_l; [done|]. intros w. congruence.
Qed.

(** C7: Every call is answered exactly once.  In every history the calls of a
    key are the answers given for it plus the callers still waiting; at most
    [maxInflight] broker calls are under way; every waiting caller waits on a
    call that is under way, so when none is under way for a key, all its calls
    have been answered. *)
Theorem outcall_every_call_answered max h k :
  let s := after max h in
  calls k h = (total_answers max k h + waiting k s)%nat
  /\ (size (sv_flights s) <= max)%nat
  /\ (sv_flights s !! k = None -> calls k h = total_answers max k h).
Proof.
  cbv zeta. assert (Hmax : sv_max (after max h) = max).
  { induction h as [|[|] h IH]; [done|..]; cbn [after serve]; rewrite <- IH at 2.
    - unfold Do, startFlight. by repeat case_match; simplify_eq.
    - unfold endFlight. by repeat case_match. }
  assert (Hcons : calls k h = (total_answers max k h + waiting k (after max h))%nat).
  { clear. induction h as [|[k' now|k' now reply] h IH]; [done|..]; cbn [calls total_answers answers after serve].
    - pose proof (Do_once (after max h) k' now k). lia.
    - pose proof (endFlight_once (after max h) k' now reply k). lia. }
  destruct (after_ok max h) as [_ _ Hw Hs]. rewrite Hmax in Hs. split_and!; [done..|].
  intros Hk. rewrite Hcons. replace (waiting k (after max h)) with 0%nat; [lia|].
  unfold waiting. rewrite filter_none; [done|]. intros w Hin Hwk. rewrite Forall_forall in Hw.
  destruct (Hw w Hin) as [Hi _]. rewrite Hwk, Hk in Hi. by destruct Hi.
Qed.

End Correct.
