(* ===== verification/OutcallSamples.v ===== *)
(** * Broker service runs

    Concrete histories of the service: the witnesses of its theorems, and two
    behaviours that differ from what the code says of itself. *)

From stdpp Require Import gmap.
From S2P Require Import Prelude GoStrings Json Encoding Schema JsonRoundtrip JsonRules Matcher Compile.
From S2P Require Import HostIndex RuleSet Headers HttpError CacheControl Outcall OutcallCorrect Builtin.

Open Scope Z_scope.

Section Samples.
#[local] Existing Instance ascii_table.
#[local] Existing Instance decimal_dates.

Definition sample_key : bytes := str "/run/broker.sock/#0011223344556677".

Definition cached_for (directives : string) : Header :=
  [(str "Cache-Control", [str directives]); (str "Content-Type", [str "application/json"])].

(** A broker that refuses with status 401 and lets the refusal be cached. *)
Definition refusal : net_reply :=
  NetReply 401 (cached_for "max-age=60") (Some (json "{'message':'no'}")).

Definition approval : net_reply :=
  NetReply 200 (cached_for "max-age=1, must-revalidate, stale-if-error=100") (Some []).

Definition asked_twice : list input :=
  [InDo sample_key (5 * Second); InReply sample_key Second refusal; InDo sample_key 0].


(** The same refusal is shown with two statuses.  A broker that refuses with
    401 and sends no [http_status] gets its first request answered with the 403
    page that the envelope's documentation promises; a second request, answered
    from the cache, gets a 401 page. *)
Theorem cached_denial_changes_status :
  map an_answer (answers 4 (drop 1 asked_twice)) = [Denied (str "no") 0]
  /\ map an_answer (answers 4 asked_twice) = [Denied (str "no") 401]
  /\ sp_Status (OutcallDenied 0 (str "no")) = 403
  /\ sp_Status (OutcallDenied 401 (str "no")) = 401.
Proof. vm_compute. split_and!; reflexivity. Qed.

(** must-revalidate does not stop a stale answer after an error: a reply
    marked must-revalidate, long stale, is still served when the revalidating
    call fails, because only the background-revalidation window looks at the
    mark. *)
Theorem must_revalidate_served_on_error :
  map an_answer (answers 4
    [InReply sample_key (51 * Second) NetError; InDo sample_key (50 * Second);
     InReply sample_key Second approval; InDo sample_key 0])
  = [Allowed zero_response].
Proof. vm_compute. reflexivity. Qed.

End Samples.
