(* ===== verification/Authority.v ===== *)
(** * Authorities and hosts (internal/proxy/authority.go 67-132)

    How the proxy turns the authority of a request into the host and port its
    policy sees and the address it dials.  [golang.org/x/net/idna] is an
    interface. *)

From S2P Require Import Prelude GoStrings Netip HostIndex.

Open Scope Z_scope.

(** [idna.Lookup.ToASCII]. *)
Class Idna : Type := { ToASCII : bytes -> option bytes }.

(** The profile that accepts lower-case letter-digit-hyphen names as they are
    and nothing else. *)
Definition ldh (c : ascii) : bool := is_lower c || is_digit c || Ascii.eqb c "-" || Ascii.eqb c ".".
Definition ldh_idna : Idna := {| ToASCII := fun s => if forallb ldh s then Some s else None |}.

(** What the Lookup profile documents of its results: ASCII, and by the STD3
    rules letters, digits, hyphens and dots, hence no colon. *)
Class IdnaSpec `{ID : Idna} : Prop := {
  ToASCII_std3 : forall s t, ToASCII s = Some t ->
    forallb (fun c => is_ascii c && negb (Ascii.eqb c ":")) t = true }.

Lemma ldh_spec : @IdnaSpec ldh_idna.
Proof.
  split. intros s t H. unfold ToASCII, ldh_idna in H. destruct (forallb ldh s) eqn:E; [|done]. simplify_eq.
  rewrite forallb_forall in E |- *. intros c Hc. apply E in Hc. revert Hc.
  destruct c as [[] [] [] [] [] [] [] []]; vm_compute; done.
Qed.

(** ** [net.SplitHostPort] and [net.JoinHostPort] *)

Definition contains_byte (c : ascii) (s : bytes) : bool := bool_decide (c ∈ s).

(** The host and the port of a bracketed form, by the first closing bracket. *)
Definition split_bracketed (hostport port : bytes) : result bytes :=
  match Cut "]" hostport with
  | None => Error "missing ']' in address"
  | Some (a, b) =>
      if bool_decide (b = []) then Error "missing port in address"
      else if bool_decide (b = ":"%char :: port) then
        if contains_byte "[" (tail hostport) then Error "unexpected '[' in address"
        else if contains_byte "]" b then Error "unexpected ']' in address"
        else Ok (tail a)
      else if bool_decide (head b = Some ":"%char) then Error "too many colons in address"
      else Error "missing port in address"
  end.

Definition SplitHostPort (hostport : bytes) : result (bytes * bytes) :=
  match CutLast ":" hostport with
  | None => Error "missing port in address"
  | Some (pre, port) =>
      if bool_decide (head hostport = Some "["%char) then
        host ← split_bracketed hostport port; Ok (host, port)
      else if contains_byte ":" pre then Error "too many colons in address"
      else if contains_byte "[" hostport then Error "unexpected '[' in address"
      else if contains_byte "]" hostport then Error "unexpected ']' in address"
      else Ok (pre, port)
  end.

Definition JoinHostPort (host port : bytes) : bytes :=
  if contains_byte ":" host then (str "[" ++ host ++ str "]:" ++ port)%list
  else (host ++ str ":" ++ port)%list.

Section Authority.
Context `{UT : UnicodeTable} `{ID : Idna}.

(** [canonicalHost]. *)
Definition canonicalHost (host : bytes) : result bytes :=
  let host := TrimSuffix (str ".") (ToLower lower_run (TrimSpace host)) in
  match ParseAddr host with
  | Ok ip => Ok (AddrString (Unmap ip))
  | Error _ =>
      match ToASCII host with
      | Some (c :: a) => Ok (ToLower lower_run (c :: a))
      | _ => Error "invalid host"
      end
  end.

(** The host of an authority whose port does not split off. *)
Definition portless_host (authority : bytes) (err : string) : result bytes :=
  if HasPrefix (str "[") authority && HasSuffix (str "]") authority then
    Ok (TrimSuffix (str "]") (TrimPrefix (str "[") authority))
  else if contains_byte ":" authority then
    match ParseAddr authority with
    | Ok _ => Ok authority
    | Error _ => Error ("invalid authority: " ++ err)
    end
  else Ok authority.

(** [normalizeAuthority]: the policy's host and port, and the dial address. *)
Definition normalizeAuthority (authority defaultPort : bytes) : result (bytes * bytes * bytes) :=
  let authority := TrimSpace authority in
  if bool_decide (authority = []) then Error "empty authority"
  else
    '(host, port) ← (match SplitHostPort authority with
                     | Ok hp => Ok hp
                     | Error e => h ← portless_host authority e; Ok (h, defaultPort)
                     end);
    if bool_decide (host = []) then Error "invalid authority: empty host"
    else
      match Atoi port with
      | Ok n =>
          if (n <? 1) || (65535 <? n) then Error "invalid authority: bad port"
          else
            policyHost ← wrap "invalid authority" (canonicalHost host);
            Ok (policyHost, port, JoinHostPort host port)
      | Error _ => Error "invalid authority: bad port"
      end.

(** [sameHost]. *)
Definition sameHost (a b : bytes) : bool :=
  match canonicalHost a, canonicalHost b with
  | Ok ca, Ok cb => bool_decide (ca = cb)
  | _, _ => false
  end.

(** [authorityMatches]. *)
Definition authorityMatches (got expectHost expectPort proto : bytes) : bool :=
  let defaultPort := if bool_decide (proto = str "https") then str "443" else str "80" in
  match normalizeAuthority got defaultPort with
  | Ok (host, port, _) => sameHost host expectHost && bool_decide (port = expectPort)
  | Error _ => false
  end.

(** ** Hosts are never IPv4-mapped *)

Lemma parseAddr_family_colon s : parseAddr_family s = ":"%char -> ":"%char ∈ s.
Proof.
  induction s as [|c t IH]; [done|]. cbn.
  destruct (Ascii.eqb c "." || Ascii.eqb c ":" || Ascii.eqb c "%"); [intros ->; left|].
  intros H. right. by apply IH.
Qed.

Lemma ParseAddr_no_colon s a : ":"%char ∉ s -> ParseAddr s = Ok a -> Is4 a = true.
Proof.
  intros Hs. unfold ParseAddr. destruct (Ascii.eqb (parseAddr_family s) ".").
  - unfold parseIPv4. intros H. apply result_bind_ok in H as (l & _ & H). by apply (inj Ok) in H as <-.
  - destruct (Ascii.eqb (parseAddr_family s) ":") eqn:E; [|done].
    apply Ascii.eqb_eq, parseAddr_family_colon in E. done.
Qed.

Lemma Unmap_not_mapped a : addr_wf a -> IsValid a = true ->
  Is4In6 (Unmap a) = false /\ addr_wf (Unmap a) /\ IsValid (Unmap a) = true.
Proof.
  intros Hwf Hv. unfold Unmap. destruct (Is4In6 a) eqn:E; [|done]. destruct a as [| |v z]; try done.
  split; [done|]. split; [|done]. cbn. apply Z.mod_pos_bound. lia.
Qed.

Lemma lower_no_colon t :
  forallb (fun c => is_ascii c && negb (Ascii.eqb c ":")) t = true -> ":"%char ∉ ToLower lower_run t.
Proof.
  intros H. rewrite ToLower_ascii.
  - intros Hin. apply list_elem_of_In, in_map_iff in Hin as (c & Hc & Hin).
    rewrite forallb_forall in H. apply H in Hin. revert Hc Hin.
    destruct c as [[] [] [] [] [] [] [] []]; vm_compute; done.
  - rewrite forallb_forall in *. intros c Hc. by apply H, andb_prop in Hc as [? _].
Qed.

(** The address a canonical host denotes, when it denotes one, is never an
    IPv4-mapped IPv6 address, so an egress rule on IPv4 space sees it. *)
Lemma canonicalHost_unmapped `{!IdnaSpec} host c a :
  canonicalHost host = Ok c -> ParseAddr c = Ok a -> Is4In6 a = false.
Proof.
  unfold canonicalHost. destruct (ParseAddr (TrimSuffix _ _)) as [ip|] eqn:Hip.
  - intros Hc Ha. apply (inj Ok) in Hc as <-. apply ParseAddr_wf in Hip as [Hwf Hv].
    destruct (Unmap_not_mapped ip Hwf Hv) as (Hm & Hwf' & Hv').
    rewrite ParseAddr_AddrString in Ha by done. by apply (inj Ok) in Ha as <-.
  - destruct (ToASCII _) as [[|x t]|] eqn:Ht; try done.
    intros Hc Ha. apply (inj Ok) in Hc as <-. apply ToASCII_std3, lower_no_colon in Ht.
    apply ParseAddr_no_colon in Ha; [|done]. by destruct a.
Qed.

End Authority.
