(* ===== verification/ClientIP.v ===== *)
(** * Sessions and the client's identity (internal/session/session.go,
      internal/proxy/trustedproxy.go)

    Which address a connection is governed by: the peer's, or behind a trusted
    load balancer the one its forwarding headers name. *)

From S2P Require Import Prelude GoStrings Netip Json Encoding Schema Matcher Compile RuleSet Headers.

Open Scope Z_scope.

Inductive Transport : Type := TransportExplicit | TransportTProxy | TransportRedirect.

#[export] Instance Transport_eq_dec : EqDecision Transport.
Proof. solve_decision. Defined.

Definition Transport_String (t : Transport) : bytes :=
  match t with
  | TransportExplicit => str "explicit"
  | TransportTProxy => str "tproxy"
  | TransportRedirect => str "redirect"
  end.

(** An address and port; the zero [netip.AddrPort] has the zero address. *)
Record AddrPort : Type := { ap_Addr : Addr; ap_Port : Z }.

Record Session : Type := {
  s_Client : AddrPort;
  s_Dst : AddrPort;
  s_Transport : Transport }.

Definition loopback : Addr := Addr4 (127 * 2 ^ 24 + 1).

Definition ClientKey (s : Session) : Addr :=
  if IsValid (ap_Addr (s_Client s)) then ap_Addr (s_Client s) else loopback.

(** [tcpAddrPort] of the raw bytes of a [net.IP]. *)
Definition tcpAddrPort (ip : list Z) (port : Z) : AddrPort :=
  {| ap_Addr := Unmap (default AddrZero (AddrFromSlice ip)); ap_Port := port mod 2 ^ 16 |}.

(** ** Forwarding headers *)

Definition isTrustedPeer (addr : Addr) (trusted : list Prefix) : bool :=
  existsb (fun p => Contains p addr) trusted.

(** The right-to-left walk, over the hops in reverse. *)
Fixpoint rightmostUntrusted (rhops : list bytes) (trusted : list Prefix) : option Addr :=
  match rhops with
  | [] => None
  | h :: t =>
      let hop := TrimSpace h in
      if bool_decide (hop = []) then rightmostUntrusted t trusted
      else match ParseAddr hop with
           | Error _ => rightmostUntrusted t trusted
           | Ok addr => if isTrustedPeer addr trusted then rightmostUntrusted t trusted else Some addr
           end
  end.

Definition forwardedHops (header : Header) : list bytes :=
  Split "," (Join (str ",") (Header_Values header (str "X-Forwarded-For"))).

Definition recoverClientIP (peer : Addr) (header : Header) (trusted : list Prefix) : Addr :=
  if negb (isTrustedPeer peer trusted) then peer
  else
    match rightmostUntrusted (rev (forwardedHops header)) trusted with
    | Some addr => addr
    | None =>
        let xri := TrimSpace (Header_Get header (str "X-Real-IP")) in
        if bool_decide (xri <> []) then
          match ParseAddr xri with Ok addr => addr | Error _ => peer end
        else peer
    end.

(** ** What identifies a client *)

(** A hop that says nothing of its own: blank, unparseable, or trusted. *)
Definition transparent_hop (trusted : list Prefix) (h : bytes) : Prop :=
  forall addr, ParseAddr (TrimSpace h) = Ok addr -> isTrustedPeer addr trusted = true.

Lemma ParseAddr_nil : is_ok (ParseAddr []) = false.
Proof. reflexivity. Qed.

Lemma rightmost_skip l r trusted :
  Forall (transparent_hop trusted) l ->
  rightmostUntrusted (l ++ r) trusted = rightmostUntrusted r trusted.
Proof.
  induction 1 as [|h l Hh Hl IH]; [done|]. cbn [app rightmostUntrusted].
  case_bool_decide; [done|]. destruct (ParseAddr (TrimSpace h)) as [a|] eqn:E; [|done].
  by rewrite (Hh a E).
Qed.

Lemma rightmost_hit h addr r trusted :
  ParseAddr (TrimSpace h) = Ok addr -> isTrustedPeer addr trusted = false ->
  rightmostUntrusted (h :: r) trusted = Some addr.
Proof.
  intros Hp Ht. cbn. case_bool_decide as E; [by rewrite E in Hp|]. by rewrite Hp, Ht.
Qed.


Definition lb : Prefix := {| pfx_addr := Addr4 (10 * 2 ^ 24); pfx_bits := 8 |}.

(** [1.2.3.4], and a balancer's own address. *)
Definition some_client : Addr := Addr4 0x01020304.
Definition some_balancer : Addr := Addr4 (10 * 2 ^ 24 + 1).

Definition forwarded (v : string) : Header := [(str "X-Forwarded-For", [str v])].


(** A forwarded hop that does not parse as an address is passed over, not
    taken as the boundary of trust: behind a balancer that appends the client
    as address:port, a client that sends its own X-Forwarded-For chooses the
    identity its rules are looked up under. *)
Theorem unparseable_hop_lets_client_choose :
  recoverClientIP some_balancer (forwarded "9.9.9.9, 1.2.3.4:40000") [lb] = Addr4 0x09090909
  /\ recoverClientIP some_balancer (forwarded "9.9.9.9, 1.2.3.4") [lb] = some_client.
Proof. vm_compute. split; reflexivity. Qed.
