(* ===== verification/Effects.v ===== *)
(** * The proxy's effects

    The handlers of internal/proxy talk to the rule engine, the resolver, the
    dialer, the broker service, the client's and the upstream's connection.  A
    handler is a program over those effects; an environment answers each of
    them, with what happened before in view, and a run is the history of the
    effects and their answers, the latest first.

    [safe] is the program logic: every effect a program performs is allowed by
    the history at that point, whatever the environment answers. *)

From S2P Require Import Prelude GoStrings Netip Json Encoding Schema Matcher Compile HostIndex RuleSet.
From S2P Require Import Headers HttpError CacheControl Outcall.

Open Scope Z_scope.

(** ** Errors

    What the proxy's [errors.Is] and [errors.As] tests see of an error. *)
Record goerr : Type := {
  e_DNS : bool;                  (* a *net.DNSError *)
  e_netTimeout : bool;           (* a net.Error whose Timeout() holds *)
  e_ctxDeadline : bool;          (* context.DeadlineExceeded *)
  e_osDeadline : bool;           (* os.ErrDeadlineExceeded *)
  e_EOF : bool;                  (* io.EOF *)
  e_tooLarge : bool;             (* errHeadersTooLarge *)
  e_empty : bool                 (* errEmptyConnection *) }.

Definition plain_error : goerr :=
  {| e_DNS := false; e_netTimeout := false; e_ctxDeadline := false; e_osDeadline := false;
     e_EOF := false; e_tooLarge := false; e_empty := false |}.

(** ** Messages *)

(** What the handlers read of an [*http.Request]; [q_RequestURI] and
    [q_URLString] are the values of [URL.RequestURI()] and [URL.String()]. *)
Record HttpRequest : Type := {
  q_Method : bytes;
  q_Scheme : bytes;
  q_URLHost : bytes;
  q_Path : bytes;
  q_RequestURI : bytes;
  q_URLString : bytes;
  q_Host : bytes;
  q_Header : Header;
  q_Close : bool }.

Definition with_req_header (q : HttpRequest) (h : Header) : HttpRequest :=
  {| q_Method := q_Method q; q_Scheme := q_Scheme q; q_URLHost := q_URLHost q; q_Path := q_Path q;
     q_RequestURI := q_RequestURI q; q_URLString := q_URLString q; q_Host := q_Host q;
     q_Header := h; q_Close := q_Close q |}.

(** Clearing the scheme and host of the URL. *)
Definition origin_form (q : HttpRequest) : HttpRequest :=
  {| q_Method := q_Method q; q_Scheme := []; q_URLHost := []; q_Path := q_Path q;
     q_RequestURI := q_RequestURI q; q_URLString := q_URLString q; q_Host := q_Host q;
     q_Header := q_Header q; q_Close := q_Close q |}.

Record HttpResponse : Type := {
  p_Proto : bytes;
  p_Status : Z;
  p_Header : Header;
  p_Body : bytes;
  p_ContentLength : Z;
  p_TransferEncoding : list bytes;
  p_Close : bool }.

(** A peeked ClientHello: the error of the peek, the server name, the bytes read. *)
Record PeekedHello : Type := { ph_err : option goerr; ph_ServerName : bytes; ph_Raw : bytes }.

Section Effects.
Context `{RE : RegexEngine} `{DG : Digests} `{UT : UnicodeTable}.

(** ** Effects *)

Inductive eff : Type -> Type :=
  (* policy *)
  | Lookup (client : Addr) : eff (result RuleSet)
  | LookupIP (host : bytes) : eff (goerr + list Addr)
  | OutcallDo (key : bytes) (target : Target) (req : Request) : eff answer
  (* upstream *)
  | Dial (dst : bytes) : eff (option goerr)
  | DialTLS (dst sni : bytes) (h1only : bool) : eff (goerr + bytes)
  | SendOnce (req : HttpRequest) : eff ((goerr * bool) + HttpResponse)
  | H2CanTake : eff bool
  | H2Setup : eff (option goerr)
  | H2Send (req : HttpRequest) : eff (goerr + HttpResponse)
  (* the client's connection; [BoundHeader] is a [boundNextHeaderBlock] of it *)
  | BoundHeader : eff (option goerr)
  | ReadRequest : eff (goerr + HttpRequest)
  | PeekClientHello : eff PeekedHello
  | Page (url : bytes) (spec : Spec) : eff (option goerr)
  | Established : eff (option goerr)
  | ServeCAPEM : eff unit
  | Respond (resp : HttpResponse) : eff (option goerr)
  | Splice : eff unit
  (* certificates and the client's handshake *)
  | Mint (sni : bytes) : eff (option goerr)
  | MintFallback (sni : bytes) : eff (option goerr)
  | Handshake (protos : list bytes) : eff (goerr + bytes)
  (* the access log *)
  | Log (outcome : bytes) (status : Z) : eff unit.

(** [Panic] is a Go panic; nothing in the proxy recovers from one. *)
Inductive prog (A : Type) : Type :=
  | Ret (a : A)
  | Panic
  | Vis {X : Type} (e : eff X) (k : X -> prog A).
Arguments Ret {A} a.
Arguments Panic {A}.
Arguments Vis {A X} e k.

Fixpoint pbind {A B} (f : A -> prog B) (p : prog A) : prog B :=
  match p with
  | Ret a => f a
  | Panic => Panic
  | Vis e k => Vis e (fun x => pbind f (k x))
  end.

#[global] Instance prog_ret : MRet prog := fun A a => Ret a.
#[global] Instance prog_bind : MBind prog := fun A B f p => pbind f p.

Definition perform {X} (e : eff X) : prog X := Vis e Ret.

(** ** Runs *)

Inductive event : Type :=
  | Ev {X : Type} (e : eff X) (x : X).

(** An environment answers from the history. *)
Definition environment : Type := forall X, list event -> eff X -> X.

Fixpoint exec {A} (env : environment) (h : list event) (p : prog A) : list event * option A :=
  match p with
  | Ret a => (h, Some a)
  | Panic => (h, None)
  | Vis e k => let x := env _ h e in exec env (Ev e x :: h) (k x)
  end.

(** ** The logic *)

Definition guard : Type := list event -> forall X, eff X -> Prop.

Fixpoint safe {A} (ok : guard) (h : list event) (p : prog A) (Q : list event -> A -> Prop) : Prop :=
  match p with
  | Ret a => Q h a
  | Panic => True
  | Vis e k => ok h _ e /\ forall x, safe ok (Ev e x :: h) (k x) Q
  end.

(** Every effect of a history was allowed when it was performed. *)
Fixpoint all_ok (ok : guard) (h : list event) : Prop :=
  match h with
  | [] => True
  | Ev e _ :: h' => ok h' _ e /\ all_ok ok h'
  end.

Lemma safe_exec {A} ok env (p : prog A) h Q :
  all_ok ok h -> safe ok h p Q ->
  all_ok ok (exec env h p).1 /\ (forall a, (exec env h p).2 = Some a -> Q (exec env h p).1 a).
Proof.
  revert h. induction p as [a| |X e k IH]; intros h Hh Hs; [split; [done|by intros ? [= <-]]|done|].
  destruct Hs as [He Hk]. cbn. apply IH; [done|apply Hk].
Qed.

Lemma safe_bind {A B} ok h (p : prog A) (f : A -> prog B) Q R :
  safe ok h p Q -> (forall h' a, Q h' a -> safe ok h' (f a) R) -> safe ok h (p ≫= f) R.
Proof.
  intros Hp Hf. unfold mbind, prog_bind. revert h Hp. induction p as [a| |X e k IH]; intros h Hp; [by apply Hf|done|].
  - destruct Hp as [He Hk]. cbn. split; [done|]. intros x. apply IH, Hk.
Qed.

Lemma safe_weaken {A} ok h (p : prog A) (Q R : list event -> A -> Prop) :
  safe ok h p Q -> (forall h' a, Q h' a -> R h' a) -> safe ok h p R.
Proof.
  revert h. induction p as [a| |X e k IH]; intros h Hp HQR; [by apply HQR|done|].
  destruct Hp as [He Hk]. split; [done|]. intros x. eauto.
Qed.

Lemma safe_perform {A X} ok h (e : eff X) (f : X -> prog A) R :
  ok h _ e -> (forall x, safe ok (Ev e x :: h) (f x) R) -> safe ok h (perform e ≫= f) R.
Proof. intros He Hf. split; [done|]. apply Hf. Qed.

Lemma safe_ret {A} ok h (a : A) (Q : list event -> A -> Prop) : Q h a -> safe ok h (Ret a) Q.
Proof. done. Qed.

(** A post-condition may remember where it started. *)
Lemma safe_frame {A} ok h (p : prog A) Q :
  safe ok h p Q -> safe ok h p (fun h' a => Q h' a /\ h `suffix_of` h').
Proof.
  revert h. induction p as [a| |X e k IH]; intros h Hp; [by split|done|].
  destruct Hp as [He Hk]. split; [done|]. intros x. eapply safe_weaken; [apply IH, Hk|].
  intros h' a [HQ Hs]. split; [done|]. etransitivity; [|exact Hs]. by exists [Ev e x].
Qed.

Lemma all_ok_split ok h2 h1 X (e : eff X) (x : X) :
  all_ok ok (h2 ++ Ev e x :: h1) -> ok h1 X e.
Proof. induction h2 as [|[] h2 IH]; cbn; [by intros [? _]|]. intros [_ H]. by apply IH. Qed.

(** Histories only grow. *)
Lemma exec_suffix {A} env (p : prog A) h : exists h', (exec env h p).1 = (h' ++ h)%list.
Proof.
  revert h. induction p as [a| |X e k IH]; intros h; [by exists []|by exists []|].
  cbn. destruct (IH (env X h e) (Ev e (env X h e) :: h)) as [h' Hh']. rewrite Hh'.
  exists (h' ++ [Ev e (env X h e)])%list. by rewrite <- app_assoc.
Qed.

End Effects.


Arguments Ret {RE A} a.
Arguments Panic {RE A}.
Arguments Vis {RE A X} e k.
