(* ===== verification/Proxy.v ===== *)
(** * The proxy's policy steps (internal/proxy: egress.go, auth.go, outcall.go,
      actions.go, errclass.go, verdict.go, retry.go)

    The parts the connection handlers are made of, as programs over [Effects]. *)

From S2P Require Import Prelude GoStrings Netip Json Encoding Schema Matcher Compile HostIndex Egress Auth RuleSet.
From S2P Require Import Headers HttpError Actions CacheControl Outcall ClientIP Authority Effects.

Open Scope Z_scope.

(** ** Classifying errors and outcomes *)

(** [isTimeout] (http1.go). *)
Definition isTimeout (e : goerr) : bool := e_netTimeout e || (e_ctxDeadline e || e_osDeadline e).

Definition classifyConnectErr (e : goerr) : Spec :=
  if e_DNS e then UpstreamUnreachable
  else if isTimeout e then ConnectTimeout
  else UpstreamDown.

Definition classifyReadErr (e : goerr) : Spec :=
  if isTimeout e then ReadTimeout
  else if e_EOF e then ZeroSizeObject
  else BadGateway.

Definition classifyTerminateDialErr (e : goerr) : Spec :=
  if e_DNS e then UpstreamUnreachable
  else if isTimeout e then ConnectTimeout
  else TLSHandshakeFail.

(** [classifyOutcome]: the verdict and mitm labels. *)
Definition classifyOutcome (outcome : bytes) : bytes * bytes :=
  if bool_decide (outcome = str "ok") then (str "allow", str "true")
  else if bool_decide (outcome = str "splice (mitm:false)") then (str "allow", str "false")
  else if bool_decide (outcome ∈ [str "block"; str "misdirected-authority"; str "outcall-denied";
                                  str "outcall-fail"; str "raise"]) then (str "deny", str "true")
  else if bool_decide (outcome = str "denied") then (str "deny", str "false")
  else (str "deny", str "unknown").

(** [statusClass] (http1.go). *)
Definition statusClass (status : Z) : bytes :=
  if status =? 0 then [] else (Itoa (Z.quot status 100) ++ str "xx")%list.

(** [dialResultLabel] (upstream.go). *)
Definition dialResultLabel (e : option goerr) : bytes :=
  match e with
  | None => str "ok"
  | Some e => if e_DNS e then str "dns" else if isTimeout e then str "timeout" else str "refused"
  end.

(** ** [withRetries]

    [attempt i] is the outcome of the attempt number [i]; the result comes with
    the number of attempts made. *)
Fixpoint retryLoop {E T : Type} (tries : nat) (i : nat) (lastErr : E) (attempt : nat -> E + T)
    : (E + T) * nat :=
  match tries with
  | O => (inl lastErr, i)
  | S tries =>
      match attempt i with
      | inr v => (inr v, S i)
      | inl e => retryLoop tries (S i) e attempt
      end
  end.

(** [misuse] is the error of a non-positive number of tries. *)
Definition withRetries {E T : Type} (misuse : E) (tries : Z) (attempt : nat -> E + T) : (E + T) * nat :=
  if tries <=? 0 then (inl misuse, 0%nat) else retryLoop (Z.to_nat tries) 0 misuse attempt.

(** ** Outcall actions: what is sent *)

Definition alwaysMaskedHeaders : list bytes :=
  [str "Authorization"; str "Proxy-Authorization"; str "Cookie"].

Definition filterHeader (h : Header) (out : Header) (name : bytes) : Header :=
  let canon := CanonicalMIMEHeaderKey name in
  if bool_decide (canon ∈ alwaysMaskedHeaders) then out
  else match assoc canon h with
       | Some v => assoc_set canon v out
       | None => out
       end.

Definition filterHeaders (h : Header) (allow : list bytes) : Header := foldl (filterHeader h) [] allow.

(** [outcallContext]; [oc_Service] says whether a service is configured. *)
Record outcallContext : Type := {
  oc_Service : bool;
  oc_UUID : bytes;
  oc_Client : bytes;
  oc_Dst : bytes;
  oc_Method : bytes;
  oc_ReqURL : bytes;
  oc_Headers : Header }.

(** The envelope of [doOutcall]. *)
Definition outcall_request (oc : outcallContext) (co : CompiledOutcall) (action : Outcall.Action) : Request :=
  {| rq_Version := Version; rq_Action := action; rq_UUID := oc_UUID oc; rq_Client := oc_Client oc;
     rq_Proto := str "http"; rq_Dst := oc_Dst oc;
     rq_HTTP := Some {| hr_Method := oc_Method oc; hr_URL := oc_ReqURL oc;
                        hr_Headers := filterHeaders (oc_Headers oc) (co_Send co) |};
     rq_Credential := None |}.

Definition outcallFailVerdict (co : CompiledOutcall) : Verdict :=
  if co_FailOpen co then pass else respond OutcallFail.

Definition outcallDeniedVerdict (message : bytes) (status : Z) : Verdict :=
  respond (OutcallDenied status message).

(** [requestVerdictOutcome]. *)
Definition requestVerdictOutcome (spec : Spec) : bytes :=
  if bool_decide (sp_ErrCode spec = str "ERR_OUTCALL_DENIED") then str "outcall-denied"
  else if bool_decide (sp_ErrCode spec = str "ERR_OUTCALL_FAIL") then str "outcall-fail"
  else str "raise".

(** What a header.fetch reply does to the request headers: all of it, or a
    failure when it names a header of the denylist. *)
Definition fetch_header (h : Header) (kv : bytes * HeaderValue) : Header :=
  let canon := CanonicalMIMEHeaderKey kv.1 in
  if hv_Delete kv.2 then Header_Del h canon else header_put h canon (hv_Values kv.2).

Definition applyFetched (h : Header) (co : CompiledOutcall) (resp : Response) : Header * Verdict :=
  match rs_HTTP resp with
  | None => (h, pass)
  | Some http =>
      if existsb (fun kv => bool_decide (CanonicalMIMEHeaderKey kv.1 ∈ OutcallDenylist)) (hp_Headers http)
      then (h, outcallFailVerdict co)
      else (foldl fetch_header h (hp_Headers http), pass)
  end.

(** The auth broker's cache key: the identity, the target and 8 digest bytes of
    the credential. *)
Definition auth_cache_key `{DG : Digests} (uuid : bytes) (b : AuthBroker) (scheme value : bytes) : bytes :=
  let targetKey := if bool_decide (ab_Socket b <> []) then (ab_Socket b ++ ab_Path b)%list else ab_URL b in
  let credSum := sha256 (scheme ++ str ":" ++ value)%list in
  (str "auth:" ++ uuid ++ str ":" ++ targetKey ++ str ":" ++ hex_encode (take 8 credSum))%list.

(** ** The handler's configuration *)

Record Http1Handler : Type := {
  h_Outcall : bool;
  h_TrustedProxies : list Prefix;
  h_HTTP2ConnectTries : Z }.

Section Proxy.
Context `{RE : RegexEngine} `{DG : Digests} `{UT : UnicodeTable} `{ID : Idna}.

(** ** Outcall actions *)

Definition doOutcall (oc : outcallContext) (co : CompiledOutcall) (action : Outcall.Action) : prog answer :=
  if negb (oc_Service oc) then Ret (Failed "outcall: no OutcallService configured")
  else
    let target := {| tg_Socket := co_Socket co; tg_Path := co_Path co; tg_URL := co_URL co |} in
    perform (OutcallDo (co_CacheKey co) target (outcall_request oc co action)).

Definition applyWebhook (oc : outcallContext) (co : CompiledOutcall) : prog Verdict :=
  a ← doOutcall oc co ActionWebhook;
  Ret (match a with
       | Allowed _ => pass
       | Denied message status => outcallDeniedVerdict message status
       | Failed _ => outcallFailVerdict co
       end).

Definition applyHeaderFetch (oc : outcallContext) (h : Header) (co : CompiledOutcall) : prog (Header * Verdict) :=
  a ← doOutcall oc co ActionHeaderFetch;
  Ret (match a with
       | Allowed resp => applyFetched h co resp
       | Denied message status => (h, outcallDeniedVerdict message status)
       | Failed _ => (h, outcallFailVerdict co)
       end).

(** ** The request pipeline *)

(** One action of [applyRequestActions]; an outcall action without its compiled
    form would be a nil dereference. *)
Definition applyRequestAction (oc : outcallContext) (h : Header) (a : CompiledAction) : prog (Header * Verdict) :=
  let p := ca_Params a in
  if bool_decide (ca_Name a = str "header.add") then Ret (HeaderAdd h p)
  else if bool_decide (ca_Name a = str "header.set") then Ret (HeaderSet h p)
  else if bool_decide (ca_Name a = str "raise") then Ret (Raise h p)
  else if bool_decide (ca_Name a = str "block") then Ret (Block h p)
  else if bool_decide (ca_Name a = str "webhook") then
    match ca_Outcall a with
    | Some co => v ← applyWebhook oc co; Ret (h, v)
    | None => Panic
    end
  else if bool_decide (ca_Name a = str "header.fetch") then
    match ca_Outcall a with
    | Some co => applyHeaderFetch oc h co
    | None => Panic
    end
  else Ret (h, pass).

Fixpoint applyRequestActions (oc : outcallContext) (h : Header) (actions : list CompiledAction)
    : prog (Header * Verdict) :=
  match actions with
  | [] => Ret (h, pass)
  | a :: t =>
      hv ← applyRequestAction oc h a;
      if ShortCircuit (snd hv) then Ret hv else applyRequestActions oc (fst hv) t
  end.

(** ** Resolving and pinning *)

Inductive pin_error : Type :=
  | EgressDenied (addr : Addr)
  | ResolveFailed (e : goerr).

(** The first address the egress list refuses. *)
Fixpoint firstDenied (rs : RuleSet) (addrs : list Addr) (port : Z) (proto : bytes) : option Addr :=
  match addrs with
  | [] => None
  | a :: t => if fst (RuleSet_LookupEgress rs a port proto) then firstDenied rs t port proto else Some a
  end.

(** [netDialer.LookupIP]: the resolver's addresses, unmapped. *)
Definition dialerLookupIP (host : bytes) : prog (goerr + list Addr) :=
  r ← perform (LookupIP host);
  Ret (match r with inl e => inl e | inr ips => inr (map Unmap ips) end).

(** [resolveAndPin]; an empty answer would index out of range. *)
Definition resolveAndPin (rs : RuleSet) (host port proto : bytes) : prog (pin_error + bytes) :=
  match ParseUint 16 port with
  | Error _ => Ret (inl (ResolveFailed plain_error))
  | Ok portNum =>
      r ← (match ParseAddr host with
           | Ok addr => Ret (inr [addr])
           | Error _ => dialerLookupIP host
           end);
      match r with
      | inl e => Ret (inl (ResolveFailed e))
      | inr addrs =>
          match firstDenied rs addrs portNum proto with
          | Some a => Ret (inl (EgressDenied a))
          | None =>
              match addrs with
              | a :: _ => Ret (inr (JoinHostPort (AddrString a) port))
              | [] => Panic
              end
          end
      end
  end.

(** ** The auth gate *)

Definition authenticateBroker (h : Http1Handler) (b : AuthBroker) (uuid client proxyAuthorization : bytes)
    : prog (option bytes) :=
  if negb (h_Outcall h) then Ret None
  else
    match Cut " " proxyAuthorization with
    | None => Ret None
    | Some (scheme, value) =>
        a ← perform (OutcallDo (auth_cache_key uuid b scheme value)
              {| tg_Socket := ab_Socket b; tg_Path := ab_Path b; tg_URL := ab_URL b |}
              {| rq_Version := Version; rq_Action := ActionAuth; rq_UUID := uuid; rq_Client := client;
                 rq_Proto := str "http"; rq_Dst := []; rq_HTTP := None;
                 rq_Credential := Some {| cr_Scheme := scheme; cr_Value := value |} |});
        Ret (match a with
             | Allowed resp => if bool_decide (rs_Principal resp = []) then None else Some (rs_Principal resp)
             | _ => None
             end)
    end.

(** The credential checks of [checkAuth]: the local lists, then the broker. *)
Definition authenticate (h : Http1Handler) (ca : CompiledAuth) (uuid client proxyAuthorization : bytes)
    : prog (option bytes) :=
  match Authenticate ca proxyAuthorization with
  | None => Panic
  | Some (Some principal) => Ret (Some principal)
  | Some None =>
      match cau_Broker ca with
      | Some b => authenticateBroker h b uuid client proxyAuthorization
      | None => Ret None
      end
  end.

(** [checkAuth]: the principal, or [None] when the connection is refused. *)
Definition checkAuth (h : Http1Handler) (sess : Session) (rs : RuleSet) (header : Header) (reqURL : bytes)
    : prog (option bytes) :=
  match rs_auth rs with
  | None => Ret (Some [])
  | Some ca =>
      if negb (cau_Required ca) then Ret (Some [])
      else if negb (bool_decide (s_Transport sess = TransportExplicit)) then
        _ ← perform (Page reqURL ForwardingDenied);
        _ ← perform (Log (str "forwarding-denied") (sp_Status ForwardingDenied));
        Ret None
      else
        let credential := Header_Get header (str "Proxy-Authorization") in
        r ← authenticate h ca (rs_uuid rs) (AddrString (ClientKey sess)) credential;
        match r with
        | Some principal => Ret (Some principal)
        | None =>
            let outcome := if bool_decide (credential = []) then str "auth-required" else str "auth-failed" in
            let spec := ProxyAuthRequired (cau_Realm ca) (ChallengeSchemes ca) in
            _ ← perform (Page reqURL spec);
            _ ← perform (Log outcome (sp_Status spec));
            Ret None
        end
  end.

End Proxy.
