(* ===== verification/Http1.v ===== *)
(** * The connection handlers (internal/proxy: http1.go, http2.go, transparent.go,
      tlsservice.go, roundtrip.go, rawsplice.go)

    Every handler from an accepted session on, as a program over [Effects]:
    what it asks, dials, sends and writes, in the order of the code.  Metrics,
    tracing spans, read deadlines and the copying of bodies are not effects here.

    A connection serves requests until either side ends it; [fuel] bounds how
    many requests of one connection a run looks at, and every theorem about a run
    holds for all of them.  The streams of an HTTP/2 connection run one after the
    other: a stream's handler shares nothing with the others but the upstream. *)

From S2P Require Import Prelude GoStrings Netip Json Encoding Schema Matcher Compile HostIndex Egress Auth RuleSet.
From S2P Require Import Headers HttpError Actions CacheControl Outcall ClientIP Authority Effects Proxy.

Open Scope Z_scope.

(** ** Upstream connections *)

(** How an [h1RoundTripper] redials: not at all, in the clear, or over TLS. *)
Inductive redial : Type :=
  | NoRedial
  | RedialPlain (dst : bytes)
  | RedialTLS (dst sni : bytes).

Inductive upstream : Type :=
  | UpH1 (r : redial)
  | UpH2 (dst sni : bytes).

Definition isIdempotentMethod (method : bytes) : bool :=
  bool_decide (method ∈ [str "GET"; str "HEAD"; str "OPTIONS"; str "TRACE"]).

Inductive terminatePhase : Type := PhaseDial | PhaseMint | PhaseHandshake.

Record TerminateResult : Type := { tr_ALPN : bytes; tr_UpstreamALPN : bytes }.

(** [requestURL]. *)
Definition requestURL (connIn : ConnInput) (q : HttpRequest) : bytes :=
  let host := if bool_decide (q_Host q = []) then in_Host connIn else q_Host q in
  (in_Proto connIn ++ str "://" ++ host ++ q_RequestURI q)%list.

(** [isUpgradeRequest]. *)
Definition isUpgradeRequest (q : HttpRequest) : bool :=
  bool_decide (Header_Get (q_Header q) (str "Upgrade") <> [])
  && existsb (fun v => existsb (fun tok => EqualFold (TrimSpace tok) (str "Upgrade")) (Split "," v))
       (Header_Values (q_Header q) (str "Connection")).

(** The HTTP/1.1 framing [handleOneRequest] gives a response before the
    response actions. *)
Definition normalizeResponse (p : HttpResponse) : HttpResponse :=
  {| p_Proto := str "HTTP/1.1"; p_Status := p_Status p; p_Header := p_Header p; p_Body := p_Body p;
     p_ContentLength := p_ContentLength p;
     p_TransferEncoding := if (p_ContentLength p <? 0) && (length (p_TransferEncoding p) =? 0)%nat
                           then [str "chunked"] else p_TransferEncoding p;
     p_Close := p_Close p |}.

(** The status and body a response pipeline stages, applied. *)
Definition applyOverrides (p : HttpResponse) (r : ResponseInterceptor) : HttpResponse :=
  let status := if ri_StatusOverride r =? 0 then p_Status p else ri_StatusOverride r in
  match ri_BodyOverride r with
  | Some body =>
      {| p_Proto := p_Proto p; p_Status := status; p_Header := ri_Header r; p_Body := body;
         p_ContentLength := Z.of_nat (length body); p_TransferEncoding := []; p_Close := p_Close p |}
  | None =>
      {| p_Proto := p_Proto p; p_Status := status; p_Header := ri_Header r; p_Body := p_Body p;
         p_ContentLength := p_ContentLength p; p_TransferEncoding := p_TransferEncoding p;
         p_Close := p_Close p |}
  end.

(** The response pipeline of [handleOneRequest]. *)
Definition interceptResponse (p : HttpResponse) (actions : list CompiledAction) : HttpResponse :=
  let p := normalizeResponse p in
  applyOverrides p
    (fst (applyResponseActions
            {| ri_Header := p_Header p; ri_BodyOverride := None; ri_StatusOverride := 0 |} actions)).

(** The response [handleH2Stream] writes: its headers, and a length of its own
    for a replaced body. *)
Definition interceptH2Response (p : HttpResponse) (actions : list CompiledAction) : HttpResponse :=
  let r := fst (applyResponseActions
                  {| ri_Header := p_Header p; ri_BodyOverride := None; ri_StatusOverride := 0 |} actions) in
  let status := if ri_StatusOverride r =? 0 then p_Status p else ri_StatusOverride r in
  match ri_BodyOverride r with
  | Some body =>
      {| p_Proto := p_Proto p; p_Status := status;
         p_Header := Header_Set (ri_Header r) (str "Content-Length") (Itoa (Z.of_nat (length body)));
         p_Body := body; p_ContentLength := Z.of_nat (length body);
         p_TransferEncoding := p_TransferEncoding p; p_Close := p_Close p |}
  | None =>
      {| p_Proto := p_Proto p; p_Status := status; p_Header := ri_Header r; p_Body := p_Body p;
         p_ContentLength := p_ContentLength p; p_TransferEncoding := p_TransferEncoding p;
         p_Close := p_Close p |}
  end.

Section Http1.
Context `{RE : RegexEngine} `{DG : Digests} `{UT : UnicodeTable} `{ID : Idna}.
Variable h : Http1Handler.

(** ** Round trips *)

Definition redialUpstream (r : redial) : prog (option goerr) :=
  match r with
  | NoRedial => Ret (Some plain_error)
  | RedialPlain dst => perform (Dial dst)
  | RedialTLS dst sni =>
      x ← perform (DialTLS dst sni false);
      Ret (match x with inl e => Some e | inr _ => None end)
  end.

(** [h1RoundTripper.RoundTrip]: one retry on a fresh connection, when nothing
    reached the wire or the method is idempotent; a failed retry reports the
    first failure. *)
Definition h1RoundTrip (r : redial) (q : HttpRequest) : prog (goerr + HttpResponse) :=
  x ← perform (SendOnce q);
  match x with
  | inr resp => Ret (inr resp)
  | inl (err, nothingWritten) =>
      match r with
      | NoRedial => Ret (inl err)
      | _ =>
          if e_tooLarge err || (negb nothingWritten && negb (isIdempotentMethod (q_Method q)))
          then Ret (inl err)
          else
            d ← redialUpstream r;
            match d with
            | Some _ => Ret (inl err)
            | None =>
                y ← perform (SendOnce q);
                Ret (match y with inr resp => inr resp | inl _ => inl err end)
            end
      end
  end.

(** [newUpstreamH2ClientConn]: [have] says whether a connection is at hand. *)
Fixpoint h2Attempts (tries : nat) (dst sni : bytes) (have : bool) (lastErr : goerr) : prog (option goerr) :=
  match tries with
  | O => Ret (Some lastErr)
  | S tries =>
      d ← (if have then Ret (inr [])
           else perform (DialTLS dst sni false));
      match d with
      | inl e => h2Attempts tries dst sni false e
      | inr _ =>
          s ← perform H2Setup;
          match s with
          | None => Ret None
          | Some e => h2Attempts tries dst sni false e
          end
      end
  end.

Definition newUpstreamH2ClientConn (dst sni : bytes) (have : bool) : prog (option goerr) :=
  if h_HTTP2ConnectTries h <=? 0 then Ret (Some plain_error)
  else h2Attempts (Z.to_nat (h_HTTP2ConnectTries h)) dst sni have plain_error.

(** The request as [h2RoundTripper] sends it. *)
Definition h2_form (q : HttpRequest) : HttpRequest :=
  {| q_Method := q_Method q; q_Scheme := str "https";
     q_URLHost := if bool_decide (q_URLHost q = []) then q_Host q else q_URLHost q;
     q_Path := q_Path q; q_RequestURI := q_RequestURI q; q_URLString := q_URLString q;
     q_Host := q_Host q; q_Header := q_Header q; q_Close := q_Close q |}.

(** [h2RoundTripper.RoundTrip]: a connection that takes no new requests is
    replaced first. *)
Definition h2RoundTrip (dst sni : bytes) (q : HttpRequest) : prog (goerr + HttpResponse) :=
  can ← perform H2CanTake;
  e ← (if can : bool then Ret None else newUpstreamH2ClientConn dst sni false);
  match e with
  | Some e => Ret (inl e)
  | None => perform (H2Send (h2_form q))
  end.

Definition roundTrip (u : upstream) (q : HttpRequest) : prog (goerr + HttpResponse) :=
  match u with
  | UpH1 r => h1RoundTrip r q
  | UpH2 dst sni => h2RoundTrip dst sni q
  end.

(** ** Requests *)

(** [readBoundedRequest]. *)
Definition readBoundedRequest : prog (goerr + HttpRequest) :=
  b ← perform BoundHeader;
  match b with
  | Some e =>
      if e_osDeadline e then
        _ ← perform (Page [] RequestTimeout);
        _ ← perform (Log (str "client-read-timeout") (sp_Status RequestTimeout));
        Ret (inl e)
      else if e_empty e then
        _ ← perform (Log (str "empty-connection") 0);
        Ret (inl e)
      else
        let spec := if e_tooLarge e then HeadersTooLarge else InvalidRequest in
        let outcome := if e_tooLarge e then str "headers-too-large" else str "invalid-request" in
        _ ← perform (Page [] spec);
        _ ← perform (Log outcome (sp_Status spec));
        Ret (inl e)
  | None =>
      r ← perform ReadRequest;
      match r with
      | inr q => Ret (inr q)
      | inl e =>
          _ ← perform (Page [] InvalidRequest);
          _ ← perform (Log (str "invalid-request") (sp_Status InvalidRequest));
          Ret (inl e)
      end
  end.

Definition fail (url : bytes) (spec : Spec) (outcome : string) : prog bool :=
  _ ← perform (Page url spec);
  _ ← perform (Log (str outcome) (sp_Status spec));
  Ret false.

(** The end of a short-circuited request. *)
Definition shortCircuited (url : bytes) (v : Verdict) : prog bool :=
  match v_Resp v with
  | Some spec =>
      _ ← perform (Page url spec);
      _ ← perform (Log (requestVerdictOutcome spec) (sp_Status spec));
      Ret false
  | None => _ ← perform (Log (str "block") 0); Ret false
  end.

(** The upstream leg of a request: an upgrade cannot go over HTTP/2, so it gets
    a connection of its own. *)
Definition upgradeUpstream (u : upstream) (q : HttpRequest) : prog (goerr + upstream) :=
  match u with
  | UpH2 dst sni =>
      if isUpgradeRequest q then
        x ← perform (DialTLS dst sni true);
        Ret (match x with inl e => inl e | inr _ => inr (UpH1 NoRedial) end)
      else Ret (inr u)
  | UpH1 _ => Ret (inr u)
  end.

(** The outcall context of a request. *)
Definition newOutcallContext (sess : Session) (rs : RuleSet) (connIn : ConnInput) (dst : bytes)
    (q : HttpRequest) : outcallContext :=
  {| oc_Service := h_Outcall h; oc_UUID := rs_uuid rs; oc_Client := AddrString (ClientKey sess);
     oc_Dst := dst; oc_Method := q_Method q; oc_ReqURL := requestURL connIn q; oc_Headers := q_Header q |}.

Definition msgInput (connIn : ConnInput) (q : HttpRequest) : MsgInput :=
  {| in_Conn := connIn; in_Path := q_Path q; in_Method := q_Method q; in_Header := q_Header q |}.

(** [handleOneRequest] after the pipeline let the request pass. *)
Definition forwardRequest (u : upstream) (rule : CompiledRule) (q : HttpRequest) : prog bool :=
  let url := q_RequestURI q in
  u' ← upgradeUpstream u q;
  match u' with
  | inl e => fail url (classifyConnectErr e) "upgrade-fallback-connect-fail"
  | inr u' =>
      r ← roundTrip u' q;
      match r with
      | inl e => fail url (classifyReadErr e) "upstream-error"
      | inr resp =>
          let out := interceptResponse resp (cr_response rule) in
          w ← perform (Respond out);
          match w with
          | Some _ => _ ← perform (Log (str "client-write-error") (p_Status out)); Ret false
          | None =>
              _ ← perform (Log (str "ok") (p_Status out));
              if p_Status out =? 101 then
                match u' with
                | UpH1 _ => _ ← perform Splice; Ret false
                | UpH2 _ _ => Ret false
                end
              else Ret (negb (q_Close q || p_Close out))
          end
      end
  end.

(** [handleOneRequest]: [true] when the connection goes on. *)
Definition handleOneRequest (sess : Session) (u : upstream) (connIn : ConnInput) (dst : bytes)
    (q : HttpRequest) : prog bool :=
  let url := q_RequestURI q in
  if negb (authorityMatches (q_Host q) (in_Host connIn) (in_Port connIn) (in_Proto connIn)) then
    fail url MisdirectedRequest "misdirected-authority"
  else
    r ← perform (Lookup (ClientKey sess));
    match r with
    | Error _ => _ ← perform (Log (str "rule-engine-error") 0); Ret false
    | Ok rs =>
        match LookupRequest rs (msgInput connIn q) with
        | None => fail url NoMatch "no-match"
        | Some rule =>
            hv ← applyRequestActions (newOutcallContext sess rs connIn dst q) (q_Header q) (cr_request rule);
            if ShortCircuit (snd hv) then shortCircuited url (snd hv)
            else forwardRequest u rule (with_req_header q (fst hv))
        end
    end.

(** [relayIntercepted]. *)
Fixpoint relayIntercepted (fuel : nat) (sess : Session) (u : upstream) (connIn : ConnInput) (dst : bytes)
    (req : option HttpRequest) : prog unit :=
  match fuel with
  | O => Ret tt
  | S fuel =>
      r ← (match req with Some q => Ret (inr q) | None => readBoundedRequest end);
      match r with
      | inl _ => Ret tt
      | inr q =>
          more ← handleOneRequest sess u connIn dst q;
          if more : bool then relayIntercepted fuel sess u connIn dst None else Ret tt
      end
  end.

(** ** HTTP/2 *)

(** [handleH2Stream]. *)
Definition handleH2Stream (sess : Session) (connIn : ConnInput) (dst sni : bytes) (q : HttpRequest) : prog bool :=
  let url := q_RequestURI q in
  if negb (authorityMatches (q_Host q) (in_Host connIn) (in_Port connIn) (in_Proto connIn)) then
    fail url MisdirectedRequest "misdirected-authority"
  else
    r ← perform (Lookup (ClientKey sess));
    match r with
    | Error _ => _ ← perform (Log (str "rule-engine-error") 0); Ret false
    | Ok rs =>
        match LookupRequest rs (msgInput connIn q) with
        | None => fail url NoMatch "no-match"
        | Some rule =>
            hv ← applyRequestActions (newOutcallContext sess rs connIn dst q) (q_Header q) (cr_request rule);
            if ShortCircuit (snd hv) then shortCircuited url (snd hv)
            else
              r ← h2RoundTrip dst sni (with_req_header q (fst hv));
              match r with
              | inl e => fail url (classifyReadErr e) "upstream-error"
              | inr resp =>
                  let out := interceptH2Response resp (cr_response rule) in
                  _ ← perform (Respond out);
                  _ ← perform (Log (str "ok") (p_Status out));
                  Ret true
              end
        end
    end.

(** The streams [http2.Server.ServeConn] hands to the handler; one that fails
    does not end the connection. *)
Fixpoint serveStreams (fuel : nat) (sess : Session) (connIn : ConnInput) (dst sni : bytes) : prog unit :=
  match fuel with
  | O => Ret tt
  | S fuel =>
      r ← perform ReadRequest;
      match r with
      | inl _ => Ret tt
      | inr q => _ ← handleH2Stream sess connIn dst sni q; serveStreams fuel sess connIn dst sni
      end
  end.

(** [serveH2]. *)
Definition serveH2 (fuel : nat) (sess : Session) (connIn : ConnInput) (dst sni : bytes) : prog unit :=
  e ← newUpstreamH2ClientConn dst sni true;
  match e with
  | Some _ => _ ← perform (Log (str "h2-connect-fail") 0); Ret tt
  | None => serveStreams fuel sess connIn dst sni
  end.

(** ** TLS termination *)

(** [TLSService.Terminate]. *)
Definition Terminate (dst sni : bytes) : prog ((terminatePhase * goerr) + TerminateResult) :=
  up ← perform (DialTLS dst sni false);
  match up with
  | inl e => Ret (inl (PhaseDial, e))
  | inr upstreamALPN =>
      m ← perform (Mint sni);
      match m with
      | Some e => Ret (inl (PhaseMint, e))
      | None =>
          let protos := if bool_decide (upstreamALPN = str "h2") then [str "h2"; str "http/1.1"]
                        else [str "http/1.1"] in
          hs ← perform (Handshake protos);
          Ret (match hs with
               | inl e => inl (PhaseHandshake, e)
               | inr alpn => inr {| tr_ALPN := alpn; tr_UpstreamALPN := upstreamALPN |}
               end)
      end
  end.

(** [TLSService.Fallback]. *)
Definition Fallback (sni reqURL : bytes) (spec : Spec) : prog (option goerr) :=
  m ← perform (MintFallback sni);
  match m with
  | Some e => Ret (Some e)
  | None =>
      hs ← perform (Handshake [str "http/1.1"]);
      match hs with
      | inl e => Ret (Some e)
      | inr _ => perform (Page reqURL spec)
      end
  end.

(** [terminateFailed]. *)
Definition terminateFailed (sni reqURL : bytes) (phase : terminatePhase) (e : goerr) : prog unit :=
  match phase with
  | PhaseHandshake => perform (Log (str "tls-terminate-error") 0)
  | _ =>
      let spec := match phase with PhaseDial => classifyTerminateDialErr e | _ => InternalError end in
      f ← Fallback sni reqURL spec;
      match f with
      | Some _ => perform (Log (str "fallback-failed") 0)
      | None => perform (Log (str "fallback-served") (sp_Status spec))
      end
  end.

(** [rawSplice]. *)
Definition rawSplice (dst : bytes) : prog unit :=
  e ← perform (Dial dst);
  match e with
  | Some _ => Ret tt
  | None => perform Splice
  end.

(** [serveTunnel]. *)
Definition serveTunnel (fuel : nat) (sess : Session) (dst sni : bytes) (connIn : ConnInput) (mitm : bool)
    (reqURL : bytes) : prog unit :=
  if negb mitm then
    _ ← perform (Log (str "splice (mitm:false)") 0);
    rawSplice dst
  else
    t ← Terminate dst sni;
    match t with
    | inl (phase, e) => terminateFailed sni reqURL phase e
    | inr result =>
        if bool_decide (tr_ALPN result = str "h2") then serveH2 fuel sess connIn dst sni
        else if bool_decide (tr_UpstreamALPN result = str "h2") then
          e ← newUpstreamH2ClientConn dst sni true;
          match e with
          | Some e =>
              let spec := classifyTerminateDialErr e in
              _ ← perform (Page reqURL spec);
              perform (Log (str "h2-connect-fail") (sp_Status spec))
          | None => relayIntercepted fuel sess (UpH2 dst sni) connIn dst None
          end
        else relayIntercepted fuel sess (UpH1 (RedialTLS dst sni)) connIn dst None
    end.

(** ** Explicit proxying *)

Definition refuse (url : bytes) (spec : Spec) (outcome : string) : prog unit :=
  _ ← perform (Page url spec);
  perform (Log (str outcome) (sp_Status spec)).

(** What a failed [resolveAndPin] tells an explicit client. *)
Definition refusePin (url : bytes) (e : pin_error) : prog unit :=
  match e with
  | EgressDenied _ => refuse url ForwardingDenied "forwarding-denied"
  | ResolveFailed e => refuse url (classifyConnectErr e) "resolve-fail"
  end.

(** [serveConnect] once the destination is pinned. *)
Definition connectPinned (fuel : nat) (sess : Session) (host dst reqURL : bytes) (connIn : ConnInput)
    (mitm : bool) : prog unit :=
  probe ← perform (Dial dst);
  match probe with
  | Some e => refuse reqURL (classifyConnectErr e) "connect-fail"
  | None =>
      w ← perform Established;
      match w with
      | Some _ => Ret tt
      | None =>
          if negb mitm then serveTunnel fuel sess dst [] connIn mitm reqURL
          else
            hello ← perform PeekClientHello;
            match ph_err hello with
            | Some _ => perform (Log (str "peek-error") 0)
            | None =>
                let sni := if bool_decide (ph_ServerName hello = []) then host else ph_ServerName hello in
                if negb (sameHost sni host) then
                  f ← Fallback sni reqURL MisdirectedRequest;
                  match f with
                  | Some _ => perform (Log (str "sni-mismatch-fallback-failed") 0)
                  | None => perform (Log (str "sni-mismatch") (sp_Status MisdirectedRequest))
                  end
                else serveTunnel fuel sess dst sni connIn mitm reqURL
            end
      end
  end.

(** [serveConnect]. *)
Definition serveConnect (fuel : nat) (sess : Session) (q : HttpRequest) : prog unit :=
  match normalizeAuthority (q_Host q) (str "443") with
  | Error _ => refuse (q_Host q) InvalidRequest "invalid-connect-authority"
  | Ok (host, port, dst) =>
      let reqURL := (str "https://" ++ dst)%list in
      let connIn := {| in_Host := host; in_Port := port; in_Proto := str "https" |} in
      r ← perform (Lookup (ClientKey sess));
      match r with
      | Error _ => perform (Log (str "rule-engine-error") 0)
      | Ok rs =>
          principal ← checkAuth h sess rs (q_Header q) reqURL;
          match principal with
          | None => Ret tt
          | Some _ =>
              let '(mitm, deny, matched) := LookupConn rs connIn in
              if negb matched then refuse reqURL NoMatch "no-match"
              else if deny : bool then refuse reqURL RuleDenied "denied"
              else
                pinned ← resolveAndPin rs host port (str "http");
                match pinned with
                | inl e => refusePin reqURL e
                | inr dst => connectPinned fuel sess host dst reqURL connIn mitm
                end
          end
      end
  end.

(** [serveAbsoluteForm]. *)
Definition serveAbsoluteForm (fuel : nat) (sess : Session) (q : HttpRequest) : prog unit :=
  let url := q_URLString q in
  if negb (EqualFold (q_Scheme q) (str "http")) then refuse url InvalidRequest "unsupported-absolute-scheme"
  else
    match normalizeAuthority (q_URLHost q) (str "80") with
    | Error _ => refuse url InvalidRequest "invalid-request-authority"
    | Ok (host, port, _) =>
        let connIn := {| in_Host := host; in_Port := port; in_Proto := str "http" |} in
        r ← perform (Lookup (ClientKey sess));
        match r with
        | Error _ => perform (Log (str "rule-engine-error") 0)
        | Ok rs =>
            principal ← checkAuth h sess rs (q_Header q) url;
            match principal with
            | None => Ret tt
            | Some _ =>
                let q := with_req_header q (Header_Del (q_Header q) (str "Proxy-Authorization")) in
                let '(_, deny, matched) := LookupConn rs connIn in
                if negb matched then refuse url NoMatch "no-match"
                else if deny : bool then refuse url RuleDenied "denied"
                else
                  pinned ← resolveAndPin rs host port (str "http");
                  match pinned with
                  | inl e => refusePin url e
                  | inr dst =>
                      up ← perform (Dial dst);
                      match up with
                      | Some e => refuse url (classifyConnectErr e) "connect-fail"
                      | None =>
                          relayIntercepted fuel sess (UpH1 (RedialPlain dst)) connIn dst (Some (origin_form q))
                      end
                  end
            end
        end
    end.

(** ** Transparent proxying *)

(** Transparent failures are only logged. *)
Definition dropPin (e : pin_error) : prog unit :=
  match e with
  | EgressDenied _ => perform (Log (str "forwarding-denied") 0)
  | ResolveFailed _ => perform (Log (str "resolve-fail") 0)
  end.

(** [serveTransparentTLS]. *)
Definition serveTransparentTLS (fuel : nat) (sess : Session) (hello : PeekedHello) (dstAddr dstPort : bytes)
    : prog unit :=
  let sni := if bool_decide (ph_ServerName hello = []) then dstAddr else ph_ServerName hello in
  let reqURL := (str "https://" ++ JoinHostPort sni dstPort)%list in
  let connIn := {| in_Host := sni; in_Port := dstPort; in_Proto := str "https" |} in
  r ← perform (Lookup (ClientKey sess));
  match r with
  | Error _ => perform (Log (str "rule-engine-error") 0)
  | Ok rs =>
      principal ← checkAuth h sess rs [] reqURL;
      match principal with
      | None => Ret tt
      | Some _ =>
          let '(mitm, deny, matched) := LookupConn rs connIn in
          if negb matched then perform (Log (str "no-match") 0)
          else if deny : bool then perform (Log (str "denied") 0)
          else
            pinned ← resolveAndPin rs dstAddr dstPort (str "http");
            match pinned with
            | inl e => dropPin e
            | inr dst => serveTunnel fuel sess dst sni connIn mitm reqURL
            end
      end
  end.

(** [serveTransparentOpaqueMITM]. *)
Definition serveTransparentOpaqueMITM (fuel : nat) (sess : Session) (dstAddr dstPort : bytes) : prog unit :=
  b ← perform BoundHeader;
  match b with
  | Some e =>
      perform (Log (if e_osDeadline e then str "client-read-timeout"
                    else if e_empty e then str "empty-connection"
                    else if e_tooLarge e then str "headers-too-large"
                    else str "invalid-request") 0)
  | None =>
  x ← perform ReadRequest;
  match x with
  | inl _ => perform (Log (str "invalid-request") 0)
  | inr q =>
      let host := if bool_decide (q_Host q = []) then dstAddr else q_Host q in
      match normalizeAuthority host dstPort with
      | Error _ => perform (Log (str "invalid-host-header") 0)
      | Ok (hostOnly, _, _) =>
          let connIn := {| in_Host := hostOnly; in_Port := dstPort; in_Proto := str "http" |} in
          let reqURL := (str "http://" ++ hostOnly ++ q_RequestURI q)%list in
          r ← perform (Lookup (ClientKey sess));
          match r with
          | Error _ => perform (Log (str "rule-engine-error") 0)
          | Ok rs =>
              principal ← checkAuth h sess rs (q_Header q) reqURL;
              match principal with
              | None => Ret tt
              | Some _ =>
                  let q := with_req_header q (Header_Del (q_Header q) (str "Proxy-Authorization")) in
                  let '(_, deny, matched) := LookupConn rs connIn in
                  if negb matched then perform (Log (str "no-match") 0)
                  else if deny : bool then perform (Log (str "denied") 0)
                  else
                    pinned ← resolveAndPin rs dstAddr dstPort (str "http");
                    match pinned with
                    | inl e => dropPin e
                    | inr dst =>
                        up ← perform (Dial dst);
                        match up with
                        | Some _ => perform (Log (str "connect-fail") 0)
                        | None => relayIntercepted fuel sess (UpH1 (RedialPlain dst)) connIn dst (Some q)
                        end
                    end
              end
          end
      end
  end
  end.

(** [serveTransparentOpaque]. *)
Definition serveTransparentOpaque (fuel : nat) (sess : Session) (dstAddr dstPort : bytes) : prog unit :=
  let reqURL := (str "tcp://" ++ JoinHostPort dstAddr dstPort)%list in
  let connIn := {| in_Host := dstAddr; in_Port := dstPort; in_Proto := str "tcp" |} in
  r ← perform (Lookup (ClientKey sess));
  match r with
  | Error _ => perform (Log (str "rule-engine-error") 0)
  | Ok rs =>
      principal ← checkAuth h sess rs [] reqURL;
      match principal with
      | None => Ret tt
      | Some _ =>
          let '(mitm, deny, matched) := LookupConn rs connIn in
          if negb matched then perform (Log (str "no-match") 0)
          else if deny : bool then perform (Log (str "denied") 0)
          else if mitm : bool then serveTransparentOpaqueMITM fuel sess dstAddr dstPort
          else
            pinned ← resolveAndPin rs dstAddr dstPort (str "tcp");
            match pinned with
            | inl e => dropPin e
            | inr dst => serveTunnel fuel sess dst [] connIn false reqURL
            end
      end
  end.

(** [serveTransparent]. *)
Definition serveTransparent (fuel : nat) (sess : Session) : prog unit :=
  let dstAddr := AddrString (ap_Addr (s_Dst sess)) in
  let dstPort := Itoa (ap_Port (s_Dst sess)) in
  hello ← perform PeekClientHello;
  match ph_err hello with
  | None => serveTransparentTLS fuel sess hello dstAddr dstPort
  | Some e =>
      if bool_decide (ph_Raw hello = []) then
        perform (Log (if e_osDeadline e then str "client-read-timeout" else str "empty-connection") 0)
      else serveTransparentOpaque fuel sess dstAddr dstPort
  end.

(** ** [Serve] *)

(** The session after client-IP recovery. *)
Definition recoverSession (sess : Session) (header : Header) : Session :=
  if (0 <? length (h_TrustedProxies h))%nat && IsValid (ap_Addr (s_Client sess)) then
    {| s_Client := {| ap_Addr := recoverClientIP (ap_Addr (s_Client sess)) header (h_TrustedProxies h);
                      ap_Port := ap_Port (s_Client sess) |};
       s_Dst := s_Dst sess; s_Transport := s_Transport sess |}
  else sess.

Definition Serve (fuel : nat) (sess : Session) : prog unit :=
  if negb (bool_decide (s_Transport sess = TransportExplicit)) then serveTransparent fuel sess
  else
    x ← readBoundedRequest;
    match x with
    | inl _ => Ret tt
    | inr q =>
        let sess := recoverSession sess (q_Header q) in
        if bool_decide (q_Method q = str "CONNECT") then serveConnect fuel sess q
        else if bool_decide (q_Scheme q <> []) then serveAbsoluteForm fuel sess q
        else if bool_decide (q_Method q = str "GET") && bool_decide (q_Path q = str "/ca.pem") then
          perform ServeCAPEM
        else refuse (q_URLString q) InvalidRequest "invalid-request-shape"
    end.

End Http1.
