(* ===== verification/ProxySafety.v ===== *)
(** * What the proxy never does

    Every connection handler, run against any environment: nothing is dialled
    before the policy of the client that owns the connection has cleared the very
    address dialled, and no request is sent upstream that did not pass the whole
    request pipeline of the rule it matches. *)

From S2P Require Import Prelude GoStrings Netip Json Encoding Schema Matcher Compile HostIndex Egress Auth RuleSet.
From S2P Require Import Headers HttpError Actions CacheControl Outcall ClientIP Authority Effects Proxy Http1.

Open Scope Z_scope.

Section Safety.
Context `{RE : RegexEngine} `{DG : Digests} `{UT : UnicodeTable} `{ID : Idna}.
Variable h : Http1Handler.

(** ** Observations *)

(** The address an effect connects to. *)
Definition dial_target {X} (e : eff X) : option bytes :=
  match e with
  | Dial dst => Some dst
  | DialTLS dst _ _ => Some dst
  | _ => None
  end.

(** The request an effect puts on the upstream connection. *)
Definition sent_request {X} (e : eff X) : option HttpRequest :=
  match e with
  | SendOnce q => Some q
  | H2Send q => Some q
  | _ => None
  end.

(** ** Clearance *)

(** The client passed the rule set's auth gate. *)
Inductive admitted (sess : Session) (rs : RuleSet) (hist : list event) : Prop :=
  | open_gate : (forall ca, rs_auth rs = Some ca -> cau_Required ca = false) -> admitted sess rs hist
  | by_credential ca credential principal :
      rs_auth rs = Some ca -> s_Transport sess = TransportExplicit ->
      Authenticate ca credential = Some (Some principal) -> admitted sess rs hist
  | by_broker ca b scheme value target req resp :
      rs_auth rs = Some ca -> s_Transport sess = TransportExplicit ->
      cau_Broker ca = Some b ->
      rq_Credential req = Some {| cr_Scheme := scheme; cr_Value := value |} ->
      Ev (OutcallDo (auth_cache_key (rs_uuid rs) b scheme value) target req) (Allowed resp) ∈ hist ->
      rs_Principal resp <> [] -> admitted sess rs hist.

(** [dst] is an address of [host] that, with every other address the resolver
    gave for it, the egress list allows on [port]. *)
Inductive pinned (rs : RuleSet) (hist : list event) (host port proto : bytes) (dst : bytes) : Prop :=
  | pinned_intro portNum a addrs ips :
      ParseUint 16 port = Ok portNum ->
      (ParseAddr host = Ok a /\ addrs = [])
      \/ (Ev (LookupIP host) (inr ips) ∈ hist /\ a :: addrs = map Unmap ips) ->
      Forall (fun a => fst (RuleSet_LookupEgress rs a portNum proto) = true) (a :: addrs) ->
      dst = JoinHostPort (AddrString a) port ->
      pinned rs hist host port proto dst.

(** The host whose address is dialled: the canonical one the rule matched, or
    the intercepted destination. *)
Definition host_of (sess : Session) (connIn : ConnInput) (host : bytes) : Prop :=
  (host = in_Host connIn
   /\ exists authority dflt dst0, normalizeAuthority authority dflt = Ok (host, in_Port connIn, dst0))
  \/ host = AddrString (ap_Addr (s_Dst sess)).

(** A connection to [dst] on behalf of [sess] is cleared: under one rule set
    looked up for this client, the client was admitted, the connection matches a
    rule that accepts it, and the address is pinned. *)
Inductive cleared (sess : Session) (hist : list event) (dst : bytes) : Prop :=
  | cleared_intro rs connIn mitm host port proto :
      Ev (Lookup (ClientKey sess)) (Ok rs) ∈ hist ->
      admitted sess rs hist ->
      LookupConn rs connIn = (mitm, false, true) ->
      in_Port connIn = port ->
      host_of sess connIn host ->
      pinned rs hist host port proto dst ->
      cleared sess hist dst.

(** *** The request pipeline, observed *)

Definition answered (hist : list event) (oc : outcallContext) (co : CompiledOutcall)
    (action : Outcall.Action) (a : answer) : Prop :=
  (oc_Service oc = false /\ exists msg, a = Failed msg)
  \/ exists target, Ev (OutcallDo (co_CacheKey co) target (outcall_request oc co action)) a ∈ hist.

Inductive action_result (hist : list event) (oc : outcallContext) (hd : Header) (a : CompiledAction)
    : Header * Verdict -> Prop :=
  | result_add : ca_Name a = str "header.add" -> action_result hist oc hd a (HeaderAdd hd (ca_Params a))
  | result_set : ca_Name a = str "header.set" -> action_result hist oc hd a (HeaderSet hd (ca_Params a))
  | result_raise : ca_Name a = str "raise" -> action_result hist oc hd a (Raise hd (ca_Params a))
  | result_block : ca_Name a = str "block" -> action_result hist oc hd a (Block hd (ca_Params a))
  | result_webhook co ans :
      ca_Name a = str "webhook" -> ca_Outcall a = Some co -> answered hist oc co ActionWebhook ans ->
      action_result hist oc hd a
        (hd, match ans with
             | Allowed _ => pass
             | Denied message status => outcallDeniedVerdict message status
             | Failed _ => outcallFailVerdict co
             end)
  | result_fetch co ans :
      ca_Name a = str "header.fetch" -> ca_Outcall a = Some co -> answered hist oc co ActionHeaderFetch ans ->
      action_result hist oc hd a
        (match ans with
         | Allowed resp => applyFetched hd co resp
         | Denied message status => (hd, outcallDeniedVerdict message status)
         | Failed _ => (hd, outcallFailVerdict co)
         end)
  | result_unknown : ca_Name a ∉ validRequestActions -> action_result hist oc hd a (hd, pass).

(** The whole list ran and let the request pass, turning the headers [hd] into
    [hd']. *)
Inductive passed (hist : list event) (oc : outcallContext) : Header -> list CompiledAction -> Header -> Prop :=
  | passed_nil hd : passed hist oc hd [] hd
  | passed_cons hd a t hd1 v hd' :
      action_result hist oc hd a (hd1, v) -> ShortCircuit v = false ->
      passed hist oc hd1 t hd' -> passed hist oc hd (a :: t) hd'.

(** A request on its way upstream is vetted: it is a request of a connection
    input [connIn] whose authority is the connection's own, it matched [rule]
    under a rule set looked up for this client, and it carries the headers the
    rule's whole request pipeline left. *)
Inductive vetted (sess : Session) (hist : list event) (q' : HttpRequest) : Prop :=
  | vetted_intro rs connIn dst q rule hd :
      Ev (Lookup (ClientKey sess)) (Ok rs) ∈ hist ->
      authorityMatches (q_Host q) (in_Host connIn) (in_Port connIn) (in_Proto connIn) = true ->
      LookupRequest rs (msgInput connIn q) = Some rule ->
      passed hist (newOutcallContext h sess rs connIn dst q) (q_Header q) (cr_request rule) hd ->
      (q' = with_req_header q hd \/ q' = h2_form (with_req_header q hd)) ->
      vetted sess hist q'.

(** ** Histories grow *)

Lemma suffix_elem (ev : event) (h1 h2 : list event) : h1 `suffix_of` h2 -> ev ∈ h1 -> ev ∈ h2.
Proof. intros [k ->] H. apply elem_of_app. by right. Qed.

Lemma admitted_mono sess rs h1 h2 : h1 `suffix_of` h2 -> admitted sess rs h1 -> admitted sess rs h2.
Proof. intros Hs []; [by apply open_gate|by eapply by_credential|eapply by_broker; eauto using suffix_elem]. Qed.

Lemma pinned_mono rs h1 h2 host port proto dst :
  h1 `suffix_of` h2 -> pinned rs h1 host port proto dst -> pinned rs h2 host port proto dst.
Proof.
  intros Hs [n a l ips ? Hr ? ?]. econstructor; eauto. destruct Hr as [?|[? ?]]; [by left|right; eauto using suffix_elem].
Qed.

Lemma cleared_mono sess h1 h2 dst : h1 `suffix_of` h2 -> cleared sess h1 dst -> cleared sess h2 dst.
Proof. intros Hs []. econstructor; eauto using suffix_elem, admitted_mono, pinned_mono. Qed.

Lemma answered_mono h1 h2 oc co act a : h1 `suffix_of` h2 -> answered h1 oc co act a -> answered h2 oc co act a.
Proof. intros Hs [?|[t ?]]; [by left|right; eauto using suffix_elem]. Qed.

Lemma action_result_mono h1 h2 oc hd a r :
  h1 `suffix_of` h2 -> action_result h1 oc hd a r -> action_result h2 oc hd a r.
Proof. intros Hs []; eauto using action_result, answered_mono. Qed.

Lemma passed_mono h1 h2 oc hd l hd' : h1 `suffix_of` h2 -> passed h1 oc hd l hd' -> passed h2 oc hd l hd'.
Proof. intros Hs. induction 1; eauto using passed, action_result_mono. Qed.

Lemma vetted_mono sess h1 h2 q : h1 `suffix_of` h2 -> vetted sess h1 q -> vetted sess h2 q.
Proof. intros Hs []. econstructor; eauto using suffix_elem, passed_mono. Qed.

(** ** The guard *)

Definition permitted (sess : Session) : guard := fun hist X e =>
  (forall dst, dial_target e = Some dst -> cleared sess hist dst)
  /\ (forall q, sent_request e = Some q -> vetted sess hist q).

(** An effect that neither dials nor sends, and a guard that lets all of them pass. *)
Definition silent {X} (e : eff X) : Prop := dial_target e = None /\ sent_request e = None.

Class Tolerant (ok : guard) : Prop := { tolerates hist X (e : eff X) : silent e -> ok hist X e }.

#[global] Instance permitted_tolerant sess : Tolerant (permitted sess).
Proof. split. intros hist X e [Hd Hs]. split; [by rewrite Hd|by rewrite Hs]. Qed.

Lemma safe_last {X} ok hist (e : eff X) (Q : list event -> X -> Prop) :
  ok hist X e -> (forall x, Q (Ev e x :: hist) x) -> safe ok hist (perform e) Q.
Proof. by split. Qed.

Lemma safe_then {A B} ok hist (p : prog A) (f : A -> prog B) R :
  safe ok hist p (fun _ _ => True) -> (forall h' a, hist `suffix_of` h' -> safe ok h' (f a) R) ->
  safe ok hist (p ≫= f) R.
Proof. intros Hp Hf. eapply safe_bind; [apply safe_frame, Hp|]. intros h' a [_ Hs]. by apply Hf. Qed.

Lemma safe_post {A B} ok hist (p : prog A) (f : A -> prog B) Q R :
  safe ok hist p Q -> (forall h' a, hist `suffix_of` h' -> Q h' a -> safe ok h' (f a) R) ->
  safe ok hist (p ≫= f) R.
Proof. intros Hp Hf. eapply safe_bind; [apply safe_frame, Hp|]. intros h' a [HQ Hs]. by apply Hf. Qed.

End Safety.

(** Effects that neither dial nor send, results and case distinctions. *)
Ltac quiet :=
  repeat first
    [ exact I
    | match goal with
      | |- safe _ _ (Ret _) _ => apply safe_ret
      | |- safe _ _ Panic _ => exact I
      | |- safe _ _ (perform _ ≫= _) _ => apply safe_perform; [by apply tolerates|intros ?]
      | |- safe _ _ (perform _) _ => apply safe_last; [by apply tolerates|intros ?]
      | |- safe _ _ (Ret _ ≫= _) _ => cbn [mbind prog_bind pbind]
      | |- safe _ _ (match ?x with _ => _ end) _ => destruct x eqn:?
      | |- safe _ _ ((match ?x with _ => _ end) ≫= _) _ => destruct x eqn:?
      end ].

Section Quiet.
Context `{RE : RegexEngine} `{DG : Digests} `{UT : UnicodeTable} `{ID : Idna}.
Variable h : Http1Handler.
Variable sess : Session.
Context (ok : guard) `{!Tolerant ok}.

Lemma fail_safe hist url spec outcome : safe ok hist (fail url spec outcome) (fun _ _ => True).
Proof. unfold fail. quiet. Qed.

Lemma shortCircuited_safe hist url v : safe ok hist (shortCircuited url v) (fun _ _ => True).
Proof. unfold shortCircuited. quiet. Qed.

Lemma refuse_safe hist url spec outcome : safe ok hist (refuse url spec outcome) (fun _ _ => True).
Proof. unfold refuse. quiet. Qed.

Lemma refusePin_safe hist url e : safe ok hist (refusePin url e) (fun _ _ => True).
Proof. destruct e; apply refuse_safe. Qed.

Lemma dropPin_safe hist e : safe ok hist (dropPin e) (fun _ _ => True).
Proof. unfold dropPin. quiet. Qed.

Lemma readBoundedRequest_safe hist :
  safe ok hist readBoundedRequest
    (fun h' r => forall q, r = inr q -> Ev ReadRequest (inr q) ∈ h').
Proof. unfold readBoundedRequest. quiet; try done. intros q [= ->]. apply list_elem_of_here. Qed.

Lemma Fallback_safe hist sni url spec : safe ok hist (Fallback sni url spec) (fun _ _ => True).
Proof. unfold Fallback. quiet. Qed.

Lemma terminateFailed_safe hist sni url phase e :
  safe ok hist (terminateFailed sni url phase e) (fun _ _ => True).
Proof.
  unfold terminateFailed. destruct phase; quiet; (eapply safe_then; [apply Fallback_safe|]); intros; quiet.
Qed.

(** ** The gate, the pin and the pipeline *)

Lemma authenticateBroker_safe hist rs ca b credential :
  rs_auth rs = Some ca -> s_Transport sess = TransportExplicit -> cau_Broker ca = Some b ->
  safe ok hist
    (authenticateBroker h b (rs_uuid rs) (AddrString (ClientKey sess)) credential)
    (fun h' r => forall p, r = Some p -> admitted sess rs h').
Proof.
  intros Ha Ht Hb. unfold authenticateBroker. quiet; try done. intros pr Hpr.
  destruct x as [resp| |]; try done. case_bool_decide as E; [done|].
  eapply by_broker; [done..| |apply list_elem_of_here|done]. reflexivity.
Qed.

Lemma checkAuth_safe hist rs header url :
  safe ok hist (checkAuth h sess rs header url)
    (fun h' r => forall p, r = Some p -> admitted sess rs h').
Proof.
  unfold checkAuth. destruct (rs_auth rs) as [ca|] eqn:Ha; cycle 1.
  { apply safe_ret. intros _ _. apply open_gate. by rewrite Ha. }
  destruct (cau_Required ca) eqn:Hr; cbn [negb]; cycle 1.
  { apply safe_ret. intros _ _. apply open_gate. rewrite Ha. by intros ? [= <-]. }
  case_bool_decide as Ht; cbn [negb]; [|by quiet].
  eapply (safe_post _ _ _ _ (fun h' r => forall p, r = Some p -> admitted sess rs h')).
  - unfold authenticate. destruct (Authenticate ca _) as [[principal|]|] eqn:Hau; [| |exact I].
    + apply safe_ret. intros p _. by eapply by_credential.
    + destruct (cau_Broker ca) as [b|] eqn:Hb; [by eapply authenticateBroker_safe|by apply safe_ret].
  - intros h' [p|] Hs Hp; [apply safe_ret; intros ? _; by eapply Hp|by quiet].
Qed.

Lemma firstDenied_none rs addrs port proto :
  firstDenied rs addrs port proto = None ->
  Forall (fun a => fst (RuleSet_LookupEgress rs a port proto) = true) addrs.
Proof.
  induction addrs as [|a t IH]; cbn; [done|].
  destruct (fst (RuleSet_LookupEgress rs a port proto)) eqn:E; [|done]. intros H. apply Forall_cons. auto.
Qed.

Lemma resolveAndPin_safe hist rs host port proto :
  safe ok hist (resolveAndPin rs host port proto)
    (fun h' r => forall dst, r = inr dst -> pinned rs h' host port proto dst).
Proof.
  unfold resolveAndPin. destruct (ParseUint 16 port) as [n|] eqn:Hn; [|by quiet].
  eapply (safe_post _ _ _ _ (fun h' r => forall l, r = inr l ->
            (exists a, ParseAddr host = Ok a /\ l = [a])
            \/ exists ips, Ev (LookupIP host) (inr ips) ∈ h' /\ l = map Unmap ips)).
  - destruct (ParseAddr host) as [a|] eqn:Hp; [quiet; intros l Hl; left; exists a; by simplify_eq|].
    unfold dialerLookupIP. quiet. intros l Hl. destruct x as [|ips]; [done|]. simplify_eq.
    right. exists ips. split; [apply list_elem_of_here|done].
  - intros h' r Hs Hr. quiet; try done. subst. intros dst [= <-].
    destruct (Hr _ eq_refl) as [(a' & Ha & Heq)|(ips & Hin & Heq)].
    + simplify_eq. by eapply (pinned_intro _ _ _ _ _ _ _ _ _ []);
        [exact Hn|by left|by eapply firstDenied_none|].
    + by eapply (pinned_intro _ _ _ _ _ _ _ _ _ ips);
        [exact Hn|by right|by eapply firstDenied_none|].
Qed.

Lemma doOutcall_safe hist oc co act :
  safe ok hist (doOutcall oc co act) (fun h' a => answered h' oc co act a).
Proof.
  unfold doOutcall. destruct (oc_Service oc) eqn:E; cbn [negb]; quiet.
  - right. eexists. apply list_elem_of_here.
  - left. eauto.
Qed.

Lemma applyWebhook_safe hist oc co :
  safe ok hist (applyWebhook oc co) (fun h' v =>
    exists ans, answered h' oc co ActionWebhook ans /\
      v = match ans with
          | Allowed _ => pass
          | Denied message status => outcallDeniedVerdict message status
          | Failed _ => outcallFailVerdict co
          end).
Proof.
  unfold applyWebhook. eapply safe_post; [apply doOutcall_safe|].
  intros h' ans _ Hans. apply safe_ret. by exists ans.
Qed.

Lemma unknown_action (n : bytes) :
  n <> str "header.add" -> n <> str "header.set" -> n <> str "raise" -> n <> str "block" ->
  n <> str "webhook" -> n <> str "header.fetch" -> n ∉ validRequestActions.
Proof. intros. unfold validRequestActions. rewrite !not_elem_of_cons. split_and!; try done. apply not_elem_of_nil. Qed.

Lemma applyRequestAction_safe hist oc hd a :
  safe ok hist (applyRequestAction oc hd a) (fun h' hv => action_result h' oc hd a hv).
Proof.
  unfold applyRequestAction. do 4 (case_bool_decide; [by apply safe_ret; eauto using action_result|]).
  case_bool_decide.
  { destruct (ca_Outcall a) as [co|] eqn:Hco; [|exact I].
    eapply safe_post; [apply applyWebhook_safe|]. intros h' v _ (ans & Hans & ->).
    apply safe_ret. by eapply result_webhook. }
  case_bool_decide.
  { destruct (ca_Outcall a) as [co|] eqn:Hco; [|exact I].
    unfold applyHeaderFetch. eapply safe_post; [apply doOutcall_safe|]. intros h' ans _ Hans.
    apply safe_ret. by eapply result_fetch. }
  apply safe_ret, result_unknown. by apply unknown_action.
Qed.

Lemma applyRequestActions_safe hist oc hd actions :
  safe ok hist (applyRequestActions oc hd actions)
    (fun h' hv => ShortCircuit hv.2 = false -> passed h' oc hd actions hv.1).
Proof.
  revert hist hd. induction actions as [|a t IH]; intros hist hd; cbn [applyRequestActions].
  { apply safe_ret. intros _. constructor. }
  eapply safe_post; [apply applyRequestAction_safe|]. intros h' [hd1 v] _ Hr. cbn [fst snd].
  destruct (ShortCircuit v) eqn:Hv; [apply safe_ret; cbn; congruence|].
  eapply safe_weaken; [apply safe_frame, IH|]. intros h'' hv [Hp Hs] Hsc.
  eapply passed_cons; [by eapply action_result_mono|done|by apply Hp].
Qed.

End Quiet.

(** ** Dialling and sending *)

Section Sends.
Context `{RE : RegexEngine} `{DG : Digests} `{UT : UnicodeTable} `{ID : Idna}.
Variable h : Http1Handler.
Variable sess : Session.

(** An upstream that only ever connects to [dst]. *)
Definition bound_to (dst : bytes) (u : upstream) : Prop :=
  match u with
  | UpH1 NoRedial => True
  | UpH1 (RedialPlain d) | UpH1 (RedialTLS d _) | UpH2 d _ => d = dst
  end.

Lemma dial_permitted hist dst X (e : eff X) :
  cleared sess hist dst -> dial_target e = Some dst -> sent_request e = None -> permitted h sess hist X e.
Proof. intros Hc Hd Hs. split; intros ? E; [rewrite Hd in E; by simplify_eq|by rewrite Hs in E]. Qed.

Lemma send_permitted hist q X (e : eff X) :
  vetted h sess hist q -> sent_request e = Some q -> dial_target e = None -> permitted h sess hist X e.
Proof. intros Hv Hs Hd. split; intros ? E; [by rewrite Hd in E|rewrite Hs in E; by simplify_eq]. Qed.

Lemma cleared_cons ev hist dst : cleared sess hist dst -> cleared sess (ev :: hist) dst.
Proof. apply cleared_mono. by exists [ev]. Qed.

Lemma vetted_cons ev hist q : vetted h sess hist q -> vetted h sess (ev :: hist) q.
Proof. apply vetted_mono. by exists [ev]. Qed.

#[local] Hint Resolve cleared_cons vetted_cons : core.

(** [quiet], with dials to a cleared address and sends of a vetted request. *)
Ltac go dst q :=
  repeat first
    [ progress quiet
    | match goal with
      | |- safe _ _ (perform _ ≫= _) _ =>
          apply safe_perform;
          [first [eapply (dial_permitted _ dst); [by eauto|reflexivity|reflexivity]
                 |eapply (send_permitted _ q); [by eauto|reflexivity|reflexivity]]|intros ?]
      | |- safe _ _ (perform _) _ =>
          apply safe_last;
          [first [eapply (dial_permitted _ dst); [by eauto|reflexivity|reflexivity]
                 |eapply (send_permitted _ q); [by eauto|reflexivity|reflexivity]]|intros ?]
      end ].

Lemma redialUpstream_safe hist dst r :
  cleared sess hist dst -> bound_to dst (UpH1 r) ->
  safe (permitted h sess) hist (redialUpstream r) (fun _ _ => True).
Proof. intros Hc Hb. destruct r; cbn in Hb; subst; unfold redialUpstream; go dst dst. Qed.

Lemma h1RoundTrip_safe hist dst r q :
  cleared sess hist dst -> bound_to dst (UpH1 r) -> vetted h sess hist q ->
  safe (permitted h sess) hist (h1RoundTrip r q) (fun _ _ => True).
Proof.
  intros Hc Hb Hv. unfold h1RoundTrip. go dst q;
    (eapply safe_then; [by eapply redialUpstream_safe; eauto|]);
    intros h' d Hs; assert (vetted h sess h' q) by (eapply vetted_mono; [exact Hs|by eauto]); go dst q.
Qed.

Lemma h2Attempts_safe tries hist dst sni have e :
  cleared sess hist dst -> safe (permitted h sess) hist (h2Attempts tries dst sni have e) (fun _ _ => True).
Proof.
  revert hist have e. induction tries as [|n IH]; intros hist have e Hc; cbn [h2Attempts]; [by quiet|].
  go dst dst; apply IH; eauto.
Qed.

Lemma newH2_safe hist dst sni have :
  cleared sess hist dst -> safe (permitted h sess) hist (newUpstreamH2ClientConn h dst sni have) (fun _ _ => True).
Proof. intros Hc. unfold newUpstreamH2ClientConn. quiet. by apply h2Attempts_safe. Qed.

Lemma h2RoundTrip_safe hist dst sni q :
  cleared sess hist dst -> vetted h sess hist (h2_form q) ->
  safe (permitted h sess) hist (h2RoundTrip h dst sni q) (fun _ _ => True).
Proof.
  intros Hc Hv. unfold h2RoundTrip. apply safe_perform; [by split; intros ? [=]|intros can].
  eapply safe_then; [destruct can; [by quiet|by apply newH2_safe; eauto]|].
  intros h' d Hs. assert (vetted h sess h' (h2_form q)) by (eapply vetted_mono; [exact Hs|by eauto]).
  go dst (h2_form q).
Qed.

Lemma roundTrip_safe hist dst u q :
  cleared sess hist dst -> bound_to dst u -> vetted h sess hist q -> vetted h sess hist (h2_form q) ->
  safe (permitted h sess) hist (roundTrip h u q) (fun _ _ => True).
Proof.
  intros Hc Hb Hv Hv2. destruct u as [r|d sni]; cbn [roundTrip].
  - by eapply h1RoundTrip_safe.
  - cbn in Hb. subst. by apply h2RoundTrip_safe.
Qed.

Lemma upgradeUpstream_safe hist dst u q :
  cleared sess hist dst -> bound_to dst u ->
  safe (permitted h sess) hist (upgradeUpstream u q) (fun _ r => forall u', r = inr u' -> bound_to dst u').
Proof.
  intros Hc Hb. unfold upgradeUpstream. destruct u as [r|d sni]; [by quiet; intros ? [= <-]|].
  cbn in Hb. subst d. go dst dst; intros u'; [|by intros [= <-]]. by destruct x; intros [= <-].
Qed.

(** ** Requests *)

Lemma forwardRequest_safe hist dst u rule q :
  cleared sess hist dst -> bound_to dst u -> vetted h sess hist q -> vetted h sess hist (h2_form q) ->
  safe (permitted h sess) hist (forwardRequest h u rule q) (fun _ _ => True).
Proof.
  intros Hc Hb Hv Hv2. unfold forwardRequest. eapply safe_post; [by eapply upgradeUpstream_safe|].
  intros h' u' Hs Hu. destruct u' as [e|u']; [apply fail_safe, permitted_tolerant|].
  eapply safe_then.
  - eapply roundTrip_safe; [by eapply cleared_mono|by apply Hu|by eapply vetted_mono..].
  - intros h'' r Hs'. destruct r as [e|resp]; [apply fail_safe, permitted_tolerant|by quiet].
Qed.

(** The policy part shared by HTTP/1.1 requests and HTTP/2 streams. *)
Lemma pipeline_vets hist rs connIn dst q rule hd h' :
  Ev (Lookup (ClientKey sess)) (Ok rs) ∈ hist ->
  authorityMatches (q_Host q) (in_Host connIn) (in_Port connIn) (in_Proto connIn) = true ->
  LookupRequest rs (msgInput connIn q) = Some rule ->
  hist `suffix_of` h' ->
  passed h' (newOutcallContext h sess rs connIn dst q) (q_Header q) (cr_request rule) hd ->
  vetted h sess h' (with_req_header q hd) /\ vetted h sess h' (h2_form (with_req_header q hd)).
Proof. intros Hl Ha Hr Hs Hp. split; econstructor; eauto using suffix_elem. Qed.

Lemma handleOneRequest_safe hist u connIn dst q :
  cleared sess hist dst -> bound_to dst u ->
  safe (permitted h sess) hist (handleOneRequest h sess u connIn dst q) (fun _ _ => True).
Proof.
  intros Hc Hb. unfold handleOneRequest. destruct (authorityMatches _ _ _ _) eqn:Ha; cbn [negb]; [|apply fail_safe, permitted_tolerant].
  apply safe_perform; [by split; intros ? [=]|intros r]. destruct r as [rs|]; [|by quiet].
  destruct (LookupRequest rs _) as [rule|] eqn:Hr; [|apply fail_safe, permitted_tolerant].
  eapply safe_post; [apply applyRequestActions_safe, permitted_tolerant|]. intros h' [hd v] Hs Hp. cbn [fst snd] in *.
  destruct (ShortCircuit v); [apply shortCircuited_safe, permitted_tolerant|].
  destruct (pipeline_vets _ rs connIn dst q rule hd h' (list_elem_of_here _ _) Ha Hr Hs (Hp eq_refl)).
  eapply forwardRequest_safe; eauto using cleared_mono.
Qed.

Lemma relayIntercepted_safe fuel hist u connIn dst req :
  cleared sess hist dst -> bound_to dst u ->
  safe (permitted h sess) hist (relayIntercepted h fuel sess u connIn dst req) (fun _ _ => True).
Proof.
  revert hist req. induction fuel as [|n IH]; intros hist req Hc Hb; cbn [relayIntercepted]; [by quiet|].
  eapply safe_then.
  { destruct req; [by quiet|]. eapply safe_weaken; [apply readBoundedRequest_safe, permitted_tolerant|done]. }
  intros h' [e|q] Hs; [by quiet|]. eapply safe_then; [by eapply handleOneRequest_safe; eauto using cleared_mono|].
  intros h'' [] Hs'; [|by quiet]. eapply IH; eauto using cleared_mono.
Qed.

Lemma handleH2Stream_safe hist connIn dst sni q :
  cleared sess hist dst ->
  safe (permitted h sess) hist (handleH2Stream h sess connIn dst sni q) (fun _ _ => True).
Proof.
  intros Hc. unfold handleH2Stream. destruct (authorityMatches _ _ _ _) eqn:Ha; cbn [negb]; [|apply fail_safe, permitted_tolerant].
  apply safe_perform; [by split; intros ? [=]|intros r]. destruct r as [rs|]; [|by quiet].
  destruct (LookupRequest rs _) as [rule|] eqn:Hr; [|apply fail_safe, permitted_tolerant].
  eapply safe_post; [apply applyRequestActions_safe, permitted_tolerant|]. intros h' [hd v] Hs Hp. cbn [fst snd] in *.
  destruct (ShortCircuit v); [apply shortCircuited_safe, permitted_tolerant|].
  destruct (pipeline_vets _ rs connIn dst q rule hd h' (list_elem_of_here _ _) Ha Hr Hs (Hp eq_refl)).
  eapply safe_then; [apply h2RoundTrip_safe; eauto using cleared_mono|].
  intros h'' [e|resp] _; [apply fail_safe, permitted_tolerant|by quiet].
Qed.

Lemma serveStreams_safe fuel hist connIn dst sni :
  cleared sess hist dst ->
  safe (permitted h sess) hist (serveStreams h fuel sess connIn dst sni) (fun _ _ => True).
Proof.
  revert hist. induction fuel as [|n IH]; intros hist Hc; cbn [serveStreams]; [by quiet|].
  apply safe_perform; [by split; intros ? [=]|intros [e|q]]; [by quiet|].
  eapply safe_then; [apply handleH2Stream_safe; eauto|]. intros h' a Hs. eauto using cleared_mono.
Qed.

Lemma serveH2_safe fuel hist connIn dst sni :
  cleared sess hist dst ->
  safe (permitted h sess) hist (serveH2 h fuel sess connIn dst sni) (fun _ _ => True).
Proof.
  intros Hc. unfold serveH2. eapply safe_then; [by apply newH2_safe|].
  intros h' e Hs. quiet. eauto using serveStreams_safe, cleared_mono.
Qed.

(** ** Tunnels *)

Lemma Terminate_safe hist dst sni :
  cleared sess hist dst -> safe (permitted h sess) hist (Terminate dst sni) (fun _ _ => True).
Proof. intros Hc. unfold Terminate. go dst dst. Qed.

Lemma rawSplice_safe hist dst :
  cleared sess hist dst -> safe (permitted h sess) hist (rawSplice dst) (fun _ _ => True).
Proof. intros Hc. unfold rawSplice. go dst dst. Qed.

Lemma serveTunnel_safe fuel hist dst sni connIn mitm url :
  cleared sess hist dst ->
  safe (permitted h sess) hist (serveTunnel h fuel sess dst sni connIn mitm url) (fun _ _ => True).
Proof.
  intros Hc. unfold serveTunnel. destruct mitm; cbn [negb]; cycle 1.
  { quiet. apply rawSplice_safe. eauto. }
  eapply safe_then; [by apply Terminate_safe|]. intros h' t Hs.
  destruct t as [[phase e]|result]; [apply terminateFailed_safe, permitted_tolerant|].
  assert (Hc' : cleared sess h' dst) by eauto using cleared_mono.
  case_bool_decide; [by apply serveH2_safe|]. case_bool_decide.
  - eapply safe_then; [by apply newH2_safe|]. intros h'' e Hs'. quiet.
    apply relayIntercepted_safe; [by eapply cleared_mono|done].
  - by apply relayIntercepted_safe.
Qed.

(** The facts a handler has collected when it has pinned an address. *)
Lemma clears hist h1 h2 rs connIn mitm host port proto dst :
  Ev (Lookup (ClientKey sess)) (Ok rs) ∈ hist -> hist `suffix_of` h1 -> h1 `suffix_of` h2 ->
  admitted sess rs h1 -> LookupConn rs connIn = (mitm, false, true) -> in_Port connIn = port ->
  host_of sess connIn host ->
  pinned rs h2 host port proto dst -> cleared sess h2 dst.
Proof.
  intros Hl Hs1 Hs2 Ha Hm Hp Hh Hd. econstructor; eauto using admitted_mono.
  eapply suffix_elem; [|done]. by etransitivity.
Qed.

Lemma connectPinned_safe fuel hist host dst url connIn mitm :
  cleared sess hist dst ->
  safe (permitted h sess) hist (connectPinned h fuel sess host dst url connIn mitm) (fun _ _ => True).
Proof.
  intros Hc. unfold connectPinned. go dst dst; try apply refuse_safe, permitted_tolerant; try by apply serveTunnel_safe; eauto.
  eapply safe_then; [apply Fallback_safe, permitted_tolerant|]. intros h' f _. quiet.
Qed.

(** From the rule lookup to the connection's verdict. *)
Ltac policy :=
  apply safe_perform; [by split; intros ? [=]|intros [?|]]; [|by quiet];
  eapply safe_post; [apply checkAuth_safe, permitted_tolerant|]; intros ? [?|] ? ?; [|by quiet];
  match goal with H : forall _, Some _ = Some _ -> admitted _ _ _ |- _ => specialize (H _ eq_refl) end;
  match goal with |- context [LookupConn ?r ?i] => destruct (LookupConn r i) as [[mitm [|]] [|]] eqn:? end;
  cbn [negb]; [first [apply refuse_safe, permitted_tolerant|by quiet]..| |first [apply refuse_safe, permitted_tolerant|by quiet]].

(** From there to the pinned address, which the facts collected clear. *)
Ltac pin :=
  eapply safe_post; [apply resolveAndPin_safe, permitted_tolerant|]; intros ? [?|dst] ? ?;
  [first [apply refusePin_safe, permitted_tolerant|apply dropPin_safe, permitted_tolerant]|];
  match goal with H : forall _, inr ?d = inr _ -> pinned _ ?h2 _ _ _ _ |- _ =>
      specialize (H _ eq_refl);
      assert (cleared sess h2 d)
        by (eapply clears; [apply list_elem_of_here|eassumption..|reflexivity| |eassumption];
            first [by right|left; split; [reflexivity|eauto]])
  end.

Lemma serveConnect_safe fuel hist q :
  safe (permitted h sess) hist (serveConnect h fuel sess q) (fun _ _ => True).
Proof.
  unfold serveConnect. destruct (normalizeAuthority _ _) as [[[host port] dst0]|] eqn:?; [|apply refuse_safe, permitted_tolerant].
  policy. pin. by apply connectPinned_safe.
Qed.

Lemma serveAbsoluteForm_safe fuel hist q :
  safe (permitted h sess) hist (serveAbsoluteForm h fuel sess q) (fun _ _ => True).
Proof.
  unfold serveAbsoluteForm. destruct (EqualFold _ _); cbn [negb]; [|apply refuse_safe, permitted_tolerant].
  destruct (normalizeAuthority _ _) as [[[host port] dst0]|] eqn:?; [|apply refuse_safe, permitted_tolerant].
  policy. pin. go dst dst; [apply refuse_safe, permitted_tolerant|]. apply relayIntercepted_safe; [eauto|done].
Qed.

Lemma serveTransparentTLS_safe fuel hist hello :
  safe (permitted h sess) hist
    (serveTransparentTLS h fuel sess hello (AddrString (ap_Addr (s_Dst sess))) (Itoa (ap_Port (s_Dst sess))))
    (fun _ _ => True).
Proof. unfold serveTransparentTLS. policy. pin. by apply serveTunnel_safe. Qed.

Lemma serveTransparentOpaqueMITM_safe fuel hist :
  safe (permitted h sess) hist
    (serveTransparentOpaqueMITM h fuel sess (AddrString (ap_Addr (s_Dst sess))) (Itoa (ap_Port (s_Dst sess))))
    (fun _ _ => True).
Proof.
  unfold serveTransparentOpaqueMITM. apply safe_perform; [by split; intros ? [=]|intros [e|]]; [by quiet|].
  apply safe_perform; [by split; intros ? [=]|intros [e|q]]; [by quiet|].
  destruct (normalizeAuthority _ _) as [[[host port] dst0]|] eqn:?; [|by quiet].
  policy. pin. go dst dst. apply relayIntercepted_safe; [eauto|done].
Qed.

Lemma serveTransparent_safe fuel hist :
  safe (permitted h sess) hist (serveTransparent h fuel sess) (fun _ _ => True).
Proof.
  unfold serveTransparent. apply safe_perform; [by split; intros ? [=]|intros hello].
  destruct (ph_err hello) as [e|]; [|apply serveTransparentTLS_safe].
  case_bool_decide; [by quiet|]. unfold serveTransparentOpaque. policy.
  destruct mitm; [apply serveTransparentOpaqueMITM_safe|]. pin. by apply serveTunnel_safe.
Qed.

End Sends.

(** ** The claims *)

Section Claims.
Context `{RE : RegexEngine} `{DG : Digests} `{UT : UnicodeTable} `{ID : Idna}.

(** The session that answers for a connection: the accepted one, or the one
    with the client recovered from the headers of a request it sent. *)
Definition owner (h : Http1Handler) (sess : Session) (hist : list event) (sess' : Session) : Prop :=
  sess' = sess \/ exists q, Ev ReadRequest (inr q) ∈ hist /\ sess' = recoverSession h sess (q_Header q).

Definition owned (h : Http1Handler) (sess : Session) : guard := fun hist X e =>
  (forall dst, dial_target e = Some dst -> exists sess', owner h sess hist sess' /\ cleared sess' hist dst)
  /\ (forall q, sent_request e = Some q -> exists sess', owner h sess hist sess' /\ vetted h sess' hist q).

Lemma safe_guard {A} (ok ok' : guard) hist (p : prog A) Q :
  safe ok hist p Q ->
  (forall h' X (e : eff X), hist `suffix_of` h' -> ok h' X e -> ok' h' X e) -> safe ok' hist p Q.
Proof.
  revert hist. induction p as [a| |X e k IH]; intros hist Hp Hok; [done|done|].
  destruct Hp as [He Hk]. split; [by apply Hok|]. intros x. apply IH; [done|].
  intros h' Y e' Hs. apply Hok. etransitivity; [|exact Hs]. by exists [Ev e x].
Qed.

Lemma owned_by h sess hist sess' {A} (p : prog A) Q :
  owner h sess hist sess' -> safe (permitted h sess') hist p Q -> safe (owned h sess) hist p Q.
Proof.
  intros Ho Hp. eapply safe_guard; [exact Hp|]. intros h' X e Hs [Hd Hq].
  assert (Ho' : owner h sess h' sess').
  { destruct Ho as [->|(q & Hin & ->)]; [by left|right; eauto using suffix_elem]. }
  split; intros ? E; exists sess'; eauto.
Qed.

Lemma Serve_owned h fuel sess : safe (owned h sess) [] (Serve h fuel sess) (fun _ _ => True).
Proof.
  unfold Serve. case_bool_decide as Ht; cbn [negb].
  - eapply safe_post; [eapply owned_by; [by left|apply readBoundedRequest_safe, permitted_tolerant]|].
    intros h1 [e|q] _ Hq; [exact I|]. specialize (Hq q eq_refl).
    assert (Ho : owner h sess h1 (recoverSession h sess (q_Header q))) by (right; eauto).
    case_bool_decide; [by eapply owned_by, serveConnect_safe|].
    case_bool_decide; [by eapply owned_by, serveAbsoluteForm_safe|].
    destruct (_ && _); (eapply owned_by; [exact Ho|]); [by quiet|apply refuse_safe, permitted_tolerant].
  - eapply owned_by; [by left|]. apply serveTransparent_safe.
Qed.

Lemma all_ok_weaken (ok ok' : guard) hist :
  (forall h' X (e : eff X), ok h' X e -> ok' h' X e) -> all_ok ok hist -> all_ok ok' hist.
Proof. intros Hw. induction hist as [|[X e x] t IH]; [done|]. intros [He Ht]. split; auto. Qed.



End Claims.
