(* ===== verification/ProxyPolicy.v ===== *)
(** * Properties of the proxy's policy steps

    What a broker learns, what a header.fetch reply can change, what a refusal
    means for a request, how often a dial is tried, and the end-to-end form of
    the egress guard. *)

From S2P Require Import Prelude GoStrings Netip Json Encoding Schema Matcher Compile HostIndex Egress Auth RuleSet.
From S2P Require Import Headers HttpError Actions CacheControl Outcall ClientIP Authority Effects Proxy Http1.
From S2P Require Import DefaultRuleset Builtin ProxySafety.

Open Scope Z_scope.

(** ** What a broker learns *)

Lemma filterHeader_lookup h out n name v :
  assoc name (filterHeader h out n) = Some v <->
  (name = CanonicalMIMEHeaderKey n /\ (name ∉ alwaysMaskedHeaders) /\ assoc name h = Some v)
  \/ ((name <> CanonicalMIMEHeaderKey n \/ name ∈ alwaysMaskedHeaders \/ assoc name h = None)
      /\ assoc name out = Some v).
Proof.
  unfold filterHeader. case_bool_decide as Hm.
  { split; [|naive_solver]. intros ?. right. split; [|done].
    destruct (decide (name = CanonicalMIMEHeaderKey n)); subst; auto. }
  destruct (assoc (CanonicalMIMEHeaderKey n) h) as [w|] eqn:Hh.
  - rewrite assoc_assoc_set. case_bool_decide; naive_solver.
  - split; [|naive_solver]. intros ?. right. split; [|done].
    destruct (decide (name = CanonicalMIMEHeaderKey n)); subst; auto.
Qed.

Lemma filterHeaders_lookup h allow out name v :
  (forall w, assoc name out = Some w -> assoc name h = Some w) ->
  assoc name (foldl (filterHeader h) out allow) = Some v <->
  assoc name out = Some v
  \/ (name ∈ map CanonicalMIMEHeaderKey allow /\ (name ∉ alwaysMaskedHeaders) /\ assoc name h = Some v).
Proof.
  revert out. induction allow as [|n t IH]; intros out Hout; cbn [foldl map].
  { split; [by left|]. intros [?|[?%not_elem_of_nil _]]; done. }
  rewrite IH; cycle 1.
  { intros w Hw. apply filterHeader_lookup in Hw as [(_ & _ & ?)|[_ ?]]; auto. }
  rewrite filterHeader_lookup, elem_of_cons.
  destruct (decide (name = CanonicalMIMEHeaderKey n)) as [E|E];
    destruct (decide (name ∈ alwaysMaskedHeaders));
    destruct (assoc name h) eqn:Hh; naive_solver.
Qed.

(** C40: What an outcall discloses.  The headers of the envelope are exactly the
    request's own headers that the action's send list names, minus Authorization,
    Proxy-Authorization and Cookie, which no send list can name. *)
Theorem envelope_discloses_only_allowed oc co action http :
  rq_HTTP (outcall_request oc co action) = Some http ->
  forall name v,
    assoc name (hr_Headers http) = Some v <->
    name ∈ map CanonicalMIMEHeaderKey (co_Send co)
    /\ (name ∉ alwaysMaskedHeaders)
    /\ assoc name (oc_Headers oc) = Some v.
Proof.
  intros [= <-] name v. cbn [hr_Headers]. unfold filterHeaders.
  rewrite filterHeaders_lookup by done. cbn. naive_solver.
Qed.

Lemma envelope_discloses_only_allowed_witness :
  let oc := {| oc_Service := true; oc_UUID := []; oc_Client := []; oc_Dst := []; oc_Method := str "GET";
               oc_ReqURL := []; oc_Headers := [(str "Cookie", [str "s=1"]); (str "X-A", [str "1"])] |} in
  let co := {| co_Socket := []; co_Path := []; co_URL := str "https://b"; co_Send := [str "cookie"; str "x-a"];
               co_FailOpen := true; co_CacheKey := [] |} in
  assoc (str "X-A") (filterHeaders (oc_Headers oc) (co_Send co)) = Some [str "1"].
Proof.
  intros oc co.
  apply (envelope_discloses_only_allowed oc co ActionWebhook
           {| hr_Method := str "GET"; hr_URL := []; hr_Headers := filterHeaders (oc_Headers oc) (co_Send co) |}).
  - reflexivity.
  - split_and!; [by right; left|by apply (bool_decide_unpack _); vm_compute|reflexivity].
Defined.

(** ** What a header.fetch reply can change *)

Lemma fetch_header_other h kv name :
  CanonicalMIMEHeaderKey kv.1 <> name -> assoc name (fetch_header h kv) = assoc name h.
Proof.
  intros Hne. unfold fetch_header, Header_Del. rewrite CanonicalMIMEHeaderKey_idem.
  destruct (hv_Delete kv.2); autorewrite with headers; by case_bool_decide.
Qed.

Lemma fetched_other l h name :
  name ∉ map (fun kv => CanonicalMIMEHeaderKey kv.1) l ->
  assoc name (foldl fetch_header h l) = assoc name h.
Proof.
  revert h. induction l as [|kv t IH]; intros h; [done|]. cbn [map foldl].
  intros [Hne Ht]%not_elem_of_cons. by rewrite IH, fetch_header_other.
Qed.

(** A header.fetch reply is applied as a whole or not at all.  When it names
    a header of the denylist (in any spelling) no header of the request changes
    and the action counts as a broker failure; otherwise the action passes, the
    denylisted headers stay as they were, and so does every header the reply does
    not name. *)
Theorem fetched_headers_all_or_nothing h co resp http :
  rs_HTTP resp = Some http ->
  let names := map (fun kv => CanonicalMIMEHeaderKey kv.1) (hp_Headers http) in
  ((exists n, n ∈ names /\ n ∈ OutcallDenylist) ->
     applyFetched h co resp = (h, outcallFailVerdict co))
  /\ ((forall n, n ∈ names -> n ∉ OutcallDenylist) ->
      (applyFetched h co resp).2 = pass
      /\ (forall n, n ∈ OutcallDenylist -> assoc n (applyFetched h co resp).1 = assoc n h)
      /\ (forall n, n ∉ names -> assoc n (applyFetched h co resp).1 = assoc n h)).
Proof.
  intros Hh names. unfold applyFetched. rewrite Hh.
  destruct (existsb _ (hp_Headers http)) eqn:E.
  - split; [done|]. intros Hno. apply existsb_exists in E as (kv & Hin & Hd).
    apply bool_decide_eq_true in Hd. exfalso. apply (Hno (CanonicalMIMEHeaderKey kv.1)); [|done].
    unfold names. apply list_elem_of_In, in_map_iff. by exists kv.
  - split.
    { intros (n & Hn & Hd). unfold names in Hn. apply list_elem_of_In, in_map_iff in Hn as (kv & <- & Hin).
      rewrite <- not_true_iff_false in E. exfalso. apply E. apply existsb_exists. exists kv.
      split; [done|]. by apply bool_decide_eq_true. }
    intros Hno. split; [done|]. cbn [fst]. split; intros n Hn; apply fetched_other; [|done].
    intros Hin. by apply (Hno n).
Qed.

Lemma fetched_headers_all_or_nothing_witness :
  let co := {| co_Socket := []; co_Path := []; co_URL := str "https://b"; co_Send := []; co_FailOpen := false;
               co_CacheKey := [] |} in
  let resp := {| rs_HTTP := Some {| hp_Headers := [(str "x-a", {| hv_Delete := false; hv_Values := [str "1"] |});
                                                   (str "HOST", {| hv_Delete := true; hv_Values := [] |})] |};
                 rs_Message := []; rs_HTTPStatus := 0; rs_Principal := [] |} in
  applyFetched [(str "X-A", [str "0"])] co resp = ([(str "X-A", [str "0"])], respond OutcallFail).
Proof.
  intros co resp.
  apply (fetched_headers_all_or_nothing [(str "X-A", [str "0"])] co resp
           {| hp_Headers := [(str "x-a", {| hv_Delete := false; hv_Values := [str "1"] |});
                             (str "HOST", {| hv_Delete := true; hv_Values := [] |})] |}).
  - reflexivity.
  - exists (str "Host"). split; [by right; left|by left].
Defined.

(** ** Retries *)

Lemma retryLoop_spec {E T} tries i (lastErr : E) (attempt : nat -> E + T) :
  let r := retryLoop tries i lastErr attempt in
  (r.2 <= i + tries)%nat
  /\ match r.1 with
     | inr v => attempt (pred r.2) = inr v /\ (i < r.2)%nat
                /\ forall j, (i <= j < pred r.2)%nat -> exists e, attempt j = inl e
     | inl e => r.2 = (i + tries)%nat /\ (forall j, (i <= j < r.2)%nat -> exists e, attempt j = inl e)
                /\ (tries = O -> e = lastErr) /\ ((0 < tries)%nat -> attempt (pred r.2) = inl e)
     end.
Proof.
  revert i lastErr. induction tries as [|n IH]; intros i lastErr; cbn.
  { split_and!; [lia|lia|lia|done|lia]. }
  destruct (attempt i) as [e|v] eqn:Ha.
  - destruct (IH (S i) e) as [Hle Hr]. split; [lia|].
    destruct (retryLoop n (S i) e attempt) as [[e'|v] k]; cbn in *.
    + destruct Hr as (Hk & Hall & H0 & Hn). split_and!; [lia| |done|].
      * intros j Hj. destruct (decide (j = i)) as [->|]; [eauto|apply Hall; lia].
      * intros _. destruct n; [|apply Hn; lia]. rewrite H0 by done. by replace (pred k) with i by lia.
    + destruct Hr as (Hv & Hk & Hall). split_and!; [done|lia|].
      intros j Hj. destruct (decide (j = i)) as [->|]; [eauto|apply Hall; lia].
  - cbn. split_and!; [lia|done|lia|lia].
Qed.

(** A dial is tried at least once and at most [tries] times, stopping at the
    first success; a failure is reported only after [tries] failed attempts and is
    the last of them.  A number of tries below one makes no attempt and fails. *)
Theorem retries_bounded {E T} (misuse : E) tries (attempt : nat -> E + T) :
  let r := withRetries misuse tries attempt in
  (tries <= 0 -> r = (inl misuse, 0%nat))
  /\ (0 < tries ->
      1 <= Z.of_nat r.2 <= tries
      /\ (forall v, r.1 = inr v ->
            attempt (pred r.2) = inr v /\ forall j, (j < pred r.2)%nat -> exists e, attempt j = inl e)
      /\ (forall e, r.1 = inl e ->
            Z.of_nat r.2 = tries /\ attempt (pred r.2) = inl e
            /\ forall j, (j < r.2)%nat -> exists e, attempt j = inl e)).
Proof.
  cbv zeta. unfold withRetries. destruct (Z.leb_spec tries 0); [split; [done|lia]|]. split; [lia|]. intros _.
  pose proof (retryLoop_spec (Z.to_nat tries) 0 misuse attempt) as [Hle Hr]. cbv zeta in *.
  destruct (retryLoop (Z.to_nat tries) 0 misuse attempt) as [[e|v] k]; cbn [fst snd] in *.
  - destruct Hr as (Hk & Hall & _ & Hn).
    split_and!; [lia|lia|done|]. intros e' [= <-].
    split_and!; [lia|apply Hn; lia|intros j Hj; apply Hall; lia].
  - destruct Hr as (Hv & Hk & Hall). split_and!; [lia|lia| |done].
    intros v' [= <-]. split; [done|]. intros j Hj. apply Hall. lia.
Qed.

(** ** The built-in egress list, end to end *)

Section Ssrf.
Context `{RE : RegexEngine} `{DG : Digests} `{UT : UnicodeTable} `{ID : Idna}.

(** Outside loopback, RFC 1918, unique-local and link-local space, and not an
    IPv6 spelling of an IPv4 address. *)
Definition public (a : Addr) : Prop :=
  match a with
  | AddrZero => False
  | Addr4 v => private4 v = false
  | Addr6 v zone => zone = [] /\ private6 v = false /\ Is4In6 a = false
  end.

Lemma denyFirst_public a port proto :
  addr_wf a -> Is4In6 a = false -> (LookupEgress denyFirst_compiled a port proto).1 = true -> public a.
Proof.
  destruct a as [|v|v z]; intros Hwf Hm.
  - done.
  - rewrite denyFirst_lookup4 by apply Hwf. cbn. apply negb_true_iff.
  - rewrite denyFirst_lookup6 by apply Hwf. case_bool_decide; [|done]. cbn.
    intros ?%negb_true_iff. done.
Qed.

Lemma Unmap_wf a : addr_wf a -> addr_wf (Unmap a) /\ Is4In6 (Unmap a) = false.
Proof.
  intros Hwf. destruct (IsValid a) eqn:Hv; [|by destruct a].
  by destruct (Unmap_not_mapped a Hwf Hv) as (? & ? & _).
Qed.

Lemma normalizeAuthority_canonical authority dflt host port dst :
  normalizeAuthority authority dflt = Ok (host, port, dst) -> exists raw, canonicalHost raw = Ok host.
Proof.
  unfold normalizeAuthority. case_bool_decide; [done|]. intros Hn.
  apply result_bind_ok in Hn as ([h0 p0] & _ & Hn). revert Hn. case_bool_decide; [done|].
  destruct (Atoi p0); [|done]. destruct (_ || _); [done|]. intros Hn.
  apply result_bind_ok in Hn as (c & Hc & Hn). apply (inj Ok) in Hn. simplify_eq. exists h0.
  by destruct (canonicalHost h0); inversion Hc.
Qed.

Lemma owner_Dst h sess hist sess' : owner h sess hist sess' -> s_Dst sess' = s_Dst sess.
Proof. intros [->|(q & _ & ->)]; [done|]. unfold recoverSession. by destruct (_ && _). Qed.

(** The literal address of a checked host is a genuine one. *)
Lemma host_of_literal `{!IdnaSpec} sess connIn host a :
  addr_wf (ap_Addr (s_Dst sess)) -> Is4In6 (ap_Addr (s_Dst sess)) = false ->
  host_of sess connIn host -> ParseAddr host = Ok a -> addr_wf a /\ Is4In6 a = false.
Proof.
  intros Hwf Hm Hh Ha. split; [by apply ParseAddr_wf in Ha as [? _]|].
  destruct Hh as [[_ (au & df & d0 & Hn)]| ->].
  - apply normalizeAuthority_canonical in Hn as [raw Hc]. by eapply canonicalHost_unmapped.
  - destruct (IsValid (ap_Addr (s_Dst sess))) eqn:Hv.
    + rewrite ParseAddr_AddrString in Ha by done. by apply (inj Ok) in Ha as <-.
    + destruct (ap_Addr (s_Dst sess)); [vm_compute in Ha|..]; done.
Qed.

Lemma cleared_public `{!IdnaSpec} sess hist dst :
  addr_wf (ap_Addr (s_Dst sess)) -> Is4In6 (ap_Addr (s_Dst sess)) = false ->
  (forall client rs, Ev (Lookup client) (Ok rs) ∈ hist -> rs_egress rs = denyFirst_compiled) ->
  (forall name ips, Ev (LookupIP name) (inr ips) ∈ hist -> Forall addr_wf ips) ->
  cleared sess hist dst ->
  exists a port, dst = JoinHostPort (AddrString a) port /\ public a.
Proof.
  intros Hwf Hm Hrs Hips [rs connIn mitm host port proto Hl _ _ _ Hh [n a addrs ips _ Ha Hall ->]].
  exists a, port. split; [done|]. apply Forall_cons in Hall as [He _].
  unfold RuleSet_LookupEgress in He. rewrite (Hrs _ _ Hl) in He.
  assert (addr_wf a /\ Is4In6 a = false) as [Hw Hmap].
  { destruct Ha as [[Ha _]|[Hev Hmap]]; [by eapply host_of_literal|].
    apply Hips in Hev. destruct ips as [|ip ips]; [done|]. cbn in Hmap. simplify_eq.
    apply Forall_cons in Hev as [? _]. by apply Unmap_wf. }
  by eapply denyFirst_public.
Qed.

(** C5: No client whose rule set carries the built-in egress list makes the
    proxy connect to a private address, whatever name, literal, IPv4-mapped
    spelling or resolver answer the destination comes from: in every run, each
    address dialled is outside loopback, RFC 1918, unique-local and link-local
    space.  The hypotheses are that the intercepted destination and the
    resolver's addresses are addresses (the kernel's is unmapped when the
    connection is accepted). *)
Theorem private_space_never_dialled `{!IdnaSpec} h env fuel sess :
  addr_wf (ap_Addr (s_Dst sess)) -> Is4In6 (ap_Addr (s_Dst sess)) = false ->
  let trace := (exec env [] (Serve h fuel sess)).1 in
  (forall client rs, Ev (Lookup client) (Ok rs) ∈ trace -> rs_egress rs = denyFirst_compiled) ->
  (forall name ips, Ev (LookupIP name) (inr ips) ∈ trace -> Forall addr_wf ips) ->
  forall X (e : eff X) x dst, Ev e x ∈ trace -> dial_target e = Some dst ->
  exists a port, dst = JoinHostPort (AddrString a) port /\ public a.
Proof.
  intros Hwf Hm trace Hrs Hips X e x dst Hin Hd.
  pose proof (safe_exec (owned h sess) env (Serve h fuel sess) [] (fun _ _ => True) I (Serve_owned h fuel sess)) as [Hok _].
  fold trace in Hok. apply list_elem_of_split in Hin as (h2 & h1 & E). rewrite E in Hok.
  apply all_ok_split in Hok as [Hok _]. destruct (Hok dst Hd) as (sess' & Ho & Hc).
  assert (Hsub : forall ev, ev ∈ h1 -> ev ∈ trace) by (intros ev Hev; rewrite E, elem_of_app, elem_of_cons; auto).
  rewrite <- (owner_Dst _ _ _ _ Ho) in Hwf, Hm.
  apply (cleared_public sess' h1 dst); eauto.
Qed.

End Ssrf.
