(* ===== verification/ProxySamples.v ===== *)
(** * Proxy runs

    A scripted environment and concrete connections: the witnesses of the proxy's
    theorems, and behaviours that differ from what the code means to do. *)

From S2P Require Import Prelude GoStrings Netip Json Encoding Schema JsonRoundtrip JsonRules Matcher Compile.
From S2P Require Import HostIndex Egress Auth RuleSet Headers HttpError Actions CacheControl Outcall ClientIP.
From S2P Require Import Authority Effects Proxy Http1 ProxySafety DefaultRuleset Builtin ProxyPolicy.

Open Scope Z_scope.

Section Samples.
#[local] Existing Instance no_regex.
#[local] Existing Instance toy_digests.
#[local] Existing Instance ascii_table.
#[local] Existing Instance ldh_idna.
#[local] Existing Instance ldh_spec.

(** ** The script *)

Definition reads (hist : list event) : nat :=
  length (List.filter (fun ev => match ev with Ev ReadRequest _ => true | _ => false end) hist).

Definition ok_response : HttpResponse :=
  {| p_Proto := str "HTTP/1.1"; p_Status := 200; p_Header := []; p_Body := []; p_ContentLength := 0;
     p_TransferEncoding := []; p_Close := false |}.

(** Every lookup gives [rs], every name [ips]; the client sends [reqs] and
    closes; every dial, handshake and round trip succeeds; every broker refuses. *)
Definition scripted (rs : RuleSet) (ips : list Addr) (reqs : list HttpRequest) : environment :=
  fun X hist e =>
    match e in eff X return X with
    | Lookup _ => Ok rs
    | LookupIP _ => inr ips
    | OutcallDo _ _ _ => Denied [] 0
    | Dial _ => None
    | DialTLS _ _ _ => inr (str "http/1.1")
    | SendOnce _ => inr ok_response
    | H2CanTake => true
    | H2Setup => None
    | H2Send _ => inr ok_response
    | BoundHeader => None
    | ReadRequest => match nth_error reqs (reads hist) with Some q => inr q | None => inl plain_error end
    | PeekClientHello => {| ph_err := None; ph_ServerName := []; ph_Raw := [] |}
    | Page _ _ => None
    | Established => None
    | ServeCAPEM => tt
    | Respond _ => None
    | Splice => tt
    | Mint _ => None
    | MintFallback _ => None
    | Handshake _ => inr (str "http/1.1")
    | Log _ _ => tt
    end.

Fixpoint dialled (hist : list event) : list bytes :=
  match hist with
  | [] => []
  | Ev e _ :: t => (dialled t ++ match dial_target e with Some d => [d] | None => [] end)%list
  end.

Fixpoint sent (hist : list event) : list HttpRequest :=
  match hist with
  | [] => []
  | Ev e _ :: t => (sent t ++ match sent_request e with Some q => [q] | None => [] end)%list
  end.

(** ** A policy and its clients *)

Definition rules_of (rf : string) : RuleSet :=
  the emptyRuleSet (file ← Unmarshal_RuleFile (json rf); file_rules file).

(** Two deny rules before a rule for everything else, and the built-in egress list. *)
Definition guarded : RuleSet := Eval vm_compute in
  let rs := rules_of "{'uuid':'u','http':[{'match':{'host':'evil.example'},'connection':{'accept':false}},{'match':{'port':'25'},'connection':{'accept':false}},{'match':{'host':'*'},'mitm':false}]}" in
  newRuleSet (rs_rules rs) denyFirst_compiled (rs_uuid rs) (rs_auth rs).

Definition site : Addr := Addr4 (93 * 2 ^ 24 + 184 * 2 ^ 16 + 216 * 2 ^ 8 + 34).

Definition client_session : Session :=
  {| s_Client := {| ap_Addr := Addr4 (10 * 2 ^ 24 + 7); ap_Port := 40000 |};
     s_Dst := {| ap_Addr := AddrZero; ap_Port := 0 |}; s_Transport := TransportExplicit |}.

Definition plain_handler : Http1Handler :=
  {| h_Outcall := false; h_TrustedProxies := []; h_HTTP2ConnectTries := 3 |}.

Definition connect (authority : string) : HttpRequest :=
  {| q_Method := str "CONNECT"; q_Scheme := []; q_URLHost := str authority; q_Path := []; q_RequestURI := [];
     q_URLString := str authority; q_Host := str authority; q_Header := []; q_Close := false |}.

Definition get (url host : string) (header : Header) : HttpRequest :=
  {| q_Method := str "GET"; q_Scheme := str "http"; q_URLHost := str host; q_Path := str "/";
     q_RequestURI := str "/"; q_URLString := str url; q_Host := str host; q_Header := header; q_Close := false |}.

Definition run (rs : RuleSet) (reqs : list HttpRequest) : list event :=
  (exec (scripted rs [site] reqs) [] (Serve plain_handler 3 client_session)).1.

(** ** Witnesses *)

(** The lookups of a history have the scripted answers. *)
Definition as_scripted (rs : RuleSet) (ips : list Addr) (ev : event) : Prop :=
  match ev with
  | Ev e x =>
      match e in eff X return X -> Prop with
      | Lookup _ => fun r => r = Ok rs
      | LookupIP _ => fun r => r = inr ips
      | _ => fun _ => True
      end x
  end.

Lemma scripted_lookups rs ips reqs {A} (p : prog A) hist :
  Forall (as_scripted rs ips) hist -> Forall (as_scripted rs ips) (exec (scripted rs ips reqs) hist p).1.
Proof.
  revert hist. induction p as [a| |X e k IH]; intros hist Hh; [done|done|].
  cbn. apply IH. constructor; [|done]. by destruct e.
Qed.

Lemma private_space_never_dialled_witness :
  exists a port, str "93.184.216.34:443" = JoinHostPort (AddrString a) port /\ public a.
Proof.
  pose proof (scripted_lookups guarded [site] [connect "good.example:443"]
                (Serve plain_handler 3 client_session) [] (List.Forall_nil _)) as Hs.
  rewrite Forall_forall in Hs.
  refine (private_space_never_dialled plain_handler (scripted guarded [site] [connect "good.example:443"]) 3
           client_session I eq_refl _ _ _ (Dial (str "93.184.216.34:443")) None _ _ eq_refl).
  - intros client rs Hin. apply Hs in Hin. cbn in Hin. by apply (inj Ok) in Hin as ->.
  - intros name ips Hin. apply Hs in Hin. cbn in Hin. apply (inj inr) in Hin as ->. by repeat constructor.
  - apply list_elem_of_In. vm_compute. right. left. reflexivity.
Defined.

(** ** Spellings of an authority *)

(** Deny rules are evaded by respelling the authority.  With rules that deny
    the host evil.example and the port 25, "evil.example:443" and
    "good.example:25" are refused, while "evil.example..:443" and
    "good.example:025" are dialled: canonicalHost strips one trailing dot only,
    and the port is matched as the text the client sent. *)
Theorem respelled_authority_evades_deny :
  dialled (run guarded [connect "evil.example:443"]) = []
  /\ dialled (run guarded [connect "evil.example.:443"]) = []
  /\ dialled (run guarded [connect "good.example:25"]) = []
  /\ dialled (run guarded [connect "evil.example..:443"]) = [str "93.184.216.34:443"; str "93.184.216.34:443"]
  /\ dialled (run guarded [connect "good.example:025"]) = [str "93.184.216.34:025"; str "93.184.216.34:025"]
  /\ ParseUint 16 (str "025") = Ok 25.
Proof. vm_compute. split_and!; reflexivity. Qed.

(** ** Credentials on a kept connection *)

Definition with_credential : Header := [(str "Proxy-Authorization", [str "Basic dTpw"])].

(** Proxy credentials reach the upstream.  On a kept connection an explicit
    client repeats Proxy-Authorization on every absolute-form request; it is
    removed from the first only, and the second is sent upstream with it. *)
Theorem kept_connection_leaks_credential :
  map (fun q => assoc (str "Proxy-Authorization") (q_Header q))
      (sent (run guarded [get "http://good.example/" "good.example" with_credential;
                          get "http://good.example/" "good.example" with_credential]))
  = [None; Some [str "Basic dTpw"]].
Proof. vm_compute. reflexivity. Qed.

End Samples.
