(* ===== verification/Wire.v ===== *)
(** * The bytes of a connection

    internal/proxy/authority.go and peek.go: the buffered reader in front of a
    client connection, the bounded read of a header block, and the replay of
    bytes that were read too early.  A connection is the list of chunks its reads
    will deliver and the error it ends with; how the peer's bytes are cut into
    chunks is the network's choice. *)

From S2P Require Import Prelude GoStrings.

Open Scope Z_scope.

(** ** Connections and readers *)

Section Wire.
Context {E : Type}.

Record conn : Type := { c_chunks : list bytes; c_end : E }.

(** One [Read] into a buffer of [n] bytes. *)
Definition conn_Read (n : nat) (c : conn) : option (bytes * conn) :=
  match c_chunks c with
  | [] => None
  | b :: t =>
      if (length b <=? n)%nat then Some (b, {| c_chunks := t; c_end := c_end c |})
      else Some (take n b, {| c_chunks := drop n b :: t; c_end := c_end c |})
  end.

(** [prependConn.prepend] and [Replay]: the bytes are read before anything else. *)
Definition prepend (p : bytes) (c : conn) : conn :=
  if (0 <? length p)%nat then {| c_chunks := p :: c_chunks c; c_end := c_end c |} else c.

Definition Replay (c : conn) (prefix : bytes) : conn := prepend prefix c.

Definition bufioReadSize : nat := 4096.

(** A [bufio.Reader] over a connection: the bytes buffered, and the connection. *)
Record reader : Type := { r_buf : bytes; r_conn : conn }.

Definition pending_conn (c : conn) : bytes := concat (c_chunks c).
Definition pending (r : reader) : bytes := (r_buf r ++ pending_conn (r_conn r))%list.

Definition newline : ascii := "010"%char.

(** The first line of a buffer, with its newline, and the rest. *)
Fixpoint cut_line (s : bytes) : option (bytes * bytes) :=
  match s with
  | [] => None
  | c :: t =>
      if Ascii.eqb c newline then Some ([c], t)
      else match cut_line t with
           | Some (l, r) => Some (c :: l, r)
           | None => None
           end
  end.

(** How a [ReadSlice('\n')] ended. *)
Inductive slice_end : Type :=
  | SliceLine
  | SliceFull      (* bufio.ErrBufferFull *)
  | SliceErr (e : E).

Fixpoint ReadSlice (fuel : nat) (r : reader) : bytes * slice_end * reader :=
  match cut_line (r_buf r) with
  | Some (line, rest) => (line, SliceLine, {| r_buf := rest; r_conn := r_conn r |})
  | None =>
      if (bufioReadSize <=? length (r_buf r))%nat then
        (r_buf r, SliceFull, {| r_buf := []; r_conn := r_conn r |})
      else
        match conn_Read (bufioReadSize - length (r_buf r)) (r_conn r), fuel with
        | Some (b, c), S fuel => ReadSlice fuel {| r_buf := r_buf r ++ b; r_conn := c |}
        | _, _ => (r_buf r, SliceErr (c_end (r_conn r)), {| r_buf := []; r_conn := r_conn r |})
        end
  end.

(** ** [boundNextHeaderBlock] *)

Definition crlf2 : bytes := map ascii_of_nat [13; 10; 13; 10]%nat.
Definition lf2 : bytes := map ascii_of_nat [10; 10]%nat.

Definition terminated (s : bytes) : bool := HasSuffix crlf2 s || HasSuffix lf2 s.

Inductive bound_result : Type :=
  | BoundOk
  | TooLarge                (* errHeadersTooLarge *)
  | EmptyConnection (e : E) (* errEmptyConnection *)
  | ReadFailed (e : E).

(** The loop: the header read so far, and how the loop was left. *)
Fixpoint scanHeader (fuel : nat) (limit : Z) (header : bytes) (r : reader)
    : option (bytes * option E * reader) :=
  match fuel with
  | O => None
  | S fuel =>
      let '(fragment, e, r) := ReadSlice (length (pending r)) r in
      if limit <? Z.of_nat (length header + length fragment) then None
      else
        let header := (header ++ fragment)%list in
        if terminated header then Some (header, None, r)
        else match e with
             | SliceErr e => Some (header, Some e, r)
             | _ => scanHeader fuel limit header r
             end
  end.

(** The reader is given back except after [TooLarge], when the connection is
    abandoned with nothing replayed. *)
Definition boundNextHeaderBlock (limit : Z) (r : reader) : bound_result * option reader :=
  if limit <=? 0 then (TooLarge, None)
  else
    match scanHeader (S (length (pending r))) limit [] r with
    | None => (TooLarge, None)
    | Some (header, loopErr, r) =>
        let replay := (header ++ r_buf r)%list in
        let r' := if (0 <? length replay)%nat
                  then {| r_buf := []; r_conn := prepend replay (r_conn r) |} else r in
        (match loopErr with
         | None => BoundOk
         | Some e => if (length header =? 0)%nat then EmptyConnection e else ReadFailed e
         end, Some r')
    end.

(** ** Taking over a connection *)

(** Reading [n] bytes through the buffered reader, as parsing a header block does. *)
Fixpoint Discard (fuel : nat) (n : nat) (r : reader) : reader :=
  if (n <=? length (r_buf r))%nat then {| r_buf := drop n (r_buf r); r_conn := r_conn r |}
  else
    match conn_Read bufioReadSize (r_conn r), fuel with
    | Some (b, c), S fuel => Discard fuel (n - length (r_buf r)) {| r_buf := b; r_conn := c |}
    | _, _ => {| r_buf := []; r_conn := r_conn r |}
    end.

(** [drainBuffered]. *)
Definition drainBuffered (r : reader) : conn :=
  if (length (r_buf r) =? 0)%nat then r_conn r else Replay (r_conn r) (r_buf r).

(** [PeekClientHello]: the handshake's reads, of whatever sizes it asks for, are
    recorded; its writes go nowhere. *)
Fixpoint record_reads (sizes : list nat) (c : conn) (raw : bytes) : bytes * conn :=
  match sizes with
  | [] => (raw, c)
  | n :: sizes =>
      match conn_Read n c with
      | None => (raw, c)
      | Some (b, c) => record_reads sizes c (raw ++ b)
      end
  end.

(** The bytes a MITM tunnel sees: what is left behind the CONNECT header, peeked
    and replayed. *)
Definition connectTunnel (sizes : list nat) (header : nat) (r : reader) : conn :=
  let tunnel := drainBuffered (Discard (length (pending r)) header r) in
  let '(raw, tunnel) := record_reads sizes tunnel [] in
  Replay tunnel raw.

(** ** The reference *)

(** The length of the shortest prefix that ends a header block. *)
Definition header_end (s : bytes) : option nat :=
  find (fun k => terminated (take k s)) (seq 0 (S (length s))).

Definition bound_reference (limit : Z) (s : bytes) (e : E) : bound_result :=
  if limit <=? 0 then TooLarge
  else
    match header_end s with
    | Some k => if Z.of_nat k <=? limit then BoundOk else TooLarge
    | None =>
        if limit <? Z.of_nat (length s) then TooLarge
        else if (length s =? 0)%nat then EmptyConnection e else ReadFailed e
    end.

(** Reads deliver something. *)
Definition conn_wf (c : conn) : Prop := Forall (fun b => b <> []) (c_chunks c).

(** ** Reading *)

Lemma conn_Read_spec n c b c' :
  conn_wf c -> (0 < n)%nat -> conn_Read n c = Some (b, c') ->
  pending_conn c = (b ++ pending_conn c')%list /\ b <> [] /\ (length b <= n)%nat
  /\ c_end c' = c_end c /\ conn_wf c'.
Proof.
  unfold conn_Read, pending_conn. destruct c as [[|x t] e]; [done|]. cbn.
  intros [Hx Ht]%Forall_cons Hn. destruct (Nat.leb_spec (length x) n); intros [= <- <-]; cbn.
  - split_and!; auto.
  - rewrite app_assoc, take_drop. split_and!; auto.
    + destruct n; [lia|]. by destruct x.
    + rewrite length_take. lia.
    + constructor; [|done]. cbn. intros E0. apply (f_equal length) in E0. rewrite length_drop in E0. cbn in E0. lia.
Qed.

Lemma conn_Read_None n c : conn_Read n c = None -> pending_conn c = [].
Proof. unfold conn_Read, pending_conn. destruct (c_chunks c) as [|x t]; [done|]. by destruct (_ <=? _)%nat. Qed.

Lemma prepend_pending p c : pending_conn (prepend p c) = (p ++ pending_conn c)%list.
Proof. unfold prepend, pending_conn. destruct (Nat.ltb_spec 0 (length p)); [done|]. by destruct p; [|cbn in *; lia]. Qed.

Lemma prepend_wf p c : conn_wf c -> conn_wf (prepend p c).
Proof.
  unfold prepend, conn_wf. destruct (Nat.ltb_spec 0 (length p)); [|done]. intros ?. constructor; [|done].
  intros ->. cbn in *. lia.
Qed.

Lemma cut_line_spec s :
  match cut_line s with
  | Some (l, r) => s = (l ++ r)%list /\ exists l', l = (l' ++ [newline])%list /\ newline ∉ l'
  | None => newline ∉ s
  end.
Proof.
  induction s as [|c t IH]; cbn; [by intros ?%elem_of_nil|].
  destruct (Ascii.eqb_spec c newline) as [->|Hc].
  - split; [done|]. exists []. split; [done|]. by intros ?%elem_of_nil.
  - destruct (cut_line t) as [[l r]|].
    + destruct IH as (-> & l' & -> & Hl). split; [done|]. exists (c :: l'). split; [done|].
      intros [E0|?]%elem_of_cons; [by destruct Hc|done].
    + intros [E0|?]%elem_of_cons; [by destruct Hc|done].
Qed.

(** A slice is a piece of the stream: a line, or a piece without a newline. *)
Definition slice_ok (r : reader) (x : bytes * slice_end * reader) : Prop :=
  let '(fragment, e, r') := x in
  pending r = (fragment ++ pending r')%list /\ c_end (r_conn r') = c_end (r_conn r) /\ conn_wf (r_conn r')
  /\ match e with
     | SliceLine => exists l, fragment = (l ++ [newline])%list /\ newline ∉ l
     | SliceFull => (newline ∉ fragment) /\ fragment <> []
     | SliceErr e => (newline ∉ fragment) /\ pending r' = [] /\ r_buf r' = [] /\ e = c_end (r_conn r)
     end.

Lemma ReadSlice_spec fuel r :
  conn_wf (r_conn r) -> (length (pending_conn (r_conn r)) <= fuel)%nat -> slice_ok r (ReadSlice fuel r).
Proof.
  revert r. induction fuel as [|fuel IH]; intros [buf c] Hwf Hf; cbn [ReadSlice r_buf r_conn] in *;
    pose proof (cut_line_spec buf) as Hcut; destruct (cut_line buf) as [[l rest]|].
  1, 3: destruct Hcut as (-> & l' & -> & Hl); cbn; unfold pending; cbn; rewrite <- !app_assoc; eauto 10.
  all: destruct (Nat.leb_spec bufioReadSize (length buf)) as [Hfull|Hroom];
    [cbn; unfold pending; cbn; split_and!; auto; intros ->; cbn in Hfull; unfold bufioReadSize in Hfull; lia|].
  - destruct (conn_Read _ c) as [[b c']|] eqn:Hr.
    + apply conn_Read_spec in Hr as (Hp & Hb & _); [|done|lia]. rewrite Hp, length_app in Hf.
      destruct b; [done|cbn in Hf; lia].
    + apply conn_Read_None in Hr. cbn. unfold pending. cbn. rewrite Hr. split_and!; auto.
  - destruct (conn_Read _ c) as [[b c']|] eqn:Hr.
    + apply conn_Read_spec in Hr as (Hp & Hb & _ & He & Hwf'); [|done|lia].
      specialize (IH {| r_buf := buf ++ b; r_conn := c' |} Hwf').
      rewrite Hp, length_app in Hf. destruct b as [|x b]; [done|]. cbn in Hf, IH.
      specialize (IH ltac:(lia)). destruct (ReadSlice fuel _) as [[fr e] r'].
      unfold slice_ok in *. unfold pending in *. cbn in *. rewrite Hp. rewrite <- app_assoc in IH. cbn in IH.
      rewrite He in IH. done.
    + apply conn_Read_None in Hr. cbn. unfold pending. cbn. rewrite Hr. split_and!; auto.
Qed.

(** ** Header blocks *)

Lemma terminated_newline s : terminated s = true -> exists t, s = (t ++ [newline])%list.
Proof.
  unfold terminated. rewrite orb_true_iff, !HasSuffix_true. intros [[t ->]|[t ->]].
  - exists (t ++ take 3 crlf2)%list. by rewrite <- app_assoc.
  - exists (t ++ take 1 lf2)%list. by rewrite <- app_assoc.
Qed.

Lemma unterminated h p : p <> [] -> newline ∉ p -> terminated (h ++ p) = false.
Proof.
  intros Hp Hn. apply not_true_iff_false. intros [t Ht]%terminated_newline.
  destruct (exists_last Hp) as (p' & x & ->). rewrite app_assoc in Ht. apply app_inj_tail in Ht as [_ ->].
  apply Hn. apply elem_of_app. right. apply list_elem_of_singleton. done.
Qed.

(** No prefix of [s] up to length [n] ends a header block. *)
Definition open_until (n : nat) (s : bytes) : Prop := forall k, (k <= n)%nat -> terminated (take k s) = false.

Lemma find_seq (f : nat -> bool) a n :
  match find f (seq a n) with
  | Some k => (a <= k < a + n)%nat /\ f k = true /\ forall j, (a <= j < k)%nat -> f j = false
  | None => forall j, (a <= j < a + n)%nat -> f j = false
  end.
Proof.
  revert a. induction n as [|n IH]; intros a; cbn; [intros; lia|].
  destruct (f a) eqn:Ha; [split_and!; auto; lia|]. specialize (IH (S a)).
  destruct (find f (seq (S a) n)) as [k|].
  - destruct IH as (? & ? & Hj). split_and!; [lia|lia|done|]. intros j ?.
    destruct (decide (j = a)) as [->|]; [done|]. apply Hj. lia.
  - intros j ?. destruct (decide (j = a)) as [->|]; [done|]. apply IH. lia.
Qed.

Lemma header_end_closed n s : open_until n s -> terminated (take (S n) s) = true -> (S n <= length s)%nat ->
  header_end s = Some (S n).
Proof.
  intros Ho Ht Hn. unfold header_end. pose proof (find_seq (fun k => terminated (take k s)) 0 (S (length s))) as Hf.
  destruct (find _ _) as [k|].
  - destruct Hf as (_ & Hk & Hj). f_equal. destruct (Nat.lt_trichotomy k (S n)) as [?|[?|?]]; [|done|].
    + rewrite Ho in Hk by lia. done.
    + rewrite Hj in Ht by lia. done.
  - rewrite Hf in Ht by lia. done.
Qed.

Lemma header_end_open s : open_until (length s) s -> header_end s = None.
Proof.
  intros Ho. unfold header_end. pose proof (find_seq (fun k => terminated (take k s)) 0 (S (length s))) as Hf.
  destruct (find _ _) as [k|]; [|done]. destruct Hf as (? & Hk & _). rewrite Ho in Hk by lia. done.
Qed.

Lemma header_end_after n s k : open_until n s -> header_end s = Some k -> (n < k)%nat.
Proof.
  intros Ho. unfold header_end. pose proof (find_seq (fun k => terminated (take k s)) 0 (S (length s))) as Hf.
  destruct (find _ _) as [k'|]; [|done]. intros [= ->]. destruct Hf as (_ & Hk & _).
  destruct (decide (n < k)%nat); [done|]. rewrite Ho in Hk by lia. done.
Qed.

(** Reading on over a piece without a newline. *)
Lemma open_piece h p rest : open_until (length h) (h ++ p ++ rest) -> newline ∉ p ->
  open_until (length (h ++ p)) (h ++ p ++ rest).
Proof.
  intros Ho Hp k Hk. destruct (decide (k <= length h)%nat); [by apply Ho|]. rewrite length_app in Hk.
  replace k with (length h + (k - length h))%nat by lia.
  rewrite take_app_add. rewrite take_app_le by lia. apply unterminated.
  - intros E0. apply (f_equal length) in E0. rewrite length_take in E0. cbn in E0. lia.
  - intros Hin. apply Hp. eapply elem_of_submseteq; [exact Hin|]. apply sublist_submseteq, sublist_take.
Qed.

(** Within a slice only its end can end the block. *)
Lemma open_slice h fr rest e r' r : open_until (length h) (h ++ fr ++ rest) ->
  slice_ok r (fr, e, r') -> forall k, (k < length (h ++ fr))%nat -> terminated (take k (h ++ fr ++ rest)) = false.
Proof.
  intros Ho (_ & _ & _ & He) k Hk.
  assert ((newline ∉ fr) \/ exists l, fr = (l ++ [newline])%list /\ newline ∉ l) as [Hn|(l & -> & Hl)]
    by (destruct e; naive_solver).
  - apply (open_piece h fr rest); [done|done|lia].
  - rewrite <- (app_assoc l) in *. apply (open_piece h l ([newline] ++ rest)); [done|done|].
    rewrite !length_app in *. cbn in *. lia.
Qed.

Lemma header_end_long limit n s : (forall k, (k < n)%nat -> terminated (take k s) = false) ->
  (n <= length s)%nat -> limit < Z.of_nat n ->
  match header_end s with Some k => limit < Z.of_nat k | None => limit < Z.of_nat (length s) end.
Proof.
  intros Ho Hn Hlt. destruct (header_end s) as [k|] eqn:Hk; [|lia].
  destruct n; [lia|]. apply (header_end_after n) in Hk; [lia|]. intros j Hj. apply Ho. lia.
Qed.

(** The loop of [boundNextHeaderBlock] finds the end of the block the reference
    finds, and keeps every byte. *)
Lemma scanHeader_spec fuel limit header r :
  conn_wf (r_conn r) -> (length (pending r) < fuel)%nat ->
  let s := (header ++ pending r)%list in
  open_until (length header) s -> Z.of_nat (length header) <= limit ->
  match scanHeader fuel limit header r with
  | None => match header_end s with Some k => limit < Z.of_nat k | None => limit < Z.of_nat (length s) end
  | Some (h, None, r') => header_end s = Some (length h) /\ Z.of_nat (length h) <= limit
                          /\ s = (h ++ pending r')%list /\ conn_wf (r_conn r')
  | Some (h, Some e, r') => header_end s = None /\ h = s /\ Z.of_nat (length s) <= limit
                            /\ pending r' = [] /\ e = c_end (r_conn r) /\ conn_wf (r_conn r')
  end.
Proof.
  revert header r. induction fuel as [|fuel IH]; [lia|]. intros header r Hwf Hf s Ho Hl. cbn [scanHeader].
  pose proof (ReadSlice_spec (length (pending r)) r Hwf) as Hs. specialize (Hs ltac:(unfold pending; rewrite length_app; lia)).
  destruct (ReadSlice _ r) as [[fr e] r'] eqn:Hrs. destruct Hs as (Hp & He & Hwf' & Hend).
  assert (Hsplit : s = (header ++ fr ++ pending r')%list) by (unfold s; by rewrite Hp).
  assert (Hopen : forall k, (k < length (header ++ fr))%nat -> terminated (take k s) = false).
  { rewrite Hsplit in *. by eapply open_slice. }
  assert (Hlen : length s = (length (header ++ fr) + length (pending r'))%nat)
    by (rewrite Hsplit, !length_app; lia).
  rewrite <- length_app. destruct (Z.ltb_spec limit (Z.of_nat (length (header ++ fr)))) as [Hlt|Hge].
  { eapply header_end_long; [exact Hopen|lia|done]. }
  assert (Htake : take (length (header ++ fr)) s = (header ++ fr)%list) by (by rewrite Hsplit, app_assoc, take_app_length).
  destruct (terminated (header ++ fr)) eqn:Ht.
  { split_and!; [|lia|by rewrite <- app_assoc|done].
    destruct (length (header ++ fr)) as [|n] eqn:Hn.
    - destruct (header ++ fr)%list; [vm_compute in Ht|]; done.
    - apply header_end_closed; [intros k Hk; apply Hopen; lia|by rewrite Htake|lia]. }
  assert (Ho' : open_until (length (header ++ fr)) s).
  { intros k Hk. destruct (decide (k = length (header ++ fr))) as [->|]; [by rewrite Htake|]. apply Hopen. lia. }
  assert (Hrec : fr <> [] -> match scanHeader fuel limit (header ++ fr) r' with
    | None => match header_end s with Some k => limit < Z.of_nat k | None => limit < Z.of_nat (length s) end
    | Some (h, None, r') => header_end s = Some (length h) /\ Z.of_nat (length h) <= limit
                            /\ s = (h ++ pending r')%list /\ conn_wf (r_conn r')
    | Some (h, Some e, r') => header_end s = None /\ h = s /\ Z.of_nat (length s) <= limit
                              /\ pending r' = [] /\ e = c_end (r_conn r) /\ conn_wf (r_conn r')
    end).
  { intros Hfr. specialize (IH (header ++ fr)%list r' Hwf'). rewrite <- app_assoc, <- Hsplit, He in IH.
    apply IH; [|done|lia]. rewrite Hp, length_app in Hf. destruct fr; [done|cbn in Hf; lia]. }
  destruct e as [| |e].
  - destruct Hend as (l & -> & _). apply Hrec. by destruct l.
  - apply Hrec, Hend.
  - destruct Hend as (_ & Hr' & _ & ->). rewrite Hr' in Hlen, Hsplit. rewrite app_nil_r in Hsplit. cbn in Hlen.
    rewrite Nat.add_0_r in Hlen. split_and!; auto; [apply header_end_open; by rewrite Hlen|lia].
Qed.

(** What a bounded read gives back. *)
Lemma bound_keeps limit r r' :
  conn_wf (r_conn r) -> (boundNextHeaderBlock limit r).2 = Some r' -> pending r' = pending r /\ conn_wf (r_conn r').
Proof.
  intros Hwf. unfold boundNextHeaderBlock. destruct (Z.leb_spec limit 0); [done|].
  pose proof (scanHeader_spec (S (length (pending r))) limit [] r Hwf ltac:(lia)) as Hs. cbn [app length] in Hs.
  specialize (Hs ltac:(intros [|k] Hk; [done|lia]) ltac:(lia)).
  destruct (scanHeader _ _ _ _) as [[[h [e|]] r1]|]; [| |done]; cbn [snd]; intros E0; apply (inj Some) in E0 as <-.
  - destruct Hs as (_ & -> & _ & Hp & _ & Hwf').
    unfold pending in Hp. apply app_eq_nil in Hp as [Hb Hc].
    destruct (Nat.ltb_spec 0 (length (pending r ++ r_buf r1))) as [?|Hz].
    + unfold pending at 1. cbn [r_buf r_conn]. rewrite prepend_pending, Hb, Hc, !app_nil_r. cbn.
      split; [done|by apply prepend_wf].
    + rewrite Hb, app_nil_r in Hz. destruct (pending r); [|cbn in Hz; lia].
      split; [unfold pending; by rewrite Hb, Hc|done].
  - destruct Hs as (_ & _ & Hp & Hwf'). destruct (Nat.ltb_spec 0 (length (h ++ r_buf r1))) as [?|Hz].
    + unfold pending at 1. cbn [r_buf r_conn]. rewrite prepend_pending. cbn. split; [|by apply prepend_wf].
      rewrite Hp. unfold pending. by rewrite app_assoc.
    + destruct h; [|cbn in Hz; lia]. by rewrite Hp.
Qed.

Lemma bound_agrees limit r :
  conn_wf (r_conn r) -> (boundNextHeaderBlock limit r).1 = bound_reference limit (pending r) (c_end (r_conn r)).
Proof.
  intros Hwf. unfold boundNextHeaderBlock, bound_reference. destruct (Z.leb_spec limit 0); [done|].
  pose proof (scanHeader_spec (S (length (pending r))) limit [] r Hwf ltac:(lia)) as Hs. cbn [app length] in Hs.
  specialize (Hs ltac:(intros [|k] Hk; [done|lia]) ltac:(lia)).
  destruct (scanHeader _ _ _ _) as [[[h [e|]] r1]|]; cbn [fst].
  - destruct Hs as (-> & -> & Hl & _ & -> & _). by destruct (Z.ltb_spec limit (Z.of_nat (length (pending r)))); [lia|].
  - destruct Hs as (-> & Hl & _). by destruct (Z.leb_spec (Z.of_nat (length h)) limit); [|lia].
  - destruct (header_end (pending r)).
    + by destruct (Z.leb_spec (Z.of_nat n) limit); [lia|].
    + by destruct (Z.ltb_spec limit (Z.of_nat (length (pending r)))); [|lia].
Qed.

Lemma conn_Read_pending n c b c' : conn_Read n c = Some (b, c') -> pending_conn c = (b ++ pending_conn c')%list.
Proof.
  unfold conn_Read, pending_conn. destruct c as [[|x t] e]; [done|]. cbn.
  destruct (_ <=? _)%nat; intros [= <- <-]; cbn; [done|]. by rewrite app_assoc, take_drop.
Qed.

Lemma record_reads_pending sizes c raw :
  ((record_reads sizes c raw).1 ++ pending_conn (record_reads sizes c raw).2)%list = (raw ++ pending_conn c)%list.
Proof.
  revert c raw. induction sizes as [|n t IH]; intros c raw; cbn; [done|].
  destruct (conn_Read n c) as [[b c']|] eqn:Hr; [|done]. rewrite IH. apply conn_Read_pending in Hr as ->.
  by rewrite app_assoc.
Qed.

Lemma Discard_pending fuel n r :
  conn_wf (r_conn r) -> (length (pending_conn (r_conn r)) <= fuel)%nat -> (n <= length (pending r))%nat ->
  pending (Discard fuel n r) = drop n (pending r).
Proof.
  revert n r. induction fuel as [|fuel IH]; intros n [buf c] Hwf Hf Hn; cbn [Discard r_buf r_conn] in *;
    (destruct (Nat.leb_spec n (length buf)) as [Hle|Hgt];
      [unfold pending; cbn; by rewrite drop_app_le|]);
    (destruct (conn_Read _ c) as [[b c']|] eqn:Hr;
      [|apply conn_Read_None in Hr; unfold pending in Hn; cbn in Hn; rewrite Hr, app_nil_r in Hn; lia]);
    (apply conn_Read_spec in Hr as (Hp & Hb & _ & _ & Hwf'); [|done|unfold bufioReadSize; lia]);
    rewrite Hp, length_app in Hf; (destruct b as [|x b]; [done|]); cbn in Hf; [lia|].
  unfold pending in Hn. cbn in Hn. rewrite length_app, Hp, length_app in Hn. cbn in Hn.
  rewrite IH; [|done|cbn; lia|unfold pending; cbn; rewrite length_app; lia].
  unfold pending. cbn [r_buf r_conn]. rewrite Hp. rewrite (drop_app_ge buf) by lia. done.
Qed.

Lemma drainBuffered_pending r : pending_conn (drainBuffered r) = pending r.
Proof.
  unfold drainBuffered, Replay, pending. destruct (Nat.eqb_spec (length (r_buf r)) 0) as [Hz|].
  - by destruct (r_buf r).
  - by rewrite prepend_pending.
Qed.

(** C31: The bounded read of a header block is independent of how the network cut
    the bytes: whatever the chunks, it accepts exactly when the shortest prefix
    ending in a blank line fits the limit, reports a block too large, a connection
    that sent nothing, or the read error otherwise; and unless the block was too
    large every byte received is still to be read afterwards. *)
Theorem header_block_chunking_invisible limit r :
  conn_wf (r_conn r) ->
  let '(result, given_back) := boundNextHeaderBlock limit r in
  result = bound_reference limit (pending r) (c_end (r_conn r))
  /\ match given_back with
     | Some r' => pending r' = pending r
     | None => result = TooLarge
     end.
Proof.
  intros Hwf. pose proof (bound_agrees limit r Hwf) as Ha. pose proof (bound_keeps limit r) as Hk.
  destruct (boundNextHeaderBlock limit r) as [res [r'|]] eqn:Hb; cbn [fst snd] in *.
  - split; [done|]. by apply Hk.
  - split; [done|]. unfold boundNextHeaderBlock in Hb. destruct (limit <=? 0); [congruence|].
    destruct (scanHeader _ _ _ _) as [[[? ?] ?]|]; congruence.
Qed.

(** C33: No byte is lost or repeated between a CONNECT request and the tunnel
    behind it.  After the header block was read within its limit and parsed, the
    connection handed to the TLS handshake or splice delivers exactly the bytes
    that follow the block: the ones already buffered, the ones read while peeking
    the ClientHello (whatever read sizes the handshake used), and the rest. *)
Theorem tunnel_continues_stream limit r r' sizes :
  conn_wf (r_conn r) -> boundNextHeaderBlock limit r = (BoundOk, Some r') ->
  exists k, header_end (pending r) = Some k
  /\ pending_conn (connectTunnel sizes k r') = drop k (pending r).
Proof.
  intros Hwf Hb. pose proof (bound_agrees limit r Hwf) as Ha. pose proof (bound_keeps limit r r' Hwf) as Hk.
  rewrite Hb in Ha, Hk. destruct (Hk eq_refl) as [Hp Hwf']. clear Hk. cbn in Ha. unfold bound_reference in Ha.
  destruct (limit <=? 0); [done|]. destruct (header_end (pending r)) as [k|] eqn:He;
    [|destruct (limit <? _); [done|]; by destruct (_ =? _)%nat].
  exists k. split; [done|]. unfold connectTunnel.
  pose proof (record_reads_pending sizes (drainBuffered (Discard (length (pending r')) k r')) []) as Hrec.
  destruct (record_reads _ _ _) as [raw c]. unfold Replay. rewrite prepend_pending. cbn [fst snd app] in Hrec.
  rewrite Hrec, drainBuffered_pending, Discard_pending, Hp; [done|done|unfold pending; rewrite length_app; lia|].
  unfold header_end in He. pose proof (find_seq (fun k => terminated (take k (pending r))) 0 (S (length (pending r)))) as Hf.
  rewrite He in Hf. destruct Hf as [Hr _]. rewrite Hp. lia.
Qed.

End Wire.

Definition split_request : reader :=
  {| r_buf := []; r_conn := {| c_chunks := [str "CONNECT a:443 HTTP/1.1"; (crlf2 ++ str "hel")%list; str "lo"]; c_end := tt |} |}.

Lemma split_request_wf : conn_wf (r_conn split_request).
Proof. by repeat constructor. Qed.

Lemma header_block_chunking_invisible_witness :
  let '(result, given_back) := boundNextHeaderBlock 64 split_request in
  result = bound_reference 64 (pending split_request) tt
  /\ match given_back with
     | Some r' => pending r' = pending split_request
     | None => result = TooLarge
     end.
Proof. apply (header_block_chunking_invisible 64 split_request). apply split_request_wf. Defined.

Lemma tunnel_continues_stream_witness :
  exists (r' : @reader unit) k, header_end (pending split_request) = Some k
  /\ pending_conn (connectTunnel [2; 0; 7]%nat k r') = drop k (pending split_request).
Proof.
  eexists. apply (tunnel_continues_stream 64 split_request _ [2; 0; 7]%nat split_request_wf).
  vm_compute. reflexivity.
Defined.
