(* ===== verification/Peek.v ===== *)
(** * Peeking at a ClientHello (internal/proxy/peek.go)

    [PeekClientHello] drives a throwaway handshake over a connection that records what is read and
    drops what is written.  The handshake is that of crypto/tls: here a program that reads, writes
    and calls [GetConfigForClient], of which only the documented behaviour is assumed. *)

From S2P Require Import Prelude GoStrings Wire.

Open Scope nat_scope.

(** What [GetConfigForClient] is told. *)
Record ClientHelloInfo : Type := { chi_ServerName : bytes; chi_SupportedProtos : list bytes }.

Record PeekedHello : Type := { hello_ServerName : bytes; hello_ALPN : list bytes; hello_Raw : bytes }.

Section Peek.
Context {E : Type}.

(** [errPeekAbort], the error a read ended with, or one of the handshake's own. *)
Inductive tls_error : Type :=
  | errPeekAbort
  | ReadError (e : E)
  | HandshakeError (msg : string).

(** A server handshake up to its end. *)
Inductive handshake : Type :=
  | HRead (n : nat) (k : E + bytes -> handshake)
  | HWrite (p : bytes) (k : nat -> handshake)
  | HGetConfigForClient (info : ClientHelloInfo) (k : tls_error -> handshake)
  | HReturn (err : option tls_error).

(** ** The recording connection *)

Record recordingConn : Type := { rec_Conn : @conn E; rec_buf : bytes }.

Definition recording_Read (n : nat) (c : recordingConn) : (E + bytes) * recordingConn :=
  match conn_Read n (rec_Conn c) with
  | None => (inl (c_end (rec_Conn c)), c)
  | Some (b, conn) => (inr b, {| rec_Conn := conn; rec_buf := rec_buf c ++ b |})
  end.

Definition recording_Write (p : bytes) (c : recordingConn) : nat * recordingConn := (length p, c).

(** ** The peek *)

(** The callback: it notes the name and the protocols, and always fails. *)
Definition capture (info : ClientHelloInfo) (hello : PeekedHello) : PeekedHello * tls_error :=
  ({| hello_ServerName := chi_ServerName info; hello_ALPN := chi_SupportedProtos info; hello_Raw := hello_Raw hello |}, errPeekAbort).

Fixpoint Handshake (p : handshake) (rec : recordingConn) (hello : PeekedHello) : option tls_error * recordingConn * PeekedHello :=
  match p with
  | HRead n k => let '(x, rec) := recording_Read n rec in Handshake (k x) rec hello
  | HWrite d k => let '(n, rec) := recording_Write d rec in Handshake (k n) rec hello
  | HGetConfigForClient info k => let '(hello, err) := capture info hello in Handshake (k err) rec hello
  | HReturn err => (err, rec, hello)
  end.

Inductive peek_error : Type :=
  | UnexpectedSuccess
  | PeekFailed (e : tls_error).

Definition PeekClientHello (tls : handshake) (c : @conn E) : PeekedHello * option peek_error * @conn E :=
  let rec := {| rec_Conn := c; rec_buf := [] |} in
  let hello := {| hello_ServerName := []; hello_ALPN := []; hello_Raw := [] |} in
  let '(err, rec, hello) := Handshake tls rec hello in
  let hello := {| hello_ServerName := hello_ServerName hello; hello_ALPN := hello_ALPN hello; hello_Raw := rec_buf rec |} in
  (hello, match err with
          | Some errPeekAbort => None
          | None => Some UnexpectedSuccess
          | Some e => Some (PeekFailed e)
          end, rec_Conn rec).

(** ** What is assumed of the handshake *)

(** After the callback failed the handshake may still send an alert, and then returns that error. *)
Fixpoint gives_up (p : handshake) : Prop :=
  match p with
  | HWrite _ k => forall n, gives_up (k n)
  | HReturn err => err = Some errPeekAbort
  | _ => False
  end.

(** Before it calls back it reads and writes; it cannot succeed without a ClientHello, and it does not
    know the callback's error. *)
Fixpoint documented (p : handshake) : Prop :=
  match p with
  | HRead _ k => forall x, documented (k x)
  | HWrite _ k => forall n, documented (k n)
  | HGetConfigForClient _ k => gives_up (k errPeekAbort)
  | HReturn err => match err with Some errPeekAbort | None => False | Some _ => True end
  end.

(** The ClientHello the handshake finds on the connection, or why there is none. *)
Fixpoint finds (p : handshake) (c : @conn E) : ClientHelloInfo + option tls_error :=
  match p with
  | HRead n k =>
      match conn_Read n c with
      | None => finds (k (inl (c_end c))) c
      | Some (b, c) => finds (k (inr b)) c
      end
  | HWrite d k => finds (k (length d)) c
  | HGetConfigForClient info _ => inl info
  | HReturn err => inr err
  end.

(** ** What holds *)

Lemma conn_Read_end n (c : @conn E) b c' : conn_Read n c = Some (b, c') -> c_end c' = c_end c.
Proof.
  unfold conn_Read. destruct (c_chunks c) as [|x t]; [done|]. by destruct (length x <=? n)%nat; intros [= <- <-].
Qed.

(** What was read is recorded, and what was not is still there. *)
Lemma Handshake_records p rec hello err rec' hello' :
  Handshake p rec hello = (err, rec', hello') ->
  (rec_buf rec' ++ pending_conn (rec_Conn rec') = rec_buf rec ++ pending_conn (rec_Conn rec))%list /\ c_end (rec_Conn rec') = c_end (rec_Conn rec).
Proof.
  revert rec hello. induction p as [n k IH|d k IH|info k IH|e]; intros rec hello; cbn [Handshake].
  - unfold recording_Read. destruct (conn_Read n (rec_Conn rec)) as [[b c]|] eqn:Hr; intros H; apply IH in H; [|done].
    cbn [rec_buf rec_Conn] in H. by rewrite (conn_Read_pending _ _ _ _ Hr), app_assoc, <- (conn_Read_end _ _ _ _ Hr).
  - apply IH.
  - cbn [capture]. apply IH.
  - by intros [= _ <- _].
Qed.

Lemma gives_up_spec p rec hello : gives_up p -> exists rec', Handshake p rec hello = (Some errPeekAbort, rec', hello).
Proof. induction p as [n k IH|d k IH|info k IH|e]; cbn [gives_up Handshake]; [done| |done|]; [intros H; by apply IH|intros ->; by eexists]. Qed.

Lemma Handshake_finds p rec hello :
  documented p ->
  match finds p (rec_Conn rec) with
  | inl info => exists rec', Handshake p rec hello = (Some errPeekAbort, rec', (capture info hello).1)
  | inr err => (exists e, err = Some e /\ e <> errPeekAbort) /\ exists rec', Handshake p rec hello = (err, rec', hello)
  end.
Proof.
  revert rec. induction p as [n k IH|d k IH|info k IH|e]; intros rec Hd; cbn [finds Handshake documented] in *.
  - unfold recording_Read. destruct (conn_Read n (rec_Conn rec)) as [[b c]|]; [|by apply IH].
    by apply (IH (inr b) {| rec_Conn := c; rec_buf := rec_buf rec ++ b |}).
  - by apply IH.
  - by apply gives_up_spec.
  - destruct e as [[| |]|]; [done| | |done]; (split; [by eexists|by eexists]).
Qed.

(** C32: Peeking takes nothing away: whatever the handshake reads and however the network cuts the bytes,
    what it read is in [Raw] and replaying [Raw] gives the connection's bytes again, all of them once and in
    order.  The peek succeeds exactly if the handshake finds a ClientHello, and then reports its server name
    and protocols; otherwise it reports the handshake's error, with no name; and the case the code calls
    unreachable is. *)
Theorem peek_transparent (tls : handshake) (c : @conn E) :
  documented tls ->
  let '(hello, err, c') := PeekClientHello tls c in
  (hello_Raw hello ++ pending_conn c')%list = pending_conn c
  /\ pending_conn (Replay c' (hello_Raw hello)) = pending_conn c /\ c_end c' = c_end c
  /\ match finds tls c with
     | inl info => err = None /\ hello_ServerName hello = chi_ServerName info /\ hello_ALPN hello = chi_SupportedProtos info
     | inr e => exists e', e = Some e' /\ err = Some (PeekFailed e') /\ hello_ServerName hello = [] /\ hello_ALPN hello = []
     end.
Proof.
  intros Hd. unfold PeekClientHello. set (rec0 := {| rec_Conn := c; rec_buf := [] |}).
  set (hello0 := {| hello_ServerName := []; hello_ALPN := []; hello_Raw := [] |}).
  pose proof (Handshake_finds tls rec0 hello0 Hd) as Hf. destruct (Handshake tls rec0 hello0) as [[err rec'] hello'] eqn:Eh.
  apply Handshake_records in Eh as [Hp He]. cbn [hello_Raw hello_ServerName hello_ALPN rec0 rec_buf rec_Conn app] in *.
  split_and!; [done|by rewrite <- Hp; unfold Replay; rewrite prepend_pending|done|].
  destruct (finds tls c) as [info|e].
  - destruct Hf as [r [= -> _ ->]]. done.
  - destruct Hf as [(e' & -> & Hne) [r [= -> _ ->]]]. exists e'. by destruct e'.
Qed.
End Peek.

(** ** A handshake *)

(** A reader of ClientHellos that fit one record, after RFC 8446: it reads until the record is whole,
    and looks for the server name and the protocols among the extensions. *)
Definition byte_at (s : bytes) (i : nat) : nat := match s !! i with Some c => nat_of_ascii c | None => 0 end.
Definition u16_at (s : bytes) (i : nat) : nat := byte_at s i * 256 + byte_at s (i + 1).

(** A vector with an 8-bit or 16-bit length in front, and what follows it. *)
Definition vec8 (s : bytes) : bytes * bytes := let n := byte_at s 0 in (take n (drop 1 s), drop (1 + n) s).
Definition vec16 (s : bytes) : bytes * bytes := let n := u16_at s 0 in (take n (drop 2 s), drop (2 + n) s).

Fixpoint extension (fuel : nat) (typ : nat) (s : bytes) : option bytes :=
  match fuel, s with
  | S fuel, _ :: _ => let '(body, rest) := vec16 (drop 2 s) in if u16_at s 0 =? typ then Some body else extension fuel typ rest
  | _, _ => None
  end.

Fixpoint protocols (fuel : nat) (s : bytes) : list bytes :=
  match fuel, s with
  | S fuel, _ :: _ => let '(p, rest) := vec8 s in p :: protocols fuel rest
  | _, _ => []
  end.

Definition parse_hello (body : bytes) : ClientHelloInfo :=
  let after_session := (vec8 (drop 34 body)).2 in
  let after_suites := (vec16 after_session).2 in
  let extensions := (vec16 (vec8 after_suites).2).1 in
  {| chi_ServerName := match extension (length extensions) 0 extensions with Some e => (vec16 (drop 1 (vec16 e).1)).1 | None => [] end;
     chi_SupportedProtos := match extension (length extensions) 16 extensions with Some e => let l := (vec16 e).1 in protocols (length l) l | None => [] end |}.

(** The alert that is sent before giving up. *)
Definition alert : bytes := map ascii_of_nat [21; 3; 1; 0; 2; 2; 80].

Fixpoint one_record {E} (fuel : nat) (got : bytes) : @handshake E :=
  if (5 <=? length got) && (5 + u16_at got 3 <=? length got) then
    if (byte_at got 0 =? 22) && (byte_at got 5 =? 1) then HGetConfigForClient (parse_hello (drop 9 got)) (fun err => HWrite alert (fun _ => HReturn (Some err)))
    else HReturn (Some (HandshakeError "first record does not look like a TLS handshake"))
  else
    match fuel with
    | O => HReturn (Some (HandshakeError "record overflow"))
    | S fuel => HRead 576 (fun x => match x with inl e => HReturn (Some (ReadError e)) | inr b => one_record fuel (got ++ b) end)
    end.

Lemma one_record_documented {E} fuel got : documented (one_record (E := E) fuel got).
Proof.
  revert got. induction fuel as [|fuel IH]; intros got; cbn [one_record]; (destruct ((5 <=? _) && _); [destruct ((_ =? 22) && _); [cbn; done|exact I]|]); [exact I|].
  intros [e|b]; [exact I|apply IH].
Qed.

(** A hello for good.example that offers h2 and http/1.1, with a byte of the next message, in three pieces. *)
Definition hello_body : bytes :=
  (map ascii_of_nat [3; 3] ++ replicate 32 "r"%char ++ map ascii_of_nat [0; 0; 2; 19; 1; 1; 0; 0; 39; 0; 0; 0; 17; 0; 15; 0; 0; 12] ++ str "good.example"
   ++ map ascii_of_nat [0; 16; 0; 14; 0; 12; 2] ++ str "h2" ++ map ascii_of_nat [8] ++ str "http/1.1")%list.
Definition hello_record : bytes :=
  (map ascii_of_nat [22; 3; 1; 0; 4 + length hello_body; 1; 0; 0; length hello_body] ++ hello_body)%list.
Definition hello_conn : @conn unit :=
  {| c_chunks := [take 3 hello_record; drop 3 hello_record; str "x"]; c_end := tt |}.

Lemma peek_transparent_witness :
  let '(hello, err, c') := PeekClientHello (one_record 8 []) hello_conn in
  hello_ServerName hello = str "good.example" /\ hello_ALPN hello = [str "h2"; str "http/1.1"] /\ err = None
  /\ pending_conn (Replay c' (hello_Raw hello)) = pending_conn hello_conn.
Proof.
  pose proof (peek_transparent (one_record 8 []) hello_conn (one_record_documented 8 [])) as H.
  destruct (PeekClientHello (one_record 8 []) hello_conn) as [[hello err] c'] eqn:E. destruct H as (_ & Hr & _ & Hf).
  assert (Hi : finds (one_record 8 []) hello_conn = inl {| chi_ServerName := str "good.example"; chi_SupportedProtos := [str "h2"; str "http/1.1"] |})
    by (vm_compute; reflexivity).
  rewrite Hi in Hf. cbn [chi_ServerName chi_SupportedProtos] in Hf. destruct Hf as (-> & Hs & Ha). split_and!; [exact Hs|exact Ha|reflexivity|exact Hr].
Defined.
