(* ===== verification/Relay.v ===== *)
(** * Splicing two connections (internal/proxy/relay.go, copybuf.go, bytecount.go)

    [relay] runs one copying goroutine per direction and ends each with a
    half-close of the side it wrote to.  Their atomic actions interleave freely:
    the relay is a step relation.  Every run ends, in whatever order the
    goroutines are scheduled, and then each side has got exactly what the other
    one sent. *)

From stdpp Require Import relations.
From S2P Require Import Prelude Wire.

(** ** Connections *)

(** How a connection is closed for writing: by [CloseWrite], by the [CloseWrite] of
    a wrapper around a connection that has none, which does nothing, or, for want
    of the method, by [Close]. *)
Inductive close_kind : Type := HalfCloser | WrappedWithout | NoHalfClose.

(** One end of the relay: the chunks its peer still sends, the bytes written to
    it, how many more its peer takes before writes fail ([None]: any number), and
    what was closed. *)
Record endpoint : Type := {
  e_in : list bytes;
  e_out : bytes;
  e_room : option nat;
  e_kind : close_kind;
  e_shut : bool;     (* the write side is closed *)
  e_closed : bool }.

Definition set_in (e : endpoint) (i : list bytes) : endpoint :=
  {| e_in := i; e_out := e_out e; e_room := e_room e; e_kind := e_kind e; e_shut := e_shut e; e_closed := e_closed e |}.

(** [Read] with the copy buffer; [None] is the end or an error. *)
Definition endpoint_Read (n : nat) (e : endpoint) : option (bytes * endpoint) :=
  if e_closed e then None
  else match conn_Read n {| c_chunks := e_in e; c_end := tt |} with
       | Some (b, c) => Some (b, set_in e (c_chunks c))
       | None => None
       end.

(** [Write]: whether it took all bytes. *)
Definition endpoint_Write (b : bytes) (e : endpoint) : bool * endpoint :=
  let wrote out room := {| e_in := e_in e; e_out := e_out e ++ out; e_room := room; e_kind := e_kind e;
                           e_shut := e_shut e; e_closed := e_closed e |} in
  if e_closed e || e_shut e then (false, e)
  else match e_room e with
       | None => (true, wrote b None)
       | Some r => if (length b <=? r)%nat then (true, wrote b (Some (r - length b)%nat)) else (false, wrote (take r b) (Some O))
       end.

(** [closeWrite]. *)
Definition closeWrite (e : endpoint) : endpoint :=
  {| e_in := e_in e; e_out := e_out e; e_room := e_room e; e_kind := e_kind e;
     e_shut := match e_kind e with WrappedWithout => e_shut e | _ => true end;
     e_closed := match e_kind e with NoHalfClose => true | _ => e_closed e end |}.

(** ** How bytes are copied *)

Definition copyBufSize : nat := 32 * 1024.

(** What a connection's type offers beside [net.Conn]. *)
Record methods : Type := { hasReadFrom : bool; hasWriteTo : bool }.

Definition isSpliceCapable (c : methods) : bool := hasReadFrom c || hasWriteTo c.

(** [hideFastPath]. *)
Definition hideFastPath (c : methods) : methods := {| hasReadFrom := false; hasWriteTo := false |}.

(** [io.Copy] and [io.CopyBuffer]: the source's [WriteTo], else the destination's
    [ReadFrom], else the loop over a buffer. *)
Inductive copy_path : Type := ByWriteTo | ByReadFrom | ByBuffer.

Definition io_copy (dst src : methods) : copy_path :=
  if hasWriteTo src then ByWriteTo else if hasReadFrom dst then ByReadFrom else ByBuffer.

(** [pooledCopy]: the path taken, and whether a buffer of the pool is held. *)
Definition pooledCopy (dst src : methods) : copy_path * bool :=
  if isSpliceCapable dst && isSpliceCapable src then (io_copy dst src, false)
  else
    let dst := if isSpliceCapable dst then hideFastPath dst else dst in
    let src := if isSpliceCapable src then hideFastPath src else src in
    (io_copy dst src, true).

(** ** The relay *)

(** Where a goroutine stands: before a read, with bytes to write, before the
    half-close, at its end. *)
Inductive phase : Type := Reading | Writing (b : bytes) | Closing | Finished.

(** One action of the goroutine that copies [src] to [dst]. *)
Definition copy_step (src dst : endpoint) (p : phase) : option (endpoint * endpoint * phase) :=
  match p with
  | Reading =>
      match endpoint_Read copyBufSize src with
      | None => Some (src, dst, Closing)
      | Some (b, src) => Some (src, dst, match b with [] => Reading | _ => Writing b end)
      end
  | Writing b =>
      match endpoint_Write b dst with
      | (true, dst) => Some (src, dst, Reading)
      | (false, dst) => Some (src, dst, Closing)
      end
  | Closing => Some (src, closeWrite dst, Finished)
  | Finished => None
  end.

Record relay : Type := { r_client : endpoint; r_upstream : endpoint; r_down : phase; r_up : phase }.

(** [relay] when it starts its goroutines. *)
Definition relay_start (client upstream : endpoint) : relay :=
  {| r_client := client; r_upstream := upstream; r_down := Reading; r_up := Reading |}.

Definition step_down (s : relay) : option relay :=
  match copy_step (r_upstream s) (r_client s) (r_down s) with
  | Some (u, c, p) => Some {| r_client := c; r_upstream := u; r_down := p; r_up := r_up s |}
  | None => None
  end.

Definition step_up (s : relay) : option relay :=
  match copy_step (r_client s) (r_upstream s) (r_up s) with
  | Some (c, u, p) => Some {| r_client := c; r_upstream := u; r_down := r_down s; r_up := p |}
  | None => None
  end.

(** Either goroutine moves. *)
Inductive relay_step (s : relay) : relay -> Prop :=
  | StepDown s' : step_down s = Some s' -> relay_step s s'
  | StepUp s' : step_up s = Some s' -> relay_step s s'.

(** [wg.Wait()] has returned. *)
Definition returned (s : relay) : Prop := r_down s = Finished /\ r_up s = Finished.

(** The relay under a given schedule ([true]: the downward goroutine); a goroutine
    that is done is passed over. *)
Fixpoint run_relay (schedule : list bool) (s : relay) : relay :=
  match schedule with
  | [] => s
  | d :: schedule => run_relay schedule (default s (if d then step_down s else step_up s))
  end.

(** ** Theorems *)

(** A buffer of the pool is held exactly when the copy uses one, so that none is
    fetched in vain and the kernel's path is kept when both sides have it. *)
Lemma pooled_buffer_used dst src :
  snd (pooledCopy dst src) = true -> fst (pooledCopy dst src) = ByBuffer.
Proof. destruct dst as [[] []], src as [[] []]; done. Qed.

Definition open_end (e : endpoint) : Prop := e_closed e = false /\ e_shut e = false.

(** What a direction has done, of the bytes [total] it has to carry. *)
Definition carried (total : bytes) (src dst : endpoint) (p : phase) : Prop :=
  match p with
  | Reading => e_out dst ++ concat (e_in src) = total /\ open_end dst
  | Writing b => e_out dst ++ b ++ concat (e_in src) = total /\ open_end dst
  | Closing => e_out dst `prefix_of` total /\ open_end dst
               /\ (e_room dst = None -> e_closed src = false -> e_out dst = total)
  | Finished => e_out dst `prefix_of` total
                /\ (e_room dst = None -> e_closed src = false -> e_out dst = total)
                /\ (e_kind dst <> WrappedWithout -> e_shut dst = true)
  end%list.

Lemma conn_Read_concat {E} n (c c' : @conn E) b :
  conn_Read n c = Some (b, c') -> concat (c_chunks c) = (b ++ concat (c_chunks c'))%list.
Proof.
  unfold conn_Read. destruct (c_chunks c) as [|x t]; [done|]. destruct (length x <=? n)%nat; intros [= <- <-]; cbn; [done|].
  by rewrite app_assoc, take_drop.
Qed.

Lemma endpoint_Read_spec n e b e' :
  endpoint_Read n e = Some (b, e') -> e_closed e = false /\ concat (e_in e) = (b ++ concat (e_in e'))%list /\ e' = set_in e (e_in e').
Proof.
  unfold endpoint_Read. destruct (e_closed e); [done|]. destruct (conn_Read _ _) as [[b0 c]|] eqn:Ec; [|done]. intros [= <- <-].
  apply conn_Read_concat in Ec. done.
Qed.

Lemma endpoint_Read_end n e : endpoint_Read n e = None -> e_closed e = true \/ e_in e = [].
Proof.
  unfold endpoint_Read. destruct (e_closed e); [by left|]. unfold conn_Read. cbn [c_chunks].
  destruct (e_in e) as [|x t]; [by right|]. by destruct (length x <=? n)%nat.
Qed.

Lemma endpoint_Write_spec b e ok e' :
  endpoint_Write b e = (ok, e') -> open_end e ->
  e_in e' = e_in e /\ e_kind e' = e_kind e /\ open_end e' /\ (e_room e' = None <-> e_room e = None)
  /\ if ok then e_out e' = (e_out e ++ b)%list
     else e_room e <> None /\ exists n, e_out e' = (e_out e ++ take n b)%list.
Proof.
  intros H [Hc Hs]. unfold endpoint_Write in H. rewrite Hc, Hs in H. cbn [orb] in H.
  destruct (e_room e) as [r|]; [destruct (length b <=? r)%nat|]; injection H as <- <-; cbn; split_and!; try done; eauto.
Qed.

(** What the other goroutine relies on. *)
Definition left_alone (src dst src' dst' : endpoint) : Prop :=
  e_out src' = e_out src /\ e_room src' = e_room src /\ e_shut src' = e_shut src /\ e_closed src' = e_closed src /\ e_kind src' = e_kind src
  /\ e_in dst' = e_in dst /\ e_kind dst' = e_kind dst /\ (e_room dst' = None <-> e_room dst = None)
  /\ (e_closed dst' = false -> e_closed dst = false) /\ (e_closed dst = false -> e_kind dst <> NoHalfClose -> e_closed dst' = false).

Lemma copy_step_carried total src dst p src' dst' p' :
  copy_step src dst p = Some (src', dst', p') -> carried total src dst p ->
  carried total src' dst' p' /\ left_alone src dst src' dst'.
Proof.
  unfold copy_step. destruct p as [|b| |]; [| | |done].
  - destruct (endpoint_Read copyBufSize src) as [[b s]|] eqn:Er; intros [= <- <- <-]; intros [Ht Ho].
    + apply endpoint_Read_spec in Er as (Hc & Hb & ->). rewrite Hb in Ht. split; [by destruct b|]. done.
    + split; [|done]. cbn. split_and!; [by eexists|apply Ho..|]. intros _ Hc.
      destruct (endpoint_Read_end _ _ Er) as [H|H]; [congruence|]. by rewrite H, app_nil_r in Ht.
  - destruct (endpoint_Write b dst) as [ok d] eqn:Ew. intros H [Ht Ho].
    destruct (endpoint_Write_spec _ _ _ _ Ew Ho) as (Hi & Hk & Ho' & Hr & Hout).
    assert (left_alone src dst src d) as Hl by (destruct Ho, Ho'; split_and!; try done; congruence).
    destruct ok; injection H as <- <- <-; (split; [|done]); cbn.
    + rewrite Hout, <- app_assoc. done.
    + destruct Hout as (Hroom & n & Hout). split_and!; [|apply Ho'..|tauto]. rewrite Hout, <- Ht. apply prefix_app.
      rewrite <- (take_drop n b) at 2. rewrite <- app_assoc. by eexists.
  - intros [= <- <- <-] (Hp & [Hc Hs] & He). split; [cbn; split_and!; [done|done|]|split_and!; try done; cbn];
      by destruct (e_kind dst).
Qed.

(** The other direction keeps what it has done. *)
Lemma carried_left_alone total src dst src' dst' p :
  left_alone src dst src' dst' -> carried total dst src p -> carried total dst' src' p.
Proof.
  intros (H1 & H2 & H3 & H4 & H5 & H6 & _ & _ & H9 & _). unfold carried, open_end. rewrite H1, H2, H3, H4, H5, H6.
  destruct p; naive_solver.
Qed.

(** The bytes a side will have been sent. *)
Definition sent (e : endpoint) : bytes := concat (e_in e).

Definition relay_inv (client upstream : endpoint) (s : relay) : Prop :=
  carried (sent upstream) (r_upstream s) (r_client s) (r_down s) /\ carried (sent client) (r_client s) (r_upstream s) (r_up s)
  /\ e_kind (r_client s) = e_kind client /\ e_kind (r_upstream s) = e_kind upstream
  /\ (e_room (r_client s) = None <-> e_room client = None) /\ (e_room (r_upstream s) = None <-> e_room upstream = None)
  /\ (e_kind client <> NoHalfClose -> e_closed (r_client s) = false) /\ (e_kind upstream <> NoHalfClose -> e_closed (r_upstream s) = false).

Lemma relay_step_inv client upstream s s' :
  relay_step s s' -> relay_inv client upstream s -> relay_inv client upstream s'.
Proof.
  intros Hst (Hd & Hu & Kc & Ku & Rc & Ru & Cc & Cu). destruct Hst as [s' H|s' H].
  - unfold step_down in H. destruct (copy_step _ _ _) as [[[u c] p]|] eqn:E; [|done]. injection H as <-.
    destruct (copy_step_carried _ _ _ _ _ _ _ E Hd) as [Hd' Hl]. pose proof (carried_left_alone _ _ _ _ _ _ Hl Hu) as Hu'.
    destruct Hl as (_ & H2 & _ & H4 & H5 & _ & H7 & H8 & _ & H10). unfold relay_inv. cbn. rewrite H2, H4, H5, H7, H8. split_and!; try done.
    intros Hk. apply H10; [by apply Cc|congruence].
  - unfold step_up in H. destruct (copy_step _ _ _) as [[[c u] p]|] eqn:E; [|done]. injection H as <-.
    destruct (copy_step_carried _ _ _ _ _ _ _ E Hu) as [Hu' Hl]. pose proof (carried_left_alone _ _ _ _ _ _ Hl Hd) as Hd'.
    destruct Hl as (_ & H2 & _ & H4 & H5 & _ & H7 & H8 & _ & H10). unfold relay_inv. cbn. rewrite H2, H4, H5, H7, H8. split_and!; try done.
    intros Hk. apply H10; [by apply Cu|congruence].
Qed.

Lemma relay_run_inv client upstream n s s' :
  nsteps relay_step n s s' -> relay_inv client upstream s -> relay_inv client upstream s'.
Proof. induction 1; eauto using relay_step_inv. Qed.

(** *** Every run ends *)

Definition left_to_read (e : endpoint) : nat := length (concat (e_in e)) + length (e_in e).

Definition steps_left (src : endpoint) (p : phase) : nat :=
  match p with
  | Reading => 2 * left_to_read src + 3
  | Writing _ => 2 * left_to_read src + 4
  | Closing => 1
  | Finished => 0
  end.

Definition relay_measure (s : relay) : nat := steps_left (r_upstream s) (r_down s) + steps_left (r_client s) (r_up s).

Lemma endpoint_Read_shorter n e b e' :
  (0 < n)%nat -> endpoint_Read n e = Some (b, e') -> (left_to_read e' < left_to_read e)%nat.
Proof.
  unfold endpoint_Read, left_to_read, conn_Read. cbn [c_chunks]. destruct (e_closed e); [done|]. intros Hn.
  destruct (e_in e) as [|x t]; [done|]. destruct (Nat.leb_spec (length x) n); intros [= <- <-]; cbn; rewrite !length_app; [lia|].
  rewrite length_drop. lia.
Qed.

Lemma copy_step_measure src dst p src' dst' p' :
  copy_step src dst p = Some (src', dst', p') -> (steps_left src' p' < steps_left src p)%nat /\ e_in dst' = e_in dst.
Proof.
  unfold copy_step. destruct p as [|b| |]; [| | |done].
  - destruct (endpoint_Read copyBufSize src) as [[b s]|] eqn:Er; intros [= <- <- <-]; (split; [|done]); cbn [steps_left]; [|lia].
    apply endpoint_Read_shorter in Er; [|apply Nat.lt_0_succ]. destruct b; cbn [steps_left]; lia.
  - destruct (endpoint_Write b dst) as [ok d] eqn:Ew. intros H. assert (e_in d = e_in dst) as Hd.
    { unfold endpoint_Write in Ew. destruct (_ || _); [by injection Ew as <- <-|].
      destruct (e_room dst) as [r|]; [destruct (length b <=? r)%nat|]; by injection Ew as <- <-. }
    destruct ok; injection H as <- <- <-; (split; [|done]); cbn [steps_left]; lia.
  - intros [= <- <- <-]. split; [cbn; lia|done].
Qed.

Lemma steps_left_in e e' p : e_in e' = e_in e -> steps_left e' p = steps_left e p.
Proof. intros H. unfold steps_left, left_to_read. by rewrite H. Qed.

Lemma relay_step_measure s s' : relay_step s s' -> (relay_measure s' < relay_measure s)%nat.
Proof.
  intros [s1 H|s1 H]; [unfold step_down in H|unfold step_up in H];
    (destruct (copy_step _ _ _) as [[[x y] p]|] eqn:E; [|done]); injection H as <-;
    apply copy_step_measure in E as [Hm Hi]; unfold relay_measure; cbn; rewrite (steps_left_in _ _ _ Hi); lia.
Qed.

Lemma relay_run_bounded n s s' : nsteps relay_step n s s' -> (n + relay_measure s' <= relay_measure s)%nat.
Proof. induction 1 as [|n x y z Hxy _ IH]; [lia|]. apply relay_step_measure in Hxy. lia. Qed.

Lemma relay_progress s : returned s \/ exists s', relay_step s s'.
Proof.
  destruct (step_down s) as [s'|] eqn:Ed; [right; exists s'; by constructor|].
  destruct (step_up s) as [s'|] eqn:Eu; [right; exists s'; by constructor 2|].
  assert (forall src dst p, copy_step src dst p = None -> p = Finished) as Hf.
  { intros src dst [|b| |]; cbn [copy_step]; [destruct (endpoint_Read _ _) as [[]|]|destruct (endpoint_Write _ _) as [[] ?]|..]; done. }
  left. unfold step_down in Ed. unfold step_up in Eu. split; eapply Hf.
  - by destruct (copy_step (r_upstream s) (r_client s) (r_down s)) as [[[? ?] ?]|] eqn:E.
  - by destruct (copy_step (r_client s) (r_upstream s) (r_up s)) as [[[? ?] ?]|] eqn:E.
Qed.

(** A connection as it comes to the relay. *)
Definition fresh_end (e : endpoint) : Prop := e_out e = [] /\ open_end e.

(** C17: however the two goroutines of [relay] interleave, at every moment each side
    has been written a prefix of what the other one sent, no run is longer than the
    chunks allow, and a run that cannot go on has returned; if the connections can
    be half-closed, it has then delivered every byte to each side that took them
    all, and has announced the end to each. *)
Theorem relay_delivers client upstream n s :
  fresh_end client -> fresh_end upstream -> nsteps relay_step n (relay_start client upstream) s ->
  e_out (r_client s) `prefix_of` sent upstream /\ e_out (r_upstream s) `prefix_of` sent client
  /\ (n <= 2 * (left_to_read client + left_to_read upstream) + 6)%nat
  /\ (returned s \/ exists s', relay_step s s')
  /\ (returned s -> e_kind client = HalfCloser -> e_kind upstream = HalfCloser ->
      (e_room client = None -> e_out (r_client s) = sent upstream) /\ (e_room upstream = None -> e_out (r_upstream s) = sent client)
      /\ e_shut (r_client s) = true /\ e_shut (r_upstream s) = true).
Proof.
  intros [Hc Oc] [Hu Ou] Hrun.
  assert (relay_inv client upstream (relay_start client upstream)) as Hinv.
  { unfold relay_inv, relay_start, carried, sent. cbn. rewrite Hc, Hu. destruct Oc, Ou. by split_and!. }
  assert (relay_inv client upstream s) as (Hd & Hup & Kc & Ku & Rc & Ru & Cc & Cu).
  { by eapply relay_run_inv. }
  assert (forall total src dst p, carried total src dst p -> e_out dst `prefix_of` total) as Hpre.
  { intros total src dst [|b| |]; cbn; [intros [<- _]; by eexists|intros [<- _]; by eexists|by intros [? _]|by intros [? _]]. }
  split_and!; [by eapply Hpre|by eapply Hpre| |apply relay_progress|].
  - apply relay_run_bounded in Hrun. unfold relay_measure at 2 in Hrun. cbn in Hrun. lia.
  - intros [Fd Fu] Hk1 Hk2. rewrite Fd in Hd. rewrite Fu in Hup. destruct Hd as (_ & Hd1 & Hd2), Hup as (_ & Hu1 & Hu2).
    rewrite Kc, Hk1 in Hd2. rewrite Ku, Hk2 in Hu2. rewrite Hk1 in Cc. rewrite Hk2 in Cu.
    split_and!; [intros E%Rc; apply Hd1; [done|by apply Cu]|intros E%Ru; apply Hu1; [done|by apply Cc]|by apply Hd2|by apply Hu2].
Qed.

(** A schedule gives a run. *)
Lemma run_relay_steps schedule s : exists n, nsteps relay_step n s (run_relay schedule s).
Proof.
  revert s. induction schedule as [|d schedule IH]; intros s; [exists O; constructor|]. cbn [run_relay].
  destruct (if d then step_down s else step_up s) as [s'|] eqn:E; [|apply IH]. destruct (IH s') as [n Hn].
  exists (S n). eapply nsteps_l; [|exact Hn]. destruct d; by constructor.
Qed.

(** A request and its answer; the client's direction is done first. *)
Definition talk (chunks : list bytes) (k : close_kind) : endpoint :=
  {| e_in := chunks; e_out := []; e_room := None; e_kind := k; e_shut := false; e_closed := false |}.

Definition sample_relay : relay := relay_start (talk [str "GET "; str "/"] HalfCloser) (talk [str "200"] HalfCloser).
Definition up_first : list bool := [false; false; true; false; false; false; false; true; true; true].

Lemma relay_delivers_witness :
  let s := run_relay up_first sample_relay in
  e_out (r_client s) = str "200" /\ e_out (r_upstream s) = str "GET /" /\ e_shut (r_client s) = true /\ e_shut (r_upstream s) = true.
Proof.
  destruct (run_relay_steps up_first sample_relay) as [n Hn].
  destruct (relay_delivers (talk [str "GET "; str "/"] HalfCloser) (talk [str "200"] HalfCloser) n _ ltac:(done) ltac:(done) Hn)
    as (_ & _ & _ & _ & H).
  destruct H as (H1 & H2 & H3 & H4); [by vm_compute|done|done|]. split_and!; [by apply H1|by apply H2|done|done].
Defined.

(** On a connection without a half-close the direction that ends first cuts the
    other one short. *)
Lemma full_close_truncates :
  let s := run_relay [true; true; true; true; false; false]
             (relay_start (talk [str "GET /"] NoHalfClose) (talk [str "200"] HalfCloser)) in
  returned s /\ e_out (r_upstream s) = [].
Proof. by vm_compute. Qed.
