(* ===== verification/Control.v ===== *)
(** * The control API (internal/control)

    The handlers that read and replace rule documents, over the store of
    [Engine].  A handler answers with a document, with 204, or with an error
    status; the texts of errors and logging are left out, and the other endpoints
    are in [Admin].  A broker probe's answer is an argument, by its number. *)

From S2P Require Import Prelude GoStrings Netip Json JsonRoundtrip Encoding Schema JsonRules Matcher.
From S2P Require Import Compile HostIndex Egress Auth RuleSet MaskedKey DefaultRuleset DefaultTable Builtin.
From S2P Require Import Storage Engine EngineCorrect EngineSamples Headers HttpError CacheControl Outcall.

Open Scope Z_scope.

Definition maxRuleFileBytes : Z := 10 * 2 ^ 20.
Definition maxDefaultRulesetBytes : Z := 64 * 2 ^ 20.

Inductive reply : Type :=
  | Document (body : bytes)     (* 200 *)
  | NoContent                   (* 204 *)
  | Refused (status : Z).

(** A request body, or the failure to read it, and the [validate] parameter. *)
Record put_request : Type := { pr_body : result bytes; pr_validate : bytes }.

(** [Control]: with an outcall service, the answers its probes get. *)
Record Control : Type := { c_Outcall : option (nat -> answer) }.

Section Control.
Context `{RE : RegexEngine} `{DG : Digests} `{UT : UnicodeTable} {W : Type} `{ST : Storage W}.
Variable c : Control.

(** The actions a probe exercises. *)
Definition probed (compiled : list CompiledRule) : list (CompiledAction * CompiledOutcall) :=
  concat (map (fun r => omap (fun a => pair a <$> ca_Outcall a) (cr_request r)) compiled).

(** The request of [probeOne]. *)
Definition probe_request (identity : bytes) (a : CompiledAction) : Request :=
  {| rq_Version := Version;
     rq_Action := if bool_decide (ca_Name a = str "webhook") then ActionWebhook else ActionHeaderFetch;
     rq_UUID := []; rq_Client := identity; rq_Proto := str "http"; rq_Dst := [];
     rq_HTTP := Some {| hr_Method := str "GET"; hr_URL := (str "http://" ++ identity ++ str "/")%list;
                        hr_Headers := [] |};
     rq_Credential := None |}.

(** [probeOutcalls]: every action is asked for, up to the first that is not
    allowed; [n] numbers the call. *)
Fixpoint probeAll (ask : nat -> answer) (n : nat) (l : list (CompiledAction * CompiledOutcall)) : result nat :=
  match l with
  | [] => Ok n
  | _ :: t =>
      match ask n with
      | Allowed _ => probeAll ask (S n) t
      | Denied _ _ => Error "outcall probe failed"
      | Failed e => Error e
      end
  end.

Definition probeOutcalls (n : nat) (compiled : list CompiledRule) : result nat :=
  match c_Outcall c with
  | None => Ok n
  | Some ask => probeAll ask n (probed compiled)
  end.

Definition put_failed {A} (r : sres A) : reply :=
  match r with SOk _ => NoContent | _ => Refused 500 end.

(** [handleGetRule]. *)
Definition handleGetRule (w : W) (ip : bytes) : reply :=
  match ParseAddr ip with
  | Error _ => Refused 400
  | Ok addr =>
      match Get w (keyFor addr) with
      | SFail _ => Refused 500
      | SNotExist => Document (json "{'http':[]}")
      | SOk (raw, _) => Document raw
      end
  end.

(** The checks of [handlePutRule] on the document. *)
Definition checkRuleFile (body : bytes) : result (list CompiledRule) :=
  rf ← DecodeStrict_RuleFile body;
  compiled ← Compile rf;
  _ ← (match rf_Egress rf with Some l => _ ← CompileEgress l; Ok tt | None => Ok tt end);
  _ ← CompileAuth (rf_Auth rf);
  Ok compiled.

(** [handlePutRule]. *)
Definition handlePutRule (w : W) (ip : bytes) (r : put_request) : reply * W :=
  match ParseAddr ip, pr_body r with
  | Error _, _ => (Refused 400, w)
  | Ok _, Error _ => (Refused 400, w)
  | Ok addr, Ok body =>
      if maxRuleFileBytes <? Z.of_nat (length body) then (Refused 413, w)
      else
        match checkRuleFile body with
        | Error _ => (Refused 400, w)
        | Ok compiled =>
            match (if bool_decide (pr_validate r = str "false") then Ok 0%nat else probeOutcalls 0 compiled) with
            | Error _ => (Refused 400, w)
            | Ok _ => let '(res, w) := Save w addr body in (put_failed res, w)
            end
        end
  end.

(** [handleDeleteRule]. *)
Definition handleDeleteRule (w : W) (ip : bytes) : reply * W :=
  match ParseAddr ip with
  | Error _ => (Refused 400, w)
  | Ok addr => let '(res, w) := DeleteRules w addr in (put_failed res, w)
  end.

(** [handleGetDefault]. *)
Definition handleGetDefault (w : W) : reply :=
  match Get w defaultKey with
  | SFail _ => Refused 500
  | SNotExist => Document (json "{}")
  | SOk (raw, _) => Document raw
  end.

(** The probes of every bucket, in order. *)
Fixpoint probeBuckets (n : nat) (l : list (bytes * RuleSet)) : result nat :=
  match l with
  | [] => Ok n
  | (_, rs) :: t => n ← probeOutcalls n (rs_rules rs); probeBuckets n t
  end.

(** [handlePutDefault]: the canonical text is what is stored. *)
Definition handlePutDefault (w : W) (r : put_request) : reply * W :=
  match pr_body r with
  | Error _ => (Refused 400, w)
  | Ok body =>
      if maxDefaultRulesetBytes <? Z.of_nat (length body) then (Refused 413, w)
      else
        match CompileDefaultRuleset body with
        | Error _ => (Refused 400, w)
        | Ok (compiled, canonical) =>
            match (if bool_decide (pr_validate r = str "false") then Ok 0%nat
                   else probeBuckets 0 (Buckets compiled)) with
            | Error _ => (Refused 400, w)
            | Ok _ => let '(res, w) := SaveDefault w canonical in (put_failed res, w)
            end
        end
  end.

End Control.

(** ** The strict decoder accepts less, and nothing else *)

Definition laxer {A} (d d' : decoder A) : Prop := forall cur v x, d cur v = Ok x -> d' cur v = Ok x.

Create HintDb lax.

Lemma laxer_ptr {A} zero (d d' : decoder A) : laxer d d' -> laxer (d_ptr zero d) (d_ptr zero d').
Proof.
  intros Hd cur v x. unfold d_ptr. destruct v; try done; destruct (d _ _) eqn:E; try done; apply Hd in E; by rewrite E.
Qed.

Lemma laxer_elems {A} zero (d d' : decoder A) : laxer d d' -> forall l cur x,
  d_elems zero d cur l = Ok x -> d_elems zero d' cur l = Ok x.
Proof.
  intros Hd l. induction l as [|v t IH]; intros cur x; [done|]. cbn.
  intros (y & Hy & H)%result_bind_ok. apply result_bind_ok in H as (ys & Hys & H).
  by rewrite (Hd _ _ _ Hy); cbn; rewrite (IH _ _ Hys).
Qed.

Lemma laxer_slice {A} zero (d d' : decoder A) : laxer d d' -> laxer (d_slice zero d) (d_slice zero d').
Proof.
  intros Hd cur v x. unfold d_slice. destruct v; try done.
  destruct (d_elems zero d _ _) eqn:E; [|done]. by rewrite (laxer_elems _ _ _ Hd _ _ _ E).
Qed.

Lemma laxer_list {A} zero (d d' : decoder A) : laxer d d' -> laxer (d_list zero d) (d_list zero d').
Proof.
  intros Hd cur v x. unfold d_list. destruct (d_slice zero d _ _) eqn:E; [|done].
  by rewrite (laxer_slice _ _ _ Hd _ _ _ E).
Qed.

Lemma laxer_field {A} name (d d' : decoder A) cur l x :
  laxer d d' -> field name d cur l = Ok x -> field name d' cur l = Ok x.
Proof.
  intros Hd. unfold field. revert cur. induction l as [|kv l IH]; intros cur Hf; cbn in *; [done|].
  destruct (names_field _ _); [|by apply IH]. destruct (d cur kv.2) eqn:E.
  - rewrite (Hd _ _ _ E). by apply IH.
  - exfalso. clear -Hf. induction l; cbn in *; eauto; done.
Qed.

Lemma laxer_struct {A} names (f f' : A -> list (bytes * any) -> result A) :
  (forall cur l x, f cur l = Ok x -> f' cur l = Ok x) -> laxer (d_struct true names f) (d_struct false names f').
Proof. intros Hf cur v x. unfold d_struct. destruct v; try done. destruct (_ && _); [done|]. apply Hf. Qed.

#[export] Hint Resolve laxer_ptr laxer_slice laxer_list : lax.

(** Field by field. *)
Ltac lax_fields :=
  apply laxer_struct; intros cur l x; cbv beta;
  repeat match goal with
  | |- (field ?n ?d ?c ?l ≫= _) = Ok _ -> (field _ ?d' _ _ ≫= _) = Ok _ =>
      tryif constr_eq d d' then (destruct (field n d c l); [|cbn [mbind result_bind]; discriminate])
      else (let E := fresh in let Hd := fresh in
            assert (Hd : laxer d d') by eauto with lax;
            destruct (field n d c l) eqn:E; [|cbn [mbind result_bind]; discriminate]; rewrite (laxer_field n d d' c l _ Hd E); clear Hd);
      cbn [mbind result_bind]
  end; done.

Lemma laxer_basic : laxer (decode_basic true) (decode_basic false). Proof. lax_fields. Qed.
Lemma laxer_bearer : laxer (decode_bearer true) (decode_bearer false). Proof. lax_fields. Qed.
Lemma laxer_broker : laxer (decode_broker true) (decode_broker false). Proof. lax_fields. Qed.
Lemma laxer_match : laxer (decode_match true) (decode_match false). Proof. lax_fields. Qed.
Lemma laxer_action : laxer (decode_action true) (decode_action false). Proof. lax_fields. Qed.
Lemma laxer_connection : laxer (decode_connection true) (decode_connection false). Proof. lax_fields. Qed.
Lemma laxer_egress : laxer (decode_egress true) (decode_egress false). Proof. lax_fields. Qed.
#[export] Hint Resolve laxer_basic laxer_bearer laxer_broker laxer_match laxer_action laxer_connection laxer_egress : lax.
Lemma laxer_http_proxy : laxer (decode_http_proxy true) (decode_http_proxy false). Proof. lax_fields. Qed.
Lemma laxer_rule : laxer (decode_rule true) (decode_rule false). Proof. lax_fields. Qed.
#[export] Hint Resolve laxer_http_proxy laxer_rule : lax.
Lemma laxer_auth : laxer (decode_auth true) (decode_auth false). Proof. lax_fields. Qed.
#[export] Hint Resolve laxer_auth : lax.
Lemma laxer_file : laxer (decode_file true) (decode_file false). Proof. lax_fields. Qed.

(** A whole document the strict decoder accepts is read back as the same file. *)
Lemma strict_decode_reads body rf :
  DecodeStrict_RuleFile body = Ok rf -> is_ok (Unmarshal_any body) = true -> Unmarshal_RuleFile body = Ok rf.
Proof.
  unfold DecodeStrict_RuleFile, Unmarshal_RuleFile, Unmarshal_any.
  destruct (decodeFirst body) as [[v r]|]; [|done]. cbn [mbind result_bind]. intros Hd.
  case_bool_decide; [|done]. intros _. by apply laxer_file.
Qed.

(** ** The handlers *)

Section Correct.
Context `{RE : RegexEngine} `{DG : Digests} `{UT : UnicodeTable} `{US : UUIDSource}.
Context {W : Type} `{ST : Storage W} `{SP : !StorageSpec W}.

(** What a 204 to a PUT of one client's rules means. *)
Lemma put_rule_inv c w ip r w' :
  handlePutRule c w ip r = (NoContent, w') ->
  exists addr body rf compiled auth,
    ParseAddr ip = Ok addr /\ pr_body r = Ok body /\ DecodeStrict_RuleFile body = Ok rf
    /\ Compile rf = Ok compiled /\ CompileAuth (rf_Auth rf) = Ok auth
    /\ (forall l, rf_Egress rf = Some l -> is_ok (CompileEgress l) = true)
    /\ Put w (keyFor addr) body = (SOk tt, w').
Proof.
  unfold handlePutRule. destruct (ParseAddr ip) as [addr|]; [|done]. destruct (pr_body r) as [body|]; [|done].
  destruct (_ <? _); [done|]. unfold checkRuleFile.
  destruct (DecodeStrict_RuleFile body) as [rf|] eqn:Hd; [|done]. cbn [mbind result_bind].
  destruct (Compile rf) as [compiled|] eqn:Hc; [|done]. cbn [mbind result_bind].
  destruct (match rf_Egress rf with Some _ => _ | None => _ end) as [[]|] eqn:He; [|done]. cbn [mbind result_bind].
  destruct (CompileAuth (rf_Auth rf)) as [auth|] eqn:Ha; [|done]. cbn [mbind result_bind].
  destruct (if bool_decide _ then _ else _); [|done]. unfold Save.
  destruct (Put w (keyFor addr) body) as [[[]| |] w1] eqn:Hp; cbn; [|done..]. intros H.
  assert (w1 = w') as <- by congruence. exists addr, body, rf, compiled, auth. split_and!; auto.
  intros l Hl. rewrite Hl in He. by destruct (CompileEgress l).
Qed.

(** An override whose document compiles is answered whenever it can be read. *)
Lemma lookup_readable e w now addr body v rf compiled auth l :
  e_cacheTTL e = 0 -> Get w (keyFor addr) = SOk (body, v) -> Unmarshal_RuleFile body = Ok rf ->
  Compile rf = Ok compiled -> CompileAuth (rf_Auth rf) = Ok auth ->
  rf_Egress rf = Some l -> is_ok (CompileEgress l) = true ->
  exists rs e' w', Lookup e w now addr = (Ok rs, e', w').
Proof.
  intros Ht Hg Hu Hc Ha Hl He.
  assert (Hconfirm : exists rs e' w', confirmClient e w now addr = (Ok rs, e', w')).
  { unfold confirmClient. pose proof (stat_spec w (keyFor addr)) as Hs. rewrite Hg in Hs. rewrite Hs.
    destruct (client_hit _ v true) as [c|] eqn:Hh.
    { unfold client_hit in Hh. destruct (e_cache e !! addr) as [c'|]; [|done].
      destruct (bool_decide _ && _) eqn:Eb; [|done]. apply (inj Some) in Hh as ->.
      apply andb_true_iff in Eb as [_ Hx%Bool.eqb_prop]. unfold resolveClientCache. rewrite Hx. eauto. }
    cbn [negb]. unfold lookupIP, Load. rewrite Hg, Hu. cbn [wrap].
    assert (Hm : exists rf1 v1 e1 w1, mintFile e w addr rf v = (rf1, v1, e1, w1)
      /\ rf_Auth rf1 = rf_Auth rf /\ Compile rf1 = Compile rf /\ rf_Egress rf1 = rf_Egress rf).
    { unfold mintFile. case_bool_decide; [|by eauto 10].
      destruct (persist _ _ _ _ _) as [[v1 ex1] w1]. eexists _, _, _, _. split; [reflexivity|done]. }
    destruct Hm as (rf1 & v1 & e1 & w1 & -> & -> & -> & Hr). cbv zeta.
    destruct (match e_cache e !! addr with Some _ => _ | None => _ end); [eauto|].
    rewrite Ha, Hc. unfold resolveEgress. rewrite Hr, Hl. destruct (CompileEgress l); [|done]. eauto. }
  unfold Lookup, fresh. rewrite Ht. cbn [Z.ltb Z.compare andb]. by destruct (e_cache e !! addr).
Qed.


(** An accepted override takes effect at once and cannot lock its client out.
    After a PUT of one JSON document with its own egress list is answered 204,
    every lookup of that client by an engine without a cache TTL succeeds, for
    as long as the store can be read and holds the document. *)
Theorem accepted_override_served c w ip r w' body addr rf :
  handlePutRule c w ip r = (NoContent, w') ->
  pr_body r = Ok body -> ParseAddr ip = Ok addr ->
  is_ok (Unmarshal_any body) = true -> DecodeStrict_RuleFile body = Ok rf -> is_Some (rf_Egress rf) ->
  forall e w1 now v, e_cacheTTL e = 0 -> Get w1 (keyFor addr) = SOk (body, v) ->
  exists rs e' w1', Lookup e w1 now addr = (Ok rs, e', w1').
Proof.
  intros (addr' & body' & rf' & compiled & auth & Ha & Hb & Hd & Hc & Hau & He & _)%put_rule_inv Hb' Ha' Hw Hd' [l Hl].
  assert (addr' = addr /\ body' = body) as [-> ->] by (split; congruence).
  assert (rf' = rf) as -> by congruence. intros e w1 now v Ht Hg.
  eapply lookup_readable; eauto. by apply strict_decode_reads.
Qed.

(** A PUT of the default table, read back.  After a 204 the store holds the
    canonical text, GET returns exactly it, it validates again to itself, and the
    table it compiles to gives every IPv4 and IPv6 client the same rules as the
    document that was submitted. *)
Theorem put_default_reads_back c w r w' body :
  handlePutDefault c w r = (NoContent, w') -> pr_body r = Ok body -> table_printable body ->
  exists d d' text,
    CompileDefaultRuleset body = Ok (d, text)
    /\ handleGetDefault w' = Document text
    /\ CompileDefaultRuleset text = Ok (d', text)
    /\ forall addr, IsValid addr = true ->
       exists rs, DefaultLookup d addr = Some rs /\ DefaultLookup d' addr = Some rs.
Proof.
  unfold handlePutDefault. intros H Hb Hpr. rewrite Hb in H. destruct (_ <? _); [done|].
  destruct (CompileDefaultRuleset body) as [[d text]|] eqn:Hc; [|done].
  destruct (if bool_decide _ then _ else _); [|done]. unfold SaveDefault in H.
  destruct (Put w defaultKey text) as [[[]| |] w1] eqn:Hp; cbn in H; [|done..]. assert (w1 = w') as -> by congruence.
  pose proof Hc as (entries & all & He & _ & Hk & Hd & _)%CompileDefaultRuleset_inv.
  destruct (canonical_text_reloads _ _ _ _ Hc He (Hpr _ He)) as (d' & Hd' & Hsame).
  exists d, d', text. split_and!; auto.
  - unfold handleGetDefault. destruct (get_put _ _ _ _ Hp) as [v ->]. done.
  - intros addr Hv. rewrite Hsame by done.
    destruct (compileParsedEntries_lookup entries None d addr (kept_keys _ _ Hk) Hd Hv) as [rs ->]. eauto.
Qed.

End Correct.

(** ** Runs *)

Section Runs.
#[local] Existing Instance no_regex.
#[local] Existing Instance toy_digests.
#[local] Existing Instance ascii_table.
#[local] Existing Instance counter_uuids.

Definition no_brokers : Control := {| c_Outcall := None |}.
Definition put (body : bytes) : put_request := {| pr_body := Ok body; pr_validate := [] |}.

Definition own_egress : bytes := json "{'uuid':'u','http':[],'egress':[{'cidr':'0.0.0.0/0','action':'deny'}]}".

Definition after_put : fs :=
  snd (handlePutRule no_brokers (disk sample_table None) (str "10.1.2.7") (put own_egress)).

Lemma accepted_override_served_witness :
  exists rs e' w1', Lookup (NewRuleEngine 0) after_put 5 sample_client = (Ok rs, e', w1').
Proof.
  refine (accepted_override_served no_brokers (disk sample_table None) (str "10.1.2.7") (put own_egress) after_put
            own_egress sample_client (the zero_file (DecodeStrict_RuleFile own_egress)) _ _ _ _ _ _
            (NewRuleEngine 0) after_put 5 (the [] (match Get after_put (keyFor sample_client) with
                                                   | SOk (_, v) => Ok v | _ => Ok [] end)) _ _).
  6: vm_compute; eexists; reflexivity.
  all: vm_compute; reflexivity.
Defined.

Lemma sample_table_printable : table_printable sample_table.
Proof.
  intros entries He. assert (parseDefaultRuleset sample_table = Ok sample_entries) as Hs by (vm_compute; reflexivity).
  assert (entries = sample_entries) as -> by congruence. apply sample_printable.
Qed.

Lemma put_default_reads_back_witness :
  exists d d' text,
    CompileDefaultRuleset sample_table = Ok (d, text)
    /\ handleGetDefault (snd (handlePutDefault no_brokers (disk [] None) (put sample_table))) = Document text
    /\ CompileDefaultRuleset text = Ok (d', text)
    /\ forall addr, IsValid addr = true ->
       exists rs, DefaultLookup d addr = Some rs /\ DefaultLookup d' addr = Some rs.
Proof.
  refine (put_default_reads_back no_brokers (disk [] None) (put sample_table) _ sample_table _ _ sample_table_printable);
    vm_compute; reflexivity.
Defined.

Definition trailing : bytes := (own_egress ++ str " x")%list.

(** A PUT can lock its client out.  A document followed by other text is
    accepted with 204, because the decoder stops after the first value; the
    stored bytes no longer parse, so every lookup of the client fails, and with
    it every connection. *)
Theorem trailing_text_locks_client_out :
  let '(rep, w) := handlePutRule no_brokers (disk sample_table None) (str "10.1.2.7") (put trailing) in
  rep = NoContent /\ is_ok (fst (fst (Lookup (NewRuleEngine 0) w 5 sample_client))) = false.
Proof. vm_compute. split; reflexivity. Qed.

(** Rules put under an IPv4-mapped spelling of a client's address are
    accepted and never apply: they are stored under another key than the one the
    client, whose address is unmapped on arrival, is looked up by. *)
Theorem mapped_address_never_served :
  let '(rep, w) := handlePutRule no_brokers (disk sample_table None) (str "::ffff:10.1.2.7") (put own_egress) in
  rep = NoContent
  /\ handleGetRule w (str "::ffff:10.1.2.7") = Document own_egress
  /\ handleGetRule w (str "10.1.2.7") = Document (json "{'http':[]}")
  /\ fst (fst (Lookup (NewRuleEngine 0) w 5 sample_client))
     = fst (fst (Lookup (NewRuleEngine 0) (disk sample_table None) 5 sample_client)).
Proof. vm_compute. split_and!; reflexivity. Qed.

End Runs.
