(* ===== verification/GoUrl.v ===== *)
(** * URLs and paths

    The parts of Go's net/url and path/filepath the flags, the storage opener and
    the listeners use: [url.Parse] with its authority, escape and query rules,
    [Hostname], [Port] and [Query], and [filepath.Join]. *)

From S2P Require Import Prelude GoStrings Netip.

Open Scope Z_scope.

(** ** Escapes *)

Inductive encoding : Type := encodePath | encodeHost | encodeZone | encodeUserPassword | encodeQueryComponent.

#[export] Instance encoding_eq_dec : EqDecision encoding.
Proof. solve_decision. Defined.

Definition is_alnum (c : ascii) : bool := is_lower c || is_upper c || is_digit c.

(** [shouldEscape] for the two host modes. *)
Definition shouldEscape_host (c : ascii) : bool :=
  negb (is_alnum c || bool_decide (c ∈ str "!$&'()*+,;=:[]<>-_.~") || Ascii.eqb c "034").

Definition hex_byte (a b : ascii) : option Z :=
  match hex_val a, hex_val b with
  | Some x, Some y => Some (x * 16 + y)
  | _, _ => None
  end.

(** [unescape]. *)
Fixpoint unescape (mode : encoding) (s : bytes) : result bytes :=
  match s with
  | [] => Ok []
  | c :: t =>
      if Ascii.eqb c "%" then
        match t with
        | a :: b :: t' =>
            match hex_byte a b with
            | None => Error "invalid URL escape"
            | Some v =>
                if bool_decide (mode = encodeHost) && (v <? 128) && negb (v =? 0x25) then Error "invalid URL escape"
                else if bool_decide (mode = encodeZone) && negb (v =? 0x25) && negb (v =? 32)
                        && shouldEscape_host (byte_of v) then Error "invalid URL escape"
                else r ← unescape mode t'; Ok (byte_of v :: r)
            end
        | _ => Error "invalid URL escape"
        end
      else if Ascii.eqb c "+" && bool_decide (mode = encodeQueryComponent) then
        r ← unescape mode t; Ok (" "%char :: r)
      else if (bool_decide (mode = encodeHost) || bool_decide (mode = encodeZone)) && is_ascii c && shouldEscape_host c
      then Error "invalid character in host name"
      else r ← unescape mode t; Ok (c :: r)
  end.

(** ** Authorities *)

Definition validOptionalPort (p : bytes) : bool :=
  match p with
  | [] => true
  | c :: t => Ascii.eqb c ":" && forallb is_digit t
  end.

(** The position of "%25" in a bracketed host: what is before, and from it on. *)
Fixpoint cut_zone (s : bytes) : option (bytes * bytes) :=
  match s with
  | [] => None
  | c :: t =>
      if HasPrefix (str "%25") s then Some ([], s)
      else match cut_zone t with
           | Some (a, b) => Some (c :: a, b)
           | None => None
           end
  end.

(** A bracketed host: an IPv6 literal, perhaps with a zone. *)
Definition parseIPLiteral (hostname colonPort : bytes) : result bytes :=
  if negb (validOptionalPort colonPort) then Error "invalid port after host"
  else
    port ← unescape encodeHost colonPort;
    name ← (match cut_zone hostname with
            | Some (h, z) => a ← unescape encodeHost h; b ← unescape encodeZone z; Ok (a ++ b)%list
            | None => unescape encodeHost hostname
            end);
    addr ← wrap "invalid host" (ParseAddr name);
    if Is4 addr then Error "invalid IP-literal"
    else Ok (str "[" ++ name ++ str "]" ++ port)%list.

(** [parseHost], with the strict treatment of colons. *)
Definition parseHost (host : bytes) : result bytes :=
  match host with
  | "["%char :: t =>
      if bool_decide ("["%char ∈ t) then Error "invalid IP-literal"
      else match CutLast "]" t with
           | None => Error "missing ']' in host"
           | Some (hostname, colonPort) => parseIPLiteral hostname colonPort
           end
  | _ =>
      if bool_decide ("["%char ∈ host) then Error "invalid IP-literal"
      else
        match Cut ":" host with
        | Some (_, port) => if forallb is_digit port then unescape encodeHost host else Error "invalid port after host"
        | None => unescape encodeHost host
        end
  end.

Definition validUserinfo (s : bytes) : bool :=
  forallb (fun c => is_alnum c || bool_decide (c ∈ str "-._:~!$&'()*+,;=%@")) s.

(** A parsed URL; [u_User] is the user name and, if there is one, the password. *)
Record URL : Type := {
  u_Scheme : bytes;
  u_User : option (bytes * option bytes);
  u_Host : bytes;
  u_Path : bytes;
  u_RawQuery : bytes }.

Definition parseUserinfo (s : bytes) : result (bytes * option bytes) :=
  if negb (validUserinfo s) then Error "net/url: invalid userinfo"
  else match Cut ":" s with
       | None => u ← unescape encodeUserPassword s; Ok (u, None)
       | Some (u, p) => u ← unescape encodeUserPassword u; p ← unescape encodeUserPassword p; Ok (u, Some p)
       end.

Definition parseAuthority (authority : bytes) : result (option (bytes * option bytes) * bytes) :=
  match CutLast "@" authority with
  | None => host ← parseHost authority; Ok (None, host)
  | Some (info, host) => host ← parseHost host; user ← parseUserinfo info; Ok (Some user, host)
  end.

(** ** [url.Parse] *)

(** [getScheme]: the scheme, if the text starts with one, and the rest. *)
Fixpoint getScheme (first : bool) (s acc whole : bytes) : result (bytes * bytes) :=
  match s with
  | [] => Ok ([], whole)
  | c :: t =>
      if is_lower c || is_upper c then getScheme false t (acc ++ [c]) whole
      else if is_digit c || bool_decide (c ∈ str "+-.") then
        if first then Ok ([], whole) else getScheme false t (acc ++ [c]) whole
      else if Ascii.eqb c ":" then if first then Error "missing protocol scheme" else Ok (acc, t)
      else Ok ([], whole)
  end.

Definition is_ctl (c : ascii) : bool := (byte_val c <? 32) || (byte_val c =? 127).

(** The query split off: a lone trailing question mark is only dropped. *)
Definition cut_query (rest : bytes) : bytes * bytes :=
  match Cut "?" rest with
  | Some (r, q) => (r, q)
  | None => (rest, [])
  end.

Definition parse_rest (scheme rest : bytes) : result URL :=
  let '(rest, query) := cut_query rest in
  if negb (HasPrefix (str "/") rest) && bool_decide (scheme <> []) then
    Ok {| u_Scheme := scheme; u_User := None; u_Host := []; u_Path := []; u_RawQuery := query |}
  else if negb (HasPrefix (str "/") rest)
          && bool_decide (":"%char ∈ match Cut "/" rest with Some (seg, _) => seg | None => rest end) then
    Error "first path segment in URL cannot contain colon"
  else
    match CutPrefix (str "//") rest with
    | Some after =>
        if bool_decide (scheme = []) && HasPrefix (str "///") rest then
          path ← unescape encodePath rest;
          Ok {| u_Scheme := scheme; u_User := None; u_Host := []; u_Path := path; u_RawQuery := query |}
        else
          let '(authority, rest) := match Cut "/" after with
                                    | Some (a, r) => (a, "/"%char :: r)
                                    | None => (after, [])
                                    end in
          '(user, host) ← parseAuthority authority;
          path ← unescape encodePath rest;
          Ok {| u_Scheme := scheme; u_User := user; u_Host := host; u_Path := path; u_RawQuery := query |}
    | None =>
        path ← unescape encodePath rest;
        Ok {| u_Scheme := scheme; u_User := None; u_Host := []; u_Path := path; u_RawQuery := query |}
    end.

Definition Parse_url (raw : bytes) : result URL :=
  let '(u, frag) := match Cut "#" raw with Some (u, f) => (u, f) | None => (raw, []) end in
  url ← (if existsb is_ctl u then Error "net/url: invalid control character in URL"
         else if bool_decide (u = str "*") then
           Ok {| u_Scheme := []; u_User := None; u_Host := []; u_Path := u; u_RawQuery := [] |}
         else '(scheme, rest) ← getScheme true u [] u; parse_rest (map lower_byte scheme) rest);
  _ ← unescape encodePath frag;
  Ok url.

(** ** Views *)

Definition splitHostPort (hostPort : bytes) : bytes * bytes :=
  let '(host, port) := match CutLast ":" hostPort with
                       | Some (h, p) => if forallb is_digit p then (h, p) else (hostPort, [])
                       | None => (hostPort, [])
                       end in
  (match CutPrefix (str "[") host with
   | Some h => match CutSuffix (str "]") h with Some h => h | None => host end
   | None => host
   end, port).

Definition Hostname (u : URL) : bytes := fst (splitHostPort (u_Host u)).
Definition Port (u : URL) : bytes := snd (splitHostPort (u_Host u)).

(** [URL.Query()[name]]: members that do not parse are dropped. *)
Definition query_values (u : URL) (name : bytes) : list bytes :=
  omap (fun part =>
    if bool_decide (part = []) || bool_decide (";"%char ∈ part) then None
    else
      let '(k, v) := match Cut "=" part with Some kv => kv | None => (part, []) end in
      match unescape encodeQueryComponent k, unescape encodeQueryComponent v with
      | Ok k, Ok v => if bool_decide (k = name) then Some v else None
      | _, _ => None
      end) (Split "&" (u_RawQuery u)).

(** ** [filepath.Join] *)

Definition IsAbs (p : bytes) : bool := HasPrefix (str "/") p.

(** The elements of a path after [Clean]: the latest first. *)
Fixpoint clean_elems (rooted : bool) (acc : list bytes) (l : list bytes) : list bytes :=
  match l with
  | [] => acc
  | e :: t =>
      if bool_decide (e = []) || bool_decide (e = str ".") then clean_elems rooted acc t
      else if bool_decide (e = str "..") then
        match acc with
        | [] => clean_elems rooted (if rooted then [] else [e]) t
        | x :: acc' => if bool_decide (x = str "..") then clean_elems rooted (e :: acc) t
                       else clean_elems rooted acc' t
        end
      else clean_elems rooted (e :: acc) t
  end.

Definition path_Clean (p : bytes) : bytes :=
  let rooted := IsAbs p in
  let out := Join (str "/") (rev (clean_elems rooted [] (Split "/" p))) in
  if rooted then ("/"%char :: out) else if bool_decide (out = []) then str "." else out.

Definition path_Join (elems : list bytes) : bytes :=
  match List.filter (fun e => negb (bool_decide (e = []))) elems with
  | [] => []
  | l => path_Clean (Join (str "/") l)
  end.
