(* ===== verification/Config.v ===== *)
(** * The configuration (internal/config)

    What [Parse] makes of the flags once the flag library has filled them in: the
    parsers of sizes, addresses, trusted proxies and log settings, and the checks
    in their order.  Integers are the 64-bit ones of the code. *)

From stdpp Require Import numbers.
From S2P Require Import Prelude GoStrings Netip Encoding Headers Matcher HostIndex HttpError CacheControl GoUrl.
From S2P Require Import Schema Compile RuleSet MaskedKey ClientIP Authority.

Open Scope Z_scope.

(** ** Sizes *)

(** The suffix of a size: its factor, and the digits before it. *)
Definition size_suffix (s : bytes) : Z * bytes :=
  match rev s with
  | c :: r =>
      if Ascii.eqb c "k" || Ascii.eqb c "K" then (2 ^ 10, rev r)
      else if Ascii.eqb c "m" || Ascii.eqb c "M" then (2 ^ 20, rev r)
      else if Ascii.eqb c "g" || Ascii.eqb c "G" then (2 ^ 30, rev r)
      else (1, s)
  | [] => (1, s)
  end.

(** [ParseSize]. *)
Definition ParseSize (s : bytes) : result Z :=
  if bool_decide (s = []) then Error "empty size"
  else
    let '(mul, numPart) := size_suffix s in
    n ← wrap "invalid size" (Atoi (TrimSpace numPart));
    if n <? 0 then Error "invalid size: negative" else Ok (int64 (n * mul)).

(** ** Addresses *)

Record ConfigAddr : Type := { a_Scheme : bytes; a_Host : bytes; a_Port : Z; a_Path : bytes }.

Definition star_host (h : bytes) : bytes := if bool_decide (h = str "*") then [] else h.

Definition checked_port (portStr : bytes) : result Z :=
  match Atoi portStr with
  | Ok port => if (port <? 0) || (65535 <? port) then Error "bad port" else Ok port
  | Error _ => Error "bad port"
  end.

(** [config.ParseAddr]. *)
Definition ParseListenAddr (s : bytes) : result ConfigAddr :=
  u ← wrap "invalid address" (Parse_url s);
  if bool_decide (u_Scheme u = str "tcp") || bool_decide (u_Scheme u = str "udp") then
    let portStr := Port u in
    if bool_decide (portStr = []) then Error "missing port"
    else
      port ← checked_port portStr;
      Ok {| a_Scheme := u_Scheme u; a_Host := star_host (Hostname u); a_Port := port; a_Path := [] |}
  else if bool_decide (u_Scheme u = str "unix") then
    let path := (u_Host u ++ u_Path u)%list in
    if bool_decide (path = []) then Error "missing path"
    else Ok {| a_Scheme := u_Scheme u; a_Host := []; a_Port := 0; a_Path := path |}
  else if bool_decide (u_Scheme u = []) then Error "missing scheme (expected tcp://, udp://, or unix://)"
  else Error "unsupported scheme".

(** [Addr.Network] and [Addr.String]: the arguments of [net.Listen]. *)
Definition Network (a : ConfigAddr) : bytes := a_Scheme a.
Definition ConfigAddr_String (a : ConfigAddr) : bytes :=
  if bool_decide (a_Scheme a = str "unix") then a_Path a else JoinHostPort (a_Host a) (Itoa (a_Port a)).

Definition defaultHTTPSProxyName : bytes := str "Internal Proxy".
Definition defaultHTTPSProxyPort : Z := 443.

Record HTTPSProxyAddr : Type := { ha_Addr : ConfigAddr; ha_Names : list bytes }.

(** [ParseHTTPSProxyAddr]. *)
Definition ParseHTTPSProxyAddr (s : bytes) : result HTTPSProxyAddr :=
  u ← wrap "invalid address" (Parse_url s);
  if bool_decide (u_Scheme u <> str "tcp") then Error "unsupported scheme (need tcp://)"
  else
    port ← (if bool_decide (Port u = []) then Ok defaultHTTPSProxyPort else checked_port (Port u));
    let names := List.filter (fun n => negb (bool_decide (n = []))) (query_values u (str "cn")) in
    Ok {| ha_Addr := {| a_Scheme := str "tcp"; a_Host := star_host (Hostname u); a_Port := port; a_Path := [] |};
          ha_Names := match names with [] => [defaultHTTPSProxyName] | _ => names end |}.

(** ** Trusted proxies *)

Definition parseTrusted (part : bytes) : result Prefix :=
  let part := TrimSpace part in
  if bool_decide (part = []) then Error "invalid --trusted-proxies: empty entry"
  else match ParsePrefix part with
       | Ok p => Ok p
       | Error _ =>
           match ParseAddr part with
           | Ok addr => Ok (PrefixFrom addr (BitLen addr))
           | Error _ => Error "invalid --trusted-proxies entry: not a CIDR or IP"
           end
       end.

(** [ParseTrustedProxies]. *)
Definition ParseTrustedProxies (s : bytes) : result (list Prefix) :=
  if bool_decide (s = []) then Ok [] else mapM parseTrusted (Split "," s).

(** ** Logging *)

Definition LevelCritical : Z := 12.
Definition logLevels : list (bytes * Z) :=
  [(str "debug", -4); (str "info", 0); (str "warning", 4); (str "error", 8); (str "critical", LevelCritical)].

(** [LevelName]; a level of its own is rendered by slog. *)
Definition LevelName (slog_name : Z -> bytes) (level : Z) : bytes :=
  if level =? -4 then str "DEBUG" else if level =? 0 then str "INFO" else if level =? 4 then str "WARNING"
  else if level =? 8 then str "ERROR" else if level =? LevelCritical then str "CRITICAL" else slog_name level.

Definition ParseLogFormat (s : bytes) : result bytes :=
  if bool_decide (s ∈ [str "plain"; str "json"; str "cat"]) then Ok s
  else Error "must be one of plain, json, cat".

(** ** Durations and counts *)

Definition parsePositiveSeconds (seconds : Z) : result Z :=
  if seconds <=? 0 then Error "must be > 0" else Ok (int64 (seconds * Second)).

Definition parseNonNegativeSeconds (seconds : Z) : result Z :=
  if seconds <? 0 then Error "must be >= 0" else Ok (int64 (seconds * Second)).

Definition parsePositiveInt (n : Z) : result Z := if n <=? 0 then Error "must be > 0" else Ok n.

(** A float64 flag, as far as comparisons with 0 and 1 see it. *)
Inductive ratio : Type := NotANumber | Infinite (negative : bool) | Finite (num : Z) (den : positive).

Definition ratio_out_of_range (r : ratio) : bool :=
  match r with
  | NotANumber => false
  | Infinite _ => true
  | Finite n d => (n <? 0) || (Z.pos d <? n)
  end.

(** ** [Parse] *)

(** The environment variables [Parse] itself reads; empty when unset. *)
Record environ : Type := { env_HOME : bytes; env_XDG_CACHE_HOME : bytes; env_XDG_RUNTIME_DIR : bytes }.

(** [defaultStorageURL]. *)
Definition defaultStorageURL (env : environ) : bytes :=
  if IsAbs (env_XDG_CACHE_HOME env) then (str "posix://" ++ path_Join [env_XDG_CACHE_HOME env; str "mitmania"])%list
  else if bool_decide (env_HOME env = []) then []
  else (str "posix://" ++ path_Join [env_HOME env; str ".cache"; str "mitmania"])%list.

(** [defaultControlPath]. *)
Definition defaultControlPath (env : environ) : bytes :=
  if IsAbs (env_XDG_RUNTIME_DIR env) then path_Join [env_XDG_RUNTIME_DIR env; str "mitmania.sock"] else [].

Record cliFlags : Type := {
  f_Storage : bytes;
  f_ListenHTTPProxy : bytes; f_ListenHTTPSProxy : bytes; f_ListenHTTPTProxy : bytes; f_ListenHTTPRedirect : bytes;
  f_Control : bytes;
  f_ClusterKey : bytes;
  f_RulesCacheTTL : Z;
  f_HTTPHeaderLimit : bytes; f_HTTPBodyWindow : bytes;
  f_HTTPTimeoutConnect : Z; f_HTTPTimeoutRead : Z; f_HTTPConnectTries : Z; f_HTTPTimeoutClientRead : Z;
  f_HTTP2TimeoutConnect : Z; f_HTTP2TimeoutRead : Z; f_HTTP2ConnectTries : Z;
  f_OutcallTimeoutConnect : Z; f_OutcallTimeoutRead : Z; f_OutcallMaxInflight : Z;
  f_LogLevel : bytes; f_LogFormat : bytes; f_NoAccessLogs : bool;
  f_OtelMetrics : bytes; f_OtelTraces : bytes; f_OtelResource : bytes;
  f_OtelSampleRatio : ratio; f_OtelPropagateUpstream : bool; f_OtelContinueClient : bool;
  f_OtelSpoolMaxSize : bytes; f_OtelSpoolMaxAge : Z;
  f_TrustedProxies : bytes }.

Record Config : Type := {
  g_Storage : bytes;
  g_HTTPProxy : option ConfigAddr; g_HTTPSProxy : option HTTPSProxyAddr;
  g_HTTPTProxy : option ConfigAddr; g_HTTPRedirect : option ConfigAddr;
  g_Control : ConfigAddr;
  g_ClusterKey : bytes;
  g_RulesCacheTTL : Z;
  g_HTTPHeaderLimit : Z; g_HTTPBodyWindow : Z;
  g_HTTPConnectTimeout : Z; g_HTTPReadTimeout : Z; g_HTTPConnectTries : Z; g_HTTPClientReadTimeout : Z;
  g_HTTP2ConnectTimeout : Z; g_HTTP2ReadTimeout : Z; g_HTTP2ConnectTries : Z;
  g_OutcallConnectTimeout : Z; g_OutcallReadTimeout : Z; g_OutcallMaxInflight : Z;
  g_LogLevel : Z; g_LogFormat : bytes; g_NoAccessLogs : bool;
  g_OtelMetrics : bytes; g_OtelTraces : bytes; g_OtelResource : bytes;
  g_OtelSampleRatio : ratio; g_OtelPropagateUpstream : bool; g_OtelContinueClient : bool;
  g_OtelSpoolMaxSize : Z; g_OtelSpoolMaxAge : Z;
  g_TrustedProxies : list Prefix }.

Definition minClusterKeyBytes : nat := 32.
Definition storageSchemes : list bytes := [str "posix"; str "s3"].
Definition otelTraceSchemes : list bytes := [str "otlp+grpc"; str "otlp+http"; str "file"; str "stdout"].

(** An optional listener whose scheme must be one of [schemes]. *)
Definition listener (schemes : list bytes) (s : bytes) : result (option ConfigAddr) :=
  if bool_decide (s = []) then Ok None
  else
    addr ← ParseListenAddr s;
    if bool_decide (a_Scheme addr ∈ schemes) then Ok (Some addr) else Error "scheme not supported".

Definition parseStorage (env : environ) (cli : cliFlags) : result bytes :=
  let resolved := if bool_decide (f_Storage cli = []) then defaultStorageURL env else f_Storage cli in
  if bool_decide (resolved = []) then Error "--storage is required"
  else
    u ← wrap "--storage" (Parse_url resolved);
    if bool_decide (u_Scheme u ∈ storageSchemes) then Ok resolved else Error "--storage: unsupported scheme".

Definition parseClusterKey (s : bytes) : result bytes :=
  if bool_decide (s = []) then Error "--cluster-key is required"
  else
    key ← wrap "--cluster-key: invalid base64" (base64_decode true s);
    if (length key <? minClusterKeyBytes)%nat then Error "--cluster-key: decoded key is too short" else Ok key.

Definition parseControl (env : environ) (s : bytes) : result ConfigAddr :=
  spec ← (if bool_decide (s = []) then
            let path := defaultControlPath env in
            if bool_decide (path = []) then Error "--control is required" else Ok (str "unix://" ++ path)%list
          else Ok s);
  addr ← wrap "--control" (ParseListenAddr spec);
  if bool_decide (a_Scheme addr ∈ [str "tcp"; str "unix"]) then Ok addr
  else Error "--control: scheme not supported".

(** A telemetry sink: unset, or a URL of one of [schemes]. *)
Definition parseSink (schemes : list bytes) (s : bytes) : result bytes :=
  if bool_decide (s = []) then Ok s
  else match Parse_url s with
       | Ok u => if bool_decide (u_Scheme u ∈ schemes) then Ok s else Error "unsupported scheme"
       | Error _ => Error "unsupported scheme"
       end.

Definition positiveSize (s : bytes) : result Z :=
  n ← ParseSize s; if n <=? 0 then Error "must be > 0" else Ok n.

Section Parse.
Context `{UT : UnicodeTable}.

(** [ParseLogLevel]. *)
Definition ParseLogLevel (s : bytes) : result Z :=
  of_option "must be one of debug, info, warning, error, critical" (assoc (ToLower lower_run s) logLevels).

Definition Parse (env : environ) (cli : cliFlags) : result Config :=
  storage ← parseStorage env cli;
  key ← parseClusterKey (f_ClusterKey cli);
  tproxy ← wrap "--listen-http-tproxy" (listener [str "tcp"] (f_ListenHTTPTProxy cli));
  redirect ← wrap "--listen-http-redirect" (listener [str "tcp"] (f_ListenHTTPRedirect cli));
  proxy ← wrap "--listen-http-proxy" (listener [str "tcp"; str "unix"] (f_ListenHTTPProxy cli));
  https ← (if bool_decide (f_ListenHTTPSProxy cli = []) then Ok None
           else Some <$> wrap "--listen-https-proxy" (ParseHTTPSProxyAddr (f_ListenHTTPSProxy cli)));
  _ ← (if negb (bool_decide (is_Some proxy)) && negb (bool_decide (is_Some https))
          && negb (bool_decide (is_Some tproxy)) && negb (bool_decide (is_Some redirect))
       then Error "no data listeners configured" else Ok tt);
  control ← parseControl env (f_Control cli);
  ttl ← wrap "--rules-cache-ttl" (parseNonNegativeSeconds (f_RulesCacheTTL cli));
  headerLimit ← wrap "--http-header-limit" (positiveSize (f_HTTPHeaderLimit cli));
  bodyWindow ← wrap "--http-body-window"
    (n ← ParseSize (f_HTTPBodyWindow cli); if n <? 0 then Error "must be >= 0" else Ok n);
  connect ← wrap "--http-timeout-connect" (parsePositiveSeconds (f_HTTPTimeoutConnect cli));
  read ← wrap "--http-timeout-read" (parsePositiveSeconds (f_HTTPTimeoutRead cli));
  tries ← wrap "--http-connect-tries" (parsePositiveInt (f_HTTPConnectTries cli));
  clientRead ← wrap "--http-timeout-client-read" (parsePositiveSeconds (f_HTTPTimeoutClientRead cli));
  connect2 ← wrap "--http2-timeout-connect" (parsePositiveSeconds (f_HTTP2TimeoutConnect cli));
  read2 ← wrap "--http2-timeout-read" (parsePositiveSeconds (f_HTTP2TimeoutRead cli));
  tries2 ← wrap "--http2-connect-tries" (parsePositiveInt (f_HTTP2ConnectTries cli));
  outConnect ← wrap "--outcall-timeout-connect" (parsePositiveSeconds (f_OutcallTimeoutConnect cli));
  outRead ← wrap "--outcall-timeout-read" (parsePositiveSeconds (f_OutcallTimeoutRead cli));
  outMax ← wrap "--outcall-max-inflight" (parsePositiveInt (f_OutcallMaxInflight cli));
  level ← wrap "--log-level" (ParseLogLevel (f_LogLevel cli));
  format ← wrap "--log-format" (ParseLogFormat (f_LogFormat cli));
  metrics ← wrap "--otel-metrics" (parseSink [str "http"; str "unix"] (f_OtelMetrics cli));
  traces ← wrap "--otel-traces" (parseSink otelTraceSchemes (f_OtelTraces cli));
  _ ← (if ratio_out_of_range (f_OtelSampleRatio cli) then Error "--otel-sample-ratio: must be in [0,1]" else Ok tt);
  spoolSize ← wrap "--otel-spool-max-size" (positiveSize (f_OtelSpoolMaxSize cli));
  _ ← (if f_OtelSpoolMaxAge cli <=? 0 then Error "--otel-spool-max-age: must be > 0" else Ok tt);
  trusted ← wrap "--trusted-proxies" (ParseTrustedProxies (f_TrustedProxies cli));
  Ok {| g_Storage := storage; g_HTTPProxy := proxy; g_HTTPSProxy := https; g_HTTPTProxy := tproxy;
        g_HTTPRedirect := redirect; g_Control := control; g_ClusterKey := key; g_RulesCacheTTL := ttl;
        g_HTTPHeaderLimit := headerLimit; g_HTTPBodyWindow := bodyWindow; g_HTTPConnectTimeout := connect;
        g_HTTPReadTimeout := read; g_HTTPConnectTries := tries; g_HTTPClientReadTimeout := clientRead;
        g_HTTP2ConnectTimeout := connect2; g_HTTP2ReadTimeout := read2; g_HTTP2ConnectTries := tries2;
        g_OutcallConnectTimeout := outConnect; g_OutcallReadTimeout := outRead; g_OutcallMaxInflight := outMax;
        g_LogLevel := level; g_LogFormat := format; g_NoAccessLogs := f_NoAccessLogs cli;
        g_OtelMetrics := metrics; g_OtelTraces := traces; g_OtelResource := f_OtelResource cli;
        g_OtelSampleRatio := f_OtelSampleRatio cli; g_OtelPropagateUpstream := f_OtelPropagateUpstream cli;
        g_OtelContinueClient := f_OtelContinueClient cli; g_OtelSpoolMaxSize := spoolSize;
        g_OtelSpoolMaxAge := f_OtelSpoolMaxAge cli; g_TrustedProxies := trusted |}.

End Parse.

(** ** Sizes *)

(** Text without spaces is not trimmed. *)
Definition plain_char (c : ascii) : bool := is_ascii c && negb (is_space c).

Lemma trim_plain sp2 sp3 s :
  (forall c d, is_ascii c = true -> is_ascii d = true -> sp2 c d = false) ->
  (forall c d e, is_ascii c = true -> is_ascii d = true -> sp3 c d e = false) ->
  forallb plain_char s = true -> trim_spaces sp2 sp3 s = s.
Proof.
  intros H2 H3. destruct s as [|c [|d [|e t]]]; cbn; unfold plain_char; rewrite ?andb_true_iff, ?negb_true_iff; try done.
  - by intros [[_ ->] _].
  - intros ([Hc ->] & [Hd _] & _). by rewrite H2.
  - intros ([Hc ->] & [Hd _] & _). by rewrite H2, H3.
Qed.

Lemma TrimSpace_plain s : forallb plain_char s = true -> TrimSpace s = s.
Proof.
  intros Hs. unfold TrimSpace.
  assert (Hlt : forall c, is_ascii c = true -> byte_val c < 128) by (intros c; unfold is_ascii; lia).
  rewrite (trim_plain is_space2 is_space3 s); [|unfold is_space2|unfold is_space3|done].
  - rewrite trim_plain, rev_involutive; [done|unfold is_space2|unfold is_space3|].
    + intros c d Hc%Hlt Hd%Hlt. lia.
    + intros c d e Hc%Hlt Hd%Hlt. lia.
    + rewrite forallb_forall in *. intros c Hc. apply Hs. by apply in_rev.
  - intros c d Hc%Hlt Hd%Hlt. lia.
  - intros c d e Hc%Hlt Hd%Hlt. lia.
Qed.

Lemma digits_plain s : forallb is_digit s = true -> forallb plain_char s = true.
Proof.
  rewrite !forallb_forall. intros Hs c Hc. apply Hs in Hc. revert Hc.
  by destruct c as [[] [] [] [] [] [] [] []].
Qed.

(** A size with a suffix is the number times its factor, when that fits an
    int; beyond, the product wraps around silently: a header limit of
    17179869185g is accepted as one gibibyte, and 8589934592g as a negative one. *)
Theorem size_exact_or_wraps n c mul :
  0 <= n < 2 ^ 63 -> size_suffix [c] = (mul, []) ->
  ParseSize (Itoa n ++ [c]) = Ok (int64 (n * mul))
  /\ (n * mul < 2 ^ 63 -> int64 (n * mul) = n * mul)
  /\ ParseSize (str "17179869185g") = Ok (2 ^ 30)
  /\ ParseSize (str "8589934592g") = Ok (- 2 ^ 63).
Proof.
  intros Hn Hc. split_and!; [| |vm_compute; reflexivity|vm_compute; reflexivity].
  - unfold ParseSize. rewrite bool_decide_false by (by destruct (Itoa n)).
    assert (size_suffix (Itoa n ++ [c]) = (mul, Itoa n)) as ->.
    { unfold size_suffix in *. rewrite rev_app_distr. cbn [rev app] in *.
      destruct (_ || _) in Hc |- *; [|destruct (_ || _) in Hc |- *; [|destruct (_ || _) in Hc |- *; [|done]]];
        rewrite rev_involutive; congruence. }
    rewrite TrimSpace_plain by (apply digits_plain, Itoa_digits; lia). rewrite Atoi_Itoa by done.
    cbn [wrap mbind result_bind]. destruct (Z.ltb_spec n 0); [lia|done].
  - intros Hlt. assert (0 < mul).
    { unfold size_suffix in Hc. cbn [rev app] in Hc.
      destruct (_ || _) in Hc; [|destruct (_ || _) in Hc; [|destruct (_ || _) in Hc]]; congruence || (injection Hc as <-; lia). }
    unfold int64. rewrite Z.mod_small; nia.
Qed.

Lemma size_exact_or_wraps_witness : ParseSize (str "64k") = Ok 65536.
Proof.
  destruct (size_exact_or_wraps 64 "k" (2 ^ 10)) as (H & Hx & _); [lia|reflexivity|].
  rewrite Hx in H by lia. exact H.
Defined.

(** ** The configuration is well formed *)

Definition addr_valid (schemes : list bytes) (a : ConfigAddr) : Prop :=
  a_Scheme a ∈ schemes /\ 0 <= a_Port a <= 65535 /\ (a_Scheme a = str "unix" -> a_Path a <> []).

(** Whole seconds in nanoseconds, at the width of a [time.Duration]. *)
Definition timeout_of (seconds d : Z) : Prop :=
  0 < seconds /\ d = int64 (seconds * Second) /\ (seconds <= 9223372036 -> 0 < d).

Record config_valid (cli : cliFlags) (g : Config) : Prop := {
  v_proxy a : g_HTTPProxy g = Some a -> addr_valid [str "tcp"; str "unix"] a;
  v_tproxy a : g_HTTPTProxy g = Some a -> addr_valid [str "tcp"] a;
  v_redirect a : g_HTTPRedirect g = Some a -> addr_valid [str "tcp"] a;
  v_https a : g_HTTPSProxy g = Some a -> addr_valid [str "tcp"] (ha_Addr a) /\ ha_Names a <> [];
  v_control : addr_valid [str "tcp"; str "unix"] (g_Control g);
  v_listens : is_Some (g_HTTPProxy g) \/ is_Some (g_HTTPSProxy g) \/ is_Some (g_HTTPTProxy g)
              \/ is_Some (g_HTTPRedirect g);
  v_key : (32 <= length (g_ClusterKey g))%nat;
  v_sizes : 0 < g_HTTPHeaderLimit g /\ 0 <= g_HTTPBodyWindow g /\ 0 < g_OtelSpoolMaxSize g;
  v_counts : 0 < g_HTTPConnectTries g /\ 0 < g_HTTP2ConnectTries g /\ 0 < g_OutcallMaxInflight g;
  v_timeouts : timeout_of (f_HTTPTimeoutConnect cli) (g_HTTPConnectTimeout g)
               /\ timeout_of (f_HTTPTimeoutRead cli) (g_HTTPReadTimeout g)
               /\ timeout_of (f_HTTPTimeoutClientRead cli) (g_HTTPClientReadTimeout g)
               /\ timeout_of (f_HTTP2TimeoutConnect cli) (g_HTTP2ConnectTimeout g)
               /\ timeout_of (f_HTTP2TimeoutRead cli) (g_HTTP2ReadTimeout g)
               /\ timeout_of (f_OutcallTimeoutConnect cli) (g_OutcallConnectTimeout g)
               /\ timeout_of (f_OutcallTimeoutRead cli) (g_OutcallReadTimeout g);
  v_level : g_LogLevel g ∈ map snd logLevels;
  v_format : g_LogFormat g ∈ [str "plain"; str "json"; str "cat"] }.

Lemma wrap_Ok {A} m (r : result A) x : wrap m r = Ok x -> r = Ok x.
Proof. destruct r; cbn; congruence. Qed.

Lemma checked_port_range p n : checked_port p = Ok n -> 0 <= n <= 65535.
Proof.
  unfold checked_port. destruct (Atoi p) as [m|]; [|done].
  destruct (Z.ltb_spec m 0), (Z.ltb_spec 65535 m); cbn; try done. intros [= <-]. lia.
Qed.

Lemma ParseListenAddr_valid s a schemes :
  ParseListenAddr s = Ok a -> a_Scheme a ∈ schemes -> addr_valid schemes a.
Proof.
  unfold ParseListenAddr. intros H Hs. apply result_bind_ok in H as (u & _ & H).
  destruct (_ || _) eqn:Htcp.
  - case_bool_decide; [done|]. apply result_bind_ok in H as (p & Hp & H). apply (inj Ok) in H as <-.
    apply checked_port_range in Hp. split_and!; cbn in *; auto; try lia. intros E. rewrite E in Htcp. done.
  - case_bool_decide; [|by case_bool_decide]. case_bool_decide; [done|]. apply (inj Ok) in H as <-.
    split_and!; cbn in *; auto; lia.
Qed.

Lemma listener_valid schemes s o a : listener schemes s = Ok o -> o = Some a -> addr_valid schemes a.
Proof.
  unfold listener. case_bool_decide as Hs; [by intros [= <-]|]. intros H ->. apply result_bind_ok in H as (b & Hb & H).
  case_bool_decide; [|done]. assert (b = a) as -> by congruence. by eapply ParseListenAddr_valid.
Qed.

Lemma https_valid s a : ParseHTTPSProxyAddr s = Ok a -> addr_valid [str "tcp"] (ha_Addr a) /\ ha_Names a <> [].
Proof.
  unfold ParseHTTPSProxyAddr. intros H. apply result_bind_ok in H as (u & _ & H). case_bool_decide; [done|].
  apply result_bind_ok in H as (p & Hp & H). apply (inj Ok) in H as <-. cbn. split.
  - split_and!; cbn; [apply list_elem_of_here| | |done];
      (case_bool_decide; [apply (inj Ok) in Hp as <-; unfold defaultHTTPSProxyPort; lia|
                          apply checked_port_range in Hp; lia]).
  - by destruct (List.filter _ _).
Qed.

Lemma parseControl_valid env s a : parseControl env s = Ok a -> addr_valid [str "tcp"; str "unix"] a.
Proof.
  unfold parseControl. intros H. apply result_bind_ok in H as (spec & _ & H).
  apply result_bind_ok in H as (b & Hb%wrap_Ok & H). case_bool_decide; [|done].
  apply (inj Ok) in H as <-. by eapply ParseListenAddr_valid.
Qed.

Lemma timeout_valid n d : parsePositiveSeconds n = Ok d -> timeout_of n d.
Proof.
  unfold parsePositiveSeconds, timeout_of. destruct (Z.leb_spec n 0); [done|]. intros [= <-].
  split_and!; auto. intros Hn. unfold int64, Second. rewrite Z.mod_small; lia.
Qed.

Lemma count_valid n m : parsePositiveInt n = Ok m -> 0 < m.
Proof. unfold parsePositiveInt. destruct (Z.leb_spec n 0); [done|]. by intros [= <-]. Qed.

Lemma size_valid s n : positiveSize s = Ok n -> 0 < n.
Proof.
  unfold positiveSize. intros H. apply result_bind_ok in H as (m & _ & H).
  destruct (Z.leb_spec m 0); [done|]. by apply (inj Ok) in H as <-.
Qed.

Lemma key_valid s k : parseClusterKey s = Ok k -> (32 <= length k)%nat.
Proof.
  unfold parseClusterKey, minClusterKeyBytes. case_bool_decide as Hs; [done|]. intros H.
  apply result_bind_ok in H as (x & _ & H).
  destruct (Nat.ltb_spec (length x) 32); [done|]. by apply (inj Ok) in H as <-.
Qed.

Section Valid.
Context `{UT : UnicodeTable}.

Lemma level_valid s n : ParseLogLevel s = Ok n -> n ∈ map snd logLevels.
Proof.
  unfold ParseLogLevel. destruct (assoc _ logLevels) as [m|] eqn:E; [|done]. intros [= <-].
  revert E. unfold logLevels. cbn [assoc map snd fst]. repeat (case_bool_decide; [intros [= <-]; set_solver|]). done.
Qed.

Lemma format_valid s f : ParseLogFormat s = Ok f -> f ∈ [str "plain"; str "json"; str "cat"].
Proof. unfold ParseLogFormat. case_bool_decide; [|done]. by intros H'; apply (inj Ok) in H' as <-. Qed.

Create HintDb config.
#[local] Hint Resolve listener_valid https_valid parseControl_valid timeout_valid count_valid size_valid
  key_valid level_valid format_valid : config.

Lemma Parse_valid env cli g : Parse env cli = Ok g -> config_valid cli g.
Proof.
  unfold Parse. intros H.
  repeat (apply result_bind_ok in H as (? & ?E & H)).
  repeat match goal with E : wrap _ _ = Ok _ |- _ => apply wrap_Ok in E end.
  apply (inj Ok) in H as <-.
  split; cbn; eauto 6 with config.
  - intros a ->. destruct (bool_decide (f_ListenHTTPSProxy cli = [])); [done|].
    destruct (wrap _ (ParseHTTPSProxyAddr _)) as [b|] eqn:Hb; [|done].
    apply wrap_Ok in Hb. assert (b = a) as -> by (cbn in E4; congruence). eauto with config.
  - repeat case_bool_decide; cbn in E5; auto; done.
  - split_and!; eauto with config. apply result_bind_ok in E9 as (n & _ & E9).
    destruct (Z.ltb_spec n 0); [done|]. by apply (inj Ok) in E9 as <-.
  - split_and!; eauto with config.
Qed.

End Valid.

Section ConfigSamples.
#[local] Existing Instance ascii_table.

(** The documented defaults, one explicit proxy and a control socket. *)
Definition flags_at (storage : bytes) (timeout_read : Z) (ratio : ratio) : cliFlags := {|
  f_Storage := storage; f_ListenHTTPProxy := str "tcp://*:3128"; f_ListenHTTPSProxy := str "tcp://[::1]/?cn=a&cn=b%20c";
  f_ListenHTTPTProxy := []; f_ListenHTTPRedirect := []; f_Control := str "unix://./c.sock";
  f_ClusterKey := (repeat "A"%char 43 ++ str "=")%list; f_RulesCacheTTL := 1;
  f_HTTPHeaderLimit := str "64k"; f_HTTPBodyWindow := str "64k"; f_HTTPTimeoutConnect := 2;
  f_HTTPTimeoutRead := timeout_read; f_HTTPConnectTries := 3; f_HTTPTimeoutClientRead := 30;
  f_HTTP2TimeoutConnect := 2; f_HTTP2TimeoutRead := 60; f_HTTP2ConnectTries := 3;
  f_OutcallTimeoutConnect := 1; f_OutcallTimeoutRead := 2; f_OutcallMaxInflight := 64;
  f_LogLevel := str "INFO"; f_LogFormat := str "plain"; f_NoAccessLogs := false; f_OtelMetrics := [];
  f_OtelTraces := []; f_OtelResource := str "service.name=mitmania"; f_OtelSampleRatio := ratio;
  f_OtelPropagateUpstream := false; f_OtelContinueClient := false; f_OtelSpoolMaxSize := str "128m";
  f_OtelSpoolMaxAge := 3600 * Second; f_TrustedProxies := str "10.0.0.0/8, 192.0.2.1" |}.

Definition flags (timeout_read : Z) (ratio : ratio) : cliFlags := flags_at (str "s3://k:s@host/?bucket=b") timeout_read ratio.

Definition no_env : environ := {| env_HOME := []; env_XDG_CACHE_HOME := []; env_XDG_RUNTIME_DIR := [] |}.


(** Two values pass the range checks and are out of range.  A timeout of
    9223372037 seconds, checked to be positive, becomes a negative duration; a
    sampling ratio that is not a number, checked to lie in [0,1], is accepted. *)
Theorem range_checks_passed_out_of_range :
  (exists g, Parse no_env (flags 9223372037 (Finite 1 10)) = Ok g /\ g_HTTPReadTimeout g < 0)
  /\ (exists g, Parse no_env (flags 60 NotANumber) = Ok g /\ g_OtelSampleRatio g = NotANumber).
Proof. split; (eexists; split; [vm_compute; reflexivity|]); [vm_compute|]; reflexivity. Qed.

End ConfigSamples.

(** ** Trusted proxies *)

Lemma Contains_host b a :
  IsValid b = true -> Zone b = [] -> addr_wf b -> addr_wf a ->
  Contains (PrefixFrom b (BitLen b)) a = bool_decide (a = b).
Proof.
  intros Hv Hz Hb Ha. unfold Contains, PrefixFrom, prefix_valid. cbn [pfx_bits pfx_addr]. rewrite Hv.
  assert (Hbits : (0 <=? BitLen b) && (BitLen b <=? BitLen b) = true) by (destruct b; done).
  cbn [andb]. rewrite Hbits. destruct b as [|v|v z]; [done|..]; cbn in Hz; subst;
    (destruct a as [|v'|v' z']; cbn [Zone IsValid BitLen addr_val];
      try (rewrite ?andb_false_r; cbn; symmetry; apply bool_decide_eq_false; congruence)).
  - cbn. rewrite Z.shiftr_0_r. destruct (Z.eqb_spec (Z.lxor v' v) 0) as [E|E].
    + apply Z.lxor_eq in E as ->. symmetry. by apply bool_decide_eq_true.
    + symmetry. apply bool_decide_eq_false. intros [= ->]. by rewrite Z.lxor_nilpotent in E.
  - cbn. rewrite Z.shiftr_0_r. case_bool_decide as Hz'; cbn.
    + subst. destruct (Z.eqb_spec (Z.lxor v' v) 0) as [E|E].
      * apply Z.lxor_eq in E as ->. symmetry. by apply bool_decide_eq_true.
      * symmetry. apply bool_decide_eq_false. intros [= ->]. by rewrite Z.lxor_nilpotent in E.
    + symmetry. apply bool_decide_eq_false. intros [= -> ->]. done.
Qed.

Lemma addr_char_plain c : addr_char c -> plain_char c = true /\ c <> ","%char /\ c <> "/"%char.
Proof.
  intros [[d Hd]|[->| ->]]; [|done..]. revert Hd. destruct c as [[] [] [] [] [] [] [] []]; vm_compute; done.
Qed.

Lemma parseTrusted_addr b :
  IsValid b = true -> addr_wf b -> Zone b = [] -> parseTrusted (AddrString b) = Ok (PrefixFrom b (BitLen b)).
Proof.
  intros Hv Hwf Hz. pose proof (AddrString_chars b Hv Hwf Hz) as Hc. rewrite Forall_forall in Hc. unfold parseTrusted.
  rewrite TrimSpace_plain by (apply forallb_forall; intros c Hin%list_elem_of_In; by apply addr_char_plain, Hc).
  pose proof (ParseAddr_AddrString b Hv Hwf) as Hp.
  case_bool_decide as Hn; [by rewrite Hn in Hp|].
  assert (CutLast "/" (AddrString b) = None) as Hcut.
  { apply CutLast_None. intros Hin. apply Hc, addr_char_plain in Hin as (_ & _ & ?). done. }
  unfold ParsePrefix. by rewrite Hcut, Hp.
Qed.

(** A list of plain addresses trusts exactly those: --trusted-proxies with
    the printed form of some addresses, separated by commas, is accepted, and a
    peer is trusted if and only if its address is one of them. *)
Theorem trusted_addresses_exact l :
  l <> [] -> Forall (fun b => IsValid b = true /\ addr_wf b /\ Zone b = []) l ->
  exists ps, ParseTrustedProxies (Join (str ",") (map AddrString l)) = Ok ps
    /\ forall a, addr_wf a -> isTrustedPeer a ps = true <-> a ∈ l.
Proof.
  intros Hne Hl. exists (map (fun b => PrefixFrom b (BitLen b)) l). split.
  - unfold ParseTrustedProxies.
    assert (Hparts : Forall (fun p => ","%char ∉ p) (map AddrString l)).
    { apply Forall_map. eapply Forall_impl; [exact Hl|]. intros b (Hv & Hwf & Hz) Hin.
      pose proof (AddrString_chars b Hv Hwf Hz) as Hc. rewrite Forall_forall in Hc.
      by apply Hc, addr_char_plain in Hin as (_ & ? & _). }
    case_bool_decide as Hj.
    { destruct l as [|b l]; [done|]. inversion_clear Hl as [|? ? (Hv & Hwf & _) _].
      pose proof (ParseAddr_AddrString b Hv Hwf) as Hp.
      destruct (AddrString b) eqn:E; [done|]. cbn [map] in Hj. rewrite E in Hj. by destruct (map AddrString l). }
    rewrite Split_Join; [|by destruct l|done]. clear Hparts Hj Hne.
    induction Hl as [|b l (Hv & Hwf & Hz) _ IH]; [done|]. cbn [map mapM]. rewrite parseTrusted_addr by done.
    cbn [mbind result_bind]. by rewrite IH.
  - intros a Ha. unfold isTrustedPeer. rewrite existsb_exists. rewrite Forall_forall in Hl. split.
    + intros (p & Hin & Hc). apply in_map_iff in Hin as (b & <- & Hb). apply list_elem_of_In in Hb.
      destruct (Hl b Hb) as (Hv & Hwf & Hz). rewrite Contains_host in Hc by done. by apply bool_decide_eq_true in Hc as ->.
    + intros Hin. destruct (Hl a Hin) as (Hv & Hwf & Hz). exists (PrefixFrom a (BitLen a)).
      split; [apply in_map_iff; eexists; split; [done|by apply list_elem_of_In]|].
      rewrite Contains_host by done. by apply bool_decide_eq_true.
Qed.

Lemma trusted_addresses_exact_witness :
  exists ps, ParseTrustedProxies (str "10.0.0.1,::1") = Ok ps
    /\ isTrustedPeer (Addr6 1 []) ps = true.
Proof.
  destruct (trusted_addresses_exact [Addr4 (10 * 2 ^ 24 + 1); Addr6 1 []]) as (ps & Hp & Ht).
  - discriminate.
  - repeat constructor; cbn; lia.
  - exists ps. split; [exact Hp|]. apply Ht; [cbn; lia|]. right. left.
Defined.
