(* ===== verification/X509.v ===== *)
(** * Certificates (what internal/cert uses of crypto/x509, crypto/ecdsa, crypto/hkdf, net)

    A certificate is the record the code reads; [CreateCertificate] builds the
    certificate of a template the way crypto/x509 does, field by field and
    extension by extension.  The mathematics of the signatures ([Crypto]) and the
    DER encoding ([X509]) are classes: [CryptoSpec] and [X509Spec] state that a
    signature made with a key checks under its public half, and that what was
    encoded is parsed back. *)

From S2P Require Import Prelude GoStrings Netip Encoding.

Open Scope Z_scope.

(** ** Keys *)

Inductive curve : Type := P224 | P256 | P384 | P521.
#[export] Instance curve_eq_dec : EqDecision curve.
Proof. solve_decision. Defined.

(** [ecdsa.PrivateKey]: its curve and scalar. *)
Record PrivateKey : Type := { k_Curve : curve; k_D : Z }.

(** [Certificate.PublicKey]: an ECDSA point, a key of another kind, or one of an
    algorithm x509 does not know. *)
Inductive PublicKey : Type :=
  | ECDSAKey (c : curve) (point : bytes)
  | OtherKey (der : bytes)
  | UnknownKey.
#[export] Instance PublicKey_eq_dec : EqDecision PublicKey.
Proof. solve_decision. Defined.

(** The order of P-256's base point. *)
Definition P256_N : Z := 0xffffffff00000000ffffffffffffffffbce6faada7179e84f3b9cac2fc632551.

(** Scalar multiplication, signing (with fresh randomness, numbered), checking,
    the two halves of HKDF-SHA256, and the key identifier x509 derives. *)
Class Crypto : Type := {
  ScalarBaseMult : curve -> Z -> bytes;
  SignASN1 : PrivateKey -> bytes -> nat -> bytes;
  checkSignature : PublicKey -> bytes -> bytes -> bool;
  hkdf_Extract : bytes -> bytes -> result bytes;
  hkdf_Expand : bytes -> bytes -> Z -> result bytes;
  keyIdentifier : PublicKey -> bytes }.

(** [key.PublicKey]. *)
Definition Public `{Crypto} (k : PrivateKey) : PublicKey :=
  ECDSAKey (k_Curve k) (ScalarBaseMult (k_Curve k) (k_D k)).

Class CryptoSpec `{CR : Crypto} : Prop := {
  check_sign k m r : checkSignature (Public k) m (SignASN1 k m r) = true;
  check_unknown m s : checkSignature UnknownKey m s = false;
  extract_ok secret salt : exists prk, hkdf_Extract secret salt = Ok prk;
  expand_ok prk info n : 0 <= n <= 255 * 32 ->
    exists okm, hkdf_Expand prk info n = Ok okm /\ Z.of_nat (length okm) = n }.

(** [ecdsa.ParseRawPrivateKey] on P-256: 32 bytes, a scalar in [1, n-1]. *)
Definition ParseRawPrivateKey (raw : list Z) : result PrivateKey :=
  if negb (length raw =? 32)%nat then Error "ecdsa: invalid private key length"
  else if (of_be raw <? 1) || (P256_N <=? of_be raw) then Error "ecdsa: invalid private key"
  else Ok {| k_Curve := P256; k_D := of_be raw |}.

(** ** net.IP *)

(** [net.IP]: four or sixteen bytes. *)
Abbreviation IP := (list Z).

Definition v4InV6Prefix : list Z := [0; 0; 0; 0; 0; 0; 0; 0; 0; 0; 255; 255].

Definition To4 (ip : IP) : option IP :=
  if (length ip =? 4)%nat then Some ip
  else if (length ip =? 16)%nat && bool_decide (take 12 ip = v4InV6Prefix) then Some (drop 12 ip)
  else None.

(** [net.ParseIP]: no zone, and always the sixteen-byte form. *)
Definition ParseIP (s : bytes) : option IP :=
  match ParseAddr s with
  | Ok (Addr4 v) => Some (v4InV6Prefix ++ be_bytes 4 v)%list
  | Ok (Addr6 v []) => Some (be_bytes 16 v)
  | _ => None
  end.

(** [IP.String]. *)
Definition IP_String (ip : IP) : bytes :=
  match To4 ip with
  | Some p4 => AddrString (Addr4 (of_be p4))
  | None =>
      if (length ip =? 0)%nat then str "<nil>"
      else if (length ip =? 16)%nat then AddrString (Addr6 (of_be ip) [])
      else (str "?" ++ hex_encode (map byte_of ip))%list
  end.

(** ** Certificates *)

(** [pkix.Name], the attributes that are encoded again. *)
Record Name : Type := {
  Country : list bytes; Organization : list bytes; OrganizationalUnit : list bytes;
  Locality : list bytes; Province : list bytes; StreetAddress : list bytes;
  PostalCode : list bytes; NameSerial : bytes; CommonName : bytes }.

(** [pkix.Name{CommonName: cn}]. *)
Definition common_name (cn : bytes) : Name :=
  {| Country := []; Organization := []; OrganizationalUnit := []; Locality := []; Province := [];
     StreetAddress := []; PostalCode := []; NameSerial := []; CommonName := cn |}.

Abbreviation oid := (list Z).

Record Extension : Type := { ext_Id : oid; ext_Critical : bool; ext_Value : bytes }.

(** The subject alternative names; a URI by its text. *)
Record SANs : Type := {
  DNSNames : list bytes; EmailAddresses : list bytes; IPAddresses : list IP; URIs : list bytes }.

Definition no_sans : SANs :=
  {| DNSNames := []; EmailAddresses := []; IPAddresses := []; URIs := [] |}.

(** The fields a certificate takes from its extensions. *)
Record ExtInfo : Type := {
  KeyUsage : Z; ExtKeyUsage : list Z; UnknownExtKeyUsage : list oid;
  BasicConstraintsValid : bool; IsCA : bool; MaxPathLen : Z; MaxPathLenZero : bool;
  Names : SANs; SubjectKeyId : bytes; AuthorityKeyId : bytes }.

(** [x509.Certificate] as parsed; times in nanoseconds. *)
Record Certificate : Type := {
  Raw : bytes; RawTBS : bytes; Signature : bytes; CertVersion : Z; SerialNumber : Z;
  RawIssuer : bytes; RawSubject : bytes; Subject : Name; NotBefore : Z; NotAfter : Z;
  CertPublicKey : PublicKey; Extensions : list Extension; Info : ExtInfo }.

(** [x509.Certificate] as a template. *)
Record Template : Type := {
  tm_SerialNumber : Z; tm_Subject : Name; tm_NotBefore : Z; tm_NotAfter : Z;
  tm_Info : ExtInfo; tm_ExtraExtensions : list Extension }.

(** What is signed. *)
Record TBS : Type := {
  tbs_SerialNumber : Z; tbs_Issuer : bytes; tbs_NotBefore : Z; tbs_NotAfter : Z;
  tbs_Subject : bytes; tbs_PublicKey : PublicKey; tbs_Extensions : list Extension }.

(** The extensions the code reads, decoded. *)
Inductive ext_body : Type :=
  | BodyKeyUsage (usage : Z)
  | BodyExtKeyUsage (known : list Z) (unknown : list oid)
  | BodyBasicConstraints (isCA : bool) (maxPathLen : Z)
  | BodySubjectAltName (names : SANs)
  | BodySubjectKeyId (id : bytes)
  | BodyAuthorityKeyId (id : bytes)
  | BodyOther.

Definition oidSubjectKeyId : oid := [2; 5; 29; 14].
Definition oidKeyUsage : oid := [2; 5; 29; 15].
Definition oidSubjectAltName : oid := [2; 5; 29; 17].
Definition oidBasicConstraints : oid := [2; 5; 29; 19].
Definition oidAuthorityKeyId : oid := [2; 5; 29; 35].
Definition oidExtKeyUsage : oid := [2; 5; 29; 37].

Definition body_oid (b : ext_body) : oid :=
  match b with
  | BodyKeyUsage _ => oidKeyUsage
  | BodyExtKeyUsage _ _ => oidExtKeyUsage
  | BodyBasicConstraints _ _ => oidBasicConstraints
  | BodySubjectAltName _ => oidSubjectAltName
  | BodySubjectKeyId _ => oidSubjectKeyId
  | BodyAuthorityKeyId _ => oidAuthorityKeyId
  | BodyOther => []
  end.

(** The DER encoders and parsers of names, extension values and certificates. *)
Class X509 : Type := {
  marshalName : Name -> result bytes;
  parseName : bytes -> result Name;
  marshalExt : ext_body -> result bytes;
  parseExt : oid -> bytes -> result ext_body;
  marshalTBS : TBS -> bytes;
  marshalCertificate : TBS -> bytes -> bytes;
  ParseCertificate : bytes -> result Certificate }.

Definition KeyUsageDigitalSignature : Z := 1.
Definition KeyUsageKeyEncipherment : Z := 4.
Definition KeyUsageCertSign : Z := 32.
Definition KeyUsageCRLSign : Z := 64.
Definition ExtKeyUsageServerAuth : Z := 1.

Definition no_info : ExtInfo :=
  {| KeyUsage := 0; ExtKeyUsage := []; UnknownExtKeyUsage := []; BasicConstraintsValid := false;
     IsCA := false; MaxPathLen := 0; MaxPathLenZero := false; Names := no_sans;
     SubjectKeyId := []; AuthorityKeyId := [] |}.

(** One extension of [processExtensions]. *)
Definition add_body (i : ExtInfo) (b : ext_body) : ExtInfo :=
  let '(Build_ExtInfo ku eku unk bcv ca mpl mplz sans ski aki) := i in
  match b with
  | BodyKeyUsage ku => Build_ExtInfo ku eku unk bcv ca mpl mplz sans ski aki
  | BodyExtKeyUsage eku unk => Build_ExtInfo ku eku unk bcv ca mpl mplz sans ski aki
  | BodyBasicConstraints ca mpl => Build_ExtInfo ku eku unk true ca mpl (mpl =? 0) sans ski aki
  | BodySubjectAltName sans => Build_ExtInfo ku eku unk bcv ca mpl mplz sans ski aki
  | BodySubjectKeyId ski => Build_ExtInfo ku eku unk bcv ca mpl mplz sans ski aki
  | BodyAuthorityKeyId aki => Build_ExtInfo ku eku unk bcv ca mpl mplz sans ski aki
  | BodyOther => i
  end.

(** x509's [processExtensions]. *)
Fixpoint processExtensions `{X509} (i : ExtInfo) (exts : list Extension) : result ExtInfo :=
  match exts with
  | [] => Ok i
  | e :: exts =>
      b ← parseExt (ext_Id e) (ext_Value e);
      processExtensions (add_body i b) exts
  end.

(** The certificate that the signed bytes of [t] describe. *)
Definition view `{X509} (t : TBS) (signature : bytes) (subject : Name) (i : ExtInfo) : Certificate :=
  {| Raw := marshalCertificate t signature; RawTBS := marshalTBS t; Signature := signature;
     CertVersion := 3; SerialNumber := tbs_SerialNumber t; RawIssuer := tbs_Issuer t;
     RawSubject := tbs_Subject t; Subject := subject; NotBefore := tbs_NotBefore t;
     NotAfter := tbs_NotAfter t; CertPublicKey := tbs_PublicKey t; Extensions := tbs_Extensions t;
     Info := i |}.

(** ** Creating *)

(** X.509 times have whole seconds, in the years 0 to 9999. *)
Definition second : Z := 1000000000.
Definition whole_seconds (t : Z) : Z := t / second * second.
Definition time_ok (t : Z) : bool :=
  (-62167219200 * second <=? t) && (t <? 253402300800 * second).

Definition has_oid (o : oid) (exts : list Extension) : bool :=
  existsb (fun e => bool_decide (ext_Id e = o)) exts.

(** [marshalBasicConstraints]: zero means no limit unless [MaxPathLenZero]. *)
Definition encoded_path_len (i : ExtInfo) : Z :=
  if (MaxPathLen i =? 0) && negb (MaxPathLenZero i) then -1 else MaxPathLen i.

Definition has_names (s : SANs) : bool :=
  negb (bool_decide (DNSNames s = [] /\ EmailAddresses s = [] /\ IPAddresses s = [] /\ URIs s = [])).

(** [marshalSANs] shortens IPv4 addresses. *)
Definition shortened (s : SANs) : SANs :=
  {| DNSNames := DNSNames s; EmailAddresses := EmailAddresses s;
     IPAddresses := map (fun ip => default ip (To4 ip)) (IPAddresses s); URIs := URIs s |}.

(** The extensions [buildCertExtensions] derives, in its order, with their
    criticality. *)
Definition derived_bodies (i : ExtInfo) (subjectIsEmpty : bool) (aki ski : bytes) : list (bool * ext_body) :=
  ((if negb (KeyUsage i =? 0) then [(true, BodyKeyUsage (KeyUsage i))] else [])
   ++ (if bool_decide (ExtKeyUsage i = [] /\ UnknownExtKeyUsage i = []) then []
       else [(false, BodyExtKeyUsage (ExtKeyUsage i) (UnknownExtKeyUsage i))])
   ++ (if BasicConstraintsValid i then [(true, BodyBasicConstraints (IsCA i) (encoded_path_len i))] else [])
   ++ (if bool_decide (ski = []) then [] else [(false, BodySubjectKeyId ski)])
   ++ (if bool_decide (aki = []) then [] else [(false, BodyAuthorityKeyId aki)])
   ++ (if has_names (Names i) then [(subjectIsEmpty, BodySubjectAltName (shortened (Names i)))] else []))%list.

(** The issuer of a new certificate: itself, or a parsed certificate. *)
Inductive parent : Type := Self | Parent (c : Certificate).

(** The issuer's name, and the identifier of its key when the names differ. *)
Definition issuer_name (p : parent) (subject : bytes) : bytes :=
  match p with Self => subject | Parent q => RawSubject q end.

Definition authority_id (p : parent) (subject : bytes) : bytes :=
  match p with
  | Parent q => if bool_decide (RawSubject q = subject) then [] else SubjectKeyId (Info q)
  | Self => []
  end.

Section Create.
Context `{CR : Crypto} `{XS : X509}.

Definition marshal_body (cb : bool * ext_body) : result Extension :=
  v ← marshalExt (snd cb); Ok {| ext_Id := body_oid (snd cb); ext_Critical := fst cb; ext_Value := v |}.

Definition buildCertExtensions (tmpl : Template) (subjectIsEmpty : bool) (aki ski : bytes) : result (list Extension) :=
  exts ← mapM marshal_body
    (filter (fun cb => has_oid (body_oid (snd cb)) (tm_ExtraExtensions tmpl) = false)
       (derived_bodies (tm_Info tmpl) subjectIsEmpty aki ski));
  Ok (exts ++ tm_ExtraExtensions tmpl)%list.

Definition template_error (tmpl : Template) : option string :=
  let i := tm_Info tmpl in
  if tm_SerialNumber tmpl <? 0 then Some "x509: serial number must be positive"
  else if BasicConstraintsValid i && (MaxPathLen i <? -1) then Some "x509: invalid MaxPathLen, must be greater or equal to -1"
  else if BasicConstraintsValid i && negb (IsCA i) && negb (MaxPathLen i =? -1)
          && (negb (MaxPathLen i =? 0) || MaxPathLenZero i)
  then Some "x509: only CAs are allowed to specify MaxPathLen"
  else if negb (time_ok (tm_NotBefore tmpl) && time_ok (tm_NotAfter tmpl))
  then Some "asn1: cannot represent time as GeneralizedTime"
  else None.

Definition tbs_of (tmpl : Template) (p : parent) (pub : PublicKey) : result TBS :=
  subject ← marshalName (tm_Subject tmpl);
  let ski := if IsCA (tm_Info tmpl) then keyIdentifier pub else [] in
  exts ← buildCertExtensions tmpl (bool_decide (subject = [byte_of 48; byte_of 0])) (authority_id p subject) ski;
  Ok {| tbs_SerialNumber := tm_SerialNumber tmpl; tbs_Issuer := issuer_name p subject;
        tbs_NotBefore := whole_seconds (tm_NotBefore tmpl); tbs_NotAfter := whole_seconds (tm_NotAfter tmpl);
        tbs_Subject := subject; tbs_PublicKey := pub; tbs_Extensions := exts |}.

(** [x509.CreateCertificate]: the DER of the template's certificate, signed with
    [priv], which must be the parent's key; [r] numbers the randomness. *)
Definition CreateCertificate (r : nat) (tmpl : Template) (p : parent) (pub : PublicKey) (priv : PrivateKey)
  : result bytes :=
  match template_error tmpl with
  | Some e => Error e
  | None =>
      match p with
      | Parent c =>
          if bool_decide (Public priv = CertPublicKey c) then
            t ← tbs_of tmpl p pub; Ok (marshalCertificate t (SignASN1 priv (marshalTBS t) r))
          else Error "x509: provided PrivateKey doesn't match parent's PublicKey"
      | Self => t ← tbs_of tmpl p pub; Ok (marshalCertificate t (SignASN1 priv (marshalTBS t) r))
      end
  end.

(** [Certificate.CheckSignatureFrom]: [true] is no error. *)
Definition CheckSignatureFrom (c parent : Certificate) : bool :=
  let i := Info parent in
  if ((CertVersion parent =? 3) && negb (BasicConstraintsValid i)) || (BasicConstraintsValid i && negb (IsCA i))
  then false
  else if negb (KeyUsage i =? 0) && (Z.land (KeyUsage i) KeyUsageCertSign =? 0) then false
  else if bool_decide (CertPublicKey parent = UnknownKey) then false
  else checkSignature (CertPublicKey parent) (RawTBS c) (Signature c).

(** A certificate as the parser returns it. *)
Definition parsed (c : Certificate) : Prop := ParseCertificate (Raw c) = Ok c.

End Create.

(** [Extension]s found by identifier ([findExtension] of clone.go). *)
Fixpoint findExtension (exts : list Extension) (o : oid) : option Extension :=
  match exts with
  | [] => None
  | e :: exts => if bool_decide (ext_Id e = o) then Some e else findExtension exts o
  end.

(** ** What the parsers promise *)

(** Values the encoders write as they are. *)
Definition body_ok (known_usage : oid -> bool) (b : ext_body) : Prop :=
  match b with
  | BodyKeyUsage u => 0 <= u < 512
  | BodyExtKeyUsage _ unknown => Forall (fun o => known_usage o = false) unknown
  | BodyBasicConstraints _ n => -1 <= n
  | BodySubjectAltName s => s = shortened s
  | BodyOther => False
  | _ => True
  end.

Class X509Spec `{XS : X509} : Type := {
  known_usage : oid -> bool;
  parse_name n b : marshalName n = Ok b -> exists n', parseName b = Ok n' /\ CommonName n' = CommonName n;
  parse_ext b v : body_ok known_usage b -> marshalExt b = Ok v -> parseExt (body_oid b) v = Ok b;
  marshal_ok b : body_ok known_usage b ->
    match b with BodySubjectAltName _ | BodyExtKeyUsage _ _ => False | _ => True end -> is_ok (marshalExt b) = true;
  parsed_ext o v b : parseExt o v = Ok b ->
    match b with
    | BodySubjectAltName _ => o = oidSubjectAltName
    | BodyOther => o <> oidSubjectAltName
    | _ => body_oid b = o /\ body_ok known_usage b
    end;
  parse_marshal t s n i :
    0 <= tbs_SerialNumber t -> is_ok (parseName (tbs_Issuer t)) = true -> parseName (tbs_Subject t) = Ok n ->
    time_ok (tbs_NotBefore t) = true -> time_ok (tbs_NotAfter t) = true ->
    whole_seconds (tbs_NotBefore t) = tbs_NotBefore t -> whole_seconds (tbs_NotAfter t) = tbs_NotAfter t ->
    NoDup (map ext_Id (tbs_Extensions t)) -> processExtensions no_info (tbs_Extensions t) = Ok i ->
    ParseCertificate (marshalCertificate t s) = Ok (view t s n i);
  parse_raw der c : ParseCertificate der = Ok c -> Raw c = der;
  parse_empty : is_ok (ParseCertificate []) = false;
  parse_prefix der der' c c' a b : ParseCertificate der = Ok c -> ParseCertificate der' = Ok c' ->
    (der ++ a = der' ++ b)%list -> der = der';
  parse_fields der c : ParseCertificate der = Ok c ->
    parseName (RawSubject c) = Ok (Subject c) /\ NoDup (map ext_Id (Extensions c))
    /\ processExtensions no_info (Extensions c) = Ok (Info c)
    /\ time_ok (NotBefore c) = true /\ time_ok (NotAfter c) = true
    /\ whole_seconds (NotBefore c) = NotBefore c /\ whole_seconds (NotAfter c) = NotAfter c }.

(** ** What is created is parsed back *)

(** The names a template's certificate carries: those of an extension copied
    as it is, or the template's own. *)
Definition template_names `{XS : X509} (tmpl : Template) (s : SANs) : Prop :=
  (tm_ExtraExtensions tmpl = [] /\ s = shortened (Names (tm_Info tmpl)))
  \/ (exists e, tm_ExtraExtensions tmpl = [e] /\ ext_Id e = oidSubjectAltName
       /\ parseExt oidSubjectAltName (ext_Value e) = Ok (BodySubjectAltName s)
       /\ Names (tm_Info tmpl) = no_sans).

(** What its extensions say once parsed. *)
Definition issued_info (i : ExtInfo) (s : SANs) (ski aki : bytes) : ExtInfo :=
  {| KeyUsage := KeyUsage i; ExtKeyUsage := ExtKeyUsage i; UnknownExtKeyUsage := UnknownExtKeyUsage i;
     BasicConstraintsValid := BasicConstraintsValid i; IsCA := BasicConstraintsValid i && IsCA i;
     MaxPathLen := if BasicConstraintsValid i then encoded_path_len i else 0;
     MaxPathLenZero := BasicConstraintsValid i && (encoded_path_len i =? 0);
     Names := s; SubjectKeyId := ski; AuthorityKeyId := aki |}.

(** The extensions a certificate of the proxy can have. *)
Definition written_oids : list oid :=
  [oidKeyUsage; oidExtKeyUsage; oidBasicConstraints; oidSubjectKeyId; oidAuthorityKeyId; oidSubjectAltName].

(** [c] is the certificate of [tmpl] for [pub], signed with [priv]. *)
Record issued `{CR : Crypto} `{XS : X509} (tmpl : Template) (p : parent) (pub : PublicKey) (priv : PrivateKey)
    (c : Certificate) : Prop := {
  is_parsed : parsed c;
  is_version : CertVersion c = 3;
  is_serial : SerialNumber c = tm_SerialNumber tmpl;
  is_subject : marshalName (tm_Subject tmpl) = Ok (RawSubject c);
  is_common_name : CommonName (Subject c) = CommonName (tm_Subject tmpl);
  is_issuer : RawIssuer c = issuer_name p (RawSubject c);
  is_not_before : NotBefore c = whole_seconds (tm_NotBefore tmpl);
  is_not_after : NotAfter c = whole_seconds (tm_NotAfter tmpl);
  is_public : CertPublicKey c = pub;
  is_signed : checkSignature (Public priv) (RawTBS c) (Signature c) = true;
  is_parent : match p with Self => True | Parent q => CertPublicKey q = Public priv end;
  is_info : exists s, template_names tmpl s
    /\ Info c = issued_info (tm_Info tmpl) s (if IsCA (tm_Info tmpl) then keyIdentifier pub else [])
                  (authority_id p (RawSubject c));
  is_allowed : Forall (fun e => ext_Id e ∈ written_oids) (Extensions c);
  is_critical b : (true, b) ∈ derived_bodies (tm_Info tmpl) false [] [] ->
    exists e, findExtension (Extensions c) (body_oid b) = Some e /\ ext_Critical e = true }.

(** Templates the encoder writes as they are. *)
Definition template_ok (known : oid -> bool) `{XS : X509} (tmpl : Template) : Prop :=
  0 <= KeyUsage (tm_Info tmpl) < 512 /\ Forall (fun o => known o = false) (UnknownExtKeyUsage (tm_Info tmpl))
  /\ exists s, template_names tmpl s.

Lemma whole_seconds_idem t : whole_seconds (whole_seconds t) = whole_seconds t.
Proof. unfold whole_seconds. by rewrite Z.div_mul. Qed.

Lemma time_ok_whole t : time_ok t = true -> time_ok (whole_seconds t) = true.
Proof.
  unfold time_ok, whole_seconds, second. intros [H1%Z.leb_le H2%Z.ltb_lt]%andb_prop.
  apply andb_true_intro. split; [apply Z.leb_le|apply Z.ltb_lt].
  - assert (-62167219200 <= t / 1000000000) by (apply Z.div_le_lower_bound; lia). lia.
  - pose proof (Z.mul_div_le t 1000000000). lia.
Qed.

Lemma To4_length ip p : To4 ip = Some p -> length p = 4%nat.
Proof.
  unfold To4. destruct (length ip =? 4)%nat eqn:E; [intros [= <-]; by apply Nat.eqb_eq|].
  destruct (length ip =? 16)%nat eqn:E'; [|done]. apply Nat.eqb_eq in E'.
  destruct (bool_decide _); [|done]. intros [= <-]. by rewrite length_drop, E'.
Qed.

Lemma To4_short p : length p = 4%nat -> To4 p = Some p.
Proof. intros H. unfold To4. by rewrite H. Qed.

Lemma shortened_idem s : shortened (shortened s) = shortened s.
Proof.
  destruct s as [d e ips u]. unfold shortened. cbn. f_equal. rewrite map_map. apply map_ext. intros ip.
  destruct (To4 ip) as [p|] eqn:E; cbn; [|by rewrite E]. by rewrite (To4_short p) by (by eapply To4_length).
Qed.

Section Parsing.
Context `{CR : Crypto} `{CS : !CryptoSpec} `{XS : X509} {XP : X509Spec}.

Lemma marshal_body_ids l exts :
  mapM marshal_body l = Ok exts -> map ext_Id exts = map (fun cb => body_oid (snd cb)) l.
Proof.
  intros H%mapM_ok. induction H as [|cb e l exts He H IH]; [done|]. cbn. rewrite IH. f_equal.
  unfold marshal_body in He. inv_ok. by subst e.
Qed.

Lemma marshal_body_process l exts k i :
  mapM marshal_body l = Ok exts -> Forall (fun cb => body_ok known_usage (snd cb)) l ->
  processExtensions i (exts ++ k) = processExtensions (foldl add_body i (map snd l)) k.
Proof.
  intros H%mapM_ok Hok. revert i. induction H as [|cb e l exts He H IH]; intros i; [done|].
  apply Forall_cons in Hok as [Hb Hok]. unfold marshal_body in He. inv_ok. subst e. cbn.
  rewrite (parse_ext _ _ Hb Hr). cbn. by apply IH.
Qed.

Lemma findExtension_marshalled l exts k cb :
  mapM marshal_body l = Ok exts -> NoDup (map (fun cb => body_oid (snd cb)) l) -> cb ∈ l ->
  exists e, findExtension (exts ++ k) (body_oid (snd cb)) = Some e /\ ext_Critical e = fst cb.
Proof.
  intros H%mapM_ok Hn. induction H as [|cb' e l exts He H IH]; intros Hin; [by apply elem_of_nil in Hin|].
  apply NoDup_cons in Hn as [Hni Hn]. unfold marshal_body in He. inv_ok. subst e. cbn.
  apply elem_of_cons in Hin as [->|Hin].
  - rewrite bool_decide_true by done. eauto.
  - rewrite bool_decide_false; [by apply IH|]. intros E. apply Hni. rewrite E.
    by apply (list_elem_of_fmap_2 (fun cb => body_oid (snd cb))).
Qed.

Lemma derived_nodup i e aki ski : NoDup (map (fun cb => body_oid (snd cb)) (derived_bodies i e aki ski)).
Proof.
  unfold derived_bodies. destruct (KeyUsage i =? 0), (bool_decide (ExtKeyUsage i = [] /\ _)), (BasicConstraintsValid i),
    (bool_decide (ski = [])), (bool_decide (aki = [])), (has_names (Names i)); cbn;
    (apply (bool_decide_unpack _); vm_compute; exact I).
Qed.

Lemma derived_san i e aki ski :
  has_names (Names i) = false -> oidSubjectAltName ∉ map (fun cb => body_oid (snd cb)) (derived_bodies i e aki ski).
Proof.
  unfold derived_bodies. intros ->. destruct (KeyUsage i =? 0), (bool_decide (ExtKeyUsage i = [] /\ _)), (BasicConstraintsValid i),
    (bool_decide (ski = [])), (bool_decide (aki = [])); cbn; (apply (bool_decide_unpack _); vm_compute; exact I).
Qed.

Lemma derived_written i e aki ski :
  Forall (fun cb => body_oid (snd cb) ∈ written_oids) (derived_bodies i e aki ski).
Proof.
  unfold derived_bodies. repeat (apply Forall_app; split); repeat case_match; repeat constructor;
    (apply (bool_decide_unpack _); vm_compute; exact I).
Qed.

Lemma has_names_false s : has_names s = false -> s = no_sans.
Proof.
  unfold has_names. intros H%negb_false_iff. apply bool_decide_eq_true in H as (? & ? & ? & ?).
  destruct s; cbn in *; by subst.
Qed.

Lemma derived_fold i e aki ski :
  foldl add_body no_info (map snd (derived_bodies i e aki ski)) = issued_info i (shortened (Names i)) ski aki.
Proof.
  unfold derived_bodies, issued_info. rewrite !map_app, !foldl_app.
  destruct (Z.eqb_spec (KeyUsage i) 0) as [->|]; cbn [negb map foldl snd];
    (case_bool_decide as He; [destruct He as [-> ->]|]; cbn [map foldl snd]);
    destruct (BasicConstraintsValid i); cbn [map foldl snd];
    (case_bool_decide; [subst ski|]; cbn [map foldl snd]); (case_bool_decide; [subst aki|]; cbn [map foldl snd]);
    (destruct (has_names (Names i)) eqn:Hn; [done|]); apply has_names_false in Hn; rewrite Hn; done.
Qed.

Lemma filter_all {A} (P : A -> Prop) `{!forall x, Decision (P x)} (l : list A) : Forall P l -> filter P l = l.
Proof. induction 1 as [|x l Hx Hl IH]; [done|]. rewrite filter_cons_True by done. by rewrite IH. Qed.

Lemma derived_kept tmpl s e aki ski :
  template_names tmpl s ->
  let l := derived_bodies (tm_Info tmpl) e aki ski in
  filter (fun cb => has_oid (body_oid (snd cb)) (tm_ExtraExtensions tmpl) = false) l = l.
Proof.
  intros [[-> _]|(x & -> & Hx & _ & Hn)] l; apply filter_all, Forall_forall; intros cb Hin; [done|].
  cbn. rewrite Hx, orb_false_r. apply bool_decide_eq_false. intros E.
  apply (derived_san (tm_Info tmpl) e aki ski); [by rewrite Hn|]. rewrite E.
  by apply (list_elem_of_fmap_2 (fun cb => body_oid (snd cb))).
Qed.

Lemma derived_ok tmpl e aki ski :
  template_ok known_usage tmpl -> template_error tmpl = None ->
  Forall (fun cb => body_ok known_usage (snd cb)) (derived_bodies (tm_Info tmpl) e aki ski).
Proof.
  intros (Hu & Hk & _) He. unfold derived_bodies.
  repeat (apply Forall_app; split); repeat case_match; try (by constructor);
    (constructor; [|constructor]); cbn; try done; [|by rewrite shortened_idem].
  unfold template_error in He. destruct (_ <? 0); [done|]. rewrite H in He. cbn in He.
  destruct (Z.ltb_spec (MaxPathLen (tm_Info tmpl)) (-1)); [done|]. clear He. unfold encoded_path_len. case_match; lia.
Qed.

Lemma extensions_parse tmpl s e aki ski exts :
  template_ok known_usage tmpl -> template_error tmpl = None -> template_names tmpl s ->
  buildCertExtensions tmpl e aki ski = Ok exts ->
  NoDup (map ext_Id exts) /\ processExtensions no_info exts = Ok (issued_info (tm_Info tmpl) s ski aki)
  /\ Forall (fun x => ext_Id x ∈ written_oids) exts
  /\ forall cb, cb ∈ derived_bodies (tm_Info tmpl) e aki ski ->
     exists x, findExtension exts (body_oid (snd cb)) = Some x /\ ext_Critical x = fst cb.
Proof.
  intros Hok He Hs Hb. unfold buildCertExtensions in Hb. rewrite (derived_kept _ _ _ _ _ Hs) in Hb. inv_ok. subst exts.
  pose proof (derived_nodup (tm_Info tmpl) e aki ski) as Hn. pose proof (marshal_body_ids _ _ Hr) as Hid. split_and!.
  - rewrite map_app, Hid. destruct Hs as [[-> _]|(x & -> & Hx & _ & Hx')]; cbn; [by rewrite app_nil_r|].
    apply NoDup_app. split_and!; [done| |apply NoDup_singleton]. intros o Ho ->%list_elem_of_singleton.
    revert Ho. rewrite Hx. apply derived_san. by rewrite Hx'.
  - rewrite (marshal_body_process _ _ _ _ Hr) by (by apply derived_ok). rewrite derived_fold.
    destruct Hs as [[-> ->]|(x & -> & Hx & Hp & Hx')]; [done|]. cbn. rewrite Hx, Hp. cbn. done.
  - apply Forall_app. split.
    + apply (Forall_fmap ext_Id (fun o => o ∈ written_oids)). change (ext_Id <$> r) with (map ext_Id r).
      rewrite Hid. apply Forall_fmap. apply derived_written.
    + destruct Hs as [[-> _]|(x & -> & Hx & _)]; [constructor|]. constructor; [|constructor]. rewrite Hx.
      apply (bool_decide_unpack _). vm_compute. exact I.
  - intros cb Hin. by eapply findExtension_marshalled.
Qed.

Lemma derived_critical i e aki ski b :
  (true, b) ∈ derived_bodies i false [] [] -> (true, b) ∈ derived_bodies i e aki ski.
Proof.
  unfold derived_bodies. rewrite !elem_of_app. intros [|[|[|[H|[H|H]]]]]; eauto.
  - rewrite bool_decide_true in H by done. by apply elem_of_nil in H.
  - rewrite bool_decide_true in H by done. by apply elem_of_nil in H.
  - case_match; [|by apply elem_of_nil in H]. apply list_elem_of_singleton in H. congruence.
Qed.

(** A created certificate parses, to the certificate of its template. *)
Lemma CreateCertificate_issued r tmpl p pub priv der :
  template_ok known_usage tmpl -> match p with Self => True | Parent q => parsed q end ->
  CreateCertificate r tmpl p pub priv = Ok der ->
  exists c, ParseCertificate der = Ok c /\ issued tmpl p pub priv c.
Proof.
  intros Hok Hp H. unfold CreateCertificate in H. destruct (template_error tmpl) as [|] eqn:He; [done|].
  assert (match p with Self => True | Parent q => CertPublicKey q = Public priv end
          /\ exists t, tbs_of tmpl p pub = Ok t /\ der = marshalCertificate t (SignASN1 priv (marshalTBS t) r)) as (Hk & t & Ht & ->).
  { destruct p as [|q]; [|case_bool_decide as E; [|done]]; inv_ok; split; eauto. }
  unfold tbs_of in Ht. inv_ok. rename r0 into subject, r1 into exts.
  destruct Hok as (Hu & Hunk & s & Hs).
  destruct (extensions_parse tmpl s _ _ _ exts (conj Hu (conj Hunk (ex_intro _ s Hs))) He Hs Hr0) as (Hn & Hproc & Hw & Hcrit).
  destruct (parse_name _ _ Hr) as (n & Hsub & Hcn).
  assert (0 <= tm_SerialNumber tmpl /\ time_ok (tm_NotBefore tmpl) = true /\ time_ok (tm_NotAfter tmpl) = true) as (Hser & Ht1 & Ht2).
  { unfold template_error in He. destruct (Z.ltb_spec (tm_SerialNumber tmpl) 0); [done|].
    destruct (_ && (_ <? -1)); [done|]. destruct (_ && _ && _ && _); [done|].
    destruct (time_ok (tm_NotBefore tmpl)), (time_ok (tm_NotAfter tmpl)); done. }
  assert (ParseCertificate (marshalCertificate t (SignASN1 priv (marshalTBS t) r)) = Ok (view t (SignASN1 priv (marshalTBS t) r) n
    (issued_info (tm_Info tmpl) s (if IsCA (tm_Info tmpl) then keyIdentifier pub else []) (authority_id p subject)))) as Hparse.
  { subst t. clear H. apply parse_marshal;
      cbn [tbs_SerialNumber tbs_Issuer tbs_Subject tbs_NotBefore tbs_NotAfter tbs_Extensions];
      try assumption; try (by apply time_ok_whole); try apply whole_seconds_idem.
    destruct p as [|q]; cbn; [by rewrite Hsub|]. destruct (parse_fields _ _ Hp) as [-> _]. done. }
  eexists. split; [exact Hparse|]. subst t. split; cbn; try done; [apply check_sign|eauto|].
  intros b Hb. by apply (Hcrit (true, b)), derived_critical.
Qed.

(** *** Parsed certificates *)

(** What the parser guarantees of the fields it takes from extensions. *)
Definition info_ok (known : oid -> bool) (i : ExtInfo) : Prop :=
  0 <= KeyUsage i < 512 /\ Forall (fun o => known o = false) (UnknownExtKeyUsage i) /\ -1 <= MaxPathLen i
  /\ MaxPathLenZero i = BasicConstraintsValid i && (MaxPathLen i =? 0)
  /\ (BasicConstraintsValid i = false -> IsCA i = false /\ MaxPathLen i = 0).

Lemma add_body_ok i o v b : info_ok known_usage i -> parseExt o v = Ok b -> info_ok known_usage (add_body i b).
Proof.
  intros (H1 & H2 & H3 & H4 & H5) H%parsed_ext. destruct i, b; cbn in *; try done;
    (destruct H as [_ H]; unfold info_ok; cbn; split_and!; try done; lia).
Qed.

Lemma processExtensions_ok exts i i' :
  processExtensions i exts = Ok i' -> info_ok known_usage i -> info_ok known_usage i'.
Proof.
  revert i. induction exts as [|e exts IH]; intros i H Hi; cbn in H; [by injection H as <-|].
  inv_ok. eapply IH; [done|]. by eapply add_body_ok.
Qed.

Lemma parsed_info c : parsed c -> info_ok known_usage (Info c).
Proof.
  intros (_ & _ & H & _)%parse_fields. eapply processExtensions_ok; [exact H|].
  unfold info_ok, no_info. cbn. split_and!; try done; constructor.
Qed.

Lemma processExtensions_names exts i i' :
  processExtensions i exts = Ok i' -> NoDup (map ext_Id exts) ->
  match findExtension exts oidSubjectAltName with
  | Some e => parseExt oidSubjectAltName (ext_Value e) = Ok (BodySubjectAltName (Names i'))
  | None => Names i' = Names i
  end.
Proof.
  revert i. induction exts as [|e exts IH]; intros i H Hn; cbn in H |- *; [by injection H as <-|].
  apply NoDup_cons in Hn as [Hni Hn]. inv_ok. rename r into b. pose proof (parsed_ext _ _ _ Hr) as Hb.
  specialize (IH _ H Hn). case_bool_decide as E.
  - destruct (findExtension exts oidSubjectAltName) as [e'|] eqn:Ef.
    + exfalso. apply Hni. rewrite E. clear -Ef. induction exts as [|x exts IH]; [done|]. cbn in *.
      case_bool_decide as Ex; [rewrite Ex; by left|]. right. by apply IH.
    + rewrite IH, <- E, Hr. destruct b; try (apply proj1 in Hb; rewrite E in Hb; discriminate Hb); [by destruct i|].
      by destruct (Hb E).
  - replace (Names (add_body i b)) with (Names i) in IH; [exact IH|]. destruct i, b; done.
Qed.

(** A parsed certificate's names are those of its extension. *)
Lemma parsed_names c :
  parsed c ->
  match findExtension (Extensions c) oidSubjectAltName with
  | Some e => parseExt oidSubjectAltName (ext_Value e) = Ok (BodySubjectAltName (Names (Info c)))
  | None => Names (Info c) = no_sans
  end.
Proof. intros (_ & Hn & H & _)%parse_fields. by apply (processExtensions_names _ _ _ H). Qed.

Lemma findExtension_id exts o e : findExtension exts o = Some e -> ext_Id e = o.
Proof. induction exts as [|x exts IH]; cbn; [done|]. case_bool_decide; [by intros [= <-]|done]. Qed.

(** A signature that checks, from an issuer entitled to sign. *)
Lemma CheckSignatureFrom_spec c q :
  CheckSignatureFrom c q = true ->
  checkSignature (CertPublicKey q) (RawTBS c) (Signature c) = true.
Proof. unfold CheckSignatureFrom. by repeat case_match. Qed.

Lemma CheckSignatureFrom_ca c q :
  BasicConstraintsValid (Info q) = true -> IsCA (Info q) = true ->
  Z.land (KeyUsage (Info q)) KeyUsageCertSign <> 0 -> CertPublicKey q <> UnknownKey ->
  CheckSignatureFrom c q = checkSignature (CertPublicKey q) (RawTBS c) (Signature c).
Proof.
  intros H1 H2 H3 H4. unfold CheckSignatureFrom. rewrite H1, H2, andb_false_r. cbn [orb andb negb].
  apply Z.eqb_neq in H3. rewrite H3, andb_false_r. by rewrite bool_decide_false.
Qed.

End Parsing.
