(* ===== verification/CertKeys.v ===== *)
(** * Identities and derived keys of certificates (internal/cert/keys.go, and the naming of clone.go, cache.go, selfcert.go, fallback.go)

    Keys are derived from the cluster key and a salt; a leaf's salt is its set of
    names, and its place in the cache the bytes of the chain it clones.  The
    derivation never fails and stays in the curve's range, and different sets of
    names have different salts, as long as no name contains a zero byte. *)

From S2P Require Import Prelude GoStrings Netip Encoding X509.

Open Scope Z_scope.

(** ** Deriving keys *)

Definition infoLeaf : bytes := str "mitmania/leaf/p256/v1".
Definition infoIntermediate : bytes := str "mitmania/intermediate/p256/v1".
Definition infoSSH : bytes := str "mitmania/ssh/hostkey/v1".
Definition hkdfOutputLen : Z := 48.

(** [big.Int.SetBytes] and [big.Int.Bytes] (the shortest big-endian bytes of the
    magnitude). *)
Definition SetBytes (b : bytes) : Z := of_be (map byte_val b).

Definition big_Bytes (n : Z) : bytes :=
  if n =? 0 then [] else digits 256 byte_of (S (Z.to_nat (Z.log2 (Z.abs n)))) (Z.abs n) [].

Definition NUL : ascii := byte_of 0.

Section Keys.
Context `{DG : Digests} `{CR : Crypto}.

(** [DetKeyDeriver] is its cluster key. *)
Definition deriveKey (clusterKey salt info : bytes) : result PrivateKey :=
  prk ← wrap "cert: hkdf extract" (hkdf_Extract clusterKey salt);
  okm ← wrap "cert: hkdf expand" (hkdf_Expand prk info hkdfOutputLen);
  let nMinus1 := P256_N - 1 in
  let d := SetBytes okm mod nMinus1 + 1 in
  wrap "cert: parse derived key" (ParseRawPrivateKey (be_bytes 32 d)).

(** The bytes [leafSalt] hashes. *)
Definition leaf_identity (sans : list bytes) : bytes := Join [NUL] (SortStrings sans).

Definition leafSalt (sans : list bytes) : bytes := sha256 (leaf_identity sans).

Definition issuerSerialHash (rawIssuer : bytes) (serial : Z) : bytes :=
  sha256 (rawIssuer ++ big_Bytes serial)%list.

Definition LeafKey (clusterKey : bytes) (sans : list bytes) : result PrivateKey :=
  deriveKey clusterKey (leafSalt sans) infoLeaf.

Definition IntermediateKey (clusterKey rawIssuer : bytes) (serial : Z) : result PrivateKey :=
  deriveKey clusterKey (issuerSerialHash rawIssuer serial) infoIntermediate.

Definition SSHHostKey (clusterKey hostport : bytes) : result PrivateKey :=
  deriveKey clusterKey (sha256 hostport) infoSSH.

(** ** Serial numbers *)

Definition trunc160 (sum : bytes) : Z := SetBytes (take 20 sum).

Definition serialFor (real : Certificate) : Z :=
  trunc160 (issuerSerialHash (RawIssuer real) (SerialNumber real)).

Definition fallbackSerial (sni : bytes) : Z :=
  trunc160 (sha256 (str "mitmania/fallback/v1" ++ NUL :: sni)%list).

(** The bytes [selfCertIdentityHash] hashes. *)
Definition self_identity (names : list bytes) : bytes :=
  (str "mitmania/https-proxy/v1" ++ concat (map (cons NUL) names))%list.

Definition selfCertIdentityHash (names : list bytes) : bytes := sha256 (self_identity names).

Definition selfCertSerial (names : list bytes) : Z := trunc160 (selfCertIdentityHash names).

(** [chainDERFingerprint]. *)
Definition chain_bytes (chain : list Certificate) : bytes := concat (map Raw chain).

Definition chainDERFingerprint (chain : list Certificate) : bytes := sha256 (chain_bytes chain).

End Keys.

(** ** Names of a certificate *)

(** [SANStrings], for the index of names. *)
Definition SANStrings (c : Certificate) : list bytes :=
  let s := Names (Info c) in
  (DNSNames s ++ map IP_String (IPAddresses s) ++ EmailAddresses s ++ URIs s)%list.

Definition tagSANs (dnsNames : list bytes) (ipAddrs : list IP) : list bytes :=
  (map (fun n => str "dns:" ++ n) dnsNames ++ map (fun ip => str "ip:" ++ IP_String ip) ipAddrs)%list.

Definition typeTaggedSANStrings (c : Certificate) : list bytes :=
  let s := Names (Info c) in
  (tagSANs (DNSNames s) (IPAddresses s) ++ map (fun e => str "email:" ++ e) (EmailAddresses s)
   ++ map (fun u => str "uri:" ++ u) (URIs s))%list.

(** [isValidDNSName]: one character of a label of length [n], at position [i]. *)
Definition label_char (n i : nat) (c : ascii) : bool :=
  is_lower c || is_upper c || is_digit c
  || (Ascii.eqb c "-" && negb (i =? 0)%nat && negb (i =? n - 1)%nat).

Fixpoint label_chars (n i : nat) (label : bytes) : bool :=
  match label with
  | [] => true
  | c :: t => label_char n i c && label_chars n (S i) t
  end.

Definition isValidDNSName (s : bytes) : bool :=
  if bool_decide (s = []) || (255 <? Z.of_nat (length s)) then false
  else forallb (fun label =>
         if (length label =? 0)%nat || (63 <? length label)%nat then false
         else label_chars (length label) 0 label) (Split "." s).

(** ** Places in the cache *)

Definition leafPrefix : bytes := str "leaf/".
Definition certsPrefix : bytes := (leafPrefix ++ str "certs/")%list.
Definition namesPrefix : bytes := (leafPrefix ++ str "names/")%list.
Definition cloneFormatVersion : bytes := str "v1".

(** [uuid.NewSHA1(namespace, data).String()]. *)
Class UuidV5 : Type := { NewSHA1 : bytes -> bytes -> bytes }.

(** Lower-case hexadecimal digits in groups of 8, 4, 4, 4 and 12. *)
Definition is_hex (c : ascii) : bool := is_digit c || ((97 <=? byte_val c) && (byte_val c <=? 102)).

Fixpoint uuid_chars (i : nat) (s : bytes) : bool :=
  match s with
  | [] => (i =? 36)%nat
  | c :: t =>
      (if bool_decide (i ∈ [8; 13; 18; 23]%nat) then Ascii.eqb c "-" else is_hex c) && uuid_chars (S i) t
  end.

Class UuidV5Spec `{UV : UuidV5} : Prop := { uuid_text ns d : uuid_chars 0 (NewSHA1 ns d) = true }.

Definition sanNamespace `{Digests} (clusterKey : bytes) : bytes := take 16 (sha256 clusterKey).

Definition idFromFingerprint `{UuidV5} (namespace fingerprint : bytes) : bytes :=
  NewSHA1 namespace (cloneFormatVersion ++ fingerprint)%list.

Definition certID `{UuidV5} `{Digests} (namespace : bytes) (realChain : list Certificate) : bytes :=
  idFromFingerprint namespace (chainDERFingerprint realChain).

Definition nameID `{UuidV5} (namespace name : bytes) : bytes := NewSHA1 namespace name.

(** [shardedKey]; the slices panic on fewer than six digits, which no UUID has. *)
Definition shardedKey (prefix id ext : bytes) : bytes :=
  let hex := List.filter (fun c => negb (Ascii.eqb c "-")) id in
  (prefix ++ take 2 hex ++ str "/" ++ take 2 (drop 2 hex) ++ str "/" ++ take 2 (drop 4 hex) ++ str "/"
   ++ drop 6 hex ++ ext)%list.

Definition certKey (id : bytes) : bytes := shardedKey certsPrefix id (str ".p12").
Definition nameKey (id : bytes) : bytes := shardedKey namesPrefix id (str ".p12").

(** ** Keys are in range *)

Lemma SetBytes_range b : 0 <= SetBytes b < 256 ^ Z.of_nat (length b).
Proof.
  unfold SetBytes. rewrite <- (length_map byte_val b). apply of_be_range. apply Forall_forall.
  intros x (c & -> & _)%list_elem_of_fmap. apply byte_val_range.
Qed.

Lemma trunc160_range sum : 0 <= trunc160 sum < 2 ^ 160.
Proof.
  unfold trunc160. pose proof (SetBytes_range (take 20 sum)) as [H1 H2]. split; [done|].
  eapply Z.lt_le_trans; [exact H2|]. change (2 ^ 160) with (256 ^ 20). apply Z.pow_le_mono_r; [lia|].
  rewrite length_take. lia.
Qed.

Section KeyRange.
Context `{DG : Digests} `{CR : Crypto} `{CS : !CryptoSpec}.

(** The derivation succeeds, with a scalar of the group. *)
Lemma deriveKey_ok clusterKey salt info :
  exists k, deriveKey clusterKey salt info = Ok k /\ k_Curve k = P256 /\ 1 <= k_D k <= P256_N - 1.
Proof.
  unfold deriveKey. destruct (extract_ok clusterKey salt) as (prk & ->).
  destruct (expand_ok prk info hkdfOutputLen ltac:(done)) as (okm & Hokm & _). cbn [mbind result_bind wrap]. rewrite Hokm.
  cbn [mbind result_bind wrap].
  set (d := SetBytes okm mod (P256_N - 1) + 1).
  assert (1 <= d <= P256_N - 1) as Hd.
  { pose proof (Z.mod_pos_bound (SetBytes okm) (P256_N - 1) ltac:(done)). unfold d. lia. }
  assert (of_be (be_bytes 32 d) = d) as E.
  { apply of_be_be_bytes. assert (P256_N < 256 ^ Z.of_nat 32) by done. lia. }
  unfold ParseRawPrivateKey. rewrite length_be_bytes, E. cbn [negb Nat.eqb].
  destruct (Z.ltb_spec d 1); [lia|]. destruct (Z.leb_spec P256_N d); [lia|]. cbn. eauto.
Qed.

End KeyRange.

(** ** Names and their identity *)

Lemma bytes_le_antisymm a b : bytes_le a b -> bytes_le b a -> a = b.
Proof.
  unfold bytes_le. intros H1 H2. destruct (decide (a = b)) as [|Hne]; [done|].
  destruct (bytes_ltb_total a b Hne); congruence.
Qed.

Lemma SortStrings_unique l k : SortStrings l = SortStrings k <-> l ≡ₚ k.
Proof.
  split.
  - intros E. by rewrite <- (SortStrings_perm l), <- (SortStrings_perm k), E.
  - intros Hp. eapply (StronglySorted_unique_strong bytes_le); [|apply SortStrings_sorted..|].
    + intros. by apply bytes_le_antisymm.
    + by rewrite !SortStrings_perm.
Qed.

(** A name that can be separated from others by a zero byte. *)
Definition separable (n : bytes) : Prop := NUL ∉ n.

Lemma leaf_identity_perm l k :
  Forall (fun n => n <> [] /\ separable n) l -> Forall (fun n => n <> [] /\ separable n) k ->
  leaf_identity l = leaf_identity k <-> l ≡ₚ k.
Proof.
  intros Hl Hk. rewrite <- SortStrings_unique. unfold leaf_identity. split; [|by intros ->].
  rewrite <- (SortStrings_perm l) in Hl. rewrite <- (SortStrings_perm k) in Hk.
  generalize dependent (SortStrings l). generalize dependent (SortStrings k). intros k' Hk l' Hl E.
  assert (forall m, Forall (fun n => n <> [] /\ separable n) m -> Join [NUL] m = [] -> m = []) as Hnil.
  { intros [|x [|y m]] Hm; [done|..]; apply Forall_cons in Hm as [[Hx _] _]; destruct x; done. }
  assert (forall m, Forall (fun n => n <> [] /\ separable n) m -> Forall (fun p => NUL ∉ p) m) as Hsep.
  { intros m Hm. eapply Forall_impl; [exact Hm|]. by intros x [_ ?]. }
  destruct (decide (k' = [])) as [->|Hk']; [by apply Hnil|].
  destruct (decide (l' = [])) as [->|Hl']; [symmetry; by apply Hnil|].
  rewrite <- (Split_Join NUL k'), <- (Split_Join NUL l') by auto. by rewrite E.
Qed.

(** The names under one tag. *)
Definition tagged (tag : bytes) (l : list bytes) : list bytes := omap (CutPrefix tag) l.

Lemma tagged_perm tag l k : l ≡ₚ k -> tagged tag l ≡ₚ tagged tag k.
Proof. intros H. unfold tagged. by rewrite H. Qed.

Lemma tagged_app tag l k : tagged tag (l ++ k) = (tagged tag l ++ tagged tag k)%list.
Proof. apply omap_app. Qed.

Lemma tagged_same tag {A} (f : A -> bytes) l : tagged tag (map (fun x => tag ++ f x) l) = map f l.
Proof.
  unfold tagged. induction l as [|x l IH]; [done|]. cbn [map omap list_omap].
  destruct (CutPrefix tag (tag ++ f x)) eqn:E.
  - apply CutPrefix_Some in E. apply (inj (app tag)) in E as <-. by f_equal.
  - exfalso. assert (CutPrefix tag (tag ++ f x) = Some (f x)) by (by apply CutPrefix_Some). congruence.
Qed.

Lemma tagged_other tag tag' {A} (f : A -> bytes) l :
  (forall s t, (tag ++ s)%list <> (tag' ++ t)%list) -> tagged tag (map (fun x => tag' ++ f x) l) = [].
Proof.
  intros H. unfold tagged. induction l as [|x l IH]; [done|]. cbn [map omap list_omap].
  destruct (CutPrefix tag (tag' ++ f x)) eqn:E; [|done]. apply CutPrefix_Some in E. by apply eq_sym, H in E.
Qed.

(** No name of the certificate contains a zero byte. *)
Definition separable_names (c : Certificate) : Prop :=
  let s := Names (Info c) in
  Forall separable (DNSNames s) /\ Forall separable (map IP_String (IPAddresses s))
  /\ Forall separable (EmailAddresses s) /\ Forall separable (URIs s).

(** The same names of every kind, in any order. *)
Definition same_names (c c' : Certificate) : Prop :=
  let s := Names (Info c) in let s' := Names (Info c') in
  DNSNames s ≡ₚ DNSNames s' /\ map IP_String (IPAddresses s) ≡ₚ map IP_String (IPAddresses s')
  /\ EmailAddresses s ≡ₚ EmailAddresses s' /\ URIs s ≡ₚ URIs s'.

Lemma tagged_dns c : tagged (str "dns:") (typeTaggedSANStrings c) = DNSNames (Names (Info c)).
Proof.
  unfold typeTaggedSANStrings, tagSANs. rewrite !tagged_app, (tagged_same _ (fun n => n)), map_id.
  rewrite !tagged_other by done. by rewrite !app_nil_r.
Qed.

Lemma tagged_ip c : tagged (str "ip:") (typeTaggedSANStrings c) = map IP_String (IPAddresses (Names (Info c))).
Proof.
  unfold typeTaggedSANStrings, tagSANs. rewrite !tagged_app, (tagged_same (str "ip:")).
  rewrite !tagged_other by done. by rewrite !app_nil_r.
Qed.

Lemma tagged_email c : tagged (str "email:") (typeTaggedSANStrings c) = EmailAddresses (Names (Info c)).
Proof.
  unfold typeTaggedSANStrings, tagSANs. rewrite !tagged_app, (tagged_same (str "email:") (fun n => n)), map_id.
  rewrite !tagged_other by done. by rewrite !app_nil_r.
Qed.

Lemma tagged_uri c : tagged (str "uri:") (typeTaggedSANStrings c) = URIs (Names (Info c)).
Proof.
  unfold typeTaggedSANStrings, tagSANs. rewrite !tagged_app, (tagged_same (str "uri:") (fun n => n)), map_id.
  by rewrite !tagged_other by done.
Qed.

(** The tagged names are those of each kind. *)
Lemma tagged_names_perm c c' : typeTaggedSANStrings c ≡ₚ typeTaggedSANStrings c' <-> same_names c c'.
Proof.
  split.
  - intros H. unfold same_names. rewrite <- !tagged_dns, <- !tagged_ip, <- !tagged_email, <- !tagged_uri.
    split_and!; by apply tagged_perm.
  - intros (H1 & H2 & H3 & H4). unfold typeTaggedSANStrings, tagSANs.
    rewrite <- !(map_map IP_String (fun s => str "ip:" ++ s)%list).
    f_equiv; [f_equiv; by apply fmap_Permutation|]. f_equiv; by apply fmap_Permutation.
Qed.

Lemma tag_separable tag {A} (f : A -> bytes) l :
  NUL ∉ tag -> tag <> [] -> Forall separable (map f l) ->
  Forall (fun n => n <> [] /\ separable n) (map (fun x => tag ++ f x)%list l).
Proof.
  intros Ht Hne H. rewrite Forall_fmap in H. apply Forall_fmap. eapply Forall_impl; [exact H|]. cbn. intros x Hx.
  split; [by destruct tag|]. unfold separable. rewrite not_elem_of_app. done.
Qed.

Lemma typeTagged_separable c :
  separable_names c -> Forall (fun n => n <> [] /\ separable n) (typeTaggedSANStrings c).
Proof.
  intros (H1 & H2 & H3 & H4). unfold typeTaggedSANStrings, tagSANs.
  assert (forall t : bytes, bool_decide (NUL ∉ t) = true -> NUL ∉ t) as Hd by (intros t; apply bool_decide_eq_true).
  repeat (apply Forall_app; split); apply tag_separable; try done; try (by apply Hd); by rewrite map_id.
Qed.

(** The raw names of a self-signed identity, in order. *)
Lemma self_identity_inj names names' :
  Forall separable names -> Forall separable names' -> self_identity names = self_identity names' -> names = names'.
Proof.
  intros Hn Hn' E. apply (inj (app _)) in E. revert names' Hn' E.
  induction Hn as [|n names Hx Hn IH]; intros [|n' names'] Hn' E; try done. apply Forall_cons in Hn' as [Hx' Hn'].
  cbn in E. injection E as E.
  assert (forall m ms, separable m -> Cut NUL (m ++ concat (map (cons NUL) ms))%list
            = match ms with [] => None | x :: ms => Some (m, (x ++ concat (map (cons NUL) ms))%list) end) as Hcut.
  { intros m [|x ms] Hm; cbn; [rewrite app_nil_r; by apply Cut_None|]. by apply Cut_app. }
  pose proof (Hcut n names Hx) as C. pose proof (Hcut n' names' Hx') as C'. rewrite E, C' in C.
  destruct names as [|y names], names' as [|y' names']; try done.
  - cbn in E. rewrite !app_nil_r in E. by subst.
  - injection C as -> C. f_equal. apply IH; [done|]. cbn. by rewrite C.
Qed.

(** Chains of parsed certificates with the same bytes are the same. *)
Lemma chain_bytes_inj `{XP : X509Spec} l k :
  Forall parsed l -> Forall parsed k -> chain_bytes l = chain_bytes k -> l = k.
Proof.
  assert (forall c, parsed c -> Raw c <> []) as Hne.
  { intros c Hc E. pose proof parse_empty as He. rewrite <- E, Hc in He. done. }
  intros Hl. revert k. induction Hl as [|c l Hc Hl IH]; intros [|d k] Hk E; [done|..].
  - apply Forall_cons in Hk as [Hd%Hne _]. cbn in E. by destruct (Raw d).
  - apply Hne in Hc. cbn in E. by destruct (Raw c).
  - apply Forall_cons in Hk as [Hd Hk]. cbn in E. pose proof (parse_prefix _ _ _ _ _ _ Hc Hd E) as Er.
    unfold chain_bytes in IH. unfold parsed in Hc, Hd. rewrite Er in E, Hc. apply (inj (app _)) in E.
    f_equal; [congruence|by apply IH].
Qed.

(** ** Places in the cache *)

Definition strip_dashes (s : bytes) : bytes := List.filter (fun c => negb (Ascii.eqb c "-")) s.

Lemma uuid_chars_length i s : uuid_chars i s = true -> (i + length s = 36)%nat.
Proof.
  revert i. induction s as [|c s IH]; intros i; cbn; [intros H%Nat.eqb_eq; lia|].
  intros [_ H%IH]%andb_prop. lia.
Qed.

Lemma strip_hex c s : is_hex c = true -> strip_dashes (c :: s) = c :: strip_dashes s.
Proof. intros H. cbn. destruct (Ascii.eqb_spec c "-") as [->|]; done. Qed.

Lemma uuid_strip_inj i s t :
  uuid_chars i s = true -> uuid_chars i t = true -> strip_dashes s = strip_dashes t -> s = t.
Proof.
  revert i t. induction s as [|c s IH]; intros i [|d t] Hs Ht; [done|..].
  - apply uuid_chars_length in Hs, Ht. cbn in *. lia.
  - apply uuid_chars_length in Hs, Ht. cbn in *. lia.
  - cbn [uuid_chars] in Hs, Ht. apply andb_prop in Hs as [Hc Hs]. apply andb_prop in Ht as [Hd Ht].
    case_bool_decide.
    + apply Ascii.eqb_eq in Hc, Hd. subst c d. cbn. intros E. f_equal. by apply (IH (S i)).
    + rewrite !strip_hex by done. intros [= -> E]. f_equal. by apply (IH (S i)).
Qed.

Lemma uuid_strip_length i s : (i <= 8)%nat -> uuid_chars i s = true -> (8 - i <= length (strip_dashes s))%nat.
Proof.
  revert i. induction s as [|c s IH]; intros i Hi H; [apply Nat.eqb_eq in H; lia|].
  destruct (decide (i = 8%nat)) as [->|Hne]; [lia|]. cbn [uuid_chars] in H. rewrite bool_decide_false in H.
  - apply andb_prop in H as [Hc Hs%IH]; [|lia]. rewrite strip_hex by done. cbn. lia.
  - rewrite !elem_of_cons, elem_of_nil. lia.
Qed.

Lemma shardedKey_inj prefix id id' ext :
  uuid_chars 0 id = true -> uuid_chars 0 id' = true -> shardedKey prefix id ext = shardedKey prefix id' ext -> id = id'.
Proof.
  intros H H'. unfold shardedKey. fold (strip_dashes id) (strip_dashes id').
  pose proof (uuid_strip_length 0 id ltac:(lia) H). pose proof (uuid_strip_length 0 id' ltac:(lia) H').
  intros E. apply (uuid_strip_inj 0 _ _ H H'). revert E. generalize dependent (strip_dashes id).
  generalize dependent (strip_dashes id'). intros h' Hh' h Hh E. apply (inj (app prefix)) in E.
  destruct h as [|a [|b [|c [|d [|e [|f h]]]]]]; cbn in Hh; try lia.
  destruct h' as [|a' [|b' [|c' [|d' [|e' [|f' h']]]]]]; cbn in Hh'; try lia.
  cbn in E. injection E as -> -> -> -> -> -> E. do 6 f_equal. by apply (inj (fun l => l ++ ext)%list) in E.
Qed.

Lemma shardedKey_prefix prefix id ext : HasPrefix prefix (shardedKey prefix id ext) = true.
Proof. apply HasPrefix_true. eexists. reflexivity. Qed.

Lemma shardedKey_suffix prefix id ext : HasSuffix ext (shardedKey prefix id ext) = true.
Proof. apply HasSuffix_true. unfold shardedKey. rewrite !app_assoc. eexists. reflexivity. Qed.

(** ** What tells two leaves apart *)

Section Salts.
Context `{DG : Digests}.

(** Two certificates give a leaf the same salt, and so the same key, exactly when
    they have the same DNS names, addresses, mail addresses and URIs, in whatever
    order; no name of one kind passes for one of another. *)
Theorem leaf_salt_identity c c' :
  separable_names c -> separable_names c' ->
  let sans := typeTaggedSANStrings c in let sans' := typeTaggedSANStrings c' in
  (sha256 (leaf_identity sans) = sha256 (leaf_identity sans') -> leaf_identity sans = leaf_identity sans') ->
  leafSalt sans = leafSalt sans' <-> same_names c c'.
Proof.
  intros Hc Hc' sans sans' Hsha. unfold leafSalt. rewrite <- tagged_names_perm, <- leaf_identity_perm by (by apply typeTagged_separable).
  split; [exact Hsha|]. fold sans sans'. by intros ->.
Qed.

(** With a zero byte in a name, which an IA5String may hold, one name passes for two,
    in the salt of a leaf and in the identity of the listener's certificate. *)
Theorem zero_byte_merges_names :
  let a := str "a.example" in let b := str "b.example" in
  leafSalt (tagSANs [(a ++ NUL :: str "dns:" ++ b)%list] []) = leafSalt (tagSANs [a; b] [])
  /\ selfCertIdentityHash [(a ++ NUL :: b)%list] = selfCertIdentityHash [a; b].
Proof. done. Qed.

End Salts.
