(* ===== verification/CertChain.v ===== *)
(** * Chains of certificates (internal/cert/clone.go, and the chains of ca.go and cache.go)

    Cloning an upstream's chain under the signing CA, putting a stored chain back
    in order, and finding the way from a signing CA to its root. *)

From S2P Require Import Prelude GoStrings Netip Encoding X509 CertKeys.

Open Scope Z_scope.

(** ** The signing CA *)

Record CA : Type := {
  ca_Cert : Certificate; ca_Key : PrivateKey; ca_Chain : list Certificate; ca_Generated : bool }.

Definition ChainDER (ca : CA) : list bytes := Raw (ca_Cert ca) :: map Raw (ca_Chain ca).

(** [issuanceBudget]: how many intermediates fit beneath the CA, if it limits
    them. *)
Definition issuanceBudget (ca : CA) : Z * bool :=
  let i := Info (ca_Cert ca) in
  if MaxPathLenZero i then (0, true)
  else if 0 <=? MaxPathLen i then (MaxPathLen i, true)
  else (0, false).

(** ** Cloning *)

Section Clone.
Context `{DG : Digests} `{CR : Crypto} `{XS : X509}.

Definition cloneTemplate (real : Certificate) : Template :=
  let i := Info real in
  {| tm_SerialNumber := serialFor real; tm_Subject := Subject real;
     tm_NotBefore := NotBefore real; tm_NotAfter := NotAfter real;
     tm_Info :=
       {| KeyUsage := if IsCA i then Z.lor (KeyUsage i) KeyUsageCertSign else KeyUsage i;
          ExtKeyUsage := ExtKeyUsage i; UnknownExtKeyUsage := UnknownExtKeyUsage i;
          BasicConstraintsValid := if IsCA i then true else BasicConstraintsValid i; IsCA := IsCA i;
          MaxPathLen := MaxPathLen i; MaxPathLenZero := MaxPathLenZero i;
          Names := no_sans; SubjectKeyId := []; AuthorityKeyId := [] |};
     tm_ExtraExtensions :=
       match findExtension (Extensions real) oidSubjectAltName with Some san => [san] | None => [] end |}.

(** [tmpl.NotAfter = ca.Cert.NotAfter] where it would outlive the CA. *)
Definition clamp_not_after (tmpl : Template) (limit : Z) : Template :=
  if limit <? tm_NotAfter tmpl then
    {| tm_SerialNumber := tm_SerialNumber tmpl; tm_Subject := tm_Subject tmpl;
       tm_NotBefore := tm_NotBefore tmpl; tm_NotAfter := limit; tm_Info := tm_Info tmpl;
       tm_ExtraExtensions := tm_ExtraExtensions tmpl |}
  else tmpl.

(** One round of the loop of [CloneChain]: the clone of [real], beneath the clones
    [above] made already. *)
Definition clone_element (r : nat) (ca : CA) (clusterKey : bytes) (isLeaf : bool) (real : Certificate)
    (above : list (Certificate * PrivateKey)) : result (Certificate * PrivateKey) :=
  let tmpl := cloneTemplate real in
  key ← wrap "cert: derive key for chain element"
    (if isLeaf then LeafKey clusterKey (typeTaggedSANStrings real)
     else IntermediateKey clusterKey (RawIssuer real) (SerialNumber real));
  let '(tmpl, parentCert, parentKey) :=
    match above with
    | (c, k) :: _ => (tmpl, c, k)
    | [] => (clamp_not_after tmpl (NotAfter (ca_Cert ca)), ca_Cert ca, ca_Key ca)
    end in
  der ← wrap "cert: sign chain element" (CreateCertificate r tmpl (Parent parentCert) (Public key) parentKey);
  cert ← wrap "cert: parse chain element" (ParseCertificate der);
  Ok (cert, key).

(** The loop, from the top of the chain down to its leaf. *)
Fixpoint clone_loop (r : nat) (ca : CA) (clusterKey : bytes) (isLeaf : bool) (chain : list Certificate)
  : result (list (Certificate * PrivateKey)) :=
  match chain with
  | [] => Ok []
  | real :: rest =>
      above ← clone_loop r ca clusterKey false rest;
      c ← clone_element (r + length rest) ca clusterKey isLeaf real above;
      Ok (c :: above)
  end.

(** The part of the chain that is cloned. *)
Definition effectiveChain (ca : CA) (realChain : list Certificate) : list Certificate :=
  let '(budget, constrained) := issuanceBudget ca in
  if constrained && (budget <? Z.of_nat (length realChain) - 1) then take 1 realChain else realChain.

Definition CloneChain (r : nat) (ca : CA) (clusterKey : bytes) (realChain : list Certificate)
  : result (list Certificate * list PrivateKey) :=
  if (length realChain =? 0)%nat then Error "cert: empty real chain"
  else
    synth ← clone_loop r ca clusterKey true (effectiveChain ca realChain);
    Ok (map fst synth, map snd synth).

End Clone.

(** ** Ordering *)

(** The [seen] loop of [orderChainLeafFirst]; every round adds a subject to
    [seen], so [fuel] need not exceed the number of certificates. *)
Fixpoint follow_issuers (fuel : nat) (bySubject : gmap bytes Certificate) (seen : gset bytes) (cur : Certificate)
  : list Certificate :=
  cur ::
  match fuel with
  | O => []
  | S fuel =>
      let seen := {[RawSubject cur]} ∪ seen in
      match bySubject !! RawIssuer cur with
      | Some next => if bool_decide (RawSubject next ∈ seen) then [] else follow_issuers fuel bySubject seen next
      | None => []
      end
  end.

Definition by_subject (certs : list Certificate) : gmap bytes Certificate :=
  foldl (fun m c => <[RawSubject c := c]> m) ∅ certs.

Definition issuers (certs : list Certificate) : gset bytes := list_to_set (map RawIssuer certs).

Definition orderChainLeafFirst (certs : list Certificate) : result (list Certificate) :=
  if (length certs =? 0)%nat then Error "empty chain"
  else
    match List.find (fun c => bool_decide (RawSubject c ∉ issuers certs)) certs with
    | None => Error "no unique leaf (every subject is also an issuer)"
    | Some leaf =>
        let ordered := follow_issuers (length certs) (by_subject certs) ∅ leaf in
        if (length ordered =? length certs)%nat then Ok ordered
        else Error "chain has more certs than chain from the leaf"
    end.

(** ** From a signing CA to its root *)

Section Resolve.
Context `{CR : Crypto}.

Definition isSelfSigned (c : Certificate) : bool := CheckSignatureFrom c c.

Definition findVerifiedParent (c : Certificate) (pool : list Certificate) : option Certificate :=
  List.find (fun p => bool_decide (RawSubject p = RawIssuer c) && CheckSignatureFrom c p) pool.

(** The loop of [resolveChain]; [None] is running out of fuel. *)
Fixpoint resolve_loop (fuel : nat) (pool : list Certificate) (seen : gset bytes) (current : Certificate)
    (chain : list Certificate) : option (result (list Certificate)) :=
  match fuel with
  | O => None
  | S fuel =>
      match findVerifiedParent current pool with
      | None => Some (Error "signing certificate is an intermediate but the bundle does not carry a complete, verifiable chain to a self-signed root")
      | Some parent =>
          if bool_decide (Raw parent ∈ seen) then Some (Error "signing certificate's chain contains a cycle")
          else if isSelfSigned parent then Some (Ok chain)
          else resolve_loop fuel pool ({[Raw parent]} ∪ seen) parent (chain ++ [parent])%list
      end
  end.

Definition resolveChain (c : Certificate) (pool : list Certificate) : result (list Certificate) :=
  if isSelfSigned c then Ok []
  else default (Error "out of fuel") (resolve_loop (S (length pool)) pool {[Raw c]} c []).

(** The loop of [CertCache.verify]: every certificate is signed by the next, the
    last by [root]. *)
Fixpoint verify_links (root : Certificate) (chain : list Certificate) : bool :=
  match chain with
  | [] => true
  | elem :: rest =>
      let parent := match rest with next :: _ => next | [] => root end in
      if CheckSignatureFrom elem parent then verify_links root rest else false
  end.

End Resolve.

(** ** Ordering, proved *)

(** Each certificate is issued in the name of the next. *)
Fixpoint linked (l : list Certificate) : Prop :=
  match l with
  | c :: ((d :: _) as t) => RawIssuer c = RawSubject d /\ linked t
  | _ => True
  end.

Abbreviation subjects := (map RawSubject).

Lemma by_subject_snoc l c : by_subject (l ++ [c]) = <[RawSubject c := c]> (by_subject l).
Proof. unfold by_subject. by rewrite foldl_app. Qed.

Lemma by_subject_sound l k c : by_subject l !! k = Some c -> c ∈ l /\ RawSubject c = k.
Proof.
  induction l as [|x l IH] using rev_ind; [done|]. rewrite by_subject_snoc.
  intros [[<- <-]|[_ [? ?]%IH]]%lookup_insert_Some; rewrite elem_of_app, list_elem_of_singleton; auto.
Qed.

Lemma by_subject_complete l c : NoDup (subjects l) -> c ∈ l -> by_subject l !! RawSubject c = Some c.
Proof.
  induction l as [|x l IH] using rev_ind; [by intros _ ?%elem_of_nil|]. rewrite by_subject_snoc, map_app.
  intros (Hn & Hd & _)%NoDup_app. rewrite elem_of_app, list_elem_of_singleton. intros [Hin| ->]; [|apply lookup_insert_eq].
  rewrite lookup_insert_ne; [by apply IH|]. intros E. apply (Hd (RawSubject x)); [|by left].
  rewrite E. by apply (list_elem_of_fmap_2 RawSubject).
Qed.

Lemma follow_sound fuel certs seen cur :
  RawSubject cur ∉ seen ->
  let o := follow_issuers fuel (by_subject certs) seen cur in
  linked o /\ NoDup (subjects o) /\ (forall c, c ∈ o -> RawSubject c ∉ seen) /\ (forall c, c ∈ tail o -> c ∈ certs).
Proof.
  revert seen cur. induction fuel as [|fuel IH]; intros seen cur Hc; cbn -[union].
  { split_and!; [done|by apply NoDup_singleton|by intros c ->%list_elem_of_singleton|by intros c ?%elem_of_nil]. }
  destruct (by_subject certs !! RawIssuer cur) as [next|] eqn:E; [case_bool_decide as Hs|];
    try (split_and!; [done|by apply NoDup_singleton|by intros c ->%list_elem_of_singleton|by intros c ?%elem_of_nil]).
  apply by_subject_sound in E as [Hin E]. destruct (IH _ _ Hs) as (Hl & Hn & Hd & Ht). split_and!.
  - destruct fuel; cbn -[union] in Hl |- *; auto.
  - apply NoDup_cons. split; [|done]. intros (c & Ec & Hc')%list_elem_of_fmap. apply (Hd c Hc'). set_solver.
  - intros c [->|Hc']%elem_of_cons; [done|]. apply Hd in Hc'. set_solver.
  - intros c Hc'. destruct fuel; cbn -[union] in Hc', Ht; apply elem_of_cons in Hc' as [->|Hc']; auto.
Qed.

(** A chain that is linked is followed to its end. *)
Lemma follow_complete fuel certs seen cur rest :
  linked (cur :: rest) -> NoDup (subjects (cur :: rest)) -> NoDup (subjects certs) ->
  (forall c, c ∈ rest -> c ∈ certs) -> (forall c, c ∈ cur :: rest -> RawSubject c ∉ seen) ->
  (forall c, c ∈ certs -> RawSubject c ∈ seen \/ RawSubject c ∈ subjects (cur :: rest)) ->
  (length rest <= fuel)%nat -> follow_issuers fuel (by_subject certs) seen cur = cur :: rest.
Proof.
  revert fuel seen cur. induction rest as [|d rest IH]; intros fuel seen cur Hl Hn Hnc Hin Hns Hall Hf.
  - destruct fuel; [done|]. cbn -[union]. destruct (by_subject certs !! RawIssuer cur) as [next|] eqn:E; [|done].
    apply by_subject_sound in E as [Hc _]. rewrite bool_decide_true; [done|].
    destruct (Hall _ Hc) as [?|[->|?%elem_of_nil]%elem_of_cons]; set_solver.
  - destruct fuel as [|fuel]; [cbn in Hf; lia|]. destruct Hl as [Hcd Hl]. cbn -[union]. rewrite Hcd.
    rewrite by_subject_complete by (try done; apply Hin; by left). apply NoDup_cons in Hn as [Hni Hn].
    rewrite bool_decide_false; [f_equal; apply IH; try done|].
    + intros c Hc. apply Hin. by right.
    + intros c Hc. rewrite elem_of_union, elem_of_singleton. intros [E|Hs]; [|by apply (Hns c); [by right|]].
      apply Hni. rewrite <- E. exact (list_elem_of_fmap_2 RawSubject (d :: rest) c Hc).
    + intros c Hc. destruct (Hall c Hc) as [?|[->|?]%elem_of_cons]; [left; set_solver|left; set_solver|by right].
    + cbn in Hf. lia.
    + rewrite elem_of_union, elem_of_singleton. intros [E|Hs]; [|by apply (Hns d); [right; left|]].
      apply Hni. rewrite <- E. by left.
Qed.

Lemma linked_issuers l c d : linked (c :: l) -> d ∈ l -> RawSubject d ∈ issuers (c :: l).
Proof.
  unfold issuers. rewrite elem_of_list_to_set. revert c. induction l as [|e l IH]; intros c Hl Hd; [by apply elem_of_nil in Hd|].
  destruct Hl as [Hce Hl].
  apply elem_of_cons in Hd as [->|Hd]; [rewrite <- Hce; by left|]. right. by apply IH.
Qed.

Lemma issuers_perm l k : l ≡ₚ k -> issuers l = issuers k.
Proof. intros H. apply set_eq. intros x. unfold issuers. by rewrite !elem_of_list_to_set, H. Qed.

(** A chain in order, and the leaf that issues none of [certs]. *)
Definition ordered_chain (certs o : list Certificate) : Prop :=
  o ≡ₚ certs /\ linked o /\ NoDup (subjects o)
  /\ exists leaf, head o = Some leaf /\ RawSubject leaf ∉ issuers certs.

Lemma order_sound certs o : orderChainLeafFirst certs = Ok o -> ordered_chain certs o.
Proof.
  unfold orderChainLeafFirst, ordered_chain.
  destruct (length certs =? 0)%nat eqn:E0; [done|].
  destruct (List.find _ certs) as [leaf|] eqn:El; [|done]. apply find_some in El as [Hin Hl%bool_decide_eq_true].
  destruct (follow_sound (length certs) certs ∅ leaf (not_elem_of_empty _)) as (Hlk & Hn & _ & Ht).
  cbv zeta. set (o' := follow_issuers _ _ _ _) in *. destruct (length o' =? length certs)%nat eqn:E; [|done]. intros [= <-].
  assert (head o' = Some leaf) as Hh by (unfold o'; by destruct (length certs)). split_and!; [|done|done|by eauto].
  clearbody o'. apply submseteq_length_Permutation; [|apply Nat.eqb_eq in E; lia].
  apply NoDup_submseteq; [by eapply NoDup_fmap_1|]. intros c Hc. destruct o' as [|x o']; [by apply elem_of_nil in Hc|].
  injection Hh as ->. apply elem_of_cons in Hc as [->|Hc]; [by apply list_elem_of_In|by apply Ht].
Qed.

Lemma order_complete certs o : ordered_chain certs o -> orderChainLeafFirst certs = Ok o.
Proof.
  unfold orderChainLeafFirst, ordered_chain.
  intros (Hp & Hlk & Hn & leaf & Hh & Hni). destruct o as [|x o]; [done|]. injection Hh as ->.
  pose proof (Permutation_length Hp) as Hlen. destruct (length certs =? 0)%nat eqn:E0.
  { apply Nat.eqb_eq in E0. cbn in Hlen. lia. }
  assert (leaf ∈ certs) as Hin by (rewrite <- Hp; by left).
  assert (List.find (fun c => bool_decide (RawSubject c ∉ issuers certs)) certs = Some leaf) as ->.
  { destruct (List.find _ certs) as [y|] eqn:Ef.
    - apply find_some in Ef as [Hy Hyi%bool_decide_eq_true]. apply list_elem_of_In in Hy. rewrite <- Hp in Hy.
      apply elem_of_cons in Hy as [->|Hy]; [done|]. exfalso. apply Hyi. rewrite <- (issuers_perm _ _ Hp).
      by apply linked_issuers.
    - apply list_elem_of_In in Hin. pose proof (find_none _ _ Ef _ Hin) as Hf. cbn in Hf.
      by rewrite bool_decide_true in Hf. }
  assert (follow_issuers (length certs) (by_subject certs) ∅ leaf = leaf :: o) as ->.
  { apply follow_complete; [done|done|by rewrite <- Hp| | | |cbn in Hlen; lia].
    - intros c Hc. rewrite <- Hp. by right.
    - intros c _. set_solver.
    - intros c Hc. right. rewrite <- Hp in Hc. by apply (list_elem_of_fmap_2 RawSubject). }
  cbv zeta. by rewrite Hlen, Nat.eqb_refl.
Qed.

(** C28: [orderChainLeafFirst] succeeds exactly on the rearrangements of a chain
    whose certificates each name the next one as issuer, with no subject twice
    and a leaf that issues nothing, and returns that chain, leaf first. *)
Theorem order_chain_exact certs o : orderChainLeafFirst certs = Ok o <-> ordered_chain certs o.
Proof. split; [apply order_sound|apply order_complete]. Qed.

(** A chain that is found again in whatever order it was stored. *)
Definition reloadable (chain : list Certificate) : Prop :=
  NoDup (subjects chain) /\ exists leaf, head chain = Some leaf /\ RawSubject leaf ∉ issuers chain.

(** Of a linked chain there is one order. *)
Lemma order_unique certs chain o :
  orderChainLeafFirst certs = Ok o -> certs ≡ₚ chain -> linked chain -> o = chain.
Proof.
  intros Ho Hp Hl. pose proof (order_sound _ _ Ho) as (Hpo & _ & Hn & leaf & Hh & Hni).
  assert (ordered_chain certs chain) as Hc.
  { split_and!; [by symmetry|done|by rewrite <- Hp, <- Hpo|]. exists leaf. split; [|done].
    destruct chain as [|x rest]; [by rewrite Hp in Hpo; apply Permutation_nil_r in Hpo; subst o|].
    assert (leaf ∈ x :: rest) as Hin by (rewrite <- Hp, <- Hpo; destruct o; [done|]; injection Hh as ->; by left).
    apply elem_of_cons in Hin as [->|Hin]; [done|]. exfalso. apply Hni. rewrite (issuers_perm _ _ Hp). by apply linked_issuers. }
  apply order_complete in Hc. congruence.
Qed.

Lemma order_reload certs chain :
  certs ≡ₚ chain -> linked chain ->
  (reloadable chain -> orderChainLeafFirst certs = Ok chain)
  /\ (~ reloadable chain -> exists e, orderChainLeafFirst certs = Error e).
Proof.
  intros Hp Hl. split.
  - intros (Hn & leaf & Hh & Hni). apply order_complete. split_and!; [by symmetry|done|done|].
    exists leaf. by rewrite (issuers_perm _ _ Hp).
  - intros Hr. destruct (orderChainLeafFirst certs) as [o|e] eqn:E; [|by eexists]. exfalso. apply Hr.
    pose proof (order_sound _ _ E) as (_ & _ & Hn & leaf & Hh & Hni). rewrite (order_unique _ _ _ E Hp Hl) in *.
    split; [done|]. exists leaf. by rewrite <- (issuers_perm _ _ Hp).
Qed.

(** ** Resolving, proved *)

Section ResolveCorrect.
Context `{CR : Crypto}.

(** [p] of the pool signed [c] in its own name. *)
Definition verified_parent (pool : list Certificate) (c p : Certificate) : Prop :=
  p ∈ pool /\ RawSubject p = RawIssuer c /\ CheckSignatureFrom c p = true.

(** A way from [c] through [chain], all issued but not self-signed, to a root of
    the pool. *)
Fixpoint path_to_root (pool : list Certificate) (c : Certificate) (chain : list Certificate) (root : Certificate) : Prop :=
  match chain with
  | [] => verified_parent pool c root /\ isSelfSigned root = true
  | p :: chain => verified_parent pool c p /\ isSelfSigned p = false /\ path_to_root pool p chain root
  end.

Lemma findVerifiedParent_Some pool c p : findVerifiedParent c pool = Some p -> verified_parent pool c p.
Proof.
  intros [Hin [Hn%bool_decide_eq_true Hc]%andb_prop]%find_some. split; [by apply list_elem_of_In|done].
Qed.

Lemma findVerifiedParent_None pool c p : findVerifiedParent c pool = None -> ~ verified_parent pool c p.
Proof.
  intros H (Hin%list_elem_of_In & Hn & Hc). pose proof (find_none _ _ H _ Hin) as Hf. cbn in Hf.
  by rewrite Hc, bool_decide_true in Hf.
Qed.

(** The bytes of the pool that were not seen yet. *)
Definition unseen (pool : list Certificate) (seen : gset bytes) : gset bytes := list_to_set (map Raw pool) ∖ seen.

Lemma unseen_step pool seen p :
  p ∈ pool -> Raw p ∉ seen -> (size (unseen pool ({[Raw p]} ∪ seen)) < size (unseen pool seen))%nat.
Proof.
  intros Hin Hs. apply subset_size. unfold unseen.
  assert (Raw p ∈ (list_to_set (map Raw pool) : gset bytes)).
  { apply elem_of_list_to_set. by apply (list_elem_of_fmap_2 Raw). }
  set_solver.
Qed.

(** Enough fuel: every round uses up a certificate of the pool. *)
Lemma resolve_loop_total fuel pool seen c chain :
  (size (unseen pool seen) < fuel)%nat -> is_Some (resolve_loop fuel pool seen c chain).
Proof.
  revert seen c chain. induction fuel as [|fuel IH]; intros seen c chain Hf; [lia|]. cbn -[union].
  destruct (findVerifiedParent c pool) as [p|] eqn:E; [|by eexists].
  case_bool_decide as Hs; [by eexists|]. destruct (isSelfSigned p); [by eexists|].
  apply IH. apply findVerifiedParent_Some in E as [Hin _]. pose proof (unseen_step _ _ _ Hin Hs). lia.
Qed.

Lemma resolve_loop_sound fuel pool seen c chain out :
  resolve_loop fuel pool seen c chain = Some (Ok out) ->
  exists rest root, out = (chain ++ rest)%list /\ path_to_root pool c rest root
    /\ NoDup (map Raw (rest ++ [root])) /\ forall x, x ∈ (rest ++ [root])%list -> Raw x ∉ seen.
Proof.
  revert seen c chain. induction fuel as [|fuel IH]; intros seen c chain; [done|]. cbn -[union].
  destruct (findVerifiedParent c pool) as [p|] eqn:E; [|done]. apply findVerifiedParent_Some in E.
  case_bool_decide as Hs; [done|]. destruct (isSelfSigned p) eqn:Ep.
  - intros [= <-]. exists [], p. rewrite app_nil_r. split_and!; try done; [apply NoDup_singleton|].
    by intros x ->%list_elem_of_singleton.
  - intros (rest & root & -> & Hp & Hn & Hd)%IH. exists (p :: rest), root. rewrite <- app_assoc. split_and!; try done.
    + cbn. apply NoDup_cons. split; [|done]. intros (x & Ex & Hx)%list_elem_of_fmap. apply (Hd x Hx). set_solver.
    + intros x [->|Hx]%elem_of_cons; [done|]. apply Hd in Hx. set_solver.
Qed.

(** No certificate has two parents in the pool. *)
Definition unambiguous (pool : list Certificate) : Prop :=
  forall c p q, verified_parent pool c p -> verified_parent pool c q -> p = q.

Lemma resolve_loop_complete fuel pool seen c chain rest root :
  unambiguous pool -> path_to_root pool c rest root -> NoDup (map Raw (rest ++ [root])) ->
  (forall x, x ∈ (rest ++ [root])%list -> Raw x ∉ seen) -> (length rest < fuel)%nat ->
  resolve_loop fuel pool seen c chain = Some (Ok (chain ++ rest)%list).
Proof.
  intros Hu. revert fuel seen c chain. induction rest as [|p rest IH]; intros fuel seen c chain Hp Hn Hd Hf;
    (destruct fuel as [|fuel]; [cbn in Hf; lia|]); cbn -[union]; destruct Hp as [Hv Hp];
    (destruct (findVerifiedParent c pool) as [q|] eqn:E; [|by apply findVerifiedParent_None in Hv]);
    apply findVerifiedParent_Some in E; rewrite (Hu _ _ _ E Hv).
  - rewrite bool_decide_false by (apply Hd; by left). rewrite Hp. by rewrite app_nil_r.
  - destruct Hp as [Hself Hp]. rewrite bool_decide_false by (apply Hd; by left). rewrite Hself.
    cbn in Hn. apply NoDup_cons in Hn as [Hni Hn]. cbn in Hf.
    rewrite (IH fuel _ _ _ Hp Hn); [by rewrite <- app_assoc| |lia].
    intros x Hx. rewrite elem_of_union, elem_of_singleton. intros [Ex|Hs]; [|by apply (Hd x); [right|]].
    apply Hni. rewrite <- Ex. by apply (list_elem_of_fmap_2 Raw).
Qed.

Lemma path_unique pool c chain chain' root root' :
  unambiguous pool -> path_to_root pool c chain root -> path_to_root pool c chain' root' -> chain = chain' /\ root = root'.
Proof.
  intros Hu. revert c chain'. induction chain as [|p chain IH]; intros c [|p' chain'] [Hv Hp] [Hv' Hp'].
  - split; [done|]. by eapply Hu.
  - destruct Hp' as [Hs _]. rewrite (Hu _ _ _ Hv Hv') in Hp. congruence.
  - destruct Hp as [Hs _]. rewrite (Hu _ _ _ Hv Hv') in Hs. congruence.
  - destruct Hp as [_ Hp], Hp' as [_ Hp']. rewrite (Hu _ _ _ Hv Hv') in *.
    destruct (IH _ _ Hp Hp') as [-> ->]. done.
Qed.

Lemma path_suffix pool c a x b root : path_to_root pool c (a ++ x :: b) root -> path_to_root pool x b root.
Proof. revert c. induction a as [|y a IH]; intros c; cbn; [by intros (_ & _ & H)|]. intros (_ & _ & H). by eapply IH. Qed.

Lemma path_in_pool pool c chain root x : path_to_root pool c chain root -> x ∈ (chain ++ [root])%list -> x ∈ pool.
Proof.
  revert c. induction chain as [|p chain IH]; intros c; cbn.
  - by intros [[? _] _] ->%list_elem_of_singleton.
  - intros ([Hin _] & _ & Hr) [->|Hx]%elem_of_cons; [done|]. by eapply IH.
Qed.

Lemma path_root pool c chain root : path_to_root pool c chain root -> isSelfSigned root = true.
Proof. revert c. induction chain as [|p chain IH]; intros c; cbn; [by intros [_ ?]|]. intros (_ & _ & Hr). by eapply IH. Qed.

(** The bytes identify the certificates. *)
Definition raw_identifies (l : list Certificate) : Prop := forall p q, p ∈ l -> q ∈ l -> Raw p = Raw q -> p = q.

(** On its way to the root no certificate comes back. *)
Lemma path_no_return pool c chain root :
  unambiguous pool -> raw_identifies (c :: pool) -> isSelfSigned c = false -> path_to_root pool c chain root ->
  forall x, x ∈ (chain ++ [root])%list -> Raw x <> Raw c.
Proof.
  intros Hu Hr Hc Hp x Hx E. apply Hr in E; [|right; by eapply path_in_pool|by left]. subst x.
  apply elem_of_app in Hx as [Hx|Hx]; [apply list_elem_of_split in Hx as (a & b & ->)|apply list_elem_of_singleton in Hx as ->].
  - pose proof (path_suffix _ _ _ _ _ _ Hp) as Hp'. destruct (path_unique _ _ _ _ _ _ Hu Hp Hp') as [E _].
    apply (f_equal length) in E. rewrite length_app in E. cbn in E. lia.
  - apply path_root in Hp. congruence.
Qed.

Lemma path_nodup pool c chain root :
  unambiguous pool -> raw_identifies pool -> path_to_root pool c chain root -> NoDup (map Raw (chain ++ [root])).
Proof.
  intros Hu Hr. revert c. induction chain as [|p chain IH]; intros c Hp; [apply NoDup_singleton|].
  destruct Hp as ([Hin Hv] & Hs & Hp). cbn. apply NoDup_cons. split; [|by eapply IH].
  intros (x & Ex & Hx)%list_elem_of_fmap. symmetry in Ex. revert Ex. eapply path_no_return; try done.
  intros y z [->|Hy]%elem_of_cons [->|Hz]%elem_of_cons; auto.
Qed.

(** A path is no longer than the pool. *)
Lemma path_length pool c chain root :
  path_to_root pool c chain root -> NoDup (map Raw (chain ++ [root])) -> (length chain < length pool)%nat.
Proof.
  intros Hp Hn. assert (chain ++ [root] ⊆+ pool) as Hsub.
  { apply NoDup_submseteq; [by eapply NoDup_fmap_1|]. intros x. by eapply path_in_pool. }
  apply submseteq_length in Hsub. rewrite length_app in Hsub. cbn in Hsub. lia.
Qed.

(** [resolveChain] always ends; what it returns leads from the signing
    certificate, by signatures that verify, to a self-signed root of the bundle; and
    when no certificate of the bundle has two possible issuers it finds the way
    whenever there is one. *)
Theorem resolve_chain_exact c pool :
  is_Some (resolve_loop (S (length pool)) pool {[Raw c]} c [])
  /\ (forall chain, resolveChain c pool = Ok chain ->
        if isSelfSigned c then chain = [] else exists root, path_to_root pool c chain root)
  /\ (unambiguous pool -> raw_identifies (c :: pool) -> isSelfSigned c = false ->
        forall chain root, path_to_root pool c chain root -> resolveChain c pool = Ok chain).
Proof.
  unfold resolveChain. split_and!.
  - apply resolve_loop_total. apply Nat.lt_succ_r.
    trans (size (list_to_set (map Raw pool) : gset bytes)); [apply subseteq_size; unfold unseen; set_solver|].
    clear c. induction pool as [|p pool IH]; cbn [map list_to_set]; [by rewrite size_empty|].
    rewrite size_union_alt, size_singleton. etrans; [apply Nat.add_le_mono_l, subseteq_size|].
    2: { cbn. apply le_n_S. exact IH. } set_solver.
  - intros chain. destruct (isSelfSigned c); [by intros [= <-]|].
    destruct (resolve_loop _ _ _ _ _) as [r|] eqn:E; [|done]. cbn. intros ->.
    apply resolve_loop_sound in E as (rest & root & -> & Hp & _). eauto.
  - intros Hu Hr Hc chain root Hp. rewrite Hc.
    assert (NoDup (map Raw (chain ++ [root]))) as Hn.
    { eapply path_nodup; [done| |done]. intros x y Hx Hy. apply Hr; by right. }
    rewrite (resolve_loop_complete _ _ _ _ _ _ _ Hu Hp Hn); [done| |].
    + intros x Hx. rewrite elem_of_singleton. by eapply path_no_return.
    + pose proof (path_length _ _ _ _ Hp Hn). lia.
Qed.

End ResolveCorrect.

(** ** Cloning, proved *)

(** The issuer of the next clone. *)
Definition parent_cert (ca : CA) (above : list (Certificate * PrivateKey)) : Certificate :=
  match above with (c, _) :: _ => c | [] => ca_Cert ca end.

Definition parent_key (ca : CA) (above : list (Certificate * PrivateKey)) : PrivateKey :=
  match above with (_, k) :: _ => k | [] => ca_Key ca end.

Section CloneCorrect.
Context `{DG : Digests} `{CR : Crypto} `{CS : !CryptoSpec} `{XS : X509} {XP : X509Spec}.

(** [c], with key [k], clones [real]: its names, constraints, usages and validity
    (cut at the CA's own end directly beneath it), under the key derived for it, in
    the name of and signed by the clone above it, and with no extension but those
    of the allow-list. *)
Record clone_of (ca : CA) (clusterKey : bytes) (isLeaf : bool) (real : Certificate)
    (above : list (Certificate * PrivateKey)) (c : Certificate) (k : PrivateKey) : Prop := {
  co_parsed : parsed c;
  co_key : (if isLeaf then LeafKey clusterKey (typeTaggedSANStrings real)
            else IntermediateKey clusterKey (RawIssuer real) (SerialNumber real)) = Ok k;
  co_public : CertPublicKey c = Public k;
  co_serial : SerialNumber c = serialFor real;
  co_subject : marshalName (Subject real) = Ok (RawSubject c);
  co_names : Names (Info c) = Names (Info real);
  co_usage : KeyUsage (Info c)
    = if IsCA (Info real) then Z.lor (KeyUsage (Info real)) KeyUsageCertSign else KeyUsage (Info real);
  co_ext_usage : ExtKeyUsage (Info c) = ExtKeyUsage (Info real)
    /\ UnknownExtKeyUsage (Info c) = UnknownExtKeyUsage (Info real);
  co_constraints : BasicConstraintsValid (Info c) = BasicConstraintsValid (Info real)
    /\ IsCA (Info c) = IsCA (Info real) /\ MaxPathLen (Info c) = MaxPathLen (Info real)
    /\ MaxPathLenZero (Info c) = MaxPathLenZero (Info real);
  co_not_before : NotBefore c = NotBefore real;
  co_not_after : NotAfter c
    = match above with [] => Z.min (NotAfter real) (NotAfter (ca_Cert ca)) | _ => NotAfter real end;
  co_issuer : RawIssuer c = RawSubject (parent_cert ca above);
  co_signed : checkSignature (CertPublicKey (parent_cert ca above)) (RawTBS c) (Signature c) = true;
  co_allowed : Forall (fun e => ext_Id e ∈ written_oids) (Extensions c) }.

(** A chain of clones, leaf first. *)
Fixpoint clones (ca : CA) (clusterKey : bytes) (isLeaf : bool) (reals : list Certificate)
    (synth : list (Certificate * PrivateKey)) : Prop :=
  match reals, synth with
  | [], [] => True
  | real :: reals, (c, k) :: above => clone_of ca clusterKey isLeaf real above c k /\ clones ca clusterKey false reals above
  | _, _ => False
  end.

(** A CA whose certificate is parsed and whose key is the certificate's. *)
Definition ca_ok (ca : CA) : Prop := parsed (ca_Cert ca) /\ CertPublicKey (ca_Cert ca) = Public (ca_Key ca).

Lemma certsign_range u : 0 <= u < 512 -> 0 <= Z.lor u KeyUsageCertSign < 512.
Proof.
  intros [H1 H2]. split; [by apply Z.lor_nonneg|]. unfold KeyUsageCertSign.
  destruct (Z.eq_dec u 0) as [->|]; [done|]. change 512 with (2 ^ 9). apply Z.log2_lt_pow2.
  - assert (0 <= Z.lor u 32) by (by apply Z.lor_nonneg). assert (Z.lor u 32 <> 0); [|lia].
    intros [? _]%Z.lor_eq_0_iff. done.
  - rewrite Z.log2_lor by lia. apply Z.max_lub_lt; [|done]. apply Z.log2_lt_pow2; lia.
Qed.

Lemma cloneTemplate_ok real :
  parsed real -> template_ok known_usage (cloneTemplate real) /\ template_names (cloneTemplate real) (Names (Info real)).
Proof.
  intros Hp. assert (template_names (cloneTemplate real) (Names (Info real))) as Hn.
  { pose proof (parsed_names real Hp) as H. unfold template_names. cbn.
    destruct (findExtension _ _) as [e|] eqn:E; [right|by left; rewrite H].
    exists e. split_and!; try done. by apply findExtension_id in E. }
  split; [|done]. destruct (parsed_info real Hp) as (Hu & Hk & _). split_and!; [..|by eauto]; cbn; try done;
    destruct (IsCA _); try lia; by apply certsign_range.
Qed.

Lemma clamp_ok tmpl limit s :
  template_ok known_usage tmpl /\ template_names tmpl s ->
  template_ok known_usage (clamp_not_after tmpl limit) /\ template_names (clamp_not_after tmpl limit) s.
Proof. unfold clamp_not_after. by destruct (_ <? _). Qed.

(** The names an extension list gives are unique. *)
Lemma template_names_fun tmpl s s' : template_names tmpl s -> template_names tmpl s' -> s = s'.
Proof. intros [[E ->]|(e & E & _ & H & _)] [[E' ->]|(e' & E' & _ & H' & _)]; congruence. Qed.

(** The constraints of a clone are those of the original. *)
Lemma clone_info real s ski aki :
  parsed real ->
  let i := issued_info (tm_Info (cloneTemplate real)) s ski aki in
  BasicConstraintsValid i = BasicConstraintsValid (Info real) /\ IsCA i = IsCA (Info real)
  /\ MaxPathLen i = MaxPathLen (Info real) /\ MaxPathLenZero i = MaxPathLenZero (Info real).
Proof.
  intros (_ & _ & _ & Hz & Hf)%parsed_info. unfold issued_info, cloneTemplate, encoded_path_len. cbn. rewrite Hz.
  destruct (BasicConstraintsValid (Info real)).
  - destruct (IsCA (Info real)); cbn; destruct (MaxPathLen (Info real) =? 0) eqn:E; cbn; by rewrite ?E.
  - destruct (Hf eq_refl) as [-> ->]. done.
Qed.

Lemma clone_issued real limit p pub priv c :
  parsed real -> match p with Self => True | Parent q => parsed q end ->
  issued (clamp_not_after (cloneTemplate real) limit) p pub priv c ->
  Names (Info c) = Names (Info real)
  /\ (exists s ski aki, Info c = issued_info (tm_Info (cloneTemplate real)) s ski aki)
  /\ NotBefore c = NotBefore real
  /\ (whole_seconds limit = limit -> NotAfter c = Z.min (NotAfter real) limit)
  /\ SerialNumber c = serialFor real /\ marshalName (Subject real) = Ok (RawSubject c).
Proof.
  intros Hp Hq [His _ Hser Hsub _ _ Hnb Hna _ _ _ (s & Hs & Hi) _ _].
  destruct (clamp_ok _ limit _ (cloneTemplate_ok real Hp)) as [_ Hn]. rewrite (template_names_fun _ _ _ Hs Hn) in Hi.
  assert (tm_Info (clamp_not_after (cloneTemplate real) limit) = tm_Info (cloneTemplate real)
    /\ tm_SerialNumber (clamp_not_after (cloneTemplate real) limit) = serialFor real
    /\ tm_Subject (clamp_not_after (cloneTemplate real) limit) = Subject real
    /\ tm_NotBefore (clamp_not_after (cloneTemplate real) limit) = NotBefore real
    /\ tm_NotAfter (clamp_not_after (cloneTemplate real) limit) = Z.min (NotAfter real) limit) as (E1 & E2 & E3 & E4 & E5).
  { unfold clamp_not_after. cbn. destruct (Z.ltb_spec limit (NotAfter real)); cbn; split_and!; try done; lia. }
  rewrite E1 in Hi. rewrite E2 in Hser. rewrite E3 in Hsub. rewrite E4 in Hnb. rewrite E5 in Hna.
  destruct (parse_fields _ _ Hp) as (_ & _ & _ & _ & _ & Hb & Ha). rewrite Hb in Hnb. split_and!; try done; [by rewrite Hi|by eauto|].
  intros Hl. rewrite Hna. by destruct (Z.min_spec (NotAfter real) limit) as [[_ ->]|[_ ->]].
Qed.

(** [clone_element] clamps against the CA beneath it, and not at all elsewhere. *)
Lemma clone_element_eq r ca ck isLeaf real above :
  clone_element r ca ck isLeaf real above =
  (key ← wrap "cert: derive key for chain element"
     (if isLeaf then LeafKey ck (typeTaggedSANStrings real)
      else IntermediateKey ck (RawIssuer real) (SerialNumber real));
   let limit := match above with [] => NotAfter (ca_Cert ca) | _ => NotAfter real end in
   der ← wrap "cert: sign chain element"
     (CreateCertificate r (clamp_not_after (cloneTemplate real) limit) (Parent (parent_cert ca above)) (Public key)
        (parent_key ca above));
   cert ← wrap "cert: parse chain element" (ParseCertificate der);
   Ok (cert, key)).
Proof.
  unfold clone_element. destruct above as [|[c k] above]; [done|]. cbn [parent_cert parent_key].
  unfold clamp_not_after. cbn. by rewrite Z.ltb_irrefl.
Qed.

Lemma clone_element_spec r ca ck isLeaf real above c k :
  ca_ok ca -> parsed real -> parsed (parent_cert ca above) ->
  clone_element r ca ck isLeaf real above = Ok (c, k) -> clone_of ca ck isLeaf real above c k.
Proof.
  intros [Hca _] Hp Hq H. rewrite clone_element_eq in H. inv_ok. cbv zeta in H. inv_ok. subst.
  set (limit := match above with [] => _ | _ => _ end) in *.
  destruct (CreateCertificate_issued _ _ (Parent (parent_cert ca above)) _ _ _ (proj1 (clamp_ok _ limit _ (cloneTemplate_ok real Hp))) Hq Hr0)
    as (c' & Hc & His). rewrite Hc in Hr1. injection Hr1 as ->.
  destruct (clone_issued real limit (Parent (parent_cert ca above)) _ _ _ Hp Hq His) as (Hn & (s & ski & aki & Hi) & Hnb & Hna & Hser & Hsub).
  destruct His as [? _ _ _ _ Hiss _ _ Hpub Hsig Hpar _ Hall _].
  assert (whole_seconds limit = limit) as Hl.
  { destruct (parse_fields _ _ Hp) as (_ & _ & _ & _ & _ & _ & Ha), (parse_fields _ _ Hca) as (_ & _ & _ & _ & _ & _ & Ha').
    unfold limit. by destruct above. }
  pose proof (clone_info real s ski aki Hp) as Hci. cbv zeta in Hci. rewrite <- Hi in Hci.
  split; try done; try (by rewrite Hi); [|by rewrite Hpar].
  rewrite Hna by done. unfold limit. destruct above; [done|]. apply Z.min_id.
Qed.

Lemma clone_loop_spec r ca ck isLeaf reals synth :
  ca_ok ca -> Forall parsed reals -> clone_loop r ca ck isLeaf reals = Ok synth -> clones ca ck isLeaf reals synth.
Proof.
  intros Hca Hp. revert isLeaf synth. induction Hp as [|real reals Hr Hp IH]; intros isLeaf synth H; cbn in H;
    [by injection H as <-|].
  apply result_bind_ok in H as (above & Habove & H). apply IH in Habove. apply result_bind_ok in H as ([c k] & Hc & H).
  injection H as <-. cbn. split; [|done]. eapply clone_element_spec; try done.
  destruct above as [|[c' k'] above]; [apply Hca|]. destruct reals; [done|]. apply Habove.
Qed.

Lemma clones_length ca ck isLeaf reals synth : clones ca ck isLeaf reals synth -> length synth = length reals.
Proof.
  revert isLeaf synth. induction reals as [|real reals IH]; intros isLeaf [|[c k] synth]; try done.
  cbn. intros [_ H%IH]. by rewrite H.
Qed.

Lemma CloneChain_spec r ca ck reals certs keys :
  ca_ok ca -> Forall parsed reals -> CloneChain r ca ck reals = Ok (certs, keys) ->
  exists synth, certs = map fst synth /\ keys = map snd synth /\ synth <> []
    /\ clones ca ck true (effectiveChain ca reals) synth.
Proof.
  intros Hca Hp H. unfold CloneChain in H. destruct (length reals =? 0)%nat eqn:E; [done|].
  apply result_bind_ok in H as (synth & Hs & H). injection H as <- <-. exists synth. split_and!; try done.
  - intros ->. destruct reals as [|x reals]; [done|]. unfold effectiveChain in Hs.
    destruct (issuanceBudget ca) as [b cn]. destruct (_ && _); cbn in Hs;
      repeat (apply result_bind_ok in Hs as (? & _ & Hs)); done.
  - eapply clone_loop_spec; [done| |exact Hs]. unfold effectiveChain. destruct (issuanceBudget ca).
    destruct (_ && _); [by apply Forall_take|done].
Qed.

Lemma effectiveChain_parsed ca reals : Forall parsed reals -> Forall parsed (effectiveChain ca reals).
Proof. unfold effectiveChain. destruct (issuanceBudget _), (_ && _); [by apply Forall_take|done]. Qed.

(** The part that is cloned fits under the CA's path length. *)
Lemma effectiveChain_budget ca reals :
  -1 <= MaxPathLen (Info (ca_Cert ca)) ->
  let '(budget, constrained) := issuanceBudget ca in
  constrained = true -> Z.of_nat (length (effectiveChain ca reals)) - 1 <= budget.
Proof.
  intros Hm. unfold effectiveChain, issuanceBudget. destruct (MaxPathLenZero _); [|destruct (Z.leb_spec 0 (MaxPathLen (Info (ca_Cert ca))))];
    intros Hc; try done; cbn [andb]; (case_match eqn:E; [rewrite length_take|apply Z.ltb_ge in E]; lia).
Qed.

(** Its subject and usages can be encoded again, and only a CA limits paths. *)
Definition cloneable (real : Certificate) : Prop :=
  let i := Info real in
  is_ok (marshalName (Subject real)) = true
  /\ is_ok (marshalExt (BodyExtKeyUsage (ExtKeyUsage i) (UnknownExtKeyUsage i))) = true
  /\ (BasicConstraintsValid i = true -> IsCA i = false -> MaxPathLen i = -1).

Lemma clone_template_valid real limit :
  parsed real -> cloneable real -> time_ok limit = true ->
  template_error (clamp_not_after (cloneTemplate real) limit) = None.
Proof.
  intros Hp (_ & _ & Hc) Hl. destruct (parsed_info _ Hp) as (_ & _ & Hm & _ & Hf).
  destruct (parse_fields _ _ Hp) as (_ & _ & _ & Hb & Ha & _).
  pose proof (trunc160_range (issuerSerialHash (RawIssuer real) (SerialNumber real))) as [Hs _].
  assert (template_error (cloneTemplate real) = None) as E.
  { unfold template_error. cbn. destruct (Z.ltb_spec (serialFor real) 0) as [Hlt|]; [unfold serialFor in Hlt; lia|].
    destruct (Z.ltb_spec (MaxPathLen (Info real)) (-1)); [lia|]. rewrite andb_false_r, Hb, Ha. cbn.
    destruct (IsCA (Info real)) eqn:Ei; cbn; [done|]. destruct (BasicConstraintsValid (Info real)); [|done].
    rewrite (Hc eq_refl eq_refl). done. }
  unfold clamp_not_after. destruct (_ <? _); [|done]. unfold template_error in *. cbn in *.
  destruct (_ <? 0); [done|]. destruct (_ && (_ <? -1)); [done|]. destruct (_ && _ && _ && _); [done|].
  rewrite Hb, Hl. done.
Qed.

Lemma mapM_succeeds {A B} (f : A -> result B) l : Forall (fun x => is_ok (f x) = true) l -> is_ok (mapM f l) = true.
Proof.
  induction 1 as [|x l Hx H IH]; [done|]. cbn. destruct (f x); [|done]. cbn. by destruct (mapM f l).
Qed.

Lemma derived_usages i e aki ski cr known unknown :
  (cr, BodyExtKeyUsage known unknown) ∈ derived_bodies i e aki ski -> known = ExtKeyUsage i /\ unknown = UnknownExtKeyUsage i.
Proof.
  unfold derived_bodies. rewrite !elem_of_app. intros H.
  repeat match type of H with _ \/ _ => destruct H as [H|H] end; case_match;
    first [by apply elem_of_nil in H | apply list_elem_of_singleton in H; injection H as -> -> ->; done
          | by apply list_elem_of_singleton in H].
Qed.

Lemma clone_tbs_ok real limit p pub :
  parsed real -> cloneable real -> time_ok limit = true -> is_ok (tbs_of (clamp_not_after (cloneTemplate real) limit) p pub) = true.
Proof.
  intros Hp Hc Hl. pose proof (clone_template_valid _ _ Hp Hc Hl) as Hv.
  destruct (clamp_ok _ limit _ (cloneTemplate_ok real Hp)) as [Hok Hn]. destruct Hc as (Hname & Heku & _).
  set (tmpl := clamp_not_after _ _) in *.
  assert (tm_Subject tmpl = Subject real /\ tm_Info tmpl = tm_Info (cloneTemplate real)) as [Es Ei].
  { unfold tmpl, clamp_not_after. by destruct (_ <? _). }
  unfold tbs_of. rewrite Es. destruct (marshalName (Subject real)) as [subject|]; [|done]. cbn.
  unfold buildCertExtensions. rewrite (derived_kept _ _ _ _ _ Hn).
  match goal with |- context [mapM ?f ?l] => assert (is_ok (mapM f l) = true) as Hm end; [|by destruct (mapM _ _)].
  apply mapM_succeeds, Forall_forall. intros [cr b] Hin. unfold marshal_body. cbn.
  pose proof (derived_ok tmpl (bool_decide (subject = [byte_of 48; byte_of 0])) (authority_id p subject)
    (if IsCA (tm_Info tmpl) then keyIdentifier pub else []) Hok Hv) as Hall.
  rewrite Forall_forall in Hall. specialize (Hall _ Hin). cbn in Hall.
  destruct (marshalExt b) eqn:Em; [done|]. destruct b; try (pose proof (marshal_ok _ Hall I) as Hx; by rewrite Em in Hx).
  - apply derived_usages in Hin as [-> ->]. rewrite Ei in Em. cbn in Em, Heku. by rewrite Em in Heku.
  - exfalso. apply (derived_san (tm_Info tmpl) (bool_decide (subject = [byte_of 48; byte_of 0])) (authority_id p subject)
      (if IsCA (tm_Info tmpl) then keyIdentifier pub else [])); [by rewrite Ei|].
    by apply (list_elem_of_fmap_2 (fun cb => body_oid (snd cb)) _ _ Hin).
Qed.

Lemma clone_element_succeeds r ca ck isLeaf real above :
  ca_ok ca -> parsed real -> cloneable real -> parsed (parent_cert ca above) ->
  CertPublicKey (parent_cert ca above) = Public (parent_key ca above) ->
  exists c k, clone_element r ca ck isLeaf real above = Ok (c, k).
Proof.
  intros [Hca _] Hp Hc Hq Hk. rewrite clone_element_eq.
  assert (exists key, (if isLeaf then LeafKey ck (typeTaggedSANStrings real)
    else IntermediateKey ck (RawIssuer real) (SerialNumber real)) = Ok key) as (key & ->).
  { destruct isLeaf; edestruct deriveKey_ok as (key & ? & _); by exists key. }
  cbn [wrap mbind result_bind]. set (limit := match above with [] => _ | _ => _ end).
  assert (time_ok limit = true) as Hl.
  { destruct (parse_fields _ _ Hp) as (_ & _ & _ & _ & Ha & _), (parse_fields _ _ Hca) as (_ & _ & _ & _ & Ha' & _).
    unfold limit. by destruct above. }
  pose proof (clone_tbs_ok real limit (Parent (parent_cert ca above)) (Public key) Hp Hc Hl) as Ht.
  destruct (CreateCertificate r (clamp_not_after (cloneTemplate real) limit) (Parent (parent_cert ca above)) (Public key)
    (parent_key ca above)) as [der|e] eqn:E.
  - destruct (CreateCertificate_issued _ _ (Parent (parent_cert ca above)) _ _ _
      (proj1 (clamp_ok _ limit _ (cloneTemplate_ok real Hp))) Hq E) as (c & Hparse & _).
    cbn. rewrite Hparse. cbn. eauto.
  - exfalso. unfold CreateCertificate in E. rewrite (clone_template_valid _ _ Hp Hc Hl) in E.
    rewrite bool_decide_true in E by done. destruct (tbs_of _ _ _); done.
Qed.

Lemma clone_loop_succeeds r ca ck isLeaf reals :
  ca_ok ca -> Forall parsed reals -> Forall cloneable reals -> exists synth, clone_loop r ca ck isLeaf reals = Ok synth.
Proof.
  intros Hca Hp. revert isLeaf. induction Hp as [|real reals Hr Hp IH]; intros isLeaf Hc; [by eexists|].
  apply Forall_cons in Hc as [Hc1 Hc]. destruct (IH false Hc) as (above & Habove). cbn. rewrite Habove. cbn.
  pose proof (clone_loop_spec _ _ _ _ _ _ Hca Hp Habove) as Hcl.
  destruct (clone_element_succeeds (r + length reals) ca ck isLeaf real above) as (c & k & ->); try done; [..|by eexists];
    (destruct above as [|[c' k'] above]; [apply Hca|]; destruct reals; [done|]; apply Hcl).
Qed.

(** C21: [CloneChain] clones every parsed chain whose subjects and usages can be
    encoded again.  What it returns is, leaf first, a clone of each certificate of
    the chain (of the leaf alone if the CA's path length leaves no room): its names,
    usages, constraints and validity, cut only at the CA's end, under the derived
    key, each signed by the next and the last by the CA, with no other extension;
    and it fits under the CA's path length. *)
Theorem clone_chain_faithful r ca ck reals :
  ca_ok ca -> Forall parsed reals ->
  (reals <> [] -> Forall cloneable reals -> is_ok (CloneChain r ca ck reals) = true)
  /\ forall certs keys, CloneChain r ca ck reals = Ok (certs, keys) ->
     exists synth, certs = map fst synth /\ keys = map snd synth
       /\ clones ca ck true (effectiveChain ca reals) synth
       /\ let '(budget, constrained) := issuanceBudget ca in
          constrained = true -> Z.of_nat (length certs) - 1 <= budget.
Proof.
  intros Hca Hp. split.
  - intros Hne Hc. unfold CloneChain. destruct reals as [|x reals]; [done|]. cbn [length Nat.eqb].
    assert (Forall parsed (effectiveChain ca (x :: reals)) /\ Forall cloneable (effectiveChain ca (x :: reals))) as [Hp' Hc'].
    { unfold effectiveChain. destruct (issuanceBudget ca). destruct (_ && _); split; try done; by apply Forall_take. }
    destruct (clone_loop_succeeds r ca ck true _ Hca Hp' Hc') as (synth & ->). done.
  - intros certs keys H. destruct (CloneChain_spec _ _ _ _ _ _ Hca Hp H) as (synth & -> & -> & _ & Hcl).
    exists synth. split_and!; try done. rewrite length_map, (clones_length _ _ _ _ _ Hcl).
    apply effectiveChain_budget. apply (parsed_info (ca_Cert ca)), Hca.
Qed.

(** ** Clones verify *)

(** The CA may sign certificates. *)
Definition ca_signs (ca : CA) : Prop :=
  let i := Info (ca_Cert ca) in
  BasicConstraintsValid i = true /\ IsCA i = true /\ Z.land (KeyUsage i) KeyUsageCertSign <> 0.

Lemma certsign_set u : Z.land (Z.lor u KeyUsageCertSign) KeyUsageCertSign <> 0.
Proof.
  intros E. apply (f_equal (fun z => Z.testbit z 5)) in E. rewrite Z.land_spec, Z.lor_spec in E.
  change (Z.testbit KeyUsageCertSign 5) with true in E. rewrite orb_true_r in E. done.
Qed.

Lemma clones_verify ca ck isLeaf reals synth :
  ca_ok ca -> ca_signs ca -> Forall parsed reals -> Forall (fun c => IsCA (Info c) = true) (tail reals) ->
  clones ca ck isLeaf reals synth -> verify_links (ca_Cert ca) (map fst synth) = true.
Proof.
  intros [_ Hk] (H1 & H2 & H3) Hp. revert isLeaf synth.
  induction Hp as [|real reals Hr Hp IH]; intros isLeaf [|[c k] above] Hcas Hcl; try done.
  destruct Hcl as [Hc Hcl]. cbn.
  assert (CheckSignatureFrom c (match map fst above with next :: _ => next | [] => ca_Cert ca end) = true) as ->.
  - destruct above as [|[pc pk] above], reals as [|real' reals]; try done; cbn.
    + rewrite CheckSignatureFrom_ca by (try done; by rewrite Hk). apply Hc.
    + destruct Hcl as [Hpc _]. apply Forall_cons in Hcas as [Hca' _]. destruct (co_constraints _ _ _ _ _ _ _ Hpc) as (Eb & Ei & _).
      assert (BasicConstraintsValid (Info real') = true) as Hb.
      { apply Forall_cons in Hp as [Hp' _]. destruct (parsed_info _ Hp') as (_ & _ & _ & _ & Hf).
        destruct (BasicConstraintsValid (Info real')); [done|]. destruct (Hf eq_refl). congruence. }
      rewrite CheckSignatureFrom_ca; [apply (co_signed _ _ _ _ _ _ _ Hc)|congruence|congruence| |].
      * rewrite (co_usage _ _ _ _ _ _ _ Hpc), Hca'. apply certsign_set.
      * by rewrite (co_public _ _ _ _ _ _ _ Hpc).
  - eapply (IH false); [|exact Hcl]. destruct reals; [done|]. by apply Forall_cons in Hcas as [_ ?].
Qed.

Lemma clones_linked ca ck isLeaf reals synth :
  clones ca ck isLeaf reals synth ->
  linked (map fst synth)
  /\ forall c, c ∈ map fst synth -> RawIssuer c = RawSubject (ca_Cert ca) \/ RawIssuer c ∈ subjects (tail (map fst synth)).
Proof.
  revert isLeaf synth. induction reals as [|real reals IH]; intros isLeaf [|[c k] above]; try done.
  { intros _. split; [done|]. by intros c ?%elem_of_nil. }
  intros [Hc Hcl]. destruct (IH _ _ Hcl) as [Hl Hi]. pose proof (co_issuer _ _ _ _ _ _ _ Hc) as Hiss. split.
  - destruct above as [|[c' k'] above]; done.
  - intros d [->|Hd]%elem_of_cons; cbn.
    + rewrite Hiss. destruct above as [|[c' k'] above]; [by left|right]. cbn. by left.
    + destruct (Hi d Hd) as [?|Hin]; [by left|right]. destruct above as [|[c' k'] above]; [done|]. cbn in *. by right.
Qed.

(** The subjects of clones are the originals', encoded again. *)
Lemma clones_subjects ca ck isLeaf reals synth subs :
  clones ca ck isLeaf reals synth -> Forall2 (fun real s => marshalName (Subject real) = Ok s) reals subs ->
  subjects (map fst synth) = subs.
Proof.
  intros Hcl Hs. revert isLeaf synth Hcl. induction Hs as [|real s reals subs Hr Hs IH]; intros isLeaf [|[c k] above]; try done.
  intros [Hc Hcl]. cbn. rewrite (IH _ _ Hcl). f_equal. pose proof (co_subject _ _ _ _ _ _ _ Hc). congruence.
Qed.

(** Distinct subjects, none of them the CA's, make a chain that is found again. *)
Lemma clones_reloadable ca ck isLeaf reals synth :
  clones ca ck isLeaf reals synth -> synth <> [] ->
  NoDup (RawSubject (ca_Cert ca) :: subjects (map fst synth)) -> reloadable (map fst synth).
Proof.
  intros Hcl Hne [Hca Hn]%NoDup_cons. destruct (clones_linked _ _ _ _ _ Hcl) as [_ Hi]. split; [done|].
  destruct synth as [|[leaf k] synth]; [done|]. exists leaf. split; [done|]. cbn [map fst] in *.
  unfold issuers. rewrite elem_of_list_to_set. intros (d & Ed & Hd)%list_elem_of_fmap.
  apply NoDup_cons in Hn as [Hleaf _]. destruct (Hi d Hd) as [E|E]; rewrite <- Ed in E; [|done].
  apply Hca. rewrite <- E. by left.
Qed.

End CloneCorrect.
