(* ===== verification/StorageTree.v ===== *)
(** * Prefixes, listings and links of the backend (internal/storage/storage.go, posix.go, SymlinkAtomic of internal/fsutil)

    What the certificate cache needs beyond single keys: [TreeStorage] is the rest
    of the interface, [TreeSpec] what it documents for prefixes that end in a
    slash.  The POSIX backend implements it over the files of [Storage] and
    symbolic links; it reads a prefix as a path, so that it differs from the
    interface on a prefix that ends within a name. *)

From S2P Require Import Prelude GoStrings Storage GoUrl.

Open Scope Z_scope.

(** [DeletePrefix], [List] (the keys; nothing reads its versions) and, if the
    backend is a [Linker], [Symlink]. *)
Class TreeStorage (W : Type) `{ST : Storage W} : Type := {
  DeletePrefix : W -> bytes -> sres unit * W;
  ListKeys : W -> bytes -> sres (list bytes);
  Linker : option (W -> bytes -> bytes -> sres unit * W) }.

(** A prefix made of whole names: the directory [q], written as a clean path. *)
Definition whole_prefix (p q : bytes) : Prop := p = (q ++ str "/")%list /\ path_Clean p = q.

(** What is relied on; [plain w k] says that [k] is not an alias. *)
Class TreeSpec (W : Type) `{TS : TreeStorage W} : Type := {
  plain : W -> bytes -> Prop;
  tree_get_put w k d w' : Put w k d = (SOk tt, w') -> exists v, Get w' k = SOk (d, v);
  tree_get_put_ne w k k' d r w' : Put w k d = (r, w') -> plain w k' -> k' <> k -> Get w' k' = Get w k';
  tree_put_failed w k d r w' : Put w k d = (r, w') -> plain w k ->
    r = SOk tt \/ Get w' k = Get w k \/ exists v, Get w' k = SOk (d, v);
  tree_put_plain w k k' d r w' : Put w k d = (r, w') -> plain w k' -> plain w' k';
  tree_deleted w p q k w' : whole_prefix p q -> DeletePrefix w p = (SOk tt, w') -> HasPrefix p k = true ->
    Get w' k = SNotExist /\ plain w' k;
  tree_delete_other w p q k r w' : whole_prefix p q -> DeletePrefix w p = (r, w') ->
    HasPrefix q k = false -> plain w k -> Get w' k = Get w k /\ plain w' k;
  tree_delete_plain w p k r w' : DeletePrefix w p = (r, w') -> plain w k -> plain w' k;
  tree_list w p q l : whole_prefix p q -> (forall k, HasPrefix q k = true -> plain w k) -> ListKeys w p = SOk l ->
    NoDup l /\ (forall k, k ∈ l -> (HasPrefix p k = true \/ k = q) /\ exists d v, Get w k = SOk (d, v))
    /\ forall k, HasPrefix p k = true -> (exists d v, Get w k = SOk (d, v)) -> k ∈ l;
  tree_link f w k t k' r w' : Linker = Some f -> f w k t = (r, w') -> plain w k' -> k' <> k ->
    Get w' k' = Get w k' /\ plain w' k';
  tree_linked f w k t w' : Linker = Some f -> f w k t = (SOk tt, w') -> plain w t -> t <> k -> Get w' k = Get w' t }.

(** ** The POSIX backend *)

(** The files, and the symbolic links with the keys they lead to. *)
Record tree : Type := { t_fs : fs; t_links : gmap bytes bytes }.

(** The kernel follows links up to a limit. *)
Fixpoint follow_links (n : nat) (links : gmap bytes bytes) (k : bytes) : option bytes :=
  match links !! k with
  | None => Some k
  | Some t => match n with O => None | S n => follow_links n links t end
  end.

Definition max_links : nat := 40.

Definition tree_Get (w : tree) (key : bytes) : sres (bytes * Version) :=
  match follow_links max_links (t_links w) key with
  | Some path => posix_Get (t_fs w) path
  | None => SFail "storage: posix: read: too many levels of symbolic links"
  end.

Definition tree_Stat (w : tree) (key : bytes) : sres Version :=
  match follow_links max_links (t_links w) key with
  | Some path => posix_Stat (t_fs w) path
  | None => SFail "storage: posix: stat: too many levels of symbolic links"
  end.

(** The rename of [Put] replaces a link by the file. *)
Definition tree_Put (w : tree) (key data : bytes) : sres unit * tree :=
  match posix_Put (t_fs w) key data with
  | (SOk _, f) => (SOk tt, {| t_fs := f; t_links := delete key (t_links w) |})
  | (e, f) => (e, {| t_fs := f; t_links := t_links w |})
  end.

Definition tree_Delete (w : tree) (key : bytes) : sres unit * tree :=
  match posix_Delete (t_fs w) key with
  | (SOk _, f) => (SOk tt, {| t_fs := f; t_links := delete key (t_links w) |})
  | (e, f) => (e, {| t_fs := f; t_links := t_links w |})
  end.

(** [p.path(prefix)] as a path beneath the root, and the keys at or beneath it. *)
Definition under (prefix key : bytes) : bool :=
  let p := path_Clean prefix in
  bool_decide (prefix = []) || bool_decide (key = p) || HasPrefix (p ++ str "/") key.

(** [os.RemoveAll]. *)
Definition posix_DeletePrefix (w : tree) (prefix : bytes) : sres unit * tree :=
  if fs_up (t_fs w) then
    let keep {A} (m : gmap bytes A) := filter (fun kv => under prefix (fst kv) = false) m in
    (SOk tt, {| t_fs := tick (keep (fs_files (t_fs w))) (t_fs w); t_links := keep (t_links w) |})
  else (io_error, w).

(** [filepath.WalkDir] over the files and links, sorted. *)
Definition posix_List (w : tree) (prefix : bytes) : sres (list bytes) :=
  if fs_up (t_fs w) then
    SOk (SortStrings (List.filter (under prefix)
      (elements (dom (fs_files (t_fs w)) ∪ dom (t_links w)))))
  else io_error.

(** [SymlinkAtomic]: a relative link, renamed over whatever was there. *)
Definition posix_Symlink (w : tree) (key targetKey : bytes) : sres unit * tree :=
  if fs_up (t_fs w) then
    (SOk tt, {| t_fs := run (t_fs w) [Remove key]; t_links := <[key := targetKey]> (t_links w) |})
  else (io_error, w).

#[export] Instance tree_storage : Storage tree :=
  {| Get := tree_Get; Stat := tree_Stat; Put := tree_Put; Delete := tree_Delete |}.

#[export] Instance tree_tree : TreeStorage tree :=
  {| DeletePrefix := posix_DeletePrefix; ListKeys := posix_List; Linker := Some posix_Symlink |}.

(** ** The backend keeps the interface's promises *)

Definition tree_plain (w : tree) (k : bytes) : Prop := t_links w !! k = None.

Lemma tree_Get_plain w k : tree_plain w k -> tree_Get w k = posix_Get (t_fs w) k.
Proof. unfold tree_plain, tree_Get, max_links. cbn. by intros ->. Qed.

Lemma posix_get_put w k d f : posix_Put w k d = (SOk tt, f) -> exists v, posix_Get f k = SOk (d, v).
Proof. exact (@get_put fs posix posix_spec w k d f). Qed.

Lemma posix_get_put_ne w k k' d r f : posix_Put w k d = (r, f) -> k' <> k -> posix_Get f k' = posix_Get w k'.
Proof. exact (@get_put_ne fs posix posix_spec w k k' d r f). Qed.

Lemma under_whole p q k : whole_prefix p q -> under p k = bool_decide (k = q) || HasPrefix p k.
Proof.
  intros [Hp Hq]. unfold under. rewrite Hq, <- Hp. rewrite bool_decide_false; [done|].
  rewrite Hp. by intros [_ ?]%app_eq_nil.
Qed.

Lemma whole_prefix_under p q k : whole_prefix p q -> HasPrefix q k = false -> under p k = false.
Proof.
  intros H Hk. rewrite (under_whole _ _ _ H). destruct H as [-> _]. apply orb_false_intro.
  - apply bool_decide_eq_false. intros ->. apply not_true_iff_false in Hk. apply Hk, HasPrefix_true. exists []. by rewrite app_nil_r.
  - apply not_true_iff_false. intros (r & ->)%HasPrefix_true. apply not_true_iff_false in Hk. apply Hk, HasPrefix_true.
    exists (str "/" ++ r)%list. by rewrite app_assoc.
Qed.

Lemma posix_Get_stored w k : fs_up w = true -> (exists d v, posix_Get w k = SOk (d, v)) <-> k ∈ dom (fs_files w).
Proof.
  intros Hu. unfold posix_Get. rewrite Hu, elem_of_dom.
  destruct (fs_files w !! k); split; [eauto|eauto|by intros (? & ? & ?)|by intros [??]].
Qed.

Lemma kept_lookup {A} (p : bytes) (m : gmap bytes A) (k : bytes) :
  filter (fun kv : bytes * A => under p (fst kv) = false) m !! k = if under p k then None else m !! k.
Proof.
  destruct (under p k) eqn:E.
  - apply map_lookup_filter_None. right. intros x _ Hx. cbn in Hx. congruence.
  - destruct (m !! k) as [x|] eqn:Em; [by apply map_lookup_filter_Some|]. apply map_lookup_filter_None. by left.
Qed.

#[export] Program Instance tree_spec : TreeSpec tree := {| plain := tree_plain |}.
Next Obligation.
  intros w k d w' H. cbn in H. unfold tree_Put in H. destruct (posix_Put (t_fs w) k d) as [[u| |e] f] eqn:E; try done.
  injection H as <-. destruct u. destruct (posix_get_put (t_fs w) k d f E) as (v & Hv). exists v. cbn.
  rewrite tree_Get_plain; [done|]. apply lookup_delete_eq.
Qed.
Next Obligation.
  intros w k k' d r w' H Hp Hne. cbn in *. unfold tree_Put in H. destruct (posix_Put (t_fs w) k d) as [s f] eqn:E.
  pose proof (posix_get_put_ne (t_fs w) k k' d s f E Hne) as Hg. rewrite (tree_Get_plain w) by done.
  destruct s; injection H as _ <-; rewrite tree_Get_plain; try done; unfold tree_plain; cbn; by rewrite ?lookup_delete_ne.
Qed.
Next Obligation.
  intros w k d r w' H Hp. cbn in *. unfold tree_Put, posix_Put in H.
  destruct (fs_up (t_fs w)); [destruct (fs_files (t_fs w) !! tmp_name k)|]; injection H as <- <-; [right|by left|right]; left;
    by rewrite !tree_Get_plain.
Qed.
Next Obligation.
  intros w k k' d r w' H Hp. cbn in *. unfold tree_Put in H. destruct (posix_Put (t_fs w) k d) as [s f].
  destruct s; injection H as _ <-; try done. unfold tree_plain. cbn. destruct (decide (k = k')) as [->|].
  - apply lookup_delete_eq.
  - by rewrite lookup_delete_ne.
Qed.
Next Obligation.
  intros w p q k w' Hw H Hk. cbn in *. unfold posix_DeletePrefix in H. destruct (fs_up (t_fs w)) eqn:Eu; [|done].
  injection H as <-. assert (under p k = true) as E by (rewrite (under_whole _ _ _ Hw), Hk; apply orb_true_r).
  match goal with |- context [tree_plain ?w' k] => assert (tree_plain w' k) as Hpl end.
  { unfold tree_plain. cbn. by rewrite kept_lookup, E. }
  split; [|done]. rewrite tree_Get_plain by done. unfold posix_Get. cbn. by rewrite Eu, kept_lookup, E.
Qed.
Next Obligation.
  intros w p q k r w' Hw H Hk Hp. cbn in *. unfold posix_DeletePrefix in H. destruct (fs_up (t_fs w)) eqn:Eu; injection H as _ <-; [|done].
  pose proof (whole_prefix_under _ _ _ Hw Hk) as E.
  assert (tree_plain {| t_fs := tick (filter (fun kv => under p (fst kv) = false) (fs_files (t_fs w))) (t_fs w);
    t_links := filter (fun kv => under p (fst kv) = false) (t_links w) |} k) as Hp'.
  { unfold tree_plain. cbn. by rewrite kept_lookup, E. }
  split; [|done]. rewrite !tree_Get_plain by done. unfold posix_Get. cbn. by rewrite kept_lookup, E.
Qed.
Next Obligation.
  intros w p k r w' H Hp. cbn in *. unfold posix_DeletePrefix in H. destruct (fs_up (t_fs w)); injection H as _ <-; [|done].
  unfold tree_plain. cbn. rewrite kept_lookup. by destruct (under p k).
Qed.
Next Obligation.
  intros w p q l Hw Hpl H. cbn in *. unfold posix_List in H. destruct (fs_up (t_fs w)) eqn:Eu; [|done]. injection H as <-.
  split; [rewrite SortStrings_perm; apply NoDup_ListNoDup, List.NoDup_filter, NoDup_ListNoDup, NoDup_elements|].
  cut (forall k, k ∈ SortStrings (List.filter (under p) (elements (dom (fs_files (t_fs w)) ∪ dom (t_links w))))
         <-> (HasPrefix p k = true \/ k = q) /\ exists d v, tree_Get w k = SOk (d, v)); [naive_solver|].
  intros k. rewrite SortStrings_perm, list_elem_of_In, filter_In, <- list_elem_of_In, elem_of_elements, elem_of_union.
  rewrite (under_whole _ _ _ Hw), orb_true_iff, bool_decide_eq_true.
  assert (k = q \/ HasPrefix p k = true -> tree_plain w k) as Hk.
  { intros Hk. apply Hpl. destruct (HasPrefix q k) eqn:E; [done|]. apply (whole_prefix_under _ _ _ Hw) in E.
    rewrite (under_whole _ _ _ Hw) in E. apply orb_false_iff in E as [E1%bool_decide_eq_false E2]. naive_solver congruence. }
  split.
  - intros [Hin Hu]. split; [tauto|]. rewrite tree_Get_plain by auto. apply posix_Get_stored; [done|].
    destruct Hin as [?|Hd]; [done|]. apply Hk in Hu. apply elem_of_dom in Hd as [t Ht]. unfold tree_plain in Hu. congruence.
  - intros [Hu Hg]. split; [|tauto]. rewrite tree_Get_plain in Hg by (apply Hk; tauto). left. by apply posix_Get_stored in Hg.
Qed.
Next Obligation.
  intros f w k t k' r w' Hf H Hp Hne. cbn in *. injection Hf as <-. unfold posix_Symlink in H.
  destruct (fs_up (t_fs w)) eqn:Eu; injection H as _ <-; [|done].
  assert (tree_plain {| t_fs := run (t_fs w) [Remove k]; t_links := <[k := t]> (t_links w) |} k') as Hp'.
  { unfold tree_plain. cbn. by rewrite lookup_insert_ne. }
  split; [|done]. rewrite !tree_Get_plain by done. unfold posix_Get. cbn. by rewrite lookup_delete_ne.
Qed.
Next Obligation.
  intros f w k t w' Hf H Hp Hne. cbn in *. injection Hf as <-. unfold posix_Symlink in H.
  destruct (fs_up (t_fs w)) eqn:Eu; [|done]. injection H as <-. unfold tree_Get, max_links. cbn [follow_links t_links].
  rewrite lookup_insert_eq. unfold tree_plain in Hp. rewrite lookup_insert_ne, Hp by done. done.
Qed.

(** A prefix that ends within a name matches nothing in the POSIX backend, where
    the interface promises every key that begins with it. *)
Theorem partial_prefix_matches_nothing :
  let k := str "leaf/certs/ab.p12" in
  let w := snd (tree_Put {| t_fs := {| fs_files := ∅; fs_now := 0; fs_up := true |}; t_links := ∅ |} k (str "x")) in
  HasPrefix (str "leaf/ce") k = true
  /\ posix_List w (str "leaf/ce") = SOk []
  /\ (exists d v, tree_Get (snd (posix_DeletePrefix w (str "leaf/ce"))) k = SOk (d, v))
  /\ posix_List w (str "leaf/") = SOk [k]
  /\ tree_Get (snd (posix_DeletePrefix w (str "leaf/"))) k = SNotExist.
Proof. vm_compute. split_and!; try done. by eexists _, _. Qed.
