(* ===== verification/StorageS3.v ===== *)
(** * The S3 backend (internal/storage/s3.go)

    The backend translates the interface's calls into those of an object store,
    which is reached through minio-go: [Minio] is that client and [MinioSpec] what
    the service documents (reads see the last write, a listing has every object
    under the prefix).  The backend keeps the promises of [StorageSpec], and those
    of [TreeSpec] as far as listings do not break off: [DeletePrefix] drops the
    error of a listing and reports success. *)

From S2P Require Import Prelude GoStrings Storage GoUrl StorageTree.

Open Scope Z_scope.

(** [minio.ErrorResponse]; an error of another type has no code and no status. *)
Record s3_error : Type := { er_Code : bytes; er_StatusCode : Z; er_text : string }.

Definition NoSuchKey : bytes := str "NoSuchKey".

Definition isNotFound (e : s3_error) : bool := bool_decide (er_Code e = NoSuchKey) || (er_StatusCode e =? 404).

(** The calls of [minio.Client], on a bucket. A listing and a bulk removal are the
    values their channels deliver. *)
Class Minio (W : Type) : Type := {
  Object : Type;
  GetObject : W -> bytes -> bytes -> s3_error + Object;
  Object_Stat : W -> Object -> s3_error + bytes;
  Object_ReadAll : W -> Object -> s3_error + bytes;
  StatObject : W -> bytes -> bytes -> s3_error + bytes;
  PutObject : W -> bytes -> bytes -> bytes -> option s3_error * W;
  RemoveObject : W -> bytes -> bytes -> option s3_error * W;
  ListObjects : W -> bytes -> bytes -> list (s3_error + (bytes * bytes));
  RemoveObjects : W -> bytes -> list bytes -> list (option s3_error) * W }.

Section S3.
Context {W : Type} `{MC : Minio W} (bucket : bytes).

Definition s3_Get (w : W) (key : bytes) : sres (bytes * Version) :=
  match GetObject w bucket key with
  | inl err => if isNotFound err then SNotExist else SFail ("storage: s3: get: " ++ er_text err)
  | inr obj =>
      match Object_Stat w obj with
      | inl err => if isNotFound err then SNotExist else SFail ("storage: s3: stat: " ++ er_text err)
      | inr etag =>
          match Object_ReadAll w obj with
          | inl err => SFail ("storage: s3: read: " ++ er_text err)
          | inr data => SOk (data, etag)
          end
      end
  end.

Definition s3_Put (w : W) (key data : bytes) : sres unit * W :=
  match PutObject w bucket key data with
  | (Some err, w) => (SFail ("storage: s3: put: " ++ er_text err), w)
  | (None, w) => (SOk tt, w)
  end.

Definition s3_Delete (w : W) (key : bytes) : sres unit * W :=
  match RemoveObject w bucket key with
  | (Some err, w) => (if isNotFound err then SOk tt else SFail ("storage: s3: delete: " ++ er_text err), w)
  | (None, w) => (SOk tt, w)
  end.

Definition s3_Stat (w : W) (key : bytes) : sres Version :=
  match StatObject w bucket key with
  | inl err => if isNotFound err then SNotExist else SFail ("storage: s3: stat: " ++ er_text err)
  | inr etag => SOk etag
  end.

(** The objects the listing goroutine passes on: entries with an error are
    skipped. *)
Definition listed (entries : list (s3_error + (bytes * bytes))) : list bytes :=
  omap (fun x => match x with inl _ => None | inr (k, _) => Some k end) entries.

(** The first error the removal reports. *)
Definition first_error (errs : list (option s3_error)) : option s3_error := head (omap id errs).

Definition s3_DeletePrefix (w : W) (prefix : bytes) : sres unit * W :=
  match RemoveObjects w bucket (listed (ListObjects w bucket prefix)) with
  | (errs, w) =>
      (match first_error errs with
       | Some err => SFail ("storage: s3: delete prefix: " ++ er_text err)
       | None => SOk tt
       end, w)
  end.

Fixpoint s3_entries (entries : list (s3_error + (bytes * bytes))) : sres (list bytes) :=
  match entries with
  | [] => SOk []
  | inl err :: _ => SFail ("storage: s3: list: " ++ er_text err)
  | inr (k, _) :: t =>
      match s3_entries t with SOk l => SOk (k :: l) | SNotExist => SNotExist | SFail e => SFail e end
  end.

Definition s3_List (w : W) (prefix : bytes) : sres (list bytes) := s3_entries (ListObjects w bucket prefix).

Definition s3_storage : Storage W := {| Get := s3_Get; Stat := s3_Stat; Put := s3_Put; Delete := s3_Delete |}.

(** S3 has no aliases. *)
Definition s3_tree : @TreeStorage W s3_storage :=
  {| DeletePrefix := s3_DeletePrefix; ListKeys := s3_List; Linker := None |}.

End S3.

(** ** The service *)

(** What S3 documents.  [objects] is the content of a bucket; [reachable] says
    whether requests get through at all. A key that is absent answers NoSuchKey, an
    outage never does; the ETag of an object is a function of its content that
    tells contents apart. *)
Class MinioSpec (W : Type) `{MC : Minio W} : Type := {
  objects : W -> bytes -> gmap bytes bytes;
  reachable : W -> bool;
  etag : bytes -> bytes;
  etag_inj d d' : etag d = etag d' -> d = d';
  get_object w b k :
    match (if reachable w then objects w b !! k else None) with
    | Some d => exists o, GetObject w b k = inr o /\ Object_Stat w o = inr (etag d) /\ Object_ReadAll w o = inr d
    | None => exists e, (GetObject w b k = inl e \/ exists o, GetObject w b k = inr o /\ Object_Stat w o = inl e)
                        /\ isNotFound e = reachable w
    end;
  stat_object w b k :
    match (if reachable w then objects w b !! k else None) with
    | Some d => StatObject w b k = inr (etag d)
    | None => exists e, StatObject w b k = inl e /\ isNotFound e = reachable w
    end;
  unreached w b :
    reachable w = false ->
    (forall k d, exists e, PutObject w b k d = (Some e, w))
    /\ (forall k, exists e, RemoveObject w b k = (Some e, w) /\ isNotFound e = false)
    /\ forall l, exists errs, RemoveObjects w b l = (errs, w);
  put_object w b k d r w' : reachable w = true -> PutObject w b k d = (r, w') ->
    reachable w' = true
    /\ match r with
       | None => objects w' b = <[k := d]> (objects w b)
       | Some _ => objects w' b = objects w b \/ objects w' b = <[k := d]> (objects w b)
       end;
  remove_object w b k r w' : reachable w = true -> RemoveObject w b k = (r, w') ->
    reachable w' = true
    /\ match r with
       | None => objects w' b = delete k (objects w b)
       | Some e => (objects w' b = objects w b \/ objects w' b = delete k (objects w b))
                   /\ (isNotFound e = true -> objects w b !! k = None)
       end;
  list_sound w b p k e : inr (k, e) ∈ ListObjects w b p -> HasPrefix p k = true /\ is_Some (objects w b !! k);
  list_nodup w b p : NoDup (listed (ListObjects w b p));
  list_reach w b p : (forall e, inl e ∉ ListObjects w b p) -> reachable w = true;
  list_complete w b p : (forall e, inl e ∉ ListObjects w b p) ->
    forall k, HasPrefix p k = true -> is_Some (objects w b !! k) -> k ∈ listed (ListObjects w b p);
  remove_objects w b l errs w' : reachable w = true -> RemoveObjects w b l = (errs, w') ->
    reachable w' = true
    /\ (forall k, objects w' b !! k = objects w b !! k \/ (k ∈ l /\ objects w' b !! k = None))
    /\ (Forall (fun e => e = None) errs -> forall k, k ∈ l -> objects w' b !! k = None) }.

Section S3Laws.
Context {W : Type} `{MC : Minio W} {MS : MinioSpec W} (bucket : bytes).

#[local] Existing Instance s3_storage.
#[local] Existing Instance s3_tree.

(** A read is what the bucket holds. *)
Lemma s3_Get_spec w k :
  if reachable w then
    s3_Get bucket w k = match objects w bucket !! k with Some d => SOk (d, etag d) | None => SNotExist end
  else exists m, s3_Get bucket w k = SFail m.
Proof.
  pose proof (get_object w bucket k) as H. unfold s3_Get. destruct (reachable w).
  - destruct (objects w bucket !! k) as [d|].
    + destruct H as (o & -> & -> & ->). done.
    + destruct H as (e & [->|(o & -> & ->)] & ->); done.
  - destruct H as (e & [->|(o & -> & ->)] & ->); by eexists.
Qed.

Lemma s3_Get_ok w k d v :
  s3_Get bucket w k = SOk (d, v) <-> reachable w = true /\ objects w bucket !! k = Some d /\ v = etag d.
Proof.
  pose proof (s3_Get_spec w k) as H. destruct (reachable w).
  - rewrite H. destruct (objects w bucket !! k); naive_solver.
  - destruct H as [m ->]. naive_solver.
Qed.

Lemma s3_Get_same w w' k :
  reachable w = true -> reachable w' = true -> objects w' bucket !! k = objects w bucket !! k ->
  s3_Get bucket w' k = s3_Get bucket w k.
Proof.
  intros Hr Hr' Ho. pose proof (s3_Get_spec w k) as H. pose proof (s3_Get_spec w' k) as H'.
  rewrite Hr in H. rewrite Hr' in H'. by rewrite H, H', Ho.
Qed.

(** A write touches its own key only, and none when it cannot reach the service. *)
Lemma s3_Put_spec w k d r w' :
  s3_Put bucket w k d = (r, w') ->
  (forall k', k' <> k -> s3_Get bucket w' k' = s3_Get bucket w k')
  /\ (r = SOk tt -> s3_Get bucket w' k = SOk (d, etag d))
  /\ (r = SOk tt \/ s3_Get bucket w' k = s3_Get bucket w k \/ s3_Get bucket w' k = SOk (d, etag d)).
Proof.
  intros H. unfold s3_Put in H. destruct (reachable w) eqn:Er.
  - destruct (PutObject w bucket k d) as [e w1] eqn:Ep. destruct (put_object _ _ _ _ _ _ Er Ep) as [Hr Ho].
    assert (objects w1 bucket = <[k := d]> (objects w bucket) -> s3_Get bucket w1 k = SOk (d, etag d)) as Hnew.
    { intros E. apply s3_Get_ok. by rewrite E, lookup_insert_eq. }
    assert (forall k', k' <> k -> s3_Get bucket w1 k' = s3_Get bucket w k') as Hne.
    { intros k' Hk. apply s3_Get_same; [done..|]. destruct e; [destruct Ho as [->| ->]|rewrite Ho]; by rewrite ?lookup_insert_ne. }
    destruct e as [e|]; injection H as <- <-; split_and!; try done; [|by intros _; apply Hnew|by left].
    right. destruct Ho as [Ho|Ho]; [left; apply s3_Get_same; by rewrite ?Ho|right; by apply Hnew].
  - destruct (unreached w bucket Er) as [Hp _]. destruct (Hp k d) as [e He]. rewrite He in H. injection H as <- <-.
    split_and!; [done|done|by right; left].
Qed.

Lemma s3_Delete_spec w k w' : s3_Delete bucket w k = (SOk tt, w') -> s3_Get bucket w' k = SNotExist.
Proof.
  intros H. unfold s3_Delete in H. destruct (reachable w) eqn:Er.
  - destruct (RemoveObject w bucket k) as [e w1] eqn:Ep. destruct (remove_object _ _ _ _ _ Er Ep) as [Hr Ho].
    assert (objects w1 bucket !! k = None) as Hgone.
    { destruct e as [e|]; [|by rewrite Ho, lookup_delete_eq]. destruct (isNotFound e) eqn:En; [|done].
      destruct Ho as [[->| ->] Hk]; [by apply Hk|apply lookup_delete_eq]. }
    assert (w1 = w') as -> by (destruct e; congruence). pose proof (s3_Get_spec w' k) as Hg. by rewrite Hr, Hgone in Hg.
  - destruct (unreached w bucket Er) as (_ & Hd & _). destruct (Hd k) as (e & He & En). rewrite He, En in H. done.
Qed.

(** The backend keeps the promises the rule engine relies on. *)
#[export] Program Instance s3_spec : @StorageSpec W (s3_storage bucket) :=
  {| evolves := fun _ _ => True; knows := fun _ _ v d => v = etag d; sound := fun _ => True |}.
Solve All Obligations with try done.
Next Obligation. intros w k d v _ H. by apply s3_Get_ok in H as (_ & _ & ->). Qed.
Next Obligation. intros w k d d' v -> H. apply s3_Get_ok in H as (_ & _ & E). by apply etag_inj in E. Qed.
Next Obligation.
  intros w k. cbn. pose proof (s3_Get_spec w k) as Hg. pose proof (stat_object w bucket k) as Hs. unfold s3_Stat.
  destruct (reachable w).
  - rewrite Hg. destruct (objects w bucket !! k) as [d|]; [by rewrite Hs|]. by destruct Hs as (e & -> & ->).
  - destruct Hg as [m ->], Hs as (e & -> & ->). by eexists.
Qed.
Next Obligation. intros w k d w' H. eexists. by apply s3_Put_spec in H as (_ & H & _); apply H. Qed.
Next Obligation. intros w k k' d r w' H Hne. apply s3_Put_spec in H as (H & _). by apply H. Qed.
Next Obligation. intros w k w' H. by apply s3_Delete_spec in H. Qed.

(** ** Prefixes *)

(** The listing of a prefix reaches its end. *)
Definition whole_listing (w : W) (prefix : bytes) : Prop := forall e, inl e ∉ ListObjects w bucket prefix.

Lemma listed_spec entries k : k ∈ listed entries <-> exists e, inr (k, e) ∈ entries.
Proof.
  unfold listed. rewrite list_elem_of_omap. split.
  - intros ([e|[k' e]] & Hin & H); [done|]. injection H as <-. by exists e.
  - intros [e He]. by exists (inr (k, e)).
Qed.

Lemma s3_entries_ok entries l : s3_entries entries = SOk l -> l = listed entries /\ forall e, inl e ∉ entries.
Proof.
  revert l. induction entries as [|[e|[k e]] t IH]; intros l; cbn; [|done|].
  - intros [= <-]. split; [done|]. intros e H. by apply elem_of_nil in H.
  - destruct (s3_entries t) as [l'| |]; [|done..]. intros [= <-]. destruct (IH l' eq_refl) as [-> Hn]. split; [done|].
    intros e' [?|?]%elem_of_cons; [done|]. by eapply Hn.
Qed.

Lemma s3_DeletePrefix_spec w p r w' :
  s3_DeletePrefix bucket w p = (r, w') ->
  (forall k, HasPrefix p k = false -> s3_Get bucket w' k = s3_Get bucket w k)
  /\ (r = SOk tt -> whole_listing w p -> forall k, HasPrefix p k = true -> s3_Get bucket w' k = SNotExist).
Proof.
  intros H. unfold s3_DeletePrefix in H. destruct (RemoveObjects _ _ _) as [errs w1] eqn:Er. injection H as Hres <-.
  destruct (reachable w) eqn:Hr.
  - destruct (remove_objects _ _ _ _ _ Hr Er) as (Hr1 & Hk & Hall). split.
    + intros k Hp. apply s3_Get_same; [done..|]. destruct (Hk k) as [?|[Hin _]]; [done|].
      apply listed_spec in Hin as [e He]. apply list_sound in He as [He _]. congruence.
    + intros -> Hw k Hp. pose proof (s3_Get_spec w1 k) as Hg. rewrite Hr1 in Hg. rewrite Hg.
      destruct (objects w1 bucket !! k) as [d|] eqn:Ed; [|done]. exfalso.
      assert (Forall (fun e : option s3_error => e = None) errs) as Hn.
      { unfold first_error in Hres. clear -Hres. induction errs as [|[e|] errs IH]; [constructor|done|]. constructor; [done|by apply IH]. }
      assert (objects w bucket !! k = Some d) as Ek by (destruct (Hk k) as [<-|[_ ?]]; [done|congruence]).
      assert (k ∈ listed (ListObjects w bucket p)) as Hin by (apply list_complete; [done|done|by rewrite Ek]).
      rewrite (Hall Hn k Hin) in Ed. done.
  - destruct (unreached w bucket Hr) as (_ & _ & Hd). destruct (Hd (listed (ListObjects w bucket p))) as [errs' He].
    rewrite He in Er. injection Er as _ <-. split; [done|]. intros _ Hw. apply list_reach in Hw. congruence.
Qed.

Lemma s3_List_spec w p l :
  s3_List bucket w p = SOk l ->
  NoDup l /\ forall k, k ∈ l <-> HasPrefix p k = true /\ exists d v, s3_Get bucket w k = SOk (d, v).
Proof.
  intros [-> Hn]%s3_entries_ok. split; [apply list_nodup|]. pose proof (list_reach _ _ _ Hn) as Hr. intros k. split.
  - intros [e He]%listed_spec. apply list_sound in He as [Hp [d Hd]]. split; [done|]. exists d, (etag d). by apply s3_Get_ok.
  - intros (Hp & d & v & (_ & Hd & _)%s3_Get_ok). by apply list_complete; [..|rewrite Hd].
Qed.


(** As long as no wipe succeeds on a listing that broke off, the backend keeps the
    promises the certificate cache relies on. *)
Definition wipes_whole : Prop :=
  forall w p w', s3_DeletePrefix bucket w p = (SOk tt, w') -> whole_listing w p.

#[export] Program Instance s3_tree_spec (Hw : wipes_whole) : @TreeSpec W (s3_storage bucket) (s3_tree bucket) :=
  {| plain := fun _ _ => True |}.
Solve All Obligations with try done.
Next Obligation. intros _ w k d w' H. eexists. by apply s3_Put_spec in H as (_ & H & _); apply H. Qed.
Next Obligation. intros _ w k k' d r w' H _ Hne. apply s3_Put_spec in H as (H & _). by apply H. Qed.
Next Obligation. intros _ w k d r w' H _. apply s3_Put_spec in H as (_ & _ & H). cbn. naive_solver. Qed.
Next Obligation.
  intros Hw w p q k w' _ H Hk. split; [|done]. pose proof (s3_DeletePrefix_spec _ _ _ _ H) as [_ Hd].
  apply Hd; [done| |done]. by eapply Hw.
Qed.
Next Obligation.
  intros _ w p q k r w' [-> _] H Hk _. split; [|done]. apply s3_DeletePrefix_spec in H as [Hd _]. apply Hd.
  destruct (HasPrefix (q ++ str "/") k) eqn:E; [|done]. apply HasPrefix_true in E as [x ->].
  rewrite <- app_assoc in Hk. assert (HasPrefix q (q ++ str "/" ++ x) = true) by (apply HasPrefix_true; by eexists). congruence.
Qed.
Next Obligation. intros _ w p q l _ _ H. apply s3_List_spec in H as [Hn Hl]. cbn. split_and!; [done| |]; intros k; rewrite Hl; naive_solver. Qed.

End S3Laws.

(** ** A store in memory *)

(** Buckets, whether the service is reached, and whether listings get through. *)
Record store_world : Type := { sw_objects : gmap bytes (gmap bytes bytes); sw_up : bool; sw_lists : bool }.

Definition sw_bucket (w : store_world) (b : bytes) : gmap bytes bytes := default ∅ (sw_objects w !! b).
Definition sw_set (w : store_world) (b : bytes) (m : gmap bytes bytes) : store_world :=
  {| sw_objects := <[b := m]> (sw_objects w); sw_up := sw_up w; sw_lists := sw_lists w |}.

Definition outage : s3_error := {| er_Code := []; er_StatusCode := 0; er_text := "connection refused" |}.
Definition missing : s3_error := {| er_Code := NoSuchKey; er_StatusCode := 404; er_text := "no such key" |}.

Definition sw_find (w : store_world) (b k : bytes) : s3_error + bytes :=
  if sw_up w then match sw_bucket w b !! k with Some d => inr d | None => inl missing end else inl outage.

#[export] Instance memory_store : Minio store_world := {|
  Object := bytes * bytes;
  GetObject w b k := inr (b, k);
  Object_Stat w o := sw_find w o.1 o.2;
  Object_ReadAll w o := sw_find w o.1 o.2;
  StatObject w b k := sw_find w b k;
  PutObject w b k d := if sw_up w then (None, sw_set w b (<[k := d]> (sw_bucket w b))) else (Some outage, w);
  RemoveObject w b k := if sw_up w then (None, sw_set w b (delete k (sw_bucket w b))) else (Some outage, w);
  ListObjects w b p :=
    if sw_up w && sw_lists w then map (fun k => inr (k, k)) (List.filter (HasPrefix p) (elements (dom (sw_bucket w b))))
    else [inl outage];
  RemoveObjects w b l :=
    if sw_up w then ([], sw_set w b (filter (fun kv => kv.1 ∉ l) (sw_bucket w b))) else (map (fun _ => Some outage) l, w) |}.

Lemma sw_bucket_set w b m : sw_bucket (sw_set w b m) b = m.
Proof. unfold sw_bucket. cbn. by rewrite lookup_insert_eq. Qed.

Lemma listed_keys (l : list bytes) : listed (map (fun k => inr (k, k)) l) = l.
Proof. unfold listed. induction l as [|k l IH]; [done|]. cbn. by f_equal. Qed.

Lemma memory_list w b p :
  (exists e, inl e ∈ ListObjects w b p) \/
  sw_up w = true /\ listed (ListObjects w b p) = List.filter (HasPrefix p) (elements (dom (sw_bucket w b))).
Proof.
  cbn [ListObjects memory_store]. destruct (sw_up w); [|left; exists outage; by left]. destruct (sw_lists w); [|left; exists outage; by left].
  right. cbn [andb]. by rewrite listed_keys.
Qed.

#[export] Program Instance memory_store_spec : MinioSpec store_world :=
  {| objects := sw_bucket; reachable := sw_up; etag := fun d => d |}.
Solve All Obligations with try done.
Next Obligation.
  intros w b k. cbn. unfold sw_find. destruct (sw_up w); [destruct (sw_bucket w b !! k) as [d|] eqn:E|].
  - exists (b, k). cbn. by rewrite E.
  - exists missing. split; [|done]. right. exists (b, k). cbn. by rewrite E.
  - exists outage. split; [|done]. right. by exists (b, k).
Qed.
Next Obligation. intros w b k. cbn. unfold sw_find. destruct (sw_up w); [destruct (sw_bucket w b !! k)|]; by try eexists. Qed.
Next Obligation. intros w b H. cbn. rewrite H. split_and!; intros; by eexists. Qed.
Next Obligation. intros w b k d r w' H. cbn. rewrite H. intros [= <- <-]. split; [done|]. apply sw_bucket_set. Qed.
Next Obligation. intros w b k r w' H. cbn. rewrite H. intros [= <- <-]. split; [done|]. apply sw_bucket_set. Qed.
Next Obligation.
  intros w b p k e H. assert (k ∈ List.filter (HasPrefix p) (elements (dom (sw_bucket w b)))) as Hk.
  { revert H. cbn. destruct (_ && _); [|intros [?|?%elem_of_nil]%elem_of_cons; done].
    intros (x & [= -> ->] & Hx)%list_elem_of_fmap. done. }
  apply list_elem_of_In, filter_In in Hk as [Hk Hp]. split; [done|]. by apply list_elem_of_In, elem_of_elements, elem_of_dom in Hk.
Qed.
Next Obligation.
  intros w b p. cbn [ListObjects memory_store]. destruct (_ && _); [|constructor]. rewrite listed_keys.
  apply NoDup_ListNoDup, List.NoDup_filter, NoDup_ListNoDup, NoDup_elements.
Qed.
Next Obligation. intros w b p H. destruct (memory_list w b p) as [[e He]|[Hu _]]; [by apply H in He|done]. Qed.
Next Obligation.
  intros w b p H k Hp Hk. destruct (memory_list w b p) as [[e He]|[_ ->]]; [by apply H in He|].
  apply list_elem_of_In, filter_In. split; [|done]. by apply list_elem_of_In, elem_of_elements, elem_of_dom.
Qed.
Next Obligation.
  intros w b l errs w' H. cbn. rewrite H. intros [= <- <-]. rewrite sw_bucket_set. split_and!; [done| |].
  - intros k. destruct (decide (k ∈ l)) as [Hk|Hk].
    + right. split; [done|]. apply map_lookup_filter_None. right. intros x _ Hn. by apply Hn.
    + left. destruct (sw_bucket w b !! k) as [d|] eqn:E; [by apply map_lookup_filter_Some|]. apply map_lookup_filter_None. by left.
  - intros _ k Hk. apply map_lookup_filter_None. right. intros x _ Hn. by apply Hn.
Qed.

(** ** Wipes that did not happen *)

(** With listings failing, [DeletePrefix] removes nothing and reports success, while
    [List] reports the error. *)
Theorem s3_wipe_failure_hidden :
  let k := str "leaf/certs/ab.p12" in
  let w := {| sw_objects := {[ str "b" := {[ k := str "x" ]} ]}; sw_up := true; sw_lists := false |} in
  exists w', s3_DeletePrefix (str "b") w (str "leaf/") = (SOk tt, w') /\ s3_Get (str "b") w' k = SOk (str "x", str "x")
  /\ exists e, s3_List (str "b") w (str "leaf/") = SFail e.
Proof. eexists. split; [reflexivity|]. split; [by vm_compute|by eexists]. Qed.

Definition sample_bucket : store_world := {| sw_objects := ∅; sw_up := true; sw_lists := true |}.

