(* ===== verification/StorageStack.v ===== *)
(** * The storage decorators (internal/storage/logging.go, telemetry.go)

    At start-up the opened backend is wrapped twice, to measure and to log its
    calls.  A storage value is a tree of wrappers over a backend; a call goes down
    through them and leaves a span, a measurement or a log record at each.  However
    often and in whatever order a backend is wrapped, callers get its answers and
    its ability to link. *)

From S2P Require Import Prelude GoStrings Storage GoUrl StorageTree.

Open Scope Z_scope.

(** ** Calls *)

Inductive storage_call : Type :=
  | CallGet (key : bytes) | CallPut (key data : bytes) | CallDelete (key : bytes) | CallDeletePrefix (prefix : bytes)
  | CallStat (key : bytes) | CallList (prefix : bytes) | CallSymlink (key targetKey : bytes).

Inductive storage_answer : Type :=
  | AnsGet (r : sres (bytes * Version)) | AnsUnit (r : sres unit) | AnsStat (r : sres Version) | AnsList (r : sres (list bytes)).

Definition op_name (c : storage_call) : bytes :=
  match c with
  | CallGet _ => str "get" | CallPut _ _ => str "put" | CallDelete _ => str "delete" | CallDeletePrefix _ => str "delete_prefix"
  | CallStat _ => str "stat" | CallList _ => str "list" | CallSymlink _ _ => str "symlink"
  end.

Definition op_key (c : storage_call) : bytes :=
  match c with
  | CallGet k | CallPut k _ | CallDelete k | CallStat k | CallSymlink k _ => k
  | CallDeletePrefix p | CallList p => p
  end.

Definition sres_err {A} (r : sres A) : option string :=
  match r with SOk _ => None | SNotExist => Some "storage: key does not exist" | SFail e => Some e end.

(** The call's [err]. *)
Definition answer_err (a : storage_answer) : option string :=
  match a with AnsGet r => sres_err r | AnsUnit r => sres_err r | AnsStat r => sres_err r | AnsList r => sres_err r end.

(** ** Records *)

Inductive attr : Type := AttrString (name value : bytes) | AttrInt (name : bytes) (n : Z).

(** What the wrappers leave behind; elapsed times are left out. *)
Inductive record : Type :=
  | LogDebug (attrs : list attr) (err : option string)
  | Span (op backend : bytes) (err : option string)
  | StorageOp (op backend result : bytes).

Definition log_extra (c : storage_call) (a : storage_answer) : list attr :=
  match c, a with
  | CallGet _, AnsGet r => [AttrInt (str "bytes") (match r with SOk (d, _) => Z.of_nat (length d) | _ => 0 end)]
  | CallPut _ data, _ => [AttrInt (str "bytes") (Z.of_nat (length data))]
  | CallList _, AnsList r => [AttrInt (str "entries") (match r with SOk l => Z.of_nat (length l) | _ => 0 end)]
  | CallSymlink _ target, _ => [AttrString (str "target") target]
  | _, _ => []
  end.

(** [loggingStorage.debug]. *)
Definition debug (c : storage_call) (a : storage_answer) : record :=
  LogDebug ([AttrString (str "op") (op_name c); AttrString (str "key") (op_key c)] ++ log_extra c a)%list (answer_err a).

(** [telemetryStorage.span] and [record]. *)
Definition telemetry_record (traced : bool) (backend : bytes) (c : storage_call) (a : storage_answer) : list record :=
  ((if traced then [Span (op_name c) backend (answer_err a)] else [])
   ++ [StorageOp (op_name c) backend (match answer_err a with None => str "ok" | Some _ => str "error" end)])%list.

(** ** Storage values *)

Inductive base_kind : Type := PosixStorage | S3Storage.

Inductive storage_value : Type :=
  | Base (k : base_kind)
  | loggingStorage (next : storage_value)
  | loggingLinkerStorage (next : storage_value)
  | telemetryStorage (next : storage_value) (traced : bool) (backend : bytes)
  | telemetryLinkerStorage (next : storage_value) (traced : bool) (backend : bytes).

(** The type assertion [next.(Linker)]. *)
Definition is_linker (s : storage_value) : bool :=
  match s with
  | Base PosixStorage => true
  | Base S3Storage => false
  | loggingStorage _ | telemetryStorage _ _ _ => false
  | loggingLinkerStorage _ | telemetryLinkerStorage _ _ _ => true
  end.

Definition WithLogging (next : storage_value) : storage_value :=
  if is_linker next then loggingLinkerStorage next else loggingStorage next.

Definition BackendName (s : storage_value) : bytes :=
  match s with
  | Base PosixStorage => str "posix"
  | Base S3Storage => str "s3"
  | _ => str "unknown"
  end.

Definition WithTelemetry (traced : bool) (next : storage_value) : storage_value :=
  if is_linker next then telemetryLinkerStorage next traced (BackendName next) else telemetryStorage next traced (BackendName next).

(** ** Performing a call *)

Section Stack.
Context {W : Type} `{TS : TreeStorage W}.

(** The backend itself; [None] is a method the value does not have. *)
Definition base_call (w : W) (c : storage_call) : option (storage_answer * W) :=
  match c with
  | CallGet k => Some (AnsGet (Get w k), w)
  | CallPut k d => let '(r, w) := Put w k d in Some (AnsUnit r, w)
  | CallDelete k => let '(r, w) := Delete w k in Some (AnsUnit r, w)
  | CallDeletePrefix p => let '(r, w) := DeletePrefix w p in Some (AnsUnit r, w)
  | CallStat k => Some (AnsStat (Stat w k), w)
  | CallList p => Some (AnsList (ListKeys w p), w)
  | CallSymlink k t => match Linker with Some f => let '(r, w) := f w k t in Some (AnsUnit r, w) | None => None end
  end.

(** The methods of a value: [Symlink] only where the type has it. *)
Definition has_method (s : storage_value) (c : storage_call) : bool :=
  match c with CallSymlink _ _ => is_linker s | _ => true end.

(** A method of [loggingStorage], and one of [telemetryStorage], around the same method
    of the next value. *)
Definition logged (c : storage_call) (next : option (storage_answer * W * list record)) : option (storage_answer * W * list record) :=
  match next with Some (a, w, l) => Some (a, w, l ++ [debug c a])%list | None => None end.

Definition measured (traced : bool) (backend : bytes) (c : storage_call) (next : option (storage_answer * W * list record))
  : option (storage_answer * W * list record) :=
  match next with Some (a, w, l) => Some (a, w, l ++ telemetry_record traced backend c a)%list | None => None end.

Fixpoint perform (s : storage_value) (w : W) (c : storage_call) : option (storage_answer * W * list record) :=
  if has_method s c then
    match s with
    | Base _ => match base_call w c with Some (a, w) => Some (a, w, []) | None => None end
    | loggingStorage next | loggingLinkerStorage next => logged c (perform next w c)
    | telemetryStorage next traced backend | telemetryLinkerStorage next traced backend => measured traced backend c (perform next w c)
    end
  else None.

(** A backend and any wrappers. *)
Inductive wrapped (base : storage_value) : storage_value -> Prop :=
  | wrapped_base : wrapped base base
  | wrapped_logging s : wrapped base s -> wrapped base (WithLogging s)
  | wrapped_telemetry s traced : wrapped base s -> wrapped base (WithTelemetry traced s).

Lemma WithLogging_linker s : is_linker (WithLogging s) = is_linker s.
Proof. unfold WithLogging. by destruct (is_linker s). Qed.

Lemma WithTelemetry_linker traced s : is_linker (WithTelemetry traced s) = is_linker s.
Proof. unfold WithTelemetry. by destruct (is_linker s). Qed.

(** A wrapper does what it wraps, and notes it. *)
Lemma perform_logging s w c :
  perform (WithLogging s) w c = match perform s w c with Some (a, w, l) => Some (a, w, l ++ [debug c a])%list | None => None end.
Proof.
  assert (has_method s c = false -> perform s w c = None) as Hn by (destruct s; cbn [perform]; by intros ->).
  unfold WithLogging. destruct (is_linker s) eqn:El; cbn [perform]; destruct c; cbn [has_method is_linker]; try done.
  by rewrite Hn.
Qed.

Lemma perform_telemetry traced s w c :
  perform (WithTelemetry traced s) w c
  = match perform s w c with Some (a, w, l) => Some (a, w, l ++ telemetry_record traced (BackendName s) c a)%list | None => None end.
Proof.
  assert (has_method s c = false -> perform s w c = None) as Hn by (destruct s; cbn [perform]; by intros ->).
  unfold WithTelemetry. destruct (is_linker s) eqn:El; cbn [perform]; destruct c; cbn [has_method is_linker]; try done.
  by rewrite Hn.
Qed.

(** What a caller sees of a call. *)
Definition seen (x : option (storage_answer * W * list record)) : option (storage_answer * W) :=
  match x with Some (a, w, _) => Some (a, w) | None => None end.

(** A backend under any number of logging and measuring wrappers, in any order,
    has the methods of the backend and answers every call as the backend does,
    leaving the same world; under the wrappers of the start-up, measuring inside
    logging, each call leaves one measurement with the backend's name and one log
    record, both with the call's outcome. *)
Theorem decorators_transparent k s w c :
  wrapped (Base k) s ->
  is_linker s = is_linker (Base k) /\ seen (perform s w c) = seen (perform (Base k) w c)
  /\ forall a w', perform (Base k) w c = Some (a, w', []) ->
     perform (WithLogging (WithTelemetry false (Base k))) w c
     = Some (a, w', [StorageOp (op_name c) (match k with PosixStorage => str "posix" | S3Storage => str "s3" end)
                       (match answer_err a with None => str "ok" | Some _ => str "error" end); debug c a]).
Proof.
  intros Hs. split_and!.
  - induction Hs; [done|by rewrite WithLogging_linker|by rewrite WithTelemetry_linker].
  - induction Hs as [|s _ IH|s t _ IH]; [done|rewrite perform_logging, <- IH|rewrite perform_telemetry, <- IH];
      by destruct (perform s w c) as [[[? ?] ?]|].
  - intros a w' H. rewrite perform_logging, perform_telemetry, H. cbn. by destruct k, (answer_err a).
Qed.

(** Measuring outside of logging loses the backend's name. *)
Lemma late_telemetry_unnamed k traced :
  match WithTelemetry traced (WithLogging (Base k)) with
  | telemetryStorage _ _ backend | telemetryLinkerStorage _ _ backend => backend
  | _ => []
  end = str "unknown".
Proof. by destruct k. Qed.

End Stack.

(** The POSIX backend under the wrappers of the start-up. *)
Lemma decorators_transparent_witness :
  let w := {| t_fs := {| fs_files := ∅; fs_now := 0; fs_up := true |}; t_links := ∅ |} in
  is_linker (WithLogging (WithTelemetry true (Base PosixStorage))) = true
  /\ seen (perform (WithLogging (WithTelemetry true (Base PosixStorage))) w (CallStat (str "k"))) = Some (AnsStat SNotExist, w).
Proof.
  intros w.
  destruct (decorators_transparent PosixStorage (WithLogging (WithTelemetry true (Base PosixStorage))) w (CallStat (str "k"))) as (H1 & H2 & _).
  - apply wrapped_logging, wrapped_telemetry, wrapped_base.
  - split; [exact H1|]. rewrite H2. reflexivity.
Defined.
