(* ===== verification/StorageOpen.v ===== *)
(** * Opening the storage (internal/storage/open.go, newS3Storage of s3.go)

    The --storage URL names a directory or a bucket.  What creating a directory and
    a client answer are parameters; the rest is parsing.  A directory without the
    characters that mean something in a URL is opened as it is written, the default
    one included; one with them is not. *)

From S2P Require Import Prelude GoStrings Netip GoUrl Config StorageStack.

Open Scope Z_scope.

(** The options [newS3Storage] passes on. *)
Record s3_options : Type := {
  s3_host : bytes; s3_bucket : bytes; s3_region : bytes; s3_accessKey : bytes; s3_secretKey : bytes; s3_secure : bool }.

Inductive opened : Type := OpenedPosix (root : bytes) | OpenedS3 (o : s3_options).

(** The value that is returned. *)
Definition opened_value (o : opened) : storage_value :=
  match o with OpenedPosix _ => Base PosixStorage | OpenedS3 _ => Base S3Storage end.

(** [strconv.ParseBool]. *)
Definition ParseBool (s : bytes) : result bool :=
  if bool_decide (s ∈ [str "1"; str "t"; str "T"; str "true"; str "TRUE"; str "True"]) then Ok true
  else if bool_decide (s ∈ [str "0"; str "f"; str "F"; str "false"; str "FALSE"; str "False"]) then Ok false
  else Error "invalid syntax".

(** [Query().Get]. *)
Definition query_get (u : URL) (name : bytes) : bytes := default [] (head (query_values u name)).

Section Open.
Context (mkdirAll : bytes -> result unit) (minio_New : s3_options -> result unit).

Definition NewPosixStorage (root : bytes) : result opened :=
  _ ← wrap "storage: posix: create" (mkdirAll root);
  Ok (OpenedPosix root).

Definition newS3Storage (u : URL) : result opened :=
  let bucket := query_get u (str "bucket") in
  if bool_decide (bucket = []) then Error "storage: s3: missing ?bucket="
  else
    let region := query_get u (str "region") in
    let region := if bool_decide (region = []) then str "us-east-1" else region in
    match u_User u with
    | Some (accessKey, Some secretKey) =>
        if bool_decide (accessKey = []) then Error "storage: s3: missing credentials"
        else
          let v := query_get u (str "secure") in
          secure ← (if bool_decide (v = []) then Ok true else wrap "storage: s3: invalid ?secure=" (ParseBool v));
          if bool_decide (u_Host u = []) then Error "storage: s3: missing host"
          else
            let o := {| s3_host := u_Host u; s3_bucket := bucket; s3_region := region; s3_accessKey := accessKey;
                        s3_secretKey := secretKey; s3_secure := secure |} in
            _ ← wrap "storage: s3" (minio_New o);
            Ok (OpenedS3 o)
    | _ => Error "storage: s3: missing credentials"
    end.

(** [os.UserHomeDir] reads $HOME. *)
Definition expandTilde (env : environ) (path : bytes) : result bytes :=
  if negb (bool_decide (path = str "~")) && negb (HasPrefix (str "~/") path) then Ok path
  else if bool_decide (env_HOME env = []) then Error "$HOME is not defined"
  else if bool_decide (path = str "~") then Ok (env_HOME env)
  else Ok (path_Join [env_HOME env; default path (CutPrefix (str "~/") path)]).

Definition Open (env : environ) (rawURL : bytes) : result opened :=
  u ← wrap "storage: invalid URL" (Parse_url rawURL);
  if bool_decide (u_Scheme u = str "posix") then
    let root := (u_Host u ++ u_Path u)%list in
    if bool_decide (root = []) then Error "storage: posix: missing path"
    else
      expanded ← wrap "storage: posix: expand" (expandTilde env root);
      NewPosixStorage expanded
  else if bool_decide (u_Scheme u = str "s3") then newS3Storage u
  else Error "storage: unsupported scheme".

(** ** Directories *)

(** No character of the path is one that [url.Parse] interprets. *)
Definition url_plain (p : bytes) : Prop := Forall (fun c => c <> "%"%char /\ c <> "?"%char /\ c <> "#"%char /\ is_ctl c = false) p.

Lemma unescape_plain p : Forall (fun c => c <> "%"%char) p -> unescape encodePath p = Ok p.
Proof.
  induction 1 as [|c p Hc _ IH]; [done|]. cbn [unescape]. destruct (Ascii.eqb_spec c "%"); [done|].
  rewrite (bool_decide_false (encodePath = _)), andb_false_r by done. cbn [orb bool_decide andb].
  rewrite IH. done.
Qed.

Lemma no_ctl p : url_plain p -> existsb is_ctl p = false.
Proof. induction 1 as [|c p (_ & _ & _ & Hc) _ IH]; [done|]. cbn. by rewrite Hc, IH. Qed.

(** A path behind the scheme is a URL without host, user and query. *)
Lemma Parse_path p :
  IsAbs p = true -> url_plain p ->
  Parse_url (str "posix://" ++ p) = Ok {| u_Scheme := str "posix"; u_User := None; u_Host := []; u_Path := p; u_RawQuery := [] |}.
Proof.
  intros [q ->]%HasPrefix_true Hp. apply Forall_app in Hp as [_ Hp]. pose proof (no_ctl q Hp) as Hctl.
  unfold url_plain in Hp. rewrite Forall_forall in Hp.
  assert (forall c, (forall x, x ∈ q -> x <> c) -> c ∉ str "posix:///" -> Cut c (str "posix:///" ++ q) = None) as Hcut.
  { intros c Hc Hs. apply Cut_None. rewrite not_elem_of_app. split; [done|]. intros Hin. by apply (Hc c). }
  assert (parse_rest (str "posix") (str "///" ++ q)
    = Ok {| u_Scheme := str "posix"; u_User := None; u_Host := []; u_Path := (str "/" ++ q)%list; u_RawQuery := [] |}) as Hrest.
  { unfold parse_rest, cut_query. assert (Cut "?" (str "///" ++ q) = None) as ->.
    { apply Cut_None. rewrite not_elem_of_app. split; [by apply (bool_decide_unpack _)|]. intros H%Hp. naive_solver. }
    cbn -[unescape]. replace (unescape encodePath ("/"%char :: q)) with (Ok ("/"%char :: q)); [done|].
    symmetry. apply unescape_plain. constructor; [done|]. apply Forall_forall. intros x H%Hp. naive_solver. }
  unfold Parse_url. change (str "posix://" ++ str "/" ++ q)%list with (str "posix:///" ++ q)%list.
  rewrite (Hcut "#"%char); [|intros x H%Hp; naive_solver|by apply (bool_decide_unpack _)].
  rewrite existsb_app, Hctl. change (existsb is_ctl (str "posix:///") || false) with false. cbv iota.
  rewrite bool_decide_false by done.
  change (getScheme true (str "posix:///" ++ q) [] (str "posix:///" ++ q)) with (Ok (str "posix", str "///" ++ q)%list).
  cbn [mbind result_bind]. change (map lower_byte (str "posix")) with (str "posix"). rewrite Hrest. done.
Qed.

(** The directory of a posix:// URL is opened as it is written, as long as it is
    absolute and has none of the characters that mean something in a URL; in
    particular the default URL opens the cache directory of the environment. A URL
    that the configuration accepted is never refused for its scheme. *)
Theorem storage_url_opens env cli p :
  IsAbs p = true -> url_plain p ->
  Open env (str "posix://" ++ p) = NewPosixStorage p
  /\ (p = path_Join [env_XDG_CACHE_HOME env; str "mitmania"] -> IsAbs (env_XDG_CACHE_HOME env) = true ->
      Open env (defaultStorageURL env) = NewPosixStorage p)
  /\ (forall raw, parseStorage env cli = Ok raw ->
      exists u, Parse_url raw = Ok u /\ (u_Scheme u = str "s3" /\ Open env raw = newS3Storage u
        \/ u_Scheme u = str "posix" /\ forall r, Open env raw = Ok r -> exists root, r = OpenedPosix root)).
Proof.
  intros Ha Hp. assert (Open env (str "posix://" ++ p) = NewPosixStorage p) as H.
  { unfold Open. rewrite Parse_path by done. cbn [wrap mbind result_bind u_Scheme u_Host u_Path app].
    rewrite bool_decide_true by done. apply HasPrefix_true in Ha as [q ->]. rewrite bool_decide_false by done. done. }
  split_and!; [done| |].
  - intros -> Hx. unfold defaultStorageURL. by rewrite Hx.
  - intros raw Hr. unfold parseStorage in Hr. set (resolved := if bool_decide (f_Storage cli = []) then _ else _) in Hr.
    destruct (bool_decide (resolved = [])); [done|]. apply result_bind_ok in Hr as (u & Hu & Hr). apply wrap_ok in Hu.
    case_bool_decide as Hs; [|done]. injection Hr as <-. exists u. split; [done|]. unfold Open. rewrite Hu. cbn [wrap mbind result_bind].
    apply elem_of_cons in Hs as [->|Hs%list_elem_of_singleton]; [right|left].
    + split; [done|]. rewrite bool_decide_true by done. intros r Hr. case_bool_decide; [done|].
      apply result_bind_ok in Hr as (e & _ & Hr). unfold NewPosixStorage in Hr. apply result_bind_ok in Hr as (? & _ & [= <-]). eauto.
    + rewrite Hs. split; [done|]. by rewrite bool_decide_false, bool_decide_true by done.
Qed.

End Open.

Definition any_dir (p : bytes) : result unit := Ok tt.
Definition any_client (o : s3_options) : result unit := Ok tt.

Definition home_env (home : bytes) : environ := {| env_HOME := home; env_XDG_CACHE_HOME := str "/var/cache"; env_XDG_RUNTIME_DIR := [] |}.

Lemma storage_url_opens_witness :
  let env := home_env (str "/root") in
  Open any_dir any_client env (defaultStorageURL env) = Ok (OpenedPosix (str "/var/cache/mitmania"))
  /\ exists u, Parse_url (str "s3://k:s@host/?bucket=b") = Ok u /\ u_Scheme u = str "s3".
Proof.
  intros env. destruct (storage_url_opens any_dir any_client env (flags 60 (Finite 1 10)) (str "/var/cache/mitmania")) as (_ & H & H').
  - reflexivity.
  - repeat (constructor; [by vm_compute|]). constructor.
  - split; [rewrite H; reflexivity|]. destruct (H' (str "s3://k:s@host/?bucket=b")) as (u & Hu & [[Hs _]|[Hs _]]); [by vm_compute|by exists u|].
    exists u. split; [exact Hu|]. revert Hu. vm_compute. by intros [= <-].
Defined.

(** A home directory with a question mark, a hash or a percent sign: another
    directory is opened, or none. *)
Theorem default_storage_misread :
  let open home := let env := {| env_HOME := home; env_XDG_CACHE_HOME := []; env_XDG_RUNTIME_DIR := [] |} in
                   Open any_dir any_client env (defaultStorageURL env) in
  open (str "/home/a") = Ok (OpenedPosix (str "/home/a/.cache/mitmania"))
  /\ open (str "/home/a?b") = Ok (OpenedPosix (str "/home/a"))
  /\ open (str "/home/a#b") = Ok (OpenedPosix (str "/home/a"))
  /\ open (str "/home/50%41") = Ok (OpenedPosix (str "/home/50A/.cache/mitmania"))
  /\ is_ok (open (str "/home/50%")) = false.
Proof. vm_compute. done. Qed.
