(* ===== verification/Otlp.v ===== *)
(** * Spans on their way to a collector (internal/telemetry/otlpjson.go)

    The conversion of a batch of finished spans into one export request: the spans
    are grouped by the scope that made them, in order, and every span, attribute,
    event and link is carried over.  Floating-point numbers are their bits. *)

From S2P Require Import Prelude.

Open Scope Z_scope.

(** ** The SDK's spans *)

Inductive Value : Type :=
  | BOOL (b : bool) | INT64 (n : Z) | FLOAT64 (bits : Z) | STRING (s : bytes)
  | BOOLSLICE (l : list bool) | INT64SLICE (l : list Z) | FLOAT64SLICE (l : list Z) | STRINGSLICE (l : list bytes)
  | OtherValue (text : bytes).

Definition KeyValue : Type := bytes * Value.

Record SpanContext : Type := { sc_TraceID : bytes; sc_SpanID : bytes; sc_TraceState : bytes }.

Record Event : Type := { ev_Time : Z; ev_Name : bytes; ev_Attributes : list KeyValue; ev_Dropped : Z }.
Record Link : Type := { ln_SpanContext : SpanContext; ln_Attributes : list KeyValue; ln_Dropped : Z }.

Inductive StatusCode : Type := CodeUnset | CodeError | CodeOk.

Record ReadOnlySpan : Type := {
  sp_Name : bytes; sp_SpanContext : SpanContext; sp_Parent : SpanContext; sp_Kind : Z;
  sp_StartTime : Z; sp_EndTime : Z; sp_Attributes : list KeyValue; sp_Links : list Link; sp_Events : list Event;
  sp_StatusCode : StatusCode; sp_StatusDescription : bytes;
  sp_DroppedAttributes : Z; sp_DroppedEvents : Z; sp_DroppedLinks : Z;
  sp_Scope : bytes * bytes; sp_Resource : list KeyValue }.

(** ** The messages of the protocol *)

Inductive AnyValue : Type :=
  | BoolValue (b : bool) | IntValue (n : Z) | DoubleValue (bits : Z) | StringValue (s : bytes) | ArrayValue (l : list AnyValue).

Definition KeyAnyValue : Type := bytes * AnyValue.

Record pb_Event : Type := { pe_TimeUnixNano : Z; pe_Name : bytes; pe_Attributes : list KeyAnyValue; pe_Dropped : Z }.
Record pb_Link : Type := { pl_TraceId : bytes; pl_SpanId : bytes; pl_TraceState : bytes; pl_Attributes : list KeyAnyValue; pl_Dropped : Z }.

Record pb_Span : Type := {
  ps_TraceId : bytes; ps_SpanId : bytes; ps_TraceState : bytes; ps_ParentSpanId : bytes; ps_Name : bytes; ps_Kind : Z;
  ps_StartTimeUnixNano : Z; ps_EndTimeUnixNano : Z; ps_Attributes : list KeyAnyValue; ps_DroppedAttributesCount : Z;
  ps_Events : list pb_Event; ps_DroppedEventsCount : Z; ps_Links : list pb_Link; ps_DroppedLinksCount : Z;
  ps_StatusMessage : bytes; ps_StatusCode : Z }.

Record ScopeSpans : Type := { ss_Scope : bytes * bytes; ss_Spans : list pb_Span }.
Record ResourceSpans : Type := { rs_Resource : list KeyAnyValue; rs_ScopeSpans : list ScopeSpans }.

(** ** The conversion *)

Definition uint64 (n : Z) : Z := n mod 2 ^ 64.
Definition uint32 (n : Z) : Z := n mod 2 ^ 32.

Definition valueToOTLP (v : Value) : AnyValue :=
  match v with
  | BOOL b => BoolValue b
  | INT64 n => IntValue n
  | FLOAT64 f => DoubleValue f
  | STRING s => StringValue s
  | BOOLSLICE l => ArrayValue (map BoolValue l)
  | INT64SLICE l => ArrayValue (map IntValue l)
  | FLOAT64SLICE l => ArrayValue (map DoubleValue l)
  | STRINGSLICE l => ArrayValue (map StringValue l)
  | OtherValue s => StringValue s
  end.

Definition attrsToOTLP (attrs : list KeyValue) : list KeyAnyValue := map (fun a => (fst a, valueToOTLP (snd a))) attrs.

Definition resourceToOTLP (attrs : list KeyValue) : list KeyAnyValue := attrsToOTLP attrs.

(** Both enumerations number the kinds alike. *)
Definition spanKindToOTLP (k : Z) : Z := k.

Definition statusCodeToOTLP (c : StatusCode) : Z :=
  match c with CodeOk => 1 | CodeError => 2 | CodeUnset => 0 end.

(** [SpanContext.HasSpanID]: the identifier is not all zeros. *)
Definition HasSpanID (sc : SpanContext) : bool := existsb (fun c => negb (byte_val c =? 0)) (sc_SpanID sc).

Definition eventToOTLP (e : Event) : pb_Event :=
  {| pe_TimeUnixNano := uint64 (ev_Time e); pe_Name := ev_Name e; pe_Attributes := attrsToOTLP (ev_Attributes e);
     pe_Dropped := uint32 (ev_Dropped e) |}.

Definition linkToOTLP (l : Link) : pb_Link :=
  let sc := ln_SpanContext l in
  {| pl_TraceId := sc_TraceID sc; pl_SpanId := sc_SpanID sc; pl_TraceState := sc_TraceState sc;
     pl_Attributes := attrsToOTLP (ln_Attributes l); pl_Dropped := uint32 (ln_Dropped l) |}.

Definition spanToOTLP (s : ReadOnlySpan) : pb_Span :=
  let sc := sp_SpanContext s in
  {| ps_TraceId := sc_TraceID sc; ps_SpanId := sc_SpanID sc; ps_TraceState := sc_TraceState sc;
     ps_ParentSpanId := if HasSpanID (sp_Parent s) then sc_SpanID (sp_Parent s) else [];
     ps_Name := sp_Name s; ps_Kind := spanKindToOTLP (sp_Kind s);
     ps_StartTimeUnixNano := uint64 (sp_StartTime s); ps_EndTimeUnixNano := uint64 (sp_EndTime s);
     ps_Attributes := attrsToOTLP (sp_Attributes s); ps_DroppedAttributesCount := uint32 (sp_DroppedAttributes s);
     ps_Events := map eventToOTLP (sp_Events s); ps_DroppedEventsCount := uint32 (sp_DroppedEvents s);
     ps_Links := map linkToOTLP (sp_Links s); ps_DroppedLinksCount := uint32 (sp_DroppedLinks s);
     ps_StatusMessage := sp_StatusDescription s; ps_StatusCode := statusCodeToOTLP (sp_StatusCode s) |}.

(** The loop over the batch: the scopes in the order they were met, and the spans of
    each. *)
Definition byScope_add (acc : list (bytes * bytes) * gmap (bytes * bytes) (list pb_Span)) (s : ReadOnlySpan) :=
  let '(order, byScope) := acc in
  let key := sp_Scope s in
  (match byScope !! key with None => (order ++ [key])%list | Some _ => order end,
   <[key := (default [] (byScope !! key) ++ [spanToOTLP s])%list]> byScope).

Definition spansToOTLP (spans : list ReadOnlySpan) : list ResourceSpans :=
  match spans with
  | [] => []
  | first :: _ =>
      let '(order, byScope) := foldl byScope_add ([], ∅) spans in
      [{| rs_Resource := resourceToOTLP (sp_Resource first);
          rs_ScopeSpans := map (fun key => {| ss_Scope := key; ss_Spans := default [] (byScope !! key) |}) order |}]
  end.

(** ** Nothing is lost *)

Definition of_scope (key : bytes * bytes) (spans : list ReadOnlySpan) : list ReadOnlySpan :=
  filter (fun s => sp_Scope s = key) spans.

Lemma of_scope_app key l k : of_scope key (l ++ k) = (of_scope key l ++ of_scope key k)%list.
Proof. apply filter_app. Qed.

Lemma of_scope_nil key spans : of_scope key spans = [] <-> key ∉ map sp_Scope spans.
Proof.
  unfold of_scope. induction spans as [|s spans IH]; [split; [intros _ ?%elem_of_nil|]; done|]. cbn [map].
  rewrite not_elem_of_cons. destruct (decide (sp_Scope s = key)) as [Hs|Hs].
  - rewrite filter_cons_True by done. split; [done|]. by intros [? _].
  - rewrite filter_cons_False, IH by done. naive_solver.
Qed.

Lemma byScope_spec spans :
  let '(order, byScope) := foldl byScope_add ([], ∅) spans in
  NoDup order /\ (forall key, key ∈ order <-> key ∈ map sp_Scope spans)
  /\ forall key, byScope !! key = if decide (key ∈ map sp_Scope spans) then Some (map spanToOTLP (of_scope key spans)) else None.
Proof.
  induction spans as [|s spans IH] using rev_ind; [cbn; split_and!; [constructor|done|by intros key; rewrite lookup_empty]|].
  rewrite foldl_app. destruct (foldl byScope_add ([], ∅) spans) as [order m]. destruct IH as (Hn & Ho & Hm). cbn [foldl byScope_add].
  rewrite map_app. cbn [map]. split_and!.
  - rewrite Hm. destruct (decide _) as [Hin|Hin]; [done|]. apply NoDup_app. split_and!; [done| |apply NoDup_singleton].
    intros x Hx ->%list_elem_of_singleton. by apply Hin, Ho.
  - intros key. rewrite Hm, elem_of_app, list_elem_of_singleton. destruct (decide _) as [Hin|Hin]; rewrite ?elem_of_app, Ho, ?list_elem_of_singleton; naive_solver.
  - intros key. rewrite of_scope_app, map_app. unfold of_scope at 2. destruct (decide (sp_Scope s = key)) as [<-|Hne].
    + rewrite lookup_insert_eq, Hm. destruct (decide (sp_Scope s ∈ map sp_Scope spans ++ [sp_Scope s])%list) as [_|Hx];
        [|exfalso; apply Hx, elem_of_app; right; by left]. rewrite filter_cons_True by done. cbn.
      destruct (decide _) as [Hin|Hin]; [done|]. apply of_scope_nil in Hin. by rewrite Hin.
    + rewrite lookup_insert_ne, Hm, filter_cons_False by done. cbn. rewrite app_nil_r.
      destruct (decide (key ∈ map sp_Scope spans)) as [Hin|Hin], (decide (key ∈ _)) as [Hin'|Hin']; try done; exfalso.
      * apply Hin'. apply elem_of_app. by left.
      * apply elem_of_app in Hin' as [?|?%list_elem_of_singleton]; [done|congruence].
Qed.

(** The export request of a batch has every span of it exactly once, converted,
    under the scope that made it; each scope occurs once, with its spans in the
    order of the batch. *)
Theorem export_batch_complete spans :
  spans <> [] ->
  exists r groups, spansToOTLP spans = [{| rs_Resource := r; rs_ScopeSpans := groups |}]
    /\ NoDup (map ss_Scope groups)
    /\ (forall g, g ∈ groups -> ss_Spans g = map spanToOTLP (of_scope (ss_Scope g) spans))
    /\ concat (map ss_Spans groups) ≡ₚ map spanToOTLP spans.
Proof.
  intros Hne. unfold spansToOTLP. destruct spans as [|first rest] eqn:E; [done|]. rewrite <- E. clear Hne.
  pose proof (byScope_spec spans) as H. destruct (foldl byScope_add ([], ∅) spans) as [order m]. destruct H as (Hn & Ho & Hm).
  set (groups := map _ order). assert (groups = map (fun key => {| ss_Scope := key; ss_Spans := map spanToOTLP (of_scope key spans) |}) order) as Hg.
  { apply map_ext_in. intros key Hk%list_elem_of_In%Ho. rewrite Hm. by rewrite decide_True. }
  exists (resourceToOTLP (sp_Resource first)), groups. split_and!; [done| | |]; rewrite Hg.
  - rewrite map_map. cbn. by rewrite map_id.
  - intros g (key & -> & _)%list_elem_of_fmap. done.
  - rewrite map_map. cbn [ss_Spans]. rewrite <- (map_map (fun key => of_scope key spans) (map spanToOTLP)), <- concat_map.
    apply Permutation_map. assert (forall x, x ∈ spans -> sp_Scope x ∈ order) as Hall.
    { intros x Hx. apply Ho. apply list_elem_of_fmap. by exists x. }
    clear -Hn Hall. revert spans Hall. induction Hn as [|key order Hk Hn IH]; intros spans Hall; cbn.
    + destruct spans as [|x spans]; [done|]. assert (sp_Scope x ∈ []) as Hx by (apply Hall; by left). by apply elem_of_nil in Hx.
    + trans (of_scope key spans ++ filter (fun s => sp_Scope s <> key) spans)%list; [f_equiv|apply filter_app_complement].
      rewrite <- (IH (filter (fun s => sp_Scope s <> key) spans)).
      * erewrite map_ext_in; [reflexivity|]. intros k Hin%list_elem_of_In. unfold of_scope. rewrite list_filter_filter.
        apply list_filter_iff. intros x. split; [intros <-; split; [done|]; by intros <-|by intros [? _]].
      * intros x [Hx Hin]%list_elem_of_filter. apply Hall, elem_of_cons in Hin as [?|?]; done.
Qed.

(** Three spans of two scopes. *)
Definition named_span (name : bytes) (scope : bytes) : ReadOnlySpan :=
  {| sp_Name := name; sp_SpanContext := {| sc_TraceID := str "t"; sc_SpanID := str "s"; sc_TraceState := [] |};
     sp_Parent := {| sc_TraceID := []; sc_SpanID := []; sc_TraceState := [] |}; sp_Kind := 1; sp_StartTime := 1; sp_EndTime := 2;
     sp_Attributes := []; sp_Links := []; sp_Events := []; sp_StatusCode := CodeUnset; sp_StatusDescription := [];
     sp_DroppedAttributes := 0; sp_DroppedEvents := 0; sp_DroppedLinks := 0; sp_Scope := (scope, []); sp_Resource := [] |}.

Lemma export_batch_complete_witness :
  let spans := [named_span (str "a") (str "x"); named_span (str "b") (str "y"); named_span (str "c") (str "x")] in
  exists groups, map ss_Scope groups = [(str "x", []); (str "y", [])]
    /\ concat (map ss_Spans groups) ≡ₚ map spanToOTLP spans.
Proof.
  intros spans. destruct (export_batch_complete spans) as (r & groups & Hs & _ & _ & Hp); [discriminate|].
  exists groups. split; [|exact Hp]. replace groups with (rs_ScopeSpans (hd {| rs_Resource := r; rs_ScopeSpans := [] |} (spansToOTLP spans)));
    [vm_compute; reflexivity|by rewrite Hs].
Defined.
