(* ===== verification/Spool.v ===== *)
(** * The trace spool (internal/telemetry/rotatingfile.go, file_exporter.go)

    Batches of spans are appended to files of one JSON document per line, and a new
    file is begun when the current one is large or old enough.  A file is known by
    the instant in its name, which has all nine digits of the second.  While the
    disk accepts writes, every line lands whole in one file and files stay within
    a line of their limit; a write that stops short tears its line and the next. *)

From S2P Require Import Prelude GoStrings Otlp.

Open Scope Z_scope.

Definition newline : ascii := "010"%char.

(** The handle a [rotatingFile] holds. *)
Inductive handle : Type := NoFile | OpenFile (name : Z) | ClosedFile.

Record rotatingFile : Type := { rf_maxSize : Z; rf_maxAge : Z; rf_f : handle; rf_size : Z; rf_opened : Z }.

(** The spool directory. *)
Abbreviation spool := (gmap Z bytes).

(** What the disk does during one call: whether a file can be opened, and how many
    bytes a write accepts before it fails ([None]: all). *)
Record disk : Type := { d_opens : bool; d_room : option nat }.

Definition good_disk : disk := {| d_opens := true; d_room := None |}.

(** [rotate]: the current file is closed in any case. *)
Definition rotate (rf : rotatingFile) (files : spool) (now : Z) (d : disk) : result unit * rotatingFile * spool :=
  if d_opens d then
    (Ok tt, {| rf_maxSize := rf_maxSize rf; rf_maxAge := rf_maxAge rf; rf_f := OpenFile now; rf_size := 0; rf_opened := now |},
     <[now := default [] (files !! now)]> files)
  else
    (Error "telemetry: open spool file",
     {| rf_maxSize := rf_maxSize rf; rf_maxAge := rf_maxAge rf;
        rf_f := match rf_f rf with NoFile => NoFile | _ => ClosedFile end; rf_size := rf_size rf; rf_opened := rf_opened rf |}, files).

Definition newRotatingFile (maxSize maxAge : Z) (files : spool) (now : Z) (d : disk) : result rotatingFile * spool :=
  match rotate {| rf_maxSize := maxSize; rf_maxAge := maxAge; rf_f := NoFile; rf_size := 0; rf_opened := 0 |} files now d with
  | (Ok _, rf, files) => (Ok rf, files)
  | (Error e, _, files) => (Error e, files)
  end.

(** The write itself, of a line with its newline. *)
Definition append_line (rf : rotatingFile) (files : spool) (d : disk) (line : bytes) : result unit * rotatingFile * spool :=
  let data := (line ++ [newline])%list in
  let grown n := {| rf_maxSize := rf_maxSize rf; rf_maxAge := rf_maxAge rf; rf_f := rf_f rf;
                    rf_size := rf_size rf + Z.of_nat n; rf_opened := rf_opened rf |} in
  match rf_f rf with
  | OpenFile name =>
      let put b := <[name := (default [] (files !! name) ++ b)%list]> files in
      match d_room d with
      | None => (Ok tt, grown (length data), put data)
      | Some n => if (length data <=? n)%nat then (Ok tt, grown (length data), put data)
                  else (Error "telemetry: write spool line", grown n, put (take n data))
      end
  | NoFile | ClosedFile => (Error "telemetry: write spool line", rf, files)
  end.

Definition WriteLine (rf : rotatingFile) (files : spool) (now : Z) (d : disk) (line : bytes) : result unit * rotatingFile * spool :=
  if (rf_maxSize rf <=? rf_size rf) || (rf_maxAge rf <=? now - rf_opened rf) then
    match rotate rf files now d with
    | (Ok _, rf, files) => append_line rf files d line
    | (Error e, rf, files) => (Error e, rf, files)
    end
  else append_line rf files d line.

Definition Close (rf : rotatingFile) : rotatingFile :=
  {| rf_maxSize := rf_maxSize rf; rf_maxAge := rf_maxAge rf; rf_f := NoFile; rf_size := rf_size rf; rf_opened := rf_opened rf |}.

(** [fileSpanExporter.ExportSpans]; the text of a request is protojson's. *)
Definition ExportSpans (marshal : list ResourceSpans -> result bytes) (rf : rotatingFile) (files : spool) (now : Z) (d : disk)
    (spans : list ReadOnlySpan) : result unit * rotatingFile * spool :=
  match spans with
  | [] => (Ok tt, rf, files)
  | _ =>
      match marshal (spansToOTLP spans) with
      | Error e => (Error ("telemetry: marshal OTLP-JSON: " ++ e), rf, files)
      | Ok line => WriteLine rf files now d line
      end
  end.

(** A sequence of lines and the instants they are written at. *)
Fixpoint write_all (rf : rotatingFile) (files : spool) (lines : list (Z * bytes)) : rotatingFile * spool :=
  match lines with
  | [] => (rf, files)
  | (now, line) :: t => let '(_, rf, files) := WriteLine rf files now good_disk line in write_all rf files t
  end.

(** ** Whole lines in bounded files *)

Definition text (lines : list bytes) : bytes := concat (map (fun l => l ++ [newline])%list lines).

(** What a collector reads: the lines of a file, without the empty piece behind the
    last newline. *)
Definition read_lines (content : bytes) : list bytes := removelast (Split newline content).

Lemma text_app l k : text (l ++ k) = (text l ++ text k)%list.
Proof. unfold text. by rewrite map_app, concat_app. Qed.

Lemma read_lines_text lines : Forall (fun l => newline ∉ l) lines -> read_lines (text lines) = lines.
Proof.
  intros H. unfold read_lines. assert (text lines = Join [newline] (lines ++ [[]])) as ->.
  { clear H. induction lines as [|l lines IH]; [done|]. cbn [app text map concat]. change (concat _) with (text lines). rewrite IH.
    rewrite Join_cons by (by destruct lines). by rewrite <- app_assoc. }
  rewrite Split_Join; [apply removelast_last|by destruct lines|].
  apply Forall_app. split; [done|]. repeat constructor. apply not_elem_of_nil.
Qed.

(** A file of the spool: when it was begun, and its lines with their instants. *)
Record spool_file : Type := { sf_begun : Z; sf_lines : list (Z * bytes) }.

Definition sf_text (s : spool_file) : bytes := text (map snd (sf_lines s)).
Definition on_disk (kept : list spool_file) : spool := list_to_map (map (fun s => (sf_begun s, sf_text s)) kept).

(** All lines but the last one stay below the size limit, and every line was
    written before the age limit, or at the beginning. *)
Definition within (maxSize maxAge : Z) (s : spool_file) : Prop :=
  Z.of_nat (length (text (map snd (removelast (sf_lines s))))) < maxSize
  /\ Forall (fun l => fst l - sf_begun s < maxAge \/ fst l = sf_begun s) (sf_lines s).

(** The files written so far, the current one first. *)
Record spooled (rf : rotatingFile) (files : spool) (cur : spool_file) (old : list spool_file) : Prop := {
  spooled_disk : files = on_disk (cur :: old);
  spooled_times : Forall (fun s => sf_begun s < sf_begun cur) old;
  spooled_nodup : NoDup (map sf_begun (cur :: old));
  spooled_cur : rf_f rf = OpenFile (sf_begun cur);
  spooled_opened : rf_opened rf = sf_begun cur;
  spooled_size : rf_size rf = Z.of_nat (length (sf_text cur));
  spooled_within : Forall (within (rf_maxSize rf) (rf_maxAge rf)) (cur :: old) }.

Lemma on_disk_none now (kept : list spool_file) : Forall (fun s => sf_begun s < now) kept -> on_disk kept !! now = None.
Proof.
  intros H. apply not_elem_of_list_to_map. rewrite <- list_fmap_compose. intros (s & -> & Hs)%list_elem_of_fmap.
  rewrite Forall_forall in H. apply H in Hs. cbn in Hs. lia.
Qed.

(** Appending to the current file. *)
Lemma append_line_spooled rf files cur old now line :
  spooled rf files cur old -> rf_size rf < rf_maxSize rf -> now - sf_begun cur < rf_maxAge rf \/ now = sf_begun cur ->
  let cur' := {| sf_begun := sf_begun cur; sf_lines := (sf_lines cur ++ [(now, line)])%list |} in
  exists rf', append_line rf files good_disk line = (Ok tt, rf', on_disk (cur' :: old)) /\ spooled rf' (on_disk (cur' :: old)) cur' old
    /\ rf_maxSize rf' = rf_maxSize rf /\ rf_maxAge rf' = rf_maxAge rf.
Proof.
  intros [-> Ht Hn Hc Ho Hs Hw] Hsize Hage cur'.
  assert (sf_text cur' = (sf_text cur ++ line ++ [newline])%list) as Htext.
  { unfold sf_text, cur'. cbn [sf_lines]. rewrite map_app, text_app. unfold text at 2. cbn. by rewrite app_nil_r. }
  unfold append_line. rewrite Hc. cbn [d_room good_disk]. eexists. split_and!.
  - apply f_equal2; [reflexivity|]. unfold on_disk. cbn [map]. rewrite !list_to_map_cons, lookup_insert_eq, insert_insert_eq. cbn [default].
    change (sf_begun cur') with (sf_begun cur). by rewrite Htext.
  - apply Forall_cons in Hw as [[_ Hw1] Hw]. split; cbn [rf_f rf_opened rf_size rf_maxSize rf_maxAge]; try done.
    + rewrite Hs, Htext, !length_app. lia.
    + constructor; [|done]. split; cbn [sf_lines sf_begun cur'].
      * rewrite removelast_last. unfold sf_text in Hs. lia.
      * apply Forall_app. split; [done|]. by constructor.
  - done.
  - done.
Qed.

(** Beginning a new file. *)
Lemma rotate_spooled rf files cur old now :
  0 < rf_maxSize rf -> spooled rf files cur old -> sf_begun cur < now ->
  let new := {| sf_begun := now; sf_lines := [] |} in
  let rf1 := {| rf_maxSize := rf_maxSize rf; rf_maxAge := rf_maxAge rf; rf_f := OpenFile now; rf_size := 0; rf_opened := now |} in
  rotate rf files now good_disk = (Ok tt, rf1, on_disk (new :: cur :: old)) /\ spooled rf1 (on_disk (new :: cur :: old)) new (cur :: old).
Proof.
  intros Hmax [Hd Ht Hn Hc Ho Hs Hw] Hnow new rf1.
  assert (Forall (fun s => sf_begun s < now) (cur :: old)) as Hlt.
  { constructor; [done|]. eapply Forall_impl; [exact Ht|]. cbn. intros. lia. }
  assert (now ∉ map sf_begun (cur :: old)) as Hnew.
  { intros (s & Es & Hin)%list_elem_of_fmap. rewrite Forall_forall in Hlt. apply Hlt in Hin. lia. }
  split.
  - cbn [rotate d_opens good_disk]. apply f_equal2; [done|]. by rewrite Hd, on_disk_none.
  - split; try done; [by constructor|]. constructor; [|done]. split; [exact Hmax|constructor].
Qed.

(** One line: it goes to the current file or begins a new one. *)
Lemma WriteLine_spooled rf files cur old now line :
  0 < rf_maxSize rf -> spooled rf files cur old -> sf_begun cur < now ->
  exists rf' files' cur' old', WriteLine rf files now good_disk line = (Ok tt, rf', files') /\ spooled rf' files' cur' old'
    /\ concat (map sf_lines (rev (cur' :: old'))) = (concat (map sf_lines (rev (cur :: old))) ++ [(now, line)])%list
    /\ sf_begun cur' <= now /\ rf_maxSize rf' = rf_maxSize rf /\ rf_maxAge rf' = rf_maxAge rf.
Proof.
  intros Hmax Hsp Hnow. unfold WriteLine.
  destruct ((rf_maxSize rf <=? rf_size rf) || (rf_maxAge rf <=? now - rf_opened rf)) eqn:E.
  - destruct (rotate_spooled _ _ _ _ _ Hmax Hsp Hnow) as [-> Hsp1].
    destruct (append_line_spooled _ _ _ _ now line Hsp1 Hmax (or_intror eq_refl)) as (rf' & H & Hsp' & E1 & E2).
    eexists rf', _, _, (cur :: old). split_and!; [exact H|exact Hsp'| |cbn; lia|done|done].
    cbn [rev sf_lines]. rewrite !map_app, !concat_app. cbn. by rewrite !app_nil_r.
  - apply orb_false_iff in E as [Hl%Z.leb_gt Ha%Z.leb_gt]. rewrite (spooled_opened _ _ _ _ Hsp) in Ha.
    destruct (append_line_spooled _ _ _ _ now line Hsp Hl (or_introl Ha)) as (rf' & H & Hsp' & E1 & E2).
    eexists rf', _, _, old. split_and!; [exact H|exact Hsp'| |cbn; lia|done|done].
    cbn [rev sf_lines]. rewrite !map_app, !concat_app. cbn. by rewrite !app_nil_r, app_assoc.
Qed.

(** The instants of the calls, later and later. *)
Fixpoint increasing (t : Z) (lines : list (Z * bytes)) : Prop :=
  match lines with [] => True | (now, _) :: rest => t < now /\ increasing now rest end.

Lemma write_all_spooled lines rf files cur old t :
  0 < rf_maxSize rf -> spooled rf files cur old -> sf_begun cur <= t -> increasing t lines ->
  exists rf' files' cur' old', write_all rf files lines = (rf', files') /\ spooled rf' files' cur' old'
    /\ concat (map sf_lines (rev (cur' :: old'))) = (concat (map sf_lines (rev (cur :: old))) ++ lines)%list
    /\ rf_maxSize rf' = rf_maxSize rf /\ rf_maxAge rf' = rf_maxAge rf.
Proof.
  revert rf files cur old t. induction lines as [|[now line] lines IH]; intros rf files cur old t Hmax Hsp Ht Hinc.
  - exists rf, files, cur, old. by rewrite app_nil_r.
  - destruct Hinc as [Hnow Hinc].
    destruct (WriteLine_spooled _ _ _ _ now line Hmax Hsp ltac:(lia)) as (rf1 & files1 & cur1 & old1 & Hw & Hsp1 & Hl & Hb & E1 & E2).
    destruct (IH rf1 files1 cur1 old1 now) as (rf2 & files2 & cur2 & old2 & Hw2 & Hsp2 & Hl2 & E3 & E4); [congruence|done|done|done|].
    exists rf2, files2, cur2, old2. cbn [write_all]. rewrite Hw. split_and!; [done|done| |congruence|congruence].
    by rewrite Hl2, Hl, <- app_assoc.
Qed.

(** C37: while the disk takes what is written, the files of the spool hold every line,
    whole and in order; without its last line each file is below the size limit, and
    each line came before the age limit of its file; reading a file line by line
    gives back what was written to it. *)
Theorem spool_keeps_lines maxSize maxAge t0 lines rf0 files0 rf files :
  0 < maxSize -> increasing t0 lines -> newRotatingFile maxSize maxAge ∅ t0 good_disk = (Ok rf0, files0) ->
  write_all rf0 files0 lines = (rf, files) ->
  exists kept, files = on_disk kept /\ NoDup (map sf_begun kept) /\ concat (map sf_lines kept) = lines
    /\ Forall (within maxSize maxAge) kept
    /\ forall s, s ∈ kept -> Forall (fun l => newline ∉ snd l) (sf_lines s) ->
       exists content, files !! sf_begun s = Some content /\ read_lines content = map snd (sf_lines s).
Proof.
  intros Hmax Hinc Hnew Hw. cbn in Hnew. rewrite lookup_empty in Hnew. cbn in Hnew. injection Hnew as Hrf Hfiles.
  assert (rf_maxSize rf0 = maxSize /\ rf_maxAge rf0 = maxAge) as [M1 M2] by (by subst rf0).
  destruct (write_all_spooled lines rf0 files0 {| sf_begun := t0; sf_lines := [] |} [] t0) as (rf' & files' & cur & old & Hw' & Hsp & Hl & E1 & E2);
    [by rewrite M1| |cbn; lia|done|].
  { subst rf0 files0. split; try done; [apply NoDup_singleton|]. repeat constructor. exact Hmax. }
  rewrite Hw in Hw'. injection Hw' as <- <-. destruct Hsp as [Hd _ Hn _ _ _ Hwi]. rewrite E1, E2, M1, M2 in Hwi.
  assert (rev (cur :: old) ≡ₚ cur :: old) as Hperm by (symmetry; apply Permutation_rev).
  exists (rev (cur :: old)). assert (NoDup (map sf_begun (rev (cur :: old)))) as Hn' by (by rewrite Hperm).
  assert (on_disk (rev (cur :: old)) = on_disk (cur :: old)) as Hdisk.
  { apply list_to_map_proper; [by rewrite <- list_fmap_compose|]. by rewrite Hperm. }
  split_and!; [by rewrite Hdisk|done|by rewrite Hl|by rewrite Hperm|].
  intros s Hs Hln. exists (sf_text s). split.
  - rewrite Hd, <- Hdisk. apply elem_of_list_to_map; [by rewrite <- list_fmap_compose|].
    apply list_elem_of_fmap. by exists s.
  - apply read_lines_text. by apply Forall_fmap.
Qed.

(** Two lines fill the first file, the third begins another. *)
Definition sample_lines : list (Z * bytes) := [(1, str "aaaa"); (2, str "bbbb"); (3, str "c")].
Definition sample_spool : rotatingFile * spool := 
  write_all {| rf_maxSize := 8; rf_maxAge := 60; rf_f := OpenFile 0; rf_size := 0; rf_opened := 0 |} {[ 0 := [] ]} sample_lines.

Lemma spool_keeps_lines_witness :
  exists kept, snd sample_spool = on_disk kept /\ concat (map sf_lines kept) = sample_lines /\ Forall (within 8 60) kept
  /\ snd sample_spool !! 3 = Some (text [str "c"]).
Proof.
  destruct (spool_keeps_lines 8 60 0 sample_lines {| rf_maxSize := 8; rf_maxAge := 60; rf_f := OpenFile 0; rf_size := 0; rf_opened := 0 |}
    {[ 0 := [] ]} (fst sample_spool) (snd sample_spool)) as (kept & H1 & _ & H2 & H3 & _).
  - lia.
  - cbn. lia.
  - reflexivity.
  - vm_compute. reflexivity.
  - exists kept. split_and!; [exact H1|exact H2|exact H3|vm_compute; reflexivity].
Defined.

(** ** When the disk does not *)

(** A write that stops short leaves a fragment, and the next line continues it: the
    collector then reads neither document. *)
Theorem short_write_tears_two_lines :
  let rf := {| rf_maxSize := 100; rf_maxAge := 60; rf_f := OpenFile 0; rf_size := 0; rf_opened := 0 |} in
  let '(r1, rf1, files1) := WriteLine rf {[ 0 := [] ]} 1 {| d_opens := true; d_room := Some 2%nat |} (str "aaaa") in
  let '(r2, _, files2) := WriteLine rf1 files1 2 good_disk (str "bbbb") in
  is_ok r1 = false /\ r2 = Ok tt /\ option_map read_lines (files2 !! 0) = Some [str "aabbbb"].
Proof. vm_compute. done. Qed.

(** A rotation that fails is tried again by the next line, which nothing has lost by
    it. *)
Lemma failed_rotation_retried rf files now now' line line' :
  rf_maxSize rf <= rf_size rf \/ rf_maxAge rf <= now - rf_opened rf -> now <= now' ->
  let '(r, rf1, files1) := WriteLine rf files now {| d_opens := false; d_room := None |} line in
  is_ok r = false /\ files1 = files
  /\ exists rf2, WriteLine rf1 files1 now' good_disk line'
       = (Ok tt, rf2, <[now' := (default [] (files !! now') ++ line' ++ [newline])%list]> files).
Proof.
  intros Hl Hn. unfold WriteLine at 1. assert ((rf_maxSize rf <=? rf_size rf) || (rf_maxAge rf <=? now - rf_opened rf) = true) as ->.
  { apply orb_true_iff. rewrite !Z.leb_le. lia. }
  cbn [rotate d_opens]. split_and!; [done|done|]. unfold WriteLine. cbn [rf_maxSize rf_size rf_maxAge rf_opened].
  assert ((rf_maxSize rf <=? rf_size rf) || (rf_maxAge rf <=? now' - rf_opened rf) = true) as ->.
  { apply orb_true_iff. rewrite !Z.leb_le. lia. }
  cbn [rotate d_opens good_disk append_line rf_f d_room]. rewrite lookup_insert_eq, insert_insert_eq. cbn. by eexists.
Qed.
