(* ===== verification/Telemetry.v ===== *)
(** * Setting up telemetry (internal/telemetry/telemetry.go, metrics.go, traces.go, resource.go, propagation.go)

    Which sinks the flags name, what the resource says, and which providers run
    after a set-up that succeeded or failed.  Exporters and servers are third-party
    code or sockets: each is a step of a log that succeeds or fails. *)

From S2P Require Import Prelude GoStrings Netip GoUrl StorageOpen.

Open Scope Z_scope.

(** ** The resource *)

Definition defaultServiceName : bytes := str "mitmania".

Definition splitNonEmpty (s : bytes) (sep : ascii) : list bytes :=
  if bool_decide (s = []) then [] else List.filter (fun part => negb (bool_decide (part = []))) (Split sep s).

(** One "k=v" of --otel-resource. *)
Definition parse_pair (part : bytes) : result (bytes * bytes) :=
  match Cut "=" part with
  | None => Error "invalid attribute (want k=v)"
  | Some (k, v) =>
      let k := TrimSpace k in
      if bool_decide (k = []) then Error "invalid attribute (empty key)" else Ok (k, TrimSpace v)
  end.

(** The loop over the pairs. *)
Fixpoint add_pairs (attrs : gmap bytes bytes) (pairs : list bytes) : result (gmap bytes bytes) :=
  match pairs with
  | [] => Ok attrs
  | part :: t => '(k, v) ← parse_pair part; add_pairs (<[k := v]> attrs) t
  end.

(** The attributes; of two with the same key the set keeps the later one. *)
Definition buildResource (nodeID raw : bytes) : result (gmap bytes bytes) :=
  attrs ← add_pairs {[ str "service.name" := defaultServiceName ]} (splitNonEmpty raw ",");
  Ok (<[str "service.instance.id" := nodeID]> attrs).

(** ** Sinks *)

Inductive traces_sink : Type :=
  | NoTraces | OtlpGrpc (host : bytes) (insecure : bool) | OtlpHttp (host : bytes) (insecure : bool) | StdoutTraces | FileTraces (dir : bytes).

Definition insecureParam (u : URL) : bool :=
  match ParseBool (query_get u (str "insecure")) with Ok v => v | Error _ => false end.

(** The sink [setupTraces] builds an exporter for. *)
Definition traces_sink_of (rawURL : bytes) : result traces_sink :=
  if bool_decide (rawURL = []) then Ok NoTraces
  else
    u ← wrap "telemetry: --otel-traces: invalid URL" (Parse_url rawURL);
    if bool_decide (u_Scheme u = str "otlp+grpc") then Ok (OtlpGrpc (u_Host u) (insecureParam u))
    else if bool_decide (u_Scheme u = str "otlp+http") then Ok (OtlpHttp (u_Host u) (insecureParam u))
    else if bool_decide (u_Scheme u = str "stdout") then Ok StdoutTraces
    else if bool_decide (u_Scheme u = str "file") then
      if bool_decide (u_Path u = []) then Error "telemetry: --otel-traces: file:// needs a path" else Ok (FileTraces (u_Path u))
    else Error "telemetry: --otel-traces: unsupported scheme".

Inductive metrics_sink : Type := NoMetrics | ScrapeTCP (addr path : bytes) | ScrapeUnix (socket path : bytes).

Definition defaultScrapePath : bytes := str "/metrics".

(** The endpoint [setupMetrics] listens on. *)
Definition metrics_sink_of (rawURL : bytes) : result metrics_sink :=
  if bool_decide (rawURL = []) then Ok NoMetrics
  else
    match Parse_url rawURL with
    | Error _ => Error "telemetry: --otel-metrics: unsupported scheme"
    | Ok u =>
        if bool_decide (u_Scheme u = str "http") then
          if bool_decide (u_Host u = []) then Error "telemetry: --otel-metrics: needs a host:port to bind"
          else Ok (ScrapeTCP (u_Host u) (if bool_decide (u_Path u = []) then defaultScrapePath else u_Path u))
        else if bool_decide (u_Scheme u = str "unix") then
          if bool_decide (u_Path u = []) then Error "telemetry: --otel-metrics: needs a socket path"
          else Ok (ScrapeUnix (u_Path u) defaultScrapePath)
        else Error "telemetry: --otel-metrics: unsupported scheme"
    end.

(** ** [Setup] *)

Record Config : Type := { tc_MetricsURL : bytes; tc_TracesURL : bytes; tc_Resource : bytes }.

(** The steps that depend on the machine. *)
Record machine : Type := {
  m_nodeID : bytes;
  m_listen : metrics_sink -> result unit;     (* clearing a stale socket, listening, its mode *)
  m_instruments : result unit;                (* NewMetrics *)
  m_exporter : traces_sink -> result unit;
  m_stop_metrics : option string;             (* what shutting down answers *)
  m_stop_traces : option string }.

(** What runs. *)
Inductive telemetry_event : Type := MetricsStarted (s : metrics_sink) | MetricsStopped | TracesStarted (s : traces_sink) | TracesStopped.

(** A set-up: its result and what it did, in order. *)
Definition Setup (m : machine) (cfg : Config) : result (gmap bytes bytes) * list telemetry_event :=
  match wrap "telemetry: --otel-resource" (buildResource (m_nodeID m) (tc_Resource cfg)) with
  | Error e => (Error e, [])
  | Ok res =>
      match (sink ← metrics_sink_of (tc_MetricsURL cfg); _ ← m_listen m sink; Ok sink) with
      | Error e => (Error e, [])
      | Ok metrics =>
          match m_instruments m with
          | Error e => (Error e, [MetricsStarted metrics; MetricsStopped])
          | Ok _ =>
              match (sink ← traces_sink_of (tc_TracesURL cfg); _ ← wrap "telemetry: traces exporter" (m_exporter m sink); Ok sink) with
              | Error e => (Error e, [MetricsStarted metrics; MetricsStopped])
              | Ok traces => (Ok res, [MetricsStarted metrics; TracesStarted traces])
              end
          end
      end
  end.

(** [Providers.Shutdown]: both, whatever the first answers. *)
Definition Shutdown (m : machine) : option (list string) * list telemetry_event :=
  let errs := (option_list (m_stop_metrics m) ++ option_list (m_stop_traces m))%list in
  (match errs with [] => None | _ => Some errs end, [MetricsStopped; TracesStopped]).

(** What still runs after a log. *)
Definition metrics_running (l : list telemetry_event) : bool :=
  foldl (fun b e => match e with MetricsStarted _ => true | MetricsStopped => false | _ => b end) false l.
Definition traces_running (l : list telemetry_event) : bool :=
  foldl (fun b e => match e with TracesStarted _ => true | TracesStopped => false | _ => b end) false l.

(** ** Propagation *)

(** [InjectUpstream] and [ExtractClient] over the propagator's own functions. *)
Definition InjectUpstream {H} (inject : H -> H) (header : H) (enabled : bool) : H := if enabled then inject header else header.
Definition ExtractClient {C H} (extract : C -> H -> C) (ctx : C) (header : H) (enabled : bool) : C := if enabled then extract ctx header else ctx.

(** ** Theorems *)

(** The last value given for a key. *)
Definition last_value (pairs : list (bytes * bytes)) (k : bytes) : option bytes :=
  option_map snd (last (filter (fun kv => fst kv = k) pairs)).

Lemma add_pairs_spec attrs pairs m :
  add_pairs attrs pairs = Ok m ->
  exists kvs, mapM parse_pair pairs = Ok kvs /\ forall k, m !! k = from_option Some (attrs !! k) (last_value kvs k).
Proof.
  revert attrs. induction pairs as [|part pairs IH]; intros attrs H; [injection H as <-; by exists []|].
  cbn [add_pairs] in H. apply result_bind_ok in H as ([k v] & Hp & H). destruct (IH _ H) as (kvs & Hk & Hm).
  exists ((k, v) :: kvs). split; [cbn [mapM]; rewrite Hp; cbn; by rewrite Hk|]. intros k'. rewrite Hm. unfold last_value.
  destruct (decide (k = k')) as [->|Hne].
  - rewrite filter_cons_True, last_cons, lookup_insert_eq by done. by destruct (last (filter _ kvs)).
  - by rewrite filter_cons_False, lookup_insert_ne.
Qed.

(** What a set-up leaves in its log. *)
Lemma Setup_log m cfg r log :
  Setup m cfg = (r, log) ->
  match r with
  | Ok _ => exists a b, log = [MetricsStarted a; TracesStarted b]
  | Error _ => log = [] \/ exists a, log = [MetricsStarted a; MetricsStopped]
  end.
Proof.
  unfold Setup. destruct (wrap _ (buildResource _ _)) as [res|e]; [|intros [= <- <-]; by left].
  destruct (sink ← metrics_sink_of _; _) as [metrics|e]; [|intros [= <- <-]; by left].
  destruct (m_instruments m); [|intros [= <- <-]; right; by eexists].
  destruct (sink ← traces_sink_of _; _) as [traces|e]; intros [= <- <-]; [by eexists _, _|right; by eexists].
Qed.

(** The resource of the process carries each key of --otel-resource with the last
    value given for it, the default service name if none is given, and always the
    identifier of this process; a set-up that fails leaves nothing running, one that
    succeeds leaves both providers running until [Shutdown], which stops both
    whatever errors they report. *)
Theorem telemetry_setup_clean m cfg r log :
  Setup m cfg = (r, log) ->
  match r with
  | Error _ => metrics_running log = false /\ traces_running log = false
  | Ok res =>
      metrics_running log = true /\ traces_running log = true
      /\ metrics_running (log ++ snd (Shutdown m)) = false /\ traces_running (log ++ snd (Shutdown m)) = false
      /\ exists kvs, mapM parse_pair (splitNonEmpty (tc_Resource cfg) ",") = Ok kvs
         /\ res !! str "service.instance.id" = Some (m_nodeID m)
         /\ (forall k, k <> str "service.instance.id" ->
             res !! k = match last_value kvs k with Some v => Some v
                        | None => if bool_decide (k = str "service.name") then Some defaultServiceName else None end)
  end.
Proof.
  unfold Setup. destruct (wrap _ (buildResource _ _)) as [res|e] eqn:Er; [|by intros [= <- <-]].
  destruct (sink ← metrics_sink_of _; _) as [metrics|e]; [|by intros [= <- <-]].
  destruct (m_instruments m); [|by intros [= <- <-]].
  destruct (sink ← traces_sink_of _; _) as [traces|e]; [|by intros [= <- <-]]. intros [= <- <-]. split_and!; try done.
  apply wrap_ok in Er. unfold buildResource in Er. apply result_bind_ok in Er as (attrs & Ha & [= <-]).
  destruct (add_pairs_spec _ _ _ Ha) as (kvs & Hk & Hm). exists kvs. split_and!; [done|by rewrite lookup_insert_eq|].
  intros k Hne. rewrite lookup_insert_ne, Hm by done. destruct (last_value kvs k); [done|]. cbn [from_option].
  case_bool_decide as Hs; [subst; by rewrite lookup_singleton_eq|by rewrite lookup_singleton_ne].
Qed.

Definition sample_machine : machine :=
  {| m_nodeID := str "n1"; m_listen := fun _ => Ok tt; m_instruments := Ok tt; m_exporter := fun _ => Ok tt; m_stop_metrics := None; m_stop_traces := None |}.
Definition sample_config : Config :=
  {| tc_MetricsURL := str "http://127.0.0.1:9760"; tc_TracesURL := str "file:///var/spool/"; tc_Resource := str "env=dev, env=prod,service.instance.id=x" |}.

Lemma telemetry_setup_clean_witness :
  exists res log, Setup sample_machine sample_config = (Ok res, log) /\ metrics_running log = true
  /\ res !! str "service.instance.id" = Some (str "n1").
Proof.
  assert (is_ok (fst (Setup sample_machine sample_config)) = true) as Hok by (vm_compute; reflexivity).
  destruct (Setup sample_machine sample_config) as [[res|e] log] eqn:E; [|discriminate Hok].
  destruct (telemetry_setup_clean sample_machine sample_config (Ok res) log E) as (H1 & _ & _ & _ & kvs & _ & H2 & _).
  exists res, log. split; [reflexivity|]. split; [exact H1|exact H2].
Defined.
