(* ===== verification/Services.v ===== *)
(** * Clients of brokers, links and the metrics endpoint

    The pool of HTTP clients of internal/outcall/service.go, [SymlinkAtomic] of
    internal/fsutil/fsutil.go call by call, and the listener of internal/telemetry/metrics.go. *)

From S2P Require Import Prelude GoStrings GoUrl Storage StorageTree Json CacheControl Headers Outcall Telemetry.

Open Scope Z_scope.

(** ** Clients of brokers *)

(** How a client connects: to one socket whatever the URL, or to the URL's host. *)
Inductive dialing : Type := DialSocket (socket : bytes) | DialHost.

Record http_client : Type := { hc_dial : dialing; hc_connectTimeout : Z; hc_readTimeout : Z }.

(** The clients that were made, each by its number, and the map from keys to them. *)
Record clients : Type := { cl_made : list http_client; cl_map : gmap bytes nat; cl_connectTimeout : Z; cl_readTimeout : Z }.

Definition no_clients (connectTimeout readTimeout : Z) : clients :=
  {| cl_made := []; cl_map := ∅; cl_connectTimeout := connectTimeout; cl_readTimeout := readTimeout |}.

Definition dialing_of (t : Target) : dialing := if bool_decide (tg_Socket t <> []) then DialSocket (tg_Socket t) else DialHost.

(** [clientFor]. *)
Definition clientFor (s : clients) (t : Target) : nat * clients :=
  match cl_map s !! target_key t with
  | Some c => (c, s)
  | None =>
      let c := {| hc_dial := dialing_of t; hc_connectTimeout := cl_connectTimeout s; hc_readTimeout := cl_readTimeout s |} in
      let n := length (cl_made s) in
      (n, {| cl_made := cl_made s ++ [c]; cl_map := <[target_key t := n]> (cl_map s);
             cl_connectTimeout := cl_connectTimeout s; cl_readTimeout := cl_readTimeout s |})
  end.

Fixpoint clientsFor (s : clients) (ts : list Target) : list nat * clients :=
  match ts with
  | [] => ([], s)
  | t :: ts => let '(c, s) := clientFor s t in let '(cs, s) := clientsFor s ts in (c :: cs, s)
  end.

(** ** [SymlinkAtomic] *)

Inductive link_step : Type := Symlink (target tmp : bytes) | RenameLink (tmp path : bytes) | RemoveLink (tmp : bytes).

Definition link_step_run (w : tree) (s : link_step) : tree :=
  match s with
  | Symlink target tmp => {| t_fs := t_fs w; t_links := <[tmp := target]> (t_links w) |}
  | RenameLink tmp path =>
      match t_links w !! tmp with
      | Some target => {| t_fs := Storage.run (t_fs w) [Remove path]; t_links := <[path := target]> (delete tmp (t_links w)) |}
      | None => w
      end
  | RemoveLink tmp => {| t_fs := t_fs w; t_links := delete tmp (t_links w) |}
  end.

(** The calls it makes, when [rename] says whether the rename succeeds; a failed one changes nothing. *)
Definition SymlinkAtomic (target path tmp : bytes) (rename : bool) : list link_step :=
  Symlink target tmp :: (if rename then [RenameLink tmp path] else [RemoveLink tmp]).

(** What is on disk if the machine stops after [n] of the calls. *)
Definition link_crash (w : tree) (target path tmp : bytes) (rename : bool) (n : nat) : tree :=
  foldl link_step_run w (take n (SymlinkAtomic target path tmp rename)).

(** ** The metrics endpoint *)

(** What the system answers while it is set up, and what shutting down answers. *)
Record endpoint_env : Type := {
  ee_remove : option string;      (* removing a stale socket; None also if there was none *)
  ee_exporter : option string;
  ee_listen : option string;
  ee_chmod : option string;
  ee_srv_shutdown : option string;
  ee_provider_shutdown : option string }.

Inductive endpoint_event : Type := Listening | ListenerClosed | Serving | ServerDown | ProviderDown.

(** The listening part of [setupMetrics], for the endpoint it was given. *)
Definition listen_metrics (env : endpoint_env) (sink : metrics_sink) : result unit * list endpoint_event :=
  match sink with
  | NoMetrics => (Ok tt, [])
  | ScrapeTCP _ _ | ScrapeUnix _ _ =>
      let unix := match sink with ScrapeUnix _ _ => true | _ => false end in
      match (if unix then ee_remove env else None) with
      | Some e => (Error ("telemetry: --otel-metrics: clear stale socket: " ++ e), [])
      | None =>
          match ee_exporter env with
          | Some e => (Error ("telemetry: prometheus exporter: " ++ e), [])
          | None =>
              match ee_listen env with
              | Some e => (Error ("telemetry: --otel-metrics: listen: " ++ e), [])
              | None =>
                  match (if unix then ee_chmod env else None) with
                  | Some e => (Error ("telemetry: --otel-metrics: chmod: " ++ e), [Listening; ListenerClosed])
                  | None => (Ok tt, [Listening; Serving])
                  end
              end
          end
      end
  end.

(** [MetricsProvider.Shutdown]; without an endpoint there is no server. *)
Definition metrics_Shutdown (env : endpoint_env) (sink : metrics_sink) : option string * list endpoint_event :=
  let '(err, l) := match sink with NoMetrics => (None, []) | _ => (ee_srv_shutdown env, [ServerDown]) end in
  (match err, ee_provider_shutdown env with None, Some e => Some e | _, _ => err end, l ++ [ProviderDown])%list.

(** The listener is open after these events. *)
Definition listening (l : list endpoint_event) : bool :=
  foldl (fun b e => match e with Listening => true | ListenerClosed | ServerDown => false | _ => b end) false l.

(** ** What holds *)

Lemma target_key_dial t t' : target_key t = target_key t' -> dialing_of t = dialing_of t'.
Proof.
  unfold target_key, dialing_of. destruct (bool_decide (tg_Socket t <> [])), (bool_decide (tg_Socket t' <> [])); try (intros [=]; done).
  intros E%app_inv_head. by rewrite E.
Qed.

(** Every client of the map was made for its key, and keys do not share one. *)
Definition clients_ok (s : clients) : Prop :=
  (forall k n, cl_map s !! k = Some n -> exists t, target_key t = k
     /\ cl_made s !! n = Some {| hc_dial := dialing_of t; hc_connectTimeout := cl_connectTimeout s; hc_readTimeout := cl_readTimeout s |})
  /\ size (cl_map s) = length (cl_made s)
  /\ forall k k' n, cl_map s !! k = Some n -> cl_map s !! k' = Some n -> k = k'.

Lemma clientFor_ok s t n s' :
  clients_ok s -> clientFor s t = (n, s') ->
  clients_ok s' /\ cl_map s' !! target_key t = Some n
  /\ (forall k m, cl_map s !! k = Some m -> cl_map s' !! k = Some m) /\ cl_connectTimeout s' = cl_connectTimeout s /\ cl_readTimeout s' = cl_readTimeout s.
Proof.
  intros (Hm & Hs & Hu). unfold clientFor. destruct (cl_map s !! target_key t) as [c|] eqn:E; intros [= <- <-]; [done|].
  assert (Hlt : forall k m, cl_map s !! k = Some m -> (m < length (cl_made s))%nat) by (intros k m (t' & _ & Hl)%Hm; by eapply lookup_lt_Some).
  split_and!; cbn; [split_and!; cbn| |..].
  - intros k m [[<- <-]|[Hne H]]%lookup_insert_Some.
    + exists t. split; [done|]. by apply list_lookup_middle.
    + destruct (Hm _ _ H) as (t' & Ht & Hl). exists t'. split; [done|]. by apply lookup_app_l_Some.
  - rewrite map_size_insert_None by done. rewrite length_app. cbn. lia.
  - intros k k' m. intros [[<- <-]|[Hne H]]%lookup_insert_Some [[<- E2]|[Hne' H']]%lookup_insert_Some; [done| | |by eapply Hu].
    + apply Hlt in H'. lia.
    + apply Hlt in H. lia.
  - apply lookup_insert_eq.
  - intros k m H. rewrite lookup_insert_ne; [done|]. intros <-. congruence.
  - done.
  - done.
Qed.

Lemma clientsFor_ok s ts cs s' :
  clients_ok s -> clientsFor s ts = (cs, s') ->
  clients_ok s' /\ (forall k m, cl_map s !! k = Some m -> cl_map s' !! k = Some m) /\ Forall2 (fun t c => cl_map s' !! target_key t = Some c) ts cs
  /\ cl_connectTimeout s' = cl_connectTimeout s /\ cl_readTimeout s' = cl_readTimeout s.
Proof.
  revert s cs. induction ts as [|t ts IH]; intros s cs Hok; cbn [clientsFor]; [intros [= <- <-]; done|].
  destruct (clientFor s t) as [c s1] eqn:E1. destruct (clientsFor s1 ts) as [cs1 s2] eqn:E2. intros [= <- <-].
  destruct (clientFor_ok _ _ _ _ Hok E1) as (Hok1 & Hc & Hk1 & Hct & Hrt). destruct (IH _ _ Hok1 E2) as (Hok2 & Hk2 & Hf & Hct2 & Hrt2).
  split_and!; [done|auto| |congruence..]. constructor; [by apply Hk2|done].
Qed.

(** Calls to brokers share clients exactly as they share a socket or a URL, and a client reaches the socket
    of every target it is handed out for. *)
Theorem broker_clients_right connectTimeout readTimeout ts cs s :
  clientsFor (no_clients connectTimeout readTimeout) ts = (cs, s) ->
  length (cl_made s) = size (cl_map s)
  /\ Forall2 (fun t c => cl_made s !! c = Some {| hc_dial := dialing_of t; hc_connectTimeout := connectTimeout; hc_readTimeout := readTimeout |}) ts cs
  /\ forall i j t t' c c', ts !! i = Some t -> ts !! j = Some t' -> cs !! i = Some c -> cs !! j = Some c' -> (c = c' <-> target_key t = target_key t').
Proof.
  intros H. assert (H0 : clients_ok (no_clients connectTimeout readTimeout)).
  { split_and!; [|done|]; unfold no_clients; cbn [cl_map]; [intros k n|intros k k' n]; by rewrite lookup_empty. }
  destruct (clientsFor_ok _ _ _ _ H0 H) as ((Hm & Hs & Hu) & _ & Hf & Hct & Hrt). cbn in Hct, Hrt. split_and!; [done| |].
  - eapply Forall2_impl; [exact Hf|]. intros t c Hc. destruct (Hm _ _ Hc) as (t' & Ht & Hl). rewrite Hl, Hct, Hrt. by rewrite (target_key_dial _ _ Ht).
  - intros i j t t' c c' Ht Ht' Hc Hc'. pose proof (Forall2_lookup_lr _ _ _ _ _ _ Hf Ht Hc) as E. pose proof (Forall2_lookup_lr _ _ _ _ _ _ Hf Ht' Hc') as E'.
    cbn beta in E, E'. split; [intros <-; by eapply Hu|]. intros Hk. rewrite Hk in E. congruence.
Qed.

(** Wherever the machine stops, the path leads where it led before or to the new target; complete, the calls
    leave the tree of [Symlink], and a rename that failed leaves everything as it was. *)
Theorem symlink_crash_safe w target path tmp rename n :
  fs_up (t_fs w) = true -> t_links w !! tmp = None -> tmp <> path ->
  let w' := link_crash w target path tmp rename n in
  (forall k, k <> tmp -> k <> path -> t_links w' !! k = t_links w !! k)
  /\ (t_links w' !! path = t_links w !! path /\ t_fs w' = t_fs w \/ rename = true /\ t_links w' !! path = Some target)
  /\ ((2 <= n)%nat -> w' = if rename then (posix_Symlink w path target).2 else w).
Proof.
  intros Hup Htmp Hne. unfold link_crash, SymlinkAtomic. destruct n as [|[|n]]; cbn [take firstn foldl].
  - split_and!; [done|by left|lia].
  - rewrite take_0. cbn [foldl link_step_run t_links t_fs]. split_and!; [intros k Hk _; by rewrite lookup_insert_ne|left; by rewrite lookup_insert_ne|lia].
  - destruct rename; cbn [take firstn foldl]; rewrite ?take_nil; cbn [foldl link_step_run t_links t_fs].
    + rewrite lookup_insert_eq. rewrite delete_insert_id by done. cbn [t_links t_fs]. split_and!.
      * intros k _ Hk. by rewrite lookup_insert_ne.
      * right. by rewrite lookup_insert_eq.
      * intros _. unfold posix_Symlink. by rewrite Hup.
    + rewrite delete_insert_id by done. destruct w; cbn. split_and!; [done|by left|done].
Qed.

(** The endpoint: a set-up that fails leaves no listener behind, one that succeeds leaves one exactly if an
    endpoint was asked for, and shutting down closes it, stops the provider whatever the server answers, and
    reports the first error. *)
Theorem metrics_endpoint_closed env sink r l :
  listen_metrics env sink = (r, l) ->
  (forall e, r = Error e -> listening l = false)
  /\ (r = Ok tt -> listening l = match sink with NoMetrics => false | _ => true end
      /\ listening (l ++ snd (metrics_Shutdown env sink)) = false /\ last (snd (metrics_Shutdown env sink)) = Some ProviderDown
      /\ (fst (metrics_Shutdown env sink) = None <-> ee_provider_shutdown env = None /\ (sink = NoMetrics \/ ee_srv_shutdown env = None))).
Proof.
  unfold listen_metrics, metrics_Shutdown.
  destruct sink; [|destruct (ee_exporter env), (ee_listen env)|destruct (ee_remove env), (ee_exporter env), (ee_listen env), (ee_chmod env)];
    intros [= <- <-]; (split; [by intros ? [=]|]); (intros [=] || intros _); cbn;
    destruct (ee_srv_shutdown env), (ee_provider_shutdown env); naive_solver.
Qed.
