(* ===== verification/CertCache.v ===== *)
(** * The leaf cache and the certificate factory (internal/cert/cache.go, factory.go, selfcert.go, fallback.go)

    Cloned chains are kept in PKCS#12 trust stores and in a map in memory; keys are
    never stored, a certificate taken from either place is verified against the
    current CA and cluster key before it is served. *)

From S2P Require Import Prelude GoStrings Netip Encoding X509 CertKeys CertChain Storage GoUrl StorageTree.

Open Scope Z_scope.

(** ** PKCS#12 trust stores *)

(** go-pkcs12's [Modern.EncodeTrustStoreEntries] (with numbered randomness) and
    [DecodeTrustStore]. *)
Class TrustStores : Type := {
  EncodeTrustStoreEntries : nat -> list (Certificate * bytes) -> bytes -> result bytes;
  DecodeTrustStore : bytes -> bytes -> result (list Certificate) }.

(** A store decodes under its password to the certificates put in, in any order. *)
Class TrustStoresSpec `{XS : X509} `{TR : TrustStores} : Prop := {
  decode_store r entries password data :
    Forall parsed (map fst entries) -> EncodeTrustStoreEntries r entries password = Ok data ->
    exists l, DecodeTrustStore data password = Ok l /\ l ≡ₚ map fst entries }.

(** ** The cache *)

(** [CertCache]; the storage is a separate argument.  [cc_password] and
    [cc_namespace] come from the cluster key. *)
Record CertCache : Type := {
  cc_password : bytes; cc_namespace : bytes; cc_ca : CA; cc_keys : bytes;
  cc_hot : gmap bytes (list Certificate) }.

Definition set_hot (c : CertCache) (m : gmap bytes (list Certificate)) : CertCache :=
  {| cc_password := cc_password c; cc_namespace := cc_namespace c; cc_ca := cc_ca c; cc_keys := cc_keys c;
     cc_hot := m |}.

Inductive source : Type := FromHotmap | FromStorage.

(** [tls.Certificate]. *)
Record TLSCertificate : Type := {
  tc_Certificate : list bytes; tc_PrivateKey : PrivateKey; tc_Leaf : Certificate }.

(** [CertFactory]. *)
Record CertFactory : Type := { f_ca : CA; f_cache : CertCache; f_keys : bytes }.

Definition set_cache (f : CertFactory) (c : CertCache) : CertFactory :=
  {| f_ca := f_ca f; f_cache := c; f_keys := f_keys f |}.

Section Cache.
Context `{DG : Digests} `{CR : Crypto} `{XS : X509} `{UV : UuidV5} `{TR : TrustStores}.
Context {W : Type} `{TS : TreeStorage W}.

Definition NewCertCache (clusterKey : bytes) (ca : CA) : CertCache :=
  {| cc_password := clusterKey; cc_namespace := sanNamespace clusterKey; cc_ca := ca; cc_keys := clusterKey;
     cc_hot := ∅ |}.

Definition NewCertFactory (ca : CA) (cache : CertCache) (keys : bytes) : CertFactory :=
  {| f_ca := ca; f_cache := cache; f_keys := keys |}.

Definition IDFor (c : CertCache) (realChain : list Certificate) : bytes := certID (cc_namespace c) realChain.

Definition SelfCertIDFor (c : CertCache) (names : list bytes) : bytes :=
  idFromFingerprint (cc_namespace c) (selfCertIdentityHash names).

(** [Count]: the ".p12" entries beneath certs/. *)
Definition Count (w : W) : sres nat :=
  match ListKeys w certsPrefix with
  | SOk entries => SOk (length (List.filter (HasSuffix (str ".p12")) entries))
  | SNotExist => SNotExist
  | SFail e => SFail e
  end.

Definition Flush (c : CertCache) (w : W) : result unit * CertCache * W :=
  match DeletePrefix w leafPrefix with
  | (SOk _, w) => (Ok tt, set_hot c ∅, w)
  | (SNotExist, w) => (Error "cert: cache: flush: storage: key does not exist", c, w)
  | (SFail e, w) => (Error ("cert: cache: flush: " ++ e), c, w)
  end.

(** [verify]: the leaf's key, then every link up to the current root. *)
Definition verify (c : CertCache) (chain : list Certificate) : bool :=
  match chain with
  | [] => false
  | leaf :: _ =>
      match LeafKey (cc_keys c) (typeTaggedSANStrings leaf) with
      | Error _ => false
      | Ok key =>
          if bool_decide (Public key = CertPublicKey leaf) then verify_links (ca_Cert (cc_ca c)) chain else false
      end
  end.

(** [get]: a chain and where it came from, a miss, or an error. *)
Definition get (c : CertCache) (w : W) (id : bytes) : result (option (list Certificate * source)) * CertCache :=
  match cc_hot c !! id with
  | Some chain => if verify c chain then (Ok (Some (chain, FromHotmap)), c) else (Ok None, c)
  | None =>
      match Get w (certKey id) with
      | SNotExist => (Ok None, c)
      | SFail e => (Error ("cert: cache: read: " ++ e), c)
      | SOk (data, _) =>
          match DecodeTrustStore data (cc_password c) with
          | Error e => (Error ("cert: cache: decode: " ++ e), c)
          | Ok certs =>
              match orderChainLeafFirst certs with
              | Error e => (Error ("cert: cache: " ++ e), c)
              | Ok ordered =>
                  if verify c ordered
                  then (Ok (Some (ordered, FromStorage)), set_hot c (<[id := ordered]> (cc_hot c)))
                  else (Ok None, c)
              end
          end
      end
  end.

(** Entries are named by their position. *)
Definition store_entries (chain : list Certificate) : list (Certificate * bytes) :=
  imap (fun i cert => (cert, Itoa (Z.of_nat i))) chain.

Definition put (r : nat) (c : CertCache) (w : W) (id : bytes) (chain : list Certificate) : result unit * CertCache * W :=
  match EncodeTrustStoreEntries r (store_entries chain) (cc_password c) with
  | Error e => (Error ("cert: cache: encode: " ++ e), c, w)
  | Ok data =>
      match Put w (certKey id) data with
      | (SOk _, w) => (Ok tt, set_hot c (<[id := chain]> (cc_hot c)), w)
      | (SNotExist, w) => (Error "cert: cache: write: storage: key does not exist", c, w)
      | (SFail e, w) => (Error ("cert: cache: write: " ++ e), c, w)
      end
  end.

(** [symlink]: names/{nameID} leads to certs/{id}. *)
Definition symlink (c : CertCache) (linker : W -> bytes -> bytes -> sres unit * W) (w : W) (id name : bytes)
  : result unit * W :=
  match linker w (nameKey (nameID (cc_namespace c) name)) (certKey id) with
  | (SOk _, w) => (Ok tt, w)
  | (SNotExist, w) => (Error "cert: cache: symlink: storage: key does not exist", w)
  | (SFail e, w) => (Error ("cert: cache: symlink: " ++ e), w)
  end.

Fixpoint symlinks (c : CertCache) (linker : W -> bytes -> bytes -> sres unit * W) (w : W) (id : bytes) (names : list bytes)
  : result unit * W :=
  match names with
  | [] => (Ok tt, w)
  | name :: names =>
      match symlink c linker w id name with
      | (Ok _, w) => symlinks c linker w id names
      | (Error e, w) => (Error e, w)
      end
  end.

(** The names a leaf is indexed under: a set, visited in no particular order. *)
Definition index_names (leaf : Certificate) : gset bytes :=
  (if bool_decide (CommonName (Subject leaf) = []) then ∅ else {[CommonName (Subject leaf)]})
  ∪ list_to_set (SANStrings leaf).

Definition ensureLinks (c : CertCache) (w : W) (id : bytes) (leaf : Certificate) : result unit * W :=
  match Linker with
  | None => (Ok tt, w)
  | Some linker => symlinks c linker w id (elements (index_names leaf))
  end.

(** ** The factory *)

Definition toDERCertificate (f : CertFactory) (leaf : Certificate) (rest : list Certificate) (leafKey : PrivateKey)
  : TLSCertificate :=
  {| tc_Certificate := (map Raw (leaf :: rest) ++ ChainDER (f_ca f))%list; tc_PrivateKey := leafKey; tc_Leaf := leaf |}.

Definition toTLSCertificate (f : CertFactory) (leaf : Certificate) (rest : list Certificate) : result TLSCertificate :=
  leafKey ← wrap "cert: factory: re-derive leaf key" (LeafKey (f_keys f) (typeTaggedSANStrings leaf));
  Ok (toDERCertificate f leaf rest leafKey).

(** What follows a mint: the entry, then its index. *)
Definition keep_chain (r : nat) (f : CertFactory) (w : W) (id : bytes) (chain : list Certificate) (leaf : Certificate)
  : result unit * CertFactory * W :=
  match put r (f_cache f) w id chain with
  | (Error e, c, w) => (Error e, set_cache f c, w)
  | (Ok _, c, w) =>
      match ensureLinks c w id leaf with
      | (Error e, w) => (Error e, set_cache f c, w)
      | (Ok _, w) => (Ok tt, set_cache f c, w)
      end
  end.

(** [mint]; an empty chain would be an index out of range, but neither [get] nor
    [CloneChain] returns one. *)
Definition mint (r : nat) (f : CertFactory) (w : W) (id : bytes) (realChain : list Certificate)
  : result TLSCertificate * CertFactory * W :=
  match get (f_cache f) w id with
  | (Error e, c) => (Error e, set_cache f c, w)
  | (Ok (Some (leaf :: rest, _)), c) => (toTLSCertificate f leaf rest, set_cache f c, w)
  | (Ok (Some ([], _)), c) => (Error "panic: index out of range", set_cache f c, w)
  | (Ok None, c) =>
      let f := set_cache f c in
      match CloneChain r (f_ca f) (f_keys f) realChain with
      | Error e => (Error ("cert: factory: mint: " ++ e), f, w)
      | Ok (leaf :: rest, leafKey :: _) =>
          match keep_chain r f w id (leaf :: rest) leaf with
          | (Error e, f, w) => (Error e, f, w)
          | (Ok _, f, w) => (Ok (toDERCertificate f leaf rest leafKey), f, w)
          end
      | Ok _ => (Error "panic: index out of range", f, w)
      end
  end.

(** [For]; concurrent calls for one chain share one [mint]. *)
Definition For (r : nat) (f : CertFactory) (w : W) (realChain : list Certificate)
  : result TLSCertificate * CertFactory * W :=
  if (length realChain =? 0)%nat then (Error "cert: factory: empty real chain", f, w)
  else mint r f w (IDFor (f_cache f) realChain) realChain.

(** ** Certificates of the proxy itself *)

Definition hour : Z := 3600 * second.
Definition selfCertValidity : Z := 10 * 365 * 24 * hour.
Definition fallbackValidity : Z := 24 * hour.

(** A server leaf for the given names. *)
Definition serverTemplate (serial : Z) (cn : bytes) (notBefore notAfter : Z) (dnsNames : list bytes) (ipAddrs : list IP)
  : Template :=
  {| tm_SerialNumber := serial; tm_Subject := common_name cn; tm_NotBefore := notBefore; tm_NotAfter := notAfter;
     tm_Info :=
       {| KeyUsage := Z.lor KeyUsageDigitalSignature KeyUsageKeyEncipherment; ExtKeyUsage := [ExtKeyUsageServerAuth];
          UnknownExtKeyUsage := []; BasicConstraintsValid := false; IsCA := false; MaxPathLen := 0;
          MaxPathLenZero := false;
          Names := {| DNSNames := dnsNames; EmailAddresses := []; IPAddresses := ipAddrs; URIs := [] |};
          SubjectKeyId := []; AuthorityKeyId := [] |};
     tm_ExtraExtensions := [] |}.

(** The SAN set of a list of names: addresses, host names, and nothing else. *)
Fixpoint classify_names (names : list bytes) : list bytes * list IP :=
  match names with
  | [] => ([], [])
  | n :: names =>
      let '(dns, ips) := classify_names names in
      match ParseIP n with
      | Some ip => (dns, ip :: ips)
      | None => if isValidDNSName n then (n :: dns, ips) else (dns, ips)
      end
  end.

Definition selfCertFromChain (f : CertFactory) (leaf : Certificate) : result TLSCertificate :=
  leafKey ← wrap "cert: factory: re-derive self-cert leaf key" (LeafKey (f_keys f) (typeTaggedSANStrings leaf));
  Ok {| tc_Certificate := Raw leaf :: ChainDER (f_ca f); tc_PrivateKey := leafKey; tc_Leaf := leaf |}.

(** The certificate [SelfCert] mints on a miss. *)
Definition self_leaf (r : nat) (f : CertFactory) (now : Z) (cn : bytes) (names : list bytes)
  : result (Certificate * PrivateKey) :=
  let '(dnsNames, ipAddrs) := classify_names names in
  key ← wrap "cert: factory: self-cert key" (LeafKey (f_keys f) (tagSANs dnsNames ipAddrs));
  let notBefore := now - hour in
  let notAfter := Z.min (notBefore + selfCertValidity) (NotAfter (ca_Cert (f_ca f))) in
  der ← wrap "cert: factory: self-cert sign"
    (CreateCertificate r (serverTemplate (selfCertSerial names) cn notBefore notAfter dnsNames ipAddrs)
       (Parent (ca_Cert (f_ca f))) (Public key) (ca_Key (f_ca f)));
  leaf ← wrap "cert: factory: self-cert parse" (ParseCertificate der);
  Ok (leaf, key).

Definition SelfCert (r : nat) (f : CertFactory) (w : W) (now : Z) (names : list bytes)
  : result TLSCertificate * CertFactory * W :=
  match names with
  | [] => (Error "cert: factory: self-cert requires at least one name", f, w)
  | cn :: _ =>
      let id := SelfCertIDFor (f_cache f) names in
      match get (f_cache f) w id with
      | (Error e, c) => (Error e, set_cache f c, w)
      | (Ok (Some (leaf :: _, _)), c) => (selfCertFromChain f leaf, set_cache f c, w)
      | (Ok (Some ([], _)), c) => (Error "panic: index out of range", set_cache f c, w)
      | (Ok None, c) =>
          let f := set_cache f c in
          match self_leaf r f now cn names with
          | Error e => (Error e, f, w)
          | Ok (leaf, key) =>
              match keep_chain r f w id [leaf] leaf with
              | (Error e, f, w) => (Error e, f, w)
              | (Ok _, f, w) =>
                  (Ok {| tc_Certificate := Raw leaf :: ChainDER (f_ca f); tc_PrivateKey := key; tc_Leaf := leaf |}, f, w)
              end
          end
      end
  end.

(** [Fallback]: a leaf for the server name alone, never stored. *)
Definition Fallback_cert (r : nat) (f : CertFactory) (now : Z) (sni : bytes) : result TLSCertificate :=
  let '(dnsNames, ipAddrs) := match ParseIP sni with Some ip => ([], [ip]) | None => ([sni], []) end in
  key ← wrap "cert: factory: fallback key" (LeafKey (f_keys f) (tagSANs dnsNames ipAddrs));
  let notAfter := Z.min (now + fallbackValidity) (NotAfter (ca_Cert (f_ca f))) in
  der ← wrap "cert: factory: fallback sign"
    (CreateCertificate r (serverTemplate (fallbackSerial sni) sni (now - hour) notAfter dnsNames ipAddrs)
       (Parent (ca_Cert (f_ca f))) (Public key) (ca_Key (f_ca f)));
  leaf ← wrap "cert: factory: fallback parse" (ParseCertificate der);
  Ok {| tc_Certificate := Raw leaf :: ChainDER (f_ca f); tc_PrivateKey := key; tc_Leaf := leaf |}.

End Cache.

(** The prefixes of the cache are directories. *)
Lemma leaf_whole : whole_prefix leafPrefix (str "leaf").
Proof. by vm_compute. Qed.

Lemma certs_whole : whole_prefix certsPrefix (str "leaf/certs").
Proof. by vm_compute. Qed.
