(* ===== verification/CertCorrect.v ===== *)
(** * The certificate factory is correct

    Whatever the storage holds, a served certificate comes with its key and a
    chain of valid signatures up to the CA; on a storage only the factory writes,
    it is a clone of the chain the upstream presented, before and after a restart. *)

From S2P Require Import Prelude GoStrings Netip Encoding X509 CertKeys CertChain Storage GoUrl StorageTree CertCache.

Open Scope Z_scope.

(** Every signature checks under the next certificate's key, the last under the
    root's. *)
Fixpoint signed_chain `{Crypto} (root : Certificate) (chain : list Certificate) : Prop :=
  match chain with
  | [] => True
  | c :: rest =>
      checkSignature (CertPublicKey (match rest with p :: _ => p | [] => root end)) (RawTBS c) (Signature c) = true
      /\ signed_chain root rest
  end.

Section Served.
Context `{DG : Digests} `{CR : Crypto} `{CS : !CryptoSpec} `{XS : X509} {XP : X509Spec} `{UV : UuidV5}.
Context `{TR : TrustStores} {W : Type} `{TS : TreeStorage W}.

(** The factory and its cache have one CA and one cluster key. *)
Definition factory_ok (f : CertFactory) : Prop :=
  ca_ok (f_ca f) /\ exists hot, f_cache f = set_hot (NewCertCache (f_keys f) (f_ca f)) hot.

(** [f'] is [f] with another map of hot entries. *)
Definition same_factory (f f' : CertFactory) : Prop := exists hot, f' = set_cache f (set_hot (f_cache f) hot).

Lemma same_factory_ok f f' : same_factory f f' -> factory_ok f -> factory_ok f'.
Proof. intros (hot & ->) (Hca & hot' & E). split; [done|]. exists hot. cbn. by rewrite E. Qed.

Lemma same_factory_refl f : same_factory f f.
Proof. exists (cc_hot (f_cache f)). by destruct f as [? [] ?]. Qed.

Lemma same_factory_cache f : same_factory f (set_cache f (f_cache f)).
Proof. exists (cc_hot (f_cache f)). by destruct f as [? [] ?]. Qed.

Lemma same_factory_trans f f1 f2 : same_factory f f1 -> same_factory f1 f2 -> same_factory f f2.
Proof. intros (h & ->) (h' & ->). by exists h'. Qed.

(** What [get] found, before it was verified. *)
Definition found (c : CertCache) (w : W) (id : bytes) (chain : list Certificate) : Prop :=
  cc_hot c !! id = Some chain
  \/ cc_hot c !! id = None /\ exists data v certs,
       Get w (certKey id) = SOk (data, v) /\ DecodeTrustStore data (cc_password c) = Ok certs
       /\ orderChainLeafFirst certs = Ok chain.

Lemma get_spec c w id res c' :
  get c w id = (res, c') ->
  (exists hot, c' = set_hot c hot /\ (hot = cc_hot c \/ exists chain, found c w id chain /\ hot = <[id := chain]> (cc_hot c)))
  /\ forall chain src, res = Ok (Some (chain, src)) -> verify c chain = true /\ found c w id chain.
Proof.
  assert (c = set_hot c (cc_hot c)) as Hc by (by destruct c).
  unfold get. destruct (cc_hot c !! id) as [chain|] eqn:Eh.
  { destruct (verify c chain) eqn:Ev; intros [= <- <-]; (split; [by exists (cc_hot c); auto|]); intros ch src [= <- <-].
    split; [done|]. by left. }
  destruct (Get w (certKey id)) as [[data v]| |e] eqn:Eg;
    try (intros [= <- <-]; split; [by exists (cc_hot c); auto|done]).
  destruct (DecodeTrustStore data (cc_password c)) as [certs|e] eqn:Ed;
    try (intros [= <- <-]; split; [by exists (cc_hot c); auto|done]).
  destruct (orderChainLeafFirst certs) as [o|e] eqn:Eo;
    try (intros [= <- <-]; split; [by exists (cc_hot c); auto|done]).
  assert (found c w id o) as Hf by (right; split; [done|]; eauto 10).
  destruct (verify c o) eqn:Ev; intros [= <- <-].
  - split; [eexists; split; [done|]; right; eauto|]. intros ch src [= <- <-]. done.
  - split; [by exists (cc_hot c); auto|done].
Qed.

Lemma verify_spec c chain :
  verify c chain = true ->
  exists leaf rest key, chain = leaf :: rest /\ LeafKey (cc_keys c) (typeTaggedSANStrings leaf) = Ok key
    /\ CertPublicKey leaf = Public key /\ verify_links (ca_Cert (cc_ca c)) chain = true.
Proof.
  unfold verify. destruct chain as [|leaf rest]; [done|].
  destruct (LeafKey _ _) as [key|] eqn:Ek; [|done]. case_bool_decide as Hp; [|done]. intros Hv.
  exists leaf, rest, key. done.
Qed.

Lemma verify_links_signed root chain : verify_links root chain = true -> signed_chain root chain.
Proof.
  induction chain as [|c rest IH]; [done|]. cbn. destruct (CheckSignatureFrom c _) eqn:E; [|done].
  intros H. split; [|by apply IH]. by apply CheckSignatureFrom_spec in E.
Qed.

Lemma clones_signed ca ck isLeaf reals synth :
  clones ca ck isLeaf reals synth -> signed_chain (ca_Cert ca) (map fst synth).
Proof.
  revert isLeaf synth. induction reals as [|real reals IH]; intros isLeaf [|[c k] above]; try done.
  intros [Hc Hcl]. cbn. split; [|by eapply IH]. pose proof (co_signed _ _ _ _ _ _ _ Hc) as Hs.
  by destruct above as [|[c' k'] above].
Qed.

(** The cache after [put] and [ensureLinks]. *)
Lemma keep_chain_same r f w id chain leaf res f' w' :
  keep_chain r f w id chain leaf = (res, f', w') -> same_factory f f'.
Proof.
  unfold keep_chain, put. destruct (EncodeTrustStoreEntries _ _ _) as [data|e]; [|intros [= _ <- _]; apply same_factory_cache].
  destruct (Put w (certKey id) data) as [[[]| |e] w1]; try (intros [= _ <- _]; apply same_factory_cache).
  destruct (ensureLinks _ _ _ _) as [[[]|e] w2]; intros [= _ <- _]; by eexists.
Qed.

(** A served certificate: its own key, signatures that check up to the CA, and the
    CA's chain behind it. *)
Definition served_ok (ca : CA) (tc : TLSCertificate) : Prop :=
  exists chain, tc_Certificate tc = (map Raw chain ++ ChainDER ca)%list /\ head chain = Some (tc_Leaf tc)
    /\ CertPublicKey (tc_Leaf tc) = Public (tc_PrivateKey tc) /\ signed_chain (ca_Cert ca) chain.

Lemma hit_served f c leaf rest :
  (exists hot, c = set_hot (NewCertCache (f_keys f) (f_ca f)) hot) -> verify c (leaf :: rest) = true ->
  exists key, toTLSCertificate f leaf rest = Ok (toDERCertificate f leaf rest key)
    /\ LeafKey (f_keys f) (typeTaggedSANStrings leaf) = Ok key /\ served_ok (f_ca f) (toDERCertificate f leaf rest key).
Proof.
  intros (hot & ->) (leaf' & rest' & key & [= <- <-] & Hk & Hp & Hl)%verify_spec. cbn in Hk, Hl.
  exists key. unfold toTLSCertificate. rewrite Hk. split_and!; [done|done|]. exists (leaf :: rest). split_and!; try done.
  by apply verify_links_signed.
Qed.

Lemma clones_served f reals leaf rest key keys synth :
  leaf :: rest = map fst synth -> key :: keys = map snd synth ->
  clones (f_ca f) (f_keys f) true (effectiveChain (f_ca f) reals) synth ->
  served_ok (f_ca f) (toDERCertificate f leaf rest key).
Proof.
  intros E1 E2 Hcl. exists (leaf :: rest). split_and!; try done.
  - destruct synth as [|[c k] synth]; [done|]. injection E1 as -> _. injection E2 as -> _. cbn.
    destruct (effectiveChain _ _); [done|]. destruct Hcl as [Hc _]. apply Hc.
  - rewrite E1. by eapply clones_signed.
Qed.

Lemma set_cache_same f c w id res c' :
  f_cache f = c -> get c w id = (res, c') -> same_factory f (set_cache f c').
Proof. intros <- [(hot & -> & _) _]%get_spec. by exists hot. Qed.

(** How a certificate was come by: a verified hit, or a mint that was kept. *)
Definition from_hit (f : CertFactory) (w : W) (id : bytes) (tc : TLSCertificate) (f' : CertFactory) (w' : W) : Prop :=
  exists leaf rest c key, get (f_cache f) w id = (Ok (Some (leaf :: rest, c)), f_cache f') /\ f' = set_cache f (f_cache f')
    /\ w' = w /\ verify (f_cache f) (leaf :: rest) = true /\ found (f_cache f) w id (leaf :: rest)
    /\ LeafKey (f_keys f) (typeTaggedSANStrings leaf) = Ok key /\ tc = toDERCertificate f leaf rest key.

Definition from_mint (r : nat) (f : CertFactory) (w : W) (id : bytes) (reals : list Certificate) (tc : TLSCertificate)
    (f' : CertFactory) (w' : W) : Prop :=
  exists c leaf key synth, get (f_cache f) w id = (Ok None, c)
    /\ clones (f_ca f) (f_keys f) true (effectiveChain (f_ca f) reals) ((leaf, key) :: synth)
    /\ keep_chain r (set_cache f c) w id (leaf :: map fst synth) leaf = (Ok tt, f', w')
    /\ tc = toDERCertificate f leaf (map fst synth) key.

Lemma mint_cases r f w id reals tc f' w' :
  factory_ok f -> Forall parsed reals -> mint r f w id reals = (Ok tc, f', w') ->
  same_factory f f' /\ (from_hit f w id tc f' w' \/ from_mint r f w id reals tc f' w').
Proof.
  intros Hf Hp H. unfold mint in H. destruct (get (f_cache f) w id) as [res c] eqn:Eg.
  pose proof (set_cache_same _ _ _ _ _ _ eq_refl Eg) as Hsame. destruct (get_spec _ _ _ _ _ Eg) as [_ Hhit].
  destruct res as [[[[|leaf rest] src]|]|e]; try done.
  - destruct (Hhit _ _ eq_refl) as [Hv Hfd]. destruct (hit_served f _ leaf rest (proj2 Hf) Hv) as (key & Ht & Hk & _).
    rewrite Ht in H. injection H as <- <- <-. split; [done|]. left. by exists leaf, rest, src, key.
  - destruct (CloneChain r _ _ reals) as [[certs keys]|e] eqn:Ec; [|done].
    destruct (CloneChain_spec _ _ _ _ _ _ (proj1 Hf) Hp Ec) as (synth & -> & -> & Hne & Hcl).
    destruct synth as [|[leaf key] synth]; [done|]. cbn [map fst snd] in H.
    destruct (keep_chain r _ w id _ leaf) as [[[[]|e] f2] w2] eqn:Ek; [|done]. injection H as <- <- <-.
    pose proof (same_factory_trans _ _ _ Hsame (keep_chain_same _ _ _ _ _ _ _ _ _ Ek)) as Hsame2.
    split; [done|]. right. exists c, leaf, key, synth. split_and!; try done. by destruct Hsame2 as (hot & ->).
Qed.

(** C14: whatever storage and memory hold, forged entries included, a certificate
    [For] returns comes with the private key of its leaf and with signatures that
    check, link by link, up to the current CA. *)
Theorem served_certificate_valid r f w reals tc f' w' :
  factory_ok f -> Forall parsed reals -> For r f w reals = (Ok tc, f', w') ->
  served_ok (f_ca f) tc /\ factory_ok f' /\ f_ca f' = f_ca f.
Proof.
  intros Hf Hp H. unfold For in H. destruct (length reals =? 0)%nat; [done|].
  apply mint_cases in H as [Hsame H]; [|done..].
  split_and!; [|by eapply same_factory_ok|by destruct Hsame as (hot & ->)].
  destruct H as [(leaf & rest & src & key & _ & _ & _ & Hv & _ & Hk & ->)|(c & leaf & key & synth & _ & Hcl & _ & ->)].
  - destruct (hit_served f _ leaf rest (proj2 Hf) Hv) as (key' & _ & Hk' & Hs). rewrite Hk in Hk'. by injection Hk' as <-.
  - by eapply (clones_served f reals leaf _ key _ ((leaf, key) :: synth)).
Qed.

(** ** A storage only factories write *)

Context `{US : !UuidV5Spec} `{RS : !TrustStoresSpec} {TP : TreeSpec W}.

(** The chains and the names of listeners that certificates are ever asked for. *)
Context (asked : list Certificate -> Prop) (selves : list bytes -> Prop).

(** A chain that was cloned for [id]. *)
Definition clone_entry (ca : CA) (ck id : bytes) (chain : list Certificate) : Prop :=
  exists reals synth, asked reals /\ Forall parsed reals /\ certID (sanNamespace ck) reals = id /\ chain = map fst synth
    /\ synth <> [] /\ clones ca ck true (effectiveChain ca reals) synth.

(** A certificate that was minted for the listener's names. *)
Definition self_entry (ca : CA) (ck id : bytes) (chain : list Certificate) : Prop :=
  exists r now cn names leaf key, selves names /\ head names = Some cn
    /\ idFromFingerprint (sanNamespace ck) (selfCertIdentityHash names) = id /\ chain = [leaf]
    /\ self_leaf r (NewCertFactory ca (NewCertCache ck ca) ck) now cn names = Ok (leaf, key).

Definition entry_ok (ca : CA) (ck id : bytes) (chain : list Certificate) : Prop :=
  clone_entry ca ck id chain \/ self_entry ca ck id chain.

(** The stored data of [id] decodes to [chain], in some order. *)
Definition stored_as (ck : bytes) (w : W) (id : bytes) (chain : list Certificate) : Prop :=
  exists data v certs, Get w (certKey id) = SOk (data, v) /\ DecodeTrustStore data ck = Ok certs /\ certs ≡ₚ chain.

Definition is_uuid (id : bytes) : Prop := uuid_chars 0 id = true.

(** Every entry, in memory and in storage, was made for its key. *)
Definition cache_inv (f : CertFactory) (w : W) : Prop :=
  let ca := f_ca f in let ck := f_keys f in
  (forall id chain, cc_hot (f_cache f) !! id = Some chain -> entry_ok ca ck id chain)
  /\ (forall id, is_uuid id -> plain w (certKey id))
  /\ (forall id, is_uuid id -> Get w (certKey id) = SNotExist \/ (exists e, Get w (certKey id) = SFail e)
        \/ exists chain, stored_as ck w id chain /\ entry_ok ca ck id chain).

Lemma certKey_inj id id' : is_uuid id -> is_uuid id' -> certKey id = certKey id' -> id = id'.
Proof. apply shardedKey_inj. Qed.

Lemma nameKey_certKey id id' : nameKey id <> certKey id'.
Proof. unfold nameKey, certKey, shardedKey. discriminate. Qed.

Lemma entry_linked ca ck id chain : entry_ok ca ck id chain -> linked chain.
Proof.
  intros [(reals & synth & _ & _ & _ & -> & _ & Hcl)|(r & now & cn & names & leaf & key & _ & _ & _ & -> & _)]; [|done].
  by eapply clones_linked.
Qed.

Lemma found_entry f w id chain :
  factory_ok f -> cache_inv f w -> is_uuid id -> found (f_cache f) w id chain -> entry_ok (f_ca f) (f_keys f) id chain.
Proof.
  intros (_ & hot & Ec) (Hh & _ & Hs) Hu [Hot|(_ & data & v & certs & Hg & Hd & Ho)]; [by apply Hh|].
  rewrite Ec in Hd. cbn in Hd. destruct (Hs id Hu) as [E|[(e & E)|(ch & (data' & v' & certs' & Hg' & Hd' & Hp) & He)]];
    [congruence|congruence|]. rewrite Hg in Hg'. injection Hg' as <- <-. rewrite Hd in Hd'. injection Hd' as <-.
  by rewrite (order_unique _ _ _ Ho Hp (entry_linked _ _ _ _ He)).
Qed.

(** A world in which the entries are as before. *)
Definition same_entries (w w' : W) : Prop :=
  forall id, is_uuid id -> plain w (certKey id) -> Get w' (certKey id) = Get w (certKey id) /\ plain w' (certKey id).

Lemma symlinks_entries c linker names w id res w' :
  Linker = Some linker -> symlinks c linker w id names = (res, w') -> same_entries w w'.
Proof.
  intros Hl. revert w. induction names as [|n names IH]; intros w H; cbn in H; [by injection H as _ <-; intros ?|].
  unfold symlink in H. destruct (linker w _ _) as [s w1] eqn:El.
  assert (same_entries w w1) as H1.
  { intros id' _ Hp. eapply tree_link; [done|exact El|done|]. intros E. by eapply nameKey_certKey. }
  destruct s as [u| |e]; [|injection H as _ <-; done..]. apply IH in H. intros id' Hu Hp.
  destruct (H1 id' Hu Hp) as [E1 P1]. destruct (H id' Hu P1) as [E2 P2]. split; congruence.
Qed.

Lemma ensureLinks_entries c w id leaf res w' : ensureLinks c w id leaf = (res, w') -> same_entries w w'.
Proof.
  unfold ensureLinks. destruct Linker as [linker|] eqn:El; [by apply symlinks_entries|]. by intros [= _ <-] ?.
Qed.

Lemma store_entries_fst chain : map fst (store_entries chain) = chain.
Proof.
  apply list_eq. intros i. unfold store_entries. change (map fst) with (fmap (M:=list) (fst (A:=Certificate) (B:=bytes))).
  rewrite list_lookup_fmap, list_lookup_imap. by destruct (chain !! i).
Qed.

(** What is kept is parsed. *)
Lemma clones_parsed ca ck isLeaf reals synth : clones ca ck isLeaf reals synth -> Forall parsed (map fst synth).
Proof.
  revert isLeaf synth. induction reals as [|real reals IH]; intros isLeaf [|[c k] above]; try done.
  intros [Hc Hcl]. constructor; [apply Hc|by eapply IH].
Qed.

Lemma entry_parsed ca ck id chain : entry_ok ca ck id chain -> Forall parsed chain.
Proof.
  intros [(reals & synth & _ & _ & _ & -> & _ & Hcl)|(r & now & cn & names & leaf & key & _ & _ & _ & -> & Hl)].
  - by eapply clones_parsed.
  - constructor; [|constructor]. unfold self_leaf in Hl. destruct (classify_names names). inv_ok. cbv zeta in Hl. inv_ok. subst.
    match goal with H : ParseCertificate _ = Ok leaf |- _ => unfold parsed; by rewrite (parse_raw _ _ H) end.
Qed.

(** Keeping a chain made for its key keeps the invariant, and stores it. *)
Lemma keep_chain_inv r f w id chain leaf res f' w' :
  factory_ok f -> cache_inv f w -> is_uuid id -> entry_ok (f_ca f) (f_keys f) id chain ->
  keep_chain r f w id chain leaf = (res, f', w') ->
  cache_inv f' w'
  /\ (res = Ok tt -> cc_hot (f_cache f') !! id = Some chain /\ stored_as (f_keys f) w' id chain).
Proof.
  intros (_ & hot & Ec) (Hh & Hpl & Hs) Hu He H. unfold keep_chain, put in H.
  rewrite Ec in H. cbn [set_hot cc_password NewCertCache cc_hot] in H.
  assert (forall w1, (forall i, is_uuid i -> plain w1 (certKey i)) ->
    (forall i, is_uuid i -> Get w1 (certKey i) = Get w (certKey i) \/ i = id /\ stored_as (f_keys f) w1 id chain) ->
    forall i, is_uuid i -> Get w1 (certKey i) = SNotExist \/ (exists e, Get w1 (certKey i) = SFail e)
        \/ exists ch, stored_as (f_keys f) w1 i ch /\ entry_ok (f_ca f) (f_keys f) i ch) as Hkeep.
  { intros w1 Hp1 Hg i Hi. destruct (Hg i Hi) as [E|[-> Hst]]; [|by eauto]. unfold stored_as. rewrite E. by apply Hs. }
  destruct (EncodeTrustStoreEntries r (store_entries chain) (f_keys f)) as [data|e] eqn:Ee.
  2: { injection H as <- <- <-. split; [|done]. split_and!; [by rewrite Ec in Hh|done|]. by apply Hkeep; auto. }
  destruct (decode_store _ _ _ _ ltac:(rewrite store_entries_fst; by eapply entry_parsed) Ee) as (certs & Hd & Hp).
  rewrite store_entries_fst in Hp.
  assert (forall w1 v, Get w1 (certKey id) = SOk (data, v) -> stored_as (f_keys f) w1 id chain) as Hst by (intros w1 v Hg; by exists data, v, certs).
  destruct (Put w (certKey id) data) as [s w1] eqn:Ep.
  assert (forall i, is_uuid i -> plain w1 (certKey i)) as Hp1 by (intros i Hi; eapply tree_put_plain; eauto).
  assert (forall i, is_uuid i -> Get w1 (certKey i) = Get w (certKey i) \/ i = id /\ stored_as (f_keys f) w1 id chain) as Hg1.
  { intros i Hi. destruct (decide (i = id)) as [->|Hne].
    - destruct (tree_put_failed _ _ _ _ _ Ep (Hpl id Hu)) as [->|[E|(v & E)]]; [|by left|right; eauto].
      destruct (tree_get_put _ _ _ _ Ep) as (v & E). right. eauto.
    - left. eapply tree_get_put_ne; [exact Ep|by apply Hpl|]. intros E. by apply certKey_inj in E. }
  destruct s as [[]| |e].
  2,3: injection H as <- <- <-; split; [|done]; split_and!; [by rewrite Ec in Hh|done|]; by apply Hkeep.
  destruct (ensureLinks _ w1 id leaf) as [res' w2] eqn:El. pose proof (ensureLinks_entries _ _ _ _ _ _ El) as Hse.
  assert (f' = set_cache f (set_hot (set_hot (NewCertCache (f_keys f) (f_ca f)) hot) (<[id := chain]> hot)) /\ w' = w2) as [-> ->]
    by (destruct res'; by injection H as _ <- <-).
  assert (stored_as (f_keys f) w2 id chain) as Hst2.
  { destruct (tree_get_put _ _ _ _ Ep) as (v & E). destruct (Hse id Hu (Hp1 id Hu)) as [E2 _]. rewrite E in E2. eauto. }
  split; [split_and!|].
  - intros i ch. cbn. intros [[<- <-]|[_ Hi]]%lookup_insert_Some; [done|]. apply Hh. by rewrite Ec.
  - intros i Hi. by apply (Hse i Hi), Hp1.
  - cbn. apply Hkeep; [intros i Hi; by apply (Hse i Hi), Hp1|]. intros i Hi.
    destruct (Hse i Hi (Hp1 i Hi)) as [-> _]. destruct (Hg1 i Hi) as [|[-> _]]; auto.
  - intros _. cbn. split; [apply lookup_insert_eq|done].
Qed.

Lemma set_cache_inv f w id res c :
  factory_ok f -> cache_inv f w -> is_uuid id -> get (f_cache f) w id = (res, c) -> cache_inv (set_cache f c) w.
Proof.
  intros Hf Hinv Hu [(hot & -> & [->|(chain & Hfd & ->)]) _]%get_spec; [by destruct f as [? [] ?]|].
  pose proof (found_entry _ _ _ _ Hf Hinv Hu Hfd) as He. destruct Hinv as (Hh & Hpl & Hs). split_and!; try done. cbn.
  intros i ch [[<- <-]|[_ Hi]]%lookup_insert_Some; [done|by apply Hh].
Qed.

(** Among what is asked for, the identifier of [reals] stands for [reals] alone. *)
Definition id_unique (ck : bytes) (reals : list Certificate) : Prop :=
  (forall reals', asked reals' -> certID (sanNamespace ck) reals' = certID (sanNamespace ck) reals ->
     chain_bytes reals' = chain_bytes reals)
  /\ forall names, selves names ->
     idFromFingerprint (sanNamespace ck) (selfCertIdentityHash names) <> certID (sanNamespace ck) reals.

(** The entry of a chain is a clone of that chain. *)
Lemma entry_clone ca ck reals chain :
  id_unique ck reals -> Forall parsed reals -> entry_ok ca ck (certID (sanNamespace ck) reals) chain ->
  exists synth, chain = map fst synth /\ synth <> [] /\ clones ca ck true (effectiveChain ca reals) synth.
Proof.
  intros [Hc Hs] Hp [(reals' & synth & Ha & Hp' & Hid & -> & Hne & Hcl)|(r & now & cn & names & leaf & key & Hn & _ & Hid & _)].
  - apply Hc in Hid; [|done]. apply (chain_bytes_inj _ _ Hp' Hp) in Hid as ->. by exists synth.
  - by apply Hs in Hid.
Qed.

Lemma IDFor_certID f reals : factory_ok f -> IDFor (f_cache f) reals = certID (sanNamespace (f_keys f)) reals.
Proof. intros (_ & hot & Ec). by rewrite Ec. Qed.

(** The names of a clone's leaf are the original's, hence its key. *)
Lemma clones_leaf_key ca ck reals leaf key synth :
  clones ca ck true reals ((leaf, key) :: synth) -> LeafKey ck (typeTaggedSANStrings leaf) = Ok key.
Proof.
  destruct reals as [|real reals]; [done|]. intros [Hc _]. rewrite <- (co_key _ _ _ _ _ _ _ Hc).
  unfold typeTaggedSANStrings. by rewrite (co_names _ _ _ _ _ _ _ Hc).
Qed.

(** The certificate served for a chain of clones. *)
Definition served_clone (f : CertFactory) (synth : list (Certificate * PrivateKey)) (tc : TLSCertificate) : Prop :=
  exists leaf key rest, synth = (leaf, key) :: rest /\ tc = toDERCertificate f leaf (map fst rest) key.

(** On a storage that only factories write, [For] returns a clone of the very
    chain it was asked for, minted now or taken from a cache, with the leaf's key,
    and keeps every cache entry a clone of the chain it is filed under. *)
Theorem for_returns_clone r f w reals tc f' w' :
  factory_ok f -> cache_inv f w -> asked reals -> Forall parsed reals -> id_unique (f_keys f) reals ->
  For r f w reals = (Ok tc, f', w') ->
  (exists synth, clones (f_ca f) (f_keys f) true (effectiveChain (f_ca f) reals) synth /\ served_clone f synth tc)
  /\ factory_ok f' /\ cache_inv f' w'.
Proof.
  intros Hf Hinv Ha Hp Hid H. unfold For in H. destruct (length reals =? 0)%nat; [done|].
  rewrite (IDFor_certID f reals Hf) in H. set (id := certID _ _) in *. assert (is_uuid id) as Hu by apply uuid_text.
  apply mint_cases in H as [Hsame H]; [|done..]. pose proof (same_factory_ok _ _ Hsame Hf) as Hf'.
  destruct H as [(leaf & rest & src & key & Eg & Ef & -> & Hv & Hfd & Hk & ->)|(c & leaf & key & synth & Eg & Hcl & Ek & ->)].
  - pose proof (set_cache_inv _ _ _ _ _ Hf Hinv Hu Eg) as Hinv1. rewrite <- Ef in Hinv1. split; [|done].
    destruct (entry_clone _ _ _ _ Hid Hp (found_entry _ _ _ _ Hf Hinv Hu Hfd)) as (synth & E & _ & Hcl).
    exists synth. split; [done|]. destruct synth as [|[l k] synth]; [done|]. injection E as -> ->.
    exists l, key, synth. split; [|done]. rewrite (clones_leaf_key _ _ _ _ _ _ Hcl) in Hk. by injection Hk as ->.
  - pose proof (set_cache_inv _ _ _ _ _ Hf Hinv Hu Eg) as Hinv1.
    pose proof (same_factory_ok _ _ (set_cache_same _ _ _ _ _ _ eq_refl Eg) Hf) as Hf1.
    assert (entry_ok (f_ca f) (f_keys f) id (leaf :: map fst synth)) as He.
    { left. exists reals, ((leaf, key) :: synth). by split_and!. }
    destruct (keep_chain_inv _ _ _ _ _ _ _ _ _ Hf1 Hinv1 Hu He Ek) as [Hinv2 _].
    split_and!; try done. exists ((leaf, key) :: synth). split; [done|]. by exists leaf, key, synth.
Qed.

(** ** After a restart *)

(** The factory of a process that was just started. *)
Definition restarted (f : CertFactory) : CertFactory :=
  NewCertFactory (f_ca f) (NewCertCache (f_keys f) (f_ca f)) (f_keys f).

Lemma verify_clones ca ck reals synth hot :
  ca_ok ca -> ca_signs ca -> Forall parsed reals -> Forall (fun c => IsCA (Info c) = true) (tail reals) ->
  synth <> [] -> clones ca ck true reals synth -> verify (set_hot (NewCertCache ck ca) hot) (map fst synth) = true.
Proof.
  intros Hca Hs Hp Hi Hne Hcl. destruct synth as [|[leaf key] synth]; [done|]. pose proof (clones_leaf_key _ _ _ _ _ _ Hcl) as Hk.
  pose proof (clones_verify _ _ _ _ _ Hca Hs Hp Hi Hcl) as Hv.
  cbn [map fst] in Hv |- *. unfold verify. cbn [cc_keys cc_ca set_hot NewCertCache]. rewrite Hk.
  rewrite bool_decide_true; [exact Hv|]. destruct reals; [done|]. destruct Hcl as [Hc _]. symmetry. apply Hc.
Qed.

(** Reading a stored chain with nothing in memory. *)
Lemma get_stored ca ck w id chain :
  stored_as ck w id chain -> linked chain -> verify (NewCertCache ck ca) chain = true ->
  (reloadable chain ->
     get (NewCertCache ck ca) w id = (Ok (Some (chain, FromStorage)), set_hot (NewCertCache ck ca) (<[id := chain]> ∅)))
  /\ (~ reloadable chain -> exists e, get (NewCertCache ck ca) w id = (Error e, NewCertCache ck ca)).
Proof.
  intros (data & v & certs & Hg & Hd & Hp) Hl Hv. destruct (order_reload _ _ Hp Hl) as [H1 H2]. unfold get.
  cbn [cc_hot NewCertCache cc_password]. rewrite lookup_empty, Hg, Hd. split; intros Hr.
  - rewrite (H1 Hr), Hv. done.
  - destruct (H2 Hr) as (e & ->). eauto.
Qed.

Lemma toTLS_leaf f f' leaf rest key :
  f_keys f' = f_keys f -> f_ca f' = f_ca f -> LeafKey (f_keys f) (typeTaggedSANStrings leaf) = Ok key ->
  toTLSCertificate f' leaf rest = Ok (toDERCertificate f leaf rest key).
Proof. intros E1 E2 Hk. unfold toTLSCertificate, toDERCertificate. by rewrite E1, E2, Hk. Qed.

(** C27: a chain that was minted is served again, byte for byte and with the same
    key, without minting: from memory while the process lives, and from storage
    after a restart if its subjects differ and its leaf names no issuer.  If they do
    not, every request for it fails after a restart, and none replaces the entry. *)
Theorem minted_chain_reload r f w c reals tc f' w' :
  factory_ok f -> cache_inv f w -> asked reals -> Forall parsed reals -> ca_signs (f_ca f) ->
  Forall (fun real => IsCA (Info real) = true) (tail (effectiveChain (f_ca f) reals)) ->
  get (f_cache f) w (IDFor (f_cache f) reals) = (Ok None, c) -> For r f w reals = (Ok tc, f', w') ->
  exists synth, served_clone f synth tc /\ clones (f_ca f) (f_keys f) true (effectiveChain (f_ca f) reals) synth /\ forall r',
    For r' f' w' reals = (Ok tc, f', w')
    /\ (reloadable (map fst synth) -> exists f'', For r' (restarted f) w' reals = (Ok tc, f'', w'))
    /\ (~ reloadable (map fst synth) -> exists e, For r' (restarted f) w' reals = (Error e, restarted f, w')).
Proof.
  intros Hf Hinv Ha Hp Hs Hi Hmiss H. unfold For in *. destruct (length reals =? 0)%nat; [done|].
  assert (is_uuid (certID (sanNamespace (f_keys f)) reals)) as Hu by apply uuid_text.
  rewrite (IDFor_certID f reals Hf) in H, Hmiss. remember (certID (sanNamespace (f_keys f)) reals) as id eqn:Eid.
  apply mint_cases in H as [Hsame [Hhit|Hm]]; [by destruct Hhit as (? & ? & ? & ? & E & _); rewrite Hmiss in E| |done..].
  destruct Hm as (c' & leaf & key & synth & Eg & Hcl & Ek & ->). rewrite Hmiss in Eg. injection Eg as <-.
  pose proof (same_factory_ok _ _ (set_cache_same _ _ _ _ _ _ eq_refl Hmiss) Hf) as Hf1.
  assert (entry_ok (f_ca f) (f_keys f) id (leaf :: map fst synth)) as He.
  { left. exists reals, ((leaf, key) :: synth). by split_and!. }
  destruct (keep_chain_inv _ _ _ _ _ _ _ _ _ Hf1 (set_cache_inv _ _ _ _ _ Hf Hinv Hu Hmiss) Hu He Ek) as [_ Hkept].
  destruct (Hkept eq_refl) as [Hhot Hst]. cbn [f_keys set_cache] in Hst. exists ((leaf, key) :: synth). split; [by exists leaf, key, synth|]. split; [done|].
  assert (Forall parsed (effectiveChain (f_ca f) reals)) as Hp' by (by apply effectiveChain_parsed).
  assert (forall hot, verify (set_hot (NewCertCache (f_keys f) (f_ca f)) hot) (leaf :: map fst synth) = true) as Hv.
  { intros hot. by apply (verify_clones _ _ _ ((leaf, key) :: synth) hot (proj1 Hf) Hs Hp' Hi). }
  pose proof (clones_leaf_key _ _ _ _ _ _ Hcl) as Hk.
  destruct (get_stored (f_ca f) _ _ _ _ Hst (entry_linked _ _ _ _ He) (Hv ∅)) as [Hg1 Hg2].
  intros r'. split_and!.
  - rewrite (IDFor_certID f' reals (same_factory_ok _ _ Hsame Hf)). destruct Hsame as (hot & ->), Hf as (_ & hot' & Ec).
    cbn [f_keys set_cache]. rewrite <- Eid. cbn [f_cache set_cache cc_hot set_hot] in Hhot.
    unfold mint, get. cbn [f_cache set_cache cc_hot set_hot]. rewrite Hhot, Ec. rewrite (Hv hot : verify (set_hot (set_hot _ hot') hot) _ = true).
    erewrite (toTLS_leaf f); [done|done|done|exact Hk].
  - intros Hr. unfold mint. change (IDFor _ reals) with (certID (sanNamespace (f_keys f)) reals). rewrite <- Eid.
    change (f_cache (restarted f)) with (NewCertCache (f_keys f) (f_ca f)). rewrite (Hg1 Hr).
    erewrite (toTLS_leaf f); [by eexists|done|done|exact Hk].
  - intros Hr. unfold mint. change (IDFor _ reals) with (certID (sanNamespace (f_keys f)) reals). rewrite <- Eid.
    change (f_cache (restarted f)) with (NewCertCache (f_keys f) (f_ca f)). destruct (Hg2 Hr) as (e & ->). by exists e.
Qed.

End Served.
