(* ===== verification/CertSelf.v ===== *)
(** * The proxy's own certificates, the cache's size and its flushing (internal/cert/selfcert.go, fallback.go, cache.go)

    The listener's certificate carries exactly the names that are addresses or host
    names and is served again after a restart, unless its subject is the CA's; a
    fallback certificate is good for the one server name; [Count] counts what was
    kept and [Flush] forgets it. *)

From S2P Require Import Prelude GoStrings Netip Encoding X509 CertKeys CertChain Storage GoUrl StorageTree CertCache CertCorrect.

Open Scope Z_scope.

Section Self.
Context `{DG : Digests} `{CR : Crypto} `{CS : !CryptoSpec} `{XS : X509} {XP : X509Spec} `{UV : UuidV5}.
Context `{TR : TrustStores} {W : Type} `{TS : TreeStorage W}.

Lemma serverTemplate_ok serial cn nb na dns ips :
  template_ok known_usage (serverTemplate serial cn nb na dns ips).
Proof. split_and!; [done|done|constructor|]. eexists. by left. Qed.

Lemma serverTemplate_names serial cn nb na dns ips s :
  template_names (serverTemplate serial cn nb na dns ips) s ->
  s = shortened {| DNSNames := dns; EmailAddresses := []; IPAddresses := ips; URIs := [] |}.
Proof. intros [[_ ->]|(e & He & _)]; done. Qed.

Lemma IP_String_short ip : IP_String (default ip (To4 ip)) = IP_String ip.
Proof.
  destruct (To4 ip) as [p|] eqn:E; [|done]. change (default ip (Some p)) with p.
  unfold IP_String. by rewrite E, (To4_short p) by (by eapply To4_length).
Qed.

(** A leaf the CA signed for the given names. *)
Definition server_leaf (ca : CA) (cn : bytes) (dns : list bytes) (ips : list IP) (leaf : Certificate) (key : PrivateKey) : Prop :=
  parsed leaf /\ CertPublicKey leaf = Public key /\ CommonName (Subject leaf) = cn
  /\ Names (Info leaf) = shortened {| DNSNames := dns; EmailAddresses := []; IPAddresses := ips; URIs := [] |}
  /\ RawIssuer leaf = RawSubject (ca_Cert ca) /\ IsCA (Info leaf) = false
  /\ NotAfter leaf <= NotAfter (ca_Cert ca)
  /\ checkSignature (CertPublicKey (ca_Cert ca)) (RawTBS leaf) (Signature leaf) = true.

Lemma server_leaf_tagged ca cn dns ips leaf key :
  server_leaf ca cn dns ips leaf key -> typeTaggedSANStrings leaf = tagSANs dns ips.
Proof.
  intros (_ & _ & _ & Hn & _). unfold typeTaggedSANStrings, tagSANs. rewrite Hn. cbn. rewrite app_nil_r. f_equal.
  rewrite map_map. apply map_ext. intros ip. by rewrite IP_String_short.
Qed.

Lemma server_leaf_created r ca serial cn nb na dns ips key der leaf :
  ca_ok ca -> na <= NotAfter (ca_Cert ca) ->
  CreateCertificate r (serverTemplate serial cn nb na dns ips) (Parent (ca_Cert ca)) (Public key) (ca_Key ca) = Ok der ->
  ParseCertificate der = Ok leaf -> server_leaf ca cn dns ips leaf key.
Proof.
  intros [Hca Hk] Hna Hc Hp.
  destruct (CreateCertificate_issued _ _ (Parent (ca_Cert ca)) _ _ _ (serverTemplate_ok _ _ _ _ _ _) Hca Hc) as (c & Hc' & His).
  rewrite Hp in Hc'. injection Hc' as <-. destruct His as [? _ _ _ Hcn Hiss _ Hafter Hpub Hsig _ (s & Hs & Hi) _ _].
  apply serverTemplate_names in Hs. split_and!; try done; [by rewrite Hi|by rewrite Hi| |by rewrite Hk].
  rewrite Hafter. cbn. unfold whole_seconds, second. pose proof (Z.mul_div_le na 1000000000). lia.
Qed.

Lemma self_leaf_spec r f now cn names leaf key :
  ca_ok (f_ca f) -> self_leaf r f now cn names = Ok (leaf, key) ->
  let '(dns, ips) := classify_names names in
  server_leaf (f_ca f) cn dns ips leaf key /\ LeafKey (f_keys f) (typeTaggedSANStrings leaf) = Ok key.
Proof.
  intros Hca H. unfold self_leaf in H. destruct (classify_names names) as [dns ips]. inv_ok. cbv zeta in H. inv_ok. subst.
  assert (server_leaf (f_ca f) cn dns ips leaf key) as Hl by (eapply server_leaf_created; [done| |done|done]; lia).
  split; [done|]. by rewrite (server_leaf_tagged _ _ _ _ _ _ Hl).
Qed.

(** The names that become alternative names: each is an address or a host name of
    the list, and each address or host name of the list is there. *)
Lemma classify_names_spec names :
  let '(dns, ips) := classify_names names in
  (forall n, n ∈ dns <-> n ∈ names /\ ParseIP n = None /\ isValidDNSName n = true)
  /\ (forall ip, ip ∈ ips <-> exists n, n ∈ names /\ ParseIP n = Some ip).
Proof.
  induction names as [|x names IH]; cbn; [split; [set_solver|]; intros ip; split; [by intros ?%elem_of_nil|by intros (? & ?%elem_of_nil & _)]|].
  destruct (classify_names names) as [dns ips]. destruct IH as [Hd Hi].
  destruct (ParseIP x) as [ip|] eqn:Ex; [|destruct (isValidDNSName x) eqn:Ev]; split; intros n;
    rewrite ?elem_of_cons, ?Hd, ?Hi; try setoid_rewrite elem_of_cons; naive_solver congruence.
Qed.

(** The three outcomes of [SelfCert] that matter. *)
Lemma SelfCert_miss r f w now names tc f' w' c :
  get (f_cache f) w (SelfCertIDFor (f_cache f) names) = (Ok None, c) -> SelfCert r f w now names = (Ok tc, f', w') ->
  exists cn leaf key, head names = Some cn /\ self_leaf r (set_cache f c) now cn names = Ok (leaf, key)
    /\ keep_chain r (set_cache f c) w (SelfCertIDFor (f_cache f) names) [leaf] leaf = (Ok tt, f', w') /\ same_factory f f'
    /\ tc = {| tc_Certificate := Raw leaf :: ChainDER (f_ca f); tc_PrivateKey := key; tc_Leaf := leaf |}.
Proof.
  intros Hmiss H. unfold SelfCert in H. destruct names as [|cn rest]; [done|]. rewrite Hmiss in H.
  destruct (self_leaf r _ now cn (cn :: rest)) as [[leaf key]|] eqn:El; [|done].
  destruct (keep_chain r _ w _ [leaf] leaf) as [[[[]|e] f2] w2] eqn:Ek; [|done]. injection H as <- <- <-.
  pose proof (same_factory_trans _ _ _ (set_cache_same _ _ _ _ _ _ eq_refl Hmiss) (keep_chain_same _ _ _ _ _ _ _ _ _ Ek)) as Hs.
  exists cn, leaf, key. split_and!; try done. by destruct Hs as (hot & ->).
Qed.

Lemma SelfCert_hit r f w now names leaf rest src c :
  names <> [] -> get (f_cache f) w (SelfCertIDFor (f_cache f) names) = (Ok (Some (leaf :: rest, src)), c) ->
  SelfCert r f w now names = (selfCertFromChain f leaf, set_cache f c, w).
Proof. intros Hn Hg. unfold SelfCert. destruct names; [done|]. by rewrite Hg. Qed.

Lemma SelfCert_error r f w now names e c :
  names <> [] -> get (f_cache f) w (SelfCertIDFor (f_cache f) names) = (Error e, c) ->
  SelfCert r f w now names = (Error e, set_cache f c, w).
Proof. intros Hn Hg. unfold SelfCert. destruct names; [done|]. by rewrite Hg. Qed.

(** A certificate minted for the proxy's own listener has the first name as its
    common name and, as alternative names, exactly the addresses and host names of
    the list; it comes with its key, signed by the CA and within the CA's life. *)
Theorem self_cert_minted r f w now names tc f' w' c :
  factory_ok f -> get (f_cache f) w (SelfCertIDFor (f_cache f) names) = (Ok None, c) ->
  SelfCert r f w now names = (Ok tc, f', w') ->
  let leaf := tc_Leaf tc in
  served_ok (f_ca f) tc /\ head names = Some (CommonName (Subject leaf)) /\ NotAfter leaf <= NotAfter (ca_Cert (f_ca f))
  /\ (forall n, n ∈ DNSNames (Names (Info leaf)) <-> n ∈ names /\ ParseIP n = None /\ isValidDNSName n = true)
  /\ (forall ip, ip ∈ IPAddresses (Names (Info leaf)) <-> exists n ip', n ∈ names /\ ParseIP n = Some ip' /\ ip = default ip' (To4 ip')).
Proof.
  intros Hf Hmiss H. apply (SelfCert_miss _ _ _ _ _ _ _ _ _ Hmiss) in H as (cn & leaf & key & Hcn & El & _ & _ & ->).
  pose proof (self_leaf_spec _ (set_cache f c) _ _ _ _ _ (proj1 Hf) El) as Hl. cbn [tc_Leaf].
  pose proof (classify_names_spec names) as Hn. destruct (classify_names names) as [dns ips].
  destruct Hl as [(Hp & Hpub & Hcn' & Hnames & _ & _ & Hna & Hsig) _]. destruct Hn as [Hd Hi]. split_and!; try done.
  - exists [leaf]. by split_and!.
  - by rewrite Hcn'.
  - intros n. rewrite Hnames. cbn. apply Hd.
  - intros ip. rewrite Hnames. cbn. rewrite list_elem_of_fmap. setoid_rewrite Hi. naive_solver.
Qed.

(** A fallback certificate is the CA's for the one name, with its key. *)
Theorem fallback_minted r f now sni tc :
  ca_ok (f_ca f) -> Fallback_cert r f now sni = Ok tc ->
  served_ok (f_ca f) tc /\ CommonName (Subject (tc_Leaf tc)) = sni
  /\ typeTaggedSANStrings (tc_Leaf tc) = match ParseIP sni with Some ip => tagSANs [] [ip] | None => tagSANs [sni] [] end.
Proof.
  intros Hca H. unfold Fallback_cert in H.
  destruct (match ParseIP sni with Some ip => ([], [ip]) | None => ([sni], []) end) as [dns ips] eqn:E.
  inv_ok. cbv zeta in H. inv_ok. subst tc. cbn [tc_Leaf].
  assert (server_leaf (f_ca f) sni dns ips r2 r0) as Hl by (eapply server_leaf_created; [done| |done|done]; lia).
  pose proof (server_leaf_tagged _ _ _ _ _ _ Hl) as Ht. destruct Hl as (Hp & Hpub & Hcn & _ & _ & _ & _ & Hsig). split_and!; try done.
  - exists [r2]. by split_and!.
  - rewrite Ht. destruct (ParseIP sni); by injection E as <- <-.
Qed.

(** ** Restarts *)

Context `{US : !UuidV5Spec} `{RS : !TrustStoresSpec} {TP : TreeSpec W}.
Context (asked : list Certificate -> Prop) (selves : list bytes -> Prop).

Lemma single_reloadable leaf : reloadable [leaf] <-> RawSubject leaf <> RawIssuer leaf.
Proof.
  unfold reloadable, issuers. cbn. split.
  - intros (_ & l & [= <-] & H) E. apply H. rewrite E. set_solver.
  - intros H. split; [apply NoDup_singleton|]. exists leaf. split; [done|]. set_solver.
Qed.

(** A minted certificate of the listener is stored, and would be accepted. *)
Lemma self_cert_stored r f w now names tc f' w' c :
  factory_ok f -> cache_inv asked selves f w -> selves names -> ca_signs (f_ca f) ->
  get (f_cache f) w (SelfCertIDFor (f_cache f) names) = (Ok None, c) -> SelfCert r f w now names = (Ok tc, f', w') ->
  stored_as (f_keys f) w' (SelfCertIDFor (f_cache (restarted f)) names) [tc_Leaf tc]
  /\ verify (NewCertCache (f_keys f) (f_ca f)) [tc_Leaf tc] = true /\ RawIssuer (tc_Leaf tc) = RawSubject (ca_Cert (f_ca f))
  /\ selfCertFromChain (restarted f) (tc_Leaf tc) = Ok tc /\ names <> [].
Proof.
  intros Hf Hinv Hself Hsigns Hmiss H.
  assert (SelfCertIDFor (f_cache f) names = SelfCertIDFor (f_cache (restarted f)) names) as Eid.
  { destruct Hf as (_ & hot & Ec). by rewrite Ec. }
  apply (SelfCert_miss _ _ _ _ _ _ _ _ _ Hmiss) in H as (cn & leaf & key & Hcn & El & Ek & _ & ->). rewrite Eid in *.
  set (id := SelfCertIDFor _ _) in *. assert (is_uuid id) as Hu by apply uuid_text.
  pose proof (same_factory_ok _ _ (set_cache_same _ _ _ _ _ _ eq_refl Hmiss) Hf) as Hf1.
  assert (entry_ok asked selves (f_ca f) (f_keys f) id [leaf]) as He by (right; by exists r, now, cn, names, leaf, key).
  destruct (keep_chain_inv _ _ _ _ _ _ _ _ _ _ _ Hf1 (set_cache_inv _ _ _ _ _ _ _ Hf Hinv Hu Hmiss) Hu He Ek) as [_ Hk].
  destruct (Hk eq_refl) as [_ Hst]. pose proof (self_leaf_spec _ (set_cache f c) _ _ _ _ _ (proj1 Hf) El) as Hl.
  destruct (classify_names names) as [dns ips]. destruct Hl as [(_ & Hpub & _ & _ & Hiss & _ & _ & Hsig) Hkey].
  cbn [f_ca f_keys set_cache] in Hkey, Hsig, Hiss. cbn [tc_Leaf]. split_and!; try done.
  - unfold verify. cbn. rewrite Hkey, bool_decide_true by done. destruct Hf as [[_ Hpk] _], Hsigns as (H1 & H2 & H3).
    rewrite CheckSignatureFrom_ca; [by rewrite Hsig|done|done|done|by rewrite Hpk].
  - unfold selfCertFromChain. cbn [f_keys restarted NewCertFactory]. by rewrite Hkey.
  - by intros ->.
Qed.

(** The certificate of the proxy's listener is the same after every restart, unless
    the CA has the listener's name as its subject: then every start but the first
    fails. *)
Theorem self_cert_reload r f w now names tc f' w' c :
  factory_ok f -> cache_inv asked selves f w -> selves names -> ca_signs (f_ca f) ->
  get (f_cache f) w (SelfCertIDFor (f_cache f) names) = (Ok None, c) ->
  SelfCert r f w now names = (Ok tc, f', w') ->
  forall r' now',
    (RawSubject (tc_Leaf tc) <> RawSubject (ca_Cert (f_ca f)) ->
       exists f'', SelfCert r' (restarted f) w' now' names = (Ok tc, f'', w'))
    /\ (RawSubject (tc_Leaf tc) = RawSubject (ca_Cert (f_ca f)) ->
       exists e, SelfCert r' (restarted f) w' now' names = (Error e, restarted f, w')).
Proof.
  intros Hf Hinv Hself Hsigns Hmiss H r' now'.
  destruct (self_cert_stored _ _ _ _ _ _ _ _ _ Hf Hinv Hself Hsigns Hmiss H) as (Hst & Hv & Hiss & Htc & Hne).
  destruct (get_stored (f_ca f) _ _ _ _ Hst I Hv) as [Hg1 Hg2]. rewrite single_reloadable, Hiss in Hg1, Hg2.
  split; intros Hsub.
  - rewrite (SelfCert_hit r' (restarted f) w' now' names _ _ _ _ Hne (Hg1 Hsub)), Htc. by eexists.
  - destruct (Hg2 ltac:(naive_solver)) as (e & Hg). rewrite (SelfCert_error r' (restarted f) w' now' names _ _ Hne Hg). by exists e.
Qed.

(** ** Counting and flushing *)

(** Nothing beneath leaf/certs is an alias. *)
Definition plain_certs (w : W) : Prop := forall k, HasPrefix (str "leaf/certs") k = true -> plain w k.

(** [Count] counts the chains kept, whatever else lies beneath certs/. *)
Theorem count_exact w ids :
  plain_certs w -> NoDup ids -> Forall is_uuid ids -> ListKeys w certsPrefix <> SNotExist ->
  (forall k, HasPrefix certsPrefix k = true -> HasSuffix (str ".p12") k = true ->
     (exists d v, Get w k = SOk (d, v)) <-> exists id, id ∈ ids /\ k = certKey id) ->
  match Count w with SOk n => n = length ids | SNotExist => False | SFail e => ListKeys w certsPrefix = SFail e end.
Proof.
  intros Hpl Hn Hu Hne Hk. unfold Count. destruct (ListKeys w certsPrefix) as [l| |e] eqn:El; [|done|done].
  destruct (tree_list _ _ _ _ certs_whole Hpl El) as (Hnd & Hl & Hl'). rewrite <- (length_map certKey ids).
  apply Permutation_length, NoDup_Permutation.
  - apply NoDup_ListNoDup, List.NoDup_filter, NoDup_ListNoDup. done.
  - apply NoDup_fmap_2_strong; [|done]. rewrite Forall_forall in Hu. intros x y Hx Hy. by apply certKey_inj; apply Hu.
  - intros k. rewrite list_elem_of_In, filter_In, <- list_elem_of_In. setoid_rewrite list_elem_of_fmap. split.
    + intros [Hin Hs]. destruct (Hl k Hin) as [[Hp| ->] Hg]; [|done]. apply (Hk k Hp Hs) in Hg. naive_solver.
    + intros (id & -> & Hid). pose proof (shardedKey_prefix certsPrefix id (str ".p12")) as Hp.
      pose proof (shardedKey_suffix certsPrefix id (str ".p12")) as Hs. split; [|done]. apply Hl'; [done|].
      apply (Hk _ Hp Hs). eauto.
Qed.

(** After a successful [Flush] every look-up in the cache misses, in memory and
    in storage, and [Count] is zero; a failed one leaves the entries in memory. *)
Theorem flush_forgets c w res c' w' :
  plain_certs w -> Flush c w = (res, c', w') ->
  match res with
  | Ok _ => (forall id, get c' w' id = (Ok None, c'))
            /\ match Count w' with SOk n => n = 0%nat | SNotExist | SFail _ => True end
  | Error _ => c' = c
  end.
Proof.
  intros Hpl H. unfold Flush in H. destruct (DeletePrefix w leafPrefix) as [s w1] eqn:Ed.
  destruct s as [[]| |e]; injection H as <- <- <-; try done.
  assert (forall k, HasPrefix leafPrefix k = true -> Get w1 k = SNotExist) as Hgone.
  { intros k Hk. by eapply tree_deleted; [exact leaf_whole|..]. }
  assert (forall k, HasPrefix certsPrefix k = true -> HasPrefix leafPrefix k = true) as Hsub.
  { intros k (x & ->)%HasPrefix_true. apply HasPrefix_true. exists (str "certs/" ++ x)%list. done. }
  split.
  - intros id. unfold get. cbn [cc_hot set_hot]. rewrite lookup_empty, Hgone; [done|]. apply Hsub, shardedKey_prefix.
  - unfold Count. destruct (ListKeys w1 certsPrefix) as [l| |e] eqn:El; [|done..].
    assert (plain_certs w1) as Hpl1 by (intros k Hk; eapply tree_delete_plain; [exact Ed|by apply Hpl]).
    destruct (tree_list _ _ _ _ certs_whole Hpl1 El) as (_ & Hl & _).
    assert (forall k, k ∈ l -> HasSuffix (str ".p12") k = false) as Hnone.
    { intros k Hk. apply Hl in Hk as [[Hp| ->] (d & v & Hg)]; [|done]. by rewrite Hgone in Hg by (by apply Hsub). }
    clear -Hnone. induction l as [|k l IH]; [done|]. cbn. rewrite Hnone by (by left). apply IH. intros k' Hk'. apply Hnone. by right.
Qed.

End Self.
