(* ===== verification/CertCA.v ===== *)
(** * The signing CA (internal/cert/ca.go)

    Loading or generating the CA, validating one the operator brings, and wiping
    the leaf cache when the CA or the cluster key changed.  A start that succeeds
    leaves the tuple of its CA and either the cache as it was under that tuple or an
    empty one, and a start that dies half-way never leaves entries of an older CA
    under a newer tuple. *)

From S2P Require Import Prelude GoStrings Netip Encoding X509 CertKeys CertChain Storage GoUrl StorageTree CertCache CertCorrect.

Open Scope Z_scope.

(** ** Key bundles *)

(** A private key as go-pkcs12 returns it. *)
Inductive any_key : Type := ECDSAPrivate (k : PrivateKey) | OtherPrivate.

(** go-pkcs12's [Modern.Encode] and [DecodeChain]. *)
Class Bundles : Type := {
  EncodeBundle : nat -> PrivateKey -> Certificate -> list Certificate -> bytes -> result bytes;
  DecodeChain : bytes -> bytes -> result (any_key * Certificate * list Certificate) }.

(** A bundle decodes under its password to what was put in, and certificates
    come out parsed. *)
Class BundlesSpec `{XS : X509} `{BU : Bundles} : Prop := {
  decode_bundle r k c cas password data :
    Forall parsed (c :: cas) -> EncodeBundle r k c cas password = Ok data -> DecodeChain data password = Ok (ECDSAPrivate k, c, cas);
  bundle_parsed data password k c cas : DecodeChain data password = Ok (k, c, cas) -> parsed c }.

Definition caKey : bytes := str "ca/ca.p12".
Definition tupleKey : bytes := str ".tuple".
Definition rootValidity : Z := 20 * 365 * 24 * hour.
Definition rootClockFudge : Z := hour.

(** The clusterKey as the operator wrote it. *)
Definition p12Password (clusterKey : bytes) : bytes := base64_encode clusterKey.

Definition rootName : Name :=
  {| Country := []; Organization := [str "Root CA"]; OrganizationalUnit := []; Locality := []; Province := [];
     StreetAddress := []; PostalCode := []; NameSerial := []; CommonName := str "Root CA" |}.

Definition rootTemplate (serial notBefore : Z) : Template :=
  {| tm_SerialNumber := serial; tm_Subject := rootName; tm_NotBefore := notBefore;
     tm_NotAfter := notBefore + rootValidity;
     tm_Info :=
       {| KeyUsage := Z.lor KeyUsageCertSign KeyUsageCRLSign; ExtKeyUsage := []; UnknownExtKeyUsage := [];
          BasicConstraintsValid := true; IsCA := true; MaxPathLen := 0; MaxPathLenZero := false; Names := no_sans;
          SubjectKeyId := []; AuthorityKeyId := [] |};
     tm_ExtraExtensions := [] |}.

Section LoadCA.
Context `{DG : Digests} `{CR : Crypto} `{XS : X509} `{BU : Bundles} {W : Type} `{TS : TreeStorage W}.

(** [generateCA]; [key] and [serial] are what the random source gives. *)
Definition generateCA (r : nat) (now : Z) (key : result PrivateKey) (serial : result Z) : result CA :=
  key ← key;
  serial ← serial;
  der ← CreateCertificate r (rootTemplate serial (now - rootClockFudge)) Self (Public key) key;
  cert ← ParseCertificate der;
  Ok {| ca_Cert := cert; ca_Key := key; ca_Chain := []; ca_Generated := false |}.

(** [validateSigningCert]: what is wrong with the certificate, if anything. *)
Definition validateSigningCert (now : Z) (key : PrivateKey) (cert : Certificate) : option string :=
  if negb (bool_decide (k_Curve key = P256) || bool_decide (k_Curve key = P384))
  then Some "signing key curve, want P-256 or P-384"
  else if negb (bool_decide (CertPublicKey cert = Public key))
  then Some "signing key does not match certificate's public key"
  else if negb (BasicConstraintsValid (Info cert)) || negb (IsCA (Info cert))
  then Some "signing certificate is not a CA (BasicConstraints CA:true required)"
  else match findExtension (Extensions cert) oidBasicConstraints with
  | None => Some "signing certificate's BasicConstraints extension must be marked critical"
  | Some bc =>
  if negb (ext_Critical bc) then Some "signing certificate's BasicConstraints extension must be marked critical"
  else if Z.land (KeyUsage (Info cert)) KeyUsageCertSign =? 0
  then Some "signing certificate KeyUsage does not include keyCertSign"
  else match findExtension (Extensions cert) oidKeyUsage with
  | None => Some "signing certificate's KeyUsage extension must be marked critical"
  | Some ku =>
  if negb (ext_Critical ku) then Some "signing certificate's KeyUsage extension must be marked critical"
  else if now <? NotBefore cert then Some "signing certificate not yet valid"
  else if NotAfter cert <? now then Some "signing certificate has expired"
  else None
  end end.

Definition decodeCA (now : Z) (data clusterKey : bytes) : result CA :=
  '(key, cert, caCerts) ← DecodeChain data (p12Password clusterKey);
  match key with
  | OtherPrivate => Error "root CA private key, want *ecdsa.PrivateKey"
  | ECDSAPrivate ecKey =>
      match validateSigningCert now ecKey cert with
      | Some e => Error e
      | None =>
          chain ← resolveChain cert caCerts;
          Ok {| ca_Cert := cert; ca_Key := ecKey; ca_Chain := chain; ca_Generated := false |}
      end
  end.

(** The bytes [tupleHash] hashes. *)
Definition tuple_bytes (cert : Certificate) (clusterKey : bytes) : bytes :=
  (Raw cert ++ sha256 clusterKey ++ cloneFormatVersion)%list.

Definition tupleHash (cert : Certificate) (clusterKey : bytes) : bytes := sha256 (tuple_bytes cert clusterKey).

(** A sequence of storage calls: its result, the world it leaves, and the worlds
    before each write, latest first, in which a crash could have stopped it. *)
Definition run_of (A : Type) : Type := (result A * W * list W)%type.

Definition write_error (s : sres unit) : option string :=
  match s with SOk _ => None | SNotExist => Some "storage: key does not exist" | SFail e => Some e end.

Definition persistCA (r : nat) (w : W) (ca : CA) (clusterKey : bytes) : result unit * W :=
  match EncodeBundle r (ca_Key ca) (ca_Cert ca) [] (p12Password clusterKey) with
  | Error e => (Error e, w)
  | Ok data =>
      match Put w caKey data with
      | (s, w) => (match write_error s with Some e => Error e | None => Ok tt end, w)
      end
  end.

(** Wiping the leaves, then writing the tuple. *)
Definition rewrite_tuple (w : W) (hist : list W) (want : bytes) : run_of unit :=
  match DeletePrefix w leafPrefix with
  | (s, w1) =>
      match write_error s with
      | Some e => (Error ("cert: wipe leaf/: " ++ e), w1, w :: hist)
      | None =>
          match Put w1 tupleKey want with
          | (s, w2) =>
              match write_error s with
              | Some e => (Error ("cert: write .tuple: " ++ e), w2, w1 :: w :: hist)
              | None => (Ok tt, w2, w1 :: w :: hist)
              end
          end
      end
  end.

Definition reconcileTuple (w : W) (hist : list W) (ca : CA) (clusterKey : bytes) (justGenerated : bool) : run_of unit :=
  let want := tupleHash (ca_Cert ca) clusterKey in
  if justGenerated then rewrite_tuple w hist want
  else
    match Get w tupleKey with
    | SOk (existing, _) => if bool_decide (existing = want) then (Ok tt, w, hist) else rewrite_tuple w hist want
    | SNotExist => rewrite_tuple w hist want
    | SFail e => (Error ("cert: read .tuple: " ++ e), w, hist)
    end.

Definition set_generated (ca : CA) (b : bool) : CA :=
  {| ca_Cert := ca_Cert ca; ca_Key := ca_Key ca; ca_Chain := ca_Chain ca; ca_Generated := b |}.

Definition reconciled (ca : CA) (generated : bool) (x : run_of unit) : run_of CA :=
  match x with
  | (Ok _, w, hist) => (Ok (set_generated ca generated), w, hist)
  | (Error e, w, hist) => (Error e, w, hist)
  end.

(** [LoadOrGenerateCA]. *)
Definition LoadOrGenerateCA (r : nat) (now : Z) (key : result PrivateKey) (serial : result Z) (w : W) (clusterKey : bytes)
  : run_of CA :=
  match Get w caKey with
  | SNotExist =>
      match generateCA r now key serial with
      | Error e => (Error ("cert: generate root CA: " ++ e), w, [])
      | Ok ca =>
          match persistCA r w ca clusterKey with
          | (Error e, w1) => (Error ("cert: persist root CA: " ++ e), w1, [w])
          | (Ok _, w1) => reconciled ca true (reconcileTuple w1 [w] ca clusterKey true)
          end
      end
  | SFail e => (Error ("cert: read ca/ca.p12: " ++ e), w, [])
  | SOk (data, _) =>
      match decodeCA now data clusterKey with
      | Error e => (Error ("cert: decode ca/ca.p12 (check --cluster-key matches the file that produced it): " ++ e), w, [])
      | Ok ca => reconciled ca false (reconcileTuple w [] ca clusterKey false)
      end
  end.

End LoadCA.

(** ** Which CA is used *)

Section CAOk.
Context `{DG : Digests} `{CR : Crypto} `{CS : !CryptoSpec} `{XS : X509} {XP : X509Spec}.

Lemma validateSigningCert_None now key cert :
  validateSigningCert now key cert = None ->
  CertPublicKey cert = Public key /\ BasicConstraintsValid (Info cert) = true /\ IsCA (Info cert) = true
  /\ Z.land (KeyUsage (Info cert)) KeyUsageCertSign <> 0 /\ NotBefore cert <= now <= NotAfter cert.
Proof.
  unfold validateSigningCert. destruct (negb (_ || _)); [done|]. case_bool_decide as Hp; [|done]. cbn [negb].
  destruct (BasicConstraintsValid (Info cert)); [|done]. destruct (IsCA (Info cert)); [|done]. cbn [negb orb].
  destruct (findExtension _ oidBasicConstraints) as [bc|]; [|done]. destruct (ext_Critical bc); [|done]. cbn [negb].
  destruct (Z.eqb_spec (Z.land (KeyUsage (Info cert)) KeyUsageCertSign) 0); [done|].
  destruct (findExtension _ oidKeyUsage) as [ku|]; [|done]. destruct (ext_Critical ku); [|done]. cbn [negb].
  destruct (Z.ltb_spec now (NotBefore cert)); [done|]. destruct (Z.ltb_spec (NotAfter cert) now); [done|].
  intros _. split_and!; try done; lia.
Qed.

Lemma rootTemplate_ok serial nb : template_ok known_usage (rootTemplate serial nb).
Proof. split_and!; [done|done|constructor|]. eexists. by left. Qed.

Lemma root_bodies serial nb :
  derived_bodies (tm_Info (rootTemplate serial nb)) false [] [] = [(true, BodyKeyUsage 96); (true, BodyBasicConstraints true (-1))].
Proof. by vm_compute. Qed.

(** The generated root: signed by itself, entitled to sign without limit, and
    marked the way a CA brought by the operator must be. *)
Lemma generateCA_spec r now key serial ca :
  generateCA r now key serial = Ok ca ->
  ca_ok ca /\ ca_signs ca /\ ca_Chain ca = [] /\ ca_Generated ca = false /\ isSelfSigned (ca_Cert ca) = true
  /\ snd (issuanceBudget ca) = false
  /\ forall now', NotBefore (ca_Cert ca) <= now' <= NotAfter (ca_Cert ca) -> k_Curve (ca_Key ca) = P256 ->
     validateSigningCert now' (ca_Key ca) (ca_Cert ca) = None.
Proof.
  intros H. unfold generateCA in H. inv_ok. subst ca. cbn [ca_Cert ca_Key ca_Chain ca_Generated].
  destruct (CreateCertificate_issued _ _ Self _ _ _ (rootTemplate_ok _ _) I Hr1) as (c & Hc & His).
  rewrite Hr2 in Hc. injection Hc as <-. destruct His as [Hp _ _ _ _ _ _ _ Hpub Hsig _ (s & _ & Hi) _ Hcrit].
  rewrite root_bodies in Hcrit.
  destruct (Hcrit (BodyBasicConstraints true (-1))) as (bc & Hbc & Hbcc); [right; by left|].
  destruct (Hcrit (BodyKeyUsage 96)) as (ku & Hku & Hkuc); [by left|]. cbn [body_oid] in Hbc, Hku.
  assert (ca_signs {| ca_Cert := r3; ca_Key := r0; ca_Chain := []; ca_Generated := false |}) as Hs
    by (unfold ca_signs; cbn [ca_Cert]; rewrite Hi; done).
  split_and!; try done.
  - unfold isSelfSigned. destruct Hs as (H1 & H2 & H3). rewrite CheckSignatureFrom_ca by (try done; by rewrite Hpub).
    by rewrite Hpub.
  - unfold issuanceBudget. cbn [ca_Cert]. by rewrite Hi.
  - intros now' [Hn1 Hn2] Hcurve. destruct Hs as (H1 & H2 & H3). cbn [ca_Cert] in H1, H2, H3. unfold validateSigningCert.
    rewrite (bool_decide_true (k_Curve r0 = P256)) by done. rewrite (bool_decide_true (CertPublicKey r3 = _)) by done.
    rewrite H1, H2, Hbc, Hbcc, Hku, Hkuc.
    cbn [negb orb]. apply Z.eqb_neq in H3. rewrite H3.
    destruct (Z.ltb_spec now' (NotBefore r3)); [lia|]. destruct (Z.ltb_spec (NotAfter r3) now'); [lia|]. done.
Qed.

Context `{BU : Bundles} {BS : BundlesSpec}.

Lemma decodeCA_ok now data ck ca : decodeCA now data ck = Ok ca -> ca_ok ca /\ ca_signs ca.
Proof.
  unfold decodeCA. intros H. apply result_bind_ok in H as ([[[k|] cert] cas] & Hd & H); [|done].
  destruct (validateSigningCert now k cert) eqn:Ev; [done|]. inv_ok. subst ca.
  apply validateSigningCert_None in Ev as (Hp & H1 & H2 & H3 & _). split; [|done]. split; [|done].
  by eapply bundle_parsed.
Qed.

Context {W : Type} `{TS : TreeStorage W} {TP : TreeSpec W}.

(** All leaves are gone. *)
Definition no_leaves (w : W) : Prop := forall k, HasPrefix leafPrefix k = true -> Get w k = SNotExist.

Lemma write_error_None s : write_error s = None -> s = SOk tt.
Proof. by destruct s as [[]| |]. Qed.

(** The tuple changes only once the leaves are gone. *)
Lemma rewrite_tuple_spec w hist want res w' hist' :
  plain w tupleKey -> rewrite_tuple w hist want = (res, w', hist') ->
  (forall x, x ∈ w' :: hist' -> x ∈ hist \/ Get x tupleKey = Get w tupleKey \/ no_leaves x)
  /\ (res = Ok tt -> no_leaves w' /\ exists v, Get w' tupleKey = SOk (want, v)).
Proof.
  intros Hpl. unfold rewrite_tuple. destruct (DeletePrefix w leafPrefix) as [s w1] eqn:Ed.
  destruct (tree_delete_other _ _ _ _ _ _ (leaf_whole : whole_prefix leafPrefix (str "leaf")) Ed (eq_refl : HasPrefix (str "leaf") tupleKey = false) Hpl) as [Ht Hpl1].
  destruct (write_error s) as [e|] eqn:Es; [intros [= <- <- <-]; split; [|done]|].
  { intros x [->|[->|?]%elem_of_cons]%elem_of_cons; auto. }
  apply write_error_None in Es as ->.
  assert (forall k, HasPrefix leafPrefix k = true -> Get w1 k = SNotExist /\ plain w1 k) as Hn1
    by (intros k Hk; by eapply tree_deleted; [exact leaf_whole|exact Ed|]).
  destruct (Put w1 tupleKey want) as [s w2] eqn:Ep.
  assert (no_leaves w2) as Hn2.
  { intros k Hk. destruct (Hn1 k Hk) as [<- Hp]. eapply tree_get_put_ne; [exact Ep|done|by intros ->]. }
  assert (no_leaves w1) as Hn1' by (intros k Hk; by apply Hn1).
  destruct (write_error s) eqn:Es; intros [= <- <- <-].
  - split; [|done]. intros x [->|[->|[->|?]%elem_of_cons]%elem_of_cons]%elem_of_cons; auto.
  - apply write_error_None in Es as ->. split; [|intros _; split; [done|]; by eapply tree_get_put].
    intros x [->|[->|[->|?]%elem_of_cons]%elem_of_cons]%elem_of_cons; auto.
Qed.

(** The bundle is not touched. *)
Lemma rewrite_tuple_ca w hist want res w' hist' :
  plain w caKey -> rewrite_tuple w hist want = (res, w', hist') -> Get w' caKey = Get w caKey.
Proof.
  intros Hpl. unfold rewrite_tuple. destruct (DeletePrefix w leafPrefix) as [s w1] eqn:Ed.
  destruct (tree_delete_other _ _ _ _ _ _ leaf_whole Ed (eq_refl : HasPrefix (str "leaf") caKey = false) Hpl) as [<- Hpl1].
  destruct (write_error s); [by intros [= _ <- _]|]. destruct (Put w1 tupleKey want) as [s2 w2] eqn:Ep.
  destruct (write_error s2); intros [= _ <- _]; by eapply tree_get_put_ne.
Qed.

Lemma reconcileTuple_spec w hist ca ck gen res w' hist' :
  plain w tupleKey -> reconcileTuple w hist ca ck gen = (res, w', hist') ->
  (forall x, x ∈ w' :: hist' -> x ∈ hist \/ Get x tupleKey = Get w tupleKey \/ no_leaves x)
  /\ (res = Ok tt -> (exists v, Get w' tupleKey = SOk (tupleHash (ca_Cert ca) ck, v))
                     /\ (gen = false /\ w' = w \/ no_leaves w')).
Proof.
  intros Hpl H. set (want := tupleHash (ca_Cert ca) ck).
  assert (rewrite_tuple w hist want = (res, w', hist') \/ gen = false /\ w' = w /\ hist' = hist
            /\ (res = Ok tt -> exists v, Get w tupleKey = SOk (want, v))) as [Hr|(-> & -> & -> & Hr)].
  { unfold reconcileTuple in H. fold want in H. destruct gen; [by left|]. destruct (Get w tupleKey) as [[d v]| |e]; [|by left|].
    - case_bool_decide as E; [|by left]. right. injection H as <- <- <-. subst d. eauto.
    - right. by injection H as <- <- <-. }
  - destruct (rewrite_tuple_spec _ _ _ _ _ _ Hpl Hr) as [H1 H2]. split; [done|]. intros [Hn Hv]%H2. auto.
  - split; [intros x [->|?]%elem_of_cons; auto|]. intros Hok. split; [by apply Hr|by left].
Qed.

Lemma persistCA_spec r w ca ck res w' :
  parsed (ca_Cert ca) -> plain w caKey -> plain w tupleKey -> persistCA r w ca ck = (res, w') ->
  Get w' tupleKey = Get w tupleKey /\ plain w' tupleKey /\ plain w' caKey
  /\ (res = Ok tt -> exists data v, Get w' caKey = SOk (data, v)
       /\ DecodeChain data (p12Password ck) = Ok (ECDSAPrivate (ca_Key ca), ca_Cert ca, [])).
Proof.
  intros Hpa Hc Ht. unfold persistCA. destruct (EncodeBundle _ _ _ _ _) as [data|e] eqn:Ee; [|by intros [= <- <-]].
  destruct (Put w caKey data) as [s w1] eqn:Ep. intros [= <- <-]. split_and!.
  - by eapply tree_get_put_ne.
  - by eapply tree_put_plain.
  - by eapply tree_put_plain.
  - destruct (write_error s) eqn:Es; [done|]. intros _. apply write_error_None in Es as ->.
    destruct (tree_get_put _ _ _ _ Ep) as (v & Hv). exists data, v. split; [done|]. eapply decode_bundle; [|done]. by repeat constructor.
Qed.

Lemma LoadOrGenerateCA_reconciled r now key serial w ck res w' hist :
  plain w caKey -> plain w tupleKey -> LoadOrGenerateCA r now key serial w ck = (res, w', hist) ->
  (forall x, x ∈ w' :: hist -> Get x tupleKey = Get w tupleKey \/ no_leaves x)
  /\ forall ca, res = Ok ca ->
     ca_ok ca /\ ca_signs ca /\ (exists v, Get w' tupleKey = SOk (tupleHash (ca_Cert ca) ck, v))
     /\ (ca_Generated ca = false /\ w' = w \/ no_leaves w').
Proof.
  intros Hc Ht H. unfold LoadOrGenerateCA in H.
  assert (forall x, x ∈ [w] -> Get x tupleKey = Get w tupleKey \/ no_leaves x) as Hnow by (intros x ->%list_elem_of_singleton; auto).
  destruct (Get w caKey) as [[data v]| |e] eqn:Eg; [|clear Eg|by injection H as <- <- <-].
  - destruct (decodeCA now data ck) as [ca|e] eqn:Ed; [|by injection H as <- <- <-].
    destruct (reconcileTuple w [] ca ck false) as [[res' w1] hist'] eqn:Er.
    destruct (reconcileTuple_spec _ _ _ _ _ _ _ _ Ht Er) as [H1 H2].
    assert (w1 = w' /\ hist' = hist) as [-> ->] by (by destruct res'; injection H as <- <- <-). split.
    + intros x Hx. destruct (H1 x Hx) as [?%elem_of_nil|?]; done.
    + intros ca' ->. destruct res' as [[]|]; cbn in H; [|done]. injection H as <-. destruct (H2 eq_refl) as [Hv Hw].
      destruct (decodeCA_ok _ _ _ _ Ed). by split_and!.
  - destruct (generateCA r now key serial) as [ca|e] eqn:Eca; [|by injection H as <- <- <-].
    destruct (generateCA_spec _ _ _ _ _ Eca) as (Hok & Hs & _).
    destruct (persistCA r w ca ck) as [res' w1] eqn:Ep. destruct (persistCA_spec _ _ _ _ _ _ (proj1 Hok) Hc Ht Ep) as (E1 & Hp1 & _ & _).
    destruct res' as [[]|e]; [|injection H as <- <- <-; split; [|done]; intros x [->|Hx]%elem_of_cons; auto].
    destruct (reconcileTuple w1 [w] ca ck true) as [[res' w2] hist'] eqn:Er.
    destruct (reconcileTuple_spec _ _ _ _ _ _ _ _ Hp1 Er) as [H1 H2]. rewrite E1 in H1.
    assert (w2 = w' /\ hist' = hist) as [-> ->] by (by destruct res'; injection H as <- <- <-). split.
    + intros x Hx. destruct (H1 x Hx) as [?|?]; auto.
    + intros ca' ->. destruct res' as [[]|]; cbn in H; [|done]. injection H as <-. destruct (H2 eq_refl) as [Hv Hw].
      split_and!; try done. by destruct Hw as [[? _]|?]; [|right].
Qed.

(** C15: a start of the proxy that succeeds uses a CA that may sign and whose key is
    its certificate's; the stored tuple is then the CA's, over the cache as it was
    under that tuple or over an empty one.  Wherever a start dies, the tuple is the
    old one or the cache is empty, so that the next start wipes what it must. *)
Theorem ca_load_reconciled r now key serial w ck res w' hist :
  plain w caKey -> plain w tupleKey -> LoadOrGenerateCA r now key serial w ck = (res, w', hist) ->
  (forall x, x ∈ w' :: hist -> Get x tupleKey = Get w tupleKey \/ no_leaves x)
  /\ forall ca, res = Ok ca ->
     ca_ok ca /\ ca_signs ca /\ (exists v, Get w' tupleKey = SOk (tupleHash (ca_Cert ca) ck, v))
     /\ (ca_Generated ca = false /\ w' = w \/ no_leaves w').
Proof. apply LoadOrGenerateCA_reconciled. Qed.

(** C29: a root that was generated is found again by every later start with the
    same cluster key while it is valid, and such a start writes nothing. *)
Theorem generated_ca_survives r now k serial w ck ca w' hist :
  plain w caKey -> plain w tupleKey -> k_Curve k = P256 -> Get w caKey = SNotExist ->
  LoadOrGenerateCA r now (Ok k) serial w ck = (Ok ca, w', hist) ->
  forall r' now' key' serial', NotBefore (ca_Cert ca) <= now' <= NotAfter (ca_Cert ca) ->
    LoadOrGenerateCA r' now' key' serial' w' ck = (Ok (set_generated ca false), w', []).
Proof.
  intros Hc Ht Hcurve Hne H r' now' key' serial' Hnow. unfold LoadOrGenerateCA in H. rewrite Hne in H.
  destruct (generateCA r now (Ok k) serial) as [ca0|e] eqn:Eca; [|done].
  destruct (persistCA r w ca0 ck) as [[[]|e] w1] eqn:Ep; [|done].
  destruct (generateCA_spec _ _ _ _ _ Eca) as (Hok & _ & Hchain & _ & Hself & _ & Hval).
  destruct (persistCA_spec _ _ _ _ _ _ (proj1 Hok) Hc Ht Ep) as (_ & Hp1 & Hpc & Hstored).
  destruct (Hstored eq_refl) as (data & v & Hg & Hdec). clear Hstored.
  destruct (reconcileTuple w1 [w] ca0 ck true) as [[[[]|] w2] hist'] eqn:Er; [|done].
  destruct (reconcileTuple_spec _ _ _ _ _ _ _ _ Hp1 Er) as [_ Hrec]. destruct (Hrec eq_refl) as ((v2 & Hv2) & _).
  injection H as <- <- _. cbn [ca_Cert set_generated] in Hnow.
  assert (ca_Key ca0 = k) as Ek by (unfold generateCA in Eca; inv_ok; by subst).
  assert (Get w2 caKey = Get w1 caKey) as E2 by (by eapply rewrite_tuple_ca).
  unfold LoadOrGenerateCA. rewrite E2, Hg. unfold decodeCA. rewrite Hdec. cbn [mbind result_bind].
  rewrite Hval by (try done; by rewrite Ek). unfold resolveChain. rewrite Hself. cbn [mbind result_bind].
  unfold reconcileTuple. cbn [ca_Cert]. rewrite Hv2, bool_decide_true by done. cbn. unfold set_generated. by rewrite Hchain.
Qed.

End CAOk.

(** The password decodes to the cluster key; it need not be the text the operator
    gave, since stray bits in the last digit and line breaks decode alike. *)
Theorem password_not_as_written :
  (forall clusterKey, base64_decode true (p12Password clusterKey) = Ok clusterKey)
  /\ base64_decode true (str "YR==") = Ok (str "a") /\ base64_decode true (str "YQ" ++ byte_of 10 :: str "==")%list = Ok (str "a")
  /\ p12Password (str "a") = str "YQ==".
Proof. split; [apply base64_decode_encode|]. by vm_compute. Qed.
