(* ===== verification/CertInstance.v ===== *)
(** * A small implementation of the certificate interfaces

    Keys, encodings, identifiers and stores with which the theorems on
    certificates are evaluated: every law of [CryptoSpec], [X509Spec],
    [UuidV5Spec], [TrustStoresSpec] and [BundlesSpec] is proved of it. *)

From S2P Require Import Prelude GoStrings Netip Json Encoding X509 CertKeys CertChain Storage GoUrl StorageTree CertCache CertCA.

Open Scope Z_scope.

(** ** Serialisation *)

(** A field is preceded by its length, so that fields can be told apart. *)
Definition field (b : bytes) : bytes := (fmt_d (Z.of_nat (length b)) ++ ":"%char :: b)%list.

Definition take_field (s : bytes) : option (bytes * bytes) :=
  match Cut ":" s with
  | Some (d, rest) =>
      let n := Z.to_nat (dec_val d) in
      if (n <=? length rest)%nat then Some (take n rest, drop n rest) else None
  | None => None
  end.

Fixpoint take_fields (fuel : nat) (s : bytes) : option (list bytes) :=
  match s, fuel with
  | [], _ => Some []
  | _, O => None
  | _, S fuel =>
      match take_field s with
      | Some (f, rest) => cons f <$> take_fields fuel rest
      | None => None
      end
  end.

(** Values and their bytes. *)
Class Serial (A : Type) : Type := {
  ser : A -> bytes;
  unser : bytes -> option A;
  unser_ser a : unser (ser a) = Some a }.

Lemma digit_not_colon n : 0 <= n -> ":"%char ∉ fmt_d n.
Proof.
  intros Hn Hin. assert (forallb is_digit (fmt_d n) = true) as Hd.
  { apply digits_all; [lia|apply dec_digit_is_digit|done]. }
  rewrite forallb_forall in Hd. apply list_elem_of_In, Hd in Hin. done.
Qed.

Lemma take_field_field b rest : take_field (field b ++ rest)%list = Some (b, rest).
Proof.
  unfold take_field, field. rewrite <- app_assoc. cbn [app].
  rewrite Cut_app, dec_val_fmt_d by (try lia; apply digit_not_colon; lia).
  rewrite Nat2Z.id, length_app. destruct (Nat.leb_spec (length b) (length b + length rest)); [|lia].
  by rewrite take_app_length, drop_app_length.
Qed.

Definition fields (l : list bytes) : bytes := concat (map field l).

Lemma take_fields_fields l fuel : (length (fields l) <= fuel)%nat -> take_fields fuel (fields l) = Some l.
Proof.
  revert fuel. induction l as [|b l IH]; intros fuel Hf; [by destruct fuel|].
  unfold fields in *. cbn [map concat] in *. rewrite length_app in Hf. unfold field at 1 in Hf. rewrite length_app in Hf.
  destruct fuel as [|fuel]; [cbn in Hf; lia|]. cbn [take_fields].
  destruct (field b ++ concat (map field l))%list as [|c s] eqn:E.
  { apply (f_equal length) in E. rewrite length_app in E. unfold field in E. rewrite length_app in E. cbn in E. lia. }
  rewrite <- E, take_field_field, IH by (cbn in Hf; lia). done.
Qed.

Lemma field_prefix a b x y : (field a ++ x = field b ++ y)%list -> a = b.
Proof.
  intros E. apply (f_equal take_field) in E. rewrite !take_field_field in E. by injection E as ->.
Qed.

#[export] Instance serial_bytes : Serial bytes := {| ser b := b; unser b := Some b; unser_ser _ := eq_refl |}.

Definition unser_list {A} `{Serial A} (b : bytes) : option (list A) := take_fields (length b) b ≫= mapM unser.

#[export] Program Instance serial_list {A} `{Serial A} : Serial (list A) := {|
  ser l := fields (map ser l); unser := unser_list |}.
Next Obligation.
  intros A H l. unfold unser_list. rewrite take_fields_fields by done. cbn. induction l as [|a l IH]; [done|].
  cbn. rewrite unser_ser. cbn. by rewrite IH.
Qed.

Definition unser_pair {A B} `{Serial A} `{Serial B} (b : bytes) : option (A * B) :=
  match take_fields (length b) b with
  | Some [x; y] => match unser x, unser y with Some a, Some b => Some (a, b) | _, _ => None end
  | _ => None
  end.

#[export] Program Instance serial_pair {A B} `{Serial A} `{Serial B} : Serial (A * B) := {|
  ser p := fields [ser (fst p); ser (snd p)]; unser := unser_pair |}.
Next Obligation. intros A B ? ? [a b]. unfold unser_pair. rewrite take_fields_fields by done. by rewrite !unser_ser. Qed.

(** Numbers by their sign and bytes. *)
Definition num_bytes (v : Z) : nat := S (Z.to_nat (Z.log2 v / 8)).

Definition ser_Z (z : Z) : bytes :=
  (if z <? 0 then "-"%char else "+"%char) :: map byte_of (be_bytes (num_bytes (Z.abs z)) (Z.abs z)).

Definition unser_Z (b : bytes) : option Z :=
  match b with
  | c :: t => Some (if Ascii.eqb c "-" then - SetBytes t else SetBytes t)
  | [] => None
  end.

Lemma num_bytes_enough v : 0 <= v -> v < 256 ^ Z.of_nat (num_bytes v).
Proof.
  intros Hv. destruct (Z.eq_dec v 0) as [->|Hne]; [done|]. unfold num_bytes.
  pose proof (Z.log2_nonneg v). rewrite Nat2Z.inj_succ, Z2Nat.id by (apply Z.div_pos; lia).
  change 256 with (2 ^ 8). rewrite <- Z.pow_mul_r by (pose proof (Z.div_pos (Z.log2 v) 8); lia).
  destruct (Z.log2_spec v ltac:(lia)) as [_ Hl]. eapply Z.lt_le_trans; [exact Hl|]. apply Z.pow_le_mono_r; [lia|].
  pose proof (Z.mod_pos_bound (Z.log2 v) 8 ltac:(lia)). pose proof (Z.div_mod (Z.log2 v) 8 ltac:(lia)). lia.
Qed.

Lemma SetBytes_be n v : 0 <= v < 256 ^ Z.of_nat n -> SetBytes (map byte_of (be_bytes n v)) = v.
Proof.
  intros Hv. unfold SetBytes. rewrite map_map. rewrite <- (of_be_be_bytes n v Hv) at 2. f_equal.
  rewrite <- (map_id (be_bytes n v)) at 2. apply map_ext_in. intros x Hx. apply byte_val_of.
  pose proof (be_bytes_ok n v) as Hok. unfold bytes_ok in Hok. rewrite Forall_forall in Hok. by apply Hok, list_elem_of_In.
Qed.

#[export] Program Instance serial_Z : Serial Z := {| ser := ser_Z; unser := unser_Z |}.
Next Obligation.
  intros z. unfold ser_Z, unser_Z. pose proof (num_bytes_enough (Z.abs z)) as H.
  destruct (Z.ltb_spec z 0); cbn [Ascii.eqb]; (rewrite SetBytes_be by lia); cbn; f_equal; lia.
Qed.

#[export] Program Instance serial_bool : Serial bool := {|
  ser b := if b then str "t" else str "f"; unser s := Some (bool_decide (s = str "t")) |}.
Next Obligation. by intros []. Qed.

(** A type that embeds into another. *)
Definition serial_via {A B} `{Serial B} (f : A -> B) (g : B -> A) (gf : forall a, g (f a) = a) : Serial A.
Proof.
  refine {| ser a := ser (f a); unser b := g <$> unser b |}.
  intros a. rewrite unser_ser. cbn. by rewrite gf.
Defined.

#[export] Instance serial_Name : Serial Name :=
  serial_via
    (fun n => [Country n; Organization n; OrganizationalUnit n; Locality n; Province n; StreetAddress n; PostalCode n;
               [NameSerial n; CommonName n]])
    (fun l => match l with
              | [c; o; ou; lo; p; s; po; [ns; cn]] =>
                  {| Country := c; Organization := o; OrganizationalUnit := ou; Locality := lo; Province := p;
                     StreetAddress := s; PostalCode := po; NameSerial := ns; CommonName := cn |}
              | _ => common_name []
              end)
    ltac:(by intros []).

#[export] Instance serial_SANs : Serial SANs :=
  serial_via (fun s => (DNSNames s, EmailAddresses s, (IPAddresses s, URIs s)))
    (fun t => let '(d, e, (i, u)) := t in {| DNSNames := d; EmailAddresses := e; IPAddresses := i; URIs := u |})
    ltac:(by intros []).

#[export] Instance serial_Extension : Serial Extension :=
  serial_via (fun e => (ext_Id e, (ext_Critical e, ext_Value e)))
    (fun t => let '(i, (c, v)) := t in {| ext_Id := i; ext_Critical := c; ext_Value := v |})
    ltac:(by intros []).

Definition curve_number (c : curve) : Z := match c with P224 => 224 | P256 => 256 | P384 => 384 | P521 => 521 end.
Definition number_curve (z : Z) : curve := if z =? 224 then P224 else if z =? 256 then P256 else if z =? 384 then P384 else P521.

#[export] Instance serial_PublicKey : Serial PublicKey :=
  serial_via
    (fun k => match k with ECDSAKey c p => (curve_number c, p) | OtherKey d => (0, d) | UnknownKey => (1, []) end)
    (fun t => let '(n, b) := t in if n =? 0 then OtherKey b else if n =? 1 then UnknownKey else ECDSAKey (number_curve n) b)
    ltac:(by intros [[]| |]).

#[export] Instance serial_TBS : Serial TBS :=
  serial_via
    (fun t => ((tbs_SerialNumber t, (tbs_NotBefore t, tbs_NotAfter t)), (tbs_Issuer t, tbs_Subject t), (tbs_PublicKey t, tbs_Extensions t)))
    (fun t => let '((s, (nb, na)), (i, sub), (k, e)) := t in
      {| tbs_SerialNumber := s; tbs_Issuer := i; tbs_NotBefore := nb; tbs_NotAfter := na; tbs_Subject := sub;
         tbs_PublicKey := k; tbs_Extensions := e |})
    ltac:(by intros []).

#[export] Instance serial_PrivateKey : Serial PrivateKey :=
  serial_via (fun k => (curve_number (k_Curve k), k_D k))
    (fun t => let '(n, d) := t in {| k_Curve := number_curve n; k_D := d |}) ltac:(by intros [[]]).

(** ** Keys and signatures *)

Definition toy_point (c : curve) (d : Z) : bytes := ser (curve_number c, d).

(** A signature is the signer's point: whoever knows the key can be told apart, and
    nothing else. *)
Definition toy_crypto : Crypto := {|
  ScalarBaseMult := toy_point;
  SignASN1 k m r := toy_point (k_Curve k) (k_D k);
  checkSignature pub m s :=
    match pub with ECDSAKey c p => bool_decide (s = p) | OtherKey d => bool_decide (s = d) | UnknownKey => false end;
  hkdf_Extract secret salt := Ok (secret ++ salt)%list;
  hkdf_Expand prk info n :=
    if (0 <=? n) && (n <=? 255 * 32)
    then Ok (take (Z.to_nat n) (rev prk ++ info ++ replicate (Z.to_nat n) NUL)%list) else Error "hkdf: requested key length too large";
  keyIdentifier pub := match pub with ECDSAKey _ p => take 20 p | OtherKey d => take 20 d | UnknownKey => [] end |}.

#[local] Existing Instance toy_crypto.

Lemma toy_crypto_spec : CryptoSpec.
Proof.
  split; [|done|by eexists|].
  - intros k m r. by apply bool_decide_eq_true.
  - intros prk info n Hn. cbn [hkdf_Expand toy_crypto].
    assert ((0 <=? n) && (n <=? 255 * 32) = true) as -> by (apply andb_true_intro; split; lia).
    eexists. split; [done|]. rewrite length_take, !length_app, length_replicate. lia.
Qed.

(** ** Certificates *)

Definition parse_body {A} `{Serial A} (f : A -> ext_body) (ok : A -> bool) (v : bytes) : result ext_body :=
  match unser v with
  | Some a => if ok a then Ok (f a) else Error "x509: invalid extension"
  | None => Error "x509: invalid extension"
  end.

Definition toy_marshalExt (b : ext_body) : result bytes :=
  match b with
  | BodyKeyUsage u => Ok (ser u)
  | BodyExtKeyUsage known unknown => Ok (ser (known, unknown))
  | BodyBasicConstraints ca n => Ok (ser (ca, n))
  | BodySubjectAltName s => Ok (ser s)
  | BodySubjectKeyId id | BodyAuthorityKeyId id => Ok id
  | BodyOther => Error "x509: unknown extension"
  end.

Definition toy_parseExt (o : oid) (v : bytes) : result ext_body :=
  if bool_decide (o = oidKeyUsage) then parse_body BodyKeyUsage (fun u => (0 <=? u) && (u <? 512)) v
  else if bool_decide (o = oidExtKeyUsage) then parse_body (fun ku : list Z * list oid => BodyExtKeyUsage (fst ku) (snd ku)) (fun _ => true) v
  else if bool_decide (o = oidBasicConstraints) then parse_body (fun cn : bool * Z => BodyBasicConstraints (fst cn) (snd cn)) (fun cn => -1 <=? snd cn) v
  else if bool_decide (o = oidSubjectAltName) then parse_body BodySubjectAltName (fun _ => true) v
  else if bool_decide (o = oidSubjectKeyId) then Ok (BodySubjectKeyId v)
  else if bool_decide (o = oidAuthorityKeyId) then Ok (BodyAuthorityKeyId v)
  else Ok BodyOther.

Definition toy_der (t : TBS) (s : bytes) : bytes := field (ser (t, s)).

(** The conditions of the parser on what was signed. *)
Definition tbs_fine (t : TBS) : bool :=
  (0 <=? tbs_SerialNumber t) && bool_decide (is_Some (unser (A:=Name) (tbs_Issuer t)))
  && time_ok (tbs_NotBefore t) && time_ok (tbs_NotAfter t)
  && (whole_seconds (tbs_NotBefore t) =? tbs_NotBefore t) && (whole_seconds (tbs_NotAfter t) =? tbs_NotAfter t)
  && bool_decide (NoDup (map ext_Id (tbs_Extensions t))).

(** The encoders, without the parser of certificates. *)
Definition toy_codec : X509 := {|
  marshalName n := Ok (ser n);
  parseName b := of_option "x509: invalid name" (unser b);
  marshalExt := toy_marshalExt;
  parseExt := toy_parseExt;
  marshalTBS := ser;
  marshalCertificate := toy_der;
  ParseCertificate der := Error "x509: unreadable" |}.

Definition toy_parse (der : bytes) : result Certificate :=
  match take_field der with
  | Some (b, []) =>
      match unser (A:=TBS * bytes) b with
      | Some (t, s) =>
          if bool_decide (der = toy_der t s) && tbs_fine t then
            n ← of_option "x509: invalid name" (unser (tbs_Subject t));
            i ← processExtensions (H := toy_codec) no_info (tbs_Extensions t);
            Ok (view (H := toy_codec) t s n i)
          else Error "x509: malformed certificate"
      | None => Error "x509: malformed certificate"
      end
  | _ => Error "x509: malformed certificate"
  end.

Definition toy_x509 : X509 := {|
  marshalName n := Ok (ser n);
  parseName b := of_option "x509: invalid name" (unser b);
  marshalExt := toy_marshalExt;
  parseExt := toy_parseExt;
  marshalTBS := ser;
  marshalCertificate := toy_der;
  ParseCertificate := toy_parse |}.
#[local] Existing Instance toy_x509.

Lemma processExtensions_codec i exts : processExtensions (H := toy_codec) i exts = processExtensions i exts.
Proof. revert i. induction exts as [|e exts IH]; intros i; [done|]. cbn. destruct (toy_parseExt _ _); cbn; [apply IH|done]. Qed.

Lemma toy_parse_spec der c :
  toy_parse der = Ok c ->
  exists t s n i, der = toy_der t s /\ tbs_fine t = true /\ parseName (tbs_Subject t) = Ok n
    /\ processExtensions no_info (tbs_Extensions t) = Ok i /\ c = view t s n i.
Proof.
  unfold toy_parse. destruct (take_field der) as [[b [|]]|]; try done. destruct (unser b) as [[t s]|]; [|done].
  destruct (bool_decide (der = toy_der t s)) eqn:E; [|done]. apply bool_decide_eq_true in E. cbn [andb].
  destruct (tbs_fine t) eqn:Ef; [|done]. rewrite processExtensions_codec. intros H.
  apply result_bind_ok in H as (n & Hn & H). apply result_bind_ok in H as (i & Hi & H). injection H as <-.
  exists t, s, n, i. done.
Qed.

Lemma toy_parse_der t s n i :
  tbs_fine t = true -> parseName (tbs_Subject t) = Ok n -> processExtensions no_info (tbs_Extensions t) = Ok i ->
  toy_parse (toy_der t s) = Ok (view t s n i).
Proof.
  intros Hf Hn Hi. unfold toy_parse, toy_der at 1. rewrite <- (app_nil_r (field _)), take_field_field. cbn [app].
  rewrite unser_ser, Hf, processExtensions_codec. rewrite bool_decide_true by done. cbn [andb].
  cbn [parseName toy_x509] in Hn. rewrite Hn. cbn. by rewrite Hi.
Qed.

Lemma parse_body_ok {A} `{Serial A} (f : A -> ext_body) ok a : ok a = true -> parse_body f ok (ser a) = Ok (f a).
Proof. intros Ha. unfold parse_body. by rewrite unser_ser, Ha. Qed.

Lemma parse_body_inv {A} `{Serial A} (f : A -> ext_body) ok v b :
  parse_body f ok v = Ok b -> exists a, b = f a /\ ok a = true.
Proof. unfold parse_body. destruct (unser v) as [a|]; [|done]. destruct (ok a) eqn:E; [|done]. intros [= <-]. eauto. Qed.

Lemma tbs_fine_spec t :
  tbs_fine t = true <->
  0 <= tbs_SerialNumber t /\ is_Some (unser (A:=Name) (tbs_Issuer t)) /\ time_ok (tbs_NotBefore t) = true
  /\ time_ok (tbs_NotAfter t) = true /\ whole_seconds (tbs_NotBefore t) = tbs_NotBefore t
  /\ whole_seconds (tbs_NotAfter t) = tbs_NotAfter t /\ NoDup (map ext_Id (tbs_Extensions t)).
Proof. unfold tbs_fine. rewrite !andb_true_iff, !bool_decide_eq_true, Z.leb_le, !Z.eqb_eq. tauto. Qed.

Definition toy_x509_spec : X509Spec.
Proof.
  refine {| known_usage := fun _ => false |}.
  - intros n b H. assert (b = ser n) as -> by (cbn [marshalName toy_x509] in H; congruence).
    exists n. cbn [parseName toy_x509]. by rewrite unser_ser.
  - intros b v Hb Hv. destruct b; cbn [marshalExt toy_x509 toy_marshalExt] in Hv; try done; apply (inj Ok) in Hv; subst v;
      cbn [parseExt toy_x509 body_oid]; unfold toy_parseExt.
    + rewrite bool_decide_true by done. apply parse_body_ok. cbn in Hb. apply andb_true_intro. split; lia.
    + do 1 rewrite bool_decide_false by done. rewrite bool_decide_true by done. by rewrite (parse_body_ok _ _ (known, unknown)).
    + do 2 rewrite bool_decide_false by done. rewrite bool_decide_true by done. cbn in Hb.
      rewrite (parse_body_ok _ _ (isCA, maxPathLen)); [done|]. cbn. lia.
    + do 3 rewrite bool_decide_false by done. rewrite bool_decide_true by done. by apply parse_body_ok.
    + do 4 rewrite bool_decide_false by done. by rewrite bool_decide_true by done.
    + do 5 rewrite bool_decide_false by done. by rewrite bool_decide_true by done.
  - intros b Hb Hm. by destruct b.
  - intros o v b H. cbn [parseExt toy_x509] in H. unfold toy_parseExt in H.
    repeat (case_bool_decide; [subst o; first [apply parse_body_inv in H as (a & -> & Ha) | injection H as <-]; cbn in *; try done|]).
    + split; [done|]. apply andb_prop in Ha as [? ?]. lia.
    + split; [done|]. by apply Forall_true.
    + split; [done|]. lia.
    + injection H as <-. done.
  - intros t s n i H1 H2 H3 H4 H5 H6 H7 H8 H9. apply toy_parse_der; try done. apply tbs_fine_spec.
    cbn [parseName toy_x509] in H2. destruct (unser (tbs_Issuer t)) eqn:E; [|done]. by split_and!.
  - intros der c (t & s & n & i & -> & _ & _ & _ & ->)%toy_parse_spec. done.
  - done.
  - intros der der' c c' a b (t & s & _ & _ & -> & _)%toy_parse_spec (t' & s' & _ & _ & -> & _)%toy_parse_spec E.
    unfold toy_der in *. by apply field_prefix in E as ->.
  - intros der c (t & s & n & i & -> & (_ & _ & H1 & H2 & H3 & H4 & H5)%tbs_fine_spec & Hn & Hi & ->)%toy_parse_spec.
    by split_and!.
Defined.

(** ** Identifiers *)

Definition toy_hash (d : bytes) : Z := foldl (fun h c => (h * 257 + byte_val c + 1) mod 2 ^ 128) 7 d.

Definition toy_hex (h : Z) : bytes := flat_map (fun b => [hex_digit (b / 16); hex_digit (b mod 16)]) (be_bytes 16 h).

Definition dashed (x : bytes) : bytes :=
  (take 8 x ++ str "-" ++ take 4 (drop 8 x) ++ str "-" ++ take 4 (drop 12 x) ++ str "-" ++ take 4 (drop 16 x)
   ++ str "-" ++ drop 20 x)%list.

Definition toy_uuids : UuidV5 := {| NewSHA1 ns d := dashed (toy_hex (toy_hash (ns ++ d))) |}.

Lemma hex_digit_hex d : 0 <= d < 16 -> is_hex (hex_digit d) = true.
Proof.
  intros Hd. assert (forallb (fun k => is_hex (hex_digit (Z.of_nat k))) (seq 0 16) = true) as H by (vm_compute; reflexivity).
  rewrite forallb_forall in H. specialize (H (Z.to_nat d) ltac:(apply in_seq; lia)). by rewrite Z2Nat.id in H by lia.
Qed.

Lemma toy_hex_spec h : length (toy_hex h) = 32%nat /\ Forall (fun c => is_hex c = true) (toy_hex h).
Proof.
  unfold toy_hex. pose proof (length_be_bytes 16 h) as Hl. pose proof (be_bytes_ok 16 h) as Hb. split.
  - clear Hb. generalize dependent (be_bytes 16 h). intros l Hl. rewrite flat_map_concat_map.
    replace 32%nat with (2 * length l)%nat by lia. clear Hl. induction l as [|b l IH]; [done|]. cbn in *. lia.
  - clear Hl. induction Hb as [|b l Hb Hl IH]; [constructor|]. cbn. repeat (constructor; [apply hex_digit_hex|]); [| |done].
    + split; [apply Z.div_pos; lia|]. apply Z.div_lt_upper_bound; lia.
    + apply Z.mod_pos_bound. lia.
Qed.

Lemma dashed_uuid x : length x = 32%nat -> Forall (fun c => is_hex c = true) x -> uuid_chars 0 (dashed x) = true.
Proof.
  intros Hl Hx. do 32 (destruct x as [|? x]; [discriminate Hl|]). destruct x; [|discriminate Hl].
  repeat (apply Forall_cons in Hx as [? Hx]). unfold dashed. cbn [take drop app str list_ascii_of_string].
  cbn [uuid_chars]. repeat match goal with |- context [bool_decide (?n ∈ ?l)] =>
    let b := eval vm_compute in (bool_decide (n ∈ l)) in change (bool_decide (n ∈ l)) with b end.
  repeat match goal with H : is_hex ?c = true |- context [is_hex ?c] => rewrite H end. done.
Qed.

Lemma toy_uuids_spec : @UuidV5Spec toy_uuids.
Proof. split. intros ns d. cbn [NewSHA1 toy_uuids]. destruct (toy_hex_spec (toy_hash (ns ++ d))). by apply dashed_uuid. Qed.

(** ** Stores *)

Definition parse_all (l : list bytes) : result (list Certificate) := mapM ParseCertificate l.

(** A trust store returns its certificates in the opposite order. *)
Definition toy_stores : TrustStores := {|
  EncodeTrustStoreEntries r entries pw := Ok (ser (pw, rev (map (fun e => Raw (fst e)) entries)));
  DecodeTrustStore data pw :=
    match unser (A:=bytes * list bytes) data with
    | Some (pw', l) => if bool_decide (pw' = pw) then parse_all l else Error "pkcs12: decryption password incorrect"
    | None => Error "pkcs12: error reading P12 data"
    end |}.

Lemma parse_all_raw l : Forall parsed l -> parse_all (map Raw l) = Ok l.
Proof.
  intros H. apply mapM_ok. induction H as [|c l Hc H IH]; constructor; [exact Hc|exact IH].
Qed.

Lemma toy_stores_spec : @TrustStoresSpec toy_x509 toy_stores.
Proof.
  split. intros r entries pw data Hp H. cbn [EncodeTrustStoreEntries toy_stores] in H. apply (inj Ok) in H. subst data.
  exists (rev (map fst entries)). cbn [DecodeTrustStore toy_stores]. rewrite unser_ser, bool_decide_true by done.
  split; [|symmetry; apply Permutation_rev]. rewrite <- (map_map fst Raw), <- map_rev. apply parse_all_raw.
  by rewrite <- Permutation_rev.
Qed.

Definition toy_bundles : Bundles := {|
  EncodeBundle r k c cas pw := Ok (ser (pw, (k, map Raw (c :: cas))));
  DecodeChain data pw :=
    match unser (A:=bytes * (PrivateKey * list bytes)) data with
    | Some (pw', (k, l)) =>
        if bool_decide (pw' = pw) then
          certs ← parse_all l;
          match certs with c :: cas => Ok (ECDSAPrivate k, c, cas) | [] => Error "pkcs12: certificate missing" end
        else Error "pkcs12: decryption password incorrect"
    | None => Error "pkcs12: error reading P12 data"
    end |}.

Lemma toy_bundles_spec : @BundlesSpec toy_x509 toy_bundles.
Proof.
  split.
  - intros r k c cas pw data Hp H. cbn [EncodeBundle toy_bundles] in H. apply (inj Ok) in H. subst data.
    cbn [DecodeChain toy_bundles]. rewrite unser_ser, bool_decide_true by done. rewrite parse_all_raw by done. done.
  - intros data pw k c cas H. cbn [DecodeChain toy_bundles] in H. destruct (unser data) as [[pw' [k' l]]|]; [|done].
    case_bool_decide; [|done]. apply result_bind_ok in H as (certs & Hc & H). apply mapM_ok in Hc.
    destruct Hc as [|x y l' certs Hx Hc]; [done|]. injection H as _ <- _.
    unfold parsed. cbn [ParseCertificate toy_x509] in Hx |- *. destruct (toy_parse_spec _ _ Hx) as (t & s & n & i & -> & _ & _ & _ & ->). exact Hx.
Qed.
