(* ===== verification/CertSamples.v ===== *)
(** * Certificates, evaluated

    A proxy that starts on an empty disk, and upstreams with chains of one to three
    certificates, in the small implementation of [CertInstance]. *)

From S2P Require Import Prelude GoStrings Netip Encoding X509 CertKeys CertChain Storage GoUrl StorageTree StorageS3 CertCache CertCorrect CertSelf CertCA CertInstance.

Open Scope Z_scope.

#[local] Existing Instance toy_digests.
#[local] Existing Instance toy_crypto.
#[local] Existing Instance toy_crypto_spec.
#[local] Existing Instance toy_x509.
#[local] Existing Instance toy_x509_spec.
#[local] Existing Instance toy_uuids.
#[local] Existing Instance toy_uuids_spec.
#[local] Existing Instance toy_stores.
#[local] Existing Instance toy_stores_spec.
#[local] Existing Instance toy_bundles.
#[local] Existing Instance toy_bundles_spec.

(** ** Upstreams *)

Definition sample_time : Z := 1700000000 * second.

Definition sample_key (d : Z) : PrivateKey := {| k_Curve := P256; k_D := d |}.

Definition blank : Certificate :=
  {| Raw := []; RawTBS := []; Signature := []; CertVersion := 3; SerialNumber := 0; RawIssuer := []; RawSubject := [];
     Subject := common_name []; NotBefore := 0; NotAfter := 0; CertPublicKey := UnknownKey; Extensions := []; Info := no_info |}.

(** The certificate of a template. *)
Definition issue (tmpl : Template) (p : parent) (key signer : PrivateKey) : Certificate :=
  match CreateCertificate 0 tmpl p (Public key) signer with
  | Ok der => match ParseCertificate der with Ok c => c | Error _ => blank end
  | Error _ => blank
  end.

Definition ca_template (cn : bytes) (serial : Z) : Template :=
  {| tm_SerialNumber := serial; tm_Subject := common_name cn; tm_NotBefore := sample_time; tm_NotAfter := sample_time + 1000 * second;
     tm_Info :=
       {| KeyUsage := KeyUsageCertSign; ExtKeyUsage := []; UnknownExtKeyUsage := []; BasicConstraintsValid := true; IsCA := true;
          MaxPathLen := 0; MaxPathLenZero := false; Names := no_sans; SubjectKeyId := []; AuthorityKeyId := [] |};
     tm_ExtraExtensions := [] |}.

Definition real_root : Certificate := issue (ca_template (str "Real Root") 1) Self (sample_key 11) (sample_key 11).
Definition real_inter : Certificate := issue (ca_template (str "Real CA") 2) (Parent real_root) (sample_key 12) (sample_key 11).
Definition real_leaf : Certificate :=
  issue (serverTemplate 3 (str "a.example") sample_time (sample_time + 500 * second) [str "a.example"] [])
    (Parent real_inter) (sample_key 13) (sample_key 12).

Definition real_chain : list Certificate := [real_leaf; real_inter].

(** A server that sends its CA twice: the certificate its root issued, and the
    self-signed one of the same name. *)
Definition cross_self : Certificate := issue (ca_template (str "Real CA") 4) Self (sample_key 12) (sample_key 12).
Definition cross_chain : list Certificate := [real_leaf; real_inter; cross_self].

(** ** The proxy *)

Definition cluster_key : bytes := str "key".
Definition empty_disk : tree := {| t_fs := {| fs_files := ∅; fs_now := 0; fs_up := true |}; t_links := ∅ |}.

Definition first_start : result CA * tree * list tree :=
  LoadOrGenerateCA 0 sample_time (Ok (sample_key 5)) (Ok 77) empty_disk cluster_key.

Definition sample_ca : CA :=
  match fst (fst first_start) with Ok ca => ca | Error _ => {| ca_Cert := blank; ca_Key := sample_key 1; ca_Chain := []; ca_Generated := false |} end.
Definition sample_disk : tree := snd (fst first_start).
Definition sample_factory : CertFactory := NewCertFactory sample_ca (NewCertCache cluster_key sample_ca) cluster_key.

Definition summary (x : result TLSCertificate * CertFactory * tree) : option (nat * bytes) :=
  match fst (fst x) with Ok tc => Some (length (tc_Certificate tc), CommonName (Subject (tc_Leaf tc))) | Error _ => None end.

Definition no_certificate : TLSCertificate := {| tc_Certificate := []; tc_PrivateKey := sample_key 1; tc_Leaf := blank |}.

(** The parts of a call that succeeded. *)
Definition the_certificate (x : result TLSCertificate * CertFactory * tree) : TLSCertificate :=
  match fst (fst x) with Ok tc => tc | Error _ => no_certificate end.

Lemma succeeded (x : result TLSCertificate * CertFactory * tree) :
  is_ok (fst (fst x)) = true -> x = (Ok (the_certificate x), snd (fst x), snd x).
Proof. by destruct x as [[[tc|e] f] w]. Qed.

Definition sample_mint := For 1 sample_factory sample_disk real_chain.
Definition sample_cross := For 1 sample_factory sample_disk cross_chain.

Lemma sample_ca_ok : ca_ok sample_ca /\ ca_signs sample_ca.
Proof.
  assert (exists ca, generateCA 0 sample_time (Ok (sample_key 5)) (Ok 77) = Ok ca /\ sample_ca = set_generated ca true) as (ca & Hg & ->).
  { unfold sample_ca, first_start, LoadOrGenerateCA. destruct (generateCA _ _ _ _) as [ca|] eqn:E; [|by vm_compute in E].
    exists ca. split; [done|]. revert E. vm_compute. intros [= <-]. reflexivity. }
  apply generateCA_spec in Hg as (Hok & Hs & _). done.
Qed.

Lemma sample_factory_ok : factory_ok sample_factory.
Proof. split; [apply sample_ca_ok|]. by exists ∅. Qed.

Lemma issue_parsed tmpl p key signer : bool_decide (Raw (issue tmpl p key signer) = []) = false -> parsed (issue tmpl p key signer).
Proof.
  unfold issue. destruct (CreateCertificate _ _ _ _ _) as [der|]; [|done].
  destruct (ParseCertificate der) as [c|] eqn:E; [|done]. intros _. unfold parsed. by rewrite (parse_raw _ _ E).
Qed.

Lemma real_parsed : Forall parsed real_chain /\ Forall parsed cross_chain.
Proof.
  assert (parsed real_leaf) by (apply issue_parsed; vm_compute; reflexivity).
  assert (parsed real_inter) by (apply issue_parsed; vm_compute; reflexivity).
  assert (parsed cross_self) by (apply issue_parsed; vm_compute; reflexivity).
  unfold real_chain, cross_chain. split; repeat (apply Forall_cons; split); first [apply Forall_nil; exact I | assumption].
Qed.

(** What is ever asked of the sample proxy. *)
Definition sample_asked (c : list Certificate) : Prop := c = real_chain \/ c = cross_chain.
Definition sample_selves (n : list bytes) : Prop := n = [str "Internal Proxy"; str "proxy.example"].

Lemma sample_disk_keys k : k ∈ dom (fs_files (t_fs sample_disk)) -> k = caKey \/ k = tupleKey.
Proof.
  intros Hk. assert (forallb (fun k => bool_decide (k = caKey) || bool_decide (k = tupleKey)) (elements (dom (fs_files (t_fs sample_disk)))) = true) as H
    by (vm_compute; reflexivity).
  rewrite forallb_forall in H. apply elem_of_elements, list_elem_of_In, H, orb_prop in Hk as [Hk|Hk]; apply bool_decide_eq_true in Hk; auto.
Qed.

Lemma sample_disk_plain k : tree_plain sample_disk k.
Proof.
  assert (bool_decide (elements (dom (t_links sample_disk)) = []) = true) as E%bool_decide_eq_true by (vm_compute; reflexivity).
  unfold tree_plain. apply not_elem_of_dom. intros Hk%elem_of_elements. rewrite E in Hk. by apply elem_of_nil in Hk.
Qed.

Lemma sample_inv : cache_inv sample_asked sample_selves sample_factory sample_disk.
Proof.
  split_and!; [by intros ? ? ?|intros id _; apply sample_disk_plain|]. intros id _. left. cbn [Get tree_storage].
  rewrite tree_Get_plain by apply sample_disk_plain. unfold posix_Get.
  assert (fs_up (t_fs sample_disk) = true) as -> by (vm_compute; reflexivity).
  destruct (fs_files (t_fs sample_disk) !! certKey id) as [f|] eqn:E; [|done].
  destruct (sample_disk_keys (certKey id)) as [Hk|Hk]; [by apply elem_of_dom_2 in E|discriminate Hk..].
Qed.

Lemma sample_unique : id_unique sample_asked sample_selves cluster_key real_chain.
Proof.
  split.
  - intros reals [->| ->] E; [reflexivity|]. exfalso.
    assert (bool_decide (certID (sanNamespace cluster_key) cross_chain = certID (sanNamespace cluster_key) real_chain) = false) as H
      by (vm_compute; reflexivity). apply bool_decide_eq_false in H. exact (H E).
  - intros names ->. assert (bool_decide (idFromFingerprint (sanNamespace cluster_key)
      (selfCertIdentityHash [str "Internal Proxy"; str "proxy.example"]) = certID (sanNamespace cluster_key) real_chain) = false) as H
      by (vm_compute; reflexivity). apply bool_decide_eq_false in H. exact H.
Qed.

(** The real chain is cloned, on the generated CA. *)
Lemma clone_chain_faithful_witness :
  is_ok (CloneChain 1 sample_ca cluster_key real_chain) = true
  /\ length (effectiveChain sample_ca real_chain) = 2%nat.
Proof.
  split; [|vm_compute; reflexivity].
  apply (clone_chain_faithful 1 sample_ca cluster_key real_chain); [apply sample_ca_ok|apply real_parsed|done|].
  unfold real_chain. repeat (apply Forall_cons; split); [| |constructor];
    (split_and!; [vm_compute; reflexivity|vm_compute; reflexivity|vm_compute; congruence]).
Defined.

Lemma served_certificate_valid_witness :
  served_ok sample_ca (the_certificate sample_mint) /\ length (tc_Certificate (the_certificate sample_mint)) = 3%nat.
Proof.
  split; [|vm_compute; reflexivity].
  apply (served_certificate_valid 1 sample_factory sample_disk real_chain _ (snd (fst sample_mint)) (snd sample_mint));
    [apply sample_factory_ok|apply real_parsed|apply succeeded; vm_compute; reflexivity].
Defined.

Lemma for_returns_clone_witness :
  exists synth, clones sample_ca cluster_key true real_chain synth /\ served_clone sample_factory synth (the_certificate sample_mint).
Proof.
  destruct (for_returns_clone sample_asked sample_selves 1 sample_factory sample_disk real_chain (the_certificate sample_mint)
    (snd (fst sample_mint)) (snd sample_mint)) as [(synth & Hc & Hs) _];
    [apply sample_factory_ok|apply sample_inv|by left|apply real_parsed|apply sample_unique|apply succeeded; vm_compute; reflexivity|].
  exists synth. split; [|exact Hs]. replace real_chain with (effectiveChain (f_ca sample_factory) real_chain); [exact Hc|].
  vm_compute. reflexivity.
Defined.

Lemma sample_miss_at id : exists c, get (f_cache sample_factory) sample_disk id = (Ok None, c).
Proof.
  exists (f_cache sample_factory). unfold get. cbn [cc_hot f_cache sample_factory NewCertFactory NewCertCache].
  rewrite lookup_empty.
  destruct (Get sample_disk (certKey id)) as [[data v]| |e] eqn:E; [|done|];
    cbn [Get tree_storage] in E; rewrite tree_Get_plain in E by apply sample_disk_plain; unfold posix_Get in E;
    (assert (fs_up (t_fs sample_disk) = true) as Hup by (vm_compute; reflexivity)); rewrite Hup in E;
    destruct (fs_files (t_fs sample_disk) !! certKey id) as [f|] eqn:Ef; try discriminate E.
  destruct (sample_disk_keys (certKey id)) as [Hk|Hk]; [by apply elem_of_dom_2 in Ef|discriminate Hk..].
Qed.

Lemma sample_intermediates :
  Forall (fun c => IsCA (Info c) = true) (tail (effectiveChain sample_ca real_chain))
  /\ Forall (fun c => IsCA (Info c) = true) (tail (effectiveChain sample_ca cross_chain)).
Proof.
  assert (snd (issuanceBudget sample_ca) = false) as Hb by (vm_compute; reflexivity).
  unfold effectiveChain. destruct (issuanceBudget sample_ca) as [b c]. cbn in Hb. subst c. cbn [andb tail real_chain cross_chain].
  split; repeat (apply Forall_cons; split); first [apply Forall_nil; exact I | vm_compute; reflexivity].
Qed.

(** The subjects of the sample chains, as they are encoded. *)
Definition encoded_subjects (chain : list Certificate) : list bytes := map (fun c => ser (Subject c)) chain.

Lemma sample_subjects ck reals synth :
  clones sample_ca ck true reals synth -> subjects (map fst synth) = encoded_subjects reals.
Proof. intros Hc. apply (clones_subjects _ _ _ _ _ _ Hc). unfold encoded_subjects. clear Hc. induction reals; constructor; [reflexivity|assumption]. Qed.

Lemma sample_effective : effectiveChain sample_ca real_chain = real_chain /\ effectiveChain sample_ca cross_chain = cross_chain.
Proof.
  assert (snd (issuanceBudget sample_ca) = false) as Hb by (vm_compute; reflexivity).
  unfold effectiveChain. destruct (issuanceBudget sample_ca) as [b c]. cbn in Hb. by subst c.
Qed.

(** The chain with distinct subjects is served again after a restart; the one with
    a subject twice is minted, served, and then fails for ever. *)
Lemma minted_chain_reload_witness :
  (exists f'', For 2 (restarted sample_factory) (snd sample_mint) real_chain = (Ok (the_certificate sample_mint), f'', snd sample_mint))
  /\ (exists e, For 2 (restarted sample_factory) (snd sample_cross) cross_chain = (Error e, restarted sample_factory, snd sample_cross)).
Proof.
  destruct (sample_miss_at (IDFor (f_cache sample_factory) real_chain)) as (c & Hc), (sample_miss_at (IDFor (f_cache sample_factory) cross_chain)) as (c' & Hc'). split.
  - destruct (minted_chain_reload sample_asked sample_selves 1 sample_factory sample_disk c real_chain (the_certificate sample_mint)
      (snd (fst sample_mint)) (snd sample_mint) sample_factory_ok sample_inv (or_introl eq_refl) (proj1 real_parsed)
      (proj2 sample_ca_ok) (proj1 sample_intermediates) Hc) as (synth & Hs & Hcl & H); [apply succeeded; vm_compute; reflexivity|].
    apply (H 2%nat). cbn [f_ca f_keys sample_factory NewCertFactory] in Hcl. rewrite (proj1 sample_effective) in Hcl. apply (clones_reloadable _ _ _ _ _ Hcl).
    + by destruct Hs as (? & ? & ? & -> & _).
    + rewrite (sample_subjects _ _ _ Hcl). apply (bool_decide_unpack _). vm_compute. exact I.
  - destruct (minted_chain_reload sample_asked sample_selves 1 sample_factory sample_disk c' cross_chain (the_certificate sample_cross)
      (snd (fst sample_cross)) (snd sample_cross) sample_factory_ok sample_inv (or_intror eq_refl) (proj2 real_parsed)
      (proj2 sample_ca_ok) (proj2 sample_intermediates) Hc') as (synth & Hs & Hcl & H); [apply succeeded; vm_compute; reflexivity|].
    apply (H 2%nat). cbn [f_ca f_keys sample_factory NewCertFactory] in Hcl. rewrite (proj2 sample_effective) in Hcl. intros [Hn _]. rewrite (sample_subjects _ _ _ Hcl) in Hn.
    revert Hn. apply (bool_decide_unpack _). vm_compute. exact I.
Defined.

(** ** The CA *)

Lemma empty_disk_plain k : tree_plain empty_disk k.
Proof. apply lookup_empty. Qed.

Lemma first_start_ok : first_start = (Ok sample_ca, sample_disk, snd first_start).
Proof.
  assert (is_ok (fst (fst first_start)) = true) as H by (vm_compute; reflexivity).
  unfold sample_ca, sample_disk. destruct first_start as [[[ca|e] w] h]; [reflexivity|discriminate H].
Qed.

Lemma ca_load_reconciled_witness :
  length (snd first_start) = 3%nat
  /\ (forall x, x ∈ sample_disk :: snd first_start -> Get x tupleKey = SNotExist \/ no_leaves x) /\ no_leaves sample_disk.
Proof.
  split; [vm_compute; reflexivity|].
  destruct (ca_load_reconciled 0 sample_time (Ok (sample_key 5)) (Ok 77) empty_disk cluster_key (Ok sample_ca) sample_disk (snd first_start)) as [H1 H2];
    [apply empty_disk_plain|apply empty_disk_plain|exact first_start_ok|].
  split; [exact H1|]. destruct (H2 sample_ca eq_refl) as (_ & _ & _ & [[Hg _]|Hn]); [|exact Hn].
  exfalso. revert Hg. assert (ca_Generated sample_ca = true) as -> by (vm_compute; reflexivity). discriminate.
Defined.

Lemma generated_ca_survives_witness :
  LoadOrGenerateCA 9 (sample_time + hour) (Error "no entropy") (Error "no entropy") sample_disk cluster_key
  = (Ok (set_generated sample_ca false), sample_disk, []).
Proof.
  apply (generated_ca_survives 0 sample_time (sample_key 5) (Ok 77) empty_disk cluster_key sample_ca sample_disk (snd first_start));
    [apply empty_disk_plain|apply empty_disk_plain|reflexivity|vm_compute; reflexivity|exact first_start_ok|].
  split; apply Z.leb_le; vm_compute; reflexivity.
Defined.

(** ** The listener *)

Definition listener_names : list bytes := [str "Internal Proxy"; str "proxy.example"; str "10.0.0.1"].
Definition sample_self := SelfCert 1 sample_factory sample_disk sample_time listener_names.

(** The first name is no host name: it is the common name and no alternative name. *)
Lemma self_cert_minted_witness :
  let leaf := tc_Leaf (the_certificate sample_self) in
  Some (str "Internal Proxy") = Some (CommonName (Subject leaf)) /\ str "proxy.example" ∈ DNSNames (Names (Info leaf))
  /\ str "Internal Proxy" ∉ DNSNames (Names (Info leaf)).
Proof.
  destruct (sample_miss_at (SelfCertIDFor (f_cache sample_factory) listener_names)) as (c & Hc).
  destruct (self_cert_minted 1 sample_factory sample_disk sample_time listener_names (the_certificate sample_self)
    (snd (fst sample_self)) (snd sample_self) c sample_factory_ok Hc) as (_ & Hcn & _ & Hd & _); [apply succeeded; vm_compute; reflexivity|].
  split; [exact Hcn|]. split.
  - apply Hd. split; [right; left|]. split; vm_compute; reflexivity.
  - intros (_ & _ & H)%Hd. vm_compute in H. discriminate H.
Defined.

(** The salt of the leaf does not depend on the order of its names. *)
Definition named (dns : list bytes) : Certificate :=
  {| Raw := []; RawTBS := []; Signature := []; CertVersion := 3; SerialNumber := 0; RawIssuer := []; RawSubject := [];
     Subject := common_name []; NotBefore := 0; NotAfter := 0; CertPublicKey := UnknownKey; Extensions := [];
     Info := {| KeyUsage := 0; ExtKeyUsage := []; UnknownExtKeyUsage := []; BasicConstraintsValid := false; IsCA := false; MaxPathLen := 0;
        MaxPathLenZero := false; Names := {| DNSNames := dns; EmailAddresses := []; IPAddresses := []; URIs := [] |};
        SubjectKeyId := []; AuthorityKeyId := [] |} |}.

Lemma leaf_salt_identity_witness :
  let c := named [str "a.example"; str "b.example"] in let c' := named [str "b.example"; str "a.example"] in
  leafSalt (typeTaggedSANStrings c) = leafSalt (typeTaggedSANStrings c') <-> same_names c c'.
Proof.
  apply (leaf_salt_identity (named _) (named _)).
  - repeat split; repeat constructor; apply (bool_decide_unpack _); vm_compute; exact I.
  - repeat split; repeat constructor; apply (bool_decide_unpack _); vm_compute; exact I.
  - intros _. vm_compute. reflexivity.
Defined.

(** ** A start on S3 *)

(** A bucket with a leaf of an earlier CA, whose listings fail. *)
Definition stale_key : bytes := str "leaf/certs/ab/cd/ef/0123.p12".
Definition stale_bucket : store_world :=
  {| sw_objects := {[ str "b" := {[ stale_key := str "old" ]} ]}; sw_up := true; sw_lists := false |}.

Definition s3_start : result CA * store_world * list store_world :=
  LoadOrGenerateCA (ST := s3_storage (str "b")) (TS := s3_tree (str "b"))
    0 sample_time (Ok (sample_key 5)) (Ok 77) stale_bucket cluster_key.

(** The start succeeds and writes the tuple of its new CA over the old leaf. *)
Theorem s3_start_keeps_old_leaves :
  is_ok (fst (fst s3_start)) = true
  /\ (exists d v, s3_Get (str "b") (snd (fst s3_start)) tupleKey = SOk (d, v))
  /\ s3_Get (str "b") (snd (fst s3_start)) stale_key = SOk (str "old", str "old").
Proof.
  split; [vm_compute; reflexivity|]. split; [|vm_compute; reflexivity].
  assert (match s3_Get (str "b") (snd (fst s3_start)) tupleKey with SOk _ => true | _ => false end = true) as H by (vm_compute; reflexivity).
  destruct (s3_Get (str "b") (snd (fst s3_start)) tupleKey) as [[d v]| |]; [exists d, v; reflexivity|discriminate H..].
Qed.
