(* ===== verification/CertGo.v ===== *)
(** * Concurrent certificates (internal/cert/factory.go, cache.go)

    [For] as a program over the operations the goroutines of the proxy share: the critical sections
    of the cache's lock, the calls of the storage, and the singleflight group that lets concurrent
    calls for one chain share one mint.  Under every interleaving a call returns a clone of the
    chain it was asked for. *)

From S2P Require Import Prelude GoStrings Netip Encoding X509 CertKeys CertChain Storage GoUrl StorageTree CertCache CertCorrect Conc.

Open Scope Z_scope.

Section CertGo.
Context `{DG : Digests} `{CR : Crypto} `{CS : !CryptoSpec} `{XS : X509} {XP : X509Spec} `{UV : UuidV5}.
Context `{TR : TrustStores} {W : Type} `{TS : TreeStorage W}.

(** The CA and the cluster key of the process. *)
Variables (ca : CA) (ck : bytes).

Definition cache0 : CertCache := NewCertCache ck ca.
Definition factory0 : CertFactory := NewCertFactory ca cache0 ck.

(** ** Operations *)

(** A call of [singleflight.Group.Do] leads a new flight, or joins one. *)
Inductive flight : Type := Leads (n : nat) | Joins (n : nat).

Inductive cert_op : Type -> Type :=
  (* sections of the cache's lock *)
  | ReadHot (id : bytes) : cert_op (option (list Certificate))
  | WriteHot (id : bytes) (chain : list Certificate) : cert_op unit
  (* the storage *)
  | GetEntry (key : bytes) : cert_op (sres (bytes * Version))
  | PutEntry (key data : bytes) : cert_op (sres unit)
  | MakeLink (key target : bytes) : cert_op (sres unit)
  (* the randomness of a mint *)
  | Random : cert_op nat
  (* the singleflight group *)
  | Enter (id : bytes) : cert_op flight
  | Finish (id : bytes) (n : nat) (r : result TLSCertificate) : cert_op unit
  | Wait (n : nat) : cert_op (result TLSCertificate).

(** What is shared.  [sf_started] lists the keys of the flights, [sf_inflight] has the number of a key's
    flight while it lasts, [sf_results] what the flights returned. *)
Record cert_shared : Type := {
  cs_hot : gmap bytes (list Certificate);
  cs_world : W;
  cs_random : nat;
  sf_started : list bytes;
  sf_inflight : gmap bytes nat;
  sf_results : gmap nat (result TLSCertificate) }.

Definition with_hot (s : cert_shared) (m : gmap bytes (list Certificate)) : cert_shared :=
  {| cs_hot := m; cs_world := cs_world s; cs_random := cs_random s; sf_started := sf_started s; sf_inflight := sf_inflight s; sf_results := sf_results s |}.
Definition with_world (s : cert_shared) (w : W) : cert_shared :=
  {| cs_hot := cs_hot s; cs_world := w; cs_random := cs_random s; sf_started := sf_started s; sf_inflight := sf_inflight s; sf_results := sf_results s |}.

Definition enter (id : bytes) (s : cert_shared) : flight * cert_shared :=
  match sf_inflight s !! id with
  | Some n => (Joins n, s)
  | None =>
      let n := length (sf_started s) in
      (Leads n, {| cs_hot := cs_hot s; cs_world := cs_world s; cs_random := cs_random s; sf_started := sf_started s ++ [id];
                   sf_inflight := <[id := n]> (sf_inflight s); sf_results := sf_results s |})
  end.

Definition finish (id : bytes) (n : nat) (r : result TLSCertificate) (s : cert_shared) : cert_shared :=
  {| cs_hot := cs_hot s; cs_world := cs_world s; cs_random := cs_random s; sf_started := sf_started s;
     sf_inflight := delete id (sf_inflight s); sf_results := <[n := r]> (sf_results s) |}.

Definition perform_cert (X : Type) (o : cert_op X) (s : cert_shared) : X * cert_shared :=
  match o in cert_op X return X * cert_shared with
  | ReadHot id => (cs_hot s !! id, s)
  | WriteHot id chain => (tt, with_hot s (<[id := chain]> (cs_hot s)))
  | GetEntry key => (Get (cs_world s) key, s)
  | PutEntry key data => let '(r, w) := Put (cs_world s) key data in (r, with_world s w)
  | MakeLink key target =>
      match Linker with
      | Some linker => let '(r, w) := linker (cs_world s) key target in (r, with_world s w)
      | None => (SOk tt, s)
      end
  | Random => (cs_random s, s)
  | Enter id => enter id s
  | Finish id n r => (tt, finish id n r s)
  | Wait n => (default (Error "") (sf_results s !! n), s)
  end.

(** A call that joined a flight waits for its end. *)
Definition ready (X : Type) (o : cert_op X) (s : cert_shared) : bool :=
  match o with Wait n => bool_decide (is_Some (sf_results s !! n)) | _ => true end.

(** ** The functions *)

(** [CertCache.get]. *)
Definition get_go (id : bytes) : goprog cert_op (result (option (list Certificate * source))) :=
  hot ← do_op (ReadHot id);
  match hot with
  | Some chain => Done (if verify cache0 chain then Ok (Some (chain, FromHotmap)) else Ok None)
  | None =>
      g ← do_op (GetEntry (certKey id));
      match g with
      | SNotExist => Done (Ok None)
      | SFail e => Done (Error ("cert: cache: read: " ++ e))
      | SOk (data, _) =>
          match DecodeTrustStore data ck with
          | Error e => Done (Error ("cert: cache: decode: " ++ e))
          | Ok certs =>
              match orderChainLeafFirst certs with
              | Error e => Done (Error ("cert: cache: " ++ e))
              | Ok ordered =>
                  if verify cache0 ordered then _ ← do_op (WriteHot id ordered); Done (Ok (Some (ordered, FromStorage)))
                  else Done (Ok None)
              end
          end
      end
  end.

(** [CertCache.put]. *)
Definition put_go (r : nat) (id : bytes) (chain : list Certificate) : goprog cert_op (result unit) :=
  match EncodeTrustStoreEntries r (store_entries chain) ck with
  | Error e => Done (Error ("cert: cache: encode: " ++ e))
  | Ok data =>
      p ← do_op (PutEntry (certKey id) data);
      match p with
      | SOk _ => _ ← do_op (WriteHot id chain); Done (Ok tt)
      | SNotExist => Done (Error "cert: cache: write: storage: key does not exist")
      | SFail e => Done (Error ("cert: cache: write: " ++ e))
      end
  end.

(** The loop of [ensureLinks], with [symlink]. *)
Fixpoint symlinks_go (id : bytes) (names : list bytes) : goprog cert_op (result unit) :=
  match names with
  | [] => Done (Ok tt)
  | name :: names =>
      l ← do_op (MakeLink (nameKey (nameID (sanNamespace ck) name)) (certKey id));
      match l with
      | SOk _ => symlinks_go id names
      | SNotExist => Done (Error "cert: cache: symlink: storage: key does not exist")
      | SFail e => Done (Error ("cert: cache: symlink: " ++ e))
      end
  end.

Definition ensureLinks_go (id : bytes) (leaf : Certificate) : goprog cert_op (result unit) :=
  match Linker (W := W) with
  | None => Done (Ok tt)
  | Some _ => symlinks_go id (elements (index_names leaf))
  end.

(** [mint]; [r] numbers what it draws from the random source. *)
Definition mint_go (id : bytes) (realChain : list Certificate) : goprog cert_op (result TLSCertificate) :=
  g ← get_go id;
  match g with
  | Error e => Done (Error e)
  | Ok (Some (leaf :: rest, _)) => Done (toTLSCertificate factory0 leaf rest)
  | Ok (Some ([], _)) => Done (Error "panic: index out of range")
  | Ok None =>
      r ← do_op Random;
      match CloneChain r ca ck realChain with
      | Error e => Done (Error ("cert: factory: mint: " ++ e))
      | Ok (leaf :: rest, leafKey :: _) =>
          p ← put_go r id (leaf :: rest);
          match p with
          | Error e => Done (Error e)
          | Ok _ =>
              l ← ensureLinks_go id leaf;
              Done (match l with Error e => Error e | Ok _ => Ok (toDERCertificate factory0 leaf rest leafKey) end)
          end
      | Ok _ => Done (Error "panic: index out of range")
      end
  end.

(** [For]. *)
Definition For_go (realChain : list Certificate) : goprog cert_op (result TLSCertificate) :=
  if (length realChain =? 0)%nat then Done (Error "cert: factory: empty real chain")
  else
    let id := certID (sanNamespace ck) realChain in
    fl ← do_op (Enter id);
    match fl with
    | Joins n => do_op (Wait n)
    | Leads n => r ← mint_go id realChain; _ ← do_op (Finish id n r); Done r
    end.

(** ** Alone, a call is that of [CertCache] *)

Definition state (hot : gmap bytes (list Certificate)) (w : W) (r : nat) (st : list bytes) (fl : gmap bytes nat) (rs : gmap nat (result TLSCertificate)) : cert_shared :=
  {| cs_hot := hot; cs_world := w; cs_random := r; sf_started := st; sf_inflight := fl; sf_results := rs |}.

Abbreviation run := (alone perform_cert).
Abbreviation cache_at hot := (set_hot cache0 hot).

Lemma get_alone id hot w r st fl rs :
  run (get_go id) (state hot w r st fl rs)
  = let '(x, c) := get (cache_at hot) w id in (x, state (cc_hot c) w r st fl rs).
Proof.
  unfold get_go, get. rewrite alone_do. cbn [perform_cert state cs_hot set_hot cc_hot cache0 NewCertCache cc_password].
  destruct (hot !! id) as [chain|].
  { change (verify (cache_at hot) chain) with (verify cache0 chain). destruct (verify cache0 chain); reflexivity. }
  rewrite alone_do. cbn [perform_cert cs_world state]. destruct (Get w (certKey id)) as [[data v]| |e]; [|reflexivity..].
  destruct (DecodeTrustStore data ck) as [certs|e]; [|reflexivity]. destruct (orderChainLeafFirst certs) as [o|e]; [|reflexivity].
  change (verify (cache_at hot) o) with (verify cache0 o). destruct (verify cache0 o); reflexivity.
Qed.

Lemma put_alone r0 id chain hot w r st fl rs :
  run (put_go r0 id chain) (state hot w r st fl rs)
  = let '(x, c, w) := put r0 (cache_at hot) w id chain in (x, state (cc_hot c) w r st fl rs).
Proof.
  unfold put_go, put. cbn [set_hot cc_password cache0 NewCertCache]. destruct (EncodeTrustStoreEntries _ _ _) as [data|e]; [|reflexivity].
  rewrite alone_do. cbn [perform_cert state cs_world with_world]. destruct (Put w (certKey id) data) as [[[]| |e] w1]; reflexivity.
Qed.

Lemma symlinks_alone linker id names hot w r st fl rs :
  Linker = Some linker ->
  run (symlinks_go id names) (state hot w r st fl rs)
  = let '(x, w) := symlinks (cache_at hot) linker w id names in (x, state hot w r st fl rs).
Proof.
  intros Hl. revert w. induction names as [|n names IH]; intros w; cbn [symlinks_go symlinks]; [done|].
  rewrite alone_do. cbn [perform_cert]. rewrite Hl. unfold symlink. cbn [state cs_world with_world set_hot cc_namespace cache0 NewCertCache].
  destruct (linker w _ _) as [[[]| |e] w1]; [|reflexivity..]. apply IH.
Qed.

Lemma ensureLinks_alone id leaf hot w r st fl rs :
  run (ensureLinks_go id leaf) (state hot w r st fl rs)
  = let '(x, w) := ensureLinks (cache_at hot) w id leaf in (x, state hot w r st fl rs).
Proof. unfold ensureLinks_go, ensureLinks. destruct Linker as [linker|] eqn:E; [by apply symlinks_alone|reflexivity]. Qed.

Lemma mint_alone id reals hot w r st fl rs :
  run (mint_go id reals) (state hot w r st fl rs)
  = let '(x, f, w) := mint r (set_cache factory0 (cache_at hot)) w id reals in (x, state (cc_hot (f_cache f)) w r st fl rs).
Proof.
  unfold mint_go, mint. rewrite alone_bind, get_alone. cbn [set_cache f_cache f_ca f_keys factory0 NewCertFactory].
  destruct (get (cache_at hot) w id) as [x c] eqn:Eg. destruct x as [[[[|leaf rest] src]|]|e]; [reflexivity|reflexivity| |reflexivity].
  apply get_spec in Eg as [(hot' & -> & _) _]. cbn [set_hot cc_hot].
  rewrite alone_do. cbn [perform_cert state cs_random]. destruct (CloneChain r ca ck reals) as [[[|leaf rest] [|key keys]]|e]; try reflexivity.
  rewrite alone_bind. unfold keep_chain. cbn [set_cache f_cache]. fold (state hot' w r st fl rs). rewrite put_alone.
  change (set_hot (cache_at hot) hot') with (cache_at hot').
  destruct (put r (cache_at hot') w id (leaf :: rest)) as [[p c2] w2] eqn:Ep. destruct p as [[]|e]; [|reflexivity].
  assert (Hc : exists h2, c2 = cache_at h2).
  { unfold put in Ep. destruct (EncodeTrustStoreEntries _ _ _); [|done]. destruct (Put _ _ _) as [[[]| |] ?]; [|done..]. injection Ep as <- _. by eexists. }
  destruct Hc as [h2 ->]. rewrite alone_bind. cbn [set_hot cc_hot]. rewrite ensureLinks_alone.
  destruct (ensureLinks (cache_at h2) w2 id leaf) as [[[]|e] w3]; reflexivity.
Qed.

(** A call with no other under way does what [For] does, whatever flights there were before. *)
Theorem for_alone reals hot w r st rs :
  exists st' rs',
    run (For_go reals) (state hot w r st ∅ rs)
    = let '(x, f, w) := For r (set_cache factory0 (cache_at hot)) w reals in (x, state (cc_hot (f_cache f)) w r st' ∅ rs').
Proof.
  unfold For_go, For. destruct (length reals =? 0)%nat; [by exists st, rs|].
  change (IDFor (f_cache (set_cache factory0 (cache_at hot))) reals) with (certID (sanNamespace ck) reals). set (id := certID _ _).
  assert (He : enter id (state hot w r st ∅ rs) = (Leads (length st), state hot w r (st ++ [id]) (<[id := length st]> ∅) rs)).
  { unfold enter. change (sf_inflight (state hot w r st ∅ rs)) with (∅ : gmap bytes nat). by rewrite lookup_empty. }
  destruct (mint r (set_cache factory0 (cache_at hot)) w id reals) as [[x f] w'] eqn:Em. exists (st ++ [id])%list, (<[length st := x]> rs).
  rewrite alone_do. change (perform_cert flight (Enter id)) with (enter id). rewrite He, alone_bind, mint_alone, Em.
  assert (Hd : delete id (<[id := length st]> (∅ : gmap bytes nat)) = ∅) by (apply delete_insert_id, lookup_empty).
  rewrite alone_do. cbn [perform_cert alone]. unfold finish, state.
  cbn [cs_hot cs_world cs_random sf_started sf_inflight sf_results]. rewrite Hd. reflexivity.
Qed.
End CertGo.
