(* ===== verification/CertConc.v ===== *)
(** * Concurrent certificates: what holds

    The invariant of the certificate cache under every interleaving of calls of [For], with entries
    evicted from memory and with whatever other nodes with the same CA do to the storage; the sharing
    of mints by concurrent calls; and a flush that a call outlives. *)

From S2P Require Import Prelude GoStrings Netip Encoding X509 CertKeys CertChain Storage GoUrl StorageTree CertCache CertCorrect Conc CertGo.

Open Scope Z_scope.

Section CertConc.
Context `{DG : Digests} `{CR : Crypto} `{CS : !CryptoSpec} `{XS : X509} {XP : X509Spec} `{UV : UuidV5}.
Context `{TR : TrustStores} {W : Type} `{TS : TreeStorage W}.
Context `{US : !UuidV5Spec} `{RS : !TrustStoresSpec} {TP : TreeSpec W}.
Variables (ca : CA) (ck : bytes) (asked : list Certificate -> Prop) (selves : list bytes -> Prop).
Hypothesis Hca : ca_ok ca.

(** The chains asked for are parsed, and their identifiers stand for them alone. *)
Hypothesis Hasked : forall reals, asked reals -> Forall parsed reals /\ id_unique asked selves ck reals.

(** ** The invariant *)

Definition hot_ok (hot : gmap bytes (list Certificate)) : Prop := map_Forall (entry_ok asked selves ca ck) hot.

Definition store_ok (w : W) : Prop :=
  (forall id, is_uuid id -> plain w (certKey id))
  /\ forall id, is_uuid id -> Get w (certKey id) = SNotExist \/ (exists e, Get w (certKey id) = SFail e)
       \/ exists chain, stored_as ck w id chain /\ entry_ok asked selves ca ck id chain.

(** A certificate made for the chain that [id] stands for. *)
Definition clone_of (id : bytes) (tc : TLSCertificate) : Prop :=
  exists reals synth, asked reals /\ certID (sanNamespace ck) reals = id
    /\ clones ca ck true (effectiveChain ca reals) synth /\ served_clone (factory0 ca ck) synth tc.

Record flights_ok (s : cert_shared (W := W)) : Prop := {
  fl_inflight id n : sf_inflight s !! id = Some n -> sf_started s !! n = Some id;
  fl_results n r : sf_results s !! n = Some r -> exists id, sf_started s !! n = Some id /\ forall tc, r = Ok tc -> clone_of id tc }.

Definition cert_inv (s : cert_shared) : Prop := hot_ok (cs_hot s) /\ store_ok (cs_world s) /\ flights_ok s.

Definition cert_moves (s s' : cert_shared (W := W)) : Prop := sf_started s `prefix_of` sf_started s'.

Definition cert_sem (X : Type) (s : cert_shared (W := W)) (o : cert_op X) (x : X) (s' : cert_shared) : Prop :=
  perform_cert X o s = (x, s') /\ ready X o s = true.

(** Entries are evicted from memory, and the storage changes, by other nodes or by a flush, as long as an
    entry that is there was made for its key. *)
Definition cert_world (s s' : cert_shared (W := W)) : Prop :=
  cs_hot s' ⊆ cs_hot s /\ store_ok (cs_world s')
  /\ sf_started s' = sf_started s /\ sf_inflight s' = sf_inflight s /\ sf_results s' = sf_results s.

Lemma cert_moves_refl s : cert_moves s s.
Proof. unfold cert_moves. reflexivity. Qed.
Lemma cert_moves_trans a b c : cert_moves a b -> cert_moves b c -> cert_moves a c.
Proof. unfold cert_moves. intros. by etrans. Qed.

Lemma same_flights s s' :
  sf_started s' = sf_started s -> sf_inflight s' = sf_inflight s -> sf_results s' = sf_results s -> flights_ok s -> flights_ok s'.
Proof. intros E1 E2 E3 [H1 H2]. split; rewrite ?E1, ?E2, ?E3; done. Qed.

Lemma cert_world_ok s s' : cert_inv s -> cert_world s s' -> cert_inv s' /\ cert_moves s s'.
Proof.
  intros (Hh & Hs & Hf) (Hsub & Hs' & E1 & E2 & E3). split; [split_and!|by unfold cert_moves; rewrite E1]; [|done|by eapply same_flights].
  intros id chain Hl. apply Hh. by eapply lookup_weaken.
Qed.

(** ** The storage *)

Lemma store_put r id chain w data res w' :
  store_ok w -> is_uuid id -> entry_ok asked selves ca ck id chain ->
  EncodeTrustStoreEntries r (store_entries chain) ck = Ok data -> Put w (certKey id) data = (res, w') -> store_ok w'.
Proof.
  intros [Hpl Hs] Hu He Ee Ep.
  destruct (decode_store _ _ _ _ ltac:(rewrite store_entries_fst; by eapply entry_parsed) Ee) as (certs & Hd & Hp). rewrite store_entries_fst in Hp.
  assert (Hst : forall v, Get w' (certKey id) = SOk (data, v) -> stored_as ck w' id chain) by (intros v Hg; by exists data, v, certs).
  split; [intros i Hi; eapply tree_put_plain; eauto|]. intros i Hi. destruct (decide (i = id)) as [->|Hne].
  - destruct (tree_put_failed _ _ _ _ _ Ep (Hpl id Hu)) as [->|[E|(v & E)]].
    + destruct (tree_get_put _ _ _ _ Ep) as (v & E). eauto 10.
    + unfold stored_as. rewrite E. by apply Hs.
    + eauto 10.
  - unfold stored_as. rewrite (tree_get_put_ne _ _ _ _ _ _ Ep (Hpl i Hi)); [by apply Hs|]. intros E. by apply certKey_inj in E.
Qed.

Lemma store_link linker id name w res w' :
  store_ok w -> Linker = Some linker -> linker w (nameKey name) (certKey id) = (res, w') -> store_ok w'.
Proof.
  intros [Hpl Hs] Hl El.
  assert (Hk : forall i, is_uuid i -> Get w' (certKey i) = Get w (certKey i) /\ plain w' (certKey i)).
  { intros i Hi. eapply tree_link; [exact Hl|exact El|by apply Hpl|]. intros E. by eapply nameKey_certKey. }
  split; [intros i Hi; by apply Hk|]. intros i Hi. destruct (Hk i Hi) as [E _]. unfold stored_as. rewrite E. by apply Hs.
Qed.

(** ** The programs *)

Abbreviation cguar := (guar (S := cert_shared (W := W)) cert_sem cert_inv cert_moves).

(** An operation that reads. *)
Lemma guar_look {A X} seen (o : cert_op X) (f : X -> goprog cert_op A) (v : cert_shared -> X) R :
  (forall s, perform_cert X o s = (v s, s)) ->
  (forall seen' s, suffix seen (s :: seen') -> cert_inv s -> ready X o s = true -> cguar (s :: s :: seen') (f (v s)) R) -> cguar seen (do_op o ≫= f) R.
Proof.
  intros Hv Hf. apply guar_do. intros seen' s x s' Hsuf Hl [Hp Hr]. rewrite Hv in Hp. injection Hp as <- <-.
  assert (Hi : cert_inv s) by (by eapply lived_inv; [exact Hl|apply list_elem_of_here]). split_and!; [done|apply cert_moves_refl|by apply Hf].
Qed.

(** One that writes. *)
Lemma guar_act {A X} seen (o : cert_op X) (f : X -> goprog cert_op A) R :
  (forall s x s', cert_inv s -> perform_cert X o s = (x, s') -> cert_inv s' /\ sf_started s' = sf_started s) ->
  (forall seen' x, suffix seen seen' -> cguar seen' (f x) R) -> cguar seen (do_op o ≫= f) R.
Proof.
  intros Hi Hf. apply guar_do. intros seen' s x s' Hsuf Hl [Hp Hr].
  assert (Hs : cert_inv s) by (by eapply lived_inv; [exact Hl|apply list_elem_of_here]). destruct (Hi _ _ _ Hs Hp) as [Hi' E].
  split_and!; [done|by unfold cert_moves; rewrite E|]. apply Hf. etrans; [exact Hsuf|]. by exists [s'].
Qed.

Lemma guar_write_hot {A} seen id chain (f : unit -> goprog cert_op A) R :
  entry_ok asked selves ca ck id chain -> (forall seen' x, suffix seen seen' -> cguar seen' (f x) R) -> cguar seen (do_op (WriteHot id chain) ≫= f) R.
Proof.
  intros He. apply guar_act. intros s x s' (Hh & Hs & Hf). cbn. intros [= _ <-]. split; [|done]. split_and!; [|done|by apply (same_flights s)].
  by apply map_Forall_insert_2.
Qed.

(** What [get] may return for [id]. *)
Definition got (id : bytes) (r : result (option (list Certificate * source))) : Prop :=
  forall chain src, r = Ok (Some (chain, src)) -> verify (cache0 ca ck) chain = true /\ entry_ok asked selves ca ck id chain.

Lemma get_guar seen id : is_uuid id -> cguar seen (get_go ca ck id) (fun _ r => got id r).
Proof.
  intros Hu. unfold get_go. apply (guar_look _ _ _ (fun s => cs_hot s !! id)); [done|]. intros seen1 s1 _ (Hh & _) _.
  destruct (cs_hot s1 !! id) as [chain|] eqn:Eh.
  { apply guar_done. intros ch src. destruct (verify _ chain) eqn:Ev; [|done]. intros [= <- _]. split; [done|]. by apply Hh. }
  apply (guar_look _ _ _ (fun s => Get (cs_world s) (certKey id))); [done|]. intros seen2 s2 _ (_ & [_ Hst] & _) _.
  destruct (Get (cs_world s2) (certKey id)) as [[data v]| |e] eqn:Eg; [|by apply guar_done..].
  destruct (DecodeTrustStore data ck) as [certs|e] eqn:Ed; [|by apply guar_done]. destruct (orderChainLeafFirst certs) as [o|e] eqn:Eo; [|by apply guar_done].
  destruct (verify _ o) eqn:Ev; [|by apply guar_done].
  assert (He : entry_ok asked selves ca ck id o).
  { destruct (Hst id Hu) as [E|[(e & E)|(ch & (data' & v' & certs' & Hg' & Hd' & Hp) & He)]]; [congruence|congruence|].
    rewrite Eg in Hg'. injection Hg' as <- <-. rewrite Ed in Hd'. injection Hd' as <-. by rewrite (order_unique _ _ _ Eo Hp (entry_linked _ _ _ _ _ _ He)). }
  apply guar_write_hot; [done|]. intros seen3 [] _. apply guar_done. by intros ch src [= <- _].
Qed.

Lemma put_guar seen r id chain :
  is_uuid id -> entry_ok asked selves ca ck id chain -> cguar seen (put_go ck r id chain) (fun _ _ => True).
Proof.
  intros Hu He. unfold put_go. destruct (EncodeTrustStoreEntries r (store_entries chain) ck) as [data|e] eqn:Ee; [|by apply guar_done].
  apply guar_act.
  - intros s x s' (Hh & Hs & Hf). cbn [perform_cert]. destruct (Put (cs_world s) (certKey id) data) as [p w] eqn:Ep. intros [= <- <-]. split; [|done].
    split_and!; [done|by eapply store_put|by apply (same_flights s)].
  - intros seen1 [[]| |e] _; [|by apply guar_done..]. apply guar_write_hot; [done|]. intros. by apply guar_done.
Qed.

Lemma ensureLinks_guar seen id leaf : cguar seen (ensureLinks_go ck id leaf) (fun _ _ => True).
Proof.
  unfold ensureLinks_go. destruct Linker as [linker|] eqn:El; [|by apply guar_done]. generalize (elements (index_names leaf)). intros names.
  revert seen. induction names as [|n names IH]; intros seen; cbn [symlinks_go]; [by apply guar_done|]. apply guar_act.
  - intros s x s' (Hh & Hs & Hf). cbn [perform_cert]. rewrite El. destruct (linker _ _ _) as [l w] eqn:E. intros [= <- <-]. split; [|done].
    split_and!; [done|by eapply store_link|by apply (same_flights s)].
  - intros seen1 [[]| |e] _; [apply IH|by apply guar_done..].
Qed.

(** ** Mints *)

(** What a hit serves. *)
Lemma hit_clone reals leaf rest tc :
  asked reals -> entry_ok asked selves ca ck (certID (sanNamespace ck) reals) (leaf :: rest) ->
  toTLSCertificate (factory0 ca ck) leaf rest = Ok tc -> clone_of (certID (sanNamespace ck) reals) tc.
Proof.
  intros Ha He Ht. destruct (Hasked _ Ha) as [Hp Hid]. destruct (entry_clone _ _ _ _ _ _ Hid Hp He) as (synth & E & _ & Hcl).
  exists reals, synth. split_and!; [done|done|done|]. destruct synth as [|[l k] synth]; [done|]. injection E as -> ->.
  exists l, k, synth. split; [done|]. unfold toTLSCertificate in Ht. cbn [f_keys factory0 NewCertFactory] in Ht.
  rewrite (clones_leaf_key _ _ _ _ _ _ Hcl) in Ht. by injection Ht as <-.
Qed.

Lemma mint_guar seen reals :
  asked reals -> cguar seen (mint_go ca ck (certID (sanNamespace ck) reals) reals) (fun _ r => forall tc, r = Ok tc -> clone_of (certID (sanNamespace ck) reals) tc).
Proof.
  intros Ha. destruct (Hasked _ Ha) as [Hp _]. set (id := certID _ _). assert (Hu : is_uuid id) by apply uuid_text. unfold mint_go.
  eapply guar_bind; [by apply get_guar|]. intros seen1 [[[[|leaf rest] src]|]|e] _ Hg; [by apply guar_done| | |by apply guar_done].
  { apply guar_done. intros tc Ht. eapply hit_clone; [done|apply (Hg _ _ eq_refl)|done]. }
  apply (guar_look _ _ _ cs_random); [done|]. intros seen2 s2 _ _ _. destruct (CloneChain _ ca ck reals) as [[certs keys]|e] eqn:Ec; [|by apply guar_done].
  destruct (CloneChain_spec _ _ _ _ _ _ Hca Hp Ec) as (synth & -> & -> & Hne & Hcl). destruct synth as [|[leaf key] synth]; [done|]. cbn [map fst snd].
  eapply guar_bind; [apply put_guar; [done|]|].
  { left. exists reals, ((leaf, key) :: synth). by split_and!. }
  intros seen3 [[]|e] _ _; [|by apply guar_done]. eapply guar_bind; [apply ensureLinks_guar|]. intros seen4 [[]|e] _ _; [|by apply guar_done].
  apply guar_done. intros tc [= <-]. exists reals, ((leaf, key) :: synth). split_and!; [done..|]. by exists leaf, key, synth.
Qed.

(** ** Calls *)

Definition cloned (reals : list Certificate) (r : result TLSCertificate) : Prop :=
  forall tc, r = Ok tc -> exists synth, clones ca ck true (effectiveChain ca reals) synth /\ served_clone (factory0 ca ck) synth tc.

(** A certificate for the identifier of a chain is one for the chain. *)
Lemma clone_of_cloned reals tc : asked reals -> clone_of (certID (sanNamespace ck) reals) tc -> cloned reals (Ok tc).
Proof.
  intros Ha (reals' & synth & Ha' & Hid & Hcl & Hs) tc' [= <-]. destruct (Hasked _ Ha) as [Hp [Hc _]], (Hasked _ Ha') as [Hp' _].
  apply Hc in Hid; [|done]. apply (chain_bytes_inj _ _ Hp' Hp) in Hid as ->. by exists synth.
Qed.

Lemma started_since seen s0 s n id :
  lived cert_inv cert_moves (s :: seen) -> s0 ∈ s :: seen -> sf_started s0 !! n = Some id -> sf_started s !! n = Some id.
Proof.
  intros Hl Hin Hn. assert (Hm : cert_moves s0 s) by (by eapply lived_moves; [apply cert_moves_refl|exact Hl|]). by eapply prefix_lookup_Some.
Qed.

Lemma enter_ok id s fl s' :
  cert_inv s -> enter id s = (fl, s') ->
  cert_inv s' /\ cert_moves s s' /\ match fl with Leads n | Joins n => sf_started s' !! n = Some id end.
Proof.
  intros (Hh & Hs & [Hi Hr]). unfold enter. destruct (sf_inflight s !! id) as [n|] eqn:E; intros [= <- <-]; cbn.
  - split_and!; [done|apply cert_moves_refl|by apply Hi].
  - assert (Hn : forall m x, sf_started s !! m = Some x -> (sf_started s ++ [id]) !! m = Some x) by (intros m x Hm; by apply lookup_app_l_Some).
    split_and!; [split_and!; [done|done|]|by exists [id]|by apply list_lookup_middle]. split; cbn.
    + intros id' m [[<- <-]|[_ H]]%lookup_insert_Some; [by apply list_lookup_middle|by apply Hn, Hi].
    + intros m r (id' & Hm & Hc)%Hr. exists id'. split; [by apply Hn|done].
Qed.

Lemma finish_ok id n r s :
  cert_inv s -> sf_started s !! n = Some id -> (forall tc, r = Ok tc -> clone_of id tc) -> cert_inv (finish id n r s).
Proof.
  intros (Hh & Hs & [Hi Hr]) Hn Hc. split_and!; [done|done|]. split; cbn.
  - intros id' m [_ H]%lookup_delete_Some. by apply Hi.
  - intros m r' [[<- <-]|[_ H]]%lookup_insert_Some; [by exists id|by apply Hr].
Qed.

Lemma For_guar seen reals : asked reals -> cguar seen (For_go ca ck reals) (fun _ r => cloned reals r).
Proof.
  intros Ha. unfold For_go. destruct (length reals =? 0)%nat; [by apply guar_done|]. set (id := certID _ _).
  apply guar_do. intros seen1 s fl s' Hsuf Hl [Hp _]. assert (Hs : cert_inv s) by (by eapply lived_inv; [exact Hl|apply list_elem_of_here]).
  destruct (enter_ok _ _ _ _ Hs Hp) as (Hs' & Hm & Hn). split_and!; [done|done|]. destruct fl as [n|n].
  - eapply guar_bind; [by apply mint_guar|]. intros seen2 r Hsuf2 Hc. apply guar_do. intros seen3 s3 x s4 Hsuf3 Hl3 [Hp3 _].
    cbn [perform_cert] in Hp3. injection Hp3 as <- <-. assert (Hs3 : cert_inv s3) by (by eapply lived_inv; [exact Hl3|apply list_elem_of_here]).
    split_and!; [|exact (cert_moves_refl s3)|].
    + apply finish_ok; [done| |done]. eapply started_since; [exact Hl3| |exact Hn].
      eapply elem_of_suffix; [|exact Hsuf3]. eapply elem_of_suffix; [|exact Hsuf2]. apply list_elem_of_here.
    + apply guar_done. intros tc ->. exact (clone_of_cloned reals tc Ha (Hc tc eq_refl) tc eq_refl).
  - intros seen2 s2 r s3 Hsuf2 Hl2 [Hp2 Hr2]. cbn [perform_cert ready] in Hp2, Hr2. apply bool_decide_eq_true in Hr2 as [r' Hr']. rewrite Hr' in Hp2.
    injection Hp2 as <- <-. assert (Hs2 : cert_inv s2) by (by eapply lived_inv; [exact Hl2|apply list_elem_of_here]). split_and!; [done|apply cert_moves_refl|].
    destruct Hs2 as (_ & _ & [_ Hres]). destruct (Hres _ _ Hr') as (id' & Hn' & Hc).
    assert (E : sf_started s2 !! n = Some id) by (eapply started_since; [exact Hl2| |exact Hn]; eapply elem_of_suffix; [|exact Hsuf2]; apply list_elem_of_here).
    rewrite Hn' in E. injection E as ->. intros tc ->. exact (clone_of_cloned reals tc Ha (Hc tc eq_refl) tc eq_refl).
Qed.

(** ** Runs *)

Definition for_call (reals : list Certificate) : goprog cert_op (list Certificate * result TLSCertificate) := r ← For_go ca ck reals; Done (reals, r).

Definition is_for (p : goprog cert_op (list Certificate * result TLSCertificate)) : Prop := exists reals, asked reals /\ p = for_call reals.

Definition cert_booted (w : W) (r : nat) : cert_shared := state ∅ w r [] ∅ ∅.

Definition cert_runs (w : W) (r : nat) (c : list (goroutine (list Certificate * result TLSCertificate)) * cert_shared) : Prop :=
  store_ok w /\ rtc (pool_step cert_sem cert_world is_for) ([], cert_booted w r) c.

Lemma cert_runs_post w r gs s g reals x : cert_runs w r (gs, s) -> g ∈ gs -> g_prog g = Done (reals, x) -> cloned reals x.
Proof.
  intros [Hw Hr] Hin Hd.
  refine (pool_returns cert_sem cert_world cert_inv cert_moves _ _ is_for (fun _ x => cloned x.1 x.2) _ _ (cert_booted w r) gs s g (reals, x) _ Hr Hin Hd).
  - apply cert_moves_refl.
  - apply cert_moves_trans.
  - apply cert_world_ok.
  - intros p s0 (c & Hc & ->) _. eapply guar_bind; [by apply For_guar|]. intros seen r' _ HQ. exact HQ.
  - split_and!; [apply map_Forall_empty|done|]. split; cbn; intros ? ?; by rewrite lookup_empty.
Qed.
End CertConc.

Section Claims.
Context `{DG : Digests} `{CR : Crypto} `{CS : !CryptoSpec} `{XS : X509} {XP : X509Spec} `{UV : UuidV5}.
Context `{TR : TrustStores} {W : Type} `{TS : TreeStorage W}.
Context `{US : !UuidV5Spec} `{RS : !TrustStoresSpec} {TP : TreeSpec W}.

(** C13: Under every interleaving of any number of calls of [For], those that share a mint and those that do
    not, with evictions from memory and with whatever other nodes of the cluster do to the storage, a call
    that returns a certificate returns a clone of the very chain it was asked for, with the leaf's key. *)
Theorem concurrent_for_clones ca ck asked selves w r gs s g reals tc :
  ca_ok ca -> (forall reals, asked reals -> Forall parsed reals /\ id_unique asked selves ck reals) ->
  cert_runs ca ck asked selves w r (gs, s) -> g ∈ gs -> g_prog g = Done (reals, Ok tc) ->
  exists synth, clones ca ck true (effectiveChain ca reals) synth /\ served_clone (factory0 ca ck) synth tc.
Proof. intros Hca Ha Hr Hin Hd. by eapply (cert_runs_post ca ck asked selves Hca Ha). Qed.
End Claims.
