(* ===== verification/CertRaces.v ===== *)
(** * Concurrent calls for certificates, evaluated

    Two calls for one chain that share a mint, and a flush that a call outlives. *)

From S2P Require Import Prelude GoStrings Netip Encoding X509 CertKeys CertChain Storage GoUrl StorageTree CertCache CertCorrect CertSelf CertCA CertInstance CertSamples Conc CertGo CertConc.

Open Scope Z_scope.

#[local] Existing Instance toy_digests.
#[local] Existing Instance toy_crypto.
#[local] Existing Instance toy_crypto_spec.
#[local] Existing Instance toy_x509.
#[local] Existing Instance toy_x509_spec.
#[local] Existing Instance toy_uuids.
#[local] Existing Instance toy_uuids_spec.
#[local] Existing Instance toy_stores.
#[local] Existing Instance toy_stores_spec.

Abbreviation for_turn := (turn cert_op (cert_shared (W := tree)) (list Certificate * result TLSCertificate)).
Abbreviation for_go := (goroutine (op := cert_op) (S := cert_shared (W := tree)) (list Certificate * result TLSCertificate)).

Definition call : for_turn := Start (for_call sample_ca cluster_key real_chain).
Definition cert_schedule (ts : list for_turn) : option (list for_go * cert_shared (W := tree)) :=
  schedule perform_cert ready ts ([], cert_booted sample_disk 1).

(** The second call finds the first under way and waits for it. *)
Definition shared_mint : list for_turn := [call; Turn 0; call; Turn 1] ++ replicate 7 (Turn 0) ++ [Turn 1].
Definition mint_run : option (list for_go * cert_shared (W := tree)) := cert_schedule shared_mint.

Definition calls_of (c : option (list for_go * cert_shared (W := tree))) : list for_go := match c with Some (gs, _) => gs | None => [] end.
Definition state_of (c : option (list for_go * cert_shared (W := tree))) : cert_shared (W := tree) :=
  match c with Some (_, s) => s | None => cert_booted sample_disk 1 end.

Definition certificate_of (g : for_go) : TLSCertificate := match g_prog g with Done (_, Ok tc) => tc | _ => no_certificate end.
Definition idle : for_go := spawn (cert_booted sample_disk 1) (Done ([], Error "")).
Definition waiter : for_go := default idle (calls_of mint_run !! 1%nat).

Definition sample_only (reals : list Certificate) : Prop := reals = real_chain.

Lemma sample_only_ok reals : sample_only reals -> Forall parsed reals /\ id_unique sample_only sample_selves cluster_key reals.
Proof.
  intros ->. split; [apply real_parsed|]. destruct sample_unique as [_ H]. split; [|exact H]. by intros reals ->.
Qed.

Lemma sample_store_ok : store_ok sample_ca cluster_key sample_only sample_selves sample_disk.
Proof.
  destruct sample_inv as (_ & Hp & Hs). split; [exact Hp|]. intros id Hu. destruct (Hs id Hu) as [H|[H|(chain & (data & v & certs & Hg & _) & _)]]; [by left|by right; left|].
  exfalso. cbn [Get tree_storage] in Hg. rewrite tree_Get_plain in Hg by apply sample_disk_plain. unfold posix_Get in Hg.
  destruct (fs_up (t_fs sample_disk)); [|done]. destruct (fs_files (t_fs sample_disk) !! certKey id) as [f|] eqn:E; [|done].
  destruct (sample_disk_keys (certKey id)) as [Hk|Hk]; [by apply elem_of_dom_2 in E|discriminate Hk..].
Qed.

Lemma mint_run_runs : cert_runs sample_ca cluster_key sample_only sample_selves sample_disk 1 (calls_of mint_run, state_of mint_run).
Proof.
  split; [apply sample_store_ok|]. apply (schedule_run perform_cert ready _ _ _ (fun _ => True)) with (ts := shared_mint).
  - intros X o s Hr _. split; [by destruct (perform_cert X o s)|done].
  - change (mint_run = Some (calls_of mint_run, state_of mint_run)).
    assert (H : (match mint_run with Some _ => true | None => false end) = true) by (vm_compute; reflexivity). by destruct mint_run as [[gs s]|].
  - unfold shared_mint. cbn [replicate app]. repeat (apply Forall_cons_2 || apply Forall_nil_2); first [exact I|by exists real_chain].
  - exact I.
  - apply Forall_true. done.
Qed.

(** The call that waited got the certificate of the one that minted, and there was one flight. *)
Lemma concurrent_for_clones_witness :
  length (sf_started (state_of mint_run)) = 1%nat /\ length (tc_Certificate (certificate_of waiter)) = 3%nat
  /\ exists synth, clones sample_ca cluster_key true (effectiveChain sample_ca real_chain) synth
       /\ served_clone (factory0 sample_ca cluster_key) synth (certificate_of waiter).
Proof.
  split; [vm_compute; reflexivity|]. split; [vm_compute; reflexivity|].
  apply (concurrent_for_clones sample_ca cluster_key sample_only sample_selves sample_disk 1 (calls_of mint_run) (state_of mint_run) waiter real_chain (certificate_of waiter)).
  - apply sample_ca_ok.
  - exact sample_only_ok.
  - exact mint_run_runs.
  - assert (H : (1 <? length (calls_of mint_run))%nat = true) by (vm_compute; reflexivity). apply Nat.ltb_lt in H.
    destruct (lookup_lt_is_Some_2 _ _ H) as [g Hg]. unfold waiter. rewrite Hg. by eapply list_elem_of_lookup_2.
  - assert (H : (match g_prog waiter with Done (_, Ok _) => true | _ => false end) = true) by (vm_compute; reflexivity).
    assert (Hc : match g_prog waiter with Done (reals, _) => reals = real_chain | Do _ _ => False end) by (vm_compute; reflexivity).
    unfold certificate_of. destruct (g_prog waiter) as [[reals [tc|e]]|]; [by rewrite Hc|done..].
Defined.

(** ** A flush *)

(** A process that finds the chain in storage. *)
Definition reload : option (list for_go * cert_shared (W := tree)) :=
  schedule perform_cert ready
    ([call] ++ replicate 3 (Turn 0)
     ++ [Meanwhile (fun s => let '(_, c, w) := Flush (set_hot (cache0 sample_ca cluster_key) (cs_hot s)) (cs_world s) in with_world (with_hot s (cc_hot c)) w)]
     ++ replicate 2 (Turn 0))
    ([], cert_booted (cs_world (state_of mint_run)) 1).

Definition sample_id : bytes := certID (sanNamespace cluster_key) real_chain.

(** A call has read an entry from storage when the cache is flushed, and puts it in memory afterwards: the
    flush succeeded, no entry is left in storage, and the chain is served from memory until the process
    ends. *)
Theorem flush_outlived :
  let before := cs_world (state_of mint_run) in
  let s := state_of reload in
  is_ok (fst (fst (Flush (cache0 sample_ca cluster_key) before))) = true
  /\ Get (cs_world s) (certKey sample_id) = SNotExist
  /\ match cs_hot s !! sample_id with Some chain => verify (cache0 sample_ca cluster_key) chain | None => false end = true.
Proof. vm_compute. repeat split. Qed.
