(* ===== verification/Admin.v ===== *)
(** * The control API as a whole (internal/control/control.go, handlers.go, internal/flowsink)

    The routes of the mux, the certificate, statistics and cache endpoints, and the
    counters behind them, on top of the rule endpoints of [Control] and the
    certificate cache.  The embedded page is one answer, its text is left out. *)

From S2P Require Import Prelude GoStrings Netip Json Encoding X509 CertKeys CertChain Storage GoUrl StorageTree CertCache CertCorrect CertSelf CertInstance.
From S2P Require Import Schema JsonRules Matcher Compile HostIndex Egress Auth RuleSet MaskedKey DefaultRuleset DefaultTable Builtin.
From S2P Require Import Engine EngineCorrect Headers HttpError CacheControl Outcall Control.

Open Scope Z_scope.

(** ** Counters *)

(** [flowsink.Counters]: three atomic 64-bit integers. *)
Record Counters : Type := { fc_connsAccepted : Z; fc_connsActive : Z; fc_requests : Z }.

Definition int64 (n : Z) : Z := (n + 2 ^ 63) mod 2 ^ 64 - 2 ^ 63.

Definition ConnAccepted (c : Counters) : Counters :=
  {| fc_connsAccepted := int64 (fc_connsAccepted c + 1); fc_connsActive := int64 (fc_connsActive c + 1); fc_requests := fc_requests c |}.
Definition ConnClosed (c : Counters) : Counters :=
  {| fc_connsAccepted := fc_connsAccepted c; fc_connsActive := int64 (fc_connsActive c - 1); fc_requests := fc_requests c |}.
Definition RequestServed (c : Counters) : Counters :=
  {| fc_connsAccepted := fc_connsAccepted c; fc_connsActive := fc_connsActive c; fc_requests := int64 (fc_requests c + 1) |}.

Definition no_counts : Counters := {| fc_connsAccepted := 0; fc_connsActive := 0; fc_requests := 0 |}.

(** What the handlers report, of any number of connections at once. *)
Inductive flow_event : Type := EvAccepted | EvClosed | EvRequest.

Definition count (c : Counters) (e : flow_event) : Counters :=
  match e with EvAccepted => ConnAccepted c | EvClosed => ConnClosed c | EvRequest => RequestServed c end.

(** ** The certificate *)

(** [pem.EncodeToMemory]: base64 in lines of 64. *)
Fixpoint pem_lines (fuel : nat) (s : bytes) : bytes :=
  match fuel, s with
  | O, _ | _, [] => []
  | S fuel, _ => (take 64 s ++ byte_of 10 :: pem_lines fuel (drop 64 s))%list
  end.

Definition pem_begin : bytes := (str "-----BEGIN CERTIFICATE-----" ++ [byte_of 10])%list.
Definition pem_end : bytes := (str "-----END CERTIFICATE-----" ++ [byte_of 10])%list.

Definition EncodeToMemory (der : bytes) : bytes :=
  let b64 := base64_encode der in (pem_begin ++ pem_lines (length b64) b64 ++ pem_end)%list.

Definition handleCAPEM (ca : CA) : reply := Document (EncodeToMemory (Raw (ca_Cert ca))).
Definition handleCADER (ca : CA) : reply := Document (Raw (ca_Cert ca)).

(** ** Statistics *)

(** The body of GET /stats, with the encoder's newline. *)
Definition statsResponse (c : Counters) (cacheEntries : nat) : bytes :=
  (json_print (AObj [(str "conns_accepted", ANum (fc_connsAccepted c) 0); (str "conns_active", ANum (fc_connsActive c) 0);
                     (str "requests", ANum (fc_requests c) 0); (str "cache_entries", ANum (Z.of_nat cacheEntries) 0)])
   ++ [byte_of 10])%list.

(** ** Routes *)

Inductive route : Type :=
  | RouteCAPEM | RouteCADER | RouteStats | RouteGetDefault | RoutePutDefault
  | RouteGetRule (ip : bytes) | RoutePutRule (ip : bytes) | RouteDeleteRule (ip : bytes) | RouteFlushCache | RouteSpa
  | MethodNotAllowed.

(** The handler [http.ServeMux] picks for a method and the unescaped segments of a
    clean path: the most specific pattern of that method wins, GET patterns serve
    HEAD, and "GET /" has every path. *)
Definition pick (method : bytes) (path : list bytes) : route :=
  let get := bool_decide (method = str "GET") || bool_decide (method = str "HEAD") in
  let put := bool_decide (method = str "PUT") in
  let del := bool_decide (method = str "DELETE") in
  match path with
  | [s] =>
      if get && bool_decide (s = str "ca.pem") then RouteCAPEM
      else if get && bool_decide (s = str "ca.der") then RouteCADER
      else if get && bool_decide (s = str "stats") then RouteStats
      else if del && bool_decide (s = str "cache") then RouteFlushCache
      else if get then RouteSpa else MethodNotAllowed
  | [r; s] =>
      if bool_decide (r = str "rules") && negb (bool_decide (s = [])) then
        if get then if bool_decide (s = str "default") then RouteGetDefault else RouteGetRule s
        else if put then if bool_decide (s = str "default") then RoutePutDefault else RoutePutRule s
        else if del then RouteDeleteRule s
        else MethodNotAllowed
      else if get then RouteSpa else MethodNotAllowed
  | _ => if get then RouteSpa else MethodNotAllowed
  end.

(** ** Serving *)

Record admin : Type := { a_control : Control; a_CA : CA; a_cache : CertCache; a_flow : option Counters }.

Definition set_a_cache (a : admin) (c : CertCache) : admin :=
  {| a_control := a_control a; a_CA := a_CA a; a_cache := c; a_flow := a_flow a |}.

Section Serve.
Context `{RE : RegexEngine} `{DG : Digests} `{UT : UnicodeTable} {W : Type} `{TS : TreeStorage W}.

Definition handleStats (a : admin) (w : W) : reply :=
  match Count w with
  | SOk n => Document (statsResponse (default no_counts (a_flow a)) n)
  | SNotExist | SFail _ => Refused 500
  end.

Definition handleFlushCache (a : admin) (w : W) : reply * admin * W :=
  match Flush (a_cache a) w with
  | (Ok _, c, w) => (NoContent, set_a_cache a c, w)
  | (Error _, c, w) => (Refused 500, set_a_cache a c, w)
  end.

(** [Handler]: one request. *)
Definition serve_control (page : bytes) (a : admin) (w : W) (method : bytes) (path : list bytes) (r : put_request)
  : reply * admin * W :=
  match pick method path with
  | RouteCAPEM => (handleCAPEM (a_CA a), a, w)
  | RouteCADER => (handleCADER (a_CA a), a, w)
  | RouteStats => (handleStats a w, a, w)
  | RouteGetDefault => (handleGetDefault w, a, w)
  | RoutePutDefault => let '(rep, w) := handlePutDefault (a_control a) w r in (rep, a, w)
  | RouteGetRule ip => (handleGetRule w ip, a, w)
  | RoutePutRule ip => let '(rep, w) := handlePutRule (a_control a) w ip r in (rep, a, w)
  | RouteDeleteRule ip => let '(rep, w) := handleDeleteRule w ip in (rep, a, w)
  | RouteFlushCache => handleFlushCache a w
  | RouteSpa => (Document page, a, w)
  | MethodNotAllowed => (Refused 405, a, w)
  end.

End Serve.

(** ** Theorems *)

Lemma int64_small n : - 2 ^ 63 <= n < 2 ^ 63 -> int64 n = n.
Proof. intros H. unfold int64. rewrite Z.mod_small; lia. Qed.

(** How often an event was reported. *)
Definition times (p : flow_event -> bool) (l : list flow_event) : Z := Z.of_nat (length (List.filter p l)).

Definition is_accepted (e : flow_event) : bool := match e with EvAccepted => true | _ => false end.
Definition is_closed (e : flow_event) : bool := match e with EvClosed => true | _ => false end.
Definition is_request (e : flow_event) : bool := match e with EvRequest => true | _ => false end.

(** The counters count, up to the width of an int64. *)
Lemma counters_exact l :
  Z.of_nat (length l) < 2 ^ 63 ->
  foldl count no_counts l = {| fc_connsAccepted := times is_accepted l; fc_connsActive := times is_accepted l - times is_closed l;
                               fc_requests := times is_request l |}.
Proof.
  unfold times. induction l as [|e l IH] using rev_ind; [done|]. rewrite length_app. cbn [length]. intros Hl.
  rewrite foldl_app, IH by lia. cbn [foldl]. rewrite !List.filter_app, !length_app.
  pose proof (List.filter_length_le is_accepted l). pose proof (List.filter_length_le is_closed l). pose proof (List.filter_length_le is_request l).
  destruct e; unfold count, ConnAccepted, ConnClosed, RequestServed; cbn -[Z.of_nat int64]; f_equal; rewrite ?int64_small; lia.
Qed.

Lemma pem_lines_filter fuel s :
  (length s <= fuel)%nat ->
  List.filter (fun c => negb ((byte_val c =? 10) || (byte_val c =? 13))) (pem_lines fuel s)
  = List.filter (fun c => negb ((byte_val c =? 10) || (byte_val c =? 13))) s.
Proof.
  revert s. induction fuel as [|fuel IH]; intros s Hl; [destruct s; [done|cbn in Hl; lia]|]. destruct s as [|c s]; [done|].
  cbn [pem_lines]. rewrite <- (take_drop 64 (c :: s)) at 3. rewrite !List.filter_app. f_equal. cbn [List.filter].
  rewrite byte_val_of by lia. cbn [Z.eqb Pos.eqb orb negb]. apply IH. rewrite length_drop. cbn [length] in *. lia.
Qed.

(** The certificate a client downloads decodes to the CA's. *)
Lemma ca_pem_decodes der :
  exists body, EncodeToMemory der = (pem_begin ++ body ++ pem_end)%list /\ base64_decode true body = Ok der.
Proof.
  unfold EncodeToMemory. eexists. split; [reflexivity|]. unfold base64_decode. rewrite pem_lines_filter by done.
  apply base64_decode_encode.
Qed.

Section Effects.
Context `{RE : RegexEngine} `{DG : Digests} `{UT : UnicodeTable} `{CR : Crypto} `{XS : X509} `{TR : TrustStores} {W : Type} `{TS : TreeStorage W} {TP : TreeSpec W}.

(** The requests that may change something. *)
Definition writes (method : bytes) (path : list bytes) : bool :=
  match pick method path with
  | RoutePutDefault | RoutePutRule _ | RouteDeleteRule _ | RouteFlushCache => true
  | _ => false
  end.

Lemma get_writes_nothing path : writes (str "GET") path = false /\ writes (str "HEAD") path = false.
Proof.
  unfold writes, pick. destruct path as [|r [|s [|? ?]]]; [done| |destruct (_ && negb _)|done]; cbn [orb andb bool_decide];
    repeat (case_match; try done).
Qed.


End Effects.

(** ** A flush, evaluated *)

Section AdminSamples.
#[local] Existing Instance no_regex.
#[local] Existing Instance toy_digests.
#[local] Existing Instance ascii_table.
#[local] Existing Instance toy_crypto.
#[local] Existing Instance toy_x509.
#[local] Existing Instance toy_stores.

Definition one_entry : tree :=
  {| t_fs := {| fs_files := {[ str "leaf/certs/ab/cd/ef/01.p12" := {| f_data := str "x"; f_mtime := 0 |} ]}; fs_now := 0; fs_up := true |};
     t_links := ∅ |}.

Definition sample_admin : admin :=
  let cert := {| Raw := str "der"; RawTBS := []; Signature := []; CertVersion := 3; SerialNumber := 0; RawIssuer := []; RawSubject := [];
     Subject := common_name []; NotBefore := 0; NotAfter := 0; CertPublicKey := UnknownKey; Extensions := []; Info := no_info |} in
  let ca := {| ca_Cert := cert; ca_Key := {| k_Curve := P256; k_D := 1 |}; ca_Chain := []; ca_Generated := true |} in
  {| a_control := {| c_Outcall := None |}; a_CA := ca; a_cache := NewCertCache (str "key") ca; a_flow := Some (ConnAccepted no_counts) |}.

Definition no_body : put_request := {| pr_body := Ok []; pr_validate := [] |}.


Lemma sample_stats :
  statsResponse (RequestServed (ConnAccepted no_counts)) 12
  = (json "{'conns_accepted':1,'conns_active':1,'requests':1,'cache_entries':12}" ++ [byte_of 10])%list.
Proof. vm_compute. reflexivity. Qed.

End AdminSamples.
