(* ===== verification/Acceptors.v ===== *)
(** * Accepting connections (internal/session/httpproxy_acceptor.go, redirect_acceptor_linux.go,
      tproxy_acceptor_linux.go, internal/proxy/dispatcher.go, acceptLoop of cmd/mitmania/main.go)

    How each listener fills in the client and the destination of a session, and the
    loop that hands sessions to the dispatcher.  What the kernel answers is an
    argument; a raw socket address comes with its port as the two bytes in memory. *)

From S2P Require Import Prelude GoStrings Netip Encoding X509 ClientIP.

Open Scope Z_scope.

(** ** Connections *)

(** A [net.Addr]: the bytes of a [net.IP] and a port, or another kind of address. *)
Inductive net_addr : Type := TCPAddr (ip : list Z) (port : Z) | OtherAddr.

Record raw_sockaddr : Type := { sa_port : Z * Z; sa_addr : list Z }.

(** An accepted connection: whether it is a [net.TCPConn], its addresses, how getting
    at its file descriptor fails, and the answers to SO_ORIGINAL_DST at [SOL_IP] and
    at [SOL_IPV6]. *)
Record conn : Type := {
  c_tcp : bool; c_RemoteAddr : net_addr; c_LocalAddr : net_addr;
  c_SyscallConn : option string; c_Control : option string;
  c_dst4 : result raw_sockaddr; c_dst6 : result raw_sockaddr }.

(** What [net.Listener.Accept] and the acceptors fail with. *)
Inductive accept_error : Type := ErrClosed | AcceptErr (e : string).

Inductive acceptor : Type :=
  | HTTPProxyAcceptor (name : bytes)
  | RedirectAcceptor (name : bytes)
  | TProxyAcceptor (name : bytes).

Definition acceptor_name (a : acceptor) : bytes :=
  match a with HTTPProxyAcceptor n | RedirectAcceptor n | TProxyAcceptor n => n end.

(** A session with the connection and the listener it came from. *)
Record accepted : Type := { ac_Session : Session; ac_Conn : conn; ac_Acceptor : bytes }.

Definition no_addr : AddrPort := {| ap_Addr := AddrZero; ap_Port := 0 |}.

(** The client of a session: the peer, where it has an IP address. *)
Definition client_of (c : conn) : AddrPort :=
  match c_RemoteAddr c with TCPAddr ip port => tcpAddrPort ip port | OtherAddr => no_addr end.

(** ** The original destination *)

Definition ntohs (p : Z) : Z := Z.lor (Z.shiftr p 8) (Z.shiftl p 8 mod 2 ^ 16).

(** A [uint16] read from memory, in the byte order of the machine. *)
Definition load16 (big_endian : bool) (b : Z * Z) : Z :=
  if big_endian then fst b * 256 + snd b else snd b * 256 + fst b.

Definition getOriginalDst4 (big_endian : bool) (answer : result raw_sockaddr) : result AddrPort :=
  raw ← wrap "getsockopt SOL_IP/SO_ORIGINAL_DST" answer;
  Ok {| ap_Addr := Addr4 (of_be (sa_addr raw)); ap_Port := ntohs (load16 big_endian (sa_port raw)) |}.

Definition getOriginalDst6 (big_endian : bool) (answer : result raw_sockaddr) : result AddrPort :=
  raw ← wrap "getsockopt SOL_IPV6/IP6T_SO_ORIGINAL_DST" answer;
  Ok {| ap_Addr := Addr6 (of_be (sa_addr raw)) []; ap_Port := ntohs (load16 big_endian (sa_port raw)) |}.

Definition originalDst (big_endian : bool) (c : conn) : result AddrPort :=
  if negb (c_tcp c) then Error "not a TCP connection"
  else
    match c_SyscallConn c, c_LocalAddr c, c_Control c with
    | Some e, _, _ => wrap "SyscallConn" (Error e)
    | None, OtherAddr, _ => Error "LocalAddr: not a TCP address"
    | None, TCPAddr _ _, Some e => wrap "Control" (Error e)
    | None, TCPAddr ip _, None =>
        match To4 ip with
        | Some _ => getOriginalDst4 big_endian (c_dst4 c)
        | None => getOriginalDst6 big_endian (c_dst6 c)
        end
    end.

(** ** The acceptors *)

(** [Accept] of each acceptor on a connection of its listener, and whether it closed
    the connection. *)
Definition HTTPProxy_Accept (name : bytes) (c : conn) : (accepted + accept_error) * bool :=
  (inl {| ac_Session := {| s_Client := client_of c; s_Dst := no_addr; s_Transport := TransportExplicit |};
          ac_Conn := c; ac_Acceptor := name |}, false).

Definition Redirect_Accept (big_endian : bool) (name : bytes) (c : conn) : (accepted + accept_error) * bool :=
  match wrap "redirect: recover original destination" (originalDst big_endian c) with
  | Error e => (inr (AcceptErr e), true)
  | Ok dst =>
      (inl {| ac_Session := {| s_Client := client_of c; s_Dst := dst; s_Transport := TransportRedirect |};
              ac_Conn := c; ac_Acceptor := name |}, false)
  end.

Definition TProxy_Accept (name : bytes) (c : conn) : (accepted + accept_error) * bool :=
  match c_LocalAddr c with
  | OtherAddr => (inr (AcceptErr "tproxy: LocalAddr: not a TCP address"), true)
  | TCPAddr ip port =>
      (inl {| ac_Session := {| s_Client := client_of c; s_Dst := tcpAddrPort ip port; s_Transport := TransportTProxy |};
              ac_Conn := c; ac_Acceptor := name |}, false)
  end.

(** [Acceptor.Accept]; the listener's own failure is passed on. *)
Definition Accept (big_endian : bool) (a : acceptor) (answer : conn + accept_error) : (accepted + accept_error) * bool :=
  match answer with
  | inr e => (inr e, false)
  | inl c =>
      match a with
      | HTTPProxyAcceptor name => HTTPProxy_Accept name c
      | RedirectAcceptor name => Redirect_Accept big_endian name c
      | TProxyAcceptor name => TProxy_Accept name c
      end
  end.

(** The socket options of [ListenTProxy]: [control] is how reaching the descriptor fails. *)
Definition transparent_options (control v4Err v6Err : option string) : option string :=
  match control, v4Err, v6Err with
  | Some e, _, _ => Some e
  | None, Some e4, Some e6 => Some ("set IP_TRANSPARENT: " +:+ e4 +:+ "; set IPV6_TRANSPARENT: " +:+ e6)%string
  | None, _, _ => None
  end.

(** [ListenTProxy]: the socket is bound once its options are set. *)
Definition ListenTProxy (control v4Err v6Err : option string) (bind : result unit) : result unit :=
  match transparent_options control v4Err v6Err with
  | Some e => Error e
  | None => bind
  end.

(** ** The accept loop *)

(** What one turn of the loop leads to. *)
Inductive loop_event : Type := Handled (s : accepted) | Logged (e : accept_error) | LoopEnded.

(** [acceptLoop] over the answers of the listener, each with whether the context had
    ended by then. *)
Fixpoint acceptLoop (big_endian : bool) (a : acceptor) (answers : list ((conn + accept_error) * bool)) : list loop_event :=
  match answers with
  | [] => []
  | (answer, cancelled) :: t =>
      match fst (Accept big_endian a answer) with
      | inl s => Handled s :: acceptLoop big_endian a t
      | inr ErrClosed => [LoopEnded]
      | inr (AcceptErr e) => if cancelled then [LoopEnded] else Logged (AcceptErr e) :: acceptLoop big_endian a t
      end
  end.

(** [Dispatcher.Handle]: the accounting and the span around the handler. *)
Inductive dispatch_event : Type :=
  | ConnectionOpened (listener transport : bytes)
  | SpanStarted (client listener transport : bytes)
  | Serve (s : accepted)
  | SpanEnded
  | ConnectionClosed (listener transport : bytes).

Definition Handle (tracer : bool) (s : accepted) : list dispatch_event :=
  let transport := Transport_String (s_Transport (ac_Session s)) in
  ([ConnectionOpened (ac_Acceptor s) transport]
   ++ (if tracer then [SpanStarted (AddrString (ClientKey (ac_Session s))) (ac_Acceptor s) transport; Serve s; SpanEnded]
       else [Serve s])
   ++ [ConnectionClosed (ac_Acceptor s) transport])%list.

(** ** Theorems *)

(** A socket address as the network writes it: the port most significant byte first. *)
Definition sockaddr (size : nat) (v port : Z) : raw_sockaddr :=
  {| sa_port := (port / 256, port mod 256); sa_addr := be_bytes size v |}.

Lemma ntohs_swaps hi lo : 0 <= hi < 256 -> 0 <= lo < 256 -> ntohs (hi * 256 + lo) = lo * 256 + hi.
Proof.
  intros Hh Hl. unfold ntohs.
  assert (Z.shiftr (hi * 256 + lo) 8 = hi) as -> by (rewrite Z.shiftr_div_pow2 by lia; change (2 ^ 8) with 256; Z.div_mod_to_equations; lia).
  assert (Z.shiftl (hi * 256 + lo) 8 mod 2 ^ 16 = Z.shiftl lo 8) as ->
    by (rewrite !Z.shiftl_mul_pow2 by lia; change (2 ^ 8) with 256; change (2 ^ 16) with 65536; Z.div_mod_to_equations; lia).
  assert (Z.land (Z.shiftl lo 8) hi = 0) as Hland.
  { apply Z.bits_inj_iff'. intros n Hn. rewrite Z.land_spec, Z.bits_0.
    destruct (decide (n < 8)) as [Hlt|Hge]; [by rewrite Z.shiftl_spec_low|].
    replace (Z.testbit hi n) with false; [apply andb_false_r|].
    destruct (decide (hi = 0)) as [->|]; [by rewrite Z.bits_0|].
    symmetry. apply Z.bits_above_log2; [lia|]. assert (Z.log2 hi < 8) by (apply Z.log2_lt_pow2; lia). lia. }
  rewrite Z.lor_comm, <- Z.lxor_lor, <- Z.add_nocarry_lxor, Z.shiftl_mul_pow2 by (done || lia). done.
Qed.

Lemma port_bytes p : 0 <= p < 65536 -> 0 <= p / 256 < 256 /\ 0 <= p mod 256 < 256 /\ p / 256 * 256 + p mod 256 = p.
Proof. intros H. Z.div_mod_to_equations. lia. Qed.

Lemma port_recovered p : 0 <= p < 65536 -> ntohs (load16 false (p / 256, p mod 256)) = p.
Proof. intros H. destruct (port_bytes p H) as (Hh & Hl & E). cbn [load16 fst snd]. by rewrite ntohs_swaps. Qed.

(** On a big-endian machine the port that comes out has its bytes exchanged. *)
Theorem big_endian_port_swapped p :
  0 <= p < 65536 -> ntohs (load16 true (p / 256, p mod 256)) = p mod 256 * 256 + p / 256.
Proof. intros H. destruct (port_bytes p H) as (Hh & Hl & E). cbn [load16 fst snd]. by rewrite ntohs_swaps. Qed.

Lemma originalDst_v4 c ip lport v port :
  c_tcp c = true -> c_SyscallConn c = None -> c_Control c = None -> c_LocalAddr c = TCPAddr ip lport -> is_Some (To4 ip) ->
  c_dst4 c = Ok (sockaddr 4 v port) -> 0 <= v < 2 ^ 32 -> 0 <= port < 65536 ->
  originalDst false c = Ok {| ap_Addr := Addr4 v; ap_Port := port |}.
Proof.
  intros Ht Hs Hc Hl [ip4 H4] Hd Hv Hp. unfold originalDst. rewrite Ht, Hs, Hc, Hl, H4, Hd. cbn [negb getOriginalDst4 wrap mbind result_bind].
  unfold sockaddr. cbn [sa_addr sa_port]. by rewrite port_recovered, of_be_be_bytes by done.
Qed.

Lemma originalDst_v6 c ip lport v port :
  c_tcp c = true -> c_SyscallConn c = None -> c_Control c = None -> c_LocalAddr c = TCPAddr ip lport -> To4 ip = None ->
  c_dst6 c = Ok (sockaddr 16 v port) -> 0 <= v < 2 ^ 128 -> 0 <= port < 65536 ->
  originalDst false c = Ok {| ap_Addr := Addr6 v []; ap_Port := port |}.
Proof.
  intros Ht Hs Hc Hl H6 Hd Hv Hp. unfold originalDst. rewrite Ht, Hs, Hc, Hl, H6, Hd. cbn [negb getOriginalDst6 wrap mbind result_bind].
  unfold sockaddr. cbn [sa_addr sa_port]. by rewrite port_recovered, of_be_be_bytes by done.
Qed.

(** A connection that is not handed on is closed, and one that is handed on is open. *)
Lemma Accept_closes be a c : snd (Accept be a (inl c)) = match fst (Accept be a (inl c)) with inl _ => false | inr _ => true end.
Proof. unfold Accept, HTTPProxy_Accept, Redirect_Accept, TProxy_Accept. by repeat case_match. Qed.

(** A [net.Addr] stands for an address and port; Go writes an IPv4 address as four
    bytes or as the sixteen of its mapped form. *)
Definition ip_names (ip : list Z) (a : Addr) : Prop :=
  match a with
  | AddrZero => False
  | Addr4 v => 0 <= v < 2 ^ 32 /\ (ip = be_bytes 4 v \/ ip = be_bytes 16 (0xffff * 2 ^ 32 + v))
  | Addr6 v z => 0 <= v < 2 ^ 128 /\ z = [] /\ Is4In6 a = false /\ ip = be_bytes 16 v
  end.

Definition names (n : net_addr) (ap : AddrPort) : Prop :=
  match n with
  | TCPAddr ip port => ip_names ip (ap_Addr ap) /\ port = ap_Port ap /\ 0 <= port < 65536
  | OtherAddr => False
  end.

Lemma tcpAddrPort_names ip port ap : names (TCPAddr ip port) ap -> tcpAddrPort ip port = ap.
Proof.
  destruct ap as [a p]. intros (Hip & -> & Hp). cbn [ap_Addr ap_Port] in *. unfold tcpAddrPort. f_equal; [|by apply Z.mod_small].
  unfold AddrFromSlice. destruct a as [|v|v z]; [done| |].
  - destruct Hip as [Hv [-> | ->]]; rewrite length_be_bytes; cbn [Nat.eqb default]; rewrite of_be_be_bytes by (simpl; lia); [done|].
    unfold Unmap, Is4In6, id. cbn [addr_val]. rewrite Z.div_add_l, Z.div_small by lia. cbn. f_equal.
    rewrite Z.add_comm, Z.mod_add by lia. by apply Z.mod_small.
  - destruct Hip as (Hv & -> & Hm & ->). rewrite length_be_bytes. cbn [Nat.eqb default]. rewrite of_be_be_bytes by done.
    unfold Unmap, id. by rewrite Hm.
Qed.

(** The kernel tells the acceptor [a] of a connection from [client] to [dst]. *)
Definition reports (a : acceptor) (c : conn) (client dst : AddrPort) : Prop :=
  names (c_RemoteAddr c) client
  /\ match a with
     | HTTPProxyAcceptor _ => dst = no_addr
     | TProxyAcceptor _ => names (c_LocalAddr c) dst
     | RedirectAcceptor _ =>
         c_tcp c = true /\ c_SyscallConn c = None /\ c_Control c = None /\ 0 <= ap_Port dst < 65536
         /\ exists ip lport, c_LocalAddr c = TCPAddr ip lport
            /\ match ap_Addr dst with
               | Addr4 v => is_Some (To4 ip) /\ 0 <= v < 2 ^ 32 /\ c_dst4 c = Ok (sockaddr 4 v (ap_Port dst))
               | Addr6 v [] => To4 ip = None /\ 0 <= v < 2 ^ 128 /\ c_dst6 c = Ok (sockaddr 16 v (ap_Port dst))
               | _ => False
               end
     end.

Definition transport_of (a : acceptor) : Transport :=
  match a with HTTPProxyAcceptor _ => TransportExplicit | RedirectAcceptor _ => TransportRedirect | TProxyAcceptor _ => TransportTProxy end.

Lemma Accept_reports a c client dst :
  reports a c client dst ->
  Accept false a (inl c)
  = (inl {| ac_Session := {| s_Client := client; s_Dst := dst; s_Transport := transport_of a |}; ac_Conn := c; ac_Acceptor := acceptor_name a |}, false).
Proof.
  intros [Hr Ha].
  assert (client_of c = client) as Ec by (unfold client_of; destruct (c_RemoteAddr c); [by apply tcpAddrPort_names|done]).
  destruct a as [n|n|n]; cbn [Accept transport_of acceptor_name]; unfold HTTPProxy_Accept, Redirect_Accept, TProxy_Accept; rewrite Ec.
  - by subst.
  - destruct Ha as (Ht & Hs & Hc & Hp & ip & lport & Hl & Hd). destruct dst as [[|v|v [|]] port]; cbn [ap_Addr ap_Port] in *; try done;
      destruct Hd as (H4 & Hv & Hd).
    + by rewrite (originalDst_v4 c ip lport v port).
    + by rewrite (originalDst_v6 c ip lport v port).
  - destruct (c_LocalAddr c); [|done]. by rewrite (tcpAddrPort_names _ _ _ Ha).
Qed.

(** What one answer of the listener should lead to while the loop runs. *)
Inductive turn (a : acceptor) : (conn + accept_error) * bool -> loop_event -> Prop :=
  | turn_session c client dst cancelled :
      reports a c client dst ->
      turn a (inl c, cancelled)
        (Handled {| ac_Session := {| s_Client := client; s_Dst := dst; s_Transport := transport_of a |};
                    ac_Conn := c; ac_Acceptor := acceptor_name a |})
  | turn_error e : turn a (inr (AcceptErr e), false) (Logged (AcceptErr e)).

(** C20: on a little-endian machine every connection a listener accepts until it is closed
    reaches the dispatcher, in order, with the client it came from, the destination the
    client asked for (recovered from the kernel on REDIRECT, the local address on TPROXY,
    none on the explicit proxy) and the listener's name and transport; failures in between
    are logged and skipped, and closing the listener ends the loop. *)
Theorem accept_loop_addresses a answers events b rest :
  Forall2 (turn a) answers events ->
  acceptLoop false a (answers ++ (inr ErrClosed, b) :: rest) = (events ++ [LoopEnded])%list.
Proof.
  induction 1 as [|x ev answers events Ht _ IH]; [done|]. cbn [app].
  destruct Ht as [c client dst cancelled Hr|e]; cbn [acceptLoop]; [rewrite (Accept_reports _ _ _ _ Hr)|]; cbn [fst Accept]; by rewrite IH.
Qed.

(** *** A redirected connection, a failure and a connection over IPv6 *)

Definition sample_conn (local : list Z) (dst4 dst6 : result raw_sockaddr) : conn :=
  {| c_tcp := true; c_RemoteAddr := TCPAddr (be_bytes 16 (0xffff * 2 ^ 32 + 3232235777)) 40000; c_LocalAddr := TCPAddr local 8443;
     c_SyscallConn := None; c_Control := None; c_dst4 := dst4; c_dst6 := dst6 |}.

Definition conn4 : conn := sample_conn (be_bytes 4 167772161) (Ok (sockaddr 4 1572395042 443)) (Error "no such option").
Definition conn6 : conn := sample_conn (be_bytes 16 1) (Error "no such option") (Ok (sockaddr 16 (2 ^ 125 + 5) 8080)).
Definition sample_client : AddrPort := {| ap_Addr := Addr4 3232235777; ap_Port := 40000 |}.
Definition sample_acceptor : acceptor := RedirectAcceptor (str "http_redirect").

Definition sample_events : list loop_event :=
  [Handled {| ac_Session := {| s_Client := sample_client; s_Dst := {| ap_Addr := Addr4 1572395042; ap_Port := 443 |}; s_Transport := TransportRedirect |};
              ac_Conn := conn4; ac_Acceptor := str "http_redirect" |};
   Logged (AcceptErr "too many open files");
   Handled {| ac_Session := {| s_Client := sample_client; s_Dst := {| ap_Addr := Addr6 (2 ^ 125 + 5) []; ap_Port := 8080 |}; s_Transport := TransportRedirect |};
              ac_Conn := conn6; ac_Acceptor := str "http_redirect" |}].

Lemma sample_client_named local dst4 dst6 : names (c_RemoteAddr (sample_conn local dst4 dst6)) sample_client.
Proof. cbn [c_RemoteAddr sample_conn]. split; [split; [lia|by right]|]. cbn [sample_client ap_Port]. lia. Qed.

Lemma conn4_reports : reports sample_acceptor conn4 sample_client {| ap_Addr := Addr4 1572395042; ap_Port := 443 |}.
Proof.
  split; [apply sample_client_named|]. do 3 (split; [done|]). split; [cbn [ap_Port]; lia|].
  exists (be_bytes 4 167772161), 8443. split; [done|]. cbn [ap_Addr ap_Port]. split; [by eexists|]. split; [lia|done].
Qed.

Lemma conn6_reports : reports sample_acceptor conn6 sample_client {| ap_Addr := Addr6 (2 ^ 125 + 5) []; ap_Port := 8080 |}.
Proof.
  split; [apply sample_client_named|]. do 3 (split; [done|]). split; [cbn [ap_Port]; lia|].
  exists (be_bytes 16 1), 8443. split; [done|]. cbn [ap_Addr ap_Port]. split; [by vm_compute|]. split; [lia|done].
Qed.

Lemma accept_loop_addresses_witness :
  acceptLoop false sample_acceptor ([(inl conn4, false); (inr (AcceptErr "too many open files"), false); (inl conn6, true)] ++ [(inr ErrClosed, true)])
  = (sample_events ++ [LoopEnded])%list.
Proof.
  apply (accept_loop_addresses sample_acceptor). constructor; [exact (turn_session _ _ _ _ _ conn4_reports)|].
  constructor; [apply turn_error|]. constructor; [exact (turn_session _ _ _ _ _ conn6_reports)|constructor].
Defined.
