(* ===== verification/Instruments.v ===== *)
(** * Measurements (internal/telemetry/instruments.go)

    The instruments of the process, how their creation can fail, and what each call
    measures.  A nil [Metrics] records nothing. *)

From S2P Require Import Prelude GoStrings Netip ClientIP Acceptors.

Open Scope Z_scope.

(** ** The instruments *)

Inductive instrument : Type :=
  | connectionsActive | connectionsTotal | requestsTotal | requestDuration | bytesStreamed
  | upstreamDialsTotal | upstreamDialDuration | upstreamTTFB | upstreamReconnects
  | tlsHandshakeDuration
  | certMintsTotal | certCacheTotal | certDuration
  | rulesCompilesTotal | rulesActiveClients | rulesCompileDuration
  | outcallTotal | outcallInflight | outcallDuration | outcallCacheTotal
  | storageOpDuration.

#[export] Instance instrument_eq_dec : EqDecision instrument.
Proof. solve_decision. Defined.

(** In the order they are created. *)
Definition instruments : list instrument :=
  [connectionsActive; connectionsTotal; requestsTotal; requestDuration; bytesStreamed;
   upstreamDialsTotal; upstreamDialDuration; upstreamTTFB; upstreamReconnects; tlsHandshakeDuration;
   certMintsTotal; certCacheTotal; certDuration; rulesCompilesTotal; rulesActiveClients; rulesCompileDuration;
   outcallTotal; outcallInflight; outcallDuration; outcallCacheTotal; storageOpDuration].

Definition instrument_name (i : instrument) : bytes :=
  match i with
  | connectionsActive => str "mitmania.connections.active"
  | connectionsTotal => str "mitmania.connections.total"
  | requestsTotal => str "mitmania.requests.total"
  | requestDuration => str "mitmania.request.duration"
  | bytesStreamed => str "mitmania.bytes.streamed"
  | upstreamDialsTotal => str "mitmania.upstream.dials.total"
  | upstreamDialDuration => str "mitmania.upstream.dial.duration"
  | upstreamTTFB => str "mitmania.upstream.ttfb"
  | upstreamReconnects => str "mitmania.upstream.reconnects.total"
  | tlsHandshakeDuration => str "mitmania.tls.handshake.duration"
  | certMintsTotal => str "mitmania.cert.mints.total"
  | certCacheTotal => str "mitmania.cert.cache.total"
  | certDuration => str "mitmania.cert.duration"
  | rulesCompilesTotal => str "mitmania.rules.compiles.total"
  | rulesActiveClients => str "mitmania.rules.active_clients"
  | rulesCompileDuration => str "mitmania.rules.compile.duration"
  | outcallTotal => str "mitmania.outcall.total"
  | outcallInflight => str "mitmania.outcall.inflight"
  | outcallDuration => str "mitmania.outcall.duration"
  | outcallCacheTotal => str "mitmania.outcall.cache.total"
  | storageOpDuration => str "mitmania.storage.op.duration"
  end.

(** [reg], over the variable [err] it shares with the assignments. *)
Definition reg (err e : option string) : option string :=
  match e, err with Some e, None => Some e | _, _ => err end.

(** One creation: the assignment to [err], then [reg(err)]. *)
Definition create_one (create : instrument -> option string) (err : option string) (i : instrument) : option string :=
  let err := create i in reg err err.

(** ** Measuring *)

Definition attribute : Type := bytes * bytes.

(** A counter moves by [n], or a histogram gets a duration in nanoseconds. *)
Inductive measurement : Type :=
  | Add (i : instrument) (n : Z) (attrs : list attribute)
  | Observe (i : instrument) (d : Z) (attrs : list attribute).

(** [*Metrics]: nil, or what was measured, oldest first. *)
Definition Metrics : Type := option (list measurement).

Definition measure (m : Metrics) (l : list measurement) : Metrics := (fun old => old ++ l)%list <$> m.

Definition NewMetrics (create : instrument -> option string) : result Metrics :=
  match foldl (create_one create) None instruments with
  | Some e => wrap "telemetry: instrument creation" (Error e)
  | None => Ok (Some [])
  end.

Definition label (k : string) (v : bytes) : attribute := (str k, v).

Definition m_ConnectionOpened (m : Metrics) (listener transport : bytes) : Metrics :=
  let attrs := [label "listener" listener; label "transport" transport] in
  measure m [Add connectionsActive 1 attrs; Add connectionsTotal 1 attrs].

Definition m_ConnectionClosed (m : Metrics) (listener transport : bytes) : Metrics :=
  measure m [Add connectionsActive (-1) [label "listener" listener; label "transport" transport]].

Definition m_Request (m : Metrics) (proto outcome statusClass verdict mitm : bytes) (d : Z) : Metrics :=
  measure m
    [Add requestsTotal 1 [label "proto" proto; label "outcome" outcome; label "status_class" statusClass; label "verdict" verdict; label "mitm" mitm];
     Observe requestDuration d [label "proto" proto]].

Definition m_BytesStreamed (m : Metrics) (direction : bytes) (n : Z) : Metrics :=
  if n =? 0 then m else measure m [Add bytesStreamed n [label "direction" direction]].

Definition m_UpstreamDial (m : Metrics) (proto res : bytes) (d : Z) : Metrics :=
  measure m [Add upstreamDialsTotal 1 [label "result" res]; Observe upstreamDialDuration d [label "proto" proto; label "result" res]].

Definition m_UpstreamTTFB (m : Metrics) (proto : bytes) (d : Z) : Metrics := measure m [Observe upstreamTTFB d [label "proto" proto]].

Definition m_UpstreamReconnect (m : Metrics) (reason : bytes) : Metrics := measure m [Add upstreamReconnects 1 [label "reason" reason]].

Definition m_TLSHandshake (m : Metrics) (leg res : bytes) (d : Z) : Metrics :=
  measure m [Observe tlsHandshakeDuration d [label "leg" leg; label "result" res]].

Definition m_CertMint (m : Metrics) (kind : bytes) : Metrics := measure m [Add certMintsTotal 1 [label "kind" kind]].

Definition m_CertCache (m : Metrics) (res : bytes) : Metrics := measure m [Add certCacheTotal 1 [label "result" res]].

Definition m_CertDuration (m : Metrics) (op cacheResult : bytes) (d : Z) : Metrics :=
  measure m [Observe certDuration d [label "op" op; label "cache_result" cacheResult]].

Definition m_RuleCompile (m : Metrics) (res : bytes) (d : Z) : Metrics :=
  measure m [Add rulesCompilesTotal 1 [label "result" res]; Observe rulesCompileDuration d [label "result" res]].

Definition m_RulesActiveClients (m : Metrics) (delta : Z) : Metrics := measure m [Add rulesActiveClients delta []].

Definition m_OutcallResult (m : Metrics) (action res : bytes) : Metrics :=
  measure m [Add outcallTotal 1 [label "action" action; label "result" res]].

Definition m_OutcallInflight (m : Metrics) (delta : Z) : Metrics := measure m [Add outcallInflight delta []].

Definition m_OutcallDuration (m : Metrics) (action cacheResult : bytes) (d : Z) : Metrics :=
  measure m [Observe outcallDuration d [label "action" action; label "cache_result" cacheResult]].

Definition m_OutcallCache (m : Metrics) (res : bytes) : Metrics := measure m [Add outcallCacheTotal 1 [label "result" res]].

Definition m_StorageOp (m : Metrics) (op backend res : bytes) (d : Z) : Metrics :=
  measure m [Observe storageOpDuration d [label "op" op; label "backend" backend; label "result" res]].

(** What the dispatcher's accounting measures. *)
Definition dispatch_measures (m : Metrics) (e : dispatch_event) : Metrics :=
  match e with
  | ConnectionOpened l t => m_ConnectionOpened m l t
  | ConnectionClosed l t => m_ConnectionClosed m l t
  | _ => m
  end.

(** ** Theorems *)

(** The value of a counter's series. *)
Definition series (i : instrument) (attrs : list attribute) (l : list measurement) : Z :=
  foldr (fun x n => match x with Add j k a => if bool_decide (j = i /\ a = attrs) then k + n else n | Observe _ _ _ => n end) 0 l.

Lemma series_app i attrs l1 l2 : series i attrs (l1 ++ l2) = series i attrs l1 + series i attrs l2.
Proof.
  unfold series. induction l1 as [|x l1 IH]; [done|]. cbn [app foldr]. rewrite IH. destruct x as [j k a|j d a]; [|done].
  destruct (bool_decide _); lia.
Qed.

(** What one event of the dispatcher adds to the two series of a listener. *)
Definition active_delta (listener transport : bytes) (e : dispatch_event) : Z :=
  match e with
  | ConnectionOpened l t => if bool_decide (l = listener /\ t = transport) then 1 else 0
  | ConnectionClosed l t => if bool_decide (l = listener /\ t = transport) then -1 else 0
  | _ => 0
  end.

Definition opened_delta (listener transport : bytes) (e : dispatch_event) : Z :=
  match e with ConnectionOpened l t => if bool_decide (l = listener /\ t = transport) then 1 else 0 | _ => 0 end.

Definition sum_of {A} (f : A -> Z) (l : list A) : Z := foldr (fun x n => f x + n) 0 l.

Lemma sum_of_app {A} (f : A -> Z) l1 l2 : sum_of f (l1 ++ l2) = sum_of f l1 + sum_of f l2.
Proof. unfold sum_of. induction l1 as [|x l1 IH]; cbn; [done|]. rewrite IH. lia. Qed.

#[export] Instance sum_of_proper {A} (f : A -> Z) : Proper (Permutation ==> eq) (sum_of f).
Proof. intros l1 l2 H. unfold sum_of. induction H; cbn; lia. Qed.

Definition conn_attrs (listener transport : bytes) : list attribute := [label "listener" listener; label "transport" transport].

Lemma conn_attrs_eq l t listener transport : conn_attrs l t = conn_attrs listener transport <-> l = listener /\ t = transport.
Proof. unfold conn_attrs, label. split; [intros H; by simplify_eq|by intros [-> ->]]. Qed.

(** A log moves the series of the connections by the sums of its events. *)
Lemma dispatch_series listener transport log : forall l,
  exists l', foldl dispatch_measures (Some l) log = Some l'
  /\ series connectionsActive (conn_attrs listener transport) l'
     = series connectionsActive (conn_attrs listener transport) l + sum_of (active_delta listener transport) log
  /\ series connectionsTotal (conn_attrs listener transport) l'
     = series connectionsTotal (conn_attrs listener transport) l + sum_of (opened_delta listener transport) log.
Proof.
  induction log as [|e log IH]; intros l; [exists l; cbn; split_and!; [done|lia..]|]. cbn [foldl].
  assert (exists m, dispatch_measures (Some l) e = Some (l ++ m)%list
    /\ series connectionsActive (conn_attrs listener transport) m = active_delta listener transport e
    /\ series connectionsTotal (conn_attrs listener transport) m = opened_delta listener transport e) as (m & -> & Ha & Ho).
  { destruct e as [l0 t0|c l0 t0|s| |l0 t0]; cbn [dispatch_measures]; try (exists []; by rewrite app_nil_r).
    - eexists. split; [done|]. fold (conn_attrs l0 t0). unfold series. cbn [foldr active_delta opened_delta].
      split; repeat case_bool_decide; naive_solver (eauto using conn_attrs_eq).
    - eexists. split; [done|]. fold (conn_attrs l0 t0). unfold series. cbn [foldr active_delta opened_delta].
      split; repeat case_bool_decide; naive_solver (eauto using conn_attrs_eq). }
  destruct (IH (l ++ m)%list) as (l' & -> & Ha' & Ho'). exists l'. rewrite series_app in Ha', Ho'. unfold sum_of in *. cbn [foldr]. split_and!; [done|lia..].
Qed.

(** *** Connections served at the same time *)

(** What is left of each connection, and the log so far: any connection may take its
    next step. *)
Inductive conns_step : list (list dispatch_event) * list dispatch_event -> list (list dispatch_event) * list dispatch_event -> Prop :=
  | conn_step i e rest rs log : rs !! i = Some (e :: rest) -> conns_step (rs, log) (<[i := rest]> rs, log ++ [e])%list.

(** A connection that has begun and not ended. *)
Definition in_service (tracer : bool) (listener transport : bytes) (rs : list dispatch_event * accepted) : Z :=
  let '(rest, s) := rs in
  if (0 <? length rest)%nat && (length rest <? length (Handle tracer s))%nat
     && bool_decide (ac_Acceptor s = listener /\ Transport_String (s_Transport (ac_Session s)) = transport) then 1 else 0.

Definition begun (tracer : bool) (listener transport : bytes) (rs : list dispatch_event * accepted) : Z :=
  let '(rest, s) := rs in
  if (length rest <? length (Handle tracer s))%nat
     && bool_decide (ac_Acceptor s = listener /\ Transport_String (s_Transport (ac_Session s)) = transport) then 1 else 0.

(** What is left of a connection is the end of its log. *)
Definition left_of (tracer : bool) (rest : list dispatch_event) (s : accepted) : Prop := exists n, rest = drop n (Handle tracer s).

Lemma sum_of_insert {A} (f : A -> Z) l i x y : l !! i = Some x -> sum_of f (<[i := y]> l) = sum_of f l - f x + f y.
Proof.
  intros Hx. rewrite <- (take_drop_middle l i x Hx) at 2. rewrite insert_take_drop by (by eapply lookup_lt_Some).
  rewrite !sum_of_app. unfold sum_of. cbn [foldr]. lia.
Qed.

Lemma drop_Handle tracer s n : (n < 6)%nat \/ drop n (Handle tracer s) = [].
Proof. destruct (decide (n < 6)%nat); [by left|]. right. apply drop_ge. destruct tracer; cbn; lia. Qed.

Lemma left_sums tracer listener transport rest s :
  left_of tracer rest s ->
  sum_of (active_delta listener transport) rest = - in_service tracer listener transport (rest, s)
  /\ sum_of (opened_delta listener transport) rest
     = sum_of (opened_delta listener transport) (Handle tracer s) - begun tracer listener transport (rest, s)
  /\ sum_of (active_delta listener transport) (Handle tracer s) = 0.
Proof.
  intros [n ->]. unfold in_service, begun. destruct (drop_Handle tracer s n) as [Hn|Hn].
  - destruct tracer; do 6 (destruct n as [|n]; [cbn -[bool_decide Transport_String]; by destruct (bool_decide _)|]); lia.
  - rewrite Hn. destruct tracer; cbn -[bool_decide Transport_String]; by destruct (bool_decide _).
Qed.

Lemma rtc_preserve {A} (R : A -> A -> Prop) (P : A -> Prop) x y : P x -> (forall a b, P a -> R a b -> P b) -> rtc R x y -> P y.
Proof. intros Hx Hstep H. induction H; eauto. Qed.

Lemma conns_invariant tracer ss rs log :
  rtc conns_step (map (Handle tracer) ss, []) (rs, log) ->
  Forall2 (left_of tracer) rs ss /\ forall f : dispatch_event -> Z, sum_of f log + sum_of (sum_of f) rs = sum_of (sum_of f) (map (Handle tracer) ss).
Proof.
  set (inv := fun st : list (list dispatch_event) * list dispatch_event =>
    Forall2 (left_of tracer) (fst st) ss
    /\ forall f : dispatch_event -> Z, sum_of f (snd st) + sum_of (sum_of f) (fst st) = sum_of (sum_of f) (map (Handle tracer) ss)).
  intros H. apply (rtc_preserve conns_step inv _ (rs, log)) in H; [done|..].
  - split; [|done]. cbn [fst]. clear. induction ss; constructor; [by exists 0%nat|done].
  - intros a b [Hl Hs] Hab. destruct Hab as [i e rest rs0 log0 Hi]. cbn [fst snd] in *. split; cbn [fst snd].
    + destruct (Forall2_lookup_l _ _ _ _ _ Hl Hi) as (s & Hsi & n & Hn). rewrite <- (list_insert_id ss i s Hsi).
      apply Forall2_insert; [done|]. exists (n + 1)%nat. by rewrite <- drop_drop, <- Hn.
    + intros f. rewrite sum_of_app, (sum_of_insert _ _ _ _ _ Hi), <- (Hs f). unfold sum_of. cbn. lia.
Qed.

Lemma sum_of_ext2 {A B} (P : A -> B -> Prop) (f : A -> Z) (g : A * B -> Z) (h : B -> Z) l k :
  Forall2 P l k -> (forall a b, P a b -> f a = h b - g (a, b)) -> sum_of f l = sum_of h k - sum_of g (zip l k).
Proof. intros H Hf. unfold sum_of. induction H as [|a b l k Hp _ IH]; cbn; [done|]. rewrite (Hf _ _ Hp), IH. lia. Qed.

(** However the connections of the proxy interleave, the gauge of open connections of
    a listener is at every moment the number of its connections in service, and the
    counter the number of those that have begun. *)
Theorem connections_accounted tracer ss rs log listener transport :
  rtc conns_step (map (Handle tracer) ss, []) (rs, log) ->
  exists l, foldl dispatch_measures (Some []) log = Some l
  /\ series connectionsActive (conn_attrs listener transport) l = sum_of (in_service tracer listener transport) (zip rs ss)
  /\ series connectionsTotal (conn_attrs listener transport) l = sum_of (begun tracer listener transport) (zip rs ss).
Proof.
  intros H. apply conns_invariant in H as [Hl Hs]. destruct (dispatch_series listener transport log []) as (l & -> & Ha & Ho).
  exists l. split; [done|]. rewrite Ha, Ho. cbn [series foldr].
  pose proof (Hs (active_delta listener transport)) as H1. pose proof (Hs (opened_delta listener transport)) as H2.
  rewrite (sum_of_ext2 _ _ (in_service tracer listener transport) (fun _ => 0) _ _ Hl) in H1
    by (intros r s Hr; destruct (left_sums _ listener transport _ _ Hr) as (-> & _); lia).
  rewrite (sum_of_ext2 _ _ (begun tracer listener transport) (fun s => sum_of (opened_delta listener transport) (Handle tracer s)) _ _ Hl) in H2
    by (intros r s Hr; by destruct (left_sums _ listener transport _ _ Hr) as (_ & -> & _)).
  assert (forall f : dispatch_event -> Z, sum_of (sum_of f) (map (Handle tracer) ss) = sum_of (fun s => sum_of f (Handle tracer s)) ss) as Hmap
    by (intros f; unfold sum_of at 1 3; clear; induction ss; cbn; [done|]; by rewrite IHss).
  rewrite Hmap in H1, H2.
  assert (sum_of (fun s => sum_of (active_delta listener transport) (Handle tracer s)) ss = 0 /\ sum_of (fun _ : accepted => 0) ss = 0) as [E1 E2].
  { clear - listener. split; (induction ss as [|s ss IH]; [done|]); unfold sum_of in *; cbn [foldr].
    - destruct (left_sums tracer listener transport _ s (ex_intro _ 0%nat eq_refl)) as (_ & _ & E). unfold sum_of in E. lia.
    - lia. }
  unfold sum_of in *. lia.
Qed.

(** *** Creating the instruments *)

Lemma create_one_last create l i : foldl (create_one create) None (l ++ [i]) = create i.
Proof. rewrite foldl_snoc. unfold create_one, reg. by destruct (create i). Qed.

(** Only the failure of the last instrument is reported: every creation overwrites the
    error the ones before it left. *)
Theorem instrument_errors_lost create :
  create storageOpDuration = None -> NewMetrics create = Ok (Some []).
Proof. intros H. unfold NewMetrics. change instruments with (removelast instruments ++ [storageOpDuration])%list. by rewrite create_one_last, H. Qed.

(** *** Two connections *)

Definition sample_accepted (c : conn) : accepted :=
  {| ac_Session := {| s_Client := sample_client; s_Dst := no_addr; s_Transport := TransportExplicit |}; ac_Conn := c; ac_Acceptor := str "http_proxy" |}.

Definition sample_pair : list accepted := [sample_accepted conn4; sample_accepted conn6].

(** The first is done when the second has begun. *)
Definition sample_rests : list (list dispatch_event) := [[]; drop 1 (Handle false (sample_accepted conn6))].

Definition sample_dispatch : list dispatch_event :=
  (Handle false (sample_accepted conn4) ++ take 1 (Handle false (sample_accepted conn6)))%list.

Lemma connections_accounted_witness :
  exists l, foldl dispatch_measures (Some []) sample_dispatch = Some l
  /\ series connectionsActive (conn_attrs (str "http_proxy") (str "explicit")) l = 1
  /\ series connectionsTotal (conn_attrs (str "http_proxy") (str "explicit")) l = 2.
Proof.
  destruct (connections_accounted false sample_pair sample_rests sample_dispatch (str "http_proxy") (str "explicit")) as (l & Hl & Ha & Ht).
  - eapply rtc_l; [by apply (conn_step 0)|]. eapply rtc_l; [by apply (conn_step 0)|]. eapply rtc_l; [by apply (conn_step 0)|].
    eapply rtc_l; [by apply (conn_step 1)|]. apply rtc_refl.
  - exists l. split; [exact Hl|]. rewrite Ha, Ht. split; reflexivity.
Defined.
