(* ===== verification/EngineGo.v ===== *)
(** * Lookups as goroutines (internal/rules/engine.go)

    Every connection looks up its client's rules in a goroutine of its own, while the control
    API and other processes write the same store.  The engine's mutex guards single reads and
    writes of the two caches; between them, and between the calls of the store, anything may
    happen.  The functions of [Engine] are written again as programs over those atomic
    operations, with the measurements they take; run alone they are the functions of [Engine]. *)

From S2P Require Import Prelude GoStrings Netip Json JsonRoundtrip Encoding Schema JsonRules Matcher.
From S2P Require Import Compile HostIndex Egress Auth RuleSet MaskedKey DefaultRuleset DefaultTable Storage Engine Instruments Conc.

Open Scope Z_scope.

Section EngineGo.
Context `{RE : RegexEngine} `{DG : Digests} `{UT : UnicodeTable} `{US : UUIDSource}.
Context {W : Type} `{ST : Storage W}.

(** ** Operations *)

(** A critical section reads or writes one cache entry; a write tells whether there was an entry
    ([wasCached]).  The rest are calls of the store, the clock, the random source and the meters. *)
Inductive engine_op : Type -> Type :=
  | ReadClient (client : Addr) : engine_op (option cachedRuleSet)
  | WriteClient (client : Addr) (c : cachedRuleSet) : engine_op bool
  | ReadDefault : engine_op (option cachedDefault)
  | WriteDefault (c : cachedDefault) : engine_op bool
  | StatKey (key : bytes) : engine_op (result (Version * bool))
  | GetKey (key : bytes) : engine_op (sres (bytes * Version))
  | PutKey (key data : bytes) : engine_op (sres unit)
  | Now : engine_op Z
  | NewString : engine_op bytes
  | Measured (f : Metrics -> Metrics) : engine_op unit.

Abbreviation go := (goprog engine_op).

(** What the goroutines share. *)
Record shared : Type := { sh_engine : RuleEngine; sh_world : W; sh_clock : Z; sh_metrics : Metrics }.

Definition with_engine (s : shared) (e : RuleEngine) : shared :=
  {| sh_engine := e; sh_world := sh_world s; sh_clock := sh_clock s; sh_metrics := sh_metrics s |}.

Definition perform_op (X : Type) (o : engine_op X) (s : shared) : X * shared :=
  let e := sh_engine s in
  match o in engine_op X return X * shared with
  | ReadClient client => (e_cache e !! client, s)
  | WriteClient client c => (bool_decide (is_Some (e_cache e !! client)), with_engine s (set_cache e client c))
  | ReadDefault => (e_defaultCache e, s)
  | WriteDefault c =>
      (match e_defaultCache e with Some c => cd_exists c | None => false end, with_engine s (set_default e c))
  | StatKey key => (stat (sh_world s) key, s)
  | GetKey key => (Get (sh_world s) key, s)
  | PutKey key data =>
      let '(r, w) := Put (sh_world s) key data in
      (r, {| sh_engine := e; sh_world := w; sh_clock := sh_clock s; sh_metrics := sh_metrics s |})
  | Now => (sh_clock s, s)
  | NewString => (newUUID (e_uuids e), with_engine s (set_uuids e (S (e_uuids e))))
  | Measured f => (tt, {| sh_engine := e; sh_world := sh_world s; sh_clock := sh_clock s; sh_metrics := f (sh_metrics s) |})
  end.

(** ** The functions *)

Section Programs.
Variable ttl : Z.

(** [fresh]: the clock is read only when there is a TTL. *)
Definition fresh_go (checkedAt : Z) : go bool :=
  if 0 <? ttl then now ← do_op Now; Done (now - checkedAt <? ttl) else Done false.

Definition compiled_in (outcome : string) (start : Z) : go unit :=
  now ← do_op Now; do_op (Measured (fun m => m_RuleCompile m (str outcome) (now - start))).

(** [compileFailed], and the return that follows it. *)
Definition compileFailed {A} (start : Z) (msg : string) : go (result A) :=
  _ ← compiled_in "error" start; Done (Error msg).

(** Persisting a minted document: the version and existence it has afterwards, if both the
    write and the stat succeed. *)
Definition persist_go (key data : bytes) (version : Version) (exists_ : bool) : go (Version * bool) :=
  r ← do_op (PutKey key data);
  match r with
  | SOk _ =>
      st ← do_op (StatKey key);
      Done (match st with Ok ve => ve | Error _ => (version, exists_) end)
  | _ => Done (version, exists_)
  end.

(** The minting loop of [lookupDefaultTable]; the flag is [minted]. *)
Fixpoint mintEntries_go (entries : list parsedEntry) : go (list parsedEntry * bool) :=
  match entries with
  | [] => Done ([], false)
  | pe :: t =>
      if bool_decide (rf_UUID (pe_rule pe) = []) then
        uuid ← do_op NewString;
        '(t, _) ← mintEntries_go t;
        Done ({| pe_key := pe_key pe; pe_rule := with_uuid (pe_rule pe) uuid |} :: t, true)
      else
        '(t, minted) ← mintEntries_go t;
        Done (pe :: t, minted)
  end.

(** The part of [lookupDefaultTable] that reads and compiles the blob. *)
Definition reloadDefault_go (cached : option cachedDefault) (version : Version) (exists_ : bool) : go (result (option DefaultRuleset)) :=
  start ← do_op Now;
  g ← do_op (GetKey defaultKey);
  match (match g with SNotExist => Ok [] | SFail e => Error e | SOk (data, _) => Ok data end) with
  | Error m => compileFailed start m
  | Ok raw =>
      match parseDefaultRuleset raw with
      | Error m => compileFailed start m
      | Ok entries =>
          '(entries, minted) ← mintEntries_go entries;
          '(version, exists_) ← (if minted : bool then persist_go defaultKey (marshalCanonical entries) version exists_
                                 else Done (version, exists_));
          match compileParsedEntries entries (cached ≫= cd_ruleset) with
          | Error m => compileFailed start m
          | Ok compiled =>
              now ← do_op Now;
              _ ← do_op (WriteDefault {| cd_checkedAt := now; cd_version := version; cd_exists := exists_; cd_ruleset := Some compiled |});
              _ ← compiled_in "ok" start;
              Done (Ok (Some compiled))
          end
      end
  end.

Definition confirmDefault_go (cached : option cachedDefault) : go (result (option DefaultRuleset)) :=
  st ← do_op (StatKey defaultKey);
  match st with
  | Error m =>
      Done (match cached with
            | Some c => if 0 <? ttl then Ok (cd_ruleset c) else Error m
            | None => Error m
            end)
  | Ok (version, exists_) =>
      match default_hit cached version exists_ with
      | Some c =>
          now ← do_op Now;
          _ ← do_op (WriteDefault {| cd_checkedAt := now; cd_version := version; cd_exists := exists_; cd_ruleset := cd_ruleset c |});
          Done (Ok (cd_ruleset c))
      | None =>
          if negb exists_ then
            now ← do_op Now;
            _ ← do_op (WriteDefault {| cd_checkedAt := now; cd_version := version; cd_exists := false; cd_ruleset := None |});
            Done (Ok None)
          else reloadDefault_go cached version exists_
      end
  end.

(** [lookupDefaultTable]. *)
Definition lookupDefaultTable_go : go (result (option DefaultRuleset)) :=
  cached ← do_op ReadDefault;
  match cached with
  | Some c => f ← fresh_go (cd_checkedAt c); if f : bool then Done (Ok (cd_ruleset c)) else confirmDefault_go cached
  | None => confirmDefault_go cached
  end.

(** [resolveClientCache]. *)
Definition resolveClientCache_go (client : Addr) (c : cachedRuleSet) : go (result RuleSet) :=
  if cr_exists c then Done (Ok (default emptyRuleSet (cr_ruleSet c)))
  else
    r ← lookupDefaultTable_go;
    Done (match r with Error m => Error m | Ok def => Ok (default emptyRuleSet (defaultFor def client)) end).

(** [resolveEgress]. *)
Definition resolveEgress_go (client : Addr) (rf : RuleFile) : go (result (list CompiledEgress)) :=
  match rf_Egress rf with
  | Some l => Done (CompileEgress l)
  | None =>
      r ← lookupDefaultTable_go;
      Done (match r with Error m => Error m | Ok def => Ok (default [] (rs_egress <$> defaultFor def client)) end)
  end.

(** The minting step of [lookupIP]. *)
Definition mintFile_go (client : Addr) (rf : RuleFile) (version : Version) : go (RuleFile * Version) :=
  if bool_decide (rf_UUID rf = []) then
    uuid ← do_op NewString;
    let rf := with_uuid rf uuid in
    '(version, _) ← persist_go (keyFor client) (Marshal_RuleFile rf) version true;
    Done (rf, version)
  else Done (rf, version).

(** The rules of the entry before, when they were compiled from the same document. *)
Definition reusable (hash : bytes) (prevCache : option cachedRuleSet) : option RuleSet :=
  match prevCache with
  | Some c => if cr_exists c && bool_decide (hash = cr_contentHash c) then cr_ruleSet c else None
  | None => None
  end.

(** The end of [lookupIP]: the compilation and the entry. *)
Definition compileIP_go (client : Addr) (start : Z) (rf : RuleFile) (version : Version) (hash : bytes) : go (result RuleSet) :=
  match CompileAuth (rf_Auth rf) with
  | Error m => compileFailed start m
  | Ok auth =>
      match Compile rf with
      | Error m => compileFailed start m
      | Ok compiled =>
          eg ← resolveEgress_go client rf;
          match eg with
          | Error m => compileFailed start m
          | Ok egress =>
              let rs := newRuleSet compiled egress (rf_UUID rf) auth in
              now ← do_op Now;
              wasCached ← do_op (WriteClient client {| cr_checkedAt := now; cr_version := version; cr_exists := true;
                                                       cr_ruleSet := Some rs; cr_contentHash := hash |});
              _ ← compiled_in "ok" start;
              _ ← (if wasCached : bool then Done tt else do_op (Measured (fun m => m_RulesActiveClients m 1)));
              Done (Ok rs)
          end
      end
  end.

(** [lookupIP]. *)
Definition lookupIP_go (client : Addr) (version : Version) (prevCache : option cachedRuleSet) : go (result RuleSet) :=
  start ← do_op Now;
  g ← do_op (GetKey (keyFor client));
  match (match g with
         | SNotExist => Ok zero_file
         | SFail e => Error e
         | SOk (data, _) => wrap "rules: parse" (Unmarshal_RuleFile data)
         end) with
  | Error m => compileFailed start m
  | Ok rf =>
      '(rf, version) ← mintFile_go client rf version;
      let hash := sha256 (Marshal_RuleFile rf) in
      match reusable hash prevCache with
      | Some rs =>
          now ← do_op Now;
          _ ← do_op (WriteClient client {| cr_checkedAt := now; cr_version := version; cr_exists := true;
                                           cr_ruleSet := Some rs; cr_contentHash := hash |});
          Done (Ok rs)
      | None => compileIP_go client start rf version hash
      end
  end.

Definition confirmClient_go (client : Addr) (cached : option cachedRuleSet) : go (result RuleSet) :=
  st ← do_op (StatKey (keyFor client));
  match st with
  | Error m =>
      match cached with
      | Some c => if 0 <? ttl then resolveClientCache_go client c else Done (Error m)
      | None => Done (Error m)
      end
  | Ok (version, exists_) =>
      match client_hit cached version exists_ with
      | Some c =>
          now ← do_op Now;
          _ ← do_op (WriteClient client (touched c now));
          resolveClientCache_go client c
      | None =>
          if negb exists_ then
            now ← do_op Now;
            _ ← do_op (WriteClient client (absent version now));
            resolveClientCache_go client (absent version now)
          else lookupIP_go client version cached
      end
  end.

(** [Lookup]. *)
Definition Lookup_go (client : Addr) : go (result RuleSet) :=
  cached ← do_op (ReadClient client);
  match cached with
  | Some c => f ← fresh_go (cr_checkedAt c); if f : bool then resolveClientCache_go client c else confirmClient_go client cached
  | None => confirmClient_go client cached
  end.
End Programs.

(** ** Alone, a lookup is that of [Engine] *)

(** Run alone from the engine [e] and the world [w] at [now], [p] returns [r] and leaves [e'] and
    [w'], whatever was measured before. *)
Definition acts {A} (p : go A) (e : RuleEngine) (w : W) (now : Z) (r : A) (e' : RuleEngine) (w' : W) : Prop :=
  forall m, exists m', alone perform_op p {| sh_engine := e; sh_world := w; sh_clock := now; sh_metrics := m |}
                  = (r, {| sh_engine := e'; sh_world := w'; sh_clock := now; sh_metrics := m' |}).

Lemma acts_done {A} (a : A) e w now : acts (Done a) e w now a e w.
Proof. intros m. by exists m. Qed.

Lemma acts_bind {A B} (p : go A) (f : A -> go B) e w now a e1 w1 b e2 w2 :
  acts p e w now a e1 w1 -> acts (f a) e1 w1 now b e2 w2 -> acts (p ≫= f) e w now b e2 w2.
Proof. intros Hp Hf m. rewrite alone_bind. destruct (Hp m) as [m1 ->]. apply Hf. Qed.

Lemma acts_do {A X} (o : engine_op X) (f : X -> go A) e w now x e1 w1 b e2 w2 :
  acts (do_op o) e w now x e1 w1 -> acts (f x) e1 w1 now b e2 w2 -> acts (do_op o ≫= f) e w now b e2 w2.
Proof. apply acts_bind. Qed.

Lemma acts_now e w now : acts (do_op Now) e w now now e w.
Proof. intros m. by exists m. Qed.

Lemma acts_measured f e w now : acts (do_op (Measured f)) e w now tt e w.
Proof. intros m. by eexists. Qed.

Lemma acts_put key data e w now : acts (do_op (PutKey key data)) e w now (Put w key data).1 e (Put w key data).2.
Proof. intros m. exists m. cbn. by destruct (Put w key data). Qed.

Lemma acts_write_client client c e w now :
  acts (do_op (WriteClient client c)) e w now (bool_decide (is_Some (e_cache e !! client))) (set_cache e client c) w.
Proof. intros m. by exists m. Qed.

Lemma acts_write_default c e w now :
  acts (do_op (WriteDefault c)) e w now (match e_defaultCache e with Some c => cd_exists c | None => false end) (set_default e c) w.
Proof. intros m. by exists m. Qed.

Lemma acts_stat key e w now : acts (do_op (StatKey key)) e w now (stat w key) e w.
Proof. intros m. by exists m. Qed.

Lemma acts_get key e w now : acts (do_op (GetKey key)) e w now (Get w key) e w.
Proof. intros m. by exists m. Qed.

Lemma acts_read_client client e w now : acts (do_op (ReadClient client)) e w now (e_cache e !! client) e w.
Proof. intros m. by exists m. Qed.

Lemma acts_read_default e w now : acts (do_op ReadDefault) e w now (e_defaultCache e) e w.
Proof. intros m. by exists m. Qed.

Lemma acts_uuid e w now : acts (do_op NewString) e w now (newUUID (e_uuids e)) (set_uuids e (S (e_uuids e))) w.
Proof. intros m. by exists m. Qed.

Lemma compiled_in_acts outcome start e w now : acts (compiled_in outcome start) e w now tt e w.
Proof. eapply acts_do; [apply acts_now|apply acts_measured]. Qed.

Lemma compileFailed_acts {A} start msg e w now : acts (compileFailed (A := A) start msg) e w now (Error msg) e w.
Proof. eapply acts_bind; [apply compiled_in_acts|apply acts_done]. Qed.

Lemma fresh_acts e w now at_ : acts (fresh_go (e_cacheTTL e) at_) e w now (fresh e now at_) e w.
Proof.
  unfold fresh_go, fresh. destruct (0 <? e_cacheTTL e); [|apply acts_done]. eapply acts_do; [apply acts_now|apply acts_done].
Qed.

Lemma persist_acts key data version exists_ e w now :
  let '(v, ex, w') := persist w key data version exists_ in acts (persist_go key data version exists_) e w now (v, ex) e w'.
Proof.
  unfold persist, persist_go. pose proof (acts_put key data e w now) as Hp. destruct (Put w key data) as [r w']. cbn [fst snd] in Hp.
  destruct r as [[]| |]; cycle 1; [eapply acts_do; [exact Hp|apply acts_done]..|].
  destruct (stat w' key) as [[v ex]|m] eqn:E; (eapply acts_do; [exact Hp|]; eapply acts_do; [apply acts_stat|]);
    cbn; rewrite E; apply acts_done.
Qed.

Lemma mintEntries_acts entries e w now :
  let '(es, n) := mintEntries (e_uuids e) entries in
  acts (mintEntries_go entries) e w now (es, negb (n =? e_uuids e)%nat) (set_uuids e n) w /\ (e_uuids e <= n)%nat.
Proof.
  revert e. induction entries as [|pe t IH]; intros e; cbn [mintEntries mintEntries_go].
  - rewrite Nat.eqb_refl. split; [|lia]. destruct e. intros m. by exists m.
  - case_bool_decide.
    + specialize (IH (set_uuids e (S (e_uuids e)))). cbn [e_uuids set_uuids] in IH.
      destruct (mintEntries (S (e_uuids e)) t) as [es n]. destruct IH as [IH Hn]. split; [|lia].
      eapply acts_do; [apply acts_uuid|]. eapply acts_bind; [exact IH|].
      destruct (Nat.eqb_spec n (e_uuids e)); [lia|]. intros m. by exists m.
    + specialize (IH e). destruct (mintEntries (e_uuids e) t) as [es n]. destruct IH as [IH Hn]. split; [|lia].
      eapply acts_bind; [exact IH|]. apply acts_done.
Qed.
End EngineGo.

(** The next operation of a program run alone. *)
Ltac act :=
  repeat first
    [ apply acts_done | apply compileFailed_acts
    | eapply acts_bind; [first [apply acts_now|apply acts_write_client|apply acts_write_default|apply acts_measured|apply compiled_in_acts|apply acts_stat|apply acts_get|apply acts_read_client|apply acts_read_default|apply fresh_acts]|] ].

Section Alone.
Context `{RE : RegexEngine} `{DG : Digests} `{UT : UnicodeTable} `{US : UUIDSource}.
Context {W : Type} `{ST : Storage W}.

Lemma reloadDefault_acts e w now version exists_ :
  let '(r, e', w') := reloadDefault e w now version exists_ in
  acts (reloadDefault_go (e_defaultCache e) version exists_) e w now r e' w'.
Proof.
  destruct (reloadDefault _ _ _ _ _) as [[r e'] w'] eqn:H. unfold reloadDefault in H. unfold reloadDefault_go. act. fold (loadRaw w defaultKey).
  destruct (loadRaw w defaultKey) as [raw|m]; [|injection H as <- <- <-; act].
  destruct (parseDefaultRuleset raw) as [entries|m]; [|injection H as <- <- <-; act].
  pose proof (mintEntries_acts entries e w now) as Hm. destruct (mintEntries (e_uuids e) entries) as [es n]. destruct Hm as [Hm _].
  eapply acts_bind; [exact Hm|]. cbn beta iota.
  set (pr := if negb (n =? e_uuids e)%nat then _ else _) in H.
  assert (Hpr : let '(v, ex, w1) := pr in
            acts (if negb (n =? e_uuids e)%nat then persist_go defaultKey (marshalCanonical es) version exists_ else Done (version, exists_))
              (set_uuids e n) w now (v, ex) (set_uuids e n) w1).
  { subst pr. destruct (negb _); [apply persist_acts|apply acts_done]. }
  destruct pr as [[v ex] w1]. eapply acts_bind; [exact Hpr|]. cbn beta iota in *.
  destruct (compileParsedEntries es _) as [d|m]; injection H as <- <- <-; act.
Qed.

Lemma confirmDefault_acts e w now :
  let '(r, e', w') := confirmDefault e w now in acts (confirmDefault_go (e_cacheTTL e) (e_defaultCache e)) e w now r e' w'.
Proof.
  pose proof (reloadDefault_acts e w now) as Hr. unfold confirmDefault, confirmDefault_go.
  destruct (stat w defaultKey) as [[version exists_]|m] eqn:Est.
  - specialize (Hr version exists_). destruct (default_hit _ _ _) as [c|] eqn:Eh.
    + act. rewrite Est. cbn beta iota. rewrite Eh. act.
    + destruct exists_; cbn [negb] in *.
      * destruct (reloadDefault _ _ _ _ _) as [[r e'] w']. act. rewrite Est. cbn beta iota. rewrite Eh. done.
      * act. rewrite Est. cbn beta iota. rewrite Eh. act.
  - destruct (e_defaultCache e) as [c|] eqn:Ed; [destruct (0 <? e_cacheTTL e)|]; act; rewrite Est; act.
Qed.

Lemma lookupDefaultTable_acts e w now :
  let '(r, e', w') := lookupDefaultTable e w now in acts (lookupDefaultTable_go (e_cacheTTL e)) e w now r e' w'.
Proof.
  pose proof (confirmDefault_acts e w now) as Hc. unfold lookupDefaultTable, lookupDefaultTable_go.
  destruct (e_defaultCache e) as [c|] eqn:Ed.
  - destruct (fresh e now (cd_checkedAt c)) eqn:Ef.
    + act. rewrite Ed. act. rewrite Ef. act.
    + destruct (confirmDefault e w now) as [[r e'] w']. act. rewrite Ed. act. by rewrite Ef.
  - destruct (confirmDefault e w now) as [[r e'] w']. act. by rewrite Ed.
Qed.

Lemma resolveClientCache_acts e w now client c :
  let '(r, e', w') := resolveClientCache e w now client c in acts (resolveClientCache_go (e_cacheTTL e) client c) e w now r e' w'.
Proof.
  unfold resolveClientCache, resolveClientCache_go. destruct (cr_exists c); [act|].
  pose proof (lookupDefaultTable_acts e w now) as Hd. destruct (lookupDefaultTable e w now) as [[[def|m] e'] w'];
    (eapply acts_bind; [exact Hd|]; act).
Qed.

Lemma resolveEgress_acts e w now client rf :
  let '(r, e', w') := resolveEgress e w now client rf in acts (resolveEgress_go (e_cacheTTL e) client rf) e w now r e' w'.
Proof.
  unfold resolveEgress, resolveEgress_go. destruct (rf_Egress rf); [act|].
  pose proof (lookupDefaultTable_acts e w now) as Hd. destruct (lookupDefaultTable e w now) as [[[def|m] e'] w'];
    (eapply acts_bind; [exact Hd|]; act).
Qed.

Lemma mintFile_acts e w now client rf version :
  let '(rf', v, e', w') := mintFile e w client rf version in acts (mintFile_go client rf version) e w now (rf', v) e' w'.
Proof.
  unfold mintFile, mintFile_go. case_bool_decide; [|act].
  pose proof (persist_acts (keyFor client) (Marshal_RuleFile (with_uuid rf (newUUID (e_uuids e)))) version true
                (set_uuids e (S (e_uuids e))) w now) as Hp.
  destruct (persist _ _ _ _ _) as [[v ex] w1]. eapply acts_do; [apply acts_uuid|]. eapply acts_bind; [exact Hp|]. act.
Qed.

Lemma compileIP_acts e w now client start rf version hash r e' w' :
  match CompileAuth (rf_Auth rf) with
  | Error m => (Error m, e, w)
  | Ok auth =>
      match Compile rf with
      | Error m => (Error m, e, w)
      | Ok compiled =>
          match resolveEgress e w now client rf with
          | (Error m, e, w) => (Error m, e, w)
          | (Ok egress, e, w) =>
              (Ok (newRuleSet compiled egress (rf_UUID rf) auth),
               set_cache e client {| cr_checkedAt := now; cr_version := version; cr_exists := true;
                                     cr_ruleSet := Some (newRuleSet compiled egress (rf_UUID rf) auth); cr_contentHash := hash |}, w)
          end
      end
  end = (r, e', w') ->
  acts (compileIP_go (e_cacheTTL e) client start rf version hash) e w now r e' w'.
Proof.
  unfold compileIP_go. destruct (CompileAuth (rf_Auth rf)) as [auth|m]; [|intros [= <- <- <-]; act].
  destruct (Compile rf) as [compiled|m]; [|intros [= <- <- <-]; act].
  pose proof (resolveEgress_acts e w now client rf) as He. destruct (resolveEgress e w now client rf) as [[[egress|m] e1] w1];
    intros [= <- <- <-]; (eapply acts_bind; [exact He|]); act.
  eapply acts_bind; [|act]. destruct (bool_decide _); [act|apply acts_measured].
Qed.

Lemma mintFile_ttl e w client rf v : e_cacheTTL (mintFile e w client rf v).1.2 = e_cacheTTL e.
Proof. unfold mintFile. case_bool_decide; [|done]. by destruct (persist _ _ _ _ _) as [[? ?] ?]. Qed.

Lemma lookupIP_acts e w now client version cached :
  let '(r, e', w') := lookupIP e w now client version cached in
  acts (lookupIP_go (e_cacheTTL e) client version cached) e w now r e' w'.
Proof.
  destruct (lookupIP _ _ _ _ _ _) as [[r e'] w'] eqn:H. unfold lookupIP in H. unfold lookupIP_go. act. fold (Load w client).
  destruct (Load w client) as [rf|m]; [|injection H as <- <- <-; act].
  pose proof (mintFile_acts e w now client rf version) as Hm. pose proof (mintFile_ttl e w client rf version) as Ht.
  destruct (mintFile e w client rf version) as [[[rf' v] e1] w1]. cbn [fst snd] in Ht.
  eapply acts_bind; [exact Hm|]. cbn beta iota zeta. fold (reusable (sha256 (Marshal_RuleFile rf')) cached) in H.
  destruct (reusable _ cached) as [rs|]; [injection H as <- <- <-; act|].
  rewrite <- Ht. apply compileIP_acts. exact H.
Qed.

Lemma confirmClient_acts e w now client :
  let '(r, e', w') := confirmClient e w now client in
  acts (confirmClient_go (e_cacheTTL e) client (e_cache e !! client)) e w now r e' w'.
Proof.
  unfold confirmClient, confirmClient_go. destruct (stat w (keyFor client)) as [[version exists_]|m] eqn:Est.
  - destruct (client_hit _ _ _) as [c|] eqn:Eh.
    + pose proof (resolveClientCache_acts (set_cache e client (touched c now)) w now client c) as Hr.
      destruct (resolveClientCache _ _ _ _ _) as [[r e'] w']. act. rewrite Est. cbn beta iota. rewrite Eh. act. exact Hr.
    + destruct exists_; cbn [negb] in *.
      * pose proof (lookupIP_acts e w now client version (e_cache e !! client)) as Hl.
        destruct (lookupIP _ _ _ _ _ _) as [[r e'] w']. act. rewrite Est. cbn beta iota. by rewrite Eh.
      * pose proof (resolveClientCache_acts (set_cache e client (absent version now)) w now client (absent version now)) as Hr.
        destruct (resolveClientCache _ _ _ _ _) as [[r e'] w']. act. rewrite Est. cbn beta iota. rewrite Eh. act. exact Hr.
  - destruct (e_cache e !! client) as [c|] eqn:Ec; [destruct (0 <? e_cacheTTL e) eqn:Et|]; [|act; rewrite Est; act..].
    pose proof (resolveClientCache_acts e w now client c) as Hr.
    destruct (resolveClientCache _ _ _ _ _) as [[r e'] w']. act. by rewrite Est.
Qed.

(** A lookup that runs alone does what [Engine.Lookup] does: same answer, same caches, same
    store. *)
Theorem lookup_alone e w now client :
  let '(r, e', w') := Lookup e w now client in acts (Lookup_go (e_cacheTTL e) client) e w now r e' w'.
Proof.
  pose proof (confirmClient_acts e w now client) as Hc. unfold Lookup, Lookup_go. destruct (e_cache e !! client) as [c|] eqn:Ec.
  - destruct (fresh e now (cr_checkedAt c)) eqn:Ef.
    + pose proof (resolveClientCache_acts e w now client c) as Hr.
      destruct (resolveClientCache _ _ _ _ _) as [[r e'] w']. act. rewrite Ec. act. by rewrite Ef.
    + destruct (confirmClient e w now client) as [[r e'] w']. act. rewrite Ec. act. by rewrite Ef.
  - destruct (confirmClient e w now client) as [[r e'] w']. act. by rewrite Ec.
Qed.
End Alone.
