(* ===== verification/EngineConc.v ===== *)
(** * Concurrent lookups (internal/rules/engine.go)

    What the rule engine promises when any number of lookups run at once and the store changes
    under them.  An entry of a cache is labelled with the version a [Stat] saw and holds rules
    compiled from what a later [Get] returned; the two need not belong together.  [VersionsRetire]
    says when that is harmless: a version that was replaced never comes back. *)

From S2P Require Import Prelude GoStrings Netip Json JsonRoundtrip Encoding Schema JsonRules Matcher.
From S2P Require Import Compile HostIndex Egress Auth RuleSet MaskedKey DefaultRuleset DefaultTable Storage Engine EngineCorrect Instruments Conc EngineGo.

Open Scope Z_scope.

(** What the interface documents of versions beyond [StorageSpec]: two reads return equal
    versions only if nothing changed in between, not even for a while. *)
Class VersionsRetire (W : Type) `{SS : StorageSpec W} : Type := {
  retired : W -> bytes -> Version -> Prop;
  holds_key : W -> bytes -> Prop;
  retired_gone w k v d : retired w k v -> Get w k <> SOk (d, v);
  retired_evolves w w' k v : sound w -> evolves w w' -> retired w k v -> retired w' k v;
  retired_changed w w' k v d :
    sound w -> Get w k = SOk (d, v) -> evolves w w' ->
    match Get w' k with SOk (_, v') => v' <> v | SNotExist => True | SFail _ => False end -> retired w' k v;
  holds_get w k d v : Get w k = SOk (d, v) -> holds_key w k;
  holds_present w k : holds_key w k -> Get w k <> SNotExist }.

(** ** The POSIX backend *)

Definition posix_retired (w : fs) (k : bytes) (v : Version) : Prop :=
  (exists f, v = versionOf f /\ 0 <= f_mtime f <= fs_now w) /\ forall f, fs_files w !! k = Some f -> versionOf f <> v.

Lemma posix_retired_event w w' k v : fs_wf w -> posix_event w w' -> posix_retired w k v -> posix_retired w' k v.
Proof.
  intros [H0 Hwf] He [(f0 & -> & Hr) Hk]. pose proof (event_now _ _ He). split; [exists f0; split; [done|lia]|].
  destruct He as [w k' d' Ht|w k'|w b]; [| |exact Hk].
  - destruct (posix_put_files w k' d') as (Hf & _ & _). intros f. rewrite Hf.
    intros [[-> <-]|[_ [_ Hl]%lookup_delete_Some]]%lookup_insert_Some Hv; [|by apply (Hk f)].
    apply versionOf_mtime in Hv; simpl in *; lia.
  - intros f. cbn. intros [_ Hl]%lookup_delete_Some. by apply Hk.
Qed.

Lemma posix_retired_events w w' k v : fs_wf w -> rtc posix_event w w' -> posix_retired w k v -> posix_retired w' k v.
Proof. intros Hwf He. induction He; eauto using event_wf, posix_retired_event. Qed.

Lemma events_now w w' : rtc posix_event w w' -> fs_now w <= fs_now w'.
Proof. induction 1 as [|w w1 w' He _ IH]; [lia|]. apply event_now in He. lia. Qed.

#[export] Program Instance posix_retires : VersionsRetire fs := {|
  retired := posix_retired; holds_key := fun w k => is_Some (fs_files w !! k) |}.
Next Obligation.
  intros w k v d [_ Hk]. simpl. unfold posix_Get. destruct (fs_up w); [|done]. destruct (fs_files w !! k) as [f|] eqn:E; [|done].
  intros [= _ Hv]. by apply (Hk f).
Qed.
Next Obligation. intros. by eapply posix_retired_events. Qed.
Next Obligation.
  intros w w' k v d [_ Hwf] Hg He Hc. simpl in *. unfold posix_Get in *. destruct (fs_up w); [|done].
  destruct (fs_files w !! k) as [f|] eqn:E; [|done]. injection Hg as _ <-. apply events_now in He. split.
  - exists f. split; [done|]. apply Hwf in E. lia.
  - intros f' Hf'. rewrite Hf' in Hc. destruct (fs_up w'); [|done]. done.
Qed.
Next Obligation.
  intros w k d v. simpl. unfold posix_Get. destruct (fs_up w); [|done]. by destruct (fs_files w !! k).
Qed.
Next Obligation.
  intros w k [f Hf]. simpl. unfold posix_Get. rewrite Hf. by destruct (fs_up w).
Qed.

(** ** The invariant *)

Section EngineConc.
Context `{RE : RegexEngine} `{DG : Digests} `{UT : UnicodeTable} `{US : UUIDSource}.
Context {W : Type} `{SS : StorageSpec W}.

(** The runs are strict, of documents with identities over a backend that retires versions, and
    then [ret] and [kept] are the backend's; or [ret] says nothing. *)
Record labelling (strict : Prop) (ret : W -> bytes -> Version -> Prop) (kept : W -> bytes -> Prop) : Prop := {
  lb_gone w k v d : strict -> ret w k v -> Get w k <> SOk (d, v);
  lb_evolves w w' k v : sound w -> evolves w w' -> ret w k v -> ret w' k v;
  lb_changed w w' k v d :
    sound w -> Get w k = SOk (d, v) -> evolves w w' ->
    match Get w' k with SOk (_, v') => v' <> v | SNotExist => True | SFail _ => False end -> ret w' k v;
  lb_get w k d v : strict -> Get w k = SOk (d, v) -> kept w k;
  lb_present w k : strict -> kept w k -> Get w k <> SNotExist;
  lb_mode : strict \/ forall w k v, ret w k v }.

Variables (ttl : Z) (strict : Prop) (ret : W -> bytes -> Version -> Prop) (kept : W -> bytes -> Prop).
Hypothesis Hlb : labelling strict ret kept.
Hypothesis Hnc : no_collisions.

(** Documents that carry their identity, so that none is minted. *)
Definition file_named (data : bytes) : Prop := forall rf, Unmarshal_RuleFile data = Ok rf -> rf_UUID rf <> [].
Definition table_named (data : bytes) : Prop :=
  forall entries, parseDefaultRuleset data = Ok entries -> Forall (fun pe => rf_UUID (pe_rule pe) <> []) entries.

Definition world_named (w : W) : Prop :=
  (forall client data v, Get w (keyFor client) = SOk (data, v) -> file_named data)
  /\ (forall data v, Get w defaultKey = SOk (data, v) -> table_named data).

Definition documents (w : W) : Prop := world_printable w /\ (strict -> world_named w).

(** The rules come from version [v'], and are labelled [v]. *)
Definition label (w : W) (k : bytes) (v v' : Version) : Prop := v' = v \/ ret w k v.

(** The document of an entry: one that was stored for the client, or, when the file vanished
    between the [Stat] and the [Get], the empty one. *)
Definition source (w : W) (client : Addr) (v : Version) (rf : RuleFile) : Prop :=
  (exists v' data, knows w (keyFor client) v' data /\ Unmarshal_RuleFile data = Ok rf /\ label w (keyFor client) v v')
  \/ (~ strict /\ rf = zero_file).

Definition entry_from (w : W) (client : Addr) (c : cachedRuleSet) : Prop :=
  cr_exists c = true ->
  exists rf rf' rs, cr_ruleSet c = Some rs /\ source w client (cr_version c) rf /\ minted_file rf rf' /\ clean rf'
    /\ cr_contentHash c = sha256 (Marshal_RuleFile rf') /\ override_rules w client rf' rs.

Definition default_from (w : W) (c : cachedDefault) : Prop :=
  match cd_ruleset c with
  | Some d => buckets_ok d /\ (strict -> cd_exists c = true)
      /\ exists v data, knows w defaultKey v data /\ table_ok data d /\ label w defaultKey (cd_version c) v
  | None => cd_exists c = false
  end.

Definition inv (s : shared) : Prop :=
  let w := sh_world s in let e := sh_engine s in
  sound w /\ documents w /\ e_cacheTTL e = ttl
  /\ map_Forall (entry_from w) (e_cache e) /\ (forall c, e_defaultCache e = Some c -> default_from w c).

Definition moves (s s' : shared) : Prop :=
  evolves (sh_world s) (sh_world s') /\ (strict -> forall k, kept (sh_world s) k -> kept (sh_world s') k).

(** Every document along the way is printable, and named in a strict run; in a strict run nothing is
    deleted. *)
Definition sem (X : Type) (s : shared) (o : engine_op X) (x : X) (s' : shared) : Prop :=
  perform_op X o s = (x, s') /\ documents (sh_world s').

Definition world (s s' : shared) : Prop :=
  sh_engine s' = sh_engine s /\ sh_metrics s' = sh_metrics s /\ documents (sh_world s') /\ moves s s'.

Lemma moves_refl s : moves s s.
Proof. split; [apply evolves_refl|done]. Qed.

Lemma moves_trans a b c : moves a b -> moves b c -> moves a c.
Proof. intros [H1 H2] [H3 H4]. split; [by eapply evolves_trans|auto]. Qed.

(** *** The world moves on *)

Lemma label_evolves w w' k v v' : sound w -> evolves w w' -> label w k v v' -> label w' k v v'.
Proof. intros Hs He [->|Hr]; [by left|right]. by eapply lb_evolves. Qed.

Lemma override_rules_evolves w w' client rf rs : sound w -> evolves w w' -> override_rules w client rf rs -> override_rules w' client rf rs.
Proof.
  intros Hs He (auth & comp & eg & Ha & Hco & Hr & Heg). exists auth, comp, eg. split_and!; try done. by eapply egress_ok_evolves.
Qed.

Lemma source_evolves w w' client v rf : sound w -> evolves w w' -> source w client v rf -> source w' client v rf.
Proof.
  intros Hs He [(v' & data & Hk & Hu & Hl)|Hz]; [left|by right]. exists v', data.
  split_and!; [by eapply knows_evolves|done|by eapply label_evolves].
Qed.

Lemma entry_from_evolves w w' client c : sound w -> evolves w w' -> entry_from w client c -> entry_from w' client c.
Proof.
  intros Hs He Hc Hx. destruct (Hc Hx) as (rf & rf' & rs & Hr & Hsrc & Hm & Hcl & Hh & Ho). exists rf, rf', rs.
  split_and!; try done; [by eapply source_evolves|by eapply override_rules_evolves].
Qed.

Lemma default_from_evolves w w' c : sound w -> evolves w w' -> default_from w c -> default_from w' c.
Proof.
  intros Hs He. unfold default_from. destruct (cd_ruleset c) as [d|]; [|done].
  intros (Hb & Hx & v & data & Hk & Ht & Hl). split_and!; try done. exists v, data.
  split_and!; [by eapply knows_evolves|done|by eapply label_evolves].
Qed.

Lemma inv_world s s' :
  inv s -> documents (sh_world s') -> evolves (sh_world s) (sh_world s') ->
  e_cacheTTL (sh_engine s') = e_cacheTTL (sh_engine s) -> e_cache (sh_engine s') = e_cache (sh_engine s) ->
  e_defaultCache (sh_engine s') = e_defaultCache (sh_engine s) -> inv s'.
Proof.
  intros (Hs & _ & Ht & Hc & Hd) Hdoc He Et Ec Ed. unfold inv. rewrite Et, Ec, Ed. split_and!; try done.
  - by eapply sound_evolves.
  - intros client c Hl. eapply entry_from_evolves; [done..|by apply Hc].
  - intros c Hl. eapply default_from_evolves; [done..|by apply Hd].
Qed.

Lemma world_ok s s' : inv s -> world s s' -> inv s' /\ moves s s'.
Proof. intros Hi (He & _ & Hdoc & Hm). split; [|done]. eapply inv_world; [done|done|apply Hm|by rewrite He..]. Qed.

Lemma kept_through a b k : strict -> moves a b -> kept (sh_world a) k -> Get (sh_world b) k <> SNotExist.
Proof. intros Hst [_ Hk] H. eapply lb_present; eauto. Qed.

(** ** Operations *)

Abbreviation guard := (guar sem inv moves).

Lemma elem_of_suffix {A} (x : A) l l' : x ∈ l -> suffix l l' -> x ∈ l'.
Proof. intros Hin [k ->]. apply elem_of_app. by right. Qed.

(** What a goroutine knew is still so. *)
Lemma recall seen seen' s s0 :
  suffix seen (s :: seen') -> lived inv moves (s :: seen') -> s0 ∈ seen -> inv s0 /\ inv s /\ moves s0 s /\ s0 ∈ s :: seen'.
Proof.
  intros [l Hl] Hlv Hin. assert (Hin' : s0 ∈ s :: seen') by (rewrite Hl; apply elem_of_app; by right).
  split_and!; [by eapply lived_inv|by eapply lived_inv; [|apply list_elem_of_here]| |done]. eapply lived_moves; [apply moves_refl|exact Hlv|exact Hin'].
Qed.

Lemma guar_read {A X} seen (o : engine_op X) (g : shared -> X) (f : X -> goprog engine_op A) R :
  (forall s, perform_op X o s = (g s, s)) ->
  (forall seen' s, suffix seen (s :: seen') -> lived inv moves (s :: seen') -> guard (s :: s :: seen') (f (g s)) R) ->
  guard seen (do_op o ≫= f) R.
Proof.
  intros Ho Hf. apply guar_do. intros seen' s x s' Hsuf Hl [Hp Hdoc]. rewrite Ho in Hp. injection Hp as <- <-.
  split_and!; [by eapply lived_inv; [|apply list_elem_of_here]|apply moves_refl|by apply Hf].
Qed.

Lemma guar_quiet {A X} seen (o : engine_op X) (f : X -> goprog engine_op A) R :
  (forall s, let s' := (perform_op X o s).2 in
     sh_world s' = sh_world s /\ e_cacheTTL (sh_engine s') = e_cacheTTL (sh_engine s)
     /\ e_cache (sh_engine s') = e_cache (sh_engine s) /\ e_defaultCache (sh_engine s') = e_defaultCache (sh_engine s)) ->
  (forall seen' s, suffix seen (s :: seen') -> lived inv moves (s :: seen') ->
     guard ((perform_op X o s).2 :: s :: seen') (f (perform_op X o s).1) R) ->
  guard seen (do_op o ≫= f) R.
Proof.
  intros Ho Hf. apply guar_do. intros seen' s x s' Hsuf Hl [Hp Hdoc]. specialize (Ho s). specialize (Hf seen' s Hsuf Hl).
  rewrite Hp in Ho, Hf. cbn in Ho, Hf. destruct Ho as (Ew & Et & Ec & Ed).
  assert (Hi : inv s) by (eapply lived_inv; [exact Hl|apply list_elem_of_here]).
  split_and!; [|split; [rewrite Ew; apply evolves_refl|by rewrite Ew]|done].
  eapply inv_world; [exact Hi|done|rewrite Ew; apply evolves_refl|done..].
Qed.

Lemma guar_write_client {A} seen client c (f : bool -> goprog engine_op A) R :
  (forall seen' s, suffix seen (s :: seen') -> lived inv moves (s :: seen') ->
     entry_from (sh_world s) client c /\ forall s' b, guard (s' :: s :: seen') (f b) R) ->
  guard seen (do_op (WriteClient client c) ≫= f) R.
Proof.
  intros Hf. apply guar_do. intros seen' s x s' Hsuf Hl [Hp Hdoc]. destruct (Hf seen' s Hsuf Hl) as [He Hk].
  cbn in Hp. injection Hp as <- <-. assert (Hi : inv s) by (eapply lived_inv; [exact Hl|apply list_elem_of_here]).
  split_and!; [|split; [apply evolves_refl|done]|apply Hk]. destruct Hi as (Hs & Hd & Ht & Hc & Hdef). split_and!; try done.
  cbn. by apply map_Forall_insert_2.
Qed.

Lemma guar_write_default {A} seen c (f : bool -> goprog engine_op A) R :
  (forall seen' s, suffix seen (s :: seen') -> lived inv moves (s :: seen') ->
     default_from (sh_world s) c /\ forall s' b, guard (s' :: s :: seen') (f b) R) ->
  guard seen (do_op (WriteDefault c) ≫= f) R.
Proof.
  intros Hf. apply guar_do. intros seen' s x s' Hsuf Hl [Hp Hdoc]. destruct (Hf seen' s Hsuf Hl) as [He Hk].
  cbn in Hp. injection Hp as <- <-. assert (Hi : inv s) by (eapply lived_inv; [exact Hl|apply list_elem_of_here]).
  split_and!; [|split; [apply evolves_refl|done]|apply Hk]. destruct Hi as (Hs & Hd & Ht & Hc & Hdef). split_and!; try done.
  cbn. by intros c' [= <-].
Qed.

Lemma guar_put {A} seen key data (f : sres unit -> goprog engine_op A) R :
  ~ strict -> (forall seen' x, suffix seen seen' -> guard seen' (f x) R) -> guard seen (do_op (PutKey key data) ≫= f) R.
Proof.
  intros Hst Hf. apply guar_do. intros seen' s x s' Hsuf Hl [Hp Hdoc]. cbn in Hp.
  destruct (Put (sh_world s) key data) as [r w'] eqn:Ep. injection Hp as <- <-.
  assert (Hi : inv s) by (eapply lived_inv; [exact Hl|apply list_elem_of_here]).
  assert (He : evolves (sh_world s) w') by (by eapply put_evolves).
  split_and!; [by eapply inv_world|by split|]. apply Hf. etrans; [exact Hsuf|]. by eexists [_].
Qed.

Lemma measured_guar {A} seen g (f : unit -> goprog engine_op A) R :
  (forall seen', suffix seen seen' -> guard seen' (f tt) R) -> guard seen (do_op (Measured g) ≫= f) R.
Proof.
  intros Hf. apply guar_quiet; [done|]. intros seen' s Hsuf _. apply Hf. etrans; [exact Hsuf|]. by eexists [_].
Qed.

Lemma now_guar {A} seen (f : Z -> goprog engine_op A) R :
  (forall seen' n, suffix seen seen' -> guard seen' (f n) R) -> guard seen (do_op Now ≫= f) R.
Proof.
  intros Hf. apply (guar_read _ _ sh_clock); [done|]. intros seen' s Hsuf _. apply Hf. etrans; [exact Hsuf|]. by eexists [_].
Qed.

Lemma compiled_in_guar seen outcome start : guard seen (compiled_in outcome start) (fun _ _ => True).
Proof. unfold compiled_in. apply now_guar. intros. by apply (measured_guar _ _ Done). Qed.

Lemma compileFailed_guar {A} seen start msg (Q : list shared -> result A -> Prop) :
  (forall seen', Q seen' (Error msg)) -> guard seen (compileFailed start msg) Q.
Proof. intros HQ. eapply guar_bind; [apply compiled_in_guar|]. intros. by apply guar_done. Qed.

Lemma fresh_guar seen at_ : guard seen (fresh_go ttl at_) (fun _ b => b = true -> 0 < ttl).
Proof.
  unfold fresh_go. destruct (Z.ltb_spec 0 ttl); [|by apply guar_done]. apply now_guar. intros. by apply guar_done.
Qed.

(** ** The default table *)

(** A version hit gives what the blob says at that moment. *)
Lemma hit_now w c : strict -> default_from w c -> stat w defaultKey = Ok (cd_version c, cd_exists c) -> current_table w (cd_ruleset c).
Proof.
  intros Hst Hd Hs. unfold default_from in Hd. unfold current_table. pose proof (stat_spec w defaultKey) as Hsp. rewrite Hs in Hsp.
  destruct (cd_ruleset c) as [d|].
  - destruct Hd as (_ & Hx & v & data & Hk & Ht & Hl). destruct (Get w defaultKey) as [[data' v']| |m] eqn:Eg; [| |by destruct Hsp].
    + injection Hsp as <- _. exists d. split; [done|]. destruct Hl as [->|Hr]; [by rewrite (knows_agree _ _ _ _ _ Hk Eg)|].
      by destruct (lb_gone _ _ _ Hlb _ _ _ data' Hst Hr).
    + injection Hsp as _ E. rewrite (Hx Hst) in E. done.
  - destruct (Get w defaultKey) as [[data' v']| |m] eqn:Eg; [|done|by destruct Hsp]. injection Hsp as _ E. congruence.
Qed.

Lemma default_from_past w c d : default_from w c -> cd_ruleset c = Some d -> past_table w d.
Proof. unfold default_from. intros H E. rewrite E in H. destruct H as (_ & _ & v & data & Hk & Ht & _). by exists v, data. Qed.

(** The answer about the default table: once stored, and, without a TTL, stored at some moment of
    the call. *)
Definition table_post (seen : list shared) (r : result (option DefaultRuleset)) : Prop :=
  forall o, r = Ok o ->
    (forall d, o = Some d -> exists s, s ∈ seen /\ past_table (sh_world s) d)
    /\ (strict -> ttl <= 0 -> exists s, s ∈ seen /\ current_table (sh_world s) o).

Lemma table_post_seen seen s o :
  s ∈ seen -> (forall d, o = Some d -> past_table (sh_world s) d) -> (strict -> ttl <= 0 -> current_table (sh_world s) o) -> table_post seen (Ok o).
Proof. intros Hin Hp Hc o' [= <-]. split; [intros d Hd; exists s; auto|intros; exists s; auto]. Qed.

(** Minting: nothing is minted for documents with identities. *)
Definition mint_post (entries : list parsedEntry) (seen : list (shared (W := W))) (x : list parsedEntry * bool) : Prop :=
  Forall2 minted_entry entries x.1 /\ (x.2 = false -> x.1 = entries)
  /\ (x.2 = true -> ~ Forall (fun pe => rf_UUID (pe_rule pe) <> []) entries).

Lemma mintEntries_guar seen entries : guard seen (mintEntries_go entries) (mint_post entries).
Proof.
  revert seen. induction entries as [|pe t IH]; intros seen; cbn [mintEntries_go]; [apply guar_done; by split_and!|].
  case_bool_decide as Hu.
  - apply guar_quiet; [done|]. intros seen' s _ _. eapply guar_bind; [apply IH|]. intros seen'' [t' minted] _ (HF & _ & _).
    apply guar_done. cbn in *. split_and!; [|done|].
    + constructor; [|done]. split; [done|]. right. split; [done|]. by eexists.
    + intros _ HA. apply Forall_cons in HA as [? _]. done.
  - eapply guar_bind; [apply IH|]. intros seen'' [t' minted] _ (HF & Hf & Ht). apply guar_done. cbn in *. split_and!.
    + constructor; [|done]. split; [done|]. by left.
    + intros E. by rewrite (Hf E).
    + intros E HA. apply Forall_cons in HA as [_ HA]. by apply Ht.
Qed.

(** Writing a minted document back; only done in a lax run. *)
Lemma persist_guar seen key data version ex :
  ~ strict -> guard seen (persist_go key data version ex) (fun _ _ => True).
Proof.
  intros Hst. unfold persist_go. apply guar_put; [done|]. intros seen' [[]| |m] Hsuf; [|by apply guar_done..].
  by apply (guar_read _ _ (fun s => stat (sh_world s) key)).
Qed.

Lemma lax_label w k v v' : ~ strict -> label w k v v'.
Proof. intros Hst. right. by destruct (lb_mode _ _ _ Hlb) as [?|Hl]. Qed.

(** The version a [Stat] saw labels what a later [Get] returned. *)
Lemma label_later w w' k v d v' d' :
  sound w -> evolves w w' -> Get w k = SOk (d, v) -> Get w' k = SOk (d', v') -> label w' k v v'.
Proof.
  intros Hs He Hg Hg'. destruct (decide (v' = v)) as [->|Hne]; [by left|right]. eapply lb_changed; [done|done|done|done|]. by rewrite Hg'.
Qed.

Lemma parse_empty : exists m, parseDefaultRuleset [] = Error m.
Proof. by eexists; vm_compute. Qed.

(** Compiling the entries read from [data] and remembering them. *)
Lemma remember_default seen s0 data v entries es version ex prev start :
  s0 ∈ seen -> Get (sh_world s0) defaultKey = SOk (data, v) -> parseDefaultRuleset data = Ok entries ->
  Forall2 minted_entry entries es -> Forall (fun pe => clean (pe_rule pe)) es ->
  label (sh_world s0) defaultKey version v -> (strict -> ex = true) -> (forall d, prev = Some d -> buckets_ok d) ->
  guard seen
    (match compileParsedEntries es prev with
     | Error m => compileFailed start m
     | Ok compiled =>
         now ← do_op Now;
         _ ← do_op (WriteDefault {| cd_checkedAt := now; cd_version := version; cd_exists := ex; cd_ruleset := Some compiled |});
         _ ← compiled_in "ok" start;
         Done (Ok (Some compiled))
     end) table_post.
Proof.
  intros Hin Hg Hparse Hm Hcl Hlab Hex Hprev.
  assert (Hk : keys_ok es).
  { destruct (parseDefaultRuleset_kept _ _ Hparse) as (all & _ & Hkept). unfold keys_ok. rewrite (minted_keys _ _ Hm). exact (kept_keys _ _ Hkept). }
  rewrite compileParsedEntries_fresh by (try done; by apply buckets_prev_ok).
  destruct (compileFresh es) as [d|m] eqn:Ed; [|apply compileFailed_guar; by intros ? ? [=]].
  assert (Ht : table_ok data d) by (by exists entries, es, d).
  apply now_guar. intros seen1 now Hs1. apply guar_write_default. intros seen2 s Hs2 Hl.
  destruct (recall seen1 seen2 s s0 Hs2 Hl) as (Hi0 & Hi & Hmv & Hin2); [eapply elem_of_suffix; [exact Hin|exact Hs1]|]. split.
  - unfold default_from. cbn. split_and!; [by eapply fresh_buckets_ok|done|]. exists v, data.
    destruct Hi0 as (Hso & _). split_and!; [eapply knows_evolves; [done|apply Hmv|by apply knows_get]|done|eapply label_evolves; [done|apply Hmv|done]].
  - intros s' b. eapply guar_bind; [apply compiled_in_guar|]. intros seen3 [] Hs3 _. apply guar_done.
    assert (Hin3 : s0 ∈ seen3) by (eapply elem_of_suffix; [|exact Hs3]; apply elem_of_cons; by right).
    destruct Hi0 as (Hso & _). apply (table_post_seen _ s0); [done| |].
    + intros d' [= <-]. exists v, data. split; [by apply knows_get|done].
    + intros _ _. unfold current_table. rewrite Hg. eauto.
Qed.

Lemma reloadDefault_guar seen s0 cached version data0 :
  s0 ∈ seen -> Get (sh_world s0) defaultKey = SOk (data0, version) ->
  (forall c, cached = Some c -> default_from (sh_world s0) c) ->
  guard seen (reloadDefault_go cached version true) table_post.
Proof.
  intros Hin Hg0 Hc. unfold reloadDefault_go. apply now_guar. intros seen1 start Hs1.
  apply (guar_read _ _ (fun s => Get (sh_world s) defaultKey)); [done|]. intros seen2 s Hs2 Hl.
  destruct (recall seen1 seen2 s s0 Hs2 Hl) as (Hi0 & Hi & Hmv & Hin2); [eapply elem_of_suffix; [exact Hin|exact Hs1]|].
  destruct Hi as (Hso & [Hpr Hnm] & _). destruct Hi0 as (Hso0 & _).
  destruct (Get (sh_world s) defaultKey) as [[data v]| |m] eqn:Eg; cycle 1.
  { destruct parse_empty as [m ->]. apply compileFailed_guar. by intros ? ? [=]. }
  { apply compileFailed_guar. by intros ? ? [=]. }
  destruct (parseDefaultRuleset data) as [entries|m] eqn:Ep; [|apply compileFailed_guar; by intros ? ? [=]].
  assert (Hlab : label (sh_world s) defaultKey version v) by (eapply label_later; [exact Hso0|apply Hmv|done|done]).
  assert (Hcl : Forall (fun pe => clean (pe_rule pe)) entries) by (eapply parsed_clean; [done|]; by eapply Hpr).
  assert (Hprev : forall d, (cached ≫= cd_ruleset) = Some d -> buckets_ok d).
  { intros d Hd. destruct cached as [c|]; [|done]. specialize (Hc c eq_refl). unfold default_from in Hc. cbn in Hd. rewrite Hd in Hc. apply Hc. }
  eapply guar_bind; [apply mintEntries_guar|]. intros seen3 [es minted] Hs3 (HF & Hf & Ht). cbn [fst snd] in *.
  assert (Hin3 : s ∈ seen3) by (eapply elem_of_suffix; [apply list_elem_of_here|exact Hs3]).
  pose proof (minted_entries_clean _ _ HF Hcl) as Hcl'.
  destruct minted.
  - assert (Hst : ~ strict). { intros Hst. apply Ht; [done|]. eapply (proj2 (Hnm Hst)); [exact Eg|done]. }
    eapply guar_bind; [by apply persist_guar|]. intros seen4 [v4 ex4] Hs4 _.
    eapply remember_default; [eapply elem_of_suffix; [exact Hin3|exact Hs4]|done|done|done|done|by apply lax_label|done|done].
  - cbn [mbind go_mbind go_bind]. by eapply remember_default.
Qed.

Lemma confirmDefault_guar seen s0 cached :
  s0 ∈ seen -> (forall c, cached = Some c -> default_from (sh_world s0) c) -> guard seen (confirmDefault_go ttl cached) table_post.
Proof.
  intros Hin Hc. unfold confirmDefault_go. apply (guar_read _ _ (fun s => stat (sh_world s) defaultKey)); [done|]. intros seen1 s Hs1 Hl.
  destruct (recall seen seen1 s s0 Hs1 Hl Hin) as ((Hso0 & _) & (Hso & _) & Hmv & Hin1).
  assert (Hcs : forall c, cached = Some c -> default_from (sh_world s) c)
    by (intros c E; eapply default_from_evolves; [exact Hso0|apply Hmv|by apply Hc]).
  assert (Hs : s ∈ s :: s :: seen1) by apply list_elem_of_here.
  destruct (stat (sh_world s) defaultKey) as [[v ex]|m] eqn:Est; cycle 1.
  { apply guar_done. destruct cached as [c|]; [|by intros ? [=]]. destruct (Z.ltb_spec 0 ttl); [|by intros ? [=]].
    apply (table_post_seen _ s); [done|intros d Hd; by eapply default_from_past; [apply Hcs|]|lia]. }
  destruct (default_hit cached v ex) as [c|] eqn:Eh; [|destruct ex; cbn [negb]].
  - unfold default_hit in Eh. destruct cached as [c'|]; [|done]. destruct (bool_decide _ && _) eqn:Eb; [|done]. simplify_eq.
    apply andb_true_iff in Eb as [<-%bool_decide_eq_true <-%Bool.eqb_prop]. specialize (Hcs c eq_refl).
    apply now_guar. intros seen2 now Hs2. apply guar_write_default. intros seen3 s3 Hs3 Hl3.
    destruct (recall seen2 seen3 s3 s Hs3 Hl3) as (_ & _ & Hmv3 & Hin3); [by eapply elem_of_suffix|]. split.
    + exact (default_from_evolves _ _ c Hso (proj1 Hmv3) Hcs).
    + intros s' b. apply guar_done. apply (table_post_seen _ s); [apply elem_of_cons; by right| |].
      * intros d Hd. by eapply default_from_past.
      * intros Hst _. by apply hit_now.
  - destruct (stat_true _ _ _ Est) as [data Hg]. by eapply reloadDefault_guar.
  - apply now_guar. intros seen2 now Hs2. apply guar_write_default. intros seen3 s3 Hs3 Hl3. split; [done|].
    destruct (recall seen2 seen3 s3 s Hs3 Hl3) as (_ & _ & Hmv3 & Hin3); [by eapply elem_of_suffix|].
    intros s' b. apply guar_done. apply (table_post_seen _ s); [apply elem_of_cons; by right|done|].
    intros _ _. unfold current_table. by rewrite (stat_false _ _ _ Est).
Qed.

Lemma lookupDefaultTable_guar seen : guard seen (lookupDefaultTable_go ttl) table_post.
Proof.
  unfold lookupDefaultTable_go. apply (guar_read _ _ (fun s => e_defaultCache (sh_engine s))); [done|]. intros seen1 s Hs1 Hl.
  assert (Hi : inv s) by (eapply lived_inv; [exact Hl|apply list_elem_of_here]). destruct Hi as (Hso & _ & _ & _ & Hd).
  assert (Hs : s ∈ s :: s :: seen1) by apply list_elem_of_here.
  destruct (e_defaultCache (sh_engine s)) as [c|] eqn:Ec; [|by eapply (confirmDefault_guar _ s)].
  specialize (Hd c eq_refl). eapply guar_bind; [apply fresh_guar|]. intros seen2 [|] Hs2 Hf.
  - apply guar_done. apply (table_post_seen _ s); [by eapply elem_of_suffix|intros d E; by eapply default_from_past|lia].
  - eapply (confirmDefault_guar _ s); [by eapply elem_of_suffix|]. by intros ? [= <-].
Qed.

(** ** Overrides *)

(** The answer of a lookup.  Its rules come from a document that was stored for the client, from a
    default table that was stored, or from nothing; without a TTL the document was stored at some
    moment of the lookup, and so was the table. *)
Definition once_stored (w : W) (client : Addr) (rs : RuleSet) : Prop :=
  past_rules w client rs \/ (~ strict /\ exists rf', minted_file zero_file rf' /\ override_rules w client rf' rs).

Definition stored_during (seen : list (shared (W := W))) (client : Addr) (rs : RuleSet) : Prop :=
  exists s, s ∈ seen /\
    match Get (sh_world s) (keyFor client) with
    | SOk (data, _) => exists rf s', s' ∈ seen /\ Unmarshal_RuleFile data = Ok rf /\ override_rules (sh_world s') client rf rs
    | SNotExist => exists s' def, s' ∈ seen /\ current_table (sh_world s') def /\ rs = default emptyRuleSet (defaultFor def client)
    | SFail _ => False
    end.

Definition rules_post (client : Addr) (seen : list (shared (W := W))) (r : result RuleSet) : Prop :=
  forall rs, r = Ok rs ->
    (exists s, s ∈ seen /\ once_stored (sh_world s) client rs) /\ (strict -> ttl <= 0 -> stored_during seen client rs).

Lemma entry_once w client c : entry_from w client c -> cr_exists c = true -> once_stored w client (default emptyRuleSet (cr_ruleSet c)).
Proof.
  intros He Hx. destruct (He Hx) as (rf & rf' & rs & -> & Hsrc & Hm & Hcl & _ & Ho). cbn.
  destruct Hsrc as [(v & data & Hk & Hu & _)|[Hst ->]]; [left; left|right; eauto]. by exists v, data, rf, rf'.
Qed.

(** A version hit gives the rules of the document that is stored at that moment. *)
Lemma entry_now w client c :
  strict -> documents w -> entry_from w client c -> cr_exists c = true -> stat w (keyFor client) = Ok (cr_version c, true) ->
  exists data rf, Get w (keyFor client) = SOk (data, cr_version c) /\ Unmarshal_RuleFile data = Ok rf
    /\ override_rules w client rf (default emptyRuleSet (cr_ruleSet c)).
Proof.
  intros Hst [_ Hn] He Hx Hs. destruct (He Hx) as (rf & rf' & rs & -> & Hsrc & Hm & _ & _ & Ho).
  destruct (stat_true _ _ _ Hs) as [data Hg]. destruct Hsrc as [(v & data' & Hk & Hu & Hl)|[? _]]; [|done].
  destruct Hl as [->|Hr]; [|by destruct (lb_gone _ _ _ Hlb _ _ _ data Hst Hr)].
  rewrite <- (knows_agree _ _ _ _ _ Hk Hg) in Hu. exists data, rf. split_and!; [done|done|]. cbn.
  destruct Hm as [[_ ->]|[Hu0 _]]; [done|]. by destruct (proj1 (Hn Hst) _ _ _ Hg rf Hu).
Qed.

Lemma resolveClientCache_guar seen s0 client c :
  s0 ∈ seen -> documents (sh_world s0) -> entry_from (sh_world s0) client c ->
  (ttl <= 0 -> stat (sh_world s0) (keyFor client) = Ok (cr_version c, cr_exists c)) ->
  guard seen (resolveClientCache_go ttl client c) (rules_post client).
Proof.
  intros Hin Hdoc He Hs. unfold resolveClientCache_go. destruct (cr_exists c) eqn:Ex.
  - apply guar_done. intros rs [= <-]. split; [exists s0; split; [done|by apply entry_once]|]. intros Hst Ht.
    destruct (entry_now _ _ _ Hst Hdoc He Ex (Hs Ht)) as (data & rf & Hg & Hu & Ho). exists s0. split; [done|]. rewrite Hg. eauto.
  - eapply guar_bind; [apply lookupDefaultTable_guar|]. intros seen1 [def|m] Hs1 Hp; apply guar_done; [|by intros ? [=]].
    intros rs [= <-]. destruct (Hp def eq_refl) as [Hpast Hcur]. split.
    + destruct (defaultFor def client) as [rs|] eqn:Ef.
      * unfold defaultFor in Ef. destruct def as [d|]; [|done]. destruct (Hpast d eq_refl) as (s & Hin1 & Hpt).
        exists s. split; [done|]. left. right. left. by exists d.
      * exists s0. split; [by eapply elem_of_suffix|]. left. by right; right.
    + intros Hst Ht. destruct (Hcur Hst Ht) as (s & Hin1 & Hct). exists s0. split; [by eapply elem_of_suffix|].
      rewrite (stat_false _ _ _ (Hs Ht)). eauto.
Qed.

Lemma resolveEgress_guar seen s0 client rf :
  s0 ∈ seen ->
  guard seen (resolveEgress_go ttl client rf)
    (fun seen r => forall egress, r = Ok egress -> exists s, s ∈ seen /\ egress_ok (sh_world s) client rf egress).
Proof.
  intros Hin. unfold resolveEgress_go, egress_ok. destruct (rf_Egress rf) as [l|].
  - apply guar_done. intros egress He. exists s0. split; [done|]. destruct l; [|done]. left. by injection He as <-.
  - eapply guar_bind; [apply lookupDefaultTable_guar|]. intros seen1 [def|m] Hs1 Hp; apply guar_done; [|by intros ? [=]].
    intros egress [= <-]. destruct (Hp def eq_refl) as [Hpast _]. destruct (defaultFor def client) as [rs|] eqn:Ef.
    + unfold defaultFor in Ef. destruct def as [d|]; [|done]. destruct (Hpast d eq_refl) as (s & Hin1 & Hpt).
      exists s. split; [done|]. right. by exists d, rs.
    + exists s0. split; [by eapply elem_of_suffix|by left].
Qed.

(** What [lookupIP] has read, in the state in which it read it: the file [rf], which it turned into
    [rf'] and will remember under [version]. *)
Record loaded (w : W) (client : Addr) (version : Version) (rf rf' : RuleFile) : Prop := {
  ld_source : source w client version rf;
  ld_minted : minted_file rf rf';
  ld_clean : clean rf';
  ld_now : strict -> rf' = rf /\ exists data v, Get w (keyFor client) = SOk (data, v) /\ Unmarshal_RuleFile data = Ok rf }.

Lemma loaded_entry w w' client version rf rf' now rs :
  sound w -> evolves w w' -> loaded w client version rf rf' -> override_rules w' client rf' rs ->
  entry_from w' client {| cr_checkedAt := now; cr_version := version; cr_exists := true; cr_ruleSet := Some rs;
                          cr_contentHash := sha256 (Marshal_RuleFile rf') |}.
Proof.
  intros Hs He [Hsrc Hm Hcl _] Ho _. exists rf, rf', rs. cbn. split_and!; try done. by eapply source_evolves.
Qed.

Lemma loaded_post seen s s' client version rf rf' rs :
  s ∈ seen -> s' ∈ seen -> sound (sh_world s) -> evolves (sh_world s) (sh_world s') ->
  loaded (sh_world s) client version rf rf' -> override_rules (sh_world s') client rf' rs -> rules_post client seen (Ok rs).
Proof.
  intros Hin Hin' Hs He Hld Ho rs' [= <-]. split.
  - exists s'. split; [done|]. pose proof (source_evolves _ _ _ _ _ Hs He (ld_source _ _ _ _ _ Hld)) as Hsrc. pose proof (ld_minted _ _ _ _ _ Hld) as Hm.
    destruct Hsrc as [(v & data & Hk & Hu & _)|[Hst ->]]; [left; left|right; eauto]. by exists v, data, rf, rf'.
  - intros Hst _. destruct (ld_now _ _ _ _ _ Hld Hst) as (-> & data & v & Hg & Hu). exists s. split; [done|]. rewrite Hg. eauto.
Qed.

Lemma compileIP_guar seen s0 client start version rf rf' :
  s0 ∈ seen -> loaded (sh_world s0) client version rf rf' ->
  guard seen (compileIP_go ttl client start rf' version (sha256 (Marshal_RuleFile rf'))) (rules_post client).
Proof.
  intros Hin Hld. unfold compileIP_go. assert (Hfail : forall m seen', rules_post client seen' (Error m)) by (by intros ? ? ? [=]).
  destruct (CompileAuth (rf_Auth rf')) as [auth|m] eqn:Ea; [|by apply compileFailed_guar].
  destruct (Compile rf') as [compiled|m] eqn:Ec; [|by apply compileFailed_guar].
  eapply guar_bind; [by apply (resolveEgress_guar _ s0)|]. intros seen1 [egress|m] Hs1 Hp; [|by apply compileFailed_guar].
  destruct (Hp egress eq_refl) as (s1 & Hin1 & Heg). cbv zeta. apply now_guar. intros seen2 now Hs2.
  apply guar_write_client. intros seen3 s Hs3 Hl.
  destruct (recall seen2 seen3 s s0 Hs3 Hl) as ((Hso0 & _) & _ & Hmv0 & Hin0); [eapply elem_of_suffix; [|exact Hs2]; by eapply elem_of_suffix|].
  destruct (recall seen2 seen3 s s1 Hs3 Hl) as ((Hso1 & _) & _ & Hmv1 & _); [by eapply elem_of_suffix|].
  assert (Ho : override_rules (sh_world s) client rf' (newRuleSet compiled egress (rf_UUID rf') auth)).
  { exists auth, compiled, egress. split_and!; try done. eapply egress_ok_evolves; [exact Hso1|apply Hmv1|done]. }
  split; [by eapply (loaded_entry (sh_world s0)); [|apply Hmv0|..]|]. intros s' b.
  eapply guar_bind; [apply compiled_in_guar|]. intros seen4 [] Hs4 _.
  assert (Hpost : forall seen5, suffix seen4 seen5 -> rules_post client seen5 (Ok (newRuleSet compiled egress (rf_UUID rf') auth))).
  { intros seen5 Hs5. assert (Hs45 : suffix (s' :: s :: seen3) seen5) by (by etrans). apply (loaded_post _ s0 s _ version rf rf'); try done; [| |apply Hmv0].
    - eapply elem_of_suffix; [|exact Hs45]. apply elem_of_cons. by right.
    - eapply elem_of_suffix; [|exact Hs45]. apply elem_of_cons. right. apply list_elem_of_here. }
  destruct b; [apply guar_done; by apply Hpost|]. apply measured_guar. intros seen5 Hs5. apply guar_done. by apply Hpost.
Qed.

Lemma reusable_rules w client c rf rs :
  entry_from w client c -> clean rf -> reusable (sha256 (Marshal_RuleFile rf)) (Some c) = Some rs -> override_rules w client rf rs.
Proof.
  intros He Hcl Hr. unfold reusable in Hr. destruct (cr_exists c) eqn:Ex; [|done]. cbn in Hr. case_bool_decide as Hh; [|done].
  destruct (He Ex) as (rf0 & rf0' & rs' & Hrs & _ & _ & Hcl0 & Hh0 & Ho). simplify_eq. rewrite Hh0 in Hh. apply Hnc in Hh.
  by eapply (override_same_text _ _ _ rf0').
Qed.

Lemma mintFile_guar seen client rf version :
  (rf_UUID rf = [] -> ~ strict) ->
  guard seen (mintFile_go client rf version)
    (fun _ x => minted_file rf x.1 /\ ((rf_UUID rf <> [] /\ x = (rf, version)) \/ ~ strict)).
Proof.
  intros Hst. unfold mintFile_go. case_bool_decide as Hu; [|apply guar_done; split; [by left|by left]].
  apply guar_quiet; [done|]. intros seen1 s Hs1 _. eapply guar_bind; [apply persist_guar; auto|]. intros seen2 [v ex] Hs2 _.
  apply guar_done. split; [|right; auto]. right. split; [done|]. by eexists.
Qed.

Lemma clean_zero : clean zero_file.
Proof.
  split; [by constructor|]. constructor. cbn. constructor; [|done]. split; [|constructor]. apply utf8_ascii. by repeat constructor.
Qed.

(** What a [Get] of the client's key gives a lookup whose [Stat] saw [version]. *)
Lemma load_spec s0 s client version data0 :
  inv s0 -> inv s -> moves s0 s -> Get (sh_world s0) (keyFor client) = SOk (data0, version) ->
  match (match Get (sh_world s) (keyFor client) with
         | SNotExist => Ok zero_file
         | SFail e => Error e
         | SOk (data, _) => wrap "rules: parse" (Unmarshal_RuleFile data)
         end) with
  | Ok rf => (rf_UUID rf = [] -> ~ strict) /\ clean rf
             /\ forall rf' v', minted_file rf rf' -> ((rf_UUID rf <> [] /\ (rf', v') = (rf, version)) \/ ~ strict) ->
                loaded (sh_world s) client v' rf rf'
  | Error _ => True
  end.
Proof.
  intros (Hso0 & _) (Hso & [Hpr Hnm] & _) Hmv Hg0. destruct (Get (sh_world s) (keyFor client)) as [[data v]| |m] eqn:Eg; [| |done].
  - destruct (Unmarshal_RuleFile data) as [rf|m] eqn:Eu; [|done]. cbn.
    assert (Hcl : clean rf) by (eapply Unmarshal_clean; [|done]; by eapply Hpr).
    split_and!; [intros Hu Hst; by apply (proj1 (Hnm Hst) _ _ _ Eg rf)|done|]. intros rf' v' Hm Hv. split.
    + left. exists v, data. split_and!; [by apply knows_get|done|]. destruct Hv as [[_ [= _ ->]]|Hst]; [|by apply lax_label].
      eapply label_later; [exact Hso0|apply Hmv|done|done].
    + done.
    + by eapply minted_clean.
    + intros Hst. destruct Hv as [[_ [= -> _]]|?]; [|done]. eauto.
  - assert (Hst : ~ strict).
    { intros Hst. apply (kept_through s0 s (keyFor client) Hst Hmv); [by eapply lb_get|done]. }
    split_and!; [done|apply clean_zero|]. intros rf' v' Hm _. split; [by right|done|eapply minted_clean; [done|apply clean_zero]|done].
Qed.

Lemma lookupIP_guar seen s0 client version cached data0 :
  s0 ∈ seen -> Get (sh_world s0) (keyFor client) = SOk (data0, version) ->
  (forall c, cached = Some c -> entry_from (sh_world s0) client c) ->
  guard seen (lookupIP_go ttl client version cached) (rules_post client).
Proof.
  intros Hin Hg0 Hc. unfold lookupIP_go. apply now_guar. intros seen1 start Hs1.
  apply (guar_read _ _ (fun s => Get (sh_world s) (keyFor client))); [done|]. intros seen2 s Hs2 Hl.
  destruct (recall seen1 seen2 s s0 Hs2 Hl) as (Hi0 & Hi & Hmv & Hin2); [by eapply elem_of_suffix|].
  pose proof (load_spec s0 s client version data0 Hi0 Hi Hmv Hg0) as Hload. destruct Hi0 as (Hso0 & _). destruct Hi as (Hso & _).
  destruct (match Get (sh_world s) (keyFor client) with SOk _ => _ | SNotExist => _ | SFail _ => _ end) as [rf|m];
    [|apply compileFailed_guar; by intros ? ? [=]].
  destruct Hload as (Hmint & Hcl & Hload). eapply guar_bind; [by apply mintFile_guar|]. intros seen3 [rf' v'] Hs3 [Hm Hv].
  specialize (Hload rf' v' Hm Hv). cbn [fst] in Hm. cbv zeta.
  assert (Hin3 : s ∈ seen3) by (eapply elem_of_suffix; [apply list_elem_of_here|exact Hs3]).
  destruct (reusable _ cached) as [rs|] eqn:Er; [|by eapply compileIP_guar].
  destruct cached as [c|]; [|done].
  assert (Ho : override_rules (sh_world s) client rf' rs).
  { eapply reusable_rules; [|by eapply ld_clean|exact Er]. eapply entry_from_evolves; [exact Hso0|apply Hmv|by apply Hc]. }
  apply now_guar. intros seen4 now Hs4. apply guar_write_client. intros seen5 s5 Hs5 Hl5.
  destruct (recall seen4 seen5 s5 s Hs5 Hl5) as (_ & _ & Hmv5 & Hin5); [by eapply elem_of_suffix|]. split.
  - eapply (loaded_entry (sh_world s)); [done|apply Hmv5|done|]. eapply override_rules_evolves; [exact Hso|apply Hmv5|done].
  - intros s' b. apply guar_done. apply (loaded_post _ s s _ v' rf rf'); try done; [..|apply evolves_refl]; apply elem_of_cons; by right.
Qed.

(** Writing an entry and answering from one, both true of the state a [Stat] was made in. *)
Lemma settle_guar seen s client (mk k : Z -> cachedRuleSet) :
  s ∈ seen -> documents (sh_world s) -> (forall now, entry_from (sh_world s) client (mk now)) ->
  (forall now, entry_from (sh_world s) client (k now) /\ stat (sh_world s) (keyFor client) = Ok (cr_version (k now), cr_exists (k now))) ->
  guard seen (now ← do_op Now; _ ← do_op (WriteClient client (mk now)); resolveClientCache_go ttl client (k now)) (rules_post client).
Proof.
  intros Hin Hdoc Hmk Hk. apply now_guar. intros seen2 now Hs2. apply guar_write_client. intros seen3 s3 Hs3 Hl3.
  destruct (recall seen2 seen3 s3 s Hs3 Hl3) as ((Hso & _) & _ & Hmv3 & Hin3); [by eapply elem_of_suffix|].
  split; [eapply entry_from_evolves; [exact Hso|apply Hmv3|apply Hmk]|]. intros s' b. destruct (Hk now) as (Hkn & Hst).
  by eapply (resolveClientCache_guar _ s); [apply elem_of_cons; right|..].
Qed.

Lemma confirmClient_guar seen s0 client cached :
  s0 ∈ seen -> (forall c, cached = Some c -> entry_from (sh_world s0) client c) ->
  guard seen (confirmClient_go ttl client cached) (rules_post client).
Proof.
  intros Hin Hc. unfold confirmClient_go. apply (guar_read _ _ (fun s => stat (sh_world s) (keyFor client))); [done|]. intros seen1 s Hs1 Hl.
  destruct (recall seen seen1 s s0 Hs1 Hl Hin) as ((Hso0 & _) & (Hso & Hdoc & _) & Hmv & Hin1).
  assert (Hcs : forall c, cached = Some c -> entry_from (sh_world s) client c)
    by (intros c E; eapply entry_from_evolves; [exact Hso0|apply Hmv|by apply Hc]).
  assert (Hs : s ∈ s :: s :: seen1) by apply list_elem_of_here.
  destruct (stat (sh_world s) (keyFor client)) as [[v ex]|m] eqn:Est; cycle 1.
  { destruct cached as [c|]; [|apply guar_done; by intros ? [=]]. destruct (Z.ltb_spec 0 ttl); [|apply guar_done; by intros ? [=]].
    eapply (resolveClientCache_guar _ s); [done|done|by apply Hcs|lia]. }
  destruct (client_hit cached v ex) as [c|] eqn:Eh; [|destruct ex; cbn [negb]].
  - unfold client_hit in Eh. destruct cached as [c'|]; [|done]. destruct (bool_decide _ && _) eqn:Eb; [|done]. simplify_eq.
    apply andb_true_iff in Eb as [<-%bool_decide_eq_true <-%Bool.eqb_prop]. specialize (Hcs c eq_refl).
    by apply (settle_guar _ s client (touched c) (fun _ => c)).
  - destruct (stat_true _ _ _ Est) as [data Hg]. by eapply (lookupIP_guar _ s).
  - assert (v = []) as -> by (unfold stat in Est; destruct (Stat _ _); by simplify_eq).
    by apply (settle_guar _ s client (absent []) (absent [])).
Qed.

Lemma Lookup_guar seen client : guard seen (Lookup_go ttl client) (rules_post client).
Proof.
  unfold Lookup_go. apply (guar_read _ _ (fun s => e_cache (sh_engine s) !! client)); [done|]. intros seen1 s Hs1 Hl.
  assert (Hi : inv s) by (eapply lived_inv; [exact Hl|apply list_elem_of_here]). destruct Hi as (Hso & Hdoc & _ & Hc & _).
  assert (Hs : s ∈ s :: s :: seen1) by apply list_elem_of_here.
  destruct (e_cache (sh_engine s) !! client) as [c|] eqn:Ec; [|by eapply (confirmClient_guar _ s)].
  specialize (Hc client c Ec). eapply guar_bind; [apply fresh_guar|]. intros seen2 [|] Hs2 Hf.
  - eapply (resolveClientCache_guar _ s); [by eapply elem_of_suffix|done|done|lia].
  - eapply (confirmClient_guar _ s); [by eapply elem_of_suffix|]. by intros ? [= <-].
Qed.
End EngineConc.

(** ** What holds *)

Section Pools.
Context `{RE : RegexEngine} `{DG : Digests} `{UT : UnicodeTable} `{US : UUIDSource}.
Context {W : Type} `{SS : StorageSpec W}.

(** The goroutine of a connection, as far as the engine sees it. *)
Definition lookup_for (ttl : Z) (client : Addr) : goprog engine_op (Addr * result RuleSet) := r ← Lookup_go ttl client; Done (client, r).

Definition is_lookup (ttl : Z) (p : goprog engine_op (Addr * result RuleSet)) : Prop := exists client, p = lookup_for ttl client.

Definition booted (ttl : Z) (w : W) (t : Z) (m : Metrics) : shared :=
  {| sh_engine := NewRuleEngine ttl; sh_world := w; sh_clock := t; sh_metrics := m |}.

(** Runs of an engine that starts with empty caches on the store [w]: lookups come and go, and the store
    changes under them. *)
Definition engine_runs (strict : Prop) (kept : W -> bytes -> Prop) (ttl : Z) (w : W) (t : Z) (m : Metrics)
    (c : list (goroutine (Addr * result RuleSet)) * shared) : Prop :=
  sound w /\ documents strict w /\ rtc (pool_step (sem strict) (world strict kept) (is_lookup ttl)) ([], booted ttl w t m) c.

Lemma engine_runs_post strict ret kept ttl w t m gs s g client r :
  labelling strict ret kept -> no_collisions -> engine_runs strict kept ttl w t m (gs, s) -> g ∈ gs -> g_prog g = Done (client, r) ->
  rules_post ttl strict client (g_seen g) r.
Proof.
  intros Hlb Hnc (Hs & Hdoc & Hr) Hin Hd.
  refine (pool_returns (sem strict) (world strict kept) (inv ttl strict ret) (moves strict kept) _ _ (is_lookup ttl)
            (fun seen x => rules_post ttl strict x.1 seen x.2) _ _ (booted ttl w t m) gs s g (client, r) _ Hr Hin Hd).
  - apply moves_refl.
  - apply moves_trans.
  - intros s0 s1. by apply world_ok.
  - intros p s0 [c ->] _. eapply guar_bind; [by apply (Lookup_guar ttl strict ret kept)|]. intros seen r' _ HQ. exact HQ.
  - split_and!; [done|done|done| |done]. intros k c. cbn. by rewrite lookup_empty.
Qed.

Lemma loose_labelling : labelling False (fun _ _ _ => True) (fun _ _ => True).
Proof. split; try done. by right. Qed.

Lemma strict_labelling `{VR : !VersionsRetire W} : labelling True retired holds_key.
Proof. split; eauto using retired_gone, retired_evolves, retired_changed, holds_get, holds_present. Qed.
End Pools.
