(* ===== verification/EngineBounds.v ===== *)
(** * What a lookup costs (internal/rules/engine.go)

    Bounds on the operations a lookup performs, whatever the other goroutines and the store do in
    the meantime: the calls it makes to the storage backend, and all of them, the minting loop
    included. *)

From S2P Require Import Prelude GoStrings Netip Json JsonRoundtrip Encoding Schema JsonRules Matcher.
From S2P Require Import Compile HostIndex Egress Auth RuleSet MaskedKey DefaultRuleset DefaultTable Storage Engine EngineCorrect Instruments Conc EngineGo EngineConc.

Open Scope nat_scope.

Section Bounds.
Context `{RE : RegexEngine} `{DG : Digests} `{UT : UnicodeTable} `{US : UUIDSource}.

(** A backend call is a network round trip with the S3 backend. *)
Definition backend_calls (X : Type) (o : engine_op X) : nat :=
  match o with StatKey _ | GetKey _ | PutKey _ _ => 1 | _ => 0 end.

(** A blob of the default table with at most [n] entries. *)
Definition entries_at_most (n : nat) (g : sres (bytes * Version)) : Prop :=
  forall data v es, g = SOk (data, v) -> parseDefaultRuleset data = Ok es -> length es <= n.

Definition table_of (n : nat) (X : Type) (o : engine_op X) : X -> Prop :=
  match o in engine_op X return X -> Prop with
  | GetKey key => fun x => key = defaultKey -> entries_at_most n x
  | _ => fun _ => True
  end.

Definition anything (X : Type) (o : engine_op X) (x : X) : Prop := True.

(** ** One proof for both *)

(** [mint] is the cost of minting the table's identities. *)
Section Cost.
Variables (ttl : Z) (cost : forall X, engine_op X -> nat) (likely : forall X, engine_op X -> X -> Prop) (call other mint : nat).
Hypothesis cost_stat : forall k, cost _ (StatKey k) = call.
Hypothesis cost_get : forall k, cost _ (GetKey k) = call.
Hypothesis cost_put : forall k d, cost _ (PutKey k d) = call.
Hypothesis cost_read : forall c, cost _ (ReadClient c) = other.
Hypothesis cost_write : forall c e, cost _ (WriteClient c e) = other.
Hypothesis cost_read_default : cost _ ReadDefault = other.
Hypothesis cost_write_default : forall e, cost _ (WriteDefault e) = other.
Hypothesis cost_now : cost _ Now = other.
Hypothesis cost_uuid : cost _ NewString = other.
Hypothesis cost_measured : forall f, cost _ (Measured f) = other.
Hypothesis mint_cost : forall data v es, likely _ (GetKey defaultKey) (SOk (data, v)) -> parseDefaultRuleset data = Ok es -> length es * other <= mint.

Abbreviation costs := (within cost likely).

Ltac count :=
  rewrite ?cost_stat, ?cost_get, ?cost_put, ?cost_read, ?cost_write, ?cost_read_default, ?cost_write_default, ?cost_now, ?cost_uuid, ?cost_measured;
  try lia.
Ltac op x Hx := apply within_do; [count|intros x Hx; count].
Ltac free := exact I.
(** The rest of a program costs what a lemma says, and there is enough left. *)
Ltac rest H := eapply within_le; [apply H|lia].

Lemma fresh_cost t : costs other (fresh_go ttl t).
Proof. unfold fresh_go. destruct (0 <? ttl)%Z; [op now Hn; free|free]. Qed.

Lemma compiled_in_cost r t : costs (2 * other) (compiled_in r t).
Proof. unfold compiled_in. op now Hn. apply within_last. count. Qed.

Lemma compileFailed_cost {A} t m : costs (2 * other) (compileFailed (A := A) t m).
Proof. unfold compileFailed. eapply within_le; [eapply (within_then _ _ _ 0); [apply compiled_in_cost|done]|lia]. Qed.

Lemma persist_cost k d v x : costs (2 * call) (persist_go k d v x).
Proof. unfold persist_go. op r Hr. destruct r; [op st Hst; free|free..]. Qed.

Lemma mintEntries_cost es : costs (length es * other) (mintEntries_go es).
Proof.
  induction es as [|pe es IH]; cbn [mintEntries_go length]; [free|]. case_bool_decide; cycle 1.
  - eapply within_le; [eapply (within_then _ _ _ 0); [exact IH|intros []; free]|lia].
  - op u Hu. eapply within_le; [eapply (within_then _ _ _ 0); [exact IH|intros []; free]|lia].
Qed.

Lemma reloadDefault_cost cached v x : costs (3 * call + 5 * other + mint) (reloadDefault_go cached v x).
Proof.
  unfold reloadDefault_go. op start Hst. op g Hg.
  destruct g as [[raw v0]| |m]; [|destruct parse_empty as [m ->]; rest @compileFailed_cost|rest @compileFailed_cost].
  destruct (parseDefaultRuleset raw) as [es|m] eqn:Ep; [|rest @compileFailed_cost]. pose proof (mint_cost _ _ _ Hg Ep).
  eapply within_le; [eapply (within_then _ _ _ (2 * call + 4 * other)); [apply mintEntries_cost|]|lia]. intros [es' minted].
  eapply within_le; [eapply (within_then _ _ (2 * call) (4 * other))|lia].
  { destruct minted; [apply persist_cost|free]. }
  intros [v' x']. destruct (compileParsedEntries _ _); [|rest @compileFailed_cost]. op now Hn. op b Hb.
  eapply within_le; [eapply (within_then _ _ _ 0); [apply compiled_in_cost|done]|lia].
Qed.

Lemma lookupDefaultTable_cost : costs (4 * call + 7 * other + mint) (lookupDefaultTable_go ttl).
Proof.
  assert (Hc : forall cached, costs (4 * call + 5 * other + mint) (confirmDefault_go ttl cached)).
  { intros cached. unfold confirmDefault_go. op st Hst. destruct st as [[v x]|m]; [|free].
    destruct (default_hit cached v x) as [c|]; [op now Hn; op b Hb; free|].
    destruct x; cbn [negb]; [rest reloadDefault_cost|op now Hn; op b Hb; free]. }
  unfold lookupDefaultTable_go. op cached Hcached. destruct cached as [c|]; [|rest Hc].
  eapply within_le; [eapply within_then; [apply fresh_cost|]|]. intros [|]; [free|apply Hc]. lia.
Qed.

Lemma resolveClientCache_cost client c : costs (4 * call + 7 * other + mint) (resolveClientCache_go ttl client c).
Proof.
  unfold resolveClientCache_go. destruct (cr_exists c); [free|].
  eapply within_le; [eapply (within_then _ _ _ 0); [apply lookupDefaultTable_cost|done]|lia].
Qed.

Lemma resolveEgress_cost client rf : costs (4 * call + 7 * other + mint) (resolveEgress_go ttl client rf).
Proof.
  unfold resolveEgress_go. destruct (rf_Egress rf); [free|].
  eapply within_le; [eapply (within_then _ _ _ 0); [apply lookupDefaultTable_cost|done]|lia].
Qed.

Lemma mintFile_cost client rf v : costs (2 * call + other) (mintFile_go client rf v).
Proof.
  unfold mintFile_go. case_bool_decide; [|free]. op u Hu.
  eapply within_le; [eapply (within_then _ _ _ 0); [apply persist_cost|intros []; free]|lia].
Qed.

Lemma compileIP_cost client t rf v h : costs (4 * call + 12 * other + mint) (compileIP_go ttl client t rf v h).
Proof.
  unfold compileIP_go. destruct (CompileAuth _); [|rest @compileFailed_cost]. destruct (Compile rf); [|rest @compileFailed_cost].
  eapply within_le; [eapply (within_then _ _ _ (5 * other)); [apply resolveEgress_cost|]|lia]. intros [eg|m]; [|rest @compileFailed_cost].
  op now Hn. op b Hb. eapply within_le; [eapply (within_then _ _ _ other); [apply compiled_in_cost|]|lia]. intros _.
  destruct b; [free|]. op u Hu. free.
Qed.

Lemma lookupIP_cost client v prev : costs (7 * call + 14 * other + mint) (lookupIP_go ttl client v prev).
Proof.
  unfold lookupIP_go. op start Hst. op g Hg. destruct (match g with SOk _ => _ | _ => _ end) as [rf|m]; [|rest @compileFailed_cost].
  eapply within_le; [eapply (within_then _ _ _ (4 * call + 12 * other + mint)); [apply mintFile_cost|]|lia]. intros [rf' v'].
  destruct (reusable _ prev); [op now Hn; op b Hb; free|apply compileIP_cost].
Qed.

Lemma Lookup_cost client : costs (8 * call + 16 * other + mint) (Lookup_go ttl client).
Proof.
  assert (Hc : forall cached, costs (8 * call + 14 * other + mint) (confirmClient_go ttl client cached)).
  { intros cached. unfold confirmClient_go. op st Hst. destruct st as [[v x]|m].
    - destruct (client_hit cached v x) as [c|]; [op now Hn; op b Hb; rest resolveClientCache_cost|].
      destruct x; cbn [negb]; [rest lookupIP_cost|op now Hn; op b Hb; rest resolveClientCache_cost].
    - destruct cached as [c|]; [|free]. destruct (0 <? ttl)%Z; [rest resolveClientCache_cost|free]. }
  unfold Lookup_go. op cached Hcached. destruct cached as [c|]; [|rest Hc].
  eapply within_le; [eapply (within_then _ _ _ (8 * call + 14 * other + mint)); [apply fresh_cost|]|lia].
  intros [|]; [rest resolveClientCache_cost|apply Hc].
Qed.
End Cost.

(** ** The bounds *)

(** C12: A lookup makes at most eight calls of the storage backend, whatever is in the caches, whatever the
    backend answers and however other lookups and writers interleave. *)
Theorem lookup_backend_calls ttl client : within backend_calls anything 8 (Lookup_go ttl client).
Proof. eapply within_le; [apply (Lookup_cost ttl backend_calls anything 1 0 0); by intros; try lia|lia]. Qed.

Context {W : Type} `{SS : StorageSpec W}.

Definition small_table (n : nat) (s : shared (W := W)) : Prop := entries_at_most n (Get (sh_world s) defaultKey).

(** C11: A lookup returns: in every schedule of lookups and changes of the store in which the default table
    never has more than [n] entries, no lookup gets to perform more than [24 + n] operations, and one that has
    performed so many has returned. *)
Theorem lookup_returns n ttl ts s0 gs s i g :
  schedule perform_op always ts ([], s0) = Some (gs, s) -> Forall (small_table n) (s0 :: visited perform_op always ts ([], s0)) ->
  (forall p, Start p ∈ ts -> exists client, p = lookup_for ttl client) -> gs !! i = Some g ->
  turns i ts <= 24 + n /\ (turns i ts = 24 + n -> exists a, g_prog g = Done a).
Proof.
  intros Hs [Hg Hv]%Forall_cons Hst Hi. eapply (schedule_returns perform_op always (small_table n) (table_of n)); [|done..| |done].
  - intros X o s' Hg'. destruct o; try done. intros ->. exact Hg'.
  - intros p [client ->]%Hst. unfold lookup_for. eapply within_le; [eapply (within_then _ _ _ 0); [|done]|].
    + apply (Lookup_cost ttl (fun _ _ => 1) (table_of n) 1 1 n); try done. intros data v es Hl Hp. rewrite Nat.mul_1_r. by eapply Hl.
    + lia.
Qed.
End Bounds.
