(* ===== verification/EngineRaces.v ===== *)
(** * Lookups racing with each other and with the store (internal/rules/engine.go)

    What every interleaving of lookups and changes of the store gives, the schedules that show the
    theorems at work on a file system, and the races in which a lookup goes wrong. *)

From S2P Require Import Prelude GoStrings Netip Json JsonRoundtrip Encoding Schema JsonRules Matcher.
From S2P Require Import Compile HostIndex Egress Auth RuleSet MaskedKey DefaultRuleset DefaultTable Builtin Storage StorageS3 Engine EngineCorrect EngineSamples.
From S2P Require Import Instruments Conc EngineGo EngineConc EngineBounds.

Open Scope Z_scope.

(** ** Whatever the interleaving *)

Section Races.
Context `{RE : RegexEngine} `{DG : Digests} `{UT : UnicodeTable} `{US : UUIDSource}.
Context {W : Type} `{SS : StorageSpec W}.


End Races.

(** ** Schedules on a file system *)

Section Schedules.
#[local] Existing Instance no_regex.
#[local] Existing Instance toy_digests.
#[local] Existing Instance ascii_table.
#[local] Existing Instance counter_uuids.

Abbreviation client_turn := (turn engine_op (shared (W := fs)) (Addr * result RuleSet)).
Abbreviation client_go := (goroutine (op := engine_op) (S := shared (W := fs)) (Addr * result RuleSet)).

(** Whether the documents of a store print, and, if [named], carry identities. *)
Definition file_okb (named : bool) (data : bytes) : bool :=
  match Unmarshal_RuleFile data with
  | Ok rf => any_okb (encode_file rf) && (negb named || negb (bool_decide (rf_UUID rf = [])))
  | Error _ => true
  end.
Definition table_okb (named : bool) (data : bytes) : bool :=
  match parseDefaultRuleset data with
  | Ok es => forallb (fun pe => any_okb (encode_file (pe_rule pe)) && (negb named || negb (bool_decide (rf_UUID (pe_rule pe) = [])))) es
  | Error _ => true
  end.
Definition docs_okb (named : bool) (w : fs) : bool :=
  forallb (fun kf => if bool_decide (kf.1 = defaultKey) then table_okb named (f_data kf.2) else file_okb named (f_data kf.2)) (map_to_list (fs_files w)).

Lemma docs_get named w k data v :
  docs_okb named w = true -> posix_Get w k = SOk (data, v) -> (if bool_decide (k = defaultKey) then table_okb named data else file_okb named data) = true.
Proof.
  unfold docs_okb, posix_Get. rewrite forallb_forall. intros H. destruct (fs_up w); [|done]. destruct (fs_files w !! k) as [f|] eqn:E; [|done].
  intros [= <- _]. apply (H (k, f)). by apply list_elem_of_In, elem_of_map_to_list.
Qed.

Lemma named_ne named (rf : RuleFile) : negb named || negb (bool_decide (rf_UUID rf = [])) = true -> Is_true named -> rf_UUID rf <> [].
Proof. destruct named; [|done]. cbn. intros H _. by apply negb_true_iff, bool_decide_eq_false in H. Qed.

Lemma docs_okb_ok named w : docs_okb named w = true -> documents (Is_true named) w.
Proof.
  intros H.
  assert (Hf : forall client data v rf, posix_Get w (keyFor client) = SOk (data, v) -> Unmarshal_RuleFile data = Ok rf ->
                 any_ok (encode_file rf) /\ (Is_true named -> rf_UUID rf <> [])).
  { intros client data v rf Hg Hu. pose proof (docs_get _ _ _ _ _ H Hg) as Hd. rewrite bool_decide_eq_false_2 in Hd by apply keyFor_ne.
    unfold file_okb in Hd. rewrite Hu in Hd. apply andb_true_iff in Hd as [H1 H2]. split; [by apply any_okb_ok|by apply named_ne]. }
  assert (Ht : forall data v es, posix_Get w defaultKey = SOk (data, v) -> parseDefaultRuleset data = Ok es ->
                 Forall (fun pe => any_ok (encode_file (pe_rule pe)) /\ (Is_true named -> rf_UUID (pe_rule pe) <> [])) es).
  { intros data v es Hg Hp. pose proof (docs_get _ _ _ _ _ H Hg) as Hd. rewrite bool_decide_eq_true_2 in Hd by done.
    unfold table_okb in Hd. rewrite Hp in Hd. rewrite forallb_forall in Hd. apply Forall_forall. intros pe Hpe.
    apply list_elem_of_In, Hd, andb_true_iff in Hpe as [H1 H2]. split; [by apply any_okb_ok|by apply named_ne]. }
  split; [split|].
  - intros client data v Hg rf Hu. by eapply Hf.
  - intros data v Hg es Hp. eapply Forall_impl; [by eapply Ht|]. by intros pe [].
  - intros Hn. split; [intros client data v Hg rf Hu; by eapply Hf|]. intros data v Hg es Hp. eapply Forall_impl; [by eapply Ht|]. intros pe [_ Hpe]. by apply Hpe.
Qed.

(** What an operator does to the store. *)
Definition change (f : fs -> fs) (s : shared (W := fs)) : shared :=
  {| sh_engine := sh_engine s; sh_world := f (sh_world s); sh_clock := sh_clock s; sh_metrics := sh_metrics s |}.
Definition put (k d : bytes) : client_turn := Meanwhile (change (fun w => (Put w k d).2)).
Definition remove (k : bytes) : client_turn := Meanwhile (change (fun w => (Delete w k).2)).

Definition allowed (named : bool) (ttl : Z) (t : client_turn) : Prop :=
  match t with
  | Start p => is_lookup ttl p
  | Turn _ => True
  | Meanwhile f => (exists k d, f = change (fun w => (Put w k d).2)) \/ (named = false /\ exists k, f = change (fun w => (Delete w k).2))
  end.

Lemma put_keeps w k d k' : is_Some (fs_files w !! k') -> is_Some (fs_files (posix_Put w k d).2 !! k').
Proof.
  intros Hk. unfold posix_Put. destruct (fs_up w); [|done]. destruct (fs_files w !! tmp_name k) eqn:E; [done|]. cbn [snd].
  destruct (posix_put_files w k d) as [-> _]. destruct (decide (k = k')) as [->|Hne]; [rewrite lookup_insert_eq; eauto|].
  rewrite lookup_insert_ne by done. rewrite lookup_delete_ne; [done|]. intros <-. rewrite E in Hk. by destruct Hk.
Qed.

Definition kept_by (named : bool) : fs -> bytes -> Prop := if named then holds_key else fun _ _ => True.

Lemma schedule_engine_runs named ttl ts w t m c :
  schedule perform_op always ts ([], booted ttl w t m) = Some c -> Forall (allowed named ttl) ts -> fs_wf w ->
  forallb (fun s => docs_okb named (sh_world s)) (booted ttl w t m :: visited perform_op always ts ([], booted ttl w t m)) = true ->
  engine_runs (Is_true named) (kept_by named) ttl w t m c.
Proof.
  intros Hs Ha Hwf Hv. rewrite forallb_forall in Hv. split; [done|]. split; [apply docs_okb_ok, (Hv (booted ttl w t m)); by left|].
  eapply (schedule_run perform_op always _ _ _ (fun s => docs_okb named (sh_world s) = true)); [|exact Hs| |apply (Hv (booted ttl w t m)); by left|].
  - intros X o s _ Hd. split; [by destruct (perform_op X o s)|by apply docs_okb_ok].
  - eapply Forall_impl; [exact Ha|]. intros [p|i|f]; [done|done|]. intros Hf s _ Hd. split_and!.
    1-2: by destruct Hf as [(k & d & ->)|(_ & k & ->)].
    + by apply docs_okb_ok.
    + destruct Hf as [(k & d & ->)|(-> & k & ->)]; (split; [|intros Hn k' Hk]).
      * eapply put_evolves. cbn. apply surjective_pairing.
      * destruct named; [|done]. by apply put_keeps.
      * eapply delete_evolves. cbn. apply surjective_pairing.
      * done.
  - apply Forall_forall. intros s Hin. apply Hv. right. by apply list_elem_of_In.
Qed.

(** *** A race *)

Definition key : bytes := keyFor sample_client.
Definition turns_for (i n : nat) : list client_turn := replicate n (Turn i).
Definition start : client_turn := Start (lookup_for 0 sample_client).

Definition allow_all : bytes := json "{'uuid':'u1','http':[],'egress':[{'cidr':'0.0.0.0/0','action':'allow'}]}".
Definition deny_all : bytes := json "{'uuid':'u2','http':[],'egress':[{'cidr':'0.0.0.0/0','action':'deny'}]}".

(** Two lookups of one client: the first has read the version of the override when it is replaced,
    the second starts then; the first files the new rules under the old version, and the second
    corrects it. *)
Definition replaced : list client_turn :=
  [start] ++ turns_for 0 2 ++ [put key deny_all; start] ++ turns_for 1 2 ++ turns_for 0 4 ++ turns_for 1 6 ++ turns_for 0 3.

Definition open_disk : fs := disk open_default (Some allow_all).
Definition replaced_run := schedule perform_op always replaced ([], booted 0 open_disk 10 None).

Definition goroutine_of (c : option (list client_go * shared (W := fs))) (i : nat) :=
  match c with
  | Some (gs, _) => match gs !! i with Some g => g | None => spawn (booted 0 open_disk 0 None) (Done (sample_client, Error "")) end
  | None => spawn (booted 0 open_disk 0 None) (Done (sample_client, Error ""))
  end.
Definition state_of (c : option (list client_go * shared (W := fs))) : shared (W := fs) :=
  match c with Some (_, s) => s | None => booted 0 open_disk 0 None end.

Definition answer_of (g : client_go) : option (Addr * result RuleSet) :=
  match g_prog g with Done a => Some a | Do _ _ => None end.
Definition rules_of (g : client_go) : RuleSet :=
  match answer_of g with Some (_, r) => the emptyRuleSet r | None => emptyRuleSet end.

Definition has_returned (g : client_go) : bool :=
  match answer_of g with Some (c, Ok _) => bool_decide (c = sample_client) | _ => false end.

Lemma has_returned_prog g : has_returned g = true -> g_prog g = Done (sample_client, Ok (rules_of g)).
Proof.
  unfold has_returned, rules_of, answer_of. destruct (g_prog g) as [[c [rs|m]]|]; [|done..]. intros ->%bool_decide_eq_true. done.
Qed.

Lemma goroutine_in c i gs s : c = Some (gs, s) -> (i < length gs)%nat -> goroutine_of c i ∈ gs.
Proof. intros -> Hi. unfold goroutine_of. destruct (lookup_lt_is_Some_2 gs i Hi) as [g Hg]. rewrite Hg. by eapply list_elem_of_lookup_2. Qed.

Lemma run_some ts s0 n :
  match schedule perform_op always ts ([], s0) with Some (gs, _) => (length gs =? n)%nat | None => false end = true ->
  exists gs, schedule perform_op always ts ([], s0) = Some (gs, state_of (schedule (A := Addr * result RuleSet) perform_op always ts ([], s0))) /\ length gs = n.
Proof. destruct (schedule perform_op always ts ([], s0)) as [[gs s]|] eqn:E; [|done]. intros H%Nat.eqb_eq. exists gs. done. Qed.

Ltac schedule_allowed :=
  repeat (apply Forall_cons_2 || apply Forall_nil_2); first [exact I|by eexists|left; by eexists _, _|right; split; [reflexivity|by eexists]].

Lemma replaced_allowed : Forall (allowed true 0) replaced.
Proof. unfold replaced. cbn [app turns_for replicate]. schedule_allowed. Qed.


Definition small_tableb (n : nat) (s : shared (W := fs)) : bool :=
  match Get (sh_world s) defaultKey with
  | SOk (data, _) => match parseDefaultRuleset data with Ok es => (length es <=? n)%nat | Error _ => true end
  | _ => true
  end.

Lemma small_tableb_ok n s : small_tableb n s = true -> small_table n s.
Proof. unfold small_tableb, small_table. intros H data v es E Hp. rewrite E, Hp in H. by apply Nat.leb_le. Qed.

Lemma lookup_returns_witness :
  turns 0 replaced = 9%nat /\ ((turns 0 replaced <= 24 + 2)%nat /\ (turns 0 replaced = 24 + 2 -> exists a, g_prog (goroutine_of replaced_run 0) = Done a)%nat).
Proof.
  split; [reflexivity|].
  destruct (run_some replaced (booted 0 open_disk 10 None) 2) as (gs & Hr & Hl); [vm_compute; reflexivity|].
  apply (lookup_returns 2 0 replaced (booted 0 open_disk 10 None) gs (state_of replaced_run) 0 (goroutine_of replaced_run 0)).
  - exact Hr.
  - assert (H : forallb (small_tableb 2) (booted 0 open_disk 10 None :: visited perform_op always replaced ([], booted 0 open_disk 10 None)) = true)
      by (vm_compute; reflexivity).
    rewrite forallb_forall in H. apply Forall_forall. intros s Hs. by apply small_tableb_ok, H, list_elem_of_In.
  - intros p Hp. pose proof replaced_allowed as Ha. rewrite Forall_forall in Ha. exact (Ha _ Hp).
  - unfold goroutine_of, replaced_run. rewrite Hr. destruct (lookup_lt_is_Some_2 gs 0) as [g ->]; [lia|done].
Defined.

(** ** What goes wrong *)

(** The rules of the next lookup, of the one after it, and of an engine started afresh. *)
Definition next (s : shared (W := fs)) : result RuleSet * shared (W := fs) := alone perform_op (Lookup_go 0 sample_client) s.
Definition restarted (s : shared (W := fs)) : result RuleSet := (next (booted 0 (sh_world s) 20 None)).1.

(** An override without an identity is looked up; between the write of the minted identity and the [Stat]
    that follows it, it is replaced.  The rules of the replaced document get the version of the new one, and
    the engine serves them for as long as the new one stays: it allows what the stored document denies. *)
Definition mint_race : list client_turn :=
  [start] ++ turns_for 0 6 ++ [put key deny_all] ++ turns_for 0 6.

Definition nameless : bytes := json "{'http':[],'egress':[{'cidr':'0.0.0.0/0','action':'allow'}]}".
Definition mint_run := schedule perform_op always mint_race ([], booted 0 (disk open_default (Some nameless)) 10 None).

Theorem mint_race_stale :
  let s := state_of mint_run in
  answer_of (goroutine_of mint_run 0) <> None /\ Load (sh_world s) sample_client = Unmarshal_RuleFile deny_all
  /\ verdict (next s).1 = Some true /\ verdict (next (next s).2).1 = Some true /\ verdict (restarted s) = Some false.
Proof. vm_compute. repeat split. discriminate. Qed.

(** The same replacement a moment earlier is lost: the mint writes the old document back over it. *)
Definition lost_race : list client_turn :=
  [start] ++ turns_for 0 5 ++ [put key deny_all] ++ turns_for 0 7.
Definition lost_run := schedule perform_op always lost_race ([], booted 0 (disk open_default (Some nameless)) 10 None).

Theorem mint_loses_update :
  let s := state_of lost_run in
  answer_of (goroutine_of lost_run 0) <> None
  /\ Load (sh_world s) sample_client = (rf ← Unmarshal_RuleFile nameless; Ok (with_uuid rf (str "id-0")))
  /\ verdict (next s).1 = Some true /\ verdict (restarted s) = Some true.
Proof. vm_compute. repeat split. discriminate. Qed.

(** The override is deleted between the [Stat] and the [Load] of a lookup: the lookup mints an identity for
    the empty document and stores it.  The client, who by the default table must authenticate to the proxy,
    now has an override that asks for nothing. *)
Definition delete_race : list client_turn :=
  [start] ++ turns_for 0 3 ++ [remove key] ++ turns_for 0 17.
Definition authed_default : bytes :=
  json "{'0.0.0.0/0':{'uuid':'a','http':[],'auth':{'http_proxy':{'broker':{'socket':'/run/b'}}},'egress':[{'cidr':'0.0.0.0/0','action':'allow'}]},'::/0':{'uuid':'b','http':[]}}".
Definition delete_run := schedule perform_op always delete_race ([], booted 0 (disk authed_default (Some deny_all)) 10 None).
Definition asks_for_auth (r : result RuleSet) : bool :=
  match r with Ok rs => match rs_auth rs with Some _ => true | None => false end | Error _ => false end.

Theorem delete_race_resurrects :
  let s := state_of delete_run in
  answer_of (goroutine_of delete_run 0) <> None
  /\ Load (sh_world s) sample_client = Ok (with_uuid zero_file (str "id-0"))
  /\ asks_for_auth (next s).1 = false /\ asks_for_auth (restarted s) = false
  /\ asks_for_auth (restarted (change (fun w => (Delete w key).2) s)) = true.
Proof. vm_compute. repeat split. discriminate. Qed.

(** The default table is deleted between the write of the identities minted for it and the [Stat] that
    follows: an entry that says the table does not exist holds its rules, and every lookup that finds no
    table is answered from it. *)
Definition nameless_default : bytes := json "{'0.0.0.0/0':{'http':[],'egress':[{'cidr':'0.0.0.0/0','action':'allow'}]},'::/0':{'uuid':'b','http':[]}}".
Definition table_race : list client_turn :=
  [start] ++ turns_for 0 10 ++ [remove defaultKey] ++ turns_for 0 5.
Definition table_run := schedule perform_op always table_race ([], booted 0 (disk nameless_default None) 10 None).

Theorem deleted_table_served :
  let s := state_of table_run in
  answer_of (goroutine_of table_run 0) <> None /\ Get (sh_world s) defaultKey = SNotExist
  /\ verdict (next s).1 = Some true /\ verdict (next (next s).2).1 = Some true /\ verdict (restarted s) = Some false.
Proof. vm_compute. repeat split. discriminate. Qed.

(** The gauge of clients with compiled rules in memory: a client first seen without an override is not
    counted when it gets one, and one whose override is deleted stays counted. *)
Definition gauge (m : Metrics) : Z :=
  foldr (fun x n => match x with Add i d _ => if decide (i = rulesActiveClients) then d + n else n | Observe _ _ _ => n end) 0 (default [] m).
Definition compiled_clients (s : shared (W := fs)) : nat :=
  length (filter (fun kc => cr_exists kc.2 = true) (map_to_list (e_cache (sh_engine s)))).

Theorem active_clients_miscounted :
  let s0 := booted 0 (disk open_default None) 10 (Some []) in
  let late := (next (change (fun w => (Put w key allow_all).2) (next s0).2)).2 in
  let s1 := (next (booted 0 open_disk 10 (Some []))).2 in
  let gone := (next (change (fun w => (Delete w key).2) s1)).2 in
  compiled_clients late = 1%nat /\ gauge (sh_metrics late) = 0 /\ gauge (sh_metrics s1) = 1
  /\ compiled_clients gone = 0%nat /\ gauge (sh_metrics gone) = 1.
Proof. vm_compute. repeat split. Qed.

(** ** Versions that come back *)

(** With entity tags for versions, as the S3 backend has them, an override that is replaced and put back
    between the [Stat] and the end of a lookup leaves rules of the replacement under the version of the
    original. *)
Definition s3_op := perform_op (ST := s3_storage (str "b")).
Definition s3_put (d : bytes) : turn engine_op (shared (W := store_world)) (Addr * result RuleSet) :=
  Meanwhile (fun s => {| sh_engine := sh_engine s; sh_world := (s3_Put (str "b") (sh_world s) key d).2; sh_clock := sh_clock s; sh_metrics := sh_metrics s |}).
Definition back_and_forth : list (turn engine_op (shared (W := store_world)) (Addr * result RuleSet)) :=
  [Start (lookup_for 0 sample_client); Turn 0; Turn 0; Turn 0; s3_put allow_all; Turn 0; s3_put deny_all] ++ replicate 5 (Turn 0).
Definition tagged_store : store_world :=
  {| sw_objects := {[ str "b" := {[ key := deny_all ]} ]}; sw_up := true; sw_lists := true |}.

Theorem returning_version_stale :
  match schedule s3_op always back_and_forth ([], booted 0 tagged_store 10 None) with
  | Some (_, s) =>
      let again := alone s3_op (Lookup_go 0 sample_client) in
      s3_Get (str "b") (sh_world s) key = SOk (deny_all, deny_all)
      /\ verdict (again s).1 = Some true /\ verdict (again (again s).2).1 = Some true
      /\ verdict (again (booted 0 (sh_world s) 10 None)).1 = Some false
  | None => False
  end.
Proof. vm_compute. repeat split. Qed.

(** *** The provenance theorem on the race that loses the identity of the rules *)

Lemma mint_allowed : Forall (allowed false 0) mint_race.
Proof. unfold mint_race. cbn [app turns_for replicate]. schedule_allowed. Qed.

End Schedules.
