(* ===== verification/AccessLog.v ===== *)
(** * The access log (reqTrace, startReq, logAccess, logAccessErr, writeCAPEM of internal/proxy/http1.go)

    What the record, the metric and the span of a request hold, and that the handlers
    write exactly one of each per request, with an outcome that fits what was done. *)

From S2P Require Import Prelude GoStrings Netip Json Encoding Schema JsonRoundtrip JsonRules Matcher Compile HostIndex Egress Auth RuleSet DefaultRuleset Builtin.
From S2P Require Import Headers HttpError Actions CacheControl Outcall Authority ClientIP Effects Proxy Http1 ProxySafety ProxySamples Acceptors Instruments.

Open Scope Z_scope.

(** ** Records *)

(** A span: the attributes set on it in order, the errors recorded, whether it has ended. *)
Record span : Type := { sn_attrs : list (bytes * bytes); sn_errors : list bytes; sn_ended : bool }.

Definition SetAttribute (s : span) (k : string) (v : bytes) : span :=
  {| sn_attrs := sn_attrs s ++ [(str k, v)]; sn_errors := sn_errors s; sn_ended := sn_ended s |}.

(** [reqTrace]; the span is nil without a tracer. *)
Record reqTrace : Type := { rt_start : Z; rt_span : option span; rt_proto : bytes; rt_dst : bytes; rt_principal : bytes }.

Definition withDst (rt : reqTrace) (dst : bytes) : reqTrace :=
  {| rt_start := rt_start rt; rt_span := (fun s => SetAttribute s "dst" dst) <$> rt_span rt; rt_proto := rt_proto rt;
     rt_dst := dst; rt_principal := rt_principal rt |}.

Definition withPrincipal (rt : reqTrace) (principal : bytes) : reqTrace :=
  {| rt_start := rt_start rt; rt_span := (fun s => SetAttribute s "principal" principal) <$> rt_span rt; rt_proto := rt_proto rt;
     rt_dst := rt_dst rt; rt_principal := principal |}.

(** An attribute that is left out when it is empty. *)
Definition unless_empty (k : string) (v : bytes) : list (bytes * bytes) := if bool_decide (v = []) then [] else [(str k, v)].

Definition startReq (tracer : bool) (now : Z) (proto method url : bytes) : reqTrace :=
  {| rt_start := now;
     rt_span := if tracer
                then Some {| sn_attrs := (str "proto", proto) :: (unless_empty "method" method ++ unless_empty "url" url)%list;
                             sn_errors := []; sn_ended := false |}
                else None;
     rt_proto := proto; rt_dst := []; rt_principal := [] |}.

(** The logger, and whether access is logged. *)
Record access_sink : Type := { as_Logger : bool; as_NoAccessLog : bool }.

Inductive access_value : Type := AText (b : bytes) | AInt (n : Z) | ADuration (d : Z).

Definition a_text (k : string) (v : bytes) : bytes * access_value := (str k, AText v).

(** The end of a request's span. *)
Definition end_span (outcome : bytes) (status : Z) (err : option bytes) (s : span) : span :=
  let s := SetAttribute s "outcome" outcome in
  let s := if status =? 0 then s else SetAttribute s "status" (Itoa status) in
  {| sn_attrs := sn_attrs s; sn_errors := (sn_errors s ++ match err with Some e => [e] | None => [] end)%list; sn_ended := true |}.

(** [logAccessErr]: the record, if one is written, the measurements and the span. *)
Definition logAccessErr (sink : access_sink) (s : accepted) (method url outcome : bytes) (status : Z) (rt : reqTrace) (now : Z) (err : option bytes) (m : Metrics)
  : option (list (bytes * access_value)) * Metrics * option span :=
  let elapsed := now - rt_start rt in
  let '(verdict, mitm) := classifyOutcome outcome in
  let attrs :=
    ([a_text "client" (AddrString (ClientKey (ac_Session s))); a_text "acceptor" (ac_Acceptor s); a_text "method" method; a_text "url" url;
      a_text "outcome" outcome; a_text "verdict" verdict; a_text "mitm" mitm; (str "elapsed", ADuration elapsed)]
     ++ (if bool_decide (rt_dst rt = []) then [] else [a_text "dst" (rt_dst rt)])
     ++ (if bool_decide (rt_principal rt = []) then [] else [a_text "principal" (rt_principal rt)])
     ++ (if status =? 0 then [] else [(str "status", AInt status)])
     ++ match err with Some e => [a_text "error" e] | None => [] end)%list in
  (if as_Logger sink && negb (as_NoAccessLog sink) then Some attrs else None,
   m_Request m (rt_proto rt) outcome (statusClass status) verdict mitm elapsed,
   end_span outcome status err <$> rt_span rt).

Definition logAccess (sink : access_sink) (s : accepted) (method url outcome : bytes) (status : Z) (rt : reqTrace) (now : Z) (m : Metrics) :=
  logAccessErr sink s method url outcome status rt now None m.

(** ** The CA certificate over plain HTTP *)

Definition simple_head (status : Z) (reason contentType : bytes) (n : nat) : bytes :=
  (str "HTTP/1.1 " ++ Itoa status ++ str " " ++ reason ++ crlf ++ str "Content-Type: " ++ contentType ++ crlf
   ++ str "Content-Length: " ++ Itoa (Z.of_nat n) ++ crlf ++ str "Connection: close" ++ crlf ++ crlf)%list.

Definition writeSimpleResponse (status : Z) (body : bytes) : bytes :=
  (simple_head status (StatusText status) (str "text/plain") (length body) ++ body)%list.

Definition writeCAPEM (pem : option bytes) : bytes :=
  match pem with
  | None => writeSimpleResponse 404 (str "Not Found" ++ [byte_of 10])
  | Some pem => (simple_head 200 (str "OK") (str "application/x-pem-file") (length pem) ++ pem)%list
  end.

(** ** Error pages over HTTP/2 *)

(** [httperror.Handle]: the headers, status and body it gives the response writer. *)
Definition page_Handle (timestamp : bytes) (w : Header) (reqURL : bytes) (spec : Spec) : Header * Z * bytes :=
  let body := Render timestamp reqURL spec in
  let w := foldl (fun w nv => foldl (fun w v => Header_Add w (fst nv) v) w (snd nv)) w (sp_Headers spec) in
  let w := Header_Set w (str "Content-Type") (str "text/html; charset=utf-8") in
  let w := Header_Set w (str "Content-Length") (Itoa (Z.of_nat (length body))) in
  (w, sp_Status spec, body).

(** ** Auditing the handlers *)

Section Audit.
Context `{RE : RegexEngine} `{DG : Digests} `{UT : UnicodeTable} `{ID : Idna}.
Variable h : Http1Handler.

(** The records of a history, the latest first. *)
Fixpoint records (hist : list event) : list (bytes * Z) :=
  match hist with
  | [] => []
  | Ev e _ :: hist => match e with Log outcome status => (outcome, status) :: records hist | _ => records hist end
  end.

(** How often a request went upstream, how often the client got a response, and how many
    header blocks were awaited. *)
Fixpoint sends (hist : list event) : nat :=
  match hist with
  | [] => O
  | Ev e _ :: hist => match e with SendOnce _ | H2Send _ => S (sends hist) | _ => sends hist end
  end.

Fixpoint responds (hist : list event) : nat :=
  match hist with
  | [] => O
  | Ev e _ :: hist => match e with Respond _ => S (responds hist) | _ => responds hist end
  end.

Fixpoint awaited (hist : list event) : nat :=
  match hist with
  | [] => O
  | Ev e _ :: hist => match e with BoundHeader => S (awaited hist) | _ => awaited hist end
  end.

(** Everything is allowed: only what the history becomes is asked. *)
Definition anything : guard := fun _ _ _ => True.

(** Nothing was recorded or answered; requests may have been sent. *)
Definition unaudited (hist hist' : list event) : Prop :=
  records hist' = records hist /\ responds hist' = responds hist /\ awaited hist' = awaited hist /\ (sends hist <= sends hist')%nat.

(** Nor was one sent. *)
Definition unseen (hist hist' : list event) : Prop := unaudited hist hist' /\ sends hist' = sends hist.

(** The outcomes of a request that was sent upstream. *)
Definition sent_outcomes : list bytes := [str "ok"; str "client-write-error"; str "upstream-error"].

(** One record was written, and its outcome fits what was done. *)
Definition audited (hist hist' : list event) : Prop :=
  exists outcome status, records hist' = (outcome, status) :: records hist
  /\ awaited hist' = awaited hist
  /\ (sends hist <> sends hist' -> outcome ∈ sent_outcomes)
  /\ (responds hist <> responds hist' <-> outcome ∈ [str "ok"; str "client-write-error"])
  /\ (outcome = str "ok" -> (sends hist < sends hist')%nat /\ responds hist' = S (responds hist))
  /\ (fst (classifyOutcome outcome) = str "allow" <-> outcome = str "ok").

Lemma unaudited_trans a b c : unaudited a b -> unaudited b c -> unaudited a c.
Proof. intros (? & ? & ? & ?) (? & ? & ? & ?). unfold unaudited. split_and!; [congruence..|lia]. Qed.

Lemma unseen_trans a b c : unseen a b -> unseen b c -> unseen a c.
Proof. intros [? ?] [? ?]. split; [by eapply unaudited_trans|congruence]. Qed.

Lemma unseen_audited a b c : unseen a b -> audited b c -> audited a c.
Proof.
  intros [(Hr & Hp & Ha & _) Hs] (o & st & H1 & H2 & H3 & H4 & H5 & H6). exists o, st. rewrite <- Hr, <- Hp, <- Ha, <- Hs. done.
Qed.
End Audit.

(** Steps through effects, results and case distinctions. *)
Ltac walk :=
  repeat match goal with
    | |- safe _ _ (Ret _) _ => apply safe_ret
    | |- safe _ _ Panic _ => exact I
    | |- safe _ _ (perform _ ≫= _) _ => apply safe_perform; [exact I|intros ?]
    | |- safe _ _ (perform _) _ => apply safe_last; [exact I|intros ?]
    | |- safe _ _ (Ret _ ≫= _) _ => cbn [mbind prog_bind pbind]
    | |- safe _ _ (match ?x with _ => _ end) _ => destruct x eqn:?
    | |- safe _ _ ((match ?x with _ => _ end) ≫= _) _ => destruct x eqn:?
    end.

Ltac counts := unfold unseen, unaudited; cbn [records sends responds awaited]; repeat split; lia.

Section Handlers.
Context `{RE : RegexEngine} `{DG : Digests} `{UT : UnicodeTable} `{ID : Idna}.
Variable h : Http1Handler.

Lemma doOutcall_unseen hist oc co action : safe anything hist (doOutcall oc co action) (fun hist' _ => unseen hist hist').
Proof. unfold doOutcall. walk; counts. Qed.

Lemma applyWebhook_unseen hist oc co : safe anything hist (applyWebhook oc co) (fun hist' _ => unseen hist hist').
Proof. unfold applyWebhook. eapply safe_bind; [apply doOutcall_unseen|]. intros ? ? Hu. by apply safe_ret. Qed.

Lemma applyRequestAction_unseen hist oc hd a : safe anything hist (applyRequestAction oc hd a) (fun hist' _ => unseen hist hist').
Proof.
  unfold applyRequestAction, applyHeaderFetch. walk; try counts;
    (eapply safe_bind; [first [apply applyWebhook_unseen|apply doOutcall_unseen]|]); intros ? ? Hu; by apply safe_ret.
Qed.

Lemma applyRequestActions_unseen hist oc hd actions : safe anything hist (applyRequestActions oc hd actions) (fun hist' _ => unseen hist hist').
Proof.
  revert hist hd. induction actions as [|a t IH]; intros hist hd; cbn [applyRequestActions]; [apply safe_ret; counts|].
  eapply safe_bind; [apply applyRequestAction_unseen|]. intros h' [hd1 v] Hu. cbn [fst snd]. walk; [done|].
  eapply safe_weaken; [apply IH|]. intros h'' ? Hu'. by eapply unseen_trans.
Qed.

(** A round trip that returns a response has sent the request. *)
Definition tripped (hist hist' : list event) (r : goerr + HttpResponse) : Prop :=
  unaudited hist hist' /\ match r with inr _ => (sends hist < sends hist')%nat | inl _ => True end.

Lemma redialUpstream_unseen hist r : safe anything hist (redialUpstream r) (fun hist' _ => unseen hist hist').
Proof. unfold redialUpstream. walk; counts. Qed.

Lemma sent_tripped hist hist' r : unaudited hist hist' -> (sends hist < sends hist')%nat -> tripped hist hist' r.
Proof. intros Hu Hs. split; [done|by destruct r]. Qed.

Lemma h1RoundTrip_tripped hist r q : safe anything hist (h1RoundTrip r q) (tripped hist).
Proof.
  unfold h1RoundTrip. apply safe_perform; [exact I|intros [[err nw]|resp]]; walk; try (apply sent_tripped; counts);
    (eapply safe_bind; [apply redialUpstream_unseen|]); intros h' d [(? & ? & ? & ?) ?]; cbn [records sends responds awaited] in *; walk;
    (apply sent_tripped; [unfold unaudited|]; cbn [records sends responds awaited]; split_and?; (done || lia)).
Qed.

Lemma h2Attempts_unseen tries hist dst sni have e : safe anything hist (h2Attempts tries dst sni have e) (fun hist' _ => unseen hist hist').
Proof.
  revert hist have e. induction tries as [|n IH]; intros hist have e; cbn [h2Attempts]; walk; try counts;
    (eapply safe_weaken; [apply IH|]); intros h' ? Hu; (eapply unseen_trans; [|exact Hu]); counts.
Qed.

Lemma newH2_unseen hist dst sni have : safe anything hist (newUpstreamH2ClientConn h dst sni have) (fun hist' _ => unseen hist hist').
Proof. unfold newUpstreamH2ClientConn. walk; [counts|apply h2Attempts_unseen]. Qed.

Lemma h2RoundTrip_tripped hist dst sni q : safe anything hist (h2RoundTrip h dst sni q) (tripped hist).
Proof.
  unfold h2RoundTrip. apply safe_perform; [exact I|intros can].
  eapply (safe_bind _ _ _ _ (fun hist' _ => unseen hist hist')).
  - destruct can; [apply safe_ret; counts|]. eapply safe_weaken; [apply newH2_unseen|]. intros h' ? Hu. eapply unseen_trans; [|exact Hu]. counts.
  - intros h' e [(? & ? & ? & ?) ?]. unfold tripped, unaudited. walk; [split_and!; done|].
    cbn [records sends responds awaited]. destruct x; split_and!; try done; lia.
Qed.

Lemma roundTrip_tripped hist u q : safe anything hist (roundTrip h u q) (tripped hist).
Proof. destruct u; [apply h1RoundTrip_tripped|apply h2RoundTrip_tripped]. Qed.

Lemma upgradeUpstream_unseen hist u q : safe anything hist (upgradeUpstream u q) (fun hist' _ => unseen hist hist').
Proof. unfold upgradeUpstream. walk; counts. Qed.

(** ** Records *)

(** The record of a request that was refused. *)
Definition refusal (outcome : bytes) : bool := bool_decide (outcome ∉ [str "ok"; str "client-write-error"; str "splice (mitm:false)"]).

Lemma refusal_deny outcome : refusal outcome = true -> fst (classifyOutcome outcome) = str "deny" /\ outcome ∉ [str "ok"; str "client-write-error"].
Proof.
  unfold refusal, classifyOutcome. rewrite bool_decide_eq_true. rewrite !not_elem_of_cons. intros (H1 & H2 & H3 & _).
  rewrite (bool_decide_false _ H1), (bool_decide_false _ H3). split; [by repeat case_bool_decide|].
  split_and!; [done..|apply not_elem_of_nil].
Qed.

Lemma refused_audited hist hist' outcome status x :
  unaudited hist hist' -> refusal outcome = true -> (sends hist' <> sends hist -> outcome ∈ sent_outcomes) ->
  audited hist (Ev (Log outcome status) x :: hist').
Proof.
  intros (Hr & Hp & Ha & Hs) [Hd Ho]%refusal_deny Hsent. exists outcome, status. cbn [records sends responds awaited].
  assert (outcome <> str "ok") by (intros ->; apply Ho, list_elem_of_here).
  split_and!; [by rewrite Hr|done|intros; apply Hsent; congruence|split; [congruence|done]|done|rewrite Hd; split; [done|done]].
Qed.

Lemma fail_audited hist hist' url spec outcome :
  unaudited hist hist' -> refusal (str outcome) = true -> (sends hist' <> sends hist -> str outcome ∈ sent_outcomes) ->
  safe anything hist' (fail url spec outcome) (fun hist'' _ => audited hist hist'').
Proof.
  intros (? & ? & ? & ?) Hr Hs. unfold fail. walk. apply refused_audited; [|done|done]. by split_and!.
Qed.

Lemma shortCircuited_audited hist hist' url v : unseen hist hist' -> safe anything hist' (shortCircuited url v) (fun hist'' _ => audited hist hist'').
Proof.
  intros [(? & ? & ? & ?) ?]. unfold shortCircuited. walk; (apply refused_audited; [by split_and!| |cbn [sends]; congruence]).
  - unfold requestVerdictOutcome. by repeat case_bool_decide; vm_compute.
  - by vm_compute.
Qed.

(** The record of a request that was answered. *)
Lemma answered_audited hist hist' resp w outcome status x :
  unaudited hist hist' -> (sends hist < sends hist')%nat -> outcome = str "ok" \/ outcome = str "client-write-error" ->
  audited hist (Ev (Log outcome status) x :: Ev (Respond resp) w :: hist').
Proof.
  intros (Hr & Hp & Ha & Hs) Hlt Ho. exists outcome, status. cbn [records sends responds awaited]. rewrite Hr, Hp.
  split_and!; [done|done| | |done|].
  - intros _. unfold sent_outcomes. rewrite !elem_of_cons. tauto.
  - rewrite !elem_of_cons. split; [tauto|lia].
  - by destruct Ho as [->| ->]; vm_compute.
Qed.

Lemma forwardRequest_audited hist hist' u rule q : unseen hist hist' -> safe anything hist' (forwardRequest h u rule q) (fun hist'' _ => audited hist hist'').
Proof.
  intros Hu. unfold forwardRequest. eapply safe_bind; [apply upgradeUpstream_unseen|]. intros h1 u' Hu1. pose proof (unseen_trans _ _ _ Hu Hu1) as [Hx Hs].
  destruct u' as [e|u']; [by apply fail_audited; [done|by vm_compute|]|].
  eapply safe_bind; [apply roundTrip_tripped|]. intros h2 r [Hu2 Hr]. pose proof (unaudited_trans _ _ _ Hx Hu2) as Hx2.
  destruct r as [e|resp]; [apply fail_audited; [done|by vm_compute|intros _; by apply (bool_decide_unpack _); vm_compute]|].
  assert (sends hist < sends h2)%nat by lia.
  walk; try match goal with |- audited _ (Ev Splice _ :: ?h3) => change (audited hist h3) end; (apply answered_audited; [done|done|by auto]).
Qed.

Lemma handleOneRequest_audited hist sess u connIn dst q : safe anything hist (handleOneRequest h sess u connIn dst q) (fun hist' _ => audited hist hist').
Proof.
  assert (Hn : forall hh : list event, unaudited hh hh) by (intros; counts).
  unfold handleOneRequest. destruct (authorityMatches _ _ _ _); cbn [negb]; [|by apply fail_audited; [done|by vm_compute|]].
  apply safe_perform; [exact I|intros [rs|]]; [|walk; apply refused_audited; [counts|by vm_compute|done]].
  destruct (LookupRequest rs _) as [rule|]; [|apply fail_audited; [counts|by vm_compute|done]].
  eapply safe_bind; [apply applyRequestActions_unseen|]. intros h1 hv [(? & ? & ? & ?) ?].
  assert (unseen hist h1) by by split_and!.
  destruct (ShortCircuit hv.2); [by apply shortCircuited_audited|by apply forwardRequest_audited].
Qed.

Lemma handleH2Stream_audited hist sess connIn dst sni q : safe anything hist (handleH2Stream h sess connIn dst sni q) (fun hist' _ => audited hist hist').
Proof.
  assert (Hn : forall hh : list event, unaudited hh hh) by (intros; counts).
  unfold handleH2Stream. destruct (authorityMatches _ _ _ _); cbn [negb]; [|by apply fail_audited; [done|by vm_compute|]].
  apply safe_perform; [exact I|intros [rs|]]; [|walk; apply refused_audited; [counts|by vm_compute|done]].
  destruct (LookupRequest rs _) as [rule|]; [|apply fail_audited; [counts|by vm_compute|done]].
  eapply safe_bind; [apply applyRequestActions_unseen|]. intros h1 hv [Hx ?].
  assert (Hu : unaudited hist h1) by (eapply unaudited_trans; [|exact Hx]; counts).
  destruct (ShortCircuit hv.2); [by apply shortCircuited_audited|].
  eapply safe_bind; [apply h2RoundTrip_tripped|]. intros h2 r [Hu2 Hr]. pose proof (unaudited_trans _ _ _ Hu Hu2) as Hx2.
  destruct r as [e|resp]; [apply fail_audited; [done|by vm_compute|intros _; by apply (bool_decide_unpack _); vm_compute]|].
  walk. apply answered_audited; [done| |by left]. cbn [sends] in *. lia.
Qed.

(** Reading a request writes a record when it fails. *)
Lemma readBoundedRequest_recorded hist :
  safe anything hist readBoundedRequest (fun hist' r =>
    awaited hist' = S (awaited hist)
    /\ length (records hist') = (match r with inl _ => 1 | inr _ => 0 end + length (records hist))%nat).
Proof. unfold readBoundedRequest. walk; (split; reflexivity). Qed.

(** A record for every header block awaited, and for the request the relay starts with. *)
Definition balanced (n : nat) (hist hist' : list event) : Prop :=
  (length (records hist') + awaited hist = n + length (records hist) + awaited hist')%nat.

Lemma request_recorded fuel hist hist' sess u connIn dst q n :
  (forall hist', safe anything hist' (relayIntercepted h fuel sess u connIn dst None) (fun hist'' _ => balanced 0 hist' hist'')) ->
  (S (length (records hist')) + awaited hist = n + length (records hist) + awaited hist')%nat ->
  safe anything hist' (handleOneRequest h sess u connIn dst q ≫= fun more => if more : bool then relayIntercepted h fuel sess u connIn dst None else Ret tt)
    (fun hist'' _ => balanced n hist hist'').
Proof.
  intros IH Hb. eapply safe_bind; [apply handleOneRequest_audited|]. intros h1 more (o & st & Hr & Ha & _).
  assert (balanced n hist h1) by (unfold balanced; rewrite Hr, Ha; cbn [length]; lia).
  destruct more; [|by apply safe_ret]. eapply safe_weaken; [apply IH|]. unfold balanced in *. intros; lia.
Qed.

Lemma relayIntercepted_recorded fuel hist sess u connIn dst :
  safe anything hist (relayIntercepted h fuel sess u connIn dst None) (fun hist' _ => balanced 0 hist hist').
Proof.
  revert hist. induction fuel as [|fuel IH]; intros hist; cbn [relayIntercepted]; [apply safe_ret; unfold balanced; lia|].
  eapply safe_bind; [apply readBoundedRequest_recorded|]. intros h1 [e|q] [Ha Hr].
  - apply safe_ret. unfold balanced. rewrite Ha, Hr. lia.
  - apply request_recorded; [done|]. rewrite Ha, Hr. lia.
Qed.

Lemma relayIntercepted_first_recorded fuel hist sess u connIn dst q :
  safe anything hist (relayIntercepted h (S fuel) sess u connIn dst (Some q)) (fun hist' _ => balanced 1 hist hist').
Proof. cbn [relayIntercepted mbind prog_bind pbind]. apply request_recorded; [intros; apply relayIntercepted_recorded|lia]. Qed.

Lemma anything_ok (hist : list event) : all_ok anything hist.
Proof. by induction hist as [|[] ? ?]. Qed.

(** ** Every handler returns *)

(** The rule sets a lookup gives were compiled. *)
Definition sound_answer {X} (e : eff X) : X -> Prop :=
  match e in eff X return X -> Prop with
  | Lookup _ => fun r => match r with Ok rs => Forall rule_ok (rs_rules rs) | Error _ => True end
  | _ => fun _ => True
  end.

Definition sound (env : environment) : Prop := forall hist X (e : eff X), sound_answer e (env X hist e).

(** No sound answer leads to a panic. *)
Fixpoint returns {A} (p : prog A) : Prop :=
  match p with
  | Ret _ => True
  | Panic => False
  | Vis e k => forall x, sound_answer e x -> returns (k x)
  end.

Lemma returns_exec {A} env (p : prog A) hist : sound env -> returns p -> exists a, snd (exec env hist p) = Some a.
Proof.
  intros He. revert hist. induction p as [a| |X e k IH]; intros hist Hp; [by exists a|done|]. cbn. apply IH, Hp, He.
Qed.

Lemma returns_bind {A B} (p : prog A) (f : A -> prog B) : returns p -> (forall a, returns (f a)) -> returns (p ≫= f).
Proof.
  unfold mbind, prog_bind. intros Hp Hf. induction p as [a| |X e k IH]; [apply Hf|done|]. cbn. intros x Hx. apply IH, Hp, Hx.
Qed.

Lemma returns_perform {A X} (e : eff X) (f : X -> prog A) : (forall x, sound_answer e x -> returns (f x)) -> returns (perform e ≫= f).
Proof. done. Qed.
End Handlers.

(** Steps of programs that do not panic. *)
Ltac returning :=
  repeat match goal with
    | |- returns (Ret _) => exact I
    | |- returns (perform _ ≫= _) => apply returns_perform; intros ? ?
    | |- returns (perform _) => intros ? ?
    | |- returns (Ret _ ≫= _) => cbn [mbind prog_bind pbind]
    | |- returns (match ?x with _ => _ end) => destruct x eqn:?
    | |- returns ((match ?x with _ => _ end) ≫= _) => destruct x eqn:?
    | |- returns (_ ≫= _) => apply returns_bind; [|intros ?]
    end.

Section Returning.
Context `{RE : RegexEngine} `{DG : Digests} `{UT : UnicodeTable} `{ID : Idna}.
Variable h : Http1Handler.

Lemma scanRules_in pred rs r : scanRules pred rs = Some r -> r ∈ rs.
Proof. induction rs as [|x t IH]; cbn; [done|]. destruct (pred x); [intros [= ->]; apply list_elem_of_here|intros; apply list_elem_of_further; auto]. Qed.

Lemma scanCandidates_in pred rs ids r : scanCandidates pred rs ids = Some r -> r ∈ rs.
Proof.
  induction ids as [|i t IH]; cbn; [done|]. destruct (rs !! i) as [x|] eqn:E; [|done]. destruct (pred x); [|done].
  intros [= ->]. by eapply list_elem_of_lookup_2.
Qed.

Lemma LookupRequest_ok rs i rule : Forall rule_ok (rs_rules rs) -> LookupRequest rs i = Some rule -> rule_ok rule.
Proof.
  rewrite Forall_forall. intros Hall. unfold LookupRequest, firstMatch. destruct (rs_hostIndex rs); eauto using scanRules_in, scanCandidates_in.
Qed.

Lemma applyRequestAction_returns oc hd a : (is_Some (ca_Outcall a) <-> is_outcall (ca_Name a) = true) -> returns (applyRequestAction oc hd a).
Proof.
  intros Ha. unfold applyRequestAction, applyWebhook, applyHeaderFetch, doOutcall. returning;
    match goal with H : bool_decide (ca_Name a = ?n) = true |- _ => apply bool_decide_eq_true in H; rewrite H in Ha end;
    destruct Ha as [_ [? ?]]; by vm_compute.
Qed.

Lemma applyRequestActions_returns oc hd rule : rule_ok rule -> returns (applyRequestActions oc hd (cr_request rule)).
Proof.
  intros Hr. pose proof (ok_request _ Hr) as Hf. revert hd. induction Hf as [|a t [_ Ha] _ IH]; intros hd; cbn [applyRequestActions]; [exact I|].
  apply returns_bind; [by apply applyRequestAction_returns|]. intros hv. returning. apply IH.
Qed.

Lemma h2Attempts_returns tries dst sni have e : returns (h2Attempts tries dst sni have e).
Proof. revert have e. induction tries as [|n IH]; intros have e; cbn [h2Attempts]; returning; apply IH. Qed.

Lemma h2RoundTrip_returns dst sni q : returns (h2RoundTrip h dst sni q).
Proof. unfold h2RoundTrip, newUpstreamH2ClientConn. returning; apply h2Attempts_returns. Qed.

Lemma h1RoundTrip_returns r q : returns (h1RoundTrip r q).
Proof. unfold h1RoundTrip, redialUpstream. returning. Qed.

Lemma forwardRequest_returns u rule q : returns (forwardRequest h u rule q).
Proof.
  unfold forwardRequest, upgradeUpstream, fail, roundTrip. returning; first [apply h1RoundTrip_returns|apply h2RoundTrip_returns].
Qed.

Lemma handleOneRequest_returns sess u connIn dst q : returns (handleOneRequest h sess u connIn dst q).
Proof.
  unfold handleOneRequest, fail, shortCircuited. returning; [|apply forwardRequest_returns].
  apply applyRequestActions_returns. by eapply LookupRequest_ok.
Qed.

Lemma handleH2Stream_returns sess connIn dst sni q : returns (handleH2Stream h sess connIn dst sni q).
Proof.
  unfold handleH2Stream, fail, shortCircuited. returning; [|apply h2RoundTrip_returns].
  apply applyRequestActions_returns. by eapply LookupRequest_ok.
Qed.

Lemma relayIntercepted_returns fuel sess u connIn dst req : returns (relayIntercepted h fuel sess u connIn dst req).
Proof.
  revert req. induction fuel as [|fuel IH]; intros req; cbn [relayIntercepted]; [exact I|].
  unfold readBoundedRequest. returning; first [apply handleOneRequest_returns|apply IH].
Qed.

(** A run of a handler ends, in a history with the post-condition. *)
Lemma run_audited {A} env hist (p : prog A) (Q : list event -> Prop) :
  sound env -> returns p -> safe anything hist p (fun hist' _ => Q hist') -> exists hist' a, exec env hist p = (hist', Some a) /\ Q hist'.
Proof.
  intros He Hr Hs. destruct (returns_exec env p hist He Hr) as [a Ha]. exists (fst (exec env hist p)), a.
  split; [by rewrite <- Ha, <- surjective_pairing|]. by eapply (safe_exec anything env p hist (fun hist' _ => Q hist')); [apply anything_ok|exact Hs|exact Ha].
Qed.

(** ** What holds *)

(** C19: Whatever the environment answers, as long as its rule sets are compiled, a request,
    over HTTP/1 or as an HTTP/2 stream, is handled to the end and writes exactly one access
    record.  It is sent upstream only if the record says ok, client-write-error or
    upstream-error; a response is written exactly if it says one of the first two; ok means
    both happened, and ok alone has the verdict allow.  A connection's relay writes one record
    for each header block it awaits, and one for the request it starts with. *)
Theorem one_record_per_request env hist sess u connIn dst sni q :
  sound env ->
  (exists hist' more, exec env hist (handleOneRequest h sess u connIn dst q) = (hist', Some more) /\ audited hist hist')
  /\ (exists hist' more, exec env hist (handleH2Stream h sess connIn dst sni q) = (hist', Some more) /\ audited hist hist')
  /\ forall fuel,
       (exists hist' a, exec env hist (relayIntercepted h fuel sess u connIn dst None) = (hist', Some a) /\ balanced 0 hist hist')
       /\ exists hist' a, exec env hist (relayIntercepted h (S fuel) sess u connIn dst (Some q)) = (hist', Some a) /\ balanced 1 hist hist'.
Proof.
  intros He. split_and!; [| |intros fuel; split].
  - apply run_audited; [done|apply handleOneRequest_returns|apply handleOneRequest_audited].
  - apply run_audited; [done|apply handleH2Stream_returns|apply handleH2Stream_audited].
  - apply run_audited; [done|apply relayIntercepted_returns|apply relayIntercepted_recorded].
  - apply run_audited; [done|apply relayIntercepted_returns|apply relayIntercepted_first_recorded].
Qed.

(** An access record, its measurements and its span agree, and only the record depends on the
    logger: a request is counted once, under the outcome, verdict and mitm the record has, and
    its span ends with the outcome. *)
Theorem access_record_agrees sink s tracer start now proto method url dst principal outcome status err ms :
  let rt := withPrincipal (withDst (startReq tracer start proto method url) dst) principal in
  let '(record, m, sp) := logAccessErr sink s method url outcome status rt now err (Some ms) in
  let '(verdict, mitm) := classifyOutcome outcome in
  match record with
  | Some attrs => as_Logger sink && negb (as_NoAccessLog sink) = true
                  /\ [a_text "outcome" outcome; a_text "verdict" verdict; a_text "mitm" mitm] ⊆ attrs
                  /\ (a_text "dst" dst ∈ attrs <-> dst <> []) /\ (a_text "principal" principal ∈ attrs <-> principal <> [])
  | None => as_Logger sink && negb (as_NoAccessLog sink) = false
  end
  /\ m = Some (ms ++ [Add requestsTotal 1 [label "proto" proto; label "outcome" outcome; label "status_class" (statusClass status);
                                           label "verdict" verdict; label "mitm" mitm];
                      Observe requestDuration (now - start) [label "proto" proto]])%list
  /\ match sp with
     | Some x => tracer = true /\ sn_ended x = true /\ [(str "outcome", outcome); (str "dst", dst); (str "principal", principal)] ⊆ sn_attrs x
                 /\ sn_errors x = match err with Some e => [e] | None => [] end
     | None => tracer = false
     end.
Proof.
  cbn zeta. unfold logAccessErr. destruct (classifyOutcome outcome) as [verdict mitm]. cbn [withPrincipal withDst startReq rt_start rt_proto rt_dst rt_principal rt_span].
  split_and!; [|done|].
  - destruct (as_Logger sink && negb (as_NoAccessLog sink)); [|done]. split; [done|]. split.
    { intros x. rewrite elem_of_app, !elem_of_cons. naive_solver. }
    unfold a_text. split; rewrite !elem_of_app, !elem_of_cons; repeat case_bool_decide; destruct (status =? 0), err;
      rewrite ?elem_of_cons, ?elem_of_nil; try (split; [naive_solver|naive_solver]).
  - destruct tracer; [|done]. cbn [fmap option_fmap option_map]. split; [done|]. split; [done|].
    unfold end_span. destruct (status =? 0); cbn [sn_attrs sn_errors SetAttribute]; (split; [|done]);
      intros x; rewrite ?elem_of_app, !elem_of_cons; naive_solver.
Qed.

End Returning.

(** ** The CA certificate *)

Definition simple_lines (status : Z) (reason contentType : bytes) (n : nat) : list bytes :=
  [str "HTTP/1.1 " ++ Itoa status ++ str " " ++ reason; str "Content-Type: " ++ contentType;
   str "Content-Length: " ++ Itoa (Z.of_nat n); str "Connection: close"]%list.

Lemma simple_lines_ok status reason contentType n :
  0 <= status -> lf ∉ reason -> lf ∉ contentType -> Forall line_ok (simple_lines status reason contentType n).
Proof.
  intros Hs Hr Hc. assert (Hd : forall k, 0 <= k -> lf ∉ Itoa k) by (intros k Hk; apply digits_no; [by apply Itoa_digits|reflexivity]).
  unfold simple_lines. repeat apply Forall_cons_2; [..|done]; (split; [|done]); rewrite ?elem_of_app.
  - intros [H|[H|[H|H]]]; [by apply no_lf in H|by apply Hd in H|by apply no_lf in H|done].
  - intros [H|H]; [by apply no_lf in H|done].
  - intros [H|H]; [by apply no_lf in H|apply Hd in H; [done|lia]].
  - intros H. by apply no_lf in H.
Qed.

Lemma read_simple status reason contentType body :
  0 <= status < 2 ^ 63 -> lf ∉ reason -> lf ∉ contentType -> Z.of_nat (length body) < 2 ^ 63 ->
  read_response (simple_head status reason contentType (length body) ++ body) = Some (status, body, []).
Proof.
  intros Hs Hr Hc Hl.
  replace (simple_head status reason contentType (length body))
    with (unlines (simple_lines status reason contentType (length body)) ++ crlf)%list
    by (unfold simple_head, simple_lines, unlines; cbn [map concat]; rewrite !app_nil_r, <- !app_assoc; reflexivity).
  unfold read_response. rewrite <- app_assoc. rewrite read_lines_unlines;
    [|by apply simple_lines_ok; [lia|..]|pose proof (length_unlines (simple_lines status reason contentType (length body))); rewrite length_app; lia].
  cbn [mbind option_bind]. unfold status_of, simple_lines. change (default [] (head (?a :: ?t))) with a.
  rewrite (proj2 (CutPrefix_Some (str "HTTP/1.1 ") _ _) eq_refl). cbn [mbind option_bind].
  change (str " " ++ ?x)%list with (" "%char :: x).
  rewrite (Cut_app " "); [|apply digits_no; [apply Itoa_digits; lia|reflexivity]].
  cbn [mbind option_bind]. rewrite Atoi_Itoa by lia. cbn [mbind option_bind].
  change (content_length (?a :: ?b :: ?t)) with (content_length t).
  cbn [content_length]. rewrite (proj2 (CutPrefix_Some (str "Content-Length: ") _ _) eq_refl). rewrite Atoi_Itoa by lia.
  cbn [mbind option_bind]. by rewrite Nat2Z.id, take_ge, drop_ge by lia.
Qed.

(** Over HTTP/2 a client gets the page, the status and the length it gets over HTTP/1. *)
Theorem pages_agree timestamp w reqURL spec :
  0 <= sp_Status spec < 2 ^ 63 -> headers_ok (sp_Headers spec) -> Z.of_nat (length (Render timestamp reqURL spec)) < 2 ^ 63 ->
  let '(hd, status, body) := page_Handle timestamp w reqURL spec in
  read_response (WriteResponse timestamp reqURL spec) = Some (status, body, [])
  /\ Header_Values hd (str "Content-Length") = [Itoa (Z.of_nat (length body))]
  /\ Header_Values hd (str "Content-Type") = [str "text/html; charset=utf-8"].
Proof.
  intros Hs Hh Hl. unfold page_Handle. split; [by apply response_self_delimiting|].
  unfold Header_Values, Header_Set. rewrite !header_put_lookup. split; [by rewrite bool_decide_true|].
  rewrite bool_decide_false by (by vm_compute). by rewrite bool_decide_true.
Qed.

(** A client that asks for the CA certificate reads back exactly its PEM text, or a 404. *)
Theorem ca_pem_delivered pem :
  Z.of_nat (length (default [] pem)) < 2 ^ 63 ->
  read_response (writeCAPEM pem)
  = Some (match pem with Some pem => (200, pem, []) | None => (404, str "Not Found" ++ [byte_of 10], []) end)%list.
Proof.
  destruct pem as [pem|]; [|intros _; by vm_compute].
  intros Hl. apply read_simple; [lia|intros H; by apply no_lf in H|intros H; by apply no_lf in H|done].
Qed.

(** ** A connection *)

Section Sample.
#[local] Existing Instance no_regex.
#[local] Existing Instance toy_digests.
#[local] Existing Instance ascii_table.
#[local] Existing Instance ldh_idna.

(** Everything is intercepted; requests for /ads are refused by a broker. *)
Definition intercepting_file : RuleFile := Eval vm_compute in
  the {| rf_UUID := []; rf_Auth := None; rf_HTTP := None; rf_Egress := None |} (Unmarshal_RuleFile (json "{'uuid':'u','http':[{'match':{'host':'*','path':'/ads'},'request':[{'action':'webhook','params':{'socket':'/run/broker.sock','path':'/'}}]},{'match':{'host':'*'}}]}")).

Definition intercepting : RuleSet := Eval vm_compute in the emptyRuleSet (file_rules intercepting_file).

Definition plain_conn : ConnInput := {| in_Host := str "good.example"; in_Port := str "80"; in_Proto := str "http" |}.

Definition get_path (path : string) : HttpRequest :=
  {| q_Method := str "GET"; q_Scheme := []; q_URLHost := []; q_Path := str path; q_RequestURI := str path; q_URLString := str path;
     q_Host := str "good.example"; q_Header := []; q_Close := false |}.

Definition sample_run : list event :=
  fst (exec (scripted intercepting [site] [get_path "/ads"]) []
         (relayIntercepted plain_handler 5 client_session (UpH1 NoRedial) plain_conn (str "93.184.216.34:80") (Some (get_path "/")))).

Lemma one_record_per_request_witness :
  records sample_run = [(str "outcall-fail", 502); (str "ok", 200)] /\ sends sample_run = 1%nat
  /\ exists hist' a,
       exec (scripted intercepting [site] [get_path "/ads"]) []
         (relayIntercepted plain_handler 5 client_session (UpH1 NoRedial) plain_conn (str "93.184.216.34:80") (Some (get_path "/"))) = (hist', Some a)
       /\ balanced 1 [] hist'.
Proof.
  split; [vm_compute; reflexivity|]. split; [vm_compute; reflexivity|].
  refine (proj2 (proj2 (proj2 (one_record_per_request plain_handler (scripted intercepting [site] [get_path "/ads"]) [] client_session (UpH1 NoRedial)
            plain_conn (str "93.184.216.34:80") (str "good.example") (get_path "/") _)) 4%nat)).
  intros hist X e. destruct e; try exact I. apply (Compile_ok intercepting_file). vm_compute. reflexivity.
Defined.
End Sample.
