(* ===== verification/Streams.v ===== *)
(** * Concurrent HTTP/2 streams (internal/proxy/http2.go)

    [http2.Server.ServeConn] runs one [handleH2Stream] per stream, all of them at once over one
    upstream connection.  A pool of streams performs its effects in any order and gets any answers;
    what a stream does is still decided by its own request and by what it was told itself. *)

From S2P Require Import Prelude GoStrings Netip Json Encoding Schema JsonRules Matcher Compile HostIndex Egress Auth RuleSet Builtin Engine.
From S2P Require Import Headers HttpError Actions CacheControl Outcall ClientIP Authority Effects Proxy Http1 ProxySafety ProxySamples AccessLog.

Open Scope Z_scope.

(** ** One program among others *)

Section Unfolding.
Context `{RE : RegexEngine} `{DG : Digests} `{UT : UnicodeTable}.

(** [p] has performed its effects, the latest first, and [p'] is left of it. *)
Inductive unfolds {A} (p : prog A) : list event -> prog A -> Prop :=
  | unfolds_start : unfolds p [] p
  | unfolds_step own X (e : eff X) k x : unfolds p own (Vis e k) -> unfolds p (Ev e x :: own) (k x).

Lemma safe_unfolds {A} ok (p : prog A) Q own p' : safe ok [] p Q -> unfolds p own p' -> all_ok ok own /\ safe ok own p' Q.
Proof. intros Hs. induction 1 as [|own X e k x _ [IH [He Hk]]]; [done|]. split; [by split|apply Hk]. Qed.
End Unfolding.

Section Streams.
Context `{RE : RegexEngine} `{DG : Digests} `{UT : UnicodeTable} `{ID : Idna}.
Variables (h : Http1Handler) (sess : Session) (connIn : ConnInput) (dst sni : bytes).

(** ** The pool *)

Record stream : Type := { st_req : HttpRequest; st_prog : prog bool }.

Definition open_stream (q : HttpRequest) : stream := {| st_req := q; st_prog := handleH2Stream h sess connIn dst sni q |}.

(** What the connection did, the latest first, with the stream that did it. *)
Abbreviation trace := (list (nat * event)).
Definition own (i : nat) (tr : trace) : list event := snd <$> filter (fun x => x.1 = i) tr.

Variable likely : forall X, eff X -> X -> Prop.

(** A stream arrives, or one of them performs its next effect. *)
Inductive streams_step : list stream * trace -> list stream * trace -> Prop :=
  | stream_arrives gs tr q : streams_step (gs, tr) (gs ++ [open_stream q], tr)%list
  | stream_acts gs tr i q X (e : eff X) k x :
      gs !! i = Some {| st_req := q; st_prog := Vis e k |} -> likely X e x ->
      streams_step (gs, tr) (<[i := {| st_req := q; st_prog := k x |}]> gs, (i, Ev e x) :: tr).

Lemma own_same i ev tr : own i ((i, ev) :: tr) = ev :: own i tr.
Proof. unfold own. by rewrite filter_cons_True. Qed.

Lemma own_other i j ev tr : j <> i -> own i ((j, ev) :: tr) = own i tr.
Proof. intros H. unfold own. by rewrite filter_cons_False. Qed.

(** Every stream of the pool is an unfolding of its handler along its own part of the trace, and every
    event belongs to a stream. *)
Definition unfolding (c : list stream * trace) : Prop :=
  (forall i st, c.1 !! i = Some st -> unfolds (handleH2Stream h sess connIn dst sni (st_req st)) (own i c.2) (st_prog st))
  /\ forall i, (length c.1 <= i)%nat -> own i c.2 = [].

Lemma streams_unfold c c' : unfolding c -> streams_step c c' -> unfolding c'.
Proof.
  intros [Hu Hn] Hs. destruct Hs as [gs tr q|gs tr i q X e k x Hi Hx]; cbn [fst snd] in *.
  - split; cbn [fst snd]; [|intros i; rewrite length_app; cbn; intros ?; apply Hn; lia]. intros i st.
    intros [H|[Hge H]]%lookup_app_Some; [by apply Hu|]. apply list_lookup_singleton_Some in H as [_ <-]. rewrite Hn by lia. apply unfolds_start.
  - pose proof (lookup_lt_Some _ _ _ Hi). split; cbn [fst snd].
    + intros j st Hj. destruct (decide (j = i)) as [->|Hne].
      * rewrite list_lookup_insert_eq in Hj by done. injection Hj as <-. rewrite own_same. cbn [st_req st_prog]. apply unfolds_step. exact (Hu i _ Hi).
      * rewrite list_lookup_insert_ne in Hj by done. rewrite own_other by done. by apply Hu.
    + intros j. rewrite length_insert. intros Hj. rewrite own_other by lia. by apply Hn.
Qed.

Lemma streams_unfolding c : rtc streams_step ([], []) c -> unfolding c.
Proof.
  revert c. apply rtc_ind_r; [|intros c c' _ Hs Hu; by eapply streams_unfold].
  split; [|done]. intros i st H. cbn in H. by rewrite lookup_nil in H.
Qed.

(** The part of a stream is the same prefix by prefix. *)
Lemma own_split i ev t2 t1 : own i (t2 ++ (i, ev) :: t1) = (own i t2 ++ ev :: own i t1)%list.
Proof. unfold own. rewrite filter_app, fmap_app, filter_cons_True by done. done. Qed.

(** ** What a stream may do *)

(** The request [q] on its way upstream is that of the stream [q0], with the headers its own pipeline left
    under rules it looked up itself. *)
Definition own_vetted (q0 : HttpRequest) (hist : list event) (q : HttpRequest) : Prop :=
  exists rs rule hd, Ev (Lookup (ClientKey sess)) (Ok rs) ∈ hist
    /\ authorityMatches (q_Host q0) (in_Host connIn) (in_Port connIn) (in_Proto connIn) = true
    /\ LookupRequest rs (msgInput connIn q0) = Some rule
    /\ passed hist (newOutcallContext h sess rs connIn dst q0) (q_Header q0) (cr_request rule) hd
    /\ q = h2_form (with_req_header q0 hd).

Definition own_ok (q0 : HttpRequest) : guard := fun hist X e =>
  (forall d, dial_target e = Some d -> d = dst) /\ (forall q, sent_request e = Some q -> own_vetted q0 hist q).

#[local] Instance own_tolerant q0 : Tolerant (own_ok q0).
Proof. split. intros hist X e [Hd Hs]. split; [by rewrite Hd|by rewrite Hs]. Qed.

Lemma h2Attempts_own q0 tries hist have e : safe (own_ok q0) hist (h2Attempts tries dst sni have e) (fun _ _ => True).
Proof.
  revert hist have e. induction tries as [|n IH]; intros hist have e; cbn [h2Attempts]; [by quiet|].
  quiet; first [by apply IH|apply safe_perform; [split; [by intros ? [= <-]|by intros ? [=]]|intros ?]; quiet; by apply IH].
Qed.

Lemma own_vetted_mono q0 h1 h2 q : h1 `suffix_of` h2 -> own_vetted q0 h1 q -> own_vetted q0 h2 q.
Proof. intros Hs (rs & rule & hd & Hl & Ha & Hr & Hp & ->). exists rs, rule, hd. split_and!; eauto using suffix_elem, passed_mono. Qed.

Lemma h2RoundTrip_own q0 hist q :
  own_vetted q0 hist (h2_form q) -> safe (own_ok q0) hist (h2RoundTrip h dst sni q) (fun _ _ => True).
Proof.
  intros Hv. unfold h2RoundTrip. apply safe_perform; [by apply tolerates|intros can]. eapply safe_then.
  - destruct can; [by quiet|]. unfold newUpstreamH2ClientConn. quiet. apply h2Attempts_own.
  - intros h' d Hs. quiet. apply safe_last; [|done]. split; [by intros ? [=]|]. intros ? [= <-].
    eapply own_vetted_mono; [|exact Hv]. etrans; [|exact Hs]. by exists [Ev H2CanTake can].
Qed.

Lemma handleH2Stream_own q0 : safe (own_ok q0) [] (handleH2Stream h sess connIn dst sni q0) (fun _ _ => True).
Proof.
  unfold handleH2Stream. destruct (authorityMatches _ _ _ _) eqn:Ha; cbn [negb]; [|apply fail_safe, _].
  apply safe_perform; [by apply tolerates|intros r]. destruct r as [rs|]; [|by quiet].
  destruct (LookupRequest rs _) as [rule|] eqn:Hr; [|apply fail_safe, _].
  eapply safe_post; [apply applyRequestActions_safe, _|]. intros h' [hd v] Hs Hp. cbn [fst snd] in *.
  destruct (ShortCircuit v); [apply shortCircuited_safe, _|].
  eapply safe_then; [apply h2RoundTrip_own|intros h'' [e|resp] _; [apply fail_safe, _|by quiet]].
  exists rs, rule, hd. split_and!; eauto. eapply suffix_elem; [exact Hs|apply list_elem_of_here].
Qed.

Lemma streams_own gs tr i st :
  rtc streams_step ([], []) (gs, tr) -> gs !! i = Some st -> all_ok (own_ok (st_req st)) (own i tr).
Proof.
  intros Hr Hi. destruct (streams_unfolding _ Hr) as [Hu _]. apply Hu in Hi. by eapply safe_unfolds in Hi as [H _]; [|apply handleH2Stream_own].
Qed.

Lemma acting gs tr t2 i ev t1 : rtc streams_step ([], []) (gs, tr) -> tr = (t2 ++ (i, ev) :: t1)%list -> is_Some (gs !! i).
Proof.
  intros Hr ->. destruct (streams_unfolding _ Hr) as [_ Hn]. apply lookup_lt_is_Some. destruct (decide (length gs <= i)%nat) as [H|]; [|lia].
  specialize (Hn i H). cbn [snd] in Hn. rewrite own_split in Hn. by destruct (own i t2).
Qed.

(** ** Schedules *)

(** A stream arrives, or stream [i] acts. *)
Inductive stream_turn : Type := Arrives (q : HttpRequest) | Acts (i : nat).

Fixpoint play (env : environment) (ts : list stream_turn) (c : list stream * trace) : option (list stream * trace) :=
  match ts with
  | [] => Some c
  | Arrives q :: ts => play env ts (c.1 ++ [open_stream q], c.2)%list
  | Acts i :: ts =>
      match c.1 !! i with
      | Some {| st_req := q; st_prog := Vis e k |} =>
          let x := env _ (own i c.2) e in play env ts (<[i := {| st_req := q; st_prog := k x |}]> c.1, (i, Ev e x) :: c.2)
      | _ => None
      end
  end.

Lemma play_steps env ts c c' : (forall hist X (e : eff X), likely X e (env X hist e)) -> play env ts c = Some c' -> rtc streams_step c c'.
Proof.
  intros He. revert c. induction ts as [|[q|i] ts IH]; intros [gs tr]; cbn; [intros [= <-]; apply rtc_refl| |].
  - intros H. eapply rtc_l; [apply stream_arrives|]. by apply IH.
  - destruct (gs !! i) as [[q [b| |X e k]]|] eqn:E; [done|done| |done]. intros H. eapply rtc_l; [by eapply stream_acts|]. by apply IH.
Qed.
End Streams.

Section Claims.
Context `{RE : RegexEngine} `{DG : Digests} `{UT : UnicodeTable} `{ID : Idna}.

(** C4: The streams of an HTTP/2 connection do not mix.  Whatever the order in which any number of them run
    and whatever they are answered, a stream dials nothing but the connection's address, and what is sent
    upstream for it is its own request, of the connection's authority, after it looked up the client's rules
    itself, with the headers the request pipeline of the rule it matches left, from answers of brokers that
    it got itself. *)
Theorem streams_isolated (h : Http1Handler) sess connIn dst sni likely gs t2 i X (e : eff X) x t1 :
  rtc (streams_step h sess connIn dst sni likely) ([], []) (gs, t2 ++ (i, Ev e x) :: t1)%list ->
  exists st, gs !! i = Some st
    /\ (forall d, dial_target e = Some d -> d = dst)
    /\ forall q, sent_request e = Some q -> own_vetted h sess connIn dst (st_req st) (own i t1) q.
Proof.
  intros Hr. destruct (acting _ _ _ _ _ _ _ _ _ _ _ _ Hr eq_refl) as [st Hi]. exists st. split; [done|].
  pose proof (streams_own _ _ _ _ _ _ _ _ _ _ Hr Hi) as Hok. rewrite own_split in Hok. by apply all_ok_split in Hok.
Qed.

Lemma streams_return (h : Http1Handler) sess connIn dst sni c :
  rtc (streams_step h sess connIn dst sni (fun X e x => sound_answer e x)) ([], []) c -> Forall (fun st => returns (st_prog st)) c.1.
Proof.
  revert c. apply rtc_ind_r; [done|]. intros c c' _ Hs IH. destruct Hs as [gs tr q|gs tr i q X e k x Hi Hx]; cbn [fst] in *.
  - apply Forall_app. split; [done|]. apply Forall_singleton. apply handleH2Stream_returns.
  - apply Forall_insert; [done|]. pose proof (Forall_lookup_1 _ _ _ _ IH Hi) as Hr. by apply Hr.
Qed.

(** As long as the rule sets are compiled, no stream panics, and one that has ended has written exactly one
    access record that tells what it did, whatever the others did meanwhile. *)
Theorem streams_audited (h : Http1Handler) sess connIn dst sni gs tr i st :
  rtc (streams_step h sess connIn dst sni (fun X e x => sound_answer e x)) ([], []) (gs, tr) -> gs !! i = Some st ->
  st_prog st <> Panic /\ forall b, st_prog st = Ret b -> audited [] (own i tr).
Proof.
  intros Hr Hi. destruct (streams_unfolding _ _ _ _ _ _ _ Hr) as [Hu _]. specialize (Hu i st Hi). cbn [fst snd] in Hu. split.
  - intros Hp. pose proof (Forall_lookup_1 _ _ _ _ (streams_return _ _ _ _ _ _ Hr) Hi) as Hret. cbn beta in Hret. by rewrite Hp in Hret.
  - intros b Hb. pose proof (safe_unfolds _ _ _ _ _ (handleH2Stream_audited h [] sess connIn dst sni (st_req st)) Hu) as [_ Hs]. by rewrite Hb in Hs.
Qed.
End Claims.

(** ** Two streams *)

Section Sample.
#[local] Existing Instance no_regex.
#[local] Existing Instance toy_digests.
#[local] Existing Instance ascii_table.
#[local] Existing Instance ldh_idna.

(** Two streams take turns: each looks up the rules, asks whether the connection takes it, sends and
    answers. *)
Definition turn_about : list stream_turn :=
  [Arrives (get_path "/a"); Acts 0; Arrives (get_path "/b"); Acts 1; Acts 0; Acts 1; Acts 1; Acts 0].

Definition two_streams : option (list stream * list (nat * event)) :=
  play plain_handler client_session plain_conn (str "93.184.216.34:80") (str "good.example") (scripted intercepting [site] []) turn_about ([], []).

Definition sent_paths (tr : list (nat * event)) : list (nat * bytes) :=
  omap (fun x => match x.2 with Ev e _ => option_map (fun q => (x.1, q_Path q)) (sent_request e) end) tr.

Definition streams_of (c : option (list stream * list (nat * event))) : list stream := match c with Some (gs, _) => gs | None => [] end.
Definition trace_of (c : option (list stream * list (nat * event))) : list (nat * event) := match c with Some (_, tr) => tr | None => [] end.

(** The latest event: the stream that sends, and its request upstream. *)
Definition last_send (tr : list (nat * event)) : option (nat * HttpRequest) :=
  match tr with (i, Ev e _) :: _ => option_map (fun q => (i, q)) (sent_request e) | [] => None end.

Lemma streams_isolated_witness :
  sent_paths (trace_of two_streams) = [(0%nat, str "/a"); (1%nat, str "/b")]
  /\ match last_send (trace_of two_streams) with
     | Some (i, q) => own_vetted plain_handler client_session plain_conn (str "93.184.216.34:80") (get_path "/a") (own i (tail (trace_of two_streams))) q
     | None => False
     end.
Proof.
  split; [vm_compute; reflexivity|].
  assert (Hr : rtc (streams_step plain_handler client_session plain_conn (str "93.184.216.34:80") (str "good.example") (fun _ _ _ => True))
                 ([], []) (streams_of two_streams, trace_of two_streams)).
  { apply (play_steps _ _ _ _ _ _ (scripted intercepting [site] []) turn_about); [done|]. change (two_streams = Some (streams_of two_streams, trace_of two_streams)).
    assert (H : (match two_streams with Some _ => true | None => false end) = true) by (vm_compute; reflexivity). by destruct two_streams as [[gs tr]|]. }
  assert (Hl : (match last_send (trace_of two_streams) with Some _ => true | None => false end) = true) by (vm_compute; reflexivity).
  assert (Hq : forall i, option_map fst (last_send (trace_of two_streams)) = Some i -> st_req <$> streams_of two_streams !! i = Some (get_path "/a")).
  { intros i. vm_compute. intros [= <-]. reflexivity. }
  set (gs := streams_of two_streams) in *. clearbody gs. destruct (trace_of two_streams) as [|[i [X e x]] t1]; [done|]. cbn [last_send tail] in *. destruct (sent_request e) as [q|] eqn:Es; [|done]. cbn in Hq |- *.
  destruct (streams_isolated plain_handler client_session plain_conn (str "93.184.216.34:80") (str "good.example") (fun _ _ _ => True)
              gs [] i X e x t1 Hr) as (st & Hi & _ & Hv).
  specialize (Hq i eq_refl). rewrite Hi in Hq. injection Hq as <-. by apply Hv.
Defined.
End Sample.
