(* ===== verification/Upstream.v ===== *)
(** * Upstream connections (internal/proxy/upstream.go, roundtrip.go)

    The dialer and the two round trippers at the level of connections: which are
    open, who owns them, which carry a read deadline, and what was written to them.
    What the network answers is given by the moment of the question. *)

From S2P Require Import Prelude GoStrings Netip Json Encoding Schema Matcher Compile HostIndex RuleSet.
From S2P Require Import Headers HttpError CacheControl Outcall Authority ClientIP Effects Proxy Http1 Acceptors Instruments.

Open Scope Z_scope.

(** ** The network *)

(** The answers, by the clock: of connecting, of a TLS handshake (with the protocol it
    agreed on), of the HTTP/2 preface, of writing a request (the bytes that got out, and
    the error), of the bounded header read, of reading a response; whether an HTTP/2
    connection takes a request, what its round trip gives and whether its timer fired. *)
Record peers : Type := {
  pe_connect : nat -> option goerr;
  pe_handshake : nat -> goerr + bytes;
  pe_preface : nat -> option goerr;
  pe_write : nat -> Z * option goerr;
  pe_head : nat -> option goerr;
  pe_response : nat -> goerr + HttpResponse;
  pe_canTake : nat -> bool;
  pe_h2 : nat -> goerr + HttpResponse;
  pe_fired : nat -> bool;
  pe_elapsed : nat -> Z }.

(** The connections by number: those that are open, those left to drain in the
    background, those with a read deadline; what was written, and measured. *)
Record net : Type := {
  n_clock : nat; n_next : nat;
  n_open : gset nat; n_draining : gset nat; n_armed : gset nat;
  n_sent : list (nat * Z); n_metrics : Metrics }.

Definition tick (s : net) : net :=
  {| n_clock := S (n_clock s); n_next := n_next s; n_open := n_open s; n_draining := n_draining s; n_armed := n_armed s;
     n_sent := n_sent s; n_metrics := n_metrics s |}.

Definition opened_conn (s : net) : net :=
  {| n_clock := n_clock s; n_next := S (n_next s); n_open := {[ n_next s ]} ∪ n_open s; n_draining := n_draining s; n_armed := n_armed s;
     n_sent := n_sent s; n_metrics := n_metrics s |}.

Definition close_conn (c : nat) (s : net) : net :=
  {| n_clock := n_clock s; n_next := n_next s; n_open := n_open s ∖ {[ c ]}; n_draining := n_draining s; n_armed := n_armed s ∖ {[ c ]};
     n_sent := n_sent s; n_metrics := n_metrics s |}.

(** Left to finish its streams and closed in the background. *)
Definition drain_conn (c : nat) (s : net) : net :=
  {| n_clock := n_clock s; n_next := n_next s; n_open := n_open s ∖ {[ c ]}; n_draining := {[ c ]} ∪ n_draining s; n_armed := n_armed s;
     n_sent := n_sent s; n_metrics := n_metrics s |}.

Definition set_armed (a : gset nat) (s : net) : net :=
  {| n_clock := n_clock s; n_next := n_next s; n_open := n_open s; n_draining := n_draining s; n_armed := a;
     n_sent := n_sent s; n_metrics := n_metrics s |}.

Definition sent_on (c : nat) (n : Z) (s : net) : net :=
  {| n_clock := n_clock s; n_next := n_next s; n_open := n_open s; n_draining := n_draining s; n_armed := n_armed s;
     n_sent := (n_sent s ++ [(c, n)])%list; n_metrics := n_metrics s |}.

Definition measured_by (f : Metrics -> Metrics) (s : net) : net :=
  {| n_clock := n_clock s; n_next := n_next s; n_open := n_open s; n_draining := n_draining s; n_armed := n_armed s;
     n_sent := n_sent s; n_metrics := f (n_metrics s) |}.

(** ** Dialling *)

Section Dialer.
Context (env : peers).

(** [withRetries], with the state its attempts thread. *)
Fixpoint retry_from {S T : Type} (tries : nat) (lastErr : goerr) (attempt : S -> (goerr + T) * S) (s : S) : (goerr + T) * S :=
  match tries with
  | O => (inl lastErr, s)
  | S tries =>
      match attempt s with
      | (inr v, s) => (inr v, s)
      | (inl e, s) => retry_from tries e attempt s
      end
  end.

Definition withRetriesIn {S T : Type} (tries : Z) (attempt : S -> (goerr + T) * S) (s : S) : (goerr + T) * S :=
  if tries <=? 0 then (inl plain_error, s) else retry_from (Z.to_nat tries) plain_error attempt s.

(** [net.Dialer.DialContext]. *)
Definition DialContext (s : net) : (goerr + nat) * net :=
  match pe_connect env (n_clock s) with
  | Some e => (inl e, tick s)
  | None => (inr (n_next s), tick (opened_conn s))
  end.

(** One attempt of [dialTLS]: a failed handshake closes the connection. *)
Definition dial_tls_once (s : net) : (goerr + (nat * bytes)) * net :=
  match DialContext s with
  | (inl e, s) => (inl e, s)
  | (inr c, s) =>
      let d := pe_elapsed env (n_clock s) in
      match pe_handshake env (n_clock s) with
      | inl e => (inl e, tick (close_conn c (measured_by (fun m => m_TLSHandshake m (str "upstream") (str "tls") d) s)))
      | inr alpn => (inr (c, alpn), tick (measured_by (fun m => m_TLSHandshake m (str "upstream") (str "ok") d) s))
      end
  end.

Definition negotiatedProto (alpn : bytes) : bytes := if bool_decide (alpn = str "h2") then str "h2" else str "h1".

Definition error_of {T} (r : goerr + T) : option goerr := match r with inl e => Some e | inr _ => None end.

(** [dialTLS], and [Dial]. *)
Definition dialTLS (tries : Z) (s : net) : (goerr + (nat * bytes)) * net :=
  let start := n_clock s in
  let '(r, s) := withRetriesIn tries dial_tls_once s in
  let proto := match r with inr (_, alpn) => negotiatedProto alpn | inl _ => str "unknown" end in
  (r, measured_by (fun m => m_UpstreamDial m proto (dialResultLabel (error_of r)) (pe_elapsed env start)) s).

Definition netDialer_Dial (tries : Z) (s : net) : (goerr + nat) * net :=
  let start := n_clock s in
  let '(r, s) := withRetriesIn tries DialContext s in
  (r, measured_by (fun m => m_UpstreamDial m (str "h1") (dialResultLabel (error_of r)) (pe_elapsed env start)) s).

(** ** HTTP/1.1 *)

Record h1RoundTripper : Type := { rt_conn : nat; rt_redial : redial; rt_readTimeout : Z }.

Definition newH1RoundTripper (conn : nat) (readTimeout : Z) (r : redial) : h1RoundTripper :=
  {| rt_conn := conn; rt_redial := r; rt_readTimeout := readTimeout |}.

(** [roundTripOnce]: the read deadline is set only between the request and the response's
    header; the flag says that nothing was written. *)
Definition roundTripOnce (readTimeout : Z) (c : nat) (s : net) : ((goerr * bool) + HttpResponse) * net :=
  let '(n, writeErr) := pe_write env (n_clock s) in
  let s := tick (measured_by (fun m => m_BytesStreamed m (str "up") n) (sent_on c n s)) in
  match writeErr with
  | Some e => (inl (e, n =? 0), s)
  | None =>
      let start := n_clock s in
      let s := if 0 <? readTimeout then set_armed ({[ c ]} ∪ n_armed s) s else s in
      let disarm s := if 0 <? readTimeout then set_armed (n_armed s ∖ {[ c ]}) s else s in
      match pe_head env (n_clock s) with
      | Some e => (inl (e, false), tick (disarm s))
      | None =>
          match pe_response env (n_clock s) with
          | inl e => (inl (e, false), tick (disarm s))
          | inr resp => (inr resp, tick (measured_by (fun m => m_UpstreamTTFB m (str "h1") (pe_elapsed env start)) (disarm s)))
          end
      end
  end.

(** The [redial] function a round tripper was given. *)
Definition redial_conn (tries : Z) (r : redial) (s : net) : (goerr + nat) * net :=
  match r with
  | NoRedial => (inl plain_error, s)
  | RedialPlain _ => netDialer_Dial tries s
  | RedialTLS _ _ => match dialTLS tries s with (inl e, s) => (inl e, s) | (inr (c, _), s) => (inr c, s) end
  end.

(** [h1RoundTripper.RoundTrip]. *)
Definition h1_RoundTrip (tries : Z) (rt : h1RoundTripper) (q : HttpRequest) (s : net) : (goerr + HttpResponse) * h1RoundTripper * net :=
  match roundTripOnce (rt_readTimeout rt) (rt_conn rt) s with
  | (inr resp, s) => (inr resp, rt, s)
  | (inl (err, nothingWritten), s) =>
      let giveUp := match rt_redial rt with NoRedial => true | _ => false end || e_tooLarge err
                    || (negb nothingWritten && negb (isIdempotentMethod (q_Method q))) in
      if giveUp then (inl err, rt, s)
      else
        match redial_conn tries (rt_redial rt) s with
        | (inl _, s) => (inl err, rt, s)
        | (inr c, s) =>
            match roundTripOnce (rt_readTimeout rt) c s with
            | (inl _, s) => (inl err, rt, close_conn c s)
            | (inr resp, s) =>
                (inr resp, {| rt_conn := c; rt_redial := rt_redial rt; rt_readTimeout := rt_readTimeout rt |}, close_conn (rt_conn rt) s)
            end
        end
  end.

Definition h1_Close (rt : h1RoundTripper) (s : net) : net := close_conn (rt_conn rt) s.

(** ** HTTP/2 *)

(** [rt.cc] and [rt.upConn] are set together. *)
Record h2RoundTripper : Type := { r2_conn : option nat; r2_readTimeout : Z; r2_connectTries : Z }.

Definition seed (rt : h2RoundTripper) (c : nat) : h2RoundTripper :=
  {| r2_conn := Some c; r2_readTimeout := r2_readTimeout rt; r2_connectTries := r2_connectTries rt |}.

(** One attempt of [newUpstreamH2ClientConn], over the connection at hand. *)
Definition h2_attempt (dialTries : Z) (st : option nat * net) : (goerr + nat) * (option nat * net) :=
  let '(have, s) := st in
  match (match have with Some c => (inr c, s) | None => match dialTLS dialTries s with (inl e, s) => (inl e, s) | (inr (c, _), s) => (inr c, s) end end) with
  | (inl e, s) => (inl e, (None, s))
  | (inr c, s) =>
      match pe_preface env (n_clock s) with
      | Some e => (inl e, (None, tick (close_conn c s)))
      | None => (inr c, (Some c, tick s))
      end
  end.

Definition new_h2_conn (dialTries connectTries : Z) (first : option nat) (s : net) : (goerr + nat) * net :=
  let '(r, (_, s)) := withRetriesIn connectTries (h2_attempt dialTries) (first, s) in (r, s).

(** [currentConn], with whether the connection was reused. *)
Definition currentConn (dialTries : Z) (rt : h2RoundTripper) (s : net) : (goerr + (nat * bool)) * h2RoundTripper * net :=
  let set c := {| r2_conn := c; r2_readTimeout := r2_readTimeout rt; r2_connectTries := r2_connectTries rt |} in
  match r2_conn rt, pe_canTake env (n_clock s) with
  | Some c, true => (inr (c, true), rt, tick s)
  | have, _ =>
      let s := tick (match have with Some c => drain_conn c s | None => s end) in
      match new_h2_conn dialTries (r2_connectTries rt) None s with
      | (inl e, s) => (inl e, set None, s)
      | (inr c, s) => (inr (c, false), set (Some c), s)
      end
  end.

Definition deadline_exceeded : goerr :=
  {| e_DNS := false; e_netTimeout := true; e_ctxDeadline := true; e_osDeadline := false; e_EOF := false; e_tooLarge := false; e_empty := false |}.

(** [h2RoundTripper.RoundTrip]: a timer that fired makes it a timeout whatever arrived. *)
Definition h2_RoundTrip (dialTries : Z) (rt : h2RoundTripper) (s : net) : (goerr + HttpResponse) * h2RoundTripper * net :=
  match currentConn dialTries rt s with
  | (inl e, rt, s) => (inl e, rt, s)
  | (inr (c, _), rt, s) =>
      let r := pe_h2 env (n_clock s) in
      let s' := match r with inr _ => measured_by (fun m => m_UpstreamTTFB m (str "h2") (pe_elapsed env (n_clock s))) s | inl _ => s end in
      ((if (0 <? r2_readTimeout rt) && pe_fired env (n_clock s) then inl deadline_exceeded else r), rt, tick s')
  end.

Definition h2_Close (rt : h2RoundTripper) (s : net) : net := match r2_conn rt with Some c => close_conn c s | None => s end.

(** [H1Fallback]: a connection of its own, which is not replaced. *)
Definition H1Fallback (dialTries : Z) (rt : h2RoundTripper) (s : net) : (goerr + h1RoundTripper) * net :=
  match dialTLS dialTries s with
  | (inl e, s) => (inl e, s)
  | (inr (c, _), s) => (inr (newH1RoundTripper c (r2_readTimeout rt) NoRedial), s)
  end.

(** The requests of one client connection, in turn. *)
Fixpoint h1_session (tries : Z) (rt : h1RoundTripper) (qs : list HttpRequest) (s : net) : list (goerr + HttpResponse) * h1RoundTripper * net :=
  match qs with
  | [] => ([], rt, s)
  | q :: qs =>
      let '(r, rt, s) := h1_RoundTrip tries rt q s in
      let '(rs, rt, s) := h1_session tries rt qs s in (r :: rs, rt, s)
  end.

Fixpoint h2_session (dialTries : Z) (rt : h2RoundTripper) (n : nat) (s : net) : list (goerr + HttpResponse) * h2RoundTripper * net :=
  match n with
  | O => ([], rt, s)
  | S n =>
      let '(r, rt, s) := h2_RoundTrip dialTries rt s in
      let '(rs, rt, s) := h2_session dialTries rt n s in (r :: rs, rt, s)
  end.

End Dialer.

(** ** Ownership *)

(** Numbers are given out once, and only open connections have deadlines. *)
Record net_wf (s : net) : Prop := {
  wf_open c : c ∈ n_open s -> (c < n_next s)%nat;
  wf_draining c : c ∈ n_draining s -> (c < n_next s)%nat;
  wf_armed c : c ∈ n_armed s -> c ∈ n_open s }.

(** The same connections as before. *)
Record same_conns (s s' : net) : Prop := {
  sc_open : n_open s' = n_open s; sc_draining : n_draining s' = n_draining s; sc_armed : n_armed s' = n_armed s;
  sc_next : (n_next s <= n_next s')%nat }.

(** One connection more, which is a new one. *)
Record one_more (s : net) (c : nat) (s' : net) : Prop := {
  om_open : n_open s' = {[ c ]} ∪ n_open s; om_draining : n_draining s' = n_draining s; om_armed : n_armed s' = n_armed s;
  om_new : (n_next s <= c < n_next s')%nat }.

#[export] Instance same_conns_preorder : PreOrder same_conns.
Proof. split; [done|]. intros s1 s2 s3 [] []. split; (congruence || lia). Qed.

Lemma same_conns_wf s s' : same_conns s s' -> net_wf s -> net_wf s'.
Proof. intros [Ho Hd Ha Hn] [W1 W2 W3]. split; intros c; rewrite ?Ho, ?Hd, ?Ha; intros Hc; [apply W1 in Hc; lia|apply W2 in Hc; lia|auto]. Qed.

Lemma one_more_wf s c s' : one_more s c s' -> net_wf s -> net_wf s'.
Proof.
  intros [Ho Hd Ha Hn] [W1 W2 W3]. split; intros x; rewrite ?Ho, ?Hd, ?Ha.
  - intros [->%elem_of_singleton|Hx%W1]%elem_of_union; lia.
  - intros Hx%W2. lia.
  - intros Hx%W3. set_solver.
Qed.

Lemma same_then_more s s1 c s2 : same_conns s s1 -> one_more s1 c s2 -> one_more s c s2.
Proof. intros [] []. split; (congruence || lia). Qed.

Lemma more_then_same s c s1 s2 : one_more s c s1 -> same_conns s1 s2 -> one_more s c s2.
Proof. intros [] []. split; (congruence || lia). Qed.

(** Closing the new connection leaves those there were. *)
Lemma more_then_closed s c s1 s2 : net_wf s -> one_more s c s1 -> same_conns s1 s2 -> same_conns s (close_conn c s2).
Proof.
  intros W [Ho Hd Ha Hn] [Ho' Hd' Ha' Hn']. assert (c ∉ n_open s) as Hc by (intros ?%(wf_open _ W); lia).
  assert (c ∉ n_armed s) by (intros ?%(wf_armed _ W); done).
  split; cbn; rewrite ?Ho', ?Hd', ?Ha', ?Ho, ?Hd, ?Ha; [set_solver|done|set_solver|lia].
Qed.

Lemma tick_same s : same_conns s (tick s).
Proof. done. Qed.

Lemma measured_same f s : same_conns s (measured_by f s).
Proof. done. Qed.

#[export] Hint Resolve tick_same measured_same : core.

Section Ownership.
Context (env : peers).

(** A loop of attempts, each of which fails with nothing changed or succeeds. *)
Lemma retry_from_spec {S T} (I : S -> Prop) (R : S -> S -> Prop) (Q : S -> T -> S -> Prop) (attempt : S -> (goerr + T) * S) :
  (forall s, R s s) -> (forall s1 s2 s3, R s1 s2 -> R s2 s3 -> R s1 s3) -> (forall s1 s2 v s3, R s1 s2 -> Q s2 v s3 -> Q s1 v s3) ->
  (forall s s', I s -> R s s' -> I s') ->
  (forall s, I s -> match attempt s with (inl _, s') => R s s' | (inr v, s') => Q s v s' end) ->
  forall tries e s, I s -> match retry_from tries e attempt s with (inl _, s') => R s s' | (inr v, s') => Q s v s' end.
Proof.
  intros Hrefl Htrans Hq HI Hstep tries. induction tries as [|tries IH]; intros e s Hs; [apply Hrefl|]. cbn [retry_from].
  specialize (Hstep s Hs) as H. destruct (attempt s) as [[e'|v] s1]; [|done].
  specialize (IH e' s1 (HI _ _ Hs H)). destruct (retry_from tries e' attempt s1) as [[e''|v] s2]; eauto.
Qed.

Definition dial_outcome {T} (conn : T -> nat) (s : net) (x : (goerr + T) * net) : Prop :=
  match x with (inl _, s') => same_conns s s' | (inr v, s') => one_more s (conn v) s' end.

Lemma withRetriesIn_dial {T} (conn : T -> nat) tries (attempt : net -> (goerr + T) * net) s :
  net_wf s -> (forall s, net_wf s -> dial_outcome conn s (attempt s)) -> dial_outcome conn s (withRetriesIn tries attempt s).
Proof.
  intros W H. unfold withRetriesIn. destruct (tries <=? 0); [done|].
  apply (retry_from_spec net_wf same_conns (fun s v s' => one_more s (conn v) s')); try done.
  - intros s1 s2 s3. apply transitivity.
  - intros s1 s2 v s3. apply same_then_more.
  - intros s1 s2 Hw Hs. by eapply same_conns_wf.
Qed.

Lemma DialContext_outcome s : net_wf s -> dial_outcome id s (DialContext env s).
Proof. intros W. unfold DialContext. destruct (pe_connect env _); [done|]. split; cbn; [done..|unfold id; lia]. Qed.

Lemma dial_tls_once_outcome s : net_wf s -> dial_outcome fst s (dial_tls_once env s).
Proof.
  intros W. unfold dial_tls_once. pose proof (DialContext_outcome s W) as H. destruct (DialContext env s) as [[e|c] s1]; [done|]. cbn in H.
  destruct (pe_handshake env _) as [e|alpn]; cbn [dial_outcome].
  - apply (more_then_closed s c s1 (tick (measured_by _ s1))); done.
  - by eapply more_then_same.
Qed.

Lemma dialTLS_outcome tries s : net_wf s -> dial_outcome fst s (dialTLS env tries s).
Proof.
  intros W. unfold dialTLS. pose proof (withRetriesIn_dial fst tries _ s W dial_tls_once_outcome) as H.
  destruct (withRetriesIn tries (dial_tls_once env) s) as [[e|v] s1]; cbn in *; [by etransitivity; [exact H|]|by eapply more_then_same].
Qed.

Lemma Dial_outcome tries s : net_wf s -> dial_outcome id s (netDialer_Dial env tries s).
Proof.
  intros W. unfold netDialer_Dial. pose proof (withRetriesIn_dial id tries _ s W DialContext_outcome) as H.
  destruct (withRetriesIn tries (DialContext env) s) as [[e|v] s1]; cbn in *; [by etransitivity; [exact H|]|by eapply more_then_same].
Qed.

Lemma redial_conn_outcome tries r s : net_wf s -> dial_outcome id s (redial_conn env tries r s).
Proof.
  intros W. destruct r; cbn [redial_conn]; [done|by apply Dial_outcome|].
  pose proof (dialTLS_outcome tries s W) as H. by destruct (dialTLS env tries s) as [[e|[c alpn]] s1].
Qed.

(** A round trip changes no connection, and leaves no deadline behind. *)
Lemma roundTripOnce_same readTimeout c s : c ∉ n_armed s -> same_conns s (snd (roundTripOnce env readTimeout c s)).
Proof.
  intros Hc. unfold roundTripOnce. destruct (pe_write env _) as [n [e|]]; [done|]. cbv zeta.
  assert (({[c]} ∪ n_armed s) ∖ {[c]} = n_armed s) as Ha by set_solver.
  destruct (0 <? readTimeout); cbn [n_clock set_armed]; repeat case_match; split; cbn; done.
Qed.

(** The connection a round tripper owns is replaced, at most. *)
Record handed_over (s : net) (c c' : nat) (s' : net) : Prop := {
  ho_open : n_open s' = {[ c' ]} ∪ n_open s ∖ {[ c ]}; ho_draining : n_draining s' = n_draining s;
  ho_armed : n_armed s' = n_armed s; ho_next : (n_next s <= n_next s')%nat; ho_new : c' = c \/ (n_next s <= c' < n_next s')%nat }.

Lemma same_handed_over s c s' : c ∈ n_open s -> same_conns s s' -> handed_over s c c s'.
Proof. intros Hc [Ho Hd Ha Hn]. split; try done; [|by left]. rewrite Ho. apply set_eq. intros x. destruct (decide (x = c)); set_solver. Qed.

(** [h1RoundTripper.RoundTrip] owns one connection before and after, sends a request
    again only if that is safe, and reports the first failure. *)
Record h1_spec (rt : h1RoundTripper) (q : HttpRequest) (s : net) (x : (goerr + HttpResponse) * h1RoundTripper * net) : Prop := {
  h1_owns : handed_over s (rt_conn rt) (rt_conn (snd (fst x))) (snd x);
  h1_keeps : rt_redial (snd (fst x)) = rt_redial rt /\ rt_readTimeout (snd (fst x)) = rt_readTimeout rt;
  h1_writes : exists n l, n_sent (snd x) = (n_sent s ++ (rt_conn rt, n) :: l)%list
    /\ (l = [] \/ (exists c m, l = [(c, m)]) /\ rt_redial rt <> NoRedial /\ (n = 0 \/ isIdempotentMethod (q_Method q) = true)) }.

Lemma roundTripOnce_sent readTimeout c s :
  exists n, n_sent (snd (roundTripOnce env readTimeout c s)) = (n_sent s ++ [(c, n)])%list
  /\ forall e, fst (roundTripOnce env readTimeout c s) = inl (e, true) -> n = 0.
Proof.
  unfold roundTripOnce. destruct (pe_write env _) as [n [e|]].
  - exists n. split; [done|]. intros e' [= _ H]. by apply Z.eqb_eq.
  - exists n. cbv zeta. destruct (0 <? readTimeout); cbn [n_clock set_armed]; repeat case_match; done.
Qed.

Lemma withRetriesIn_sent {T} tries (attempt : net -> (goerr + T) * net) s :
  (forall s, n_sent (snd (attempt s)) = n_sent s) -> n_sent (snd (withRetriesIn tries attempt s)) = n_sent s.
Proof.
  intros H. unfold withRetriesIn. destruct (tries <=? 0); [done|]. generalize plain_error. revert s.
  induction (Z.to_nat tries) as [|n IH]; intros s e; [done|]. cbn [retry_from].
  specialize (H s) as Hs. destruct (attempt s) as [[e'|v] s1]; cbn in *; [by rewrite IH|done].
Qed.

Lemma DialContext_sent s : n_sent (snd (DialContext env s)) = n_sent s.
Proof. unfold DialContext. by destruct (pe_connect env _). Qed.

Lemma dial_tls_once_sent s : n_sent (snd (dial_tls_once env s)) = n_sent s.
Proof.
  unfold dial_tls_once. pose proof (DialContext_sent s) as H. destruct (DialContext env s) as [[e|c] s1]; [done|]. by destruct (pe_handshake env _).
Qed.

Lemma redial_conn_sent tries r s : n_sent (snd (redial_conn env tries r s)) = n_sent s.
Proof.
  destruct r; cbn [redial_conn]; [done|..].
  - unfold netDialer_Dial. pose proof (withRetriesIn_sent tries _ s DialContext_sent) as H. by destruct (withRetriesIn _ _ s).
  - unfold dialTLS. pose proof (withRetriesIn_sent tries _ s dial_tls_once_sent) as H. by destruct (withRetriesIn _ _ s) as [[e|[c a]] s1].
Qed.

Lemma h1_RoundTrip_spec tries rt q s :
  net_wf s -> rt_conn rt ∈ n_open s -> rt_conn rt ∉ n_armed s -> h1_spec rt q s (h1_RoundTrip env tries rt q s).
Proof.
  intros W Hc Ha. unfold h1_RoundTrip. pose proof (roundTripOnce_same (rt_readTimeout rt) _ s Ha) as H1.
  destruct (roundTripOnce_sent (rt_readTimeout rt) (rt_conn rt) s) as (n & Hn & Hz).
  destruct (roundTripOnce env (rt_readTimeout rt) (rt_conn rt) s) as [[[err nothing]|resp] s1]; cbn [fst snd] in *;
    [|split; cbn; [by apply same_handed_over|done|exists n, []; split; [done|by left]]].
  destruct (_ || (negb nothing && _)) eqn:Hgive; [split; cbn; [by apply same_handed_over|done|exists n, []; split; [done|by left]]|].
  apply orb_false_iff in Hgive as [[Hr _]%orb_false_iff Hi]. pose proof (same_conns_wf _ _ H1 W) as W1.
  pose proof (redial_conn_outcome tries (rt_redial rt) s1 W1) as H2. pose proof (redial_conn_sent tries (rt_redial rt) s1) as Hs2.
  destruct (redial_conn env tries (rt_redial rt) s1) as [[e|c] s2]; cbn in H2, Hs2.
  { split; cbn; [apply same_handed_over; [done|by etransitivity]|done|exists n, []; split; [by rewrite Hs2|by left]]. }
  assert (c ∉ n_armed s2) as Hca by (rewrite (om_armed _ _ _ H2); intros ?%(wf_armed _ W1)%(wf_open _ W1); pose proof (om_new _ _ _ H2); unfold id in *; lia).
  pose proof (roundTripOnce_same (rt_readTimeout rt) c s2 Hca) as H3. destruct (roundTripOnce_sent (rt_readTimeout rt) c s2) as (m & Hm & _).
  assert (n = 0 \/ isIdempotentMethod (q_Method q) = true) as Hsafe
    by (destruct nothing; [left; by eapply Hz|right; by destruct (isIdempotentMethod _)]).
  assert (rt_redial rt <> NoRedial) as Hno by (intros E; by rewrite E in Hr).
  assert (n_sent (snd (roundTripOnce env (rt_readTimeout rt) c s2)) = (n_sent s ++ (rt_conn rt, n) :: [(c, m)])%list) as Hsent
    by (by rewrite Hm, Hs2, Hn, <- app_assoc).
  destruct (roundTripOnce env (rt_readTimeout rt) c s2) as [[e|resp] s3]; cbn [fst snd] in *.
  - split; cbn; [|done|exists n, [(c, m)]; split; [done|right; naive_solver]].
    apply same_handed_over; [done|]. etransitivity; [exact H1|]. by eapply more_then_closed.
  - split; cbn; [|done|exists n, [(c, m)]; split; [done|right; naive_solver]].
    destruct H1 as [Ho1 Hd1 Ha1 Hn1], H2 as [Ho2 Hd2 Ha2 Hn2], H3 as [Ho3 Hd3 Ha3 Hn3]. unfold id in *.
    assert (c <> rt_conn rt) by (intros ->; apply (wf_open _ W) in Hc; lia).
    split; cbn; [rewrite Ho3, Ho2, Ho1; set_solver|congruence|rewrite Ha3, Ha2, Ha1; set_solver|lia|right; lia].
Qed.

(** What a round tripper relies on. *)
Record owns (s : net) (c : nat) : Prop := { ow_wf : net_wf s; ow_open : c ∈ n_open s; ow_unarmed : c ∉ n_armed s }.

Lemma handed_over_owns s c c' s' : owns s c -> handed_over s c c' s' -> owns s' c'.
Proof.
  intros [[W1 W2 W3] Hc Ha] [Ho Hd Harm Hn Hnew]. split.
  - split; intros x; rewrite ?Ho, ?Hd, ?Harm.
    + intros [->%elem_of_singleton|[Hx%W1 _]%elem_of_difference]%elem_of_union; [|lia]. destruct Hnew as [->|?]; [apply W1 in Hc; lia|lia].
    + intros Hx%W2. lia.
    + intros Hx. specialize (W3 _ Hx). assert (x <> c) by (by intros ->). set_solver.
  - rewrite Ho. set_solver.
  - rewrite Harm. intros Hx. destruct Hnew as [->|Hnew]; [done|]. apply W3, W1 in Hx. lia.
Qed.

Lemma handed_over_trans s c c1 s1 c2 s2 : handed_over s c c1 s1 -> handed_over s1 c1 c2 s2 -> owns s c -> handed_over s c c2 s2.
Proof.
  intros [Ho Hd Ha Hn Hnew] [Ho' Hd' Ha' Hn' Hnew'] [[W1 _ _] Hc _]. split; try congruence; [|lia|destruct Hnew, Hnew'; subst; auto; right; lia].
  rewrite Ho', Ho. destruct Hnew as [->|Hnew]; [set_solver|]. assert (c1 ∉ n_open s) by (intros ?%W1; lia). set_solver.
Qed.

(** How often the request reached the wire. *)
Definition on_wire (q : HttpRequest) (writes : list (nat * Z)) : Prop :=
  (1 <= length writes <= 2)%nat /\ (isIdempotentMethod (q_Method q) = false -> length (List.filter (fun w => negb (snd w =? 0)%Z) writes) <= 1)%nat.

Lemma h1_session_spec tries qs : forall rt s, owns s (rt_conn rt) ->
  let x := h1_session env tries rt qs s in
  handed_over s (rt_conn rt) (rt_conn (snd (fst x))) (snd x) /\ length (fst (fst x)) = length qs
  /\ exists ls, n_sent (snd x) = (n_sent s ++ concat ls)%list /\ Forall2 on_wire qs ls.
Proof.
  induction qs as [|q qs IH]; intros rt s Hown; cbn [h1_session].
  { cbn. split; [apply same_handed_over; [exact (ow_open _ _ Hown)|reflexivity]|]. split; [done|]. exists []. by rewrite app_nil_r. }
  destruct (h1_RoundTrip_spec tries rt q s (ow_wf _ _ Hown) (ow_open _ _ Hown) (ow_unarmed _ _ Hown)) as [Hh _ (n & l & Hs & Hl)].
  destruct (h1_RoundTrip env tries rt q s) as [[r rt1] s1]. cbn [fst snd] in *. pose proof (handed_over_owns _ _ _ _ Hown Hh) as Hown1.
  specialize (IH rt1 s1 Hown1). destruct (h1_session env tries rt1 qs s1) as [[rs rt2] s2]. cbn [fst snd] in *.
  destruct IH as (Hh2 & Hlen & ls & Hs2 & Hf). split; [by eapply handed_over_trans|]. split; [cbn; lia|].
  exists (((rt_conn rt, n) :: l) :: ls). split; [by rewrite Hs2, Hs, <- app_assoc|]. constructor; [|done].
  destruct Hl as [->|((c & m & ->) & _ & Hsafe)]; split; cbn [length List.filter snd]; try lia; intros Hi.
  - destruct (negb (n =? 0)); cbn; lia.
  - destruct Hsafe as [->|Hsafe]; [cbn; destruct (negb (m =? 0)); cbn; lia|by rewrite Hi in Hsafe].
Qed.
End Ownership.

(** C18: a client connection over HTTP/1.1 never has more than one upstream connection of
    its own, however often the upstream drops it and whatever fails in between: none is
    leaked, none carries a read deadline into a response's body, and once the round
    tripper is closed the open connections are those from before.  Each request is
    answered, is written once or twice, and reaches the wire twice only if its method is
    idempotent. *)
Theorem upstream_connections_owned env tries r readTimeout qs s c s1 :
  net_wf s -> redial_conn env tries r s = (inr c, s1) ->
  let '(rs, rt, s2) := h1_session env tries (newH1RoundTripper c readTimeout r) qs s1 in
  length rs = length qs /\ n_open s2 = {[ rt_conn rt ]} ∪ n_open s /\ (rt_conn rt ∉ n_open s)
  /\ n_armed s2 = n_armed s /\ n_draining s2 = n_draining s /\ n_open (h1_Close rt s2) = n_open s
  /\ exists ls, n_sent s2 = (n_sent s ++ concat ls)%list /\ Forall2 on_wire qs ls.
Proof.
  intros W Hd. pose proof (redial_conn_outcome env tries r s W) as H. pose proof (redial_conn_sent env tries r s) as Hs. rewrite Hd in H, Hs. cbn in H, Hs.
  pose proof (one_more_wf _ _ _ H W) as W1. destruct H as [Ho Hdr Ha Hn]. unfold id in *.
  assert (forall x, x ∈ n_open s -> x <> c) as Hne by (intros x Hx ->; apply (wf_open _ W) in Hx; lia).
  assert (owns s1 c) as Hown by (split; [done|rewrite Ho; set_solver|rewrite Ha; intros Hx%(wf_armed _ W); by eapply Hne]).
  pose proof (h1_session_spec env tries qs (newH1RoundTripper c readTimeout r) s1 Hown) as Hx.
  destruct (h1_session env tries (newH1RoundTripper c readTimeout r) qs s1) as [[rs rt] s2]. cbn [fst snd newH1RoundTripper rt_conn] in Hx.
  destruct Hx as ([Ho2 Hd2 Ha2 Hn2 Hnew] & Hlen & ls & Hl & Hf).
  assert (n_open s2 = {[ rt_conn rt ]} ∪ n_open s) as Hopen by (rewrite Ho2, Ho; set_solver).
  assert (rt_conn rt ∉ n_open s) as Hfresh by (intros Hx; destruct Hnew as [E|?]; [by eapply Hne|apply (wf_open _ W) in Hx; lia]).
  split_and!; try done; try congruence.
  - cbn. rewrite Hopen. set_solver.
  - exists ls. split; [by rewrite Hl, Hs|done].
Qed.

(** *** HTTP/2 *)

Section OwnershipH2.
Context (env : peers).

Definition owned (rt : h2RoundTripper) : gset nat := match r2_conn rt with Some c => {[ c ]} | None => ∅ end.

Lemma h2_attempt_outcome dialTries (st : option nat * net) :
  net_wf (snd st) /\ fst st = None ->
  match h2_attempt env dialTries st with
  | (inl _, st') => same_conns (snd st) (snd st') /\ fst st' = None
  | (inr c, st') => one_more (snd st) c (snd st')
  end.
Proof.
  destruct st as [have s]. cbn [fst snd]. intros [W ->]. cbn [h2_attempt]. pose proof (dialTLS_outcome env dialTries s W) as H.
  destruct (dialTLS env dialTries s) as [[e|[c alpn]] s1]; [done|]. cbn in H. destruct (pe_preface env _) as [e|]; cbn [fst snd].
  - split; [|done]. etransitivity; [by apply (more_then_closed s c s1 s1)|done].
  - by eapply more_then_same.
Qed.

Lemma new_h2_conn_outcome dialTries connectTries s : net_wf s -> dial_outcome id s (new_h2_conn env dialTries connectTries None s).
Proof.
  intros W. unfold new_h2_conn, withRetriesIn. destruct (connectTries <=? 0); [done|].
  pose proof (retry_from_spec (fun st : option nat * net => net_wf (snd st) /\ fst st = None)
    (fun st st' => same_conns (snd st) (snd st') /\ (fst st = None -> fst st' = None)) (fun st c st' => one_more (snd st) c (snd st'))
    (h2_attempt env dialTries)) as H.
  specialize (H ltac:(done) ltac:(intros ??? [] []; split; [by etransitivity|auto]) ltac:(intros ???? [] ?; by eapply same_then_more)
    ltac:(intros ?? [] []; split; [by eapply same_conns_wf|auto])).
  specialize (H ltac:(intros st Hst; pose proof (h2_attempt_outcome dialTries st Hst) as Ho; destruct (h2_attempt env dialTries st) as [[e|c] st']; naive_solver)
    (Z.to_nat connectTries) plain_error (None, s) ltac:(done)).
  destruct (retry_from (Z.to_nat connectTries) plain_error (h2_attempt env dialTries) (None, s)) as [[e|c] [o s1]]; cbn in *; [apply H|exact H].
Qed.

(** The round tripper's connection is replaced, dropped or kept; a stale one drains. *)
Record handed_over2 (s : net) (o o' : gset nat) (s' : net) : Prop := {
  h2_open : n_open s' = o' ∪ n_open s ∖ o; h2_armed : n_armed s' = n_armed s;
  h2_next : (n_next s <= n_next s')%nat; h2_draining : n_draining s ⊆ n_draining s' /\ n_draining s' ⊆ n_draining s ∪ o;
  h2_new c : c ∈ o' -> c ∈ o \/ (n_next s <= c < n_next s')%nat }.

Record owns2 (s : net) (o : gset nat) : Prop := { o2_wf : net_wf s; o2_open : o ⊆ n_open s; o2_unarmed : o ## n_armed s }.

Lemma drained_wf s c : owns2 s {[ c ]} -> net_wf (drain_conn c s).
Proof.
  intros [[W1 W2 W3] Ho Hu]. split; cbn; intros x.
  - intros [Hx%W1 _]%elem_of_difference. lia.
  - intros [->%elem_of_singleton|Hx%W2]%elem_of_union; [apply W1; set_solver|lia].
  - intros Hx. assert (x <> c) by set_solver. specialize (W3 _ Hx). set_solver.
Qed.

Lemma currentConn_owned dialTries rt s :
  owns2 s (owned rt) ->
  let x := currentConn env dialTries rt s in
  handed_over2 s (owned rt) (owned (snd (fst x))) (snd x)
  /\ r2_readTimeout (snd (fst x)) = r2_readTimeout rt
  /\ match fst (fst x) with inr (c, reused) => r2_conn (snd (fst x)) = Some c | inl _ => r2_conn (snd (fst x)) = None end.
Proof.
  intros Hown. cbv zeta. unfold currentConn.
  set (base := match r2_conn rt with Some c => drain_conn c s | None => s end).
  assert (net_wf base /\ n_open base = n_open s ∖ owned rt /\ n_armed base = n_armed s /\ n_next base = n_next s
          /\ n_draining s ⊆ n_draining base /\ n_draining base ⊆ n_draining s ∪ owned rt) as (Wb & Hob & Hab & Hnb & Hdb1 & Hdb2).
  { unfold base, owned in *. destruct (r2_conn rt) as [c|]; cbn; [split_and!; try done; [by apply drained_wf|set_solver..]|].
    destruct Hown as [W _ _]. split_and!; try done; set_solver. }
  assert (forall r (x : (goerr + nat) * net), dial_outcome id (tick base) x ->
    r = match x with (inl e, s) => (inl e, {| r2_conn := None; r2_readTimeout := r2_readTimeout rt; r2_connectTries := r2_connectTries rt |}, s)
                   | (inr c, s) => (inr (c, false), {| r2_conn := Some c; r2_readTimeout := r2_readTimeout rt; r2_connectTries := r2_connectTries rt |}, s) end ->
    handed_over2 s (owned rt) (owned (snd (fst r))) (snd r) /\ r2_readTimeout (snd (fst r)) = r2_readTimeout rt
    /\ match fst (fst r) with inr (c, _) => r2_conn (snd (fst r)) = Some c | inl _ => r2_conn (snd (fst r)) = None end) as Hnew.
  { intros r [[e|c] s1] Hx ->; cbn in Hx |- *; (split; [|done]).
    - destruct Hx as [Ho Hd Ha Hn]. cbn in *. split; [rewrite Ho, Hob; set_solver|congruence|lia|rewrite Hd; done|set_solver].
    - destruct Hx as [Ho Hd Ha Hn]. unfold id in *. cbn in *. split; [rewrite Ho, Hob; set_solver|congruence|lia|rewrite Hd; done|].
      intros x ->%elem_of_singleton. right. lia. }
  pose proof (new_h2_conn_outcome dialTries (r2_connectTries rt) (tick base) (same_conns_wf _ _ (tick_same _) Wb)) as Hc.
  destruct (r2_conn rt) as [c|] eqn:Ec; [destruct (pe_canTake env (n_clock s))|]; [|by eapply Hnew..].
  cbn. split; [|done]. destruct Hown as [W Ho Hu]. unfold owned in *. rewrite Ec in *. split; cbn; [|done|lia|set_solver|auto].
  apply set_eq. intros x. destruct (decide (x = c)); set_solver.
Qed.

Lemma handed_over2_owns s o o' s' : owns2 s o -> handed_over2 s o o' s' -> owns2 s' o'.
Proof.
  intros [[W1 W2 W3] Ho Hu] [Ho' Ha Hn [Hd1 Hd2] Hnew]. split; [split|..].
  - intros x. rewrite Ho'. intros [Hx|[Hx%W1 _]%elem_of_difference]%elem_of_union; [|lia].
    destruct (Hnew x Hx) as [Hin|?]; [apply Ho, W1 in Hin; lia|lia].
  - intros x Hx%Hd2. apply elem_of_union in Hx as [Hx%W2|Hx]; [lia|]. apply Ho, W1 in Hx. lia.
  - intros x. rewrite Ha, Ho'. intros Hx. specialize (W3 _ Hx). set_solver.
  - rewrite Ho'. set_solver.
  - rewrite Ha. intros x Hx Hin. destruct (Hnew x Hx) as [?|?]; [by eapply Hu|]. apply W3, W1 in Hin. lia.
Qed.

(** Afterwards no more is open than what was open before and is not the round tripper's. *)
Lemma h2_session_owned dialTries n : forall rt s, owns2 s (owned rt) ->
  let x := h2_session env dialTries rt n s in
  n_open (h2_Close (snd (fst x)) (snd x)) = n_open s ∖ owned rt /\ n_armed (snd x) = n_armed s /\ length (fst (fst x)) = n
  /\ n_open (snd x) ⊆ owned (snd (fst x)) ∪ n_open s ∖ owned rt.
Proof.
  induction n as [|n IH]; intros rt s Hown; cbn [h2_session].
  { cbn. unfold h2_Close, owned in *. destruct (r2_conn rt) as [c|]; cbn; split_and!; try done; [|set_solver..]. intros x Hx. destruct (decide (x = c)); set_solver. }
  pose proof (currentConn_owned dialTries rt s Hown) as Hc. cbv zeta in Hc.
  assert (handed_over2 s (owned rt) (owned (snd (fst (h2_RoundTrip env dialTries rt s)))) (snd (h2_RoundTrip env dialTries rt s))) as Hh.
  { unfold h2_RoundTrip. destruct (currentConn env dialTries rt s) as [[[e|[c reused]] rt1] s1]; cbn [fst snd] in *; [apply Hc|].
    destruct Hc as [[H1 H2 H3 H4 H5] _]. by destruct (pe_h2 env _). }
  clear Hc. destruct (h2_RoundTrip env dialTries rt s) as [[r rt1] s1]. cbn [fst snd] in Hh.
  pose proof (handed_over2_owns _ _ _ _ Hown Hh) as Hown1. specialize (IH rt1 s1 Hown1).
  destruct (h2_session env dialTries rt1 n s1) as [[rs rt2] s2]. cbv zeta in IH. cbn [fst snd] in *. destruct IH as (H1 & H2 & H3 & H4).
  assert (n_open s1 ∖ owned rt1 = n_open s ∖ owned rt) as E.
  { rewrite (h2_open _ _ _ _ Hh). apply set_eq. intros x. pose proof (h2_new _ _ _ _ Hh x).
    destruct (decide (x ∈ owned rt1)) as [Hx|]; [|set_solver]. destruct (H Hx) as [?|Hn]; [set_solver|].
    assert (x ∉ n_open s) by (intros ?%(wf_open _ (o2_wf _ _ Hown)); lia). set_solver. }
  rewrite E in H1, H4. split_and!; [done|by rewrite H2, (h2_armed _ _ _ _ Hh)|cbn; lia|done].
Qed.
End OwnershipH2.

(** An HTTP/2 round tripper that was given one connection and is closed in the end leaves
    open what was open beside it; stale connections were handed to be drained. *)
Theorem upstream_h2_owned env dialTries n rt c s :
  net_wf s -> c ∈ n_open s -> c ∉ n_armed s ->
  let '(rs, rt', s') := h2_session env dialTries (seed rt c) n s in
  length rs = n /\ n_open (h2_Close rt' s') = n_open s ∖ {[ c ]} /\ n_armed s' = n_armed s.
Proof.
  intros W Hc Ha. assert (owns2 s (owned (seed rt c))) as Hown by (split; cbn; [done|set_solver..]).
  pose proof (h2_session_owned env dialTries n (seed rt c) s Hown) as H. destruct (h2_session env dialTries (seed rt c) n s) as [[rs rt'] s'].
  cbv zeta in H. cbn [fst snd] in H. destruct H as (H1 & H2 & H3 & _). by split_and!.
Qed.

(** *** The handlers' view *)

Section Refinement.
Context `{RE : RegexEngine} `{DG : Digests} `{UT : UnicodeTable} (net_env : peers) (dialTries : Z).

(** The environment a handler sees of the network: the first attempt on the connection at
    hand, a redial, and the second attempt on its connection. *)
Definition network (rt : h1RoundTripper) (s : net) (others : environment) : environment :=
  let s1 := snd (roundTripOnce net_env (rt_readTimeout rt) (rt_conn rt) s) in
  let dialled := redial_conn net_env dialTries (rt_redial rt) s1 in
  fun X h e =>
    match e in eff X return X with
    | SendOnce q =>
        match h with
        | [] => fst (roundTripOnce net_env (rt_readTimeout rt) (rt_conn rt) s)
        | _ => match dialled with
               | (inr c, s2) => fst (roundTripOnce net_env (rt_readTimeout rt) c s2)
               | (inl e, _) => inl (e, false)
               end
        end
    | Dial _ => error_of (fst dialled)
    | DialTLS _ _ _ => match fst dialled with inl e => inl e | inr _ => inr [] end
    | e => others _ h e
    end.

(** The handlers' [h1RoundTrip] returns what the round tripper over connections does. *)
Theorem h1_round_trip_refined rt q s others :
  snd (exec (network rt s others) [] (h1RoundTrip (rt_redial rt) q)) = Some (fst (fst (h1_RoundTrip net_env dialTries rt q s))).
Proof.
  unfold h1_RoundTrip. set (env := network rt s others).
  assert (env _ [] (SendOnce q) = fst (roundTripOnce net_env (rt_readTimeout rt) (rt_conn rt) s)) as N1 by done.
  destruct (roundTripOnce net_env (rt_readTimeout rt) (rt_conn rt) s) as [first s1] eqn:E1. cbn [fst] in N1.
  assert (forall h dst, env _ h (Dial dst) = error_of (fst (redial_conn net_env dialTries (rt_redial rt) s1))) as N2
    by (intros; unfold env, network; by rewrite E1).
  assert (forall h dst sni b, env _ h (DialTLS dst sni b) = match fst (redial_conn net_env dialTries (rt_redial rt) s1) with inl e => inl e | inr _ => inr [] end) as N3
    by (intros; unfold env, network; by rewrite E1).
  assert (forall x h, env _ (x :: h) (SendOnce q)
    = match redial_conn net_env dialTries (rt_redial rt) s1 with (inr c, s2) => fst (roundTripOnce net_env (rt_readTimeout rt) c s2) | (inl e, _) => inl (e, false) end) as N4
    by (intros; unfold env, network; by rewrite E1).
  clearbody env. unfold h1RoundTrip. cbn [mbind prog_bind perform pbind exec]. rewrite N1. destruct first as [[err nothing]|resp]; [|done].
  destruct (redial_conn net_env dialTries (rt_redial rt) s1) as [[e|c] s2] eqn:Ed; cbn [fst error_of] in *;
    destruct (rt_redial rt) as [|dst|dst sni]; cbn [orb]; try done; (destruct (e_tooLarge err || _); [done|]);
    cbn [redialUpstream mbind prog_bind perform pbind exec]; rewrite ?N2, ?N3; cbn [pbind exec]; rewrite ?N4; try done;
    by destruct (roundTripOnce net_env _ c s2) as [[[e ?]|resp] s3].
Qed.
End Refinement.

(** A handshake that fails is counted as a refused connection. *)
Theorem handshake_failure_counted_refused env s e :
  pe_connect env (n_clock s) = None -> pe_handshake env (S (n_clock s)) = inl e -> e_DNS e = false -> isTimeout e = false -> n_metrics s = Some [] ->
  n_metrics (snd (dialTLS env 1 s))
  = Some [Observe tlsHandshakeDuration (pe_elapsed env (S (n_clock s))) [label "leg" (str "upstream"); label "result" (str "tls")];
          Add upstreamDialsTotal 1 [label "result" (str "refused")];
          Observe upstreamDialDuration (pe_elapsed env (n_clock s)) [label "proto" (str "unknown"); label "result" (str "refused")]].
Proof.
  intros H1 H2 H3 H4 H5. unfold dialTLS, withRetriesIn. change (1 <=? 0) with false. cbv iota. change (Z.to_nat 1) with 1%nat. cbn [retry_from].
  unfold dial_tls_once, DialContext. rewrite H1. cbn [tick opened_conn n_clock]. rewrite H2.
  cbn [snd n_metrics measured_by tick close_conn opened_conn error_of]. rewrite H5. unfold dialResultLabel. rewrite H3, H4. reflexivity.
Qed.

(** *** An upstream that drops the first connection *)

Definition sample_response : HttpResponse :=
  {| p_Proto := str "HTTP/1.1"; p_Status := 200; p_Header := []; p_Body := []; p_ContentLength := 0; p_TransferEncoding := []; p_Close := false |}.

(** Connections are made; the first response read fails. *)
Definition dropping : peers :=
  {| pe_connect := fun _ => None; pe_handshake := fun _ => inr []; pe_preface := fun _ => None; pe_write := fun _ => (100, None);
     pe_head := fun _ => None; pe_response := fun t => if (t =? 2)%nat then inl plain_error else inr sample_response;
     pe_canTake := fun _ => true; pe_h2 := fun _ => inr sample_response; pe_fired := fun _ => false; pe_elapsed := fun _ => 0 |}.

Definition idle_net : net :=
  {| n_clock := 0; n_next := 0; n_open := ∅; n_draining := ∅; n_armed := ∅; n_sent := []; n_metrics := None |}.

Definition sample_get : HttpRequest :=
  {| q_Method := str "GET"; q_Scheme := []; q_URLHost := []; q_Path := str "/"; q_RequestURI := str "/"; q_URLString := str "/";
     q_Host := str "a.example"; q_Header := []; q_Close := false |}.

Lemma upstream_connections_owned_witness :
  let s1 := snd (redial_conn dropping 3 (RedialPlain (str "192.0.2.1:80")) idle_net) in
  let '(rs, rt, s2) := h1_session dropping 3 (newH1RoundTripper 0 60 (RedialPlain (str "192.0.2.1:80"))) [sample_get; sample_get] s1 in
  rs = [inr sample_response; inr sample_response] /\ rt_conn rt = 1%nat /\ n_open (h1_Close rt s2) = ∅.
Proof.
  cbv zeta. set (s1 := snd _). set (rt0 := newH1RoundTripper _ _ _).
  assert (redial_conn dropping 3 (RedialPlain (str "192.0.2.1:80")) idle_net = (inr 0%nat, s1)) as Hd by (vm_compute; reflexivity).
  assert (net_wf idle_net) as W by (split; intros c []%not_elem_of_empty).
  pose proof (upstream_connections_owned dropping 3 (RedialPlain (str "192.0.2.1:80")) 60 [sample_get; sample_get] idle_net 0 s1 W Hd) as H.
  fold rt0 in H. set (x := h1_session dropping 3 rt0 [sample_get; sample_get] s1) in *.
  assert (fst (fst x) = [inr sample_response; inr sample_response]) as H1 by (vm_compute; reflexivity).
  assert (rt_conn (snd (fst x)) = 1%nat) as H2 by (vm_compute; reflexivity).
  clearbody x. destruct x as [[rs rt] s2]. destruct H as (_ & _ & _ & _ & _ & H & _). split; [exact H1|]. split; [exact H2|exact H].
Defined.
