(* ===== verification/ConfigLog.v ===== *)
(** * What the start-up log shows (maskURL, logConfig, newLogger and catHandler of cmd/mitmania/main.go)

    The text of a URL as [net/url] prints it, the masking of its credentials, the log of
    the configuration, and the handler of the plainest log format. *)

From S2P Require Import Prelude GoStrings Netip Encoding HostIndex GoUrl Config.

Open Scope Z_scope.

(** ** [URL.String] *)

(** What is printed of a path or a fragment. *)
Inductive print_mode : Type := PrintPath | PrintFragment.

(** [shouldEscape] for the two modes. *)
Definition shouldEscape (mode : print_mode) (c : ascii) : bool :=
  if is_alnum c || bool_decide (c ∈ str "-_.~") then false
  else if bool_decide (c ∈ str "$&+,/:;=?@") then
    match mode with PrintPath => Ascii.eqb c "?" | PrintFragment => false end
  else match mode with PrintPath => true | PrintFragment => negb (bool_decide (c ∈ str "!()*")) end.

Definition upper_hex (d : Z) : ascii := byte_of (if d <? 10 then 48 + d else 55 + d).

Definition escape_with (should : ascii -> bool) (s : bytes) : bytes :=
  flat_map (fun c => if should c then ["%"%char; upper_hex (byte_val c / 16); upper_hex (byte_val c mod 16)] else [c]) s.

(** [validEncoded]. *)
Definition validEncoded (mode : print_mode) (s : bytes) : bool :=
  forallb (fun c => bool_decide (c ∈ str "!$&'()*+,;=:@[]%") || negb (shouldEscape mode c)) s.

(** [EscapedPath] and [EscapedFragment]: the text as it was written, if it still is an
    encoding of the decoded one. *)
Definition escaped (mode : print_mode) (raw decoded : bytes) : bytes :=
  if bool_decide (raw <> []) && validEncoded mode raw
     && match unescape encodePath raw with Ok d => bool_decide (d = decoded) | Error _ => false end then raw
  else match mode with
       | PrintPath => if bool_decide (decoded = str "*") then str "*" else escape_with (shouldEscape PrintPath) decoded
       | PrintFragment => escape_with (shouldEscape PrintFragment) decoded
       end.

(** A parsed URL with the fields only printing looks at. *)
Record url_text : Type := {
  ut_URL : URL; ut_Opaque : bytes; ut_OmitHost : bool; ut_ForceQuery : bool; ut_RawPath : bytes;
  ut_Fragment : bytes; ut_RawFragment : bytes }.

(** [setPath] and [setFragment]: the written form is kept where it is not the usual one. *)
Definition raw_form (mode : print_mode) (text decoded : bytes) : bytes :=
  if bool_decide (escape_with (shouldEscape mode) decoded = text) then [] else text.

Definition split_fragment (raw : bytes) : bytes * bytes :=
  match Cut "#" raw with Some (u, f) => (u, f) | None => (raw, []) end.

(** What follows the scheme. *)
Definition after_scheme (u : bytes) : bytes := match getScheme true u [] u with Ok (_, rest) => rest | Error _ => u end.

(** The text of the path: behind the authority, if there is one. *)
Definition path_text (scheme rest : bytes) : bytes :=
  match CutPrefix (str "//") rest with
  | Some after =>
      if bool_decide (scheme = []) && HasPrefix (str "///") rest then rest
      else match Cut "/" after with Some (_, r) => "/"%char :: r | None => [] end
  | None => rest
  end.

(** The fields [url.Parse] sets besides those of [Parse_url]. *)
Definition parse_text (raw : bytes) : result url_text :=
  url ← Parse_url raw;
  let '(u, frag) := split_fragment raw in
  fragment ← unescape encodePath frag;
  let whole := after_scheme u in
  let '(rest, query) := cut_query whole in
  let scheme := u_Scheme url in
  let opaque := negb (HasPrefix (str "/") rest) && bool_decide (scheme <> []) in
  Ok {| ut_URL := url;
        ut_Opaque := if opaque then rest else [];
        ut_OmitHost := bool_decide (scheme <> []) && HasPrefix (str "/") rest && negb (HasPrefix (str "//") rest);
        ut_ForceQuery := match Cut "?" whole with Some (_, []) => true | _ => false end;
        ut_RawPath := if opaque then [] else raw_form PrintPath (path_text scheme rest) (u_Path url);
        ut_Fragment := fragment; ut_RawFragment := raw_form PrintFragment frag fragment |}.

(** The user information is never printed by the callers: they clear it first. *)
Definition URL_String (t : url_text) : bytes :=
  let u := ut_URL t in
  let front := if bool_decide (u_Scheme u = []) then [] else (u_Scheme u ++ str ":")%list in
  let middle :=
    if bool_decide (ut_Opaque t <> []) then ut_Opaque t
    else
      let authority :=
        if bool_decide (u_Scheme u <> []) || bool_decide (u_Host u <> []) then
          if ut_OmitHost t && bool_decide (u_Host u = []) then []
          else ((if bool_decide (u_Host u <> []) || bool_decide (u_Path u <> []) then str "//" else []) ++ escape_with shouldEscape_host (u_Host u))%list
        else [] in
      let path := escaped PrintPath (ut_RawPath t) (u_Path u) in
      let slash := if bool_decide (path <> []) && negb (HasPrefix (str "/") path) && bool_decide (u_Host u <> []) then str "/" else [] in
      let dot := if bool_decide (front ++ authority ++ slash = [])%list
                    && bool_decide (":"%char ∈ match Cut "/" path with Some (seg, _) => seg | None => path end) then str "./" else [] in
      (authority ++ slash ++ dot ++ path)%list in
  (front ++ middle
   ++ (if ut_ForceQuery t || bool_decide (u_RawQuery u <> []) then "?"%char :: u_RawQuery u else [])
   ++ (if bool_decide (ut_Fragment t <> []) then "#"%char :: escaped PrintFragment (ut_RawFragment t) (ut_Fragment t) else []))%list.

(** ** [maskURL] *)

Definition redacted : bytes := str "<REDACTED>".

Definition without_user (t : url_text) : url_text :=
  let u := ut_URL t in
  {| ut_URL := {| u_Scheme := u_Scheme u; u_User := None; u_Host := u_Host u; u_Path := u_Path u; u_RawQuery := u_RawQuery u |};
     ut_Opaque := ut_Opaque t; ut_OmitHost := ut_OmitHost t; ut_ForceQuery := ut_ForceQuery t; ut_RawPath := ut_RawPath t;
     ut_Fragment := ut_Fragment t; ut_RawFragment := ut_RawFragment t |}.

Definition maskURL (raw : bytes) : bytes :=
  match parse_text raw with
  | Error _ => redacted
  | Ok t =>
      match u_User (ut_URL t) with
      | None => URL_String t
      | Some _ =>
          let prefix := (u_Scheme (ut_URL t) ++ str "://")%list in
          (prefix ++ redacted ++ str "@" ++ TrimPrefix prefix (URL_String (without_user t)))%list
      end
  end.

(** ** [logConfig] *)

Inductive log_value : Type := LText (b : bytes) | LInt (n : Z) | LDuration (ns : Z) | LBool (b : bool) | LRatio (r : ratio).

(** A message and its attributes. *)
Definition log_record : Type := bytes * list (bytes * log_value).

Definition entry (k : string) (v : log_value) : bytes * log_value := (str k, v).

Definition disabled : bytes := str "(disabled)".

Definition shown_addr (a : ConfigAddr) : bytes := (Network a ++ str "://" ++ ConfigAddr_String a)%list.

Definition shown_listener (a : option ConfigAddr) : bytes := match a with Some a => shown_addr a | None => disabled end.

Definition shown_https (a : option HTTPSProxyAddr) : bytes :=
  match a with Some a => (shown_addr (ha_Addr a) ++ str " (cn=" ++ Join (str ",") (ha_Names a) ++ str ")")%list | None => disabled end.

Definition Prefix_String (p : Prefix) : bytes := (AddrString (pfx_addr p) ++ str "/" ++ Itoa (pfx_bits p))%list.

Definition shown_sink (raw : bytes) : bytes := if bool_decide (raw <> []) then maskURL raw else disabled.

Definition logConfig (slog_name : Z -> bytes) (cfg : Config) : list log_record :=
  [(str "config: storage", [entry "url" (LText (maskURL (g_Storage cfg)))]);
   (str "config: listeners",
     [entry "http_proxy" (LText (shown_listener (g_HTTPProxy cfg))); entry "https_proxy" (LText (shown_https (g_HTTPSProxy cfg)));
      entry "http_tproxy" (LText (shown_listener (g_HTTPTProxy cfg))); entry "http_redirect" (LText (shown_listener (g_HTTPRedirect cfg)));
      entry "control" (LText (shown_addr (g_Control cfg)))]);
   (str "config: http framing", [entry "header_limit" (LInt (g_HTTPHeaderLimit cfg)); entry "body_window" (LInt (g_HTTPBodyWindow cfg))]);
   (str "config: http upstream",
     [entry "connect_timeout" (LDuration (g_HTTPConnectTimeout cfg)); entry "read_timeout" (LDuration (g_HTTPReadTimeout cfg));
      entry "connect_tries" (LInt (g_HTTPConnectTries cfg))]);
   (str "config: http client", [entry "read_timeout" (LDuration (g_HTTPClientReadTimeout cfg))]);
   (str "config: http2 upstream",
     [entry "connect_timeout" (LDuration (g_HTTP2ConnectTimeout cfg)); entry "read_timeout" (LDuration (g_HTTP2ReadTimeout cfg));
      entry "connect_tries" (LInt (g_HTTP2ConnectTries cfg))]);
   (str "config: outcall",
     [entry "connect_timeout" (LDuration (g_OutcallConnectTimeout cfg)); entry "read_timeout" (LDuration (g_OutcallReadTimeout cfg));
      entry "max_inflight" (LInt (g_OutcallMaxInflight cfg))]);
   (str "config: trusted proxies",
     [entry "cidrs" (LText (match g_TrustedProxies cfg with [] => disabled | l => Join (str ",") (map Prefix_String l) end))]);
   (str "config: logging",
     [entry "level" (LText (LevelName slog_name (g_LogLevel cfg))); entry "format" (LText (g_LogFormat cfg));
      entry "access_logs" (LBool (negb (g_NoAccessLogs cfg)))]);
   (str "config: telemetry",
     [entry "metrics" (LText (shown_sink (g_OtelMetrics cfg))); entry "traces" (LText (shown_sink (g_OtelTraces cfg)));
      entry "sample_ratio" (LRatio (g_OtelSampleRatio cfg)); entry "propagate_upstream" (LBool (g_OtelPropagateUpstream cfg));
      entry "continue_client" (LBool (g_OtelContinueClient cfg)); entry "resource" (LText (g_OtelResource cfg))])].

(** ** The logger *)

Inductive log_handler : Type := JSONHandler | CatHandler | TextHandler.

Definition newLogger (format : bytes) : log_handler :=
  if bool_decide (format = str "json") then JSONHandler
  else if bool_decide (format = str "cat") then CatHandler
  else TextHandler.

(** [catHandler]; [None] is the zero attribute, which is not printed. *)
Record catHandler : Type := { ch_level : Z; ch_attrs : list (option (bytes * log_value)) }.

Definition Enabled (h : catHandler) (level : Z) : bool := ch_level h <=? level.

Section Cat.
Context (fmt_v : log_value -> bytes).

Definition writeCatAttr (a : option (bytes * log_value)) : bytes :=
  match a with None => [] | Some (k, v) => (" "%char :: k ++ str "=" ++ fmt_v v)%list end.

Definition cat_Handle (h : catHandler) (message : bytes) (attrs : list (option (bytes * log_value))) : bytes :=
  (message ++ flat_map writeCatAttr (ch_attrs h) ++ flat_map writeCatAttr attrs ++ [byte_of 10])%list.

Definition WithAttrs (h : catHandler) (attrs : list (option (bytes * log_value))) : catHandler :=
  {| ch_level := ch_level h; ch_attrs := (ch_attrs h ++ attrs)%list |}.

Definition WithGroup (h : catHandler) (name : bytes) : catHandler := h.
End Cat.

(** ** No credential is logged *)

(** A scheme, as [getScheme] reads it. *)
Definition scheme_char (c : ascii) : bool := is_lower c || is_upper c || is_digit c || bool_decide (c ∈ str "+-.").

Definition scheme_ok (s : bytes) : Prop := exists c t, s = c :: t /\ is_lower c || is_upper c = true /\ Forall (fun c => scheme_char c = true) t.

(** A secret that stays within the user information: it has none of the characters that
    end it. *)
Definition hidden (info : bytes) : Prop := Forall (fun c => c <> "/"%char /\ c <> "?"%char /\ c <> "#"%char /\ is_ctl c = false) info.

(** The parts of what follows the user information. *)
Definition tail_path (tail : bytes) : bytes := fst (cut_query (fst (split_fragment tail))).
Definition tail_host (tail : bytes) : bytes := match Cut "/" (tail_path tail) with Some (h, _) => h | None => tail_path tail end.

Lemma Cut_skip sep a b : sep ∉ a -> Cut sep (a ++ b) = match Cut sep b with Some (x, y) => Some (a ++ x, y)%list | None => None end.
Proof.
  intros Ha. destruct (Cut sep b) as [[x y]|] eqn:E.
  - apply Cut_Some in E as [-> Hx]. apply Cut_Some. rewrite <- app_assoc. split; [done|]. by rewrite not_elem_of_app.
  - apply Cut_None. rewrite not_elem_of_app. split; [done|]. by apply Cut_None.
Qed.

Lemma getScheme_scheme s r whole : scheme_ok s -> getScheme true (s ++ ":"%char :: r) [] whole = Ok (s, r).
Proof.
  intros (c & t & -> & Hc & Ht). cbn [app getScheme]. rewrite Hc. change ([] ++ [c])%list with [c].
  assert (forall acc, getScheme false (t ++ ":"%char :: r) acc whole = Ok (acc ++ t, r)%list) as H; [|by rewrite (H [c])].
  clear Hc. induction Ht as [|d t Hd _ IH]; intros acc; [cbn; by rewrite app_nil_r|]. cbn [app getScheme]. unfold scheme_char in Hd.
  rewrite IH, <- app_assoc. cbn [app].
  destruct (is_lower d || is_upper d); [done|]. cbn [orb] in Hd. by rewrite Hd.
Qed.

Lemma scheme_not_in s c : scheme_ok s -> scheme_char c = false -> c ∉ s.
Proof.
  intros (d & t & -> & Hd & Ht) Hc [->|Hin]%elem_of_cons.
  - unfold scheme_char in Hc. rewrite Hd in Hc. done.
  - rewrite Forall_forall in Ht. by rewrite (Ht c Hin) in Hc.
Qed.

Definition tail_rest (tail : bytes) : bytes := match Cut "/" (tail_path tail) with Some (_, r) => "/"%char :: r | None => [] end.

Definition user_url (scheme info tail : bytes) : bytes := (scheme ++ str "://" ++ info ++ "@"%char :: tail)%list.

Section Masking.
Context (scheme tail : bytes) (Hscheme : scheme_ok scheme) (Hhost : "@"%char ∉ tail_host tail).

Definition front (info : bytes) : bytes := (scheme ++ str "://" ++ info ++ ["@"%char])%list.

Lemma user_url_front info : user_url scheme info tail = (front info ++ tail)%list.
Proof. unfold user_url, front. by rewrite <- !app_assoc. Qed.

Lemma front_without info c : hidden info -> scheme_char c = false -> c ∉ str "://" -> c <> "@"%char -> c ∉ info -> c ∉ front info.
Proof.
  intros Hi Hs Hc Ha Hin. unfold front. rewrite !not_elem_of_app. split_and!; [by apply scheme_not_in|done|done|].
  by intros ->%list_elem_of_singleton.
Qed.

Lemma hidden_without info c : hidden info -> c ∈ [ "/"%char; "?"%char; "#"%char ] -> c ∉ info.
Proof. unfold hidden. rewrite Forall_forall. intros H Hc Hin. specialize (H c Hin). set_solver. Qed.

Lemma split_fragment_front info : hidden info -> split_fragment (front info ++ tail) = ((front info ++ fst (split_fragment tail))%list, snd (split_fragment tail)).
Proof.
  intros Hi. unfold split_fragment. rewrite Cut_skip by (apply front_without; [done|done|by apply (bool_decide_unpack _)|done|apply hidden_without; [done|set_solver]]).
  by destruct (Cut "#" tail) as [[x y]|].
Qed.

Definition behind (info : bytes) : bytes := (str "//" ++ info ++ ["@"%char])%list.

Lemma after_front info r : getScheme true (front info ++ r) [] (front info ++ r) = Ok (scheme, (behind info ++ r)%list).
Proof.
  assert (front info ++ r = scheme ++ ":"%char :: (behind info ++ r))%list as -> by (unfold front, behind; by rewrite <- !app_assoc).
  by apply getScheme_scheme.
Qed.

Lemma behind_query info r : hidden info -> Cut "?" (behind info ++ r) = match Cut "?" r with Some (x, y) => Some (behind info ++ x, y)%list | None => None end.
Proof.
  intros Hi. apply Cut_skip. unfold behind. rewrite !not_elem_of_app.
  split_and!; [by apply (bool_decide_unpack _)|apply hidden_without; [done|set_solver]|by apply (bool_decide_unpack _)].
Qed.

Lemma cut_query_behind info r : hidden info -> cut_query (behind info ++ r) = ((behind info ++ fst (cut_query r))%list, snd (cut_query r)).
Proof. intros Hi. unfold cut_query. rewrite behind_query by done. by destruct (Cut "?" r) as [[x y]|]. Qed.

Lemma authority_behind info : hidden info ->
  match Cut "/" ((info ++ ["@"%char]) ++ tail_path tail) with Some (a, r) => (a, "/"%char :: r) | None => ((info ++ ["@"%char]) ++ tail_path tail, []) end%list
  = ((info ++ "@"%char :: tail_host tail)%list, tail_rest tail).
Proof.
  intros Hi. rewrite Cut_skip.
  - unfold tail_host, tail_rest. destruct (Cut "/" (tail_path tail)) as [[x y]|]; by rewrite <- app_assoc.
  - rewrite not_elem_of_app. split; [apply hidden_without; [done|set_solver]|by apply (bool_decide_unpack _)].
Qed.

Lemma Parse_url_user info : hidden info ->
  Parse_url (front info ++ tail)
  = (url ← (if existsb is_ctl (scheme ++ fst (split_fragment tail)) then Error "net/url: invalid control character in URL"
            else host ← parseHost (tail_host tail); user ← parseUserinfo info; path ← unescape encodePath (tail_rest tail);
                 Ok {| u_Scheme := map lower_byte scheme; u_User := Some user; u_Host := host; u_Path := path;
                       u_RawQuery := snd (cut_query (fst (split_fragment tail))) |});
     _ ← unescape encodePath (snd (split_fragment tail)); Ok url).
Proof.
  intros Hi. unfold Parse_url. fold (split_fragment (front info ++ tail)%list). rewrite split_fragment_front by done. cbn [fst snd].
  set (t1 := fst (split_fragment tail)).
  assert (existsb is_ctl (front info ++ t1) = existsb is_ctl (scheme ++ t1)) as ->.
  { unfold front. rewrite !existsb_app. assert (existsb is_ctl info = false) as ->; [|cbn; by rewrite orb_false_r].
    clear - Hi. induction Hi as [|c l (_ & _ & _ & Hc) _ IH]; [done|]. cbn. by rewrite Hc, IH. }
  destruct (existsb is_ctl (scheme ++ t1)); [done|].
  rewrite bool_decide_false; [|intros E; apply (f_equal length) in E; unfold front in E; rewrite !length_app in E; cbn in E; lia].
  rewrite after_front. cbn [mbind result_bind]. unfold parse_rest. rewrite cut_query_behind by done.
  fold (tail_path tail). replace (fst (cut_query t1)) with (tail_path tail) by done.
  change (behind info ++ tail_path tail)%list with (str "//" ++ ((info ++ ["@"%char]) ++ tail_path tail))%list.
  set (after := ((info ++ ["@"%char]) ++ tail_path tail)%list).
  change (HasPrefix (str "/") (str "//" ++ after)) with true. cbn [negb andb]. change (CutPrefix (str "//") (str "//" ++ after)) with (Some after). cbv iota.
  rewrite bool_decide_false by (destruct Hscheme as (c & t & -> & _); done). cbn [andb]. unfold after. rewrite authority_behind by done.
  unfold parseAuthority. assert (CutLast "@" (info ++ "@"%char :: tail_host tail) = Some (info, tail_host tail)) as -> by (by apply CutLast_Some).
  destruct (parseHost (tail_host tail)); cbn [mbind result_bind]; [|done]. destruct (parseUserinfo info); cbn [mbind result_bind]; done.
Qed.

(** The parsed URL, whoever the user is. *)
Definition user_text (user : bytes * option bytes) (host path fragment : bytes) : url_text :=
  let t1 := fst (split_fragment tail) in
  {| ut_URL := {| u_Scheme := map lower_byte scheme; u_User := Some user; u_Host := host; u_Path := path; u_RawQuery := snd (cut_query t1) |};
     ut_Opaque := []; ut_OmitHost := false; ut_ForceQuery := match Cut "?" t1 with Some (_, []) => true | _ => false end;
     ut_RawPath := raw_form PrintPath (tail_rest tail) path;
     ut_Fragment := fragment; ut_RawFragment := raw_form PrintFragment (snd (split_fragment tail)) fragment |}.

Lemma parse_text_user info : hidden info ->
  match parse_text (front info ++ tail) with
  | Error _ => True
  | Ok t => exists user host path fragment, t = user_text user host path fragment
      /\ parseHost (tail_host tail) = Ok host /\ unescape encodePath (tail_rest tail) = Ok path
      /\ unescape encodePath (snd (split_fragment tail)) = Ok fragment
  end.
Proof.
  intros Hi. unfold parse_text. rewrite Parse_url_user by done. destruct (existsb is_ctl _); [done|].
  destruct (parseHost (tail_host tail)) as [host|]; [|done]. destruct (parseUserinfo info) as [user|]; [|done].
  destruct (unescape encodePath (tail_rest tail)) as [path|] eqn:Ep; [|done]. destruct (unescape encodePath (snd (split_fragment tail))) as [fragment|] eqn:Ef; [|done].
  cbn [mbind result_bind]. rewrite split_fragment_front by done. rewrite Ef. cbn [mbind result_bind]. unfold after_scheme. rewrite after_front.
  rewrite cut_query_behind, behind_query by done. exists user, host, path, fragment. split; [|done].
  fold (tail_path tail). cbn [u_Scheme u_Path].
  change (behind info ++ tail_path tail)%list with (str "//" ++ ((info ++ ["@"%char]) ++ tail_path tail))%list.
  set (after := ((info ++ ["@"%char]) ++ tail_path tail)%list).
  change (HasPrefix (str "/") (str "//" ++ after)) with true. change (HasPrefix (str "//") (str "//" ++ after)) with true. cbn [negb andb].
  rewrite !andb_false_r. unfold user_text. f_equal.
  - by destruct (Cut "?" _) as [[x [|]]|].
  - unfold path_text. change (CutPrefix (str "//") (str "//" ++ after)) with (Some after). cbv iota.
    rewrite bool_decide_false by (destruct Hscheme as (c & t & -> & _); done). cbn [andb]. f_equal.
    pose proof (authority_behind info Hi) as Ha. fold after in Ha. destruct (Cut "/" after) as [[x y]|]; by injection Ha.
Qed.
End Masking.

(** Whatever the credentials of a URL are, its masked form is one of two texts that do not
    depend on them. *)
Lemma maskURL_user scheme tail :
  scheme_ok scheme -> "@"%char ∉ tail_host tail ->
  exists m, forall info, hidden info -> maskURL (user_url scheme info tail) = redacted \/ maskURL (user_url scheme info tail) = m.
Proof.
  intros Hs Hh.
  set (text host path fragment :=
    let t := user_text scheme tail ([], None) host path fragment in
    let prefix := (u_Scheme (ut_URL t) ++ str "://")%list in
    (prefix ++ redacted ++ str "@" ++ TrimPrefix prefix (URL_String (without_user t)))%list).
  exists (match parseHost (tail_host tail), unescape encodePath (tail_rest tail), unescape encodePath (snd (split_fragment tail)) with
          | Ok host, Ok path, Ok fragment => text host path fragment | _, _, _ => redacted end).
  intros info Hi. rewrite user_url_front. unfold maskURL. pose proof (parse_text_user scheme tail Hs Hh info Hi) as H.
  destruct (parse_text _) as [t|e]; [|by left]. destruct H as (user & host & path & fragment & -> & -> & -> & ->). by right.
Qed.

(** A configuration with other secrets. *)
Definition with_secrets (cfg : Config) (storage key : bytes) : Config :=
  {| g_Storage := storage; g_HTTPProxy := g_HTTPProxy cfg; g_HTTPSProxy := g_HTTPSProxy cfg; g_HTTPTProxy := g_HTTPTProxy cfg;
     g_HTTPRedirect := g_HTTPRedirect cfg; g_Control := g_Control cfg; g_ClusterKey := key; g_RulesCacheTTL := g_RulesCacheTTL cfg;
     g_HTTPHeaderLimit := g_HTTPHeaderLimit cfg; g_HTTPBodyWindow := g_HTTPBodyWindow cfg; g_HTTPConnectTimeout := g_HTTPConnectTimeout cfg;
     g_HTTPReadTimeout := g_HTTPReadTimeout cfg; g_HTTPConnectTries := g_HTTPConnectTries cfg; g_HTTPClientReadTimeout := g_HTTPClientReadTimeout cfg;
     g_HTTP2ConnectTimeout := g_HTTP2ConnectTimeout cfg; g_HTTP2ReadTimeout := g_HTTP2ReadTimeout cfg; g_HTTP2ConnectTries := g_HTTP2ConnectTries cfg;
     g_OutcallConnectTimeout := g_OutcallConnectTimeout cfg; g_OutcallReadTimeout := g_OutcallReadTimeout cfg;
     g_OutcallMaxInflight := g_OutcallMaxInflight cfg; g_LogLevel := g_LogLevel cfg; g_LogFormat := g_LogFormat cfg; g_NoAccessLogs := g_NoAccessLogs cfg;
     g_OtelMetrics := g_OtelMetrics cfg; g_OtelTraces := g_OtelTraces cfg; g_OtelResource := g_OtelResource cfg;
     g_OtelSampleRatio := g_OtelSampleRatio cfg; g_OtelPropagateUpstream := g_OtelPropagateUpstream cfg;
     g_OtelContinueClient := g_OtelContinueClient cfg; g_OtelSpoolMaxSize := g_OtelSpoolMaxSize cfg; g_OtelSpoolMaxAge := g_OtelSpoolMaxAge cfg;
     g_TrustedProxies := g_TrustedProxies cfg |}.

(** The log of the configuration does not depend on the cluster key, and on the
    credentials in the storage URL only in whether they can be parsed: it is one of two
    logs, whatever the key and the credentials are. *)
Theorem config_log_hides_secrets slog_name cfg scheme tail :
  scheme_ok scheme -> "@"%char ∉ tail_host tail ->
  exists log1 log2, forall info key, hidden info ->
    logConfig slog_name (with_secrets cfg (user_url scheme info tail) key) = log1
    \/ logConfig slog_name (with_secrets cfg (user_url scheme info tail) key) = log2.
Proof.
  intros Hs Hh. destruct (maskURL_user scheme tail Hs Hh) as [m Hm].
  exists ((str "config: storage", [entry "url" (LText redacted)]) :: tl (logConfig slog_name cfg)),
    ((str "config: storage", [entry "url" (LText m)]) :: tl (logConfig slog_name cfg)).
  intros info key Hi. unfold logConfig at 1 3. cbn [g_Storage with_secrets]. destruct (Hm info Hi) as [-> | ->]; [by left|by right].
Qed.

(** Credentials that are not behind two slashes are logged as they are. *)
Theorem opaque_url_logged :
  let url := str "s3:AKIA:secret@host/?bucket=b" in
  maskURL url = url /\ is_ok (parseStorage no_env (flags_at url 60 (Finite 1 10))) = true.
Proof. split; vm_compute; reflexivity. Qed.

Section MaskSamples.
#[local] Existing Instance ascii_table.

Lemma mask_sample : maskURL (str "s3://AKIA:s3cr%2Fet@Host:9000/a b?bucket=b#x") = str "s3://<REDACTED>@Host:9000/a%20b?bucket=b#x".
Proof. vm_compute. reflexivity. Qed.

Lemma config_log_hides_secrets_witness :
  exists g log1 log2, Parse no_env (flags 60 (Finite 1 10)) = Ok g
  /\ forall key, logConfig (fun _ => []) (with_secrets g (str "s3://AKIA:one@host/?bucket=b") key) = log1
               \/ logConfig (fun _ => []) (with_secrets g (str "s3://AKIA:one@host/?bucket=b") key) = log2.
Proof.
  assert (is_ok (Parse no_env (flags 60 (Finite 1 10))) = true) as Hok by (vm_compute; reflexivity).
  destruct (Parse no_env (flags 60 (Finite 1 10))) as [g|e]; [|discriminate Hok].
  destruct (config_log_hides_secrets (fun _ => []) g (str "s3") (str "host/?bucket=b")) as (log1 & log2 & H).
  - exists "s"%char, (str "3"). split; [reflexivity|]. split; [reflexivity|]. repeat constructor.
  - by apply (bool_decide_unpack _).
  - exists g, log1, log2. split; [reflexivity|]. intros key. apply (H (str "AKIA:one") key). repeat constructor; discriminate.
Defined.
End MaskSamples.
