(* ===== verification/Startup.v ===== *)
(** * Start-up and shutdown (cmd/mitmania/main.go)

    [run] composes the parts: the configuration, telemetry, the storage, the root CA,
    the default table, the control API and the listeners.  What it does is a log of
    events; what the machine answers is a [host].  The goroutines that wait for the
    context are written after what they wait for: the control API's return and the
    end of the accept loops come once the context has ended. *)

From S2P Require Import Prelude GoStrings Netip Encoding X509 CertKeys CertChain Storage StorageTree CertCache CertCorrect CertCA.
From S2P Require Import CertInstance CertSamples GoUrl HostIndex Engine StorageStack StorageOpen Telemetry Config ClientIP Acceptors.

Open Scope Z_scope.

(** ** The listeners *)

Inductive listener_spec : Type :=
  | ListenHTTPProxy (addr : ConfigAddr)
  | ListenHTTPSProxy (addr : HTTPSProxyAddr)
  | ListenHTTPTProxy (addr : ConfigAddr)
  | ListenHTTPRedirect (addr : ConfigAddr).

(** The configured listeners, in the order they are bound. *)
Definition listeners_of (cfg : Config.Config) : list listener_spec :=
  (option_list (ListenHTTPProxy <$> g_HTTPProxy cfg) ++ option_list (ListenHTTPSProxy <$> g_HTTPSProxy cfg)
   ++ option_list (ListenHTTPTProxy <$> g_HTTPTProxy cfg) ++ option_list (ListenHTTPRedirect <$> g_HTTPRedirect cfg))%list.

Definition listen_flag (l : listener_spec) : string :=
  match l with
  | ListenHTTPProxy _ => "listen --listen-http-proxy"
  | ListenHTTPSProxy _ => "listen --listen-https-proxy"
  | ListenHTTPTProxy _ => "listen --listen-http-tproxy"
  | ListenHTTPRedirect _ => "listen --listen-http-redirect"
  end.

Definition acceptor_of (l : listener_spec) : acceptor :=
  match l with
  | ListenHTTPProxy _ => HTTPProxyAcceptor (str "http_proxy")
  | ListenHTTPSProxy _ => HTTPProxyAcceptor (str "https_proxy")
  | ListenHTTPTProxy _ => TProxyAcceptor (str "http_tproxy")
  | ListenHTTPRedirect _ => RedirectAcceptor (str "http_redirect")
  end.

(** *** The control API's listener *)

(** What [os.Remove] answers for a stale socket, and how serving ends: by the context,
    with what shutting down answers, or by [http.Server.Serve] itself. *)
Inductive remove_answer : Type := Removed | RemoveNotExist | RemoveFailed (e : string).
Inductive serve_end : Type := CtxDone (shutdown : result unit) | ErrServerClosed | ServeFailed (e : string).

Record api_host : Type := { ah_Remove : remove_answer; ah_Listen : result unit; ah_Chmod : result unit; ah_end : serve_end }.

Inductive api_event : Type := ApiListening | ApiPrivate | ApiServing | ApiClosed.

(** [Control.ListenAndServe]. *)
Definition ListenAndServe (network : bytes) (h : api_host) : result unit * list api_event :=
  let unix := bool_decide (network = str "unix") in
  match (if unix then ah_Remove h else Removed) with
  | RemoveFailed e => (wrap "control: clear stale socket" (Error e), [])
  | _ =>
      match ah_Listen h with
      | Error e => (wrap "control: listen" (Error e), [])
      | Ok _ =>
          match (if unix then ah_Chmod h else Ok tt) with
          | Error e => (wrap "control: chmod" (Error e), [ApiListening; ApiClosed])
          | Ok _ =>
              (match ah_end h with CtxDone shutdown => shutdown | ErrServerClosed => Ok tt | ServeFailed e => Error e end,
               (ApiListening :: (if unix then [ApiPrivate] else []) ++ [ApiServing; ApiClosed])%list)
          end
      end
  end.

(** What [run] needs of the machine: [net.Listen] by network and address, the socket
    options of a TPROXY listener, the randomness and the clock, and what the control API
    meets. *)
Record host : Type := {
  h_env : environ; h_telemetry : machine;
  h_mkdirAll : bytes -> result unit; h_minio : s3_options -> result unit;
  h_now : Z; h_key : result PrivateKey; h_serial : result Z;
  h_Listen : bytes -> bytes -> result unit;
  h_control_err : option string; h_v4Err : option string; h_v6Err : option string;
  h_api : api_host }.

Section Startup.
Context `{DG : Digests} `{UT : UnicodeTable} `{CR : Crypto} `{XS : X509} `{BU : Bundles} `{UV : UuidV5} `{TR : TrustStores}.
Context {W : Type} (backend : opened -> Storage W) (trees : forall o, TreeStorage W (ST := backend o)) (stored : opened -> W).

(** Why the context ended: a signal, the control API's failure, or a listener that
    could not be bound. *)
Inductive end_cause : Type := Signalled | ControlFailed (e : string) | ListenFailed.

(** What happens, in order. *)
Inductive event : Type :=
  | Telemetry (e : telemetry_event)
  | StoreOpened (v : storage_value)
  | CAReady (ca : CA) (w : W)
  | DefaultReady (w : W)
  | ControlStarted
  | Bound (l : listener_spec)
  | Accepting (l : listener_spec)
  | ContextEnded (why : end_cause)
  | ControlReturned
  | Closed (l : listener_spec).

(** [listenHTTPProxy], [listenHTTPSProxy], [listenTProxy] and [listenRedirect]; the
    second mints its certificate first. *)
Definition listen (h : host) (o : opened) (f : CertFactory) (w : W) (l : listener_spec) : result unit * CertFactory * W :=
  match l with
  | ListenHTTPProxy addr | ListenHTTPRedirect addr => (h_Listen h (Network addr) (ConfigAddr_String addr), f, w)
  | ListenHTTPTProxy addr =>
      (ListenTProxy (h_control_err h) (h_v4Err h) (h_v6Err h) (h_Listen h (Network addr) (ConfigAddr_String addr)), f, w)
  | ListenHTTPSProxy addr =>
      match SelfCert (TS := trees o) 1 f w (h_now h) (ha_Names addr) with
      | (Error e, f, w) => (wrap "self-cert" (Error e), f, w)
      | (Ok _, f, w) => (h_Listen h (Network (ha_Addr addr)) (ConfigAddr_String (ha_Addr addr)), f, w)
      end
  end.

(** Binding one listener after the other; a failure ends the context, closes those
    already bound and waits for the control API. *)
Fixpoint bind_all (h : host) (o : opened) (f : CertFactory) (w : W) (bound todo : list listener_spec) : result unit * list event * W :=
  match todo with
  | [] => (Ok tt, [], w)
  | l :: todo =>
      match listen h o f w l with
      | (Error e, _, w) => (wrap (listen_flag l) (Error e), ([ContextEnded ListenFailed] ++ map Closed bound ++ [ControlReturned])%list, w)
      | (Ok _, f, w) =>
          let '(res, log, w) := bind_all h o f w (bound ++ [l]) todo in (res, Bound l :: log, w)
      end
  end.

(** What ends a proxy that serves. *)
Definition end_of (h : host) (cfg : Config.Config) : end_cause :=
  match fst (ListenAndServe (Network (g_Control cfg)) (h_api h)) with Error e => ControlFailed e | Ok _ => Signalled end.

(** From the control API on. *)
Definition serve (h : host) (o : opened) (cfg : Config.Config) (f : CertFactory) (w : W) : result unit * list event :=
  let ls := listeners_of cfg in
  match bind_all h o f w [] ls with
  | (Error e, log, _) => (Error e, ControlStarted :: log)
  | (Ok _, log, _) =>
      (Ok tt, (ControlStarted :: log ++ map Accepting ls ++ [ContextEnded (end_of h cfg); ControlReturned] ++ map Closed ls)%list)
  end.

(** From the opened store on. *)
Definition start (h : host) (o : opened) (cfg : Config.Config) : result unit * list event :=
  match LoadOrGenerateCA (TS := trees o) 0 (h_now h) (h_key h) (h_serial h) (stored o) (g_ClusterKey cfg) with
  | (Error e, _, _) => (wrap "root CA" (Error e), [])
  | (Ok ca, w, _) =>
      let f := NewCertFactory ca (NewCertCache (g_ClusterKey cfg) ca) (g_ClusterKey cfg) in
      match EnsureDefault (ST := backend o) w with
      | (Error e, _) => (wrap "rules/default" (Error e), [CAReady ca w])
      | (Ok _, w') =>
          let '(res, log) := serve h o cfg f w' in (res, (CAReady ca w :: DefaultReady w' :: log)%list)
      end
  end.

Definition telemetry_config (cfg : Config.Config) : Telemetry.Config :=
  {| tc_MetricsURL := g_OtelMetrics cfg; tc_TracesURL := g_OtelTraces cfg; tc_Resource := g_OtelResource cfg |}.

(** [run], from the flags. *)
Definition run (h : host) (cli : cliFlags) : result unit * list event :=
  match Parse (h_env h) cli with
  | Error e => (Error e, [])
  | Ok cfg =>
      match Setup (h_telemetry h) (telemetry_config cfg) with
      | (Error e, tlog) => (wrap "telemetry" (Error e), map Telemetry tlog)
      | (Ok _, tlog) =>
          let '(res, log) :=
            match Open (h_mkdirAll h) (h_minio h) (h_env h) (g_Storage cfg) with
            | Error e => (wrap "--storage" (Error e), [])
            | Ok o =>
                let '(res, log) := start h o cfg in
                (res, (StoreOpened (WithLogging (WithTelemetry true (opened_value o))) :: log)%list)
            end in
          (res, (map Telemetry tlog ++ log ++ map Telemetry (snd (Shutdown (h_telemetry h))))%list)
      end
  end.

(** [main]: the exit status; the flags are missing when they ask for help. *)
Definition main (h : host) (cli : option cliFlags) : Z :=
  match cli with
  | None => 0
  | Some cli => if is_ok (fst (run h cli)) then 0 else 1
  end.

(** ** What a log shows *)

Definition bounds (log : list event) : list listener_spec := omap (fun e => match e with Bound l => Some l | _ => None end) log.
Definition closes (log : list event) : list listener_spec := omap (fun e => match e with Closed l => Some l | _ => None end) log.
Definition accepts (log : list event) : list listener_spec := omap (fun e => match e with Accepting l => Some l | _ => None end) log.
Definition telemetry_log (log : list event) : list telemetry_event := omap (fun e => match e with Telemetry t => Some t | _ => None end) log.

End Startup.

(** ** Theorems *)

Section Lifecycle.
Context `{DG : Digests} `{UT : UnicodeTable} `{CR : Crypto} `{CS : !CryptoSpec} `{XS : X509} {XP : X509Spec} `{BU : Bundles} {BS : BundlesSpec}.
Context `{UV : UuidV5} `{TR : TrustStores}.
Context {W : Type} (backend : opened -> Storage W) (trees : forall o, TreeStorage W (ST := backend o)) (stored : opened -> W).
Context (specs : forall o, TreeSpec W (TS := trees o)).

Abbreviation event := (event (W := W)).

Lemma omap_map_none {A B C} (f : B -> option C) (g : A -> B) l : (forall a, f (g a) = None) -> omap f (map g l) = [].
Proof. intros H. induction l as [|a l IH]; [done|]. cbn. by rewrite H. Qed.

Lemma omap_map_some {A B} (f : B -> option A) (g : A -> B) l : (forall a, f (g a) = Some a) -> omap f (map g l) = l.
Proof. intros H. induction l as [|a l IH]; [done|]. cbn. rewrite H. by f_equal. Qed.

(** The listeners of a log, piece by piece. *)
Definition shows (log : list event) (b a c : list listener_spec) (t : list telemetry_event) : Prop :=
  bounds log = b /\ accepts log = a /\ closes log = c /\ telemetry_log log = t.

Lemma shows_app l1 l2 b1 a1 c1 t1 b2 a2 c2 t2 :
  shows l1 b1 a1 c1 t1 -> shows l2 b2 a2 c2 t2 -> shows (l1 ++ l2) (b1 ++ b2) (a1 ++ a2) (c1 ++ c2) (t1 ++ t2).
Proof. intros (<- & <- & <- & <-) (<- & <- & <- & <-). unfold shows, bounds, accepts, closes, telemetry_log. by rewrite !omap_app. Qed.

Lemma shows_closed l : shows (map Closed l) [] [] l [].
Proof. split_and!; by (apply omap_map_none || apply omap_map_some). Qed.

Lemma shows_accepting l : shows (map Accepting l) [] l [] [].
Proof. split_and!; by (apply omap_map_none || apply omap_map_some). Qed.

Lemma shows_telemetry l : shows (map Telemetry l) [] [] [] l.
Proof. split_and!; by (apply omap_map_none || apply omap_map_some). Qed.

Lemma bind_all_shows h o todo : forall f w bound res log w',
  bind_all backend trees h o f w bound todo = (res, log, w') ->
  match res with
  | Ok _ => shows log todo [] [] []
  | Error _ => exists now, shows log now [] (bound ++ now) []
  end.
Proof.
  induction todo as [|l todo IH]; intros f w bound res log w' H; cbn [bind_all] in H; [by injection H as <- <- <-|].
  destruct (listen backend trees h o f w l) as [[[[]|e] f1] w1].
  - destruct (bind_all backend trees h o f1 w1 (bound ++ [l]) todo) as [[res1 log1] w2] eqn:E. injection H as <- <- <-.
    specialize (IH _ _ _ _ _ _ E). destruct res1 as [[]|e].
    + destruct IH as (<- & Ha & Hc & Ht). by split_and!.
    + destruct IH as (now & <- & Ha & Hc & Ht). exists (l :: bounds log1). rewrite <- app_assoc in Hc. by split_and!.
  - injection H as <- <- <-. exists []. rewrite app_nil_r.
    apply (shows_app [ContextEnded _] _ [] [] [] []); [done|]. rewrite <- (app_nil_r bound) at 2. by apply (shows_app _ _ [] [] bound [] [] [] [] []); [apply shows_closed|].
Qed.

Lemma serve_shows h o cfg f w res log :
  serve backend trees h o cfg f w = (res, log) ->
  match res with
  | Ok _ => shows log (listeners_of cfg) (listeners_of cfg) (listeners_of cfg) []
  | Error _ => exists now, shows log now [] now []
  end.
Proof.
  intros H. unfold serve in H. destruct (bind_all backend trees h o f w [] (listeners_of cfg)) as [[[[]|e] blog] w'] eqn:E.
  - apply bind_all_shows in E. injection H as <- <-. set (ls := listeners_of cfg) in *.
    pose proof (shows_app _ _ _ _ _ _ _ _ _ _ (shows_accepting ls) (shows_app [ContextEnded (end_of h cfg); ControlReturned] _ [] [] [] [] _ _ _ _ ltac:(done) (shows_closed ls))) as H.
    pose proof (shows_app _ _ _ _ _ _ _ _ _ _ E H) as H1. cbn [app] in H1. rewrite !app_nil_r in H1.
    exact (shows_app [ControlStarted] _ [] [] [] [] _ _ _ _ ltac:(done) H1).
  - apply bind_all_shows in E as (now & E). injection H as <- <-. exists now. exact (shows_app [ControlStarted] _ [] [] [] [] _ _ _ _ ltac:(done) E).
Qed.

Context (stat_get : forall o w k v, Stat (Storage := backend o) w k = SOk v -> exists d, Get (Storage := backend o) w k = SOk (d, v)).

Lemma EnsureDefault_present o w w' :
  EnsureDefault (ST := backend o) w = (Ok tt, w') -> exists d v, Get (Storage := backend o) w' defaultKey = SOk (d, v).
Proof.
  unfold EnsureDefault, stat. destruct (Stat w defaultKey) as [v| |e] eqn:E; [..|done].
  - intros [= <-]. apply stat_get in E as [d E]. eauto.
  - destruct (SaveDefault w _) as [[[]| |] w1] eqn:Ep; [|done..]. intros [= <-]. apply (tree_get_put (TreeSpec := specs o)) in Ep. naive_solver.
Qed.

(** What holds when the control API and the listeners start. *)
Definition ready (o : opened) (ck : bytes) (log : list event) : Prop :=
  exists ca w w' rest, log = CAReady ca w :: DefaultReady w' :: ControlStarted :: rest
    /\ ca_ok ca /\ ca_signs ca
    /\ (exists v, Get (Storage := backend o) w tupleKey = SOk (tupleHash (ca_Cert ca) ck, v))
    /\ (exists d v, Get (Storage := backend o) w' defaultKey = SOk (d, v)).

Lemma serve_begins h o cfg f w : exists rest, snd (serve backend trees h o cfg f w) = ControlStarted :: rest.
Proof. unfold serve. destruct (bind_all _ _ _ _ _ _ _ _) as [[[[]|e] log] w']; by eexists. Qed.

Lemma start_shows h o cfg res log :
  plain (TreeSpec := specs o) (stored o) caKey -> plain (TreeSpec := specs o) (stored o) tupleKey ->
  start backend trees stored h o cfg = (res, log) ->
  match res with
  | Ok _ => shows log (listeners_of cfg) (listeners_of cfg) (listeners_of cfg) [] /\ ready o (g_ClusterKey cfg) log
  | Error _ => exists now, shows log now [] now [] /\ (now = [] \/ ready o (g_ClusterKey cfg) log)
  end.
Proof.
  intros Hc Ht H. unfold start in H.
  destruct (LoadOrGenerateCA _ _ _ _ _ _) as [[[ca|e] w] hist] eqn:Eca; [|injection H as <- <-; exists []; by split; [|left]].
  apply (LoadOrGenerateCA_reconciled (TP := specs o)) in Eca as [_ Eca]; [|done..]. destruct (Eca ca eq_refl) as (Hok & Hs & Htup & _).
  destruct (EnsureDefault w) as [[[]|e] w1] eqn:Ed; [|injection H as <- <-; exists []; by split; [|left]].
  apply EnsureDefault_present in Ed. set (f := NewCertFactory _ _ _) in H. destruct (serve_begins h o cfg f w1) as [rest Hrest].
  destruct (serve backend trees h o cfg f w1) as [res1 log1] eqn:Es. cbn [snd] in Hrest. injection H as <- <-.
  apply serve_shows in Es.
  assert (ready o (g_ClusterKey cfg) (CAReady ca w :: DefaultReady w1 :: log1)) as Hready by (subst; exists ca, w, w1, rest; by split_and!).
  destruct res1 as [[]|e]; [split; [exact Es|done]|]. destruct Es as [now Es]. exists now. split; [exact Es|by right].
Qed.

Lemma listeners_nonempty cli cfg : config_valid cli cfg -> listeners_of cfg <> [].
Proof. intros Hv. unfold listeners_of. by destruct (v_listens _ _ Hv) as [[a ->]|[[a ->]|[[a ->]|[a ->]]]]; destruct (g_HTTPProxy cfg), (g_HTTPSProxy cfg), (g_HTTPTProxy cfg). Qed.

(** C16: the life of the proxy.  Whatever fails on the way, every listener that was bound
    is closed again, in order, and telemetry is stopped by the end of the log.  The accept
    loops run exactly when the run succeeds, and then over every configured listener, of
    which there is at least one.  Nothing is bound before the CA is loaded, may sign and has
    its tuple in the store, and the default table is in the store. *)
Theorem run_lifecycle h cli res log :
  (forall o, plain (TreeSpec := specs o) (stored o) caKey /\ plain (TreeSpec := specs o) (stored o) tupleKey) ->
  run backend trees stored h cli = (res, log) ->
  closes log = bounds log
  /\ metrics_running (telemetry_log log) = false /\ traces_running (telemetry_log log) = false
  /\ match res with
     | Ok _ => exists cfg, Parse (h_env h) cli = Ok cfg /\ bounds log = listeners_of cfg /\ accepts log = listeners_of cfg /\ listeners_of cfg <> []
     | Error _ => accepts log = []
     end
  /\ (bounds log <> [] -> exists cfg o tlog serving,
       Parse (h_env h) cli = Ok cfg /\ Open (h_mkdirAll h) (h_minio h) (h_env h) (g_Storage cfg) = Ok o /\ ready o (g_ClusterKey cfg) serving
       /\ log = (map Telemetry tlog ++ StoreOpened (WithLogging (WithTelemetry true (opened_value o))) :: serving
                 ++ map Telemetry (snd (Shutdown (h_telemetry h))))%list).
Proof.
  intros Hplain H. unfold run in H. destruct (Parse (h_env h) cli) as [cfg|e] eqn:Ep; [|by injection H as <- <-].
  destruct (Setup _ _) as [[res1|e] tlog] eqn:Et; apply Setup_log in Et; cycle 1.
  { destruct (shows_telemetry tlog) as (Hb & Ha & Hc & Ht). injection H as <- <-. rewrite Hb, Ha, Hc, Ht. split_and!; try done; by destruct Et as [->|[? ->]]. }
  destruct Et as (a & b & ->). set (log0 := match Open _ _ _ _ with Ok _ => _ | _ => _ end) in H.
  assert (exists serving, log0 = (fst log0, serving)) as [serving E0] by (destruct log0; by eexists). rewrite E0 in H. apply pair_equal_spec in H as [<- <-].
  assert (exists now acc, shows serving now acc now []
            /\ match fst log0 with Ok _ => now = listeners_of cfg /\ acc = listeners_of cfg | Error _ => acc = [] end
            /\ (now <> [] -> exists o rest, Open (h_mkdirAll h) (h_minio h) (h_env h) (g_Storage cfg) = Ok o
                  /\ serving = StoreOpened (WithLogging (WithTelemetry true (opened_value o))) :: rest /\ ready o (g_ClusterKey cfg) rest))
    as (now & acc & Hshows & Hres & Hready).
  { unfold log0 in *. destruct (Open _ _ _ _) as [o|e]; [|injection E0 as <-; by exists [], []].
    destruct (start backend trees stored h o cfg) as [res2 log2] eqn:Es. injection E0 as <-. cbn [fst].
    destruct (Hplain o) as [Hc Ht]. apply (start_shows _ _ _ _ _ Hc Ht) in Es. destruct res2 as [[]|e].
    - destruct Es as [Es Hr]. exists (listeners_of cfg), (listeners_of cfg). split_and!; [exact Es|done..|]. intros _. by exists o, log2.
    - destruct Es as (now & Es & Hr). exists now, []. split_and!; [exact Es|done|]. intros Hn. destruct Hr as [->|Hr]; [done|]. by exists o, log2. }
  pose proof (shows_app _ _ _ _ _ _ _ _ _ _ (shows_telemetry [MetricsStarted a; TracesStarted b])
    (shows_app _ _ _ _ _ _ _ _ _ _ Hshows (shows_telemetry (snd (Shutdown (h_telemetry h)))))) as (Hb & Ha & Hc & Ht).
  rewrite Hb, Ha, Hc, Ht. cbn [app]. rewrite !app_nil_r. split_and!; try done.
  - destruct (fst log0); [|done]. destruct Hres as [-> ->]. exists cfg. split_and!; try done. eapply listeners_nonempty, Parse_valid, Ep.
  - intros Hn. destruct (Hready Hn) as (o & rest & Ho & -> & Hr). by exists cfg, o, [MetricsStarted a; TracesStarted b], rest.
Qed.

End Lifecycle.

(** A control socket is served only once no other user can reach it, and is closed
    however serving it ends. *)
Theorem control_socket_private network h res log :
  ListenAndServe network h = (res, log) ->
  (ApiServing ∈ log -> network = str "unix" -> log = [ApiListening; ApiPrivate; ApiServing; ApiClosed])
  /\ (ApiListening ∈ log -> last log = Some ApiClosed).
Proof.
  unfold ListenAndServe. intros H. case_bool_decide as Hu; repeat (case_match; simplify_eq); split; intros; try done; set_solver.
Qed.

(** When the control API cannot be served the proxy stops, and its exit status is that of
    a proxy that was asked to stop. *)
Theorem control_failure_exits_zero `{DG : Digests} `{UT : UnicodeTable} `{CR : Crypto} `{XS : X509} `{BU : Bundles} `{UV : UuidV5} `{TR : TrustStores}
    {W : Type} (backend : opened -> Storage W) (trees : forall o, TreeStorage W (ST := backend o)) (stored : opened -> W) h cli e :
  ah_Listen (h_api h) = Error e -> fst (run backend trees stored h cli) = Ok tt ->
  main backend trees stored h (Some cli) = 0 /\ exists e', ContextEnded (ControlFailed e') ∈ snd (run backend trees stored h cli).
Proof.
  intros Ha Hok. unfold main. rewrite Hok. split; [done|]. unfold run in *. destruct (Parse (h_env h) cli) as [cfg|]; [|done].
  destruct (Setup _ _) as [[res|] tlog]; [|done]. destruct (Open _ _ _ _) as [o|]; [|done].
  unfold start in *. destruct (LoadOrGenerateCA _ _ _ _ _ _) as [[[ca|] w] hist]; [|done]. destruct (EnsureDefault w) as [[[]|] w1]; [|done].
  unfold serve, end_of in *. destruct (bind_all _ _ _ _ _ _ _ _) as [[[[]|] log] w2]; [|done]. cbn [snd].
  assert (exists e', fst (ListenAndServe (Network (g_Control cfg)) (h_api h)) = Error e') as [e' ->].
  { unfold ListenAndServe. rewrite Ha. destruct (bool_decide _); [destruct (ah_Remove (h_api h))|]; by eexists. }
  exists e'. rewrite !elem_of_app, !elem_of_cons, !elem_of_app. right. left. do 4 right. set_solver.
Qed.

(** ** A first start *)

Section StartupSamples.
#[local] Existing Instance toy_digests.
#[local] Existing Instance ascii_table.
#[local] Existing Instance toy_crypto.
#[local] Existing Instance toy_crypto_spec.
#[local] Existing Instance toy_x509.
#[local] Existing Instance toy_x509_spec.
#[local] Existing Instance toy_uuids.
#[local] Existing Instance toy_stores.
#[local] Existing Instance toy_bundles.
#[local] Existing Instance toy_bundles_spec.

(** A machine on which everything works but the second listener's port. *)
Definition sample_host (second_port : result unit) : host :=
  {| h_env := no_env; h_telemetry := sample_machine; h_mkdirAll := any_dir; h_minio := any_client;
     h_now := sample_time; h_key := Ok (sample_key 5); h_serial := Ok 77;
     h_Listen := fun _ addr => if bool_decide (addr = str ":3128") then Ok tt else second_port;
     h_control_err := None; h_v4Err := None; h_v6Err := None; h_api := {| ah_Remove := RemoveNotExist; ah_Listen := Ok tt; ah_Chmod := Ok tt; ah_end := CtxDone (Ok tt) |} |}.

Definition sample_flags : cliFlags := flags_at (str "posix:///var/lib/mitmania") 60 (Finite 1 10).

Definition sample_run (second_port : result unit) :=
  run (fun _ => tree_storage) (fun _ => tree_tree) (fun _ => empty_disk) (sample_host second_port) sample_flags.

Lemma tree_stat_get (w : tree) k v : Stat w k = SOk v -> exists d, Get w k = SOk (d, v).
Proof.
  cbn. unfold tree_Stat, tree_Get. destruct (follow_links _ _ _) as [p|]; [|done]. unfold posix_Stat, posix_Get.
  repeat case_match; naive_solver.
Qed.

Lemma run_lifecycle_witness :
  is_ok (fst (sample_run (Ok tt))) = true /\ is_ok (fst (sample_run (Error "in use"))) = false
  /\ closes (snd (sample_run (Ok tt))) = bounds (snd (sample_run (Ok tt))) /\ bounds (snd (sample_run (Ok tt))) <> []
  /\ closes (snd (sample_run (Error "in use"))) = bounds (snd (sample_run (Error "in use"))).
Proof.
  assert (is_ok (fst (sample_run (Ok tt))) = true) as Hok by (vm_compute; reflexivity).
  assert (is_ok (fst (sample_run (Error "in use"))) = false) as Hfail by (vm_compute; reflexivity).
  split; [exact Hok|]. split; [exact Hfail|].
  assert (forall o : opened, tree_plain empty_disk caKey /\ tree_plain empty_disk tupleKey) as Hplain by (intros _; split; apply empty_disk_plain).
  destruct (run_lifecycle (fun _ => tree_storage) (fun _ => tree_tree) (fun _ => empty_disk) (fun _ => tree_spec) (fun _ => tree_stat_get)
    (sample_host (Ok tt)) sample_flags _ _ Hplain (surjective_pairing _)) as (H1 & _ & _ & H2 & _).
  destruct (run_lifecycle (fun _ => tree_storage) (fun _ => tree_tree) (fun _ => empty_disk) (fun _ => tree_spec) (fun _ => tree_stat_get)
    (sample_host (Error "in use")) sample_flags _ _ Hplain (surjective_pairing _)) as (H3 & _).
  split; [exact H1|]. split; [|exact H3]. unfold sample_run in *.
  destruct (fst (run _ _ _ (sample_host (Ok tt)) _)) as [[]|e]; [|discriminate Hok]. destruct H2 as (cfg & _ & -> & _ & Hn). exact Hn.
Defined.
End StartupSamples.
